(* ===== verification/_CoqProject ===== *)
-Q . S2P
Prelude.v
RustStd.v
F64.v
Effects.v
Breaker.v
Deps.v
Policy.v
Identity.v
Authorizer.v
RateLimit.v
Session.v
Crypto.v
Toy.v
Worker.v
Pool.v
PoolSpec.v
Answers.v
Cache.v
Wire.v
Pooled.v
Single.v
Provision.v
TokenCheck.v
Telemetry.v
Main.v
Spike.v
Ceiling.v
System.v
Whole.v
Progress.v
Lookups.v
Deployment.v
Tests.v
