(* ===== verification/Prelude.v ===== *)
(** * A verified model of the gRPC / PKCS#11 low-latency proxy

    The program (Rust, [src/proxy/src]) serves cryptographic operations over gRPC
    from keys that live on a PKCS#11 token.  A request passes admission (circuit
    breaker, authorization policy on the client certificate, rate limit), and then
    either becomes a job for one of N worker threads, each owning one token session,
    or, if it only needs a public key, is answered from a cache and verified in
    process.  This library models that code definition by definition and proves what
    makes it correct.

    ** Conventions

    - Pure code is a function; code that changes state is a function on the state,
      fallible code returns [result] or, with state, [stR] (this file).  An [async]
      handler is a [prog] of effects ([Effects]); a statement on [all_runs] covers
      every answer of the environment.  Threads and tasks interleave in step
      relations ([CB.step], [Pool.step], [system_step], [whole_step], [process_step],
      [point_step]).
    - Integers are [Z] with the width written out ([RustStd]): counters wrap at
      [2 ^ 64], parsed values are range checked, [f64] is binary64 ([SpecFloat]).
    - Code of other crates is never defined: it is a class or a section variable, with
      laws only where a theorem needs them, and each such class has a concrete
      instance: [Cryptoki] (the PKCS#11 module; laws [ReadOnlyQueries], [SessionTable],
      [TokenObjects], [TokenUse] and [KeyStore], in which an object handle means something
      only to the session that found it; instance [Toy.toy_token]), [CryptoLib]
      ([CryptoLaws], [SpkiLaws]), [Channel] ([ChannelOk]), [governor] and [moka] in
      [RateLimit] ([LimitersOk], [Roomy], [Governor]), [moka] again as the relation
      [cache_answer], X.509, TOML, file system, [f64::from_str] and
      [SocketAddr::from_str] as functions.

    ** Files

    - [Prelude], [RustStd], [F64], [Effects]: results, state passing, bytes, machine
      integers, time, binary64 facts, programs over effects.  [Deps]: the types of other
      crates that the proxy builds and inspects.
    - [Breaker] ([resilience/breaker.rs]): the breaker's atomics and lock, operations and
      interleavings of callers ([CB]).
    - [Policy], [Identity], [Authorizer] ([authz/]): policy compilation and lookup,
      identity extraction with its memo table, both in one check.
    - [RateLimit] ([resilience/ratelimit.rs]): one bucket per identity ([RL]).
    - [Session] ([pkcs11/session.rs], [pkcs11/errors.rs]): opening and searching a token.
    - [Crypto] ([crypto.rs]): mechanisms, DER, public keys, verification in process.
    - [Toy]: a small token on which witnesses evaluate the definitions.
    - [Worker] ([pkcs11/job.rs], [metrics.rs], [worker.rs]): jobs, counters, the loop of a
      worker with its handle cache and session resets.
    - [Pool] ([pkcs11/pool.rs]): start, submit, timeouts, cancellation, shutdown, the
      workers as seen from the pool.  [PoolSpec]: what callers see, and the refinement.
      [Answers]: where what callers see comes from, on a token that keeps its keys.
    - [Cache] ([cache/mod.rs]): coalesced and abandoned loads, expiry by outcome, counters.
    - [Wire] ([proto/hsm/v1/hsm.proto]): messages and request checks.
    - [Pooled] ([grpc/pooled.rs]): admission, reporting and the five handlers.
    - [Single] ([grpc/service.rs]): the single-session backend.
    - [System]: many handlers over one authorizer and one pool; breaker, limiter and
      cache may answer anything.  [Whole]: the same with every component's own state
      ([Parts]: what [PooledService] holds), real time, dropped clients and the loads they
      abandon, and a scheduler that runs it.  [Progress]: nobody waits for ever in it.
      [Lookups]: what the key cache saves in it, and how old its keys are.
    - [Provision] ([pkcs11/provision.rs], [bin/provision.rs]) and [TokenCheck]
      ([bin/token-check.rs]): creating and checking the demo keys.
    - [Telemetry] ([telemetry/metrics.rs]): series, buckets, recorder, endpoint, sampler.
    - [Main] ([main.rs]): configuration, TLS and policy loading, startup, signals, reports,
      shutdown, and [main] next to the tasks it hands clones of the pool to.
    - [Deployment]: [Main] and [Whole] put together, from the policy file to the token.
    - [Spike] ([bin/spike.rs]) and [Ceiling] ([bin/hsm-ceiling.rs]): the measuring programs.
    - [Tests]: the unit tests of breaker, limiter, policy and identity, and that they pass.

    ** What the theorems show

    - Pool: calls are conserved and answered at most once, [submit] refuses at once when
      full and returns by its deadline, shutdown drains in a bounded number of steps,
      start is all or nothing; the pool refines a service of one-shot calls.
    - Workers: the handle cache is transparent across session resets, sessions are
      neither leaked nor shared, a response is of its request's variant, and it is the
      token's own answer although handles end with their session
      ([pool_answers_are_the_tokens]).
    - Verification: in-process verification agrees with the token for every mechanism and
      input form; payload preparation and digest recovery round trip; the DER decoder
      accepts exactly its encodings and never reads past its input.
    - The whole: whatever interleaves, every job that enters the pool was permitted by the
      policy for the certificate of the request it serves ([no_job_without_permission]);
      every successful response carries what the token gave for that key and input
      ([responses_come_from_the_token], on top of [pool_answers_are_the_tokens]), so what
      one request signed or encrypted another verifies or decrypts
      ([crypto_round_trips]); a public key is looked up once, however many ask for it
      ([public_keys_are_looked_up_once]), and is no older than its time to live when a
      reply is made with it ([public_keys_are_fresh]); an open circuit keeps every
      request off the token ([open_circuit_shields_the_token]); and every request can be
      answered within two timeouts of the pool, whoever goes away
      ([no_request_is_stuck]).  Deployed, the policy file as it is written governs every
      job ([policy_file_governs_the_token]).
    - Handlers: breaker, authorizer and limiter are asked in this order and nothing
      reaches the token or the cache before the last of them answered
      ([admission_guards_the_token]); an admitted, well-formed secret operation makes
      exactly one job, a public one a job only on a miss; no job is answered with the
      wrong variant; the single-session service answers as a worker with its cached
      handles does ([backends_agree]).
    - Breaker, limiter, policy, identity: representation invariants under interleaving,
      exact trip condition including the [f64] test, recovery, isolation of identities,
      a burst for each, exact meaning of the policy file, transparency of the memo table.
    - Provisioning and check: keys are protected whatever fails, a second run changes
      nothing, a passed check means what it says and leaves nothing behind.
    - Startup: what is served is secured unless security was switched off by name;
      sampled counters equal the totals.
    - Where the code does not do what its comments say, a theorem shows the behaviour:
      [stale_load_reopens_closed], [late_failure_counts_trip],
      [lost_session_is_never_reopened], [zero_workers_start_and_refuse],
      [overload_counts_as_failure_for_public_keys], [single_mode_ignores_policy],
      [drain_never_runs], [failed_probe_hangs_run_point], [half_pair_counts_as_present].

    ** Bounds and fuel

    [trim] and [split_words] recurse on fuel equal to the length of their input, of
    which each round removes at least one byte.  Queue laws are for a positive depth: a
    depth of zero is a rendezvous.  Counter equalities are modulo [2 ^ 64].  The ratio
    test of the breaker is exact for counts below [2 ^ 53].  Handlers are finite programs, so
    [no_request_is_stuck] is an induction on what is left of one.

    ** Not modelled

    Log lines (other than the reports at the end) and console output; the values in the
    metrics registry, in [Whole]; TLS handshakes, HTTP/2 and [tonic]'s request routing and
    limits; panics of worker threads; module declarations and code generated from the
    protocol buffers, which hold no logic of their own; the weak memory order of relaxed atomics (each access is one step).  In
    [Ceiling] a probe's set-up is one step. *)
From stdpp Require Export base gmap strings list pretty numbers relations.
From Stdlib Require Export Init.Byte.
From Stdlib Require Strings.Byte Strings.String Strings.Ascii.
Export Ascii.AsciiSyntax.
Delimit Scope char_scope with char.

(** ** Results

    Rust's [Result<T, E>], with the [?] operator as a binding notation. *)

Inductive result (A E : Type) : Type :=
| Ok (a : A)
| Err (e : E).

Global Arguments Ok {A E} a.
Global Arguments Err {A E} e.

Definition result_bind {A B E} (m : result A E) (k : A → result B E) : result B E :=
  match m with
  | Ok a => k a
  | Err e => Err e
  end.

(** [Result::map] and [Result::map_err]. *)
Definition result_map {A B E} (f : A → B) (m : result A E) : result B E :=
  match m with Ok a => Ok (f a) | Err e => Err e end.

Definition map_err {A E F} (f : E → F) (m : result A E) : result A F :=
  match m with Ok a => Ok a | Err e => Err (f e) end.

(** [Option::ok_or_else] and [Result::ok]. *)
Definition ok_or {A E} (o : option A) (e : E) : result A E :=
  match o with Some a => Ok a | None => Err e end.

Definition result_ok {A E} (m : result A E) : option A :=
  match m with Ok a => Some a | Err _ => None end.

Definition is_ok {A E} (m : result A E) : bool :=
  match m with Ok _ => true | Err _ => false end.

Declare Scope rust_scope.
Delimit Scope rust_scope with rust.

Notation "'let?' x := m 'in' k" := (result_bind m (λ x, k))
  (at level 10, x name, m at level 200, k at level 200,
   format "'[v' 'let?'  x  :=  '[' m ']'  'in' '/' k ']'") : rust_scope.
Notation "'let?' ' p := m 'in' k" := (result_bind m (λ x, match x with p => k end))
  (at level 10, p strict pattern, m at level 200, k at level 200) : rust_scope.

#[global] Instance result_eq_dec {A E} `{EqDecision A, EqDecision E} :
  EqDecision (result A E).
Proof. solve_decision. Defined.

(** ** State passing with errors

    A stateful fallible operation over [S]: it always returns the new state,
    also when it fails, because in the source an early return keeps every
    effect that preceded it. *)

Definition st (S A : Type) : Type := S → A * S.
Definition stR (S E A : Type) : Type := S → result A E * S.

Definition st_ret {S A} (a : A) : st S A := λ s, (a, s).
Definition st_bind {S A B} (m : st S A) (k : A → st S B) : st S B :=
  λ s, let '(a, s') := m s in k a s'.

Definition stR_bind {S E A B} (m : stR S E A) (k : A → stR S E B) : stR S E B :=
  λ s, match m s with
       | (Ok a, s') => k a s'
       | (Err e, s') => (Err e, s')
       end.

Definition stR_map_err {S E F A} (f : E → F) (m : stR S E A) : stR S F A :=
  λ s, let '(r, s') := m s in (map_err f r, s').

Definition stR_map {S E A B} (f : A → B) (m : stR S E A) : stR S E B :=
  λ s, let '(r, s') := m s in (result_map f r, s').

Definition stR_lift {S E A} (r : result A E) : stR S E A := λ s, (r, s).

Notation "'do' x <- m ; k" := (stR_bind m (λ x, k))
  (at level 10, x name, m at level 200, k at level 200,
   format "'[v' 'do'  x  <-  '[' m ']' ; '/' k ']'") : rust_scope.
Notation "'do' ' p <- m ; k" := (stR_bind m (λ x, match x with p => k end))
  (at level 10, p strict pattern, m at level 200, k at level 200) : rust_scope.
Notation "'let!' x := m 'in' k" := (st_bind m (λ x, k))
  (at level 10, x name, m at level 200, k at level 200,
   format "'[v' 'let!'  x  :=  '[' m ']'  'in' '/' k ']'") : rust_scope.

(** ** Bytes *)

Abbreviation bytes := (list byte).

#[global] Instance byte_eq_dec : EqDecision byte := Byte.byte_eq_dec.

#[global] Program Instance byte_countable : Countable byte :=
  inj_countable Byte.to_N Byte.of_N _.
Next Obligation. intros b. apply Byte.of_to_N. Qed.

Definition byte_val (b : byte) : Z := Z.of_N (Byte.to_N b).

Lemma byte_val_range b : (0 ≤ byte_val b < 256)%Z.
Proof. unfold byte_val. pose proof (Byte.to_N_bounded b). lia. Qed.

(** [str::as_bytes]. *)
Definition as_bytes (s : string) : bytes := String.list_byte_of_string s.

Lemma as_bytes_inj s1 s2 : as_bytes s1 = as_bytes s2 → s1 = s2.
Proof.
  intros H. rewrite <-(String.string_of_list_byte_of_string s1),
    <-(String.string_of_list_byte_of_string s2). unfold as_bytes in H. by rewrite H.
Qed.

(** ** Sums over lists *)

Lemma sum_insert {A} (f : A → nat) (l : list A) i x y :
  l !! i = Some x → (sum_list_with f (<[i := y]> l) + f x = sum_list_with f l + f y)%nat.
Proof.
  revert i. induction l as [|z l IH]; intros [|i]; simpl; try done.
  - intros [= ->]. lia.
  - intros Hi. specialize (IH i Hi). lia.
Qed.

(** ** Automation *)

Create HintDb proxy.
Create Rewrite HintDb proxy.

(** Split every [match] of the goal and of the hypotheses, keeping the
    equations and discarding the contradictory branches. *)
Ltac split_cases := repeat (case_match; simplify_eq/=).

(** Unfold the monadic plumbing. *)
Ltac unfold_st :=
  unfold st_ret, st_bind, stR_bind, stR_lift, stR_map_err, stR_map, result_bind, result_map, map_err, ok_or in *.
