(* ===== verification/RustStd.v ===== *)
(** * The parts of the Rust language and standard library the proxy uses

    Machine integers ([u64] counters wrap on [fetch_add], [usize] and [u32]
    configuration values are range checked by [FromStr]), [Duration] and
    [Instant] as integers of nanoseconds, [f64] as the binary64 format of the
    standard library's [SpecFloat], environment variables, and the printing
    and parsing of integers. *)
From S2P Require Import Prelude.
From Stdlib Require Export SpecFloat.

Local Open Scope Z_scope.

(** ** Machine integers *)

Definition u8_max : Z := 2 ^ 8 - 1.
Definition u32_max : Z := 2 ^ 32 - 1.
Definition u64_max : Z := 2 ^ 64 - 1.

(** An unsigned [w]-bit value. *)
Definition in_u (w z : Z) : Prop := 0 ≤ z < 2 ^ w.

#[global] Instance in_u_dec w z : Decision (in_u w z).
Proof. unfold in_u. apply _. Defined.

(** [AtomicU64::fetch_add] wraps around, and so does [+=] on a [u64] in the
    release profile, which leaves overflow checks off. *)
Definition wrap_u64 (z : Z) : Z := z mod 2 ^ 64.
Definition wrap_u32 (z : Z) : Z := z mod 2 ^ 32.

Definition fetch_add (counter n : Z) : Z := wrap_u64 (counter + n).
Definition incr (counter : Z) : Z := fetch_add counter 1.

(** [u64::saturating_sub]. *)
Definition saturating_sub (a b : Z) : Z := Z.max 0 (a - b).

Lemma wrap_u64_range z : in_u 64 (wrap_u64 z).
Proof. unfold in_u, wrap_u64. apply Z.mod_pos_bound. lia. Qed.

Lemma fetch_add_range c n : in_u 64 (fetch_add c n).
Proof. apply wrap_u64_range. Qed.

Lemma incr_range c : in_u 64 (incr c).
Proof. apply wrap_u64_range. Qed.

Lemma fetch_add_small c n : 0 ≤ c + n < 2 ^ 64 → fetch_add c n = c + n.
Proof. intros. by apply Z.mod_small. Qed.

Lemma incr_small c : 0 ≤ c < 2 ^ 64 - 1 → incr c = c + 1.
Proof. intros. apply fetch_add_small. lia. Qed.

Lemma fetch_add_assoc c n m : fetch_add (fetch_add c n) m = fetch_add c (n + m).
Proof.
  unfold fetch_add, wrap_u64. rewrite Zplus_mod_idemp_l. f_equal. lia.
Qed.

#[export] Hint Resolve wrap_u64_range fetch_add_range incr_range : proxy.
#[export] Hint Rewrite fetch_add_assoc : proxy.

(** ** Time

    An [Instant] is a reading of the monotonic clock and a [Duration] an
    amount of it, both in nanoseconds. *)

Definition from_secs (s : Z) : Z := s * 1000000000.
Definition from_millis (ms : Z) : Z := ms * 1000000.

(** [Instant::elapsed] at the clock reading [now]: it saturates at zero. *)
Definition elapsed (now t : Z) : Z := Z.max 0 (now - t).

(** Successive clock readings, none before [t]. *)
Fixpoint clock_seq (t : Z) (ts : list Z) : Prop :=
  match ts with
  | [] => True
  | t' :: ts' => t ≤ t' ∧ clock_seq t' ts'
  end.

(** ** Binary64 *)

Definition f64 : Type := spec_float.

(** [n as f64] for an unsigned [n]: nearest, ties to even. *)
Definition f64_of_u64 (n : Z) : f64 := binary_normalize 53 1024 n 0 false.

Definition f64_div (a b : f64) : f64 := SFdiv 53 1024 a b.
Definition f64_add (a b : f64) : f64 := SFadd 53 1024 a b.

(** [a >= b]; false when either is NaN. *)
Definition f64_ge (a b : f64) : bool := SFleb b a.
(** [a == b]; false when either is NaN. *)
Definition f64_eq (a b : f64) : bool := SFeqb a b.

(** The literals of the source. *)
Definition f64_zero : f64 := S754_zero false.
Definition f64_half : f64 := f64_div (f64_of_u64 1) (f64_of_u64 2).

(** ** Environment variables

    [std::env::var(key).ok()]: unset and not-Unicode both give [None]. *)

Definition env : Type := string → option string.

(** ** [FromStr] for unsigned integers

    [core]'s radix-10 parser: an optional leading [+], at least one digit,
    and a checked multiplication and addition per digit. *)

Definition digit_val (a : Ascii.ascii) : option Z :=
  let n := Z.of_N (Ascii.N_of_ascii a) in
  if (48 <=? n) && (n <=? 57) then Some (n - 48) else None.

Fixpoint parse_digits (max acc : Z) (s : string) : option Z :=
  match s with
  | EmptyString => Some acc
  | String a rest =>
      d ← digit_val a;
      if acc * 10 + d <=? max then parse_digits max (acc * 10 + d) rest else None
  end.

Definition parse_uint (w : Z) (s : string) : option Z :=
  match s with
  | EmptyString => None
  | String "+"%char EmptyString => None
  | String "+"%char rest => parse_digits (2 ^ w - 1) 0 rest
  | _ => parse_digits (2 ^ w - 1) 0 s
  end.

Lemma parse_digits_bound max acc s n :
  0 ≤ acc ≤ max → parse_digits max acc s = Some n → acc ≤ n ≤ max.
Proof.
  revert acc. induction s as [|a s IH]; intros acc Hacc; simpl; [naive_solver lia|].
  unfold digit_val. destruct (_ && _) eqn:Hd; simpl; [|done].
  apply andb_true_iff in Hd as [?%Z.leb_le ?%Z.leb_le].
  destruct (Z.leb_spec (acc * 10 + (Z.of_N (Ascii.N_of_ascii a) - 48)) max); [|done].
  intros Hn. apply IH in Hn; lia.
Qed.

Lemma parse_uint_range w s n : 0 ≤ w → parse_uint w s = Some n → in_u w n.
Proof.
  intros Hw Hp. assert (0 < 2 ^ w) by (apply Z.pow_pos_nonneg; lia).
  unfold in_u. enough (0 ≤ n ≤ 2 ^ w - 1) by lia.
  unfold parse_uint in Hp. repeat case_match; try done; eapply parse_digits_bound; eauto; lia.
Qed.

(** ** [str::contains] and [<[String]>::join] *)

Fixpoint contains (needle s : string) : bool :=
  String.prefix needle s ||
  match s with
  | EmptyString => false
  | String _ rest => contains needle rest
  end.

Definition join (sep : string) (parts : list string) : string := String.concat sep parts.

Definition newline : string := String "010"%char EmptyString.
