(* ===== verification/F64.v ===== *)
(** * Exactness of the binary64 ratio test

    The circuit breaker compares [failures as f64 / total as f64] with its
    configured ratio.  This file shows that, for every count an [f64] holds
    exactly, the comparison with the default ratio one half decides the
    integer inequality [total <= 2 * failures]: neither the conversion nor the
    rounding of the quotient can move a window across the threshold. *)
From S2P Require Import Prelude RustStd.

Local Open Scope Z_scope.

(** ** Bit lengths *)

Lemma digits2_pos_size p : digits2_pos p = Pos.size p.
Proof. induction p; simpl; congruence. Qed.

Lemma digits2_log2 p : Z.pos (digits2_pos p) = Z.log2 (Z.pos p) + 1.
Proof.
  rewrite digits2_pos_size. destruct p as [p|p|]; simpl; try lia.
Qed.

(** The bit length of a positive integer. *)
Definition blen (z : Z) : Z := Z.log2 z + 1.

Lemma Zdigits2_blen z : 0 < z → Zdigits2 z = blen z.
Proof. destruct z as [|p|]; [lia| |lia]. intros _. apply digits2_log2. Qed.

Lemma blen_bounds z : 0 < z → 2 ^ (blen z - 1) ≤ z < 2 ^ blen z.
Proof.
  intros Hz. unfold blen. replace (Z.log2 z + 1 - 1) with (Z.log2 z) by lia.
  replace (Z.log2 z + 1) with (Z.succ (Z.log2 z)) by lia. by apply Z.log2_spec.
Qed.

Lemma blen_unique z d : 0 < d → 2 ^ (d - 1) ≤ z < 2 ^ d → blen z = d.
Proof.
  intros Hd Hz. unfold blen.
  rewrite (Z.log2_unique z (d - 1)); [lia|lia|].
  by replace (Z.succ (d - 1)) with d by lia.
Qed.

Lemma blen_pos z : 0 < z → 0 < blen z.
Proof. intros. unfold blen. pose proof (Z.log2_nonneg z). lia. Qed.

Lemma blen_shiftl z n : 0 < z → 0 ≤ n → blen (z * 2 ^ n) = blen z + n.
Proof.
  intros Hz Hn. unfold blen. rewrite Z.log2_mul_pow2; lia.
Qed.

(** ** Rounding a mantissa of 53 or 54 bits *)

Lemma fexp_normal e : -1021 ≤ e → fexp 53 1024 e = e - 53.
Proof. intros. unfold fexp, emin. lia. Qed.

Lemma shr_fexp_53 m e l :
  2 ^ 52 ≤ m < 2 ^ 53 → -1074 ≤ e →
  shr_fexp 53 1024 m e l = (shr_record_of_loc m l, e).
Proof.
  intros Hm He. unfold shr_fexp.
  rewrite Zdigits2_blen, (blen_unique m 53), fexp_normal by lia.
  by replace (53 + e - 53 - e) with 0 by lia.
Qed.

Lemma shr_fexp_54 m e l :
  2 ^ 53 ≤ m < 2 ^ 54 → -1074 ≤ e →
  shr_fexp 53 1024 m e l = (shr_1 (shr_record_of_loc m l), e + 1).
Proof.
  intros Hm He. unfold shr_fexp.
  rewrite Zdigits2_blen, (blen_unique m 54), fexp_normal by lia.
  by replace (54 + e - 53 - e) with 1 by lia.
Qed.

Lemma round_nearest_even_range m l : m ≤ round_nearest_even m l ≤ m + 1.
Proof. unfold round_nearest_even. repeat case_match; lia. Qed.

(** Rounding a positive mantissa that has 53 bits before and after rounding
    keeps the exponent. *)
Lemma round_aux_53 q e l :
  2 ^ 52 ≤ q → q + 1 < 2 ^ 53 → -1074 ≤ e ≤ 900 →
  ∃ m, binary_round_aux 53 1024 false q e l = S754_finite false m e ∧ 2 ^ 52 ≤ Z.pos m.
Proof.
  intros Hq1 Hq2 He. unfold binary_round_aux. rewrite shr_fexp_53 by lia.
  set (r := round_nearest_even _ _).
  assert (q ≤ r ≤ q + 1) as Hr.
  { pose proof (round_nearest_even_range q (loc_of_shr_record (shr_record_of_loc q l))) as Hr.
    subst r. destruct l as [|[]]; simpl in *; lia. }
  rewrite shr_fexp_53 by lia. cbn [shr_m shr_record_of_loc].
  rewrite (proj2 (Z.leb_le e (1024 - 53))) by lia.
  destruct r as [|m|m]; try lia. exists m. split; [done|lia].
Qed.

(** Rounding a 54-bit mantissa drops one bit and raises the exponent by one,
    unless the mantissa is the largest one. *)
Lemma round_aux_54 q e l :
  2 ^ 53 ≤ q ≤ 2 ^ 54 - 2 → -1074 ≤ e ≤ 900 →
  ∃ m, binary_round_aux 53 1024 false q e l = S754_finite false m (e + 1) ∧ 2 ^ 52 ≤ Z.pos m.
Proof.
  intros Hq He. unfold binary_round_aux. rewrite shr_fexp_54 by lia.
  set (mrs := shr_1 _). set (r := round_nearest_even _ _).
  assert (2 ^ 52 ≤ r < 2 ^ 53) as Hr.
  { pose proof (round_nearest_even_range (shr_m mrs) (loc_of_shr_record mrs)) as Hr.
    subst r mrs. destruct q as [|[p|p|]|]; try lia; destruct l as [|[]]; simpl in *; lia. }
  rewrite shr_fexp_53 by lia. cbn [shr_m shr_record_of_loc].
  rewrite (proj2 (Z.leb_le (e + 1) (1024 - 53))) by lia.
  destruct r as [|m|m]; try lia. exists m. split; [done|lia].
Qed.

(** ** Conversion from [u64] *)

Lemma pos_iter_xO p n : Z.pos (Pos.iter xO p n) = Z.pos p * 2 ^ Z.pos n.
Proof.
  induction n as [|n IH] using Pos.peano_ind; [simpl; lia|].
  rewrite Pos.iter_succ. rewrite Pos2Z.inj_succ, Z.pow_succ_r by lia.
  change (Z.pos (Pos.iter xO p n)~0) with (2 * Z.pos (Pos.iter xO p n)). rewrite IH. lia.
Qed.

Lemma f64_of_u64_pos n :
  0 < n < 2 ^ 53 →
  ∃ m, f64_of_u64 n = S754_finite false m (blen n - 53) ∧
       Z.pos m = n * 2 ^ (53 - blen n).
Proof.
  intros Hn. pose proof (blen_bounds n ltac:(lia)) as Hb.
  pose proof (blen_pos n ltac:(lia)) as Hd.
  assert (blen n ≤ 53) as Hd'.
  { destruct (Z.le_gt_cases (blen n) 53); [done|].
    assert (2 ^ 53 ≤ 2 ^ (blen n - 1)) by (apply Z.pow_le_mono_r; lia). lia. }
  assert (∀ m, Z.pos m = n * 2 ^ (53 - blen n) →
    binary_round_aux 53 1024 false (Z.pos m) (blen n - 53) loc_Exact =
    S754_finite false m (blen n - 53)) as Haux.
  { intros m Hm.
    assert (2 ^ 52 ≤ Z.pos m < 2 ^ 53) as Hm53.
    { rewrite Hm. replace (2 ^ 52) with (2 ^ (blen n - 1) * 2 ^ (53 - blen n))
        by (rewrite <-Z.pow_add_r by lia; f_equal; lia).
      replace (2 ^ 53) with (2 ^ blen n * 2 ^ (53 - blen n))
        by (rewrite <-Z.pow_add_r by lia; f_equal; lia).
      assert (0 < 2 ^ (53 - blen n)) by (apply Z.pow_pos_nonneg; lia). nia. }
    unfold binary_round_aux. rewrite shr_fexp_53 by lia.
    cbn [shr_m shr_record_of_loc loc_of_shr_record round_nearest_even].
    rewrite shr_fexp_53 by lia. cbn [shr_m shr_record_of_loc].
    by rewrite (proj2 (Z.leb_le (blen n - 53) (1024 - 53))) by lia. }
  destruct n as [|p|]; [lia| |lia]. unfold f64_of_u64, binary_normalize, binary_round.
  rewrite digits2_log2. fold (blen (Z.pos p)).
  rewrite Z.add_0_r, fexp_normal by lia. unfold shl_align. rewrite Z.sub_0_r.
  destruct (blen (Z.pos p) - 53) as [|d|d] eqn:Hdiff; [| lia |].
  - assert (Z.pos p = Z.pos p * 2 ^ (53 - blen (Z.pos p))) as Hm
      by (replace (53 - blen (Z.pos p)) with 0 by lia; lia).
    exists p. split; [by apply Haux|done].
  - assert (Z.pos (Pos.iter xO p d) = Z.pos p * 2 ^ (53 - blen (Z.pos p))) as Hm
      by (rewrite pos_iter_xO; do 2 f_equal; lia).
    eexists. split; [by apply Haux|done].
Qed.

(** ** The quotient *)

(** The exponent of the rounded quotient of two 53-bit mantissas is decided
    by their comparison alone: the rounding never carries. *)
Lemma div_exponent m1 m2 e1 e2 :
  2 ^ 52 ≤ Z.pos m1 < 2 ^ 53 → 2 ^ 52 ≤ Z.pos m2 < 2 ^ 53 → -60 ≤ e1 - e2 ≤ 0 →
  ∃ m, f64_div (S754_finite false m1 e1) (S754_finite false m2 e2) =
       S754_finite false m (e1 - e2 - if Z.pos m1 <? Z.pos m2 then 53 else 52) ∧
       2 ^ 52 ≤ Z.pos m.
Proof.
  intros H1 H2 He. unfold f64_div, SFdiv, SFdiv_core_binary.
  rewrite !Zdigits2_blen, (blen_unique (Z.pos m1) 53), (blen_unique (Z.pos m2) 53) by lia.
  rewrite fexp_normal by lia.
  replace (Z.min _ _) with (e1 - e2 - 53) by lia.
  replace (e1 - e2 - (e1 - e2 - 53)) with 53 by lia.
  rewrite Z.shiftl_mul_pow2 by lia.
  pose proof (Z_div_mod (Z.pos m1 * 2 ^ 53) (Z.pos m2) ltac:(lia)) as Hdm.
  destruct (Z.div_eucl _ _) as [q r]. destruct Hdm as [Hq Hr].
  destruct (Z.ltb_spec (Z.pos m1) (Z.pos m2)) as [Hlt|Hge].
  - apply round_aux_53; [nia|nia|lia].
  - destruct (round_aux_54 q (e1 - e2 - 53) (new_location (Z.pos m2) r)) as (m & Hm & ?);
      [nia|lia|].
    exists m. split; [|done]. cbn [xorb]. rewrite Hm. f_equal. lia.
Qed.

Lemma f64_ge_half m e : 2 ^ 52 ≤ Z.pos m →
  f64_ge (S754_finite false m e) f64_half = (-53 <=? e).
Proof.
  intros Hm. assert (f64_half = S754_finite false 4503599627370496 (-53)) as -> by done.
  unfold f64_ge, SFleb, SFcompare. rewrite Z.leb_compare.
  destruct (Z.compare_spec (-53) e); [|done..].
  change (Pos.compare_cont Eq 4503599627370496 m) with (Z.pos 4503599627370496 ?= Z.pos m).
  destruct (Z.pos 4503599627370496 ?= Z.pos m) eqn:Hc; [done..|].
  apply Z.compare_gt_iff in Hc. change (2 ^ 52) with 4503599627370496 in Hm. lia.
Qed.

(** For counts below 2^53 the test against one half is the integer majority
    test. *)
Lemma ratio_half_exact f t :
  0 ≤ f ≤ t → 0 < t < 2 ^ 53 →
  f64_ge (f64_div (f64_of_u64 f) (f64_of_u64 t)) f64_half = (t <=? 2 * f).
Proof.
  intros Hf Ht. destruct (decide (f = 0)) as [->|Hf0].
  { destruct (f64_of_u64_pos t) as (m & -> & _); [lia|]. simpl.
    symmetry. apply Z.leb_gt. lia. }
  destruct (f64_of_u64_pos f) as (m1 & -> & Hm1); [lia|].
  destruct (f64_of_u64_pos t) as (m2 & -> & Hm2); [lia|].
  pose proof (blen_bounds f ltac:(lia)) as Hbf. pose proof (blen_bounds t ltac:(lia)) as Hbt.
  pose proof (blen_pos f ltac:(lia)). pose proof (blen_pos t ltac:(lia)).
  assert (blen f ≤ blen t) as Hle.
  { unfold blen. pose proof (Z.log2_le_mono f t). lia. }
  assert (blen t ≤ 53) as H53.
  { unfold blen. pose proof (Z.log2_lt_pow2 t 53). lia. }
  assert (∀ m n, 0 < n → blen n ≤ 53 → Z.pos m = n * 2 ^ (53 - blen n) →
    2 ^ 52 ≤ Z.pos m < 2 ^ 53) as Hnorm.
  { intros m n Hn Hbn Hm. pose proof (blen_shiftl n (53 - blen n) Hn ltac:(lia)) as Hs.
    rewrite <-Hm in Hs. replace (blen n + (53 - blen n)) with 53 in Hs by lia.
    pose proof (blen_bounds (Z.pos m) ltac:(lia)) as Hb. by rewrite Hs in Hb. }
  pose proof (Hnorm m1 f ltac:(lia) ltac:(lia) Hm1) as Hn1.
  pose proof (Hnorm m2 t ltac:(lia) ltac:(lia) Hm2) as Hn2.
  destruct (div_exponent m1 m2 (blen f - 53) (blen t - 53)) as (m & -> & Hm);
    [done|done|lia|].
  rewrite f64_ge_half by done.
  apply eq_true_iff_eq. rewrite !Z.leb_le.
  destruct (decide (blen f = blen t)) as [Heq|Hne1].
  { replace (2 ^ blen t) with (2 * 2 ^ (blen t - 1)) in Hbt
      by (rewrite <-Z.pow_succ_r by lia; f_equal; lia).
    rewrite Heq in *. case_match; lia. }
  destruct (decide (blen f = blen t - 1)) as [Heq|Hne2].
  { replace (53 - blen f) with (Z.succ (53 - blen t)) in Hm1 by lia.
    rewrite Z.pow_succ_r in Hm1 by lia.
    assert (0 < 2 ^ (53 - blen t)) by (apply Z.pow_pos_nonneg; lia).
    destruct (Z.ltb_spec (Z.pos m1) (Z.pos m2)); nia. }
  assert (2 ^ blen f ≤ 2 ^ (blen t - 2)) by (apply Z.pow_le_mono_r; lia).
  replace (2 ^ (blen t - 1)) with (2 * 2 ^ (blen t - 2)) in Hbt
    by (rewrite <-Z.pow_succ_r by lia; f_equal; lia).
  case_match; lia.
Qed.
