(* ===== verification/Effects.v ===== *)
(** * Handlers as programs over effects

    An [async] handler runs between the points at which it touches something
    shared: the breaker, the limiter, the cache, the pool, the clock.  A handler
    is a finite tree of such effects, and a statement about [all_runs] of it
    holds for every way the environment, that is every other request, may answer
    them. *)
From S2P Require Import Prelude.

Inductive prog (E : Type → Type) (A : Type) : Type :=
| Ret (a : A)
| Vis {X : Type} (e : E X) (k : X → prog E A).

Global Arguments Ret {E A} a.
Global Arguments Vis {E A X} e k.

Fixpoint prog_bind {E A B} (p : prog E A) (f : A → prog E B) : prog E B :=
  match p with
  | Ret a => f a
  | Vis e k => Vis e (λ x, prog_bind (k x) f)
  end.

Definition trigger {E X} (e : E X) : prog E X := Vis e Ret.

(** [?] in an [async fn] that returns a [Result]. *)
Definition try_bind {E A B F} (p : prog E (result A F)) (f : A → prog E (result B F)) :
    prog E (result B F) :=
  prog_bind p (λ r, match r with Ok a => f a | Err e => Ret (Err e) end).

Notation "x <~ p ; k" := (prog_bind p (λ x, k))
  (at level 100, p at next level, right associativity) : rust_scope.
Notation "'try' x <~ p ; k" := (try_bind p (λ x, k))
  (at level 100, x name, p at next level, right associativity) : rust_scope.

(** An effect that happened, with its answer. *)
Inductive event (E : Type → Type) : Type :=
| Ev {X : Type} (e : E X) (x : X).

Global Arguments Ev {E X} e x.

(** [all_runs G p Q]: every run of [p] whose effects are answered as [G]
    promises ends with a trace and a result that satisfy [Q]. *)
Fixpoint all_runs {E A} (G : event E → Prop) (p : prog E A) (Q : list (event E) → A → Prop) : Prop :=
  match p with
  | Ret a => Q [] a
  | Vis e k => ∀ x, G (Ev e x) → all_runs G (k x) (λ tr a, Q (Ev e x :: tr) a)
  end.

(** [some_run p Q]: some run of [p] does. *)
Fixpoint some_run {E A} (p : prog E A) (Q : list (event E) → A → Prop) : Prop :=
  match p with
  | Ret a => Q [] a
  | Vis e k => ∃ x, some_run (k x) (λ tr a, Q (Ev e x :: tr) a)
  end.

(** Nothing is promised. *)
Definition any {E} (e : event E) : Prop := True.

Section runs.
Context {E : Type → Type}.
Implicit Types G : event E → Prop.

Lemma all_runs_mono {A} G (p : prog E A) Q Q' :
  (∀ tr a, Q tr a → Q' tr a) → all_runs G p Q → all_runs G p Q'.
Proof.
  revert Q Q'. induction p as [a|X e k IH]; intros Q Q' HQ; simpl; [apply HQ|].
  intros Hp x Hx. eapply IH; [|apply Hp, Hx]. simpl. auto.
Qed.

Lemma all_runs_bind {A B} G (p : prog E A) (f : A → prog E B) Q :
  all_runs G (prog_bind p f) Q ↔
  all_runs G p (λ tr a, all_runs G (f a) (λ tr' b, Q (tr ++ tr') b)).
Proof.
  revert Q. induction p as [a|X e k IH]; intros Q; simpl; [done|].
  apply forall_proper. intros x. by rewrite IH.
Qed.

Lemma all_runs_try {A B F} G (p : prog E (result A F)) (f : A → prog E (result B F)) Q :
  all_runs G (try_bind p f) Q ↔
  all_runs G p (λ tr r, match r with
                        | Ok a => all_runs G (f a) (λ tr' b, Q (tr ++ tr') b)
                        | Err e => Q tr (Err e)
                        end).
Proof.
  unfold try_bind. rewrite all_runs_bind. split; apply all_runs_mono; intros tr [a|e]; simpl;
    rewrite ?app_nil_r; done.
Qed.

(** Two statements about all runs combine. *)
Lemma all_runs_and {A} G (p : prog E A) Q Q' :
  all_runs G p Q → all_runs G p Q' → all_runs G p (λ tr a, Q tr a ∧ Q' tr a).
Proof.
  revert Q Q'. induction p as [a|X e k IH]; intros Q Q'; simpl; [done|]. auto.
Qed.

(** A stronger promise has fewer runs. *)
Lemma all_runs_weaken {A} G G' (p : prog E A) Q :
  (∀ e, G' e → G e) → all_runs G p Q → all_runs G' p Q.
Proof. intros HG. revert Q. induction p as [a|X e k IH]; intros Q; simpl; auto. Qed.

(** Every event of a run is as promised. *)
Lemma all_runs_promised {A} G (p : prog E A) : all_runs G p (λ tr _, Forall G tr).
Proof.
  induction p as [a|X e k IH]; simpl; [by constructor|]. intros x Hx.
  eapply all_runs_mono; [|apply IH]. by constructor.
Qed.

(** A run has a trace: what holds of all runs holds of one that exists. *)
Lemma all_some {A} (p : prog E A) Q Q' :
  all_runs any p Q → some_run p Q' → some_run p (λ tr a, Q tr a ∧ Q' tr a).
Proof.
  revert Q Q'. induction p as [a|X e k IH]; intros Q Q'; simpl; [done|].
  intros Ha [x Hx]. exists x. apply IH; [by apply Ha|done].
Qed.

Lemma some_run_elim {A} (p : prog E A) Q : some_run p Q → ∃ tr a, Q tr a.
Proof.
  revert Q. induction p as [a|X e k IH]; intros Q; simpl; [eauto|].
  intros [x (tr&a&HQ)%IH]. eauto.
Qed.

(** Where every effect can be answered, every program has a run. *)
Lemma some_run_exists {A} (p : prog E A) : (∀ X (e : E X), inhabited X) → some_run p (λ _ _, True).
Proof.
  intros Hin. induction p as [a|X e k IH]; simpl; [done|]. destruct (Hin X e) as [x]. by exists x.
Qed.
End runs.
