(* ===== verification/Breaker.v ===== *)
(** * The circuit breaker ([resilience/breaker.rs])

    The breaker's state is an [AtomicU8] next to a mutex-guarded window.  The
    three operations are translated as functions of the clock reading [now]
    (one reading per critical section).  [allow] reads the atomic state before
    it takes the lock, so concurrent callers are modelled by a step relation
    whose atomic steps are that load and the critical sections. *)
From S2P Require Import Prelude RustStd F64.

Local Open Scope Z_scope.

Module CB.

(** ** Data *)

Inductive State := Closed | Open | HalfOpen.

#[global] Instance State_eq_dec : EqDecision State.
Proof. solve_decision. Defined.

Definition as_u8 (s : State) : Z :=
  match s with
  | Closed => 0
  | Open => 1
  | HalfOpen => 2
  end.

Definition from_u8 (value : Z) : State :=
  match value with
  | 1 => Open
  | 2 => HalfOpen
  | _ => Closed
  end.

Definition state_as_str (s : State) : string :=
  match s with
  | Closed => "closed"
  | Open => "open"
  | HalfOpen => "half_open"
  end.

Record BreakerConfig := {
  failure_ratio : f64;
  minimum_requests : Z;
  cfg_window : Z;
  cooldown : Z;
  cfg_probe_successes : Z
}.

(** [BreakerConfig::default]. *)
Definition BreakerConfig_default : BreakerConfig := {|
  failure_ratio := f64_half;
  minimum_requests := 20;
  cfg_window := from_secs 10;
  cooldown := from_secs 5;
  cfg_probe_successes := 3
|}.

(** [BreakerConfig::from_env]; [parse_f64] is [f64::from_str]. *)
Definition BreakerConfig_from_env (parse_f64 : string → option f64) (e : env) : BreakerConfig :=
  let d := BreakerConfig_default in {|
  failure_ratio := default (failure_ratio d) (e "BREAKER_FAILURE_RATIO" ≫= parse_f64);
  minimum_requests := default (minimum_requests d) (e "BREAKER_MIN_REQUESTS" ≫= parse_uint 64);
  cfg_window := default (cfg_window d) (from_secs <$> (e "BREAKER_WINDOW_SECS" ≫= parse_uint 64));
  cooldown := default (cooldown d) (from_secs <$> (e "BREAKER_COOLDOWN_SECS" ≫= parse_uint 64));
  cfg_probe_successes :=
    default (cfg_probe_successes d) (e "BREAKER_PROBE_SUCCESSES" ≫= parse_uint 32)
|}.

Record Window := {
  started : Z;
  successes : Z;
  failures : Z;
  opened_at : option Z;
  probe_successes : Z
}.

Record CircuitBreaker := {
  config : BreakerConfig;
  state_u8 : Z;
  window : Window;
  trips : Z;
  rejected : Z
}.

(** Field updates. *)
Definition set_window (w : Window) (b : CircuitBreaker) : CircuitBreaker :=
  {| config := config b; state_u8 := state_u8 b; window := w;
     trips := trips b; rejected := rejected b |}.

Definition store_state (s : State) (b : CircuitBreaker) : CircuitBreaker :=
  {| config := config b; state_u8 := as_u8 s; window := window b;
     trips := trips b; rejected := rejected b |}.

Definition count_trip (b : CircuitBreaker) : CircuitBreaker :=
  {| config := config b; state_u8 := state_u8 b; window := window b;
     trips := incr (trips b); rejected := rejected b |}.

Definition count_rejected (b : CircuitBreaker) : CircuitBreaker :=
  {| config := config b; state_u8 := state_u8 b; window := window b;
     trips := trips b; rejected := incr (rejected b) |}.

Definition with_opened_at (t : option Z) (w : Window) : Window :=
  {| started := started w; successes := successes w; failures := failures w;
     opened_at := t; probe_successes := probe_successes w |}.

Definition with_probe_successes (n : Z) (w : Window) : Window :=
  {| started := started w; successes := successes w; failures := failures w;
     opened_at := opened_at w; probe_successes := n |}.

Definition add_success (w : Window) : Window :=
  {| started := started w; successes := wrap_u64 (successes w + 1);
     failures := failures w; opened_at := opened_at w;
     probe_successes := probe_successes w |}.

Definition add_failure (w : Window) : Window :=
  {| started := started w; successes := successes w;
     failures := wrap_u64 (failures w + 1); opened_at := opened_at w;
     probe_successes := probe_successes w |}.

(** ** Operations *)

(** [CircuitBreaker::new]. *)
Definition new (cfg : BreakerConfig) (now : Z) : CircuitBreaker := {|
  config := cfg;
  state_u8 := as_u8 Closed;
  window := {| started := now; successes := 0; failures := 0;
               opened_at := None; probe_successes := 0 |};
  trips := 0;
  rejected := 0
|}.

Definition state (b : CircuitBreaker) : State := from_u8 (state_u8 b).

Definition reset_window (now : Z) (w : Window) : Window :=
  {| started := now; successes := 0; failures := 0;
     opened_at := opened_at w; probe_successes := probe_successes w |}.

Definition roll_if_stale (cfg : BreakerConfig) (now : Z) (w : Window) : Window :=
  if cfg_window cfg <=? elapsed now (started w) then reset_window now w else w.

(** The critical section of [allow], entered by a caller that read [Open]. *)
Definition allow_locked (now : Z) (b : CircuitBreaker) : bool * CircuitBreaker :=
  let elapsed_ := (λ t, elapsed now t) <$> opened_at (window b) in
  if match elapsed_ with Some e => cooldown (config b) <=? e | None => false end
  then (true, store_state HalfOpen
                (set_window (with_probe_successes 0 (window b)) b))
  else (false, count_rejected b).

Definition allow (now : Z) (b : CircuitBreaker) : bool * CircuitBreaker :=
  match state b with
  | Closed => (true, b)
  | HalfOpen => (true, b)
  | Open => allow_locked now b
  end.

Definition record_success (now : Z) (b : CircuitBreaker) : CircuitBreaker :=
  match state b with
  | HalfOpen =>
      let w := with_probe_successes (wrap_u32 (probe_successes (window b) + 1)) (window b) in
      if cfg_probe_successes (config b) <=? probe_successes w
      then store_state Closed (set_window (reset_window now w) b)
      else set_window w b
  | _ => set_window (add_success (roll_if_stale (config b) now (window b))) b
  end.

(** The test of the failure ratio, on the counts of the window. *)
Definition ratio_reached (cfg : BreakerConfig) (w : Window) : bool :=
  let total := wrap_u64 (successes w + failures w) in
  (minimum_requests cfg <=? total) &&
  f64_ge (f64_div (f64_of_u64 (failures w)) (f64_of_u64 total)) (failure_ratio cfg).

Definition record_failure (now : Z) (b : CircuitBreaker) : CircuitBreaker :=
  match state b with
  | HalfOpen =>
      store_state Open
        (set_window (with_probe_successes 0 (with_opened_at (Some now) (window b))) b)
  | _ =>
      let w := add_failure (roll_if_stale (config b) now (window b)) in
      if ratio_reached (config b) w
      then count_trip (store_state Open (set_window (with_opened_at (Some now) w) b))
      else set_window w b
  end.

(** ** Concurrent callers

    A configuration is the shared breaker, the number of callers that read
    [Open] in [allow] and have not yet entered its critical section, and the
    last clock reading.  A label names the atomic step and, for a step that
    answers an [allow], its answer. *)

Record sys := {
  brk : CircuitBreaker;
  waiting : nat;
  clock : Z
}.

Inductive label :=
| LFast                     (** [allow] answered from the atomic load *)
| LLoadOpen                 (** [allow] read [Open], about to lock *)
| LLock (answer : bool)     (** [allow]'s critical section *)
| LSuccess
| LFailure.

#[global] Instance label_eq_dec : EqDecision label.
Proof. solve_decision. Defined.

Definition init (cfg : BreakerConfig) (now : Z) : sys :=
  {| brk := new cfg now; waiting := 0; clock := now |}.

Inductive step : sys → label → sys → Prop :=
| step_fast b n t :
    state b ≠ Open →
    step {| brk := b; waiting := n; clock := t |} LFast
         {| brk := b; waiting := n; clock := t |}
| step_load b n t :
    state b = Open →
    step {| brk := b; waiting := n; clock := t |} LLoadOpen
         {| brk := b; waiting := S n; clock := t |}
| step_lock b n t now a b' :
    t ≤ now → allow_locked now b = (a, b') →
    step {| brk := b; waiting := S n; clock := t |} (LLock a)
         {| brk := b'; waiting := n; clock := now |}
| step_success b n t now :
    t ≤ now →
    step {| brk := b; waiting := n; clock := t |} LSuccess
         {| brk := record_success now b; waiting := n; clock := now |}
| step_failure b n t now :
    t ≤ now →
    step {| brk := b; waiting := n; clock := t |} LFailure
         {| brk := record_failure now b; waiting := n; clock := now |}.

Inductive run : sys → list label → sys → Prop :=
| run_nil s : run s [] s
| run_cons s l s' ls s'' : step s l s' → run s' ls s'' → run s (l :: ls) s''.

#[export] Hint Constructors step run : proxy.

(** ** The invariant *)

Record config_ok (cfg : BreakerConfig) : Prop := {
  probe_range : in_u 32 (cfg_probe_successes cfg);
  cooldown_pos : 0 ≤ cooldown cfg
}.

(** Number of successful probes that close a half-open circuit. *)
Definition probes_needed (cfg : BreakerConfig) : Z := Z.max 1 (cfg_probe_successes cfg).

(** A window whose instants are not in the future and whose counters are in
    range. *)
Record window_wf (cfg : BreakerConfig) (t : Z) (w : Window) : Prop := {
  wf_opened_past : ∀ o, opened_at w = Some o → o ≤ t;
  wf_started_past : started w ≤ t;
  wf_probe : 0 ≤ probe_successes w ≤ probes_needed cfg;
  wf_successes : in_u 64 (successes w);
  wf_failures : in_u 64 (failures w)
}.

Record wf (b : CircuitBreaker) (t : Z) : Prop := {
  wf_state : state_u8 b = as_u8 (state b);
  wf_opened : state b ≠ Closed → is_Some (opened_at (window b));
  wf_half_open : state b = HalfOpen → probe_successes (window b) < probes_needed (config b);
  wf_window : window_wf (config b) t (window b);
  wf_trips : in_u 64 (trips b);
  wf_rejected : in_u 64 (rejected b)
}.

Record sys_wf (cfg : BreakerConfig) (s : sys) : Prop := {
  sys_config : config (brk s) = cfg;
  sys_brk : wf (brk s) (clock s);
  sys_waiting : (0 < waiting s)%nat → is_Some (opened_at (window (brk s)))
}.

Lemma from_as_u8 s : from_u8 (as_u8 s) = s.
Proof. by destruct s. Qed.

Lemma state_store s b : state (store_state s b) = s.
Proof. apply from_as_u8. Qed.

Lemma state_set_window w b : state (set_window w b) = state b.
Proof. done. Qed.

Lemma state_count_trip b : state (count_trip b) = state b.
Proof. done. Qed.

Lemma state_count_rejected b : state (count_rejected b) = state b.
Proof. done. Qed.

#[export] Hint Rewrite from_as_u8 state_store state_set_window state_count_trip
  state_count_rejected : proxy.

Lemma roll_if_stale_cases cfg now w :
  roll_if_stale cfg now w = w ∨ roll_if_stale cfg now w = reset_window now w.
Proof. unfold roll_if_stale. case_match; auto. Qed.

Lemma reset_window_wf cfg t w : window_wf cfg t w → window_wf cfg t (reset_window t w).
Proof. intros [? ? ? ? ?]; split; simpl; unfold in_u; auto; lia. Qed.

Lemma roll_if_stale_wf cfg t w : window_wf cfg t w → window_wf cfg t (roll_if_stale cfg t w).
Proof.
  intros. destruct (roll_if_stale_cases cfg t w) as [-> | ->]; auto using reset_window_wf.
Qed.

Lemma add_success_wf cfg t w : window_wf cfg t w → window_wf cfg t (add_success w).
Proof. intros []; split; simpl; auto with proxy. Qed.

Lemma add_failure_wf cfg t w : window_wf cfg t w → window_wf cfg t (add_failure w).
Proof. intros []; split; simpl; auto with proxy. Qed.

Lemma with_opened_at_wf cfg t w :
  window_wf cfg t w → window_wf cfg t (with_opened_at (Some t) w).
Proof. intros []; split; simpl; naive_solver lia. Qed.

Lemma with_probe_wf cfg t w n :
  0 ≤ n ≤ probes_needed cfg → window_wf cfg t w → window_wf cfg t (with_probe_successes n w).
Proof. intros ? []; by split. Qed.

Lemma window_wf_later cfg t t' w : window_wf cfg t w → t ≤ t' → window_wf cfg t' w.
Proof. intros [Ho ????] ?; split; eauto with lia. intros o ?%Ho. lia. Qed.

Lemma opened_at_roll cfg t w : opened_at (roll_if_stale cfg t w) = opened_at w.
Proof. by destruct (roll_if_stale_cases cfg t w) as [-> | ->]. Qed.

Lemma probe_roll cfg t w : probe_successes (roll_if_stale cfg t w) = probe_successes w.
Proof. by destruct (roll_if_stale_cases cfg t w) as [-> | ->]. Qed.

#[export] Hint Resolve reset_window_wf roll_if_stale_wf add_success_wf add_failure_wf
  with_opened_at_wf with_probe_wf : proxy.
#[export] Hint Rewrite opened_at_roll probe_roll : proxy.

Lemma probes_needed_pos cfg : 0 < probes_needed cfg.
Proof. unfold probes_needed. lia. Qed.

Lemma new_wf cfg now : wf (new cfg now) now.
Proof.
  pose proof (probes_needed_pos cfg).
  split; [done|done|done|split|done|done]; simpl; unfold in_u; try done; lia.
Qed.

Lemma wf_later b t t' : wf b t → t ≤ t' → wf b t'.
Proof. intros [] ?; split; eauto using window_wf_later. Qed.

(** Installing a new window while keeping the state. *)
Lemma set_window_wf b t w :
  wf b t → window_wf (config b) t w →
  opened_at w = opened_at (window b) →
  (state b = HalfOpen → probe_successes w < probes_needed (config b)) →
  wf (set_window w b) t.
Proof. intros [] ? Ho ?; split; simpl; rewrite ?Ho; auto. Qed.

(** Installing a new window and a new state. *)
Lemma store_set_window_wf b t w s :
  wf b t → window_wf (config b) t w → (s ≠ Closed → is_Some (opened_at w)) →
  (s = HalfOpen → probe_successes w < probes_needed (config b)) →
  wf (store_state s (set_window w b)) t.
Proof. intros [] ???; split; simpl; rewrite ?state_store; auto. Qed.

Lemma count_trip_wf b t : wf b t → wf (count_trip b) t.
Proof. intros []; split; simpl; auto with proxy. Qed.

Lemma count_rejected_wf b t : wf b t → wf (count_rejected b) t.
Proof. intros []; split; simpl; auto with proxy. Qed.

#[export] Hint Resolve count_trip_wf count_rejected_wf wf_window : proxy.

Lemma allow_locked_wf b t now a b' :
  wf b t → t ≤ now → is_Some (opened_at (window b)) →
  allow_locked now b = (a, b') → wf b' now.
Proof.
  intros Hwf Ht Hop. apply (wf_later _ _ now) in Hwf; [|done].
  pose proof (probes_needed_pos (config b)).
  unfold allow_locked. case_match; intros; simplify_eq; [|auto with proxy].
  apply store_set_window_wf; simpl; auto with proxy lia.
Qed.

Lemma record_success_wf b t now :
  config_ok (config b) → wf b t → t ≤ now → wf (record_success now b) now.
Proof.
  intros [Hp _] Hwf Ht. apply (wf_later _ _ now) in Hwf; [|done].
  unfold record_success. destruct (state b) eqn:Hs.
  1,2: apply set_window_wf; simpl; autorewrite with proxy; auto with proxy; congruence.
  pose proof (wf_half_open _ _ Hwf Hs) as Hh.
  pose proof (wf_probe _ _ _ (wf_window _ _ Hwf)) as Hpr.
  simpl. assert (wrap_u32 (probe_successes (window b) + 1) = probe_successes (window b) + 1) as ->.
  { apply Z.mod_small. unfold probes_needed, in_u in *. lia. }
  case_match eqn:Hc.
  - apply store_set_window_wf; simpl; auto with proxy lia; done.
  - apply Z.leb_gt in Hc. unfold probes_needed in *.
    apply set_window_wf; simpl; auto with proxy; unfold probes_needed; [|lia].
    apply with_probe_wf; [unfold probes_needed; lia|auto with proxy].
Qed.

Lemma record_failure_wf b t now :
  wf b t → t ≤ now → wf (record_failure now b) now.
Proof.
  intros Hwf Ht. apply (wf_later _ _ now) in Hwf; [|done].
  pose proof (probes_needed_pos (config b)).
  unfold record_failure. destruct (state b) eqn:Hs.
  3: apply store_set_window_wf; simpl; eauto with proxy lia.
  all: case_match; [apply count_trip_wf, store_set_window_wf|apply set_window_wf];
    simpl; autorewrite with proxy; eauto with proxy; congruence.
Qed.

Lemma allow_locked_config now b a b' : allow_locked now b = (a, b') → config b' = config b.
Proof. unfold allow_locked. case_match; intros; by simplify_eq. Qed.

Lemma record_success_config now b : config (record_success now b) = config b.
Proof. unfold record_success. by split_cases. Qed.

Lemma record_failure_config now b : config (record_failure now b) = config b.
Proof. unfold record_failure. by split_cases. Qed.

(** [opened_at] is never cleared: once the circuit has opened, it stays set. *)
Lemma allow_locked_opened now b a b' :
  allow_locked now b = (a, b') → opened_at (window b') = opened_at (window b).
Proof. unfold allow_locked. case_match; intros; by simplify_eq. Qed.

Lemma record_success_opened now b :
  opened_at (window (record_success now b)) = opened_at (window b).
Proof.
  unfold record_success. repeat case_match; simpl; by autorewrite with proxy.
Qed.

Lemma record_failure_opened now b :
  is_Some (opened_at (window b)) → is_Some (opened_at (window (record_failure now b))).
Proof.
  unfold record_failure. repeat case_match; simpl; autorewrite with proxy; eauto.
Qed.

#[export] Hint Resolve record_success_wf record_failure_wf record_failure_opened : proxy.
#[export] Hint Rewrite record_success_config record_failure_config record_success_opened : proxy.

Lemma init_sys_wf cfg now : sys_wf cfg (init cfg now).
Proof. split; simpl; [done|apply new_wf|lia]. Qed.

Lemma step_sys_wf cfg s l s' : config_ok cfg → sys_wf cfg s → step s l s' → sys_wf cfg s'.
Proof.
  intros Hok [Hc Hb Hw] Hstep. destruct Hstep; simpl in *; subst; split; simpl;
    autorewrite with proxy; eauto with proxy.
  - intros _. apply (wf_opened _ _ Hb). congruence.
  - eauto using allow_locked_config.
  - eapply allow_locked_wf; eauto with lia.
  - erewrite allow_locked_opened by done. auto with lia.
Qed.

Lemma run_sys_wf cfg s ls s' : config_ok cfg → sys_wf cfg s → run s ls s' → sys_wf cfg s'.
Proof. intros Hok Hs Hrun. induction Hrun; eauto using step_sys_wf. Qed.

(** ** What the breaker guarantees *)

(** C12: whatever the interleaving of callers, from a new breaker every
    reachable configuration satisfies the invariant: the atomic byte is one of
    the three encodings, an open or half-open circuit has an opening time that
    is not in the future, the probe counter never exceeds what closes the
    circuit (so its [u32] addition cannot overflow), and every counter is in
    range. *)
Theorem breaker_invariant cfg now ls s :
  config_ok cfg → run (init cfg now) ls s → sys_wf cfg s.
Proof. eauto using run_sys_wf, init_sys_wf. Qed.

Lemma allow_locked_false now b :
  fst (allow_locked now b) = false ↔
  ∀ o, opened_at (window b) = Some o → elapsed now o < cooldown (config b).
Proof.
  unfold allow_locked. destruct (opened_at (window b)) as [o|]; simpl; [|naive_solver].
  destruct (Z.leb_spec (cooldown (config b)) (elapsed now o)); simpl; naive_solver lia.
Qed.

(** [allow] refuses a request exactly when the circuit is open and its
    cooldown has not elapsed, and a refusal changes nothing but the rejection
    counter. *)
Theorem allow_rejects_iff b t now :
  wf b t →
  (fst (allow now b) = false ↔
   state b = Open ∧ ∃ o, opened_at (window b) = Some o ∧ elapsed now o < cooldown (config b)) ∧
  (fst (allow now b) = false → snd (allow now b) = count_rejected b).
Proof.
  intros Hwf. unfold allow. destruct (state b) eqn:Hs; [naive_solver| |naive_solver].
  destruct (wf_opened _ _ Hwf) as [o Ho]; [congruence|].
  split; [rewrite allow_locked_false; naive_solver|].
  unfold allow_locked. by case_match.
Qed.

Lemma record_success_half_open now b t :
  config_ok (config b) → wf b t → state b = HalfOpen →
  let p := probe_successes (window b) + 1 in
  if cfg_probe_successes (config b) <=? p
  then state (record_success now b) = Closed ∧
       successes (window (record_success now b)) = 0 ∧
       failures (window (record_success now b)) = 0
  else state (record_success now b) = HalfOpen ∧
       probe_successes (window (record_success now b)) = p.
Proof.
  intros [Hp _] Hwf Hs p. pose proof (wf_half_open _ _ Hwf Hs) as Hh.
  pose proof (wf_probe _ _ _ (wf_window _ _ Hwf)).
  unfold record_success. rewrite Hs. simpl.
  assert (wrap_u32 (probe_successes (window b) + 1) = p) as ->.
  { apply Z.mod_small. unfold probes_needed, in_u in *. lia. }
  case_match; simpl; autorewrite with proxy; auto.
Qed.

(** A sequence of successful probes, at the given clock readings. *)
Definition probe_all (b : CircuitBreaker) (ts : list Z) : CircuitBreaker :=
  foldl (λ b t, record_success t b) b ts.

Lemma probe_all_half_open ts b t :
  config_ok (config b) → wf b t → state b = HalfOpen → clock_seq t ts →
  (probe_successes (window b) + Z.of_nat (length ts) < probes_needed (config b) →
   state (probe_all b ts) = HalfOpen) ∧
  (probe_successes (window b) + Z.of_nat (length ts) = probes_needed (config b) →
   state (probe_all b ts) = Closed ∧ successes (window (probe_all b ts)) = 0 ∧
   failures (window (probe_all b ts)) = 0).
Proof.
  revert b t. induction ts as [|t' ts IH]; intros b t Hok Hwf Hs Hts; simpl.
  { split; [done|]. pose proof (wf_half_open _ _ Hwf Hs). lia. }
  destruct Hts as [Ht Hts]. rewrite Nat2Z.inj_succ.
  pose proof (record_success_half_open t' b t Hok Hwf Hs) as Hcase. simpl in Hcase.
  pose proof (record_success_wf b t t' Hok Hwf ltac:(done)) as Hwf'.
  pose proof (wf_half_open _ _ Hwf Hs). pose proof (wf_probe _ _ _ (wf_window _ _ Hwf)).
  destruct (Z.leb_spec (cfg_probe_successes (config b)) (probe_successes (window b) + 1)).
  - assert (probe_successes (window b) + 1 = probes_needed (config b))
      by (unfold probes_needed in *; lia).
    split; [lia|]. intros. by destruct ts; [|simpl in *; lia].
  - destruct Hcase as [Hs' Hp']. destruct (IH (record_success t' b) t') as [IH1 IH2];
      autorewrite with proxy; auto. autorewrite with proxy in *. rewrite Hp' in *.
    split; intros; [apply IH1|apply IH2]; lia.
Qed.

(** C33: recovery.  Once the cooldown of an open circuit has elapsed the next
    request is admitted as a probe, the circuit stays half-open while fewer
    than the configured number of probes have succeeded, and it closes, with
    an empty window, exactly on the last one. *)
Theorem breaker_recovers b t now ts o :
  config_ok (config b) → wf b t → t ≤ now →
  state b = Open → opened_at (window b) = Some o → o + cooldown (config b) ≤ now →
  clock_seq now ts →
  let b' := snd (allow now b) in
  fst (allow now b) = true ∧
  (Z.of_nat (length ts) < probes_needed (config b) → state (probe_all b' ts) = HalfOpen) ∧
  (Z.of_nat (length ts) = probes_needed (config b) →
   state (probe_all b' ts) = Closed ∧
   successes (window (probe_all b' ts)) = 0 ∧ failures (window (probe_all b' ts)) = 0).
Proof.
  intros Hok Hwf Ht Hs Ho Hcool Hts b'.
  destruct (allow now b) as [a b''] eqn:Hallow. subst b'. simpl.
  assert (allow_locked now b = (a, b'')) as Hl by (unfold allow in Hallow; by rewrite Hs in Hallow).
  assert (wf b'' now) as Hwf' by eauto using allow_locked_wf.
  unfold allow_locked in Hl. rewrite Ho in Hl. simpl in Hl.
  destruct (Z.leb_spec (cooldown (config b)) (elapsed now o)); [|unfold elapsed in *; lia].
  simplify_eq. split; [done|].
  edestruct (λ Hc, probe_all_half_open ts _ now Hc Hwf') as [Hhalf Hclosed]; [done..|].
  split; intros; [apply Hhalf|apply Hclosed]; simpl; lia.
Qed.

(** ** Tripping *)

(** A closed circuit fed with a sequence of timed outcomes. *)
Definition record (o : Z * bool) (b : CircuitBreaker) : CircuitBreaker :=
  if snd o then record_success (fst o) b else record_failure (fst o) b.

Definition record_all (b : CircuitBreaker) (os : list (Z * bool)) : CircuitBreaker :=
  foldl (λ b o, record o b) b os.

Definition count_failures (os : list (Z * bool)) : Z :=
  Z.of_nat (length (filter (λ o, snd o = false) os)).

(** The majority test on a sequence of outcomes. *)
Definition majority (cfg : BreakerConfig) (os : list (Z * bool)) : Prop :=
  minimum_requests cfg ≤ Z.of_nat (length os) ≤ 2 * count_failures os.

(** No failure of the sequence completes a majority. *)
Definition quiet (cfg : BreakerConfig) (os : list (Z * bool)) : Prop :=
  ∀ p t, (p ++ [(t, false)]) `prefix_of` os → ¬ majority cfg (p ++ [(t, false)]).

Lemma count_failures_snoc os t ok :
  count_failures (os ++ [(t, ok)]) = count_failures os + (if ok then 0 else 1).
Proof.
  unfold count_failures. rewrite filter_app, length_app, Nat2Z.inj_add. f_equal.
  by destruct ok.
Qed.

Lemma count_failures_le os : 0 ≤ count_failures os ≤ Z.of_nat (length os).
Proof. unfold count_failures. pose proof (length_filter (λ o : Z * bool, snd o = false) os). lia. Qed.

Lemma quiet_snoc cfg os o : quiet cfg (os ++ [o]) → quiet cfg os.
Proof. intros Hq p t Hp. apply Hq. by apply prefix_app_r. Qed.

(** The counters of a closed circuit hold the outcomes of its window. *)
Record counts (b : CircuitBreaker) (t0 : Z) (os : list (Z * bool)) : Prop := {
  counts_state : state b = Closed;
  counts_started : started (window b) = t0;
  counts_failures : failures (window b) = count_failures os;
  counts_total : successes (window b) + failures (window b) = Z.of_nat (length os);
  counts_trips : trips b = 0
}.

Section tripping.
Context (cfg : BreakerConfig) (t0 : Z).
(** The default ratio, and a window wide enough to hold the sequence. *)
Context (Hratio : failure_ratio cfg = f64_half) (Hmin : 0 ≤ minimum_requests cfg).

Definition in_window (t : Z) : Prop := elapsed t t0 < cfg_window cfg.

Lemma roll_fresh now w : in_window now → started w = t0 → roll_if_stale cfg now w = w.
Proof.
  intros Hnow Hw. unfold roll_if_stale, in_window in *. rewrite Hw.
  destruct (Z.leb_spec (cfg_window cfg) (elapsed now t0)); [lia|done].
Qed.

Lemma ratio_reached_majority w os t :
  failures w = count_failures (os ++ [(t, false)]) →
  successes w + failures w = Z.of_nat (length (os ++ [(t, false)])) →
  Z.of_nat (length (os ++ [(t, false)])) < 2 ^ 53 →
  ratio_reached cfg w = true ↔ majority cfg (os ++ [(t, false)]).
Proof.
  intros Hf Ht Hlen. unfold ratio_reached, majority. rewrite Hratio, Ht, Hf.
  pose proof (count_failures_le (os ++ [(t, false)])).
  assert (0 < Z.of_nat (length (os ++ [(t, false)]))) by (rewrite length_app; simpl; lia).
  assert (wrap_u64 (Z.of_nat (length (os ++ [(t, false)]))) =
          Z.of_nat (length (os ++ [(t, false)]))) as -> by (apply Z.mod_small; lia).
  rewrite ratio_half_exact by lia. rewrite andb_true_iff, !Z.leb_le. lia.
Qed.

Lemma record_success_counts b os now :
  config b = cfg → in_window now → Z.of_nat (length os) < 2 ^ 53 - 1 →
  counts b t0 os → counts (record_success now b) t0 (os ++ [(now, true)]).
Proof.
  intros Hcfg Hnow Hlen [Hs Hst Hf Ht Htr]. unfold record_success. rewrite Hs, Hcfg.
  rewrite roll_fresh by done. pose proof (count_failures_le os).
  assert (wrap_u64 (successes (window b) + 1) = successes (window b) + 1) as Hw
    by (apply Z.mod_small; lia).
  split; simpl; rewrite ?Hw, ?count_failures_snoc, ?length_app; simpl; autorewrite with proxy;
    [done|done|lia|lia|done].
Qed.

Lemma record_failure_counts b os now :
  config b = cfg → in_window now → Z.of_nat (length os) < 2 ^ 53 - 1 →
  counts b t0 os →
  (majority cfg (os ++ [(now, false)]) → state (record_failure now b) = Open) ∧
  (¬ majority cfg (os ++ [(now, false)]) →
   counts (record_failure now b) t0 (os ++ [(now, false)])).
Proof.
  intros Hcfg Hnow Hlen [Hs Hst Hf Ht Htr]. unfold record_failure. rewrite Hs, Hcfg.
  rewrite roll_fresh by done. pose proof (count_failures_le os).
  assert (wrap_u64 (failures (window b) + 1) = failures (window b) + 1) as Hw
    by (apply Z.mod_small; lia).
  assert (failures (add_failure (window b)) = count_failures (os ++ [(now, false)])) as Hf'
    by (simpl; rewrite Hw, count_failures_snoc; lia).
  assert (successes (add_failure (window b)) + failures (add_failure (window b)) =
          Z.of_nat (length (os ++ [(now, false)]))) as Ht'
    by (rewrite length_app; simpl; lia).
  pose proof (ratio_reached_majority _ _ _ Hf' Ht') as Hiff.
  rewrite length_app in Hiff. simpl in Hiff. specialize (Hiff ltac:(lia)).
  destruct (ratio_reached cfg (add_failure (window b))).
  - split; [done|]. intros Hn. destruct Hn. by apply Hiff.
  - split; [intros Hm%Hiff; done|]. intros _. by split.
Qed.
End tripping.

Lemma record_config o b : config (record o b) = config b.
Proof. unfold record. case_match; by autorewrite with proxy. Qed.

Lemma record_all_snoc b os o : record_all b (os ++ [o]) = record o (record_all b os).
Proof. unfold record_all. by rewrite foldl_app. Qed.

Lemma record_all_config b os : config (record_all b os) = config b.
Proof.
  induction os as [|o os IH] using rev_ind; [done|].
  by rewrite record_all_snoc, record_config.
Qed.

Lemma record_all_counts cfg t0 os :
  failure_ratio cfg = f64_half → 0 ≤ minimum_requests cfg →
  Forall (λ o, in_window cfg t0 (fst o)) os → Z.of_nat (length os) < 2 ^ 53 →
  quiet cfg os → counts (record_all (new cfg t0) os) t0 os.
Proof.
  intros Hr Hm Hwin Hlen Hq. induction os as [|[t ok] os IH] using rev_ind; [by split|].
  apply Forall_app in Hwin as [Hwin Ht]. apply Forall_cons in Ht as [Ht _]. simpl in Ht.
  rewrite length_app in Hlen. simpl in Hlen.
  rewrite record_all_snoc. specialize (IH Hwin ltac:(lia) (quiet_snoc _ _ _ Hq)).
  pose proof (record_all_config (new cfg t0) os) as Hcfg. unfold record. simpl. destruct ok.
  - apply (record_success_counts cfg); auto; lia.
  - refine (proj2 (record_failure_counts cfg t0 Hr _ os t Hcfg Ht ltac:(lia) IH) _). by apply Hq.
Qed.

(** C18: the trip condition.  Fed with fewer than 2^53 outcomes inside one
    window, none of whose failures completed a majority, a breaker with the
    default ratio is closed; a success leaves it closed, and a further failure
    opens it exactly when, counting it, at least [minimum_requests] requests
    were seen and at least half of them failed. *)
Theorem trips_exactly_on_majority cfg t0 os now :
  failure_ratio cfg = f64_half → 0 ≤ minimum_requests cfg →
  Forall (λ o, in_window cfg t0 (fst o)) os → in_window cfg t0 now →
  Z.of_nat (length os) < 2 ^ 53 - 1 → quiet cfg os →
  let b := record_all (new cfg t0) os in
  state b = Closed ∧ state (record_success now b) = Closed ∧
  (state (record_failure now b) = Open ↔
   minimum_requests cfg ≤ Z.of_nat (length os) + 1 ∧
   Z.of_nat (length os) + 1 ≤ 2 * (count_failures os + 1)).
Proof.
  intros Hr Hm Hwin Hnow Hlen Hq b.
  assert (counts b t0 os) as Hc by (apply record_all_counts; auto with lia).
  assert (config b = cfg) as Hcfg by (by unfold b; rewrite record_all_config).
  pose proof (record_success_counts cfg t0 b os now Hcfg Hnow Hlen Hc) as [].
  destruct (record_failure_counts cfg t0 Hr b os now Hcfg Hnow Hlen Hc) as [Hopen Hclosed].
  assert (majority cfg (os ++ [(now, false)]) ↔
    minimum_requests cfg ≤ Z.of_nat (length os) + 1 ∧
    Z.of_nat (length os) + 1 ≤ 2 * (count_failures os + 1)) as Hiff.
  { unfold majority. rewrite count_failures_snoc, length_app. simpl. lia. }
  destruct Hc. split_and!; [done..|].
  destruct (decide (majority cfg (os ++ [(now, false)]))) as [Hmaj|Hmaj]; [tauto|].
  destruct (Hclosed Hmaj) as [Hs _ _ _ _]. rewrite Hs. split; [done|tauto].
Qed.

Lemma trips_exactly_on_majority_witness :
  state (record_failure 3 (record_all (new
    {| failure_ratio := f64_half; minimum_requests := 4; cfg_window := 60;
       cooldown := 50; cfg_probe_successes := 2 |} 0)
    [(1, true); (2, false); (2, true)])) = Open.
Proof.
  apply (trips_exactly_on_majority
    {| failure_ratio := f64_half; minimum_requests := 4; cfg_window := 60;
       cooldown := 50; cfg_probe_successes := 2 |} 0 [(1, true); (2, false); (2, true)] 3).
  - reflexivity.
  - simpl; lia.
  - repeat constructor.
  - reflexivity.
  - simpl; lia.
  - intros p t Hp [Hmin _]. apply prefix_length in Hp. rewrite length_app in *.
    simpl in *. lia.
  - vm_compute. split; discriminate.
Defined.

(** ** Safety of interleaved runs *)

Lemma run_app s ls1 s1 ls2 s2 : run s ls1 s1 → run s1 ls2 s2 → run s (ls1 ++ ls2) s2.
Proof. induction 1; simpl; eauto with proxy. Qed.

Lemma step_clock s l s' : step s l s' → clock s ≤ clock s'.
Proof. destruct 1; simpl; lia. Qed.

Lemma run_clock s ls s' : run s ls s' → clock s ≤ clock s'.
Proof. induction 1 as [|????? Hs _ IH]; [lia|]. apply step_clock in Hs. lia. Qed.

Lemma record_success_not_half_open now b :
  state b ≠ HalfOpen → state (record_success now b) = state b ∧ trips (record_success now b) = trips b.
Proof. intros. unfold record_success. by destruct (state b) eqn:Hs. Qed.

(** a healthy token never trips the circuit.  In every interleaving in
    which no failure is recorded the circuit is closed, has counted no trip,
    and has refused no request. *)
Theorem healthy_never_trips cfg now ls s :
  run (init cfg now) ls s → LFailure ∉ ls →
  state (brk s) = Closed ∧ trips (brk s) = 0 ∧ rejected (brk s) = 0 ∧
  Forall (λ l, l = LFast ∨ l = LSuccess) ls.
Proof.
  assert (∀ s0 ls s, run s0 ls s → LFailure ∉ ls →
    state (brk s0) = Closed → waiting s0 = 0%nat → trips (brk s0) = 0 → rejected (brk s0) = 0 →
    state (brk s) = Closed ∧ trips (brk s) = 0 ∧ rejected (brk s) = 0 ∧
    Forall (λ l, l = LFast ∨ l = LSuccess) ls) as Hgen.
  { induction 1 as [|s0 l s1 ls' s2 Hstep Hrun IH]; intros Hnf Hs Hw Ht Hr; [auto|].
    apply not_elem_of_cons in Hnf as [Hl Hnf].
    destruct Hstep; simpl in *; try congruence.
    - destruct IH as (?&?&?&?); auto 10.
    - destruct (record_success_not_half_open now0 b) as [Hs' Ht']; [congruence|].
      destruct IH as (?&?&?&?); auto 10; try congruence.
      unfold record_success; by rewrite Hs. }
  intros Hrun Hnf. by eapply Hgen.
Qed.

Lemma record_failure_open now b :
  state b = Open →
  state (record_failure now b) = Open ∧
  (opened_at (window (record_failure now b)) = opened_at (window b) ∨
   opened_at (window (record_failure now b)) = Some now).
Proof.
  intros Hs. unfold record_failure. rewrite Hs.
  case_match; simpl; autorewrite with proxy; auto.
Qed.

Lemma step_open_cooling cfg s l s' o :
  config_ok cfg → sys_wf cfg s → state (brk s) = Open → opened_at (window (brk s)) = Some o →
  step s l s' → clock s' < o + cooldown cfg →
  l ≠ LFast ∧ l ≠ LLock true ∧ state (brk s') = Open ∧
  ∃ o', opened_at (window (brk s')) = Some o' ∧ o ≤ o'.
Proof.
  intros Hok [Hcfg Hb _] Hs Ho Hstep Hclk.
  pose proof (wf_opened_past _ _ _ (wf_window _ _ Hb) o Ho) as Hpast.
  destruct Hstep as [| |b n t now a b' Ht Hl| |b n t now Ht]; simpl in *; subst cfg.
  - done.
  - naive_solver.
  - pose proof (allow_locked_false now b) as Hf. rewrite Hl in Hf. simpl in Hf.
    assert (a = false) as ->.
    { apply Hf. intros o' ?; simplify_eq. unfold elapsed. lia. }
    unfold allow_locked in Hl. case_match; simplify_eq/=. naive_solver.
  - destruct (record_success_not_half_open now b) as [-> _]; [congruence|].
    rewrite record_success_opened. naive_solver.
  - destruct (record_failure_open now b Hs) as [-> [-> | ->]]; [naive_solver|].
    split_and!; [done..|]. exists now. split; [done|lia].
Qed.

(** the cooldown holds.  While an open circuit's cooldown runs, no
    interleaving admits a request: every [allow] reads [Open] and is refused,
    whatever late results are recorded meanwhile. *)
Theorem cooldown_admits_nothing cfg s o ls s' :
  config_ok cfg → sys_wf cfg s → state (brk s) = Open → opened_at (window (brk s)) = Some o →
  run s ls s' → clock s' < o + cooldown cfg →
  state (brk s') = Open ∧ LFast ∉ ls ∧ LLock true ∉ ls.
Proof.
  intros Hok Hwf Hs Ho Hrun. revert o Ho. induction Hrun as [s|s l s1 ls s2 Hstep Hrun IH];
    intros o Ho Hclk; [split_and!; [done|set_solver..]|].
  pose proof (run_clock _ _ _ Hrun) as Hmono.
  destruct (step_open_cooling cfg s l s1 o) as (?&?&Hs1&o'&Ho1&?); [auto; lia..|].
  destruct (IH (step_sys_wf _ _ _ _ Hok Hwf Hstep) Hs1 o' Ho1) as (?&?&?); [lia|].
  set_solver.
Qed.

(** *** An executable scheduler *)

(** One scheduled step: the label to try and the clock reading. *)
Definition exec1 (s : sys) (o : label * Z) : option sys :=
  let '(l, now) := o in
  if now <? clock s then None else
  match l with
  | LFast => if decide (state (brk s) = Open) then None else Some s
  | LLoadOpen =>
      if decide (state (brk s) = Open)
      then Some {| brk := brk s; waiting := S (waiting s); clock := clock s |} else None
  | LLock a =>
      match waiting s with
      | O => None
      | S n => let '(a', b') := allow_locked now (brk s) in
               if eqb a a' then Some {| brk := b'; waiting := n; clock := now |} else None
      end
  | LSuccess => Some {| brk := record_success now (brk s); waiting := waiting s; clock := now |}
  | LFailure => Some {| brk := record_failure now (brk s); waiting := waiting s; clock := now |}
  end.

Fixpoint exec (s : sys) (os : list (label * Z)) : option sys :=
  match os with
  | [] => Some s
  | o :: os => s' ← exec1 s o; exec s' os
  end.

Lemma exec1_sound s o s' : exec1 s o = Some s' → step s (fst o) s'.
Proof.
  destruct o as [l now], s as [b n t]. unfold exec1. simpl.
  destruct (Z.ltb_spec now t); [done|]. intros Hx.
  destruct l; repeat case_match; simplify_eq; eauto with proxy.
  match goal with H : eqb _ _ = true |- _ => apply eqb_prop in H; subst end.
  by constructor.
Qed.

Lemma exec_sound os s s' : exec s os = Some s' → run s (fst <$> os) s'.
Proof.
  revert s. induction os as [|o os IH]; intros s; simpl; [intros [= ->]; constructor|].
  destruct (exec1 s o) as [s1|] eqn:H1; simpl; [|done].
  intros ?%IH. eapply run_cons; [by eapply exec1_sound|done].
Qed.

(** ** Where the code departs from its documentation *)

(** C36: a caller that read [Open] just before the circuit recovered pushes the
    recovered circuit back to half-open: with the default configuration there
    is a run to a closed circuit, with an empty window, from which the pending
    critical section of [allow] re-enters [HalfOpen] although no request failed
    since. *)
Theorem stale_load_reopens_closed :
  ∃ ls s s', run (init BreakerConfig_default 0) ls s ∧
    state (brk s) = Closed ∧ failures (window (brk s)) = 0 ∧
    step s (LLock true) s' ∧ state (brk s') = HalfOpen.
Proof.
  set (os := replicate 20 (LFailure, 1) ++
    [(LLoadOpen, 1); (LLoadOpen, 1); (LLock true, from_secs 6);
     (LSuccess, from_secs 7); (LSuccess, from_secs 7); (LSuccess, from_secs 7)]).
  destruct (exec (init BreakerConfig_default 0) os) as [s|] eqn:Hs; [|by vm_compute in Hs].
  destruct (exec1 s (LLock true, from_secs 8)) as [s'|] eqn:Hs';
    vm_compute in Hs; injection Hs as <-; [|by vm_compute in Hs'].
  eexists (fst <$> os), _, s'. split_and!.
  - apply exec_sound. by vm_compute.
  - done.
  - done.
  - by apply (exec1_sound _ (LLock true, from_secs 8)).
  - vm_compute in Hs'. by injection Hs' as <-.
Qed.

(** while the circuit is open, the late failure of a request admitted
    before it opened is counted as another trip and restarts the cooldown,
    although the circuit did not open again. *)
Theorem late_failure_counts_trip b now :
  state b = Open →
  ratio_reached (config b) (add_failure (roll_if_stale (config b) now (window b))) = true →
  let b' := record_failure now b in
  state b' = Open ∧ trips b' = incr (trips b) ∧ opened_at (window b') = Some now.
Proof. intros Hs Hr. simpl. unfold record_failure. by rewrite Hs, Hr. Qed.

(** A breaker that has just been opened by twenty failures at time 1. *)
Definition opened_default : CircuitBreaker :=
  Nat.iter 20 (record_failure 1) (new BreakerConfig_default 0).

Lemma late_failure_counts_trip_witness :
  trips opened_default = 1 ∧ trips (record_failure 2 opened_default) = 2.
Proof.
  split; [by vm_compute|].
  destruct (late_failure_counts_trip opened_default 2) as (_ & -> & _); by vm_compute.
Defined.

(** ** Witnesses *)

Lemma default_config_ok : config_ok BreakerConfig_default.
Proof. split; vm_compute; done. Qed.

Lemma breaker_invariant_witness :
  sys_wf BreakerConfig_default
    {| brk := record_failure 3 (new BreakerConfig_default 0); waiting := 0; clock := 3 |}.
Proof.
  apply (breaker_invariant BreakerConfig_default 0 [LFast; LFailure]).
  - exact default_config_ok.
  - apply (exec_sound [(LFast, 0); (LFailure, 3)]). by vm_compute.
Defined.

Lemma opened_default_wf : sys_wf BreakerConfig_default
  {| brk := opened_default; waiting := 0; clock := 1 |}.
Proof.
  apply (run_sys_wf _ (init BreakerConfig_default 0) (replicate 20 LFailure)).
  - exact default_config_ok.
  - apply init_sys_wf.
  - apply (exec_sound (replicate 20 (LFailure, 1))). by vm_compute.
Qed.

Lemma sys_wf_brk cfg b n t : sys_wf cfg {| brk := b; waiting := n; clock := t |} → wf b t.
Proof. by intros [_ H _]. Qed.

Lemma opened_default_brk : wf opened_default 1.
Proof. exact (sys_wf_brk _ _ _ _ opened_default_wf). Qed.

Lemma allow_rejects_iff_witness : fst (allow 2 opened_default) = false.
Proof.
  apply (allow_rejects_iff opened_default 1 2).
  - exact opened_default_brk.
  - split; [by vm_compute|]. exists 1. by vm_compute.
Defined.

Lemma breaker_recovers_witness :
  state (probe_all (snd (allow (from_secs 6) opened_default))
    [from_secs 7; from_secs 8; from_secs 9]) = Closed.
Proof.
  apply (breaker_recovers opened_default 1 (from_secs 6)
    [from_secs 7; from_secs 8; from_secs 9] 1).
  - exact default_config_ok.
  - exact opened_default_brk.
  - by vm_compute.
  - by vm_compute.
  - by vm_compute.
  - by vm_compute.
  - by vm_compute.
  - by vm_compute.
Defined.

Lemma healthy_never_trips_witness :
  state (brk {| brk := record_success 7 (new BreakerConfig_default 0);
                waiting := 0; clock := 7 |}) = Closed.
Proof.
  apply (healthy_never_trips BreakerConfig_default 0 [LFast; LSuccess]).
  - apply (exec_sound [(LFast, 0); (LSuccess, 7)]). by vm_compute.
  - apply (bool_decide_unpack _). by vm_compute.
Defined.

Lemma cooldown_admits_nothing_witness :
  state (brk {| brk := count_rejected opened_default; waiting := 0; clock := 9 |}) = Open.
Proof.
  apply (cooldown_admits_nothing BreakerConfig_default
    {| brk := opened_default; waiting := 0; clock := 1 |} 1 [LLoadOpen; LLock false]).
  - exact default_config_ok.
  - exact opened_default_wf.
  - by vm_compute.
  - by vm_compute.
  - apply (exec_sound [(LLoadOpen, 1); (LLock false, 9)]). by vm_compute.
  - by vm_compute.
Defined.
End CB.
