(* ===== verification/Deps.v ===== *)
(** * Types at the boundary with third-party crates

    The proxy's own code builds and inspects values of types that crates
    define: [tonic]'s [Status], [anyhow]'s error chains, and [cryptoki]'s
    errors, attributes and mechanisms.  This file holds those types, restricted
    to the constructors the proxy names (plus one for all others).  The crates'
    functions are not defined here: they are parameters of the components that
    call them. *)
From S2P Require Import Prelude RustStd.

(** ** [tonic]: status codes *)

Inductive Code :=
| COk | Cancelled | Unknown | InvalidArgument | DeadlineExceeded | NotFound
| AlreadyExists | PermissionDenied | ResourceExhausted | FailedPrecondition
| Aborted | OutOfRange | Unimplemented | Internal | Unavailable | DataLoss
| Unauthenticated.

#[global] Instance Code_eq_dec : EqDecision Code.
Proof. solve_decision. Defined.

Record Status := mkStatus { code : Code; message : string }.

#[global] Instance Status_eq_dec : EqDecision Status.
Proof. solve_decision. Defined.

Definition invalid_argument (m : string) : Status := mkStatus InvalidArgument m.
Definition not_found (m : string) : Status := mkStatus NotFound m.
Definition permission_denied (m : string) : Status := mkStatus PermissionDenied m.
Definition resource_exhausted (m : string) : Status := mkStatus ResourceExhausted m.
Definition internal (m : string) : Status := mkStatus Internal m.
Definition unavailable (m : string) : Status := mkStatus Unavailable m.
Definition deadline_exceeded (m : string) : Status := mkStatus DeadlineExceeded m.
Definition unauthenticated (m : string) : Status := mkStatus Unauthenticated m.

(** ** [cryptoki]: errors

    The return values the proxy tells apart; every other one is [RvOther] with
    its code.  [CkOther] stands for the errors that do not come from a PKCS#11
    call. *)

Inductive RvError :=
| SessionHandleInvalid | SessionClosed | DeviceError | DeviceRemoved
| TokenNotPresent | UserNotLoggedIn | UserAlreadyLoggedIn
| SignatureInvalid | SignatureLenRange
| EncryptedDataInvalid | EncryptedDataLenRange
| RvOther (rv : Z).

#[global] Instance RvError_eq_dec : EqDecision RvError.
Proof. solve_decision. Defined.

(** [Error::Pkcs11(rv, function)]: the function is the name of the PKCS#11
    call. *)
Inductive CkError :=
| Pkcs11 (rv : RvError) (function : string)
| CkOther (what : string).

#[global] Instance CkError_eq_dec : EqDecision CkError.
Proof. solve_decision. Defined.

(** ** [anyhow]: an error is a chain of context messages, outermost first,
    over an optional [cryptoki] error. *)

Record AnyError := mkAny { chain : list string; source : option CkError }.

Definition anyhow (m : string) : AnyError := mkAny [m] None.

(** [Result::context] on a [cryptoki] result and on an [anyhow] one. *)
Definition ck_context {A} (m : string) (r : result A CkError) : result A AnyError :=
  map_err (λ e, mkAny [m] (Some e)) r.

Definition any_context {A} (m : string) (r : result A AnyError) : result A AnyError :=
  map_err (λ e, mkAny (m :: chain e) (source e)) r.

(** [Error::downcast_ref::<cryptoki::error::Error>]. *)
Definition downcast_ck (e : AnyError) : option CkError := source e.

(** [{e}] shows the outermost message, [{e:#}] the whole chain; [show] is the
    [Display] of [cryptoki] errors. *)
Definition any_full (show : CkError → string) (e : AnyError) : list string :=
  chain e ++ (match source e with Some s => [show s] | None => [] end).

Definition any_to_string (show : CkError → string) (e : AnyError) : string :=
  default "" (head (any_full show e)).

Definition any_alternate (show : CkError → string) (e : AnyError) : string :=
  String.concat ": " (any_full show e).

(** ** [cryptoki]: objects and mechanisms *)

Record TokenInfo := mkTokenInfo { info_label : string; info_model : string }.
Record LibraryInfo := mkLibraryInfo {
  manufacturer_id : string; library_major : Z; library_minor : Z }.

Inductive ObjectClass := PRIVATE_KEY | PUBLIC_KEY | SECRET_KEY | DATA.

#[global] Instance ObjectClass_eq_dec : EqDecision ObjectClass.
Proof. solve_decision. Defined.

Inductive KeyType := KT_EC | KT_RSA | KT_AES | KT_Other (v : Z).

#[global] Instance KeyType_eq_dec : EqDecision KeyType.
Proof. solve_decision. Defined.

Inductive AttributeType :=
| AT_KeyType | AT_EcPoint | AT_Modulus | AT_PublicExponent | AT_Sensitive | AT_Extractable.

#[global] Instance AttributeType_eq_dec : EqDecision AttributeType.
Proof. solve_decision. Defined.

Inductive Attribute :=
| A_Class (c : ObjectClass)
| A_Label (l : bytes)
| A_Token (b : bool)
| A_Private (b : bool)
| A_Sensitive (b : bool)
| A_Extractable (b : bool)
| A_Sign (b : bool)
| A_Verify (b : bool)
| A_Encrypt (b : bool)
| A_Decrypt (b : bool)
| A_KeyType (t : KeyType)
| A_EcParams (p : bytes)
| A_EcPoint (p : bytes)
| A_Modulus (m : bytes)
| A_ModulusBits (n : Z)
| A_PublicExponent (e : bytes)
| A_ValueLen (n : Z)
| A_Value (v : bytes)
| A_Other (t : Z).

#[global] Instance Attribute_eq_dec : EqDecision Attribute.
Proof. solve_decision. Defined.

(** [PkcsPssParams] with the hash and mask functions the proxy uses. *)
Inductive MechanismType := MT_SHA256.
Inductive PkcsMgfType := MGF1_SHA256.

Record PkcsPssParams := { hash_alg : MechanismType; mgf : PkcsMgfType; s_len : Z }.

(** [GcmParams] is built by [cryptoki] from an IV, additional data and a tag
    length; the mechanism carries what it was built from. *)
Record GcmParams := { gcm_iv : bytes; gcm_aad : bytes; gcm_tag_bits : Z }.

Inductive Mechanism :=
| M_Ecdsa
| M_RsaPkcs
| M_Sha256RsaPkcs
| M_RsaPkcsPss (p : PkcsPssParams)
| M_Sha256RsaPkcsPss (p : PkcsPssParams)
| M_AesGcm (p : GcmParams)
| M_EccKeyPairGen
| M_RsaPkcsKeyPairGen
| M_AesKeyGen.
