(* ===== verification/Policy.v ===== *)
(** * The authorization policy ([authz/policy.rs])

    A policy file lists workloads; each grants operations on key labels.  It is
    compiled into nested hash maps so that a request costs two probes and a
    membership test.  The theorems show the compiled form decides exactly what
    the file lists, whatever the order and duplication of its entries. *)
From S2P Require Import Prelude RustStd Deps.

(** ** Operations *)

Module Operation.
Inductive t := Sign | Verify | Encrypt | Decrypt | GetPublicKey.

#[global] Instance t_eq_dec : EqDecision t.
Proof. solve_decision. Defined.

Definition encode_op (o : t) : N :=
  match o with Sign => 0 | Verify => 1 | Encrypt => 2 | Decrypt => 3 | GetPublicKey => 4 end.

Definition decode_op (n : N) : option t :=
  match n with
  | 0 => Some Sign | 1 => Some Verify | 2 => Some Encrypt
  | 3 => Some Decrypt | 4 => Some GetPublicKey | _ => None
  end%N.

#[global] Instance t_countable : Countable t.
Proof. refine (inj_countable encode_op decode_op _). by intros []. Defined.

Definition as_str (o : t) : string :=
  match o with
  | Sign => "sign"
  | Verify => "verify"
  | Encrypt => "encrypt"
  | Decrypt => "decrypt"
  | GetPublicKey => "get_public_key"
  end.
End Operation.

Module Policy.

(** ** The file *)

Record GrantEntry := { key_label : string; operations : list Operation.t }.

Record WorkloadEntry := {
  identity : string;
  description : option string;
  grants : list GrantEntry
}.

Record PolicyFile := { workloads : list WorkloadEntry }.

(** ** The compiled policy *)

Record Policy := { table : gmap string (gmap string (gset Operation.t)) }.

(** [map.entry(k).or_default()] followed by an update of the value in place. *)
Definition entry_or_default {V} `{Empty V} (k : string) (f : V → V)
    (m : gmap string V) : gmap string V :=
  partial_alter (λ o, Some (f (default ∅ o))) k m.

(** [HashSet::extend]. *)
Definition extend (ops : list Operation.t) (s : gset Operation.t) : gset Operation.t :=
  s ∪ list_to_set ops.

Definition add_grant (per_key : gmap string (gset Operation.t)) (g : GrantEntry) :
    gmap string (gset Operation.t) :=
  entry_or_default (key_label g) (extend (operations g)) per_key.

Definition add_workload (t : gmap string (gmap string (gset Operation.t)))
    (w : WorkloadEntry) : gmap string (gmap string (gset Operation.t)) :=
  entry_or_default (identity w) (λ per_key, foldl add_grant per_key (grants w)) t.

Definition compile (file : PolicyFile) : Policy :=
  {| table := foldl add_workload ∅ (workloads file) |}.

(** [toml::from_str] is [toml_from_str]: a policy file or a parse error. *)
Definition parse (toml_from_str : string → result PolicyFile AnyError) (text : string) :
    result Policy AnyError :=
  result_map compile (any_context "invalid TOML" (toml_from_str text)).

(** [read] is [std::fs::read_to_string] on the path. *)
Definition load (read : string → result string AnyError)
    (toml_from_str : string → result PolicyFile AnyError) (path : string) :
    result Policy AnyError :=
  (let? text := any_context ("failed to read policy file " +:+ path) (read path) in
   any_context ("failed to parse policy file " +:+ path) (parse toml_from_str text))%rust.

Definition is_allowed (p : Policy) (identity key_label : string) (o : Operation.t) : bool :=
  match table p !! identity with
  | Some keys =>
      match keys !! key_label with
      | Some ops => bool_decide (o ∈@{gset Operation.t} ops)
      | None => false
      end
  | None => false
  end.

Definition identity_count (p : Policy) : nat := size (table p).

Definition values {V} (m : gmap string V) : list V := snd <$> map_to_list m.

Definition grant_count (p : Policy) : nat :=
  sum_list (size <$> (values (table p) ≫= values)).

(** ** What a file grants *)

Definition granted (file : PolicyFile) (i k : string) (o : Operation.t) : Prop :=
  ∃ w g, w ∈ workloads file ∧ identity w = i ∧
         g ∈ grants w ∧ key_label g = k ∧ o ∈ operations g.

(** Operations allowed by one identity's table. *)
Definition key_allows (per_key : gmap string (gset Operation.t)) (k : string)
    (o : Operation.t) : Prop :=
  ∃ ops, per_key !! k = Some ops ∧ o ∈ ops.

Definition table_allows (t : gmap string (gmap string (gset Operation.t)))
    (i k : string) (o : Operation.t) : Prop :=
  ∃ per_key, t !! i = Some per_key ∧ key_allows per_key k o.

Lemma is_allowed_table p i k o : is_allowed p i k o = true ↔ table_allows (table p) i k o.
Proof.
  unfold is_allowed, table_allows, key_allows.
  destruct (table p !! i) as [keys|]; [|naive_solver].
  destruct (keys !! k) as [ops|] eqn:Hk; [|naive_solver].
  rewrite bool_decide_eq_true. naive_solver.
Qed.

Lemma add_grant_allows per_key g k o :
  key_allows (add_grant per_key g) k o ↔
  key_allows per_key k o ∨ (key_label g = k ∧ o ∈ operations g).
Proof.
  unfold key_allows, add_grant, entry_or_default, extend.
  destruct (decide (key_label g = k)) as [->|Hne].
  - setoid_rewrite lookup_partial_alter_eq.
    destruct (per_key !! k) as [ops|]; simpl; split.
    all: try (intros (?&[= <-]&[?|?%elem_of_list_to_set]%elem_of_union); set_solver).
    all: intros [(?&?&?)|[_ ?]]; simplify_eq; eexists; (split; [done|]); set_solver.
  - setoid_rewrite lookup_partial_alter_ne; [|done]. naive_solver.
Qed.

Lemma add_grants_allows gs per_key k o :
  key_allows (foldl add_grant per_key gs) k o ↔
  key_allows per_key k o ∨ ∃ g, g ∈ gs ∧ key_label g = k ∧ o ∈ operations g.
Proof.
  revert per_key. induction gs as [|g gs IH]; intros per_key; simpl; [set_solver|].
  rewrite IH, add_grant_allows. set_solver.
Qed.

Lemma key_allows_empty k o : ¬ key_allows ∅ k o.
Proof. intros (?&H&_). by rewrite lookup_empty in H. Qed.

Lemma add_workload_allows t w i k o :
  table_allows (add_workload t w) i k o ↔
  table_allows t i k o ∨
  (identity w = i ∧ ∃ g, g ∈ grants w ∧ key_label g = k ∧ o ∈ operations g).
Proof.
  unfold table_allows, add_workload, entry_or_default.
  destruct (decide (identity w = i)) as [->|Hne].
  - setoid_rewrite lookup_partial_alter_eq. pose proof (key_allows_empty k o).
    destruct (t !! i) as [pk|]; simpl; split.
    all: try (intros (?&?&Ha); simplify_eq; apply add_grants_allows in Ha; naive_solver).
    all: intros Ha; eexists; split; [done|]; apply add_grants_allows; naive_solver.
  - setoid_rewrite lookup_partial_alter_ne; [|done]. naive_solver.
Qed.

Lemma compile_allows file i k o :
  table_allows (table (compile file)) i k o ↔ granted file i k o.
Proof.
  unfold compile, granted. simpl.
  assert (∀ t ws, table_allows (foldl add_workload t ws) i k o ↔
    table_allows t i k o ∨ ∃ w g, w ∈ ws ∧ identity w = i ∧ g ∈ grants w ∧
      key_label g = k ∧ o ∈ operations g) as Hgen.
  { intros t ws. revert t. induction ws as [|w ws IH]; intros t; simpl; [set_solver|].
    rewrite IH, add_workload_allows. set_solver. }
  rewrite Hgen. split; [|auto]. intros [(?&H&_)|]; [by rewrite lookup_empty in H|done].
Qed.

(** C19: the compiled policy allows exactly what the file lists.  For every
    policy text that parses, an identity may perform an operation on a key if
    and only if some entry of the file for that identity has a grant for that
    key that names the operation; so an unknown identity, key or operation is
    denied at every level, and a text that does not parse gives no policy. *)
Theorem parse_is_allowed_iff toml text i k o :
  match toml text, parse toml text with
  | Ok file, Ok p => is_allowed p i k o = true ↔ granted file i k o
  | Err _, Err _ => True
  | _, _ => False
  end.
Proof.
  unfold parse, any_context. destruct (toml text) as [file|e]; simpl; [|done].
  by rewrite is_allowed_table, compile_allows.
Qed.

(** *** Order independence *)

Lemma entry_or_default_commute {V} `{Empty V} k1 k2 (f1 f2 : V → V) m :
  (k1 = k2 → ∀ v, f1 (f2 v) = f2 (f1 v)) →
  entry_or_default k1 f1 (entry_or_default k2 f2 m) =
  entry_or_default k2 f2 (entry_or_default k1 f1 m).
Proof.
  intros Hf. unfold entry_or_default. destruct (decide (k1 = k2)) as [->|Hne].
  - rewrite !partial_alter_partial_alter_eq. apply partial_alter_ext. intros x _. simpl.
    by rewrite Hf.
  - by apply partial_alter_partial_alter_ne.
Qed.

Lemma foldl_permutation {A B} (f : A → B → A) (xs ys : list B) a :
  (∀ a b c, f (f a b) c = f (f a c) b) → xs ≡ₚ ys → foldl f a xs = foldl f a ys.
Proof.
  intros Hf Hp. revert a. induction Hp as [| |x y l|? ? ? _ IH1 _ IH2]; intros a; simpl;
    [done|auto|by rewrite Hf|by rewrite IH1, IH2].
Qed.

Lemma foldl_swap {A B} (f : A → B → A) (xs ys : list B) a :
  (∀ a b c, f (f a b) c = f (f a c) b) →
  foldl f (foldl f a xs) ys = foldl f (foldl f a ys) xs.
Proof.
  intros Hf. rewrite <-!foldl_app. apply foldl_permutation; [done|apply Permutation_app_comm].
Qed.

Lemma add_grant_commute pk g1 g2 :
  add_grant (add_grant pk g1) g2 = add_grant (add_grant pk g2) g1.
Proof. apply entry_or_default_commute. intros _ v. unfold extend. set_solver. Qed.

Lemma add_workload_commute t w1 w2 :
  add_workload (add_workload t w1) w2 = add_workload (add_workload t w2) w1.
Proof.
  apply entry_or_default_commute. intros _ v. apply foldl_swap, add_grant_commute.
Qed.

(** entries are merged, not overwritten: listing the workloads of a file
    in another order compiles to the same policy. *)
Theorem compile_order_independent ws1 ws2 :
  ws1 ≡ₚ ws2 → compile {| workloads := ws1 |} = compile {| workloads := ws2 |}.
Proof.
  intros Hp. unfold compile. simpl. f_equal.
  apply foldl_permutation; [apply add_workload_commute|done].
Qed.

(** *** Counting grants *)

(** The (identity, key, operation) triples of a compiled policy. *)
Definition triples (p : Policy) : list (string * string * Operation.t) :=
  map_to_list (table p) ≫= λ ik,
  map_to_list (snd ik) ≫= λ ko, (λ o, (fst ik, fst ko, o)) <$> elements (snd ko).

Lemma triples_spec p i k o : (i, k, o) ∈ triples p ↔ table_allows (table p) i k o.
Proof.
  unfold triples, table_allows, key_allows. rewrite list_elem_of_bind. split.
  - intros ([i' keys]&H&Hi). apply list_elem_of_bind in H as ([k' ops]&H&Hk).
    apply list_elem_of_fmap in H as (o'&?&Ho). simplify_eq/=.
    apply elem_of_map_to_list in Hi, Hk. apply elem_of_elements in Ho. eauto 10.
  - intros (keys&Hi&ops&Hk&Ho). exists (i, keys). split; [|by apply elem_of_map_to_list].
    apply list_elem_of_bind. exists (k, ops). split; [|by apply elem_of_map_to_list].
    apply list_elem_of_fmap. exists o. split; [done|by apply elem_of_elements].
Qed.

Lemma triples_NoDup p : NoDup (triples p).
Proof.
  apply NoDup_bind; [| |apply NoDup_map_to_list].
  - intros [i1 m1] [i2 m2] [[i k] o] H1 H2 Hx Hy.
    apply list_elem_of_bind in Hx as (?&(?&?&_)%list_elem_of_fmap&_).
    apply list_elem_of_bind in Hy as (?&(?&?&_)%list_elem_of_fmap&_). simplify_eq/=.
    apply elem_of_map_to_list in H1, H2. by simplify_eq.
  - intros [i keys] _. apply NoDup_bind; [| |apply NoDup_map_to_list].
    + intros [k1 s1] [k2 s2] x H1 H2 (?&?&_)%list_elem_of_fmap (?&?&_)%list_elem_of_fmap.
      simplify_eq/=. apply elem_of_map_to_list in H1, H2. by simplify_eq.
    + intros [k ops] _. apply NoDup_fmap_2; [|apply NoDup_elements].
      intros o1 o2 ?. by simplify_eq.
Qed.

Lemma length_bind {A B} (f : A → list B) l : length (l ≫= f) = sum_list (length ∘ f <$> l).
Proof. induction l as [|x l IH]; [done|]. csimpl. by rewrite length_app, IH. Qed.

Lemma sum_list_bind {A B} (f : B → nat) (g : A → list B) l :
  sum_list (f <$> (l ≫= g)) = sum_list ((λ x, sum_list (f <$> g x)) <$> l).
Proof.
  induction l as [|x l IH]; [done|]. csimpl. rewrite fmap_app, sum_list_with_app. by f_equal.
Qed.

Lemma triples_length p : length (triples p) = grant_count p.
Proof.
  unfold triples, grant_count, values. rewrite length_bind, sum_list_bind.
  rewrite <-list_fmap_compose. f_equal. apply list_fmap_ext. intros _ [i keys] _. simpl.
  rewrite length_bind, <-list_fmap_compose. f_equal. apply list_fmap_ext.
  intros _ [k ops] _. simpl. by rewrite length_fmap.
Qed.

(** the grant count reported at startup is the number of distinct
    (identity, key, operation) triples the file grants: duplicates in the file
    are not counted twice. *)
Theorem grant_count_distinct file :
  ∃ l, NoDup l ∧ length l = grant_count (compile file) ∧
       ∀ i k o, (i, k, o) ∈ l ↔ granted file i k o.
Proof.
  exists (triples (compile file)).
  split_and!; [apply triples_NoDup|apply triples_length|].
  intros. by rewrite triples_spec, compile_allows.
Qed.

(** ** Witness *)

(** The first two workloads of [policy/authz.toml], abridged. *)
Definition payments : WorkloadEntry := {|
  identity := "spiffe://local/ns/default/sa/payments";
  description := Some "Payment service.";
  grants := [{| key_label := "demo-ec-p256";
                operations := [Operation.Sign; Operation.Verify; Operation.GetPublicKey] |};
             {| key_label := "demo-aes-256";
                operations := [Operation.Encrypt; Operation.Decrypt] |}]
|}.

Definition batch : WorkloadEntry := {|
  identity := "spiffe://local/ns/default/sa/batch";
  description := None;
  grants := [{| key_label := "demo-ec-p256"; operations := [Operation.Sign] |}]
|}.

Lemma compile_order_independent_witness :
  compile {| workloads := [payments; batch] |} = compile {| workloads := [batch; payments] |}.
Proof. apply (compile_order_independent [payments; batch] [batch; payments]). constructor. Defined.

Example sample_policy :
  is_allowed (compile {| workloads := [payments; batch] |})
    "spiffe://local/ns/default/sa/batch" "demo-ec-p256" Operation.Sign = true ∧
  is_allowed (compile {| workloads := [payments; batch] |})
    "spiffe://local/ns/default/sa/batch" "demo-ec-p256" Operation.Verify = false ∧
  grant_count (compile {| workloads := [payments; batch; batch] |}) = 6.
Proof. split_and!; by vm_compute. Qed.
End Policy.
