(* ===== verification/Identity.v ===== *)
(** * Workload identities ([authz/identity.rs])

    A caller's identity is read from its leaf certificate, and memoized in a
    bounded map keyed by the certificate's DER bytes.  X.509 parsing is the
    [x509_parser] crate: the parameter [from_der].  The theorems show that
    memoization is invisible, also when requests interleave between the read
    lock and the write lock, and that the map stays bounded. *)
From S2P Require Import Prelude RustStd Deps.

Module Identity.

(** ** What the parser returns, as far as it is inspected *)

Inductive GeneralName := URI (uri : string) | OtherName.

Inductive ParsedExtension :=
| SubjectAlternativeName (general_names : list GeneralName)
| OtherExtension.

(** [common_names] are the subject's Common Name attributes, each with the
    result of [as_str]. *)
Record X509Certificate := {
  extensions : list ParsedExtension;
  common_names : list (option string)
}.

(** ** Extracting the identity *)

Fixpoint first_uri_name (names : list GeneralName) : option string :=
  match names with
  | [] => None
  | URI uri :: _ => Some uri
  | OtherName :: rest => first_uri_name rest
  end.

Fixpoint first_uri (exts : list ParsedExtension) : option string :=
  match exts with
  | [] => None
  | SubjectAlternativeName names :: rest =>
      match first_uri_name names with
      | Some uri => Some uri
      | None => first_uri rest
      end
  | OtherExtension :: rest => first_uri rest
  end.

(** All the URIs of a certificate, in document order. *)
Definition name_uri (n : GeneralName) : option string :=
  match n with URI u => Some u | OtherName => None end.

Definition ext_names (e : ParsedExtension) : list GeneralName :=
  match e with SubjectAlternativeName ns => ns | OtherExtension => [] end.

Definition uris (cert : X509Certificate) : list string :=
  omap name_uri (extensions cert ≫= ext_names).

Lemma first_uri_name_flat names : first_uri_name names = head (omap name_uri names).
Proof. induction names as [|[u|] names IH]; [done..|]. csimpl. done. Qed.

Lemma first_uri_flat exts : first_uri exts = head (omap name_uri (exts ≫= ext_names)).
Proof.
  induction exts as [|[names|] exts IH]; csimpl; [done| |done].
  rewrite omap_app, first_uri_name_flat, IH. by destruct (omap name_uri names).
Qed.

Definition MAX_CACHED_IDENTITIES : nat := 1024.

Record IdentityExtractor := {
  cache : gmap bytes string;
  (** a panic while holding the write lock would poison it *)
  poisoned : bool
}.

(** [IdentityExtractor::new]. *)
Definition new : IdentityExtractor := {| cache := ∅; poisoned := false |}.

Section identity.
Context (from_der : bytes → option X509Certificate).

Definition parse_identity (der : bytes) : result string Status :=
  match from_der der with
  | None => Err (unauthenticated "client certificate could not be parsed")
  | Some cert =>
      match first_uri (extensions cert) with
      | Some uri => Ok uri
      | None =>
          match common_names cert with
          | Some cn :: _ => Ok cn
          | _ => Err (unauthenticated
              "client certificate carries neither a URI SAN nor a Common Name")
          end
      end
  end.

(** The leaf of the peer's chain, as [peer_certs] reports it. *)
Definition leaf_der (peer_certs : option (list bytes)) : result bytes Status :=
  match peer_certs with
  | None => Err (unauthenticated "no client certificate presented; mTLS is required")
  | Some certs =>
      ok_or (head certs) (unauthenticated "empty client certificate chain")
  end.

(** Under the read lock. *)
Definition cached (e : IdentityExtractor) (der : bytes) : option string :=
  if poisoned e then None else cache e !! der.

(** Under the write lock. *)
Definition memoize (der : bytes) (identity : string) (e : IdentityExtractor) :
    IdentityExtractor :=
  if poisoned e then e else
  let c := if (MAX_CACHED_IDENTITIES <=? size (cache e))%nat then ∅ else cache e in
  {| cache := <[der := identity]> c; poisoned := poisoned e |}.

Definition identify (peer_certs : option (list bytes)) :
    stR IdentityExtractor Status string := λ e,
  match leaf_der peer_certs with
  | Err s => (Err s, e)
  | Ok der =>
      match cached e der with
      | Some identity => (Ok identity, e)
      | None =>
          match parse_identity der with
          | Err s => (Err s, e)
          | Ok identity => (Ok identity, memoize der identity e)
          end
      end
  end.

(** ** The specification: the identity without a cache *)

Definition identity_of (peer_certs : option (list bytes)) : result string Status :=
  (let? der := leaf_der peer_certs in parse_identity der)%rust.

(** Every entry is what parsing its key gives, and there are at most
    [MAX_CACHED_IDENTITIES] of them. *)
Record coherent (e : IdentityExtractor) : Prop := {
  coherent_entries : ∀ der id, cache e !! der = Some id → parse_identity der = Ok id;
  coherent_size : (size (cache e) ≤ MAX_CACHED_IDENTITIES)%nat
}.

Lemma new_coherent : coherent new.
Proof. split; simpl; [intros ??; by rewrite lookup_empty|rewrite map_size_empty; lia]. Qed.

Lemma memoize_coherent der id e :
  coherent e → parse_identity der = Ok id → coherent (memoize der id e).
Proof.
  intros [He Hs] Hp. unfold memoize. destruct (poisoned e); [by split|].
  set (c := if _ : bool then _ else _).
  assert (∀ d i, c !! d = Some i → parse_identity d = Ok i) as Hc.
  { subst c. case_match; [intros ??; by rewrite lookup_empty|done]. }
  assert (size c < MAX_CACHED_IDENTITIES)%nat as Hsc.
  { subst c. destruct (Nat.leb_spec MAX_CACHED_IDENTITIES (size (cache e))); [|done].
    rewrite map_size_empty. unfold MAX_CACHED_IDENTITIES. lia. }
  split; simpl.
  - intros d i. rewrite lookup_insert. case_decide; naive_solver.
  - rewrite map_size_insert. case_match; simpl; lia.
Qed.

Lemma cached_coherent e der id : coherent e → cached e der = Some id → parse_identity der = Ok id.
Proof. intros [He _]. unfold cached. case_match; [done|]. apply He. Qed.

Lemma identify_spec e peer_certs :
  coherent e →
  fst (identify peer_certs e) = identity_of peer_certs ∧ coherent (snd (identify peer_certs e)).
Proof.
  intros He. unfold identify, identity_of, result_bind.
  destruct (leaf_der peer_certs) as [der|s]; simpl; [|done].
  destruct (cached e der) as [id|] eqn:Hc; simpl.
  { by erewrite cached_coherent by done. }
  destruct (parse_identity der) as [id|s] eqn:Hp; simpl; eauto using memoize_coherent.
Qed.

(** ** Interleaved requests

    Between the read lock and the write lock other requests may run.  A
    configuration holds the extractor and the requests that missed and have
    not yet memoized what they parsed. *)

Record config := { ext : IdentityExtractor; missed : list (bytes * string) }.

(** A label is the answer given to a request, if the step gives one. *)
Inductive step : config → option (option (list bytes) * result string Status) →
    config → Prop :=
| step_no_leaf e m certs s :
    leaf_der certs = Err s →
    step {| ext := e; missed := m |} (Some (certs, Err s)) {| ext := e; missed := m |}
| step_hit e m certs der id :
    leaf_der certs = Ok der → cached e der = Some id →
    step {| ext := e; missed := m |} (Some (certs, Ok id)) {| ext := e; missed := m |}
| step_parse_err e m certs der s :
    leaf_der certs = Ok der → cached e der = None → parse_identity der = Err s →
    step {| ext := e; missed := m |} (Some (certs, Err s)) {| ext := e; missed := m |}
| step_miss e m certs der id :
    leaf_der certs = Ok der → cached e der = None → parse_identity der = Ok id →
    step {| ext := e; missed := m |} None {| ext := e; missed := (der, id) :: m |}
| step_memoize e m1 m2 certs der id :
    leaf_der certs = Ok der →
    step {| ext := e; missed := m1 ++ (der, id) :: m2 |} (Some (certs, Ok id))
         {| ext := memoize der id e; missed := m1 ++ m2 |}.

Inductive run : config → list (option (list bytes) * result string Status) → config → Prop :=
| run_nil c : run c [] c
| run_tau c c1 ls c2 : step c None c1 → run c1 ls c2 → run c ls c2
| run_answer c a c1 ls c2 : step c (Some a) c1 → run c1 ls c2 → run c (a :: ls) c2.

Record config_ok (c : config) : Prop := {
  config_coherent : coherent (ext c);
  config_missed : Forall (λ p, parse_identity (fst p) = Ok (snd p)) (missed c)
}.

(** An answer is the one the specification gives. *)
Definition answer_ok (a : option (option (list bytes) * result string Status)) : Prop :=
  match a with
  | Some (certs, r) => r = identity_of certs
  | None => True
  end.

Lemma extractor_step_ok c a c' : config_ok c → step c a c' → config_ok c' ∧ answer_ok a.
Proof.
  intros [Hc Hm] Hstep. unfold answer_ok, identity_of, result_bind.
  destruct Hstep as [e m certs s Hl|e m certs der id Hl Hh|e m certs der s Hl Hh Hp
    |e m certs der id Hl Hh Hp|e m1 m2 certs der id Hl]; simpl in *; rewrite ?Hl.
  - done.
  - split; [done|]. by erewrite cached_coherent by done.
  - done.
  - split; [|done]. split; simpl; [done|]. by constructor.
  - apply Forall_app in Hm as [Hm1 [Hp Hm2]%Forall_cons]. simpl in Hp.
    split; [|done]. split; simpl; [by apply memoize_coherent|]. by apply Forall_app.
Qed.

Lemma run_ok c ls c' :
  run c ls c' → config_ok c → config_ok c' ∧ Forall (λ a, answer_ok (Some a)) ls.
Proof.
  induction 1 as [| |c a c1 ls c2 Hs Hr IH]; intros Hok; [auto| |].
  - eapply extractor_step_ok in Hok as [??]; eauto.
  - eapply extractor_step_ok in Hok as [Hok ?]; [|done]. destruct (IH Hok). auto.
Qed.

(** C25: memoization is transparent and bounded.  Whatever requests
    interleave on a new extractor, every answer is what parsing the caller's
    own leaf certificate gives, every cached entry is too, and the cache never
    holds more than 1024 identities. *)
Theorem identify_transparent ls c :
  run {| ext := new; missed := [] |} ls c →
  Forall (λ a, snd a = identity_of (fst a)) ls ∧
  (size (cache (ext c)) ≤ MAX_CACHED_IDENTITIES)%nat ∧
  (∀ der id, cache (ext c) !! der = Some id → parse_identity der = Ok id).
Proof.
  intros Hrun. destruct (run_ok _ _ _ Hrun) as [[[He Hs] _] Hls].
  { split; [apply new_coherent|constructor]. }
  split_and!; [|done..]. eapply Forall_impl; [done|]. by intros [certs r].
Qed.

(** the identity rule.  The identity is the first URI, in document
    order, of all the certificate's SAN extensions; the first Common Name is
    used only when no extension carries a URI, and an unreadable first Common
    Name is an error rather than a reason to try the next. *)
Theorem parse_identity_rule der id :
  parse_identity der = Ok id ↔
  ∃ cert, from_der der = Some cert ∧
    (head (uris cert) = Some id ∨
     uris cert = [] ∧ head (common_names cert) = Some (Some id)).
Proof.
  unfold parse_identity. destruct (from_der der) as [cert|]; [|naive_solver].
  rewrite first_uri_flat. fold (uris cert).
  transitivity (head (uris cert) = Some id ∨
    uris cert = [] ∧ head (common_names cert) = Some (Some id)); [|naive_solver].
  destruct (uris cert) as [|u us]; simpl; [|naive_solver].
  destruct (common_names cert) as [|[cn|] cns]; naive_solver.
Qed.
End identity.

(** ** Witness: a parser that knows one certificate *)

Definition demo_cert : X509Certificate := {|
  extensions := [OtherExtension;
    SubjectAlternativeName [OtherName; URI "spiffe://local/ns/default/sa/payments"]];
  common_names := [Some "payments"]
|}.

Definition demo_from_der (der : bytes) : option X509Certificate :=
  if decide (der = [x30; x01]) then Some demo_cert else None.

Lemma identify_transparent_witness :
  (size (cache (ext {| ext := snd (identify demo_from_der (Some [[x30; x01]]) new);
                       missed := [] |})) ≤ MAX_CACHED_IDENTITIES)%nat.
Proof.
  eapply (identify_transparent demo_from_der
    [(Some [[x30; x01]], Ok "spiffe://local/ns/default/sa/payments")]).
  eapply run_tau.
  { eapply (step_miss _ _ _ (Some [[x30; x01]]) [x30; x01]); reflexivity. }
  eapply run_answer; [|apply run_nil].
  apply (step_memoize _ new [] []). reflexivity.
Defined.

Example demo_identity :
  fst (identify demo_from_der (Some [[x30; x01]; [x30; x02]]) new) =
    Ok "spiffe://local/ns/default/sa/payments" ∧
  fst (identify demo_from_der (Some []) new) =
    Err (unauthenticated "empty client certificate chain").
Proof. split; by vm_compute. Qed.
End Identity.
