(* ===== verification/Authorizer.v ===== *)
(** * Identity and policy in one check ([authz/authorizer.rs]) *)
From S2P Require Import Prelude RustStd Deps Policy Identity.

Module Authorizer.

Record AuthzMetrics := {
  allowed_total : Z;
  denied_total : Z;
  unauthenticated_total : Z
}.

Record Authorizer := {
  extractor : Identity.IdentityExtractor;
  policy : Policy.Policy;
  metrics : AuthzMetrics
}.

(** [Authorizer::new]. *)
Definition new (p : Policy.Policy) : Authorizer := {|
  extractor := Identity.new;
  policy := p;
  metrics := {| allowed_total := 0; denied_total := 0; unauthenticated_total := 0 |}
|}.

Definition count_allowed (m : AuthzMetrics) : AuthzMetrics :=
  {| allowed_total := incr (allowed_total m); denied_total := denied_total m;
     unauthenticated_total := unauthenticated_total m |}.

Definition count_denied (m : AuthzMetrics) : AuthzMetrics :=
  {| allowed_total := allowed_total m; denied_total := incr (denied_total m);
     unauthenticated_total := unauthenticated_total m |}.

Definition count_unauthenticated (m : AuthzMetrics) : AuthzMetrics :=
  {| allowed_total := allowed_total m; denied_total := denied_total m;
     unauthenticated_total := incr (unauthenticated_total m) |}.

Definition denial (identity key_label : string) (o : Operation.t) : Status :=
  permission_denied ("identity '" +:+ identity +:+ "' is not permitted to " +:+
    Operation.as_str o +:+ " key '" +:+ key_label +:+ "'").

Section authorizer.
Context (from_der : bytes → option Identity.X509Certificate).

Definition authorize (peer_certs : option (list bytes)) (key_label : string)
    (operation : Operation.t) : stR Authorizer Status string := λ a,
  match Identity.identify from_der peer_certs (extractor a) with
  | (Err s, e) =>
      (Err s, {| extractor := e; policy := policy a;
                 metrics := count_unauthenticated (metrics a) |})
  | (Ok identity, e) =>
      if Policy.is_allowed (policy a) identity key_label operation
      then (Ok identity, {| extractor := e; policy := policy a;
                            metrics := count_allowed (metrics a) |})
      else (Err (denial identity key_label operation),
            {| extractor := e; policy := policy a;
               metrics := count_denied (metrics a) |})
  end.

(** ** The contract other components rely on *)

(** What an authorizer must answer, given the policy it was built with. *)
Definition verdict (p : Policy.Policy) (peer_certs : option (list bytes))
    (key_label : string) (operation : Operation.t) : result string Status :=
  (let? identity := Identity.identity_of from_der peer_certs in
   if Policy.is_allowed p identity key_label operation
   then Ok identity else Err (denial identity key_label operation))%rust.

(** The counter that records a verdict. *)
Definition count_verdict (peer_certs : option (list bytes)) (v : result string Status)
    (m : AuthzMetrics) : AuthzMetrics :=
  match Identity.identity_of from_der peer_certs, v with
  | Err _, _ => count_unauthenticated m
  | Ok _, Ok _ => count_allowed m
  | Ok _, Err _ => count_denied m
  end.

Definition coherent (a : Authorizer) : Prop := Identity.coherent from_der (extractor a).

Lemma authorize_contract a peer_certs key_label operation :
  coherent a →
  let '(r, a') := authorize peer_certs key_label operation a in
  r = verdict (policy a) peer_certs key_label operation ∧
  policy a' = policy a ∧ metrics a' = count_verdict peer_certs r (metrics a) ∧ coherent a'.
Proof.
  intros Hc. destruct (Identity.identify_spec from_der _ peer_certs Hc) as [Hid Hc'].
  unfold authorize, verdict, count_verdict, coherent.
  destruct (Identity.identify from_der peer_certs (extractor a)) as [r e].
  simpl in *. rewrite <-Hid. destruct r as [id|s]; simpl; [|done].
  by destruct (Policy.is_allowed (policy a) id key_label operation).
Qed.

(** on any authorizer reached by earlier calls, the answer is the
    policy's verdict on the caller's own certificate, the policy is unchanged,
    and exactly the counter of that verdict moves. *)
Theorem authorize_verdict a peer_certs key_label operation :
  coherent a →
  let '(r, a') := authorize peer_certs key_label operation a in
  r = verdict (policy a) peer_certs key_label operation ∧
  policy a' = policy a ∧ metrics a' = count_verdict peer_certs r (metrics a) ∧ coherent a'.
Proof. apply authorize_contract. Qed.

Lemma authorize_ok_allowed a certs k o id a' :
  authorize certs k o a = (Ok id, a') → Policy.is_allowed (policy a) id k o = true.
Proof. unfold authorize. repeat case_match; naive_solver. Qed.

Lemma authorizer_new_coherent p : coherent (new p).
Proof. apply Identity.new_coherent. Qed.
End authorizer.

Definition demo_authorizer : Authorizer :=
  new (Policy.compile {| Policy.workloads := [Policy.payments; Policy.batch] |}).

Lemma authorize_verdict_witness :
  fst (authorize Identity.demo_from_der (Some [[x30; x01]]) "demo-rsa-2048" Operation.Sign
         demo_authorizer) =
  Err (denial "spiffe://local/ns/default/sa/payments" "demo-rsa-2048" Operation.Sign).
Proof.
  pose proof (authorize_verdict Identity.demo_from_der demo_authorizer (Some [[x30; x01]])
    "demo-rsa-2048" Operation.Sign (authorizer_new_coherent _ _)) as H.
  destruct (authorize _ _ _ _ _) as [r a']. destruct H as [-> _]. by vm_compute.
Defined.
End Authorizer.
