(* ===== verification/RateLimit.v ===== *)
(** * Per-identity rate limiting ([resilience/ratelimit.rs])

    One token bucket per identity, kept in a bounded cache.  Buckets are
    [governor]'s and the cache is [moka]'s: both are parameters, with the
    behaviour the limiter relies on stated as the laws of an interface. *)
From Stdlib Require Import Sorting.Sorted.
From S2P Require Import Prelude RustStd.

Local Open Scope Z_scope.

Module RL.

Record RateLimitConfig := { per_second : Z; burst : Z; max_identities : Z }.

(** [RateLimitConfig::default]. *)
Definition RateLimitConfig_default : RateLimitConfig :=
  {| per_second := 20000; burst := 2000; max_identities := 4096 |}.

(** [RateLimitConfig::from_env]: no limit unless [RATE_LIMIT_PER_SECOND] is
    set to a number. *)
Definition from_env (e : env) : option RateLimitConfig :=
  v ← e "RATE_LIMIT_PER_SECOND";
  n ← parse_uint 32 v;
  Some {|
    per_second := n;
    burst := default (burst RateLimitConfig_default)
               (e "RATE_LIMIT_BURST" ≫= parse_uint 32);
    max_identities := max_identities RateLimitConfig_default
  |}.

(** A [governor::Quota]: both fields are [NonZeroU32]. *)
Record Quota := { quota_per_second : Z; quota_burst : Z }.

(** [NonZeroU32::new(n).expect(..)]: [None] is the panic. *)
Definition non_zero_u32 (n : Z) : option Z := if n =? 0 then None else Some n.

(** ** The interface of the two crates *)

Class Limiters := {
  (** A direct [governor] limiter and its cell state. *)
  Bucket : Type;
  direct : Quota → Bucket;
  (** [check] at a clock reading: whether the cell conforms, and the new state *)
  bucket_check : Z → Bucket → bool * Bucket;
  (** A [moka] cache from identities to buckets. *)
  BucketCache : Type;
  cache_build : Z → BucketCache;
  cache_peek : BucketCache → string → option Bucket;
  (** [get_with_by_ref(key, init)]: the value, and the cache after the call *)
  cache_get_with : BucketCache → string → Bucket → Bucket * BucketCache;
  (** the shared bucket's state changes in place *)
  cache_update : BucketCache → string → Bucket → BucketCache
}.

(** What [moka] documents: an existing value is returned and the initializer
    is used only when there is none; a call may evict entries but does not
    change other ones. *)
Class LimitersOk (L : Limiters) : Prop := {
  build_empty : ∀ n k, cache_peek (cache_build n) k = None;
  get_with_value : ∀ c k i,
    fst (cache_get_with c k i) = default i (cache_peek c k);
  get_with_other : ∀ c k i k', k ≠ k' →
    cache_peek (snd (cache_get_with c k i)) k' = cache_peek c k' ∨
    cache_peek (snd (cache_get_with c k i)) k' = None;
  get_with_same : ∀ c k i,
    cache_peek (snd (cache_get_with c k i)) k = Some (fst (cache_get_with c k i)) ∨
    cache_peek (snd (cache_get_with c k i)) k = None;
  update_same : ∀ c k b,
    cache_peek (cache_update c k b) k = (λ _, b) <$> cache_peek c k;
  update_other : ∀ c k b k', k ≠ k' → cache_peek (cache_update c k b) k' = cache_peek c k'
}.

Section ratelimit.
Context {L : Limiters}.

Record RateLimiter := {
  buckets : BucketCache;
  quota : Quota;
  allowed : Z;
  rejected : Z
}.

(** [RateLimiter::new]; [None] would be a panic of [expect]. *)
Definition new (config : RateLimitConfig) : option RateLimiter :=
  per_second ← non_zero_u32 (Z.max (per_second config) 1);
  burst ← non_zero_u32 (Z.max (burst config) 1);
  Some {|
    buckets := cache_build (max_identities config);
    quota := {| quota_per_second := per_second; quota_burst := burst |};
    allowed := 0;
    rejected := 0
  |}.

(** [check] at the clock reading [now]. *)
Definition check (now : Z) (identity : string) (l : RateLimiter) : bool * RateLimiter :=
  let '(limiter, c) := cache_get_with (buckets l) identity (direct (quota l)) in
  let '(ok, limiter') := bucket_check now limiter in
  let c' := cache_update c identity limiter' in
  if ok
  then (true, {| buckets := c'; quota := quota l;
                 allowed := incr (allowed l); rejected := rejected l |})
  else (false, {| buckets := c'; quota := quota l;
                  allowed := allowed l; rejected := incr (rejected l) |}).

(** A sequence of checks, with the answers. *)
Fixpoint check_all (cs : list (Z * string)) (l : RateLimiter) : list bool * RateLimiter :=
  match cs with
  | [] => ([], l)
  | (now, id) :: cs =>
      let '(ok, l1) := check now id l in
      let '(oks, l2) := check_all cs l1 in (ok :: oks, l2)
  end.

(** ** Isolation of identities

    [served q b ts oks]: an identity whose bucket is [b] ([None]: not in the
    cache) is given the answers [oks] to its own checks at [ts], where
    between two of them its bucket may be evicted and nothing else. *)
Inductive served (q : Quota) : option Bucket → list Z → list bool → Prop :=
| served_nil b : served q b [] []
| served_evicted b ts oks : served q None ts oks → served q b ts oks
| served_check b now ts ok b' oks :
    bucket_check now (default (direct q) b) = (ok, b') →
    served q (Some b') ts oks → served q b (now :: ts) (ok :: oks).

(** The times and the answers of one identity in a sequence of checks. *)
Definition times_of (id : string) (cs : list (Z * string)) : list Z :=
  fst <$> filter (λ c, snd c = id) cs.

Definition answers_of (id : string) (cs : list (Z * string)) (oks : list bool) : list bool :=
  snd <$> filter (λ c : Z * string * bool, snd (fst c) = id) (zip cs oks).

Lemma check_quota now id l : quota (snd (check now id l)) = quota l.
Proof. unfold check. repeat case_match; by simplify_eq/=. Qed.

Section laws.
Context {HL : LimitersOk L}.

Lemma check_other now id l id' :
  id ≠ id' →
  cache_peek (buckets (snd (check now id l))) id' = cache_peek (buckets l) id' ∨
  cache_peek (buckets (snd (check now id l))) id' = None.
Proof.
  intros Hne. unfold check.
  pose proof (get_with_other (buckets l) id (direct (quota l)) id' Hne) as Ho.
  destruct (cache_get_with _ _ _) as [b c]. destruct (bucket_check now b) as [ok b'].
  destruct ok; simpl in *; by rewrite update_other.
Qed.

Lemma check_same now id l :
  let '(ok, b') := bucket_check now (default (direct (quota l)) (cache_peek (buckets l) id)) in
  fst (check now id l) = ok ∧
  (cache_peek (buckets (snd (check now id l))) id = Some b' ∨
   cache_peek (buckets (snd (check now id l))) id = None).
Proof.
  unfold check. pose proof (get_with_value (buckets l) id (direct (quota l))) as Hv.
  pose proof (get_with_same (buckets l) id (direct (quota l))) as Hs.
  destruct (cache_get_with _ _ _) as [b c]. simpl in *. subst b.
  destruct (bucket_check _ _) as [ok b']. destruct ok; simpl; (split; [done|]);
    rewrite update_same; destruct Hs as [-> | ->]; auto.
Qed.

Lemma check_all_served cs l id :
  served (quota l) (cache_peek (buckets l) id) (times_of id cs)
    (answers_of id cs (fst (check_all cs l))).
Proof.
  revert l. induction cs as [|[now id'] cs IH]; intros l; [constructor|].
  simpl. destruct (check now id' l) as [ok l1] eqn:Hc.
  specialize (IH l1). destruct (check_all cs l1) as [oks l2]. simpl in *.
  assert (quota l1 = quota l) as Hq by (by rewrite <-(check_quota now id' l), Hc).
  rewrite Hq in IH. unfold times_of, answers_of in *. cbn [zip_with].
  rewrite !filter_cons. cbn [fst snd]. case_decide as Hid; csimpl.
  - subst id'. pose proof (check_same now id l) as Hs. rewrite Hc in Hs. simpl in Hs.
    destruct (bucket_check _ _) as [ok' b'] eqn:Hb. destruct Hs as [-> Hp].
    eapply served_check; [done|]. destruct Hp as [Hp|Hp]; rewrite Hp in IH;
      [done|by apply served_evicted].
  - pose proof (check_other now id' l id Hid) as Ho. rewrite Hc in Ho. simpl in Ho.
    destruct Ho as [Ho|Ho]; rewrite Ho in IH; [done|by apply served_evicted].
Qed.

(** C34: isolation.  In any sequence of checks by any number of callers,
    the answers an identity receives are those of its own bucket: other
    identities can never consume its tokens.  The cache's evictions are the
    only thing they can cause, and an evicted identity restarts with a full
    bucket. *)
Theorem identities_isolated config l cs id :
  new config = Some l →
  served (quota l) None (times_of id cs) (answers_of id cs (fst (check_all cs l))).
Proof.
  intros Hnew. pose proof (check_all_served cs l id) as Hs.
  unfold new in Hnew. repeat (case_match || simplify_option_eq); simplify_eq/=.
  by rewrite build_empty in Hs.
Qed.

(** ** The burst of an identity *)

(** A bucket checked at several times. *)
Fixpoint bucket_run (ts : list Z) (b : Bucket) : list bool * Bucket :=
  match ts with
  | [] => ([], b)
  | t :: ts =>
      let '(ok, b1) := bucket_check t b in
      let '(oks, b2) := bucket_run ts b1 in (ok :: oks, b2)
  end.

Lemma bucket_run_app ts ts' b :
  bucket_run (ts ++ ts') b =
  ((bucket_run ts b).1 ++ (bucket_run ts' (bucket_run ts b).2).1, (bucket_run ts' (bucket_run ts b).2).2).
Proof.
  revert b. induction ts as [|t ts IH]; intros b; simpl; [by destruct (bucket_run ts' b)|].
  destruct (bucket_check t b) as [ok b1]. rewrite IH. by destruct (bucket_run ts b1).
Qed.
End laws.
End ratelimit.

(** What [moka] documents as long as the identities are fewer than its capacity:
    it keeps what it holds. *)
Class Roomy (L : Limiters) : Prop := {
  keep_other : ∀ c k i k', k ≠ k' → cache_peek (snd (cache_get_with c k i)) k' = cache_peek c k';
  keep_same : ∀ c k i, cache_peek (snd (cache_get_with c k i)) k = Some (fst (cache_get_with c k i))
}.

(** What [governor] documents of a fresh limiter: it lets the burst through, and then
    nothing until the first cell is replenished. *)
Class Governor (L : Limiters) : Prop := {
  burst_passes : ∀ q ts, Sorted Z.le ts → Z.of_nat (length ts) ≤ quota_burst q →
    fst (bucket_run ts (direct q)) = replicate (length ts) true;
  burst_spent : ∀ q t ts now, Sorted Z.le (t :: ts ++ [now]) → quota_burst q ≤ Z.of_nat (S (length ts)) →
    now < t + from_secs 1 / quota_per_second q →
    fst (bucket_check now (snd (bucket_run (t :: ts) (direct q)))) = false
}.

Section bursts.
Context {L : Limiters} {HL : LimitersOk L} {HR : Roomy L} {HG : Governor L}.

Lemma check_peek now id l id' :
  cache_peek (buckets (snd (check now id l))) id' =
  if decide (id' = id)
  then Some (snd (bucket_check now (default (direct (quota l)) (cache_peek (buckets l) id))))
  else cache_peek (buckets l) id'.
Proof.
  unfold check. pose proof (get_with_value (buckets l) id (direct (quota l))) as Hv.
  pose proof (keep_same (buckets l) id (direct (quota l))) as Hs.
  pose proof (keep_other (buckets l) id (direct (quota l)) id') as Ho.
  destruct (cache_get_with _ _ _) as [b c]. simpl in *. subst b.
  destruct (bucket_check _ _) as [ok b']. destruct ok; simpl; case_decide as Hid;
    [subst; by rewrite update_same, Hs|rewrite update_other; auto..|subst; by rewrite update_same, Hs
    |rewrite update_other; auto].
Qed.

(** An identity is answered by one bucket, whoever else calls. *)
Lemma answers_are_the_buckets cs l id :
  answers_of id cs (fst (check_all cs l)) =
  fst (bucket_run (times_of id cs) (default (direct (quota l)) (cache_peek (buckets l) id))).
Proof.
  revert l. induction cs as [|[now id'] cs IH]; intros l; [done|].
  simpl. pose proof (check_same now id' l) as Hs. pose proof (check_peek now id' l id) as Hp.
  pose proof (check_quota now id' l) as Hq.
  destruct (check now id' l) as [ok l1]. specialize (IH l1). destruct (check_all cs l1) as [oks l2].
  simpl in *. unfold times_of, answers_of in *. cbn [zip_with]. rewrite !filter_cons. cbn [fst snd].
  rewrite Hq in IH. destruct (decide (id' = id)) as [->|Hid]; csimpl.
  - rewrite decide_True in Hp by done. rewrite Hp in IH. rewrite IH. simpl.
    destruct (bucket_check _ _) as [ok' b']. destruct Hs as [-> _]. simpl. by destruct (bucket_run _ b').
  - rewrite decide_False in Hp by congruence. by rewrite Hp in IH.
Qed.

(** Every identity has its own burst.  Whatever other identities do, the first
    [burst] checks of an identity pass, and one that follows at least that many and
    comes before a cell can be replenished does not. *)
Theorem burst_per_identity config l cs id :
  new config = Some l → Sorted Z.le (times_of id cs) →
  (Z.of_nat (length (times_of id cs)) ≤ Z.max (burst config) 1 →
     answers_of id cs (fst (check_all cs l)) = replicate (length (times_of id cs)) true) ∧
  (∀ t ts now, times_of id cs = t :: ts ++ [now] → Z.max (burst config) 1 ≤ Z.of_nat (S (length ts)) →
     now < t + from_secs 1 / Z.max (per_second config) 1 →
     last (answers_of id cs (fst (check_all cs l))) = Some false).
Proof.
  intros Hnew Hsorted. rewrite answers_are_the_buckets.
  unfold new in Hnew. repeat (case_match || simplify_option_eq); simplify_eq/=. rewrite build_empty. simpl.
  unfold non_zero_u32 in *. repeat case_match; simplify_eq. split.
  - intros Hlen. by apply burst_passes.
  - intros t ts now Hts Hburst Hnow. rewrite Hts in *.
    pose proof (burst_spent {| quota_per_second := Z.max (per_second config) 1; quota_burst := Z.max (burst config) 1 |}
      t ts now Hsorted Hburst Hnow) as Hspent. clear Hburst Hnow.
    change (t :: ts ++ [now]) with ((t :: ts) ++ [now]).
    rewrite bucket_run_app. destruct (bucket_run (t :: ts) _) as [oks b]. simpl in *.
    destruct (bucket_check now b) as [ok b']. simpl in *. rewrite Hspent. apply last_snoc.
Qed.
End bursts.

Section counters.
Context {L : Limiters}.

Definition count_true (oks : list bool) : Z := Z.of_nat (length (filter (λ b, b = true) oks)).
Definition count_false (oks : list bool) : Z := Z.of_nat (length (filter (λ b, b = false) oks)).

(** construction never panics, and the two counters account for every
    check: after any sequence, as long as fewer than 2^64 checks were made,
    [allowed] and [rejected] are the numbers of positive and negative
    answers. *)
Theorem counters_account config cs :
  Z.of_nat (length cs) < 2 ^ 64 →
  ∃ l, new config = Some l ∧
    let '(oks, l') := check_all cs l in
    length oks = length cs ∧ allowed l' = count_true oks ∧ rejected l' = count_false oks.
Proof.
  intros Hlen. unfold new, non_zero_u32.
  destruct (Z.eqb_spec (Z.max (per_second config) 1) 0); [lia|]. simpl.
  destruct (Z.eqb_spec (Z.max (burst config) 1) 0); [lia|]. simpl.
  eexists. split; [done|]. set (l := {| buckets := _ |}).
  assert (∀ cs l, 0 ≤ allowed l → 0 ≤ rejected l →
    allowed l + rejected l + Z.of_nat (length cs) < 2 ^ 64 →
    let '(oks, l') := check_all cs l in
    length oks = length cs ∧ allowed l' = allowed l + count_true oks ∧
    rejected l' = rejected l + count_false oks) as Hgen.
  { clear. induction cs as [|[now id] cs IH]; intros l Ha Hr Hb; simpl.
    { unfold count_true, count_false. simpl. lia. }
    simpl in Hb. destruct (check now id l) as [ok l1] eqn:Hc.
    assert (allowed l1 = allowed l + (if ok then 1 else 0) ∧
            rejected l1 = rejected l + (if ok then 0 else 1)) as [Ha1 Hr1].
    { unfold check in Hc. repeat case_match; simplify_eq/=; rewrite incr_small; lia. }
    specialize (IH l1). destruct (check_all cs l1) as [oks l2].
    unfold count_true, count_false in *. rewrite !filter_cons.
    destruct ok; simpl in *; destruct IH as (?&?&?); lia. }
  specialize (Hgen cs l). destruct (check_all cs l) as [oks l'].
  simpl in Hgen. destruct Hgen as (?&?&?); auto with lia.
Qed.
End counters.

(** ** Witness: buckets that count down and a cache that never evicts *)

#[global] Instance demo_limiters : Limiters := {|
  Bucket := Z;
  direct q := quota_burst q;
  bucket_check _ b := if 0 <? b then (true, b - 1) else (false, b);
  BucketCache := gmap string Z;
  cache_build _ := ∅;
  cache_peek c k := c !! k;
  cache_get_with c k i :=
    match c !! k with Some b => (b, c) | None => (i, <[k := i]> c) end;
  cache_update c k b := alter (λ _, b) k c
|}.

#[global] Instance demo_limiters_ok : LimitersOk demo_limiters.
Proof.
  split; simpl.
  - intros. apply lookup_empty.
  - intros. by case_match.
  - intros. left. case_match; simpl; [done|]. by rewrite lookup_insert_ne.
  - intros. left. case_match; simpl; [done|]. by rewrite lookup_insert_eq.
  - intros. rewrite lookup_alter. case_decide; [done|congruence].
  - intros. by rewrite lookup_alter_ne.
Qed.

#[global] Instance demo_limiters_roomy : Roomy demo_limiters.
Proof.
  split; simpl.
  - intros. case_match; simpl; [done|]. by rewrite lookup_insert_ne.
  - intros. case_match; simpl; [done|]. by rewrite lookup_insert_eq.
Qed.

Lemma demo_bucket_run ts b :
  bucket_run ts b =
  ((λ i, bool_decide (Z.of_nat i < b)) <$> seq 0 (length ts), Z.max (Z.min 0 b) (b - Z.of_nat (length ts))).
Proof.
  revert b. induction ts as [|t ts IH]; intros b; simpl; [f_equal; lia|].
  rewrite <-(fmap_S_seq 0), <-list_fmap_compose.
  destruct (Z.ltb_spec 0 b) as [Hpos|Hz]; rewrite IH; simpl.
  - rewrite bool_decide_eq_true_2 by lia. f_equal; [f_equal|lia].
    apply list_fmap_ext. intros i x _. simpl. apply bool_decide_ext. lia.
  - rewrite bool_decide_eq_false_2 by lia. f_equal; [f_equal|lia].
    apply list_fmap_ext. intros i x _. simpl. apply bool_decide_ext. lia.
Qed.

#[global] Instance demo_limiters_governor : Governor demo_limiters.
Proof.
  split.
  - intros q ts _ Hlen. rewrite demo_bucket_run. simpl. apply list_eq. intros i.
    rewrite list_lookup_fmap. destruct (decide (i < length ts)%nat) as [Hi|Hi].
    + rewrite lookup_seq_lt, lookup_replicate_2 by done. simpl. by rewrite bool_decide_eq_true_2 by lia.
    + rewrite lookup_seq_ge by lia. symmetry. apply lookup_replicate_None. lia.
  - intros q t ts now _ Hlen _. rewrite demo_bucket_run. cbn -[Z.of_nat length].
    destruct (Z.ltb_spec 0 (Z.max (Z.min 0 (quota_burst q)) (quota_burst q - Z.of_nat (length (t :: ts))))); [|done].
    simpl length in *. lia.
Qed.

Definition demo_config : RateLimitConfig := {| per_second := 1; burst := 2; max_identities := 16 |}.

Definition demo_checks : list (Z * string) :=
  [(0, "greedy"); (0, "greedy"); (0, "quiet"); (0, "greedy"); (1, "greedy")]%string.

Definition demo_limiter : RateLimiter := {|
  buckets := (∅ : gmap string Z);
  quota := {| quota_per_second := 1; quota_burst := 2 |};
  allowed := 0; rejected := 0
|}.

Lemma identities_isolated_witness :
  served (quota demo_limiter) None [0] (answers_of "quiet" demo_checks
    (fst (check_all demo_checks demo_limiter))) ∧
  fst (check_all demo_checks demo_limiter) = [true; true; true; false; false].
Proof.
  split; [|by vm_compute].
  apply (identities_isolated demo_config demo_limiter demo_checks "quiet").
  reflexivity.
Defined.

Lemma counters_account_witness :
  ∃ l, new demo_config = Some l ∧
    let '(oks, l') := check_all demo_checks l in
    length oks = length demo_checks ∧ allowed l' = count_true oks ∧ rejected l' = count_false oks.
Proof. apply (counters_account demo_config demo_checks). simpl. lia. Defined.
End RL.
