(* ===== verification/Session.v ===== *)
(** * Opening and searching a token ([pkcs11/session.rs], [pkcs11/errors.rs])

    The PKCS#11 module is reached through the [cryptoki] crate.  Its calls are
    the operations of the class [Cryptoki], over an abstract state of the module
    ([World]); nothing is assumed of them here.  [close] is what dropping a
    [Session] does. *)
From S2P Require Import Prelude RustStd Deps.

Class Cryptoki := {
  World : Type;
  Context : Type;
  Slot : Type;
  Session : Type;
  ObjectHandle : Type;
  (** [Display] of an error and [Debug] of an attribute *)
  show_error : CkError → string;
  debug_attribute : option Attribute → string;
  load : string → stR World CkError Context;
  (** dropping the last handle to the module finalizes it *)
  finalize : Context → World → World;
  initialize : Context → stR World CkError unit;
  slots_with_token : Context → stR World CkError (list Slot);
  get_library_info : Context → stR World CkError LibraryInfo;
  get_token_info : Context → Slot → stR World CkError TokenInfo;
  open_rw_session : Context → Slot → stR World CkError Session;
  login : Session → string → stR World CkError unit;
  logout : Session → stR World CkError unit;
  close : Session → World → World;
  find_objects : Session → list Attribute → stR World CkError (list ObjectHandle);
  get_attributes : Session → ObjectHandle → list AttributeType → stR World CkError (list Attribute);
  sign : Session → Mechanism → ObjectHandle → bytes → stR World CkError bytes;
  verify : Session → Mechanism → ObjectHandle → bytes → bytes → stR World CkError unit;
  encrypt : Session → Mechanism → ObjectHandle → bytes → stR World CkError bytes;
  decrypt : Session → Mechanism → ObjectHandle → bytes → stR World CkError bytes;
  generate_key_pair : Session → Mechanism → list Attribute → list Attribute →
    stR World CkError (ObjectHandle * ObjectHandle);
  generate_key : Session → Mechanism → list Attribute → stR World CkError ObjectHandle;
  create_object : Session → list Attribute → stR World CkError ObjectHandle;
  destroy_object : Session → ObjectHandle → stR World CkError unit;
  (** [GcmParams::new(iv, aad, tag_bits)] *)
  gcm_params : bytes → bytes → Z → result GcmParams CkError
}.

(** ** Errors that cross the pool boundary ([pkcs11/errors.rs]) *)

Inductive PoolError :=
| KeyNotFound (label : string)
| InvalidRequest (message : string)
| Overloaded
| Timeout
| ShuttingDown
| Hsm (operation : string) (source : CkError)
| PInternal (message : string).

#[global] Instance PoolError_eq_dec : EqDecision PoolError.
Proof. solve_decision. Defined.

(** The [Display] that [thiserror] derives from the attributes. *)
Definition pool_error_to_string (show : CkError → string) (e : PoolError) : string :=
  match e with
  | KeyNotFound l => "no key labelled '" +:+ l +:+ "' on the token"
  | InvalidRequest m => "invalid request: " +:+ m
  | Overloaded => "overloaded: the request queue is full"
  | Timeout => "timed out waiting for a worker"
  | ShuttingDown => "the worker pool is shutting down"
  | Hsm op s => op +:+ " failed: " +:+ show s
  | PInternal m => m
  end.

Definition is_session_fatal (e : CkError) : bool :=
  match e with
  | Pkcs11 (SessionHandleInvalid | SessionClosed | DeviceError | DeviceRemoved
            | TokenNotPresent | UserNotLoggedIn) _ => true
  | _ => false
  end.

(** ** Configuration *)

Record TokenConfig := {
  module_path : string;
  config_token_label : string;
  user_pin : string
}.

(** The fields that [Debug for TokenConfig] prints. *)
Definition token_config_debug (c : TokenConfig) : list (string * string) :=
  [("module_path", module_path c); ("token_label", config_token_label c);
   ("user_pin", "<redacted>")].

Definition token_config_from_env (e : env) : result TokenConfig AnyError :=
  (let? pin := ok_or (e "USER_PIN")
                 (mkAny ["USER_PIN is not set; refusing to guess a PIN";
                         "environment variable not found"] None) in
   Ok {|
     module_path := default "/usr/lib/softhsm/libsofthsm2.so" (e "PKCS11_MODULE");
     config_token_label := default "grpc-low-latency" (e "TOKEN_LABEL");
     user_pin := pin
   |})%rust.

(** ** [str::trim]

    Whitespace is Unicode's [White_Space], by its UTF-8 encodings. *)

Definition whitespace : list bytes :=
  [[x09]; [x0a]; [x0b]; [x0c]; [x0d]; [x20]; [xc2; x85]; [xc2; xa0]; [xe1; x9a; x80];
   [xe2; x80; x80]; [xe2; x80; x81]; [xe2; x80; x82]; [xe2; x80; x83]; [xe2; x80; x84];
   [xe2; x80; x85]; [xe2; x80; x86]; [xe2; x80; x87]; [xe2; x80; x88]; [xe2; x80; x89];
   [xe2; x80; x8a]; [xe2; x80; xa8]; [xe2; x80; xa9]; [xe2; x80; xaf]; [xe2; x81; x9f];
   [xe3; x80; x80]].

Fixpoint strip_prefix (p l : bytes) : option bytes :=
  match p, l with
  | [], _ => Some l
  | a :: p', b :: l' => if Byte.eqb a b then strip_prefix p' l' else None
  | _ :: _, [] => None
  end.

Fixpoint strip_any (ps : list bytes) (l : bytes) : option bytes :=
  match ps with
  | [] => None
  | p :: ps => match strip_prefix p l with Some l' => Some l' | None => strip_any ps l end
  end.

(** Each round removes at least one byte, so the length is enough fuel. *)
Fixpoint trim_front (fuel : nat) (ps : list bytes) (l : bytes) : bytes :=
  match fuel with
  | O => l
  | S n => match strip_any ps l with Some l' => trim_front n ps l' | None => l end
  end.

Definition trim_bytes (l : bytes) : bytes :=
  let l1 := trim_front (length l) whitespace l in
  reverse (trim_front (length l1) (reverse <$> whitespace) (reverse l1)).

Definition trim (s : string) : string :=
  String.string_of_list_byte (trim_bytes (as_bytes s)).

(** ** Operations *)

Section session.
Context {CK : Cryptoki}.

Definition with_context {A} (m : string) (c : stR World CkError A) : stR World AnyError A :=
  stR_map_err (λ e, mkAny [m] (Some e)) c.

(** The first slot whose token carries the configured label; a slot whose
    information cannot be read is skipped. *)
Fixpoint find_slot (ctx : Context) (wanted : string) (slots : list Slot) :
    st World (option Slot) :=
  match slots with
  | [] => st_ret None
  | slot :: rest => λ w,
      match get_token_info ctx slot w with
      | (Ok info, w') =>
          if String.eqb (trim (info_label info)) wanted then (Some slot, w')
          else find_slot ctx wanted rest w'
      | (Err _, w') => find_slot ctx wanted rest w'
      end
  end.

(** Run a step; on failure drop the module context. *)
Definition or_finalize {A} (ctx : Context) (m : stR World AnyError A) : stR World AnyError A :=
  λ w, match m w with
       | (Ok a, w') => (Ok a, w')
       | (Err e, w') => (Err e, finalize ctx w')
       end.

Definition load_module (config : TokenConfig) : stR World AnyError (Context * Slot) :=
  (do ctx <- with_context ("failed to load PKCS#11 module " +:+ module_path config)
               (load (module_path config));
   or_finalize ctx
     (do _ <- with_context "C_Initialize(CKF_OS_LOCKING_OK) failed" (initialize ctx);
      do slots <- with_context "C_GetSlotList failed" (slots_with_token ctx);
      λ w, let '(found, w') := find_slot ctx (config_token_label config) slots w in
           (ok_or ((ctx,.) <$> found)
              (anyhow ("no slot holds a token labelled '" +:+ config_token_label config +:+
                       "'; has softhsm-init run?")), w')))%rust.

(** A failed login drops, and so closes, the session that was opened. *)
Definition login_session (ctx : Context) (slot : Slot) (config : TokenConfig) :
    stR World AnyError Session :=
  (do session <- with_context "C_OpenSession(CKF_RW_SESSION) failed" (open_rw_session ctx slot);
   λ w, match with_context "C_Login(CKU_USER) failed -- wrong USER_PIN?"
                (login session (user_pin config)) w with
        | (Ok _, w') => (Ok session, w')
        | (Err e, w') => (Err e, close session w')
        end)%rust.

Definition open_token (config : TokenConfig) : stR World AnyError (Context * Slot * Session) :=
  (do cs <- load_module config;
   do session <- or_finalize (fst cs) (login_session (fst cs) (snd cs) config);
   stR_lift (Ok (cs, session)))%rust.

Definition find_template (class : ObjectClass) (label : string) : list Attribute :=
  [A_Class class; A_Label (as_bytes label)].

Definition find_object (session : Session) (class : ObjectClass) (label : string) :
    stR World AnyError (option ObjectHandle) :=
  stR_map head (with_context "C_FindObjects failed"
    (find_objects session (find_template class label))).

Definition find_object_pair (session : Session) (label : string) :
    stR World AnyError (option (ObjectHandle * ObjectHandle)) :=
  (do private <- find_object session PRIVATE_KEY label;
   do public <- find_object session PUBLIC_KEY label;
   stR_lift (Ok match private, public with
                | Some p, Some q => Some (p, q)
                | _, _ => None
                end))%rust.
End session.
