(* ===== verification/Crypto.v ===== *)
(** * Mechanisms and key material ([crypto.rs])

    [prepare] decides which PKCS#11 mechanism serves a wire mechanism and
    shapes the payload for it; [verify_public] answers [Verify] in process from
    a cached public key; [unwrap_der_octet_string] accepts both encodings of an
    EC point.  Hashing and public-key arithmetic are the crates [sha2], [p256],
    [rsa] and [ring]: the class [CryptoLib]. *)
From S2P Require Import Prelude RustStd Deps Session.

(** ** The crates *)

Class CryptoLib := {
  (** [Sha256::digest] *)
  sha256 : bytes → bytes;
  (** [p256]: public keys and signatures; errors carry their [Display] *)
  P256Key : Type;
  P256Sig : Type;
  p256_from_sec1 : bytes → result P256Key string;
  p256_to_spki : P256Key → result bytes string;
  p256_from_spki : bytes → result P256Key string;
  p256_to_point : P256Key → bytes;
  p256_sig_from_slice : bytes → option P256Sig;
  p256_verify_prehash : P256Key → bytes → P256Sig → bool;
  (** [ring]: [ECDSA_P256_SHA256_FIXED] over an uncompressed point *)
  ring_verify : bytes → bytes → bytes → bool;
  (** [rsa] *)
  RsaKey : Type;
  rsa_new : Z → Z → result RsaKey string;
  rsa_to_spki : RsaKey → result bytes string;
  rsa_from_spki : bytes → result RsaKey string;
  rsa_verify_pkcs1v15 : RsaKey → bytes → bytes → bool;
  rsa_verify_pss : RsaKey → bytes → bytes → bool
}.

Module Crypto.

Definition SHA256_LEN : nat := 32.

Definition SHA256_DIGEST_INFO_PREFIX : bytes :=
  [x30; x31; x30; x0d; x06; x09; x60; x86; x48; x01; x65; x03; x04; x02; x01; x05;
   x00; x04; x20].

Inductive SigningInput :=
| Message (m : bytes)
| Digest (d : bytes).

Inductive SignAlgorithm :=
| Ecdsa | RsaPkcs | Sha256RsaPkcs | RsaPkcsPss | Sha256RsaPkcsPss.

#[global] Instance SignAlgorithm_eq_dec : EqDecision SignAlgorithm.
Proof. solve_decision. Defined.

Definition pss_params : PkcsPssParams :=
  {| hash_alg := MT_SHA256; mgf := MGF1_SHA256; s_len := Z.of_nat SHA256_LEN |}.

Definition mechanism (a : SignAlgorithm) : Mechanism :=
  match a with
  | Ecdsa => M_Ecdsa
  | RsaPkcs => M_RsaPkcs
  | Sha256RsaPkcs => M_Sha256RsaPkcs
  | RsaPkcsPss => M_RsaPkcsPss pss_params
  | Sha256RsaPkcsPss => M_Sha256RsaPkcsPss pss_params
  end.

Record PreparedOperation := { algorithm : SignAlgorithm; payload : bytes }.

(** [hsm.v1.SignatureMechanism] and its conversion from the wire's [i32]. *)
Inductive SignatureMechanism := Unspecified | EcdsaSha256 | RsaPkcsSha256 | RsaPssSha256.

Definition signature_mechanism (n : Z) : option SignatureMechanism :=
  match n with
  | 0 => Some Unspecified
  | 1 => Some EcdsaSha256
  | 2 => Some RsaPkcsSha256
  | 3 => Some RsaPssSha256
  | _ => None
  end%Z.

Definition check_digest_len (digest : bytes) : result unit AnyError :=
  if Nat.eqb (length digest) SHA256_LEN then Ok tt
  else Err (anyhow ("expected a " +:+ pretty SHA256_LEN +:+ "-byte SHA-256 digest, got " +:+
                    pretty (length digest) +:+ " bytes")).

Section crypto.
Context {CL : CryptoLib}.

Definition prepare (mech : Z) (input : SigningInput) : result PreparedOperation AnyError :=
  (let? m := ok_or (signature_mechanism mech)
               (anyhow ("unknown signature mechanism " +:+ pretty mech)) in
   match m, input with
   | Unspecified, _ => Err (anyhow "signature mechanism must be specified")
   | EcdsaSha256, Message message =>
       Ok {| algorithm := Ecdsa; payload := sha256 message |}
   | EcdsaSha256, Digest digest =>
       let? _ := check_digest_len digest in
       Ok {| algorithm := Ecdsa; payload := digest |}
   | RsaPkcsSha256, Message message =>
       Ok {| algorithm := Sha256RsaPkcs; payload := message |}
   | RsaPkcsSha256, Digest digest =>
       let? _ := check_digest_len digest in
       Ok {| algorithm := RsaPkcs; payload := SHA256_DIGEST_INFO_PREFIX ++ digest |}
   | RsaPssSha256, Message message =>
       Ok {| algorithm := Sha256RsaPkcsPss; payload := message |}
   | RsaPssSha256, Digest digest =>
       let? _ := check_digest_len digest in
       Ok {| algorithm := RsaPkcsPss; payload := digest |}
   end)%rust.

(** [slice::starts_with]. *)
Fixpoint starts_with (l p : bytes) : bool :=
  match p, l with
  | [], _ => true
  | a :: p', b :: l' => Byte.eqb a b && starts_with l' p'
  | _ :: _, [] => false
  end.

Definition verification_digest (p : PreparedOperation) : result bytes AnyError :=
  match algorithm p with
  | Ecdsa | RsaPkcsPss => Ok (payload p)
  | Sha256RsaPkcs | Sha256RsaPkcsPss => Ok (sha256 (payload p))
  | RsaPkcs =>
      let prefix := SHA256_DIGEST_INFO_PREFIX in
      if negb (Nat.eqb (length (payload p)) (length prefix + SHA256_LEN))
         || negb (starts_with (payload p) prefix)
      then Err (anyhow "payload is not a SHA-256 DigestInfo")
      else Ok (drop (length prefix) (payload p))
  end.

(** ** In-process verification *)

Definition digest_of (input : SigningInput) : result bytes AnyError :=
  (match input with
   | Message message => Ok (sha256 message)
   | Digest digest => let? _ := check_digest_len digest in Ok digest
   end)%rust.

(** [.context(m)] on a crate's own error. *)
Definition lib_context {A} (m : string) (r : result A string) : result A AnyError :=
  map_err (λ e, mkAny [m; e] None) r.

Definition sec1_point_from_spki (spki_der : bytes) : result bytes AnyError :=
  result_map p256_to_point (lib_context "not a valid P-256 SPKI" (p256_from_spki spki_der)).

Definition verify_ecdsa_ring (spki_der message signature : bytes) : result bool AnyError :=
  (let? point := sec1_point_from_spki spki_der in
   Ok (ring_verify point message signature))%rust.

Definition verify_ecdsa_prehash (spki_der digest signature : bytes) : result bool AnyError :=
  (let? key := lib_context "cached public key is not a valid P-256 SPKI"
                 (p256_from_spki spki_der) in
   match p256_sig_from_slice signature with
   | None => Ok false
   | Some s => Ok (p256_verify_prehash key digest s)
   end)%rust.

Definition verify_rsa (spki_der digest signature : bytes) (pss : bool) : result bool AnyError :=
  (let? key := lib_context "cached public key is not a valid RSA SPKI"
                 (rsa_from_spki spki_der) in
   Ok (if pss then rsa_verify_pss key digest signature
       else rsa_verify_pkcs1v15 key digest signature))%rust.

Definition verify_public (spki_der : bytes) (mech : Z) (input : SigningInput)
    (signature : bytes) : result bool AnyError :=
  (let? m := ok_or (signature_mechanism mech) (anyhow "unknown signature mechanism") in
   match m, input with
   | Unspecified, _ => Err (anyhow "signature mechanism must be specified")
   | EcdsaSha256, Message message => verify_ecdsa_ring spki_der message signature
   | EcdsaSha256, Digest digest =>
       let? _ := check_digest_len digest in
       verify_ecdsa_prehash spki_der digest signature
   | RsaPkcsSha256, input =>
       let? digest := digest_of input in verify_rsa spki_der digest signature false
   | RsaPssSha256, input =>
       let? digest := digest_of input in verify_rsa spki_der digest signature true
   end)%rust.
End crypto.

(** ** EC points *)

(** [slice::get(start..stop)] for [start <= stop]. *)
Definition slice_get (l : bytes) (start stop : nat) : option bytes :=
  if (stop <=? length l)%nat then Some (take (stop - start) (drop start l)) else None.

Definition unwrap_der_octet_string (bytes : bytes) : result (list byte) AnyError :=
  if Nat.eqb (length bytes) 65 && bool_decide (head bytes = Some x04) then Ok bytes
  else if negb (bool_decide (head bytes = Some x04)) then
    Err (anyhow "CKA_EC_POINT is neither a DER OCTET STRING nor a SEC1 point")
  else
    (let? len_offset :=
       match bytes !! 1%nat with
       | Some n =>
           if (byte_val n <? 0x80)%Z then Ok (Z.to_nat (byte_val n), 2%nat)
           else if Byte.eqb n x81 then
             match bytes !! 2%nat with
             | Some m => Ok (Z.to_nat (byte_val m), 3%nat)
             | None => Err (anyhow "truncated EC point")
             end
           else Err (anyhow "unsupported CKA_EC_POINT length encoding")
       | None => Err (anyhow "unsupported CKA_EC_POINT length encoding")
       end in
     let '(len, offset) := len_offset in
     ok_or (slice_get bytes offset (offset + len))
       (anyhow ("CKA_EC_POINT declares " +:+ pretty len +:+
                " bytes but the value is truncated")))%rust.

(** ** Reading a public key off the token *)

(** [BigUint::from_bytes_be]. *)
Definition from_bytes_be (l : bytes) : Z :=
  foldl (λ acc b, acc * 256 + byte_val b)%Z 0%Z l.

Definition find_ec_point (attrs : list Attribute) : option bytes :=
  head (omap (λ a, match a with A_EcPoint p => Some p | _ => None end) attrs).

(** The loop over the attributes keeps the last of each. *)
Definition rsa_components (attrs : list Attribute) : option bytes * option bytes :=
  foldl (λ '(m, e) a,
    match a with
    | A_Modulus m' => (Some m', e)
    | A_PublicExponent e' => (m, Some e')
    | _ => (m, e)
    end) (None, None) attrs.

Section spki.
Context {CK : Cryptoki} {CL : CryptoLib}.

Definition ec_spki (session : Session) (public_key : ObjectHandle) :
    stR World AnyError bytes :=
  (do attrs <- with_context "C_GetAttributeValue(CKA_EC_POINT) failed"
                 (get_attributes session public_key [AT_EcPoint]);
   stR_lift
     (let? ec_point := ok_or (find_ec_point attrs) (anyhow "public key has no CKA_EC_POINT") in
      let? sec1 := unwrap_der_octet_string ec_point in
      let? key := map_err (λ e, anyhow ("CKA_EC_POINT is not a valid P-256 point: " +:+ e))
                    (p256_from_sec1 sec1) in
      lib_context "failed to DER-encode the EC public key" (p256_to_spki key)))%rust.

Definition rsa_spki (session : Session) (public_key : ObjectHandle) :
    stR World AnyError bytes :=
  (do attrs <- with_context "C_GetAttributeValue(CKA_MODULUS/CKA_PUBLIC_EXPONENT) failed"
                 (get_attributes session public_key [AT_Modulus; AT_PublicExponent]);
   stR_lift
     (let '(modulus, exponent) := rsa_components attrs in
      let? n := ok_or modulus (anyhow "public key has no modulus") in
      let? e := ok_or exponent (anyhow "public key has no exponent") in
      let? key := lib_context "token returned an invalid RSA public key"
                    (rsa_new (from_bytes_be n) (from_bytes_be e)) in
      lib_context "failed to DER-encode the RSA public key" (rsa_to_spki key)))%rust.

Definition public_key_to_spki_der (session : Session) (public_key : ObjectHandle) :
    stR World AnyError (bytes * string) :=
  (do key_type <- with_context "C_GetAttributeValue(CKA_KEY_TYPE) failed"
                    (get_attributes session public_key [AT_KeyType]);
   match head key_type with
   | Some (A_KeyType KT_EC) => stR_map (λ der, (der, "EC"%string)) (ec_spki session public_key)
   | Some (A_KeyType KT_RSA) => stR_map (λ der, (der, "RSA"%string)) (rsa_spki session public_key)
   | other => stR_lift (Err (anyhow ("unsupported public key type: " +:+ debug_attribute other)))
   end)%rust.
End spki.

(** ** EC points: both encodings *)

(** [octet_string h p]: [h] is a DER header (short form, or long form with one
    length byte) that declares the length of [p]. *)
Inductive octet_string : bytes → bytes → Prop :=
| short_form lb p :
    byte_val lb = Z.of_nat (length p) → (length p < 128)%nat → octet_string [x04; lb] p
| long_form lb p :
    byte_val lb = Z.of_nat (length p) → octet_string [x04; x81; lb] p.

Lemma slice_get_app h p rest :
  slice_get (h ++ p ++ rest) (length h) (length h + length p) = Some p.
Proof.
  unfold slice_get. rewrite !length_app.
  rewrite (proj2 (Nat.leb_le _ _)) by lia.
  rewrite drop_app_length. by replace (length h + length p - length h)%nat with (length p) by lia;
    rewrite take_app_length.
Qed.

Lemma slice_get_Some l start len p :
  slice_get l start (start + len) = Some p →
  l = take start l ++ p ++ drop (start + len) l ∧ length p = len.
Proof.
  unfold slice_get. destruct (Nat.leb_spec (start + len) (length l)) as [Hle|]; [|done].
  intros [= <-]. replace (start + len - start)%nat with len by lia. split.
  - by rewrite <-drop_drop, !take_drop.
  - rewrite length_take, length_drop. lia.
Qed.

Definition bare_point (b : bytes) : Prop := length b = 65%nat ∧ head b = Some x04.

Lemma header_not_bare b : head b = Some x04 → ¬ bare_point b → (length b =? 65)%nat = false.
Proof. unfold bare_point. destruct (Nat.eqb_spec (length b) 65); naive_solver. Qed.

(** An input that is read as a DER value decodes to the bytes its header
    declares. *)
Lemma unwrap_sound b p :
  ¬ bare_point b → unwrap_der_octet_string b = Ok p →
  ∃ h rest, octet_string h p ∧ b = h ++ p ++ rest.
Proof.
  intros Hb. unfold unwrap_der_octet_string.
  destruct (decide (head b = Some x04)) as [Hhd|Hhd].
  2: { rewrite bool_decide_eq_false_2 by done. by rewrite andb_false_r. }
  rewrite (header_not_bare b), bool_decide_eq_true_2 by done. cbn [andb negb].
  destruct b as [|t [|lb b]]; [done..|]. simplify_eq/=.
  pose proof (byte_val_range lb). destruct (Z.ltb_spec (byte_val lb) 128); cbn [result_bind].
  - destruct (slice_get (x04 :: lb :: b) 2 (2 + Z.to_nat (byte_val lb))) as [q|] eqn:Hs; [|done].
    intros [= <-]. apply slice_get_Some in Hs as [Hq Hl].
    exists [x04; lb], (drop (2 + Z.to_nat (byte_val lb)) (x04 :: lb :: b)).
    split; [|done]. constructor; lia.
  - destruct (Byte.eqb lb x81) eqn:Hlb; [|done]. apply Byte.byte_dec_bl in Hlb as ->.
    destruct b as [|mb b]; [done|]. cbn [lookup list_lookup result_bind].
    pose proof (byte_val_range mb).
    destruct (slice_get (x04 :: x81 :: mb :: b) 3 (3 + Z.to_nat (byte_val mb))) as [q|] eqn:Hs;
      [|done].
    intros [= <-]. apply slice_get_Some in Hs as [Hq Hl].
    exists [x04; x81; mb], (drop (3 + Z.to_nat (byte_val mb)) (x04 :: x81 :: mb :: b)).
    split; [|done]. constructor. lia.
Qed.

Lemma unwrap_complete h p rest :
  octet_string h p → ¬ bare_point (h ++ p ++ rest) →
  unwrap_der_octet_string (h ++ p ++ rest) = Ok p.
Proof.
  intros Ho Hb. unfold unwrap_der_octet_string.
  assert (head (h ++ p ++ rest) = Some x04) as Hhd by by destruct Ho.
  rewrite (header_not_bare _ Hhd Hb), bool_decide_eq_true_2 by done. cbn [andb negb].
  destruct Ho as [lb p Hl Hp|lb p Hl]; cbn [app lookup list_lookup].
  - rewrite (proj2 (Z.ltb_lt _ _)) by lia. cbn [result_bind]. rewrite Hl, Nat2Z.id.
    pose proof (slice_get_app [x04; lb] p rest) as Hs. cbn [app length] in Hs.
    by rewrite Hs.
  - change (byte_val x81 <? 128)%Z with false. change (Byte.eqb x81 x81) with true.
    cbn [result_bind]. rewrite Hl, Nat2Z.id.
    pose proof (slice_get_app [x04; x81; lb] p rest) as Hs. cbn [app length] in Hs.
    by rewrite Hs.
Qed.

Lemma unwrap_bare b : bare_point b → unwrap_der_octet_string b = Ok b.
Proof.
  intros [Hl Hh]. unfold unwrap_der_octet_string.
  by rewrite Hl, bool_decide_eq_true_2.
Qed.

(** C30: [unwrap_der_octet_string] returns [p] exactly when its input is a bare
    65-byte point equal to [p], or is not one and starts with an OCTET STRING
    header that declares the length of the [p] it is followed by.  In
    particular it never reads past its input, and trailing bytes are ignored. *)
Theorem unwrap_der_octet_string_iff b p :
  unwrap_der_octet_string b = Ok p ↔
  bare_point b ∧ p = b ∨
  ¬ bare_point b ∧ ∃ h rest, octet_string h p ∧ b = h ++ p ++ rest.
Proof.
  assert (bare_point b ∨ ¬ bare_point b) as [Hb|Hb].
  { unfold bare_point. destruct (decide (length b = 65%nat ∧ head b = Some x04)); tauto. }
  - rewrite unwrap_bare by done. naive_solver.
  - split; [eauto using unwrap_sound|].
    intros [?|(_&h&rest&Ho&->)]; [tauto|by apply unwrap_complete].
Qed.

(** a P-256 public point is recovered from both encodings modules use:
    the bare SEC1 point, and the point wrapped in an OCTET STRING. *)
Theorem ec_point_encodings_agree pt :
  bare_point pt →
  unwrap_der_octet_string pt = Ok pt ∧
  unwrap_der_octet_string (x04 :: x41 :: pt) = Ok pt.
Proof.
  intros Hpt. split; [by apply unwrap_bare|].
  destruct Hpt as [Hlen Hhd].
  rewrite <-(app_nil_r (x04 :: x41 :: pt)). apply (unwrap_complete [x04; x41] pt []).
  - constructor; [rewrite Hlen; reflexivity|lia].
  - intros [Hl _]. rewrite !length_app, Hlen in Hl. simpl in Hl. lia.
Qed.

Lemma ec_point_encodings_agree_witness :
  unwrap_der_octet_string (x04 :: x41 :: x04 :: replicate 64 x07) =
  Ok (x04 :: replicate 64 x07).
Proof.
  apply (ec_point_encodings_agree (x04 :: replicate 64 x07)). split; reflexivity.
Defined.

(** ** Shaping the payload *)

Lemma starts_with_app p l : starts_with (p ++ l) p = true.
Proof. induction p as [|b p IH]; simpl; [by destruct l|]. by rewrite (Byte.byte_dec_lb (eq_refl b)). Qed.

Lemma check_digest_len_ok d : check_digest_len d = Ok tt ↔ length d = SHA256_LEN.
Proof. unfold check_digest_len. destruct (Nat.eqb_spec (length d) SHA256_LEN); naive_solver. Qed.

Lemma check_digest_len_cases d :
  length d = SHA256_LEN ∧ check_digest_len d = Ok tt ∨
  length d ≠ SHA256_LEN ∧ ∃ e, check_digest_len d = Err e.
Proof. unfold check_digest_len. destruct (Nat.eqb_spec (length d) SHA256_LEN); naive_solver. Qed.

(** The requests [prepare] serves. *)
Definition well_formed (mech : Z) (input : SigningInput) : Prop :=
  (1 ≤ mech ≤ 3)%Z ∧
  match input with Message _ => True | Digest d => length d = SHA256_LEN end.

Section shaping.
Context {CL : CryptoLib}.

Lemma verification_digest_info d :
  length d = SHA256_LEN →
  verification_digest {| algorithm := RsaPkcs; payload := SHA256_DIGEST_INFO_PREFIX ++ d |} =
  Ok d.
Proof.
  intros Hlen. unfold verification_digest. cbn [algorithm payload].
  by rewrite length_app, Hlen, Nat.eqb_refl, starts_with_app, drop_app_length.
Qed.

(** C31: [prepare] accepts exactly the well-formed requests: a known and
    specified mechanism, and a digest, when one is given, of 32 bytes.  What
    it accepts, [verification_digest] maps back to the digest the request is
    about, whichever of the five payload shapes was chosen. *)
Theorem prepare_recovers_digest mech input :
  match prepare mech input with
  | Ok p => well_formed mech input ∧ verification_digest p = digest_of input
  | Err _ => ¬ well_formed mech input
  end.
Proof.
  unfold prepare, well_formed.
  destruct (signature_mechanism mech) as [m|] eqn:Hm; simpl.
  2: { intros [Hr _]. by assert (mech = 1 ∨ mech = 2 ∨ mech = 3)%Z as [->|[->| ->]] by lia. }
  assert (match m with Unspecified => mech = 0 | EcdsaSha256 => mech = 1
                     | RsaPkcsSha256 => mech = 2 | RsaPssSha256 => mech = 3 end)%Z as Hmech.
  { unfold signature_mechanism in Hm. repeat case_match; by simplify_eq. }
  destruct m, input as [msg|d]; simpl; subst mech; try (split; [lia|done]); try lia.
  all: destruct (check_digest_len_cases d) as [[Hlen Hc]|[Hlen [e Hc]]]; rewrite Hc; simpl;
    [split; [lia|]|tauto].
  - done.
  - by apply verification_digest_info.
  - done.
Qed.
End shaping.

(** ** In-process verification against the token's own

    Documented behaviour of the crates and of the PKCS#11 mechanisms. *)

Class CryptoLaws (CL : CryptoLib) := {
  sha256_length m : length (sha256 m) = SHA256_LEN;
  (** [ring]'s [ECDSA_P256_SHA256_FIXED] and [p256]'s prehash verification are
      the same algorithm: ECDSA over P-256 with SHA-256 and a fixed-width
      signature *)
  ring_is_p256 k m s :
    ring_verify (p256_to_point k) m s =
    match p256_sig_from_slice s with
    | Some g => p256_verify_prehash k (sha256 m) g
    | None => false
    end
}.

(** [valid m data s]: [C_Verify] accepts [s] for [data] under mechanism [m].
    [CKM_ECDSA] is over a digest as given. *)
Record ec_token {CL : CryptoLib} (k : P256Key) (valid : Mechanism → bytes → bytes → bool) : Prop := {
  ecdsa_valid d s :
    valid M_Ecdsa d s =
    match p256_sig_from_slice s with Some g => p256_verify_prehash k d g | None => false end
}.

(** [CKM_SHA256_RSA_PKCS*] hash the data; [CKM_RSA_PKCS] signs a [DigestInfo]
    it is given, and [CKM_RSA_PKCS_PSS] a digest, whose parameters must name
    SHA-256 and a salt as long as the digest to be what [rsa] verifies. *)
Record rsa_token {CL : CryptoLib} (k : RsaKey) (valid : Mechanism → bytes → bytes → bool) : Prop := {
  sha256_rsa_pkcs_valid m s : valid M_Sha256RsaPkcs m s = rsa_verify_pkcs1v15 k (sha256 m) s;
  rsa_pkcs_valid d s :
    length d = 32%nat →
    valid M_RsaPkcs
      ([x30; x31; x30; x0d; x06; x09; x60; x86; x48; x01; x65; x03; x04; x02; x01; x05;
        x00; x04; x20] ++ d) s = rsa_verify_pkcs1v15 k d s;
  sha256_rsa_pss_valid m s :
    valid (M_Sha256RsaPkcsPss {| hash_alg := MT_SHA256; mgf := MGF1_SHA256; s_len := 32 |}) m s =
    rsa_verify_pss k (sha256 m) s;
  rsa_pss_valid d s :
    length d = 32%nat →
    valid (M_RsaPkcsPss {| hash_alg := MT_SHA256; mgf := MGF1_SHA256; s_len := 32 |}) d s =
    rsa_verify_pss k d s
}.

(** The public key that a mechanism is used with. *)
Definition key_for {CL : CryptoLib} (mech : Z) (spki : bytes)
    (valid : Mechanism → bytes → bytes → bool) : Prop :=
  if (mech =? 1)%Z then ∃ k, p256_from_spki spki = Ok k ∧ ec_token k valid
  else ∃ k, rsa_from_spki spki = Ok k ∧ rsa_token k valid.

Lemma prepare_ok_mech {CL : CryptoLib} mech input p :
  prepare mech input = Ok p → mech = 1%Z ∨ mech = 2%Z ∨ mech = 3%Z.
Proof.
  unfold prepare. destruct (signature_mechanism mech) as [m|] eqn:Hm; [|done]. simpl.
  unfold signature_mechanism in Hm. repeat case_match; naive_solver.
Qed.

(** A public key survives its DER encoding. *)
Class SpkiLaws (CL : CryptoLib) := {
  p256_spki_round_trip b k der :
    p256_from_sec1 b = Ok k → p256_to_spki k = Ok der → p256_from_spki der = Ok k;
  rsa_spki_round_trip n e k der :
    rsa_new n e = Ok k → rsa_to_spki k = Ok der → rsa_from_spki der = Ok k
}.

Section agreement.
Context {CL : CryptoLib} {CLL : CryptoLaws CL}.

(** The verdict on what [prepare] accepted. *)
Lemma verify_public_valid valid spki mech input p s :
  key_for mech spki valid →
  prepare mech input = Ok p →
  verify_public spki mech input s = Ok (valid (mechanism (algorithm p)) (payload p) s).
Proof.
  unfold key_for. intros Hkey Hp.
  destruct (prepare_ok_mech _ _ _ Hp) as [->|[->| ->]];
    destruct Hkey as (k&Hk&Hv); destruct input as [msg|d];
    unfold prepare, verify_public in *; simpl in Hp |- *;
    try (destruct (check_digest_len_cases d) as [[Hlen Hc]|[Hlen [e Hc]]]; rewrite Hc in Hp);
    simplify_eq/=.
  - unfold verify_ecdsa_ring, sec1_point_from_spki. rewrite Hk. simpl.
    by rewrite ring_is_p256, (ecdsa_valid _ _ Hv).
  - rewrite Hc. simpl. unfold verify_ecdsa_prehash. rewrite Hk. simpl.
    rewrite (ecdsa_valid _ _ Hv). by case_match.
  - unfold verify_rsa. rewrite Hk. simpl. by rewrite (sha256_rsa_pkcs_valid _ _ Hv).
  - rewrite Hc. simpl. unfold verify_rsa. rewrite Hk. simpl.
    by rewrite <-(rsa_pkcs_valid _ _ Hv).
  - unfold verify_rsa. rewrite Hk. simpl. by rewrite <-(sha256_rsa_pss_valid _ _ Hv).
  - rewrite Hc. simpl. unfold verify_rsa. rewrite Hk. simpl.
    by rewrite <-(rsa_pss_valid _ _ Hv).
Qed.

Lemma prepare_well_formed mech input : well_formed mech input → ∃ p, prepare mech input = Ok p.
Proof.
  intros [Hr Hi].
  assert (mech = 1 ∨ mech = 2 ∨ mech = 3)%Z as [->|[->| ->]] by lia; destruct input as [m|d];
    unfold prepare; simpl; try (by eexists); apply check_digest_len_ok in Hi; rewrite Hi; by eexists.
Qed.

(** C11: [verify_public] and the token agree.  [prepare] accepts every
    well-formed request, and the in-process verification against the cached
    public key then answers what [C_Verify] answers for the mechanism and the
    payload [prepare] chose, and never fails.  So leaving the token out of
    [Verify] changes no verdict, and a signature the token makes verifies. *)
Theorem verify_public_agrees_with_token valid spki mech input s :
  key_for mech spki valid →
  well_formed mech input →
  ∃ p, prepare mech input = Ok p ∧
       verify_public spki mech input s = Ok (valid (mechanism (algorithm p)) (payload p) s).
Proof.
  intros Hk Hw. destruct (prepare_well_formed _ _ Hw) as [p Hp]. exists p.
  split; [done|]. by apply verify_public_valid.
Qed.

(** a message and its digest are the same request: for every mechanism
    and signature, [verify_public] gives the same verdict for a message and
    for its SHA-256 digest, although ECDSA takes a different implementation
    for each. *)
Theorem verify_public_message_digest spki mech m s :
  result_ok (verify_public spki mech (Message m) s) =
  result_ok (verify_public spki mech (Digest (sha256 m)) s).
Proof.
  assert (check_digest_len (sha256 m) = Ok tt) as Hc
    by apply check_digest_len_ok, sha256_length.
  unfold verify_public. destruct (signature_mechanism mech) as [[]|]; simpl;
    rewrite ?Hc; try done.
  unfold verify_ecdsa_ring, verify_ecdsa_prehash, sec1_point_from_spki.
  destruct (p256_from_spki spki) as [k|e]; simpl; [|done].
  rewrite ring_is_p256. by case_match.
Qed.
End agreement.

(** ** A small concrete library

    A toy instance of the laws, to evaluate the definitions on: the digest of
    a message is its first 32 bytes, padded, and signatures are tagged copies
    of the digest. *)

Definition toy_sha256 (m : bytes) : bytes := take 32 (m ++ replicate 32 x00).

Definition toy_parse (n : nat) (b : bytes) : result bytes string :=
  if (length b =? n)%nat then Ok b else Err "bad length"%string.

#[global] Instance toy_lib : CryptoLib := {|
  sha256 := toy_sha256;
  P256Key := bytes;
  P256Sig := bytes;
  p256_from_sec1 := toy_parse 65;
  p256_to_spki k := Ok k;
  p256_from_spki := toy_parse 65;
  p256_to_point k := k;
  p256_sig_from_slice s := if (length s =? 64)%nat then Some s else None;
  p256_verify_prehash k d s := bool_decide (s = d ++ d);
  ring_verify k m s := bool_decide (s = toy_sha256 m ++ toy_sha256 m);
  RsaKey := unit;
  rsa_new n e := if (0 <? n)%Z && (0 <? e)%Z then Ok tt else Err "bad key"%string;
  rsa_to_spki k := Ok [x30];
  rsa_from_spki b := if bool_decide (b = [x30]) then Ok tt else Err "bad key"%string;
  rsa_verify_pkcs1v15 k d s := bool_decide (s = x01 :: d);
  rsa_verify_pss k d s := bool_decide (s = x02 :: d)
|}.

#[global] Instance toy_laws : CryptoLaws toy_lib.
Proof.
  split.
  - intros m. simpl. unfold toy_sha256. rewrite length_take, length_app, length_replicate.
    unfold SHA256_LEN. lia.
  - intros k m s. simpl. destruct (Nat.eqb_spec (length s) 64) as [|Hl]; [done|].
    apply bool_decide_eq_false_2. intros ->. apply Hl. unfold toy_sha256.
    rewrite length_app, !length_take, length_app, length_replicate. lia.
Qed.

#[global] Instance toy_spki : SpkiLaws toy_lib.
Proof.
  split; simpl.
  - intros b k der Hb [= <-]. unfold toy_parse in *. by destruct (Nat.eqb_spec (length b) 65); simplify_eq;
      rewrite (proj2 (Nat.eqb_eq _ _)).
  - by intros n e [] der _ [= <-].
Qed.

(** What the toy token accepts. *)
Definition toy_valid (m : Mechanism) (data s : bytes) : bool :=
  match m with
  | M_Ecdsa => (length s =? 64)%nat && bool_decide (s = data ++ data)
  | M_RsaPkcs => bool_decide (s = x01 :: drop 19 data)
  | M_Sha256RsaPkcs => bool_decide (s = x01 :: toy_sha256 data)
  | M_RsaPkcsPss _ => bool_decide (s = x02 :: data)
  | M_Sha256RsaPkcsPss _ => bool_decide (s = x02 :: toy_sha256 data)
  | _ => false
  end.

Lemma toy_ec_token k : ec_token (CL := toy_lib) k toy_valid.
Proof. split. intros d s. simpl. by destruct (length s =? 64)%nat. Qed.

Lemma toy_rsa_token k : rsa_token (CL := toy_lib) k toy_valid.
Proof. by split. Qed.

Lemma verify_public_agrees_with_token_witness :
  (∃ p, prepare 3 (Digest (replicate 32 x07)) = Ok p ∧
     verify_public [x30] 3 (Digest (replicate 32 x07)) (x02 :: replicate 32 x07) =
     Ok (toy_valid (mechanism (algorithm p)) (payload p) (x02 :: replicate 32 x07))) ∧
  (∃ p, prepare 1 (Message [x01]) = Ok p ∧
     verify_public (replicate 65 x04) 1 (Message [x01]) (replicate 64 x00) =
     Ok (toy_valid (mechanism (algorithm p)) (payload p) (replicate 64 x00))).
Proof.
  split.
  - apply (verify_public_agrees_with_token toy_valid); [|split; [lia|reflexivity]].
    exists tt. split; [reflexivity|apply toy_rsa_token].
  - apply (verify_public_agrees_with_token toy_valid); [|split; [lia|exact I]].
    exists (replicate 65 x04). split; [reflexivity|apply toy_ec_token].
Defined.

Lemma verify_public_message_digest_witness :
  result_ok (verify_public [x30] 2 (Message [x01]) (x01 :: x01 :: replicate 31 x00)) =
  result_ok (verify_public [x30] 2 (Digest (sha256 [x01])) (x01 :: x01 :: replicate 31 x00)).
Proof. apply (verify_public_message_digest (CLL := toy_laws)). Defined.
End Crypto.
