(* ===== verification/Toy.v ===== *)
(** * A small token to evaluate the definitions on

    A concrete instance of [Cryptoki] over the toy algorithms of [Crypto]: a
    table of objects, per-token login state, sessions that are numbered, and
    two faults to inject: a fuse that breaks the session of the n-th signature,
    and a number of sessions the module refuses to open.  Witnesses run the
    proxy's operations on it; no theorem depends on it. *)
From S2P Require Import Prelude RustStd Deps Session Crypto.

Module Toy.

Record TWorld := mkWorld {
  objects : list (option (list Attribute));
  logged_in : bool;
  opened : list nat;
  next : nat;
  broken : list nat;
  fuse : option nat;
  refuse : nat
}.

Definition with_objects (o : list (option (list Attribute))) (w : TWorld) : TWorld :=
  mkWorld o (logged_in w) (opened w) (next w) (broken w) (fuse w) (refuse w).
Definition with_login (b : bool) (w : TWorld) : TWorld :=
  mkWorld (objects w) b (opened w) (next w) (broken w) (fuse w) (refuse w).

Definition rv (e : RvError) (f : string) : CkError := Pkcs11 e f.

Definition alive (x : nat) (w : TWorld) : bool :=
  bool_decide (x ∈ opened w) && bool_decide (x ∉ broken w).

(** Private objects are visible to the logged-in user only. *)
Definition visible (w : TWorld) (o : list Attribute) : bool :=
  logged_in w || negb (bool_decide (A_Private true ∈ o)).

Definition matches (w : TWorld) (t : list Attribute) (o : option (list Attribute)) : bool :=
  match o with
  | Some attrs => visible w attrs && forallb (λ a, bool_decide (a ∈ attrs)) t
  | None => false
  end.

Fixpoint indices (p : option (list Attribute) → bool) (n : nat)
    (l : list (option (list Attribute))) : list nat :=
  match l with
  | [] => []
  | o :: l => if p o then n :: indices p (S n) l else indices p (S n) l
  end.

Definition toy_view (w : TWorld) (x : nat) (t : list Attribute) : result (list nat) CkError :=
  if alive x w then Ok (indices (matches w t) 0 (objects w))
  else Err (rv SessionHandleInvalid "C_FindObjectsInit").

Definition attr_of (t : AttributeType) (a : Attribute) : bool :=
  match t, a with
  | AT_KeyType, A_KeyType _ | AT_EcPoint, A_EcPoint _ | AT_Modulus, A_Modulus _
  | AT_PublicExponent, A_PublicExponent _ | AT_Sensitive, A_Sensitive _
  | AT_Extractable, A_Extractable _ => true
  | _, _ => false
  end.

Definition toy_get_attributes (x h : nat) (ts : list AttributeType) (w : TWorld) :
    result (list Attribute) CkError :=
  if alive x w then
    match mjoin (objects w !! h) with
    | Some attrs => Ok (ts ≫= λ t, List.filter (attr_of t) attrs)
    | None => Err (rv (RvOther 130) "C_GetAttributeValue")
    end
  else Err (rv SessionHandleInvalid "C_GetAttributeValue").

(** An operation with a key: the session must be alive and logged in. *)
Definition with_key {A} (f : string) (x h : nat) (w : TWorld)
    (k : list Attribute → result A CkError) : result A CkError :=
  if negb (alive x w) then Err (rv SessionHandleInvalid f)
  else if negb (logged_in w) then Err (rv UserNotLoggedIn f)
  else match mjoin (objects w !! h) with
       | Some attrs => k attrs
       | None => Err (rv (RvOther 96) f)
       end.

Definition toy_sign_rsa (m : Mechanism) (d : bytes) : result bytes CkError :=
  match m with
  | M_RsaPkcs => Ok (x01 :: drop 19 d)
  | M_Sha256RsaPkcs => Ok (x01 :: Crypto.toy_sha256 d)
  | M_RsaPkcsPss _ => Ok (x02 :: d)
  | M_Sha256RsaPkcsPss _ => Ok (x02 :: Crypto.toy_sha256 d)
  | _ => Err (rv (RvOther 112) "C_Sign")
  end.

(** The mechanism must fit the key, and ECDSA takes a digest. *)
Definition toy_sign_data (key : list Attribute) (m : Mechanism) (d : bytes) : result bytes CkError :=
  match m with
  | M_Ecdsa =>
      if negb (bool_decide (A_KeyType KT_EC ∈ key)) then Err (rv (RvOther 99) "C_Sign")
      else if (length d =? 32)%nat then Ok (d ++ d) else Err (rv (RvOther 33) "C_Sign")
  | _ =>
      if negb (bool_decide (A_KeyType KT_RSA ∈ key)) then Err (rv (RvOther 99) "C_Sign")
      else toy_sign_rsa m d
  end.

(** The fuse burns with each signature. *)
Definition toy_sign (x : nat) (m : Mechanism) (h : nat) (d : bytes) : stR TWorld CkError bytes :=
  λ w, match fuse w with
       | Some O =>
           (Err (rv SessionClosed "C_Sign"),
            mkWorld (objects w) (logged_in w) (opened w) (next w) (x :: broken w) None (refuse w))
       | f =>
           (with_key "C_Sign" x h w (λ key, toy_sign_data key m d),
            mkWorld (objects w) (logged_in w) (opened w) (next w) (broken w) (pred <$> f) (refuse w))
       end.

Definition toy_tag (p : GcmParams) (d : bytes) : bytes :=
  take 16 (Crypto.toy_sha256 (gcm_iv p ++ gcm_aad p ++ d)).

Definition toy_encrypt (x : nat) (m : Mechanism) (h : nat) (d : bytes) (w : TWorld) :
    result bytes CkError :=
  with_key "C_Encrypt" x h w (λ _,
    match m with
    | M_AesGcm p => Ok (d ++ toy_tag p d)
    | _ => Err (rv (RvOther 112) "C_Encrypt")
    end).

Definition toy_decrypt (x : nat) (m : Mechanism) (h : nat) (d : bytes) (w : TWorld) :
    result bytes CkError :=
  with_key "C_Decrypt" x h w (λ _,
    match m with
    | M_AesGcm p =>
        let pt := take (length d - 16) d in
        if (length d <? 16)%nat then Err (rv EncryptedDataLenRange "C_Decrypt")
        else if bool_decide (drop (length d - 16) d = toy_tag p pt) then Ok pt
        else Err (rv EncryptedDataInvalid "C_Decrypt")
    | _ => Err (rv (RvOther 112) "C_Decrypt")
    end).

(** The point of the toy EC key, in its DER wrapping. *)
Definition toy_point : bytes := x04 :: replicate 64 x07.

Definition generated (m : Mechanism) : list Attribute :=
  match m with
  | M_EccKeyPairGen => [A_KeyType KT_EC; A_EcPoint (x04 :: x41 :: toy_point)]
  | M_RsaPkcsKeyPairGen => [A_KeyType KT_RSA; A_Modulus [xff]]
  | _ => [A_KeyType KT_AES]
  end.

(** An attribute has one value: a template that names two labels is refused. *)
Definition labels (a : list Attribute) : list bytes :=
  omap (λ x, match x with A_Label l => Some l | _ => None end) a.

Definition one_label (a : list Attribute) : bool :=
  match labels a with
  | [] => true
  | l :: ls => forallb (λ l', bool_decide (l' = l)) ls
  end.

Definition inconsistent (f : string) : CkError := rv (RvOther 209) f.

Definition allocate (o : list Attribute) (w : TWorld) : nat * TWorld :=
  (length (objects w), with_objects (objects w ++ [Some o]) w).

Definition toy_open (w : TWorld) : result nat CkError * TWorld :=
  match refuse w with
  | S n => (Err (rv DeviceError "C_OpenSession"),
            mkWorld (objects w) (logged_in w) (opened w) (next w) (broken w) (fuse w) n)
  | O => (Ok (next w),
          mkWorld (objects w) (logged_in w) (next w :: opened w) (S (next w)) (broken w) (fuse w) 0)
  end.

#[export] Instance toy_token : Cryptoki := {|
  World := TWorld;
  Context := unit;
  Slot := nat;
  Session := nat;
  ObjectHandle := nat;
  show_error e := match e with Pkcs11 _ f => "PKCS#11 error in " +:+ f | CkOther s => s end;
  debug_attribute o := match o with Some _ => "Some" | None => "None" end;
  load path := λ w, if String.eqb path "toy.so" then (Ok tt, w) else (Err (CkOther "no module"), w);
  finalize _ w := mkWorld (objects w) false [] (next w) [] (fuse w) (refuse w);
  initialize _ := λ w, (Ok tt, w);
  slots_with_token _ := λ w, (Ok [0%nat], w);
  get_library_info _ := λ w, (Ok (mkLibraryInfo "toy" 1 0), w);
  get_token_info _ _ := λ w, (Ok (mkTokenInfo "grpc-low-latency   " "toy"), w);
  open_rw_session _ _ := toy_open;
  login _ pin := λ w,
    if logged_in w then (Err (rv UserAlreadyLoggedIn "C_Login"), w)
    else if String.eqb pin "1234" then (Ok tt, with_login true w)
    else (Err (rv (RvOther 160) "C_Login"), w);
  logout _ := λ w, (Ok tt, with_login false w);
  close x w := mkWorld (objects w) (logged_in w) (filter (λ y, y ≠ x) (opened w)) (next w)
                 (broken w) (fuse w) (refuse w);
  find_objects x t := λ w, (toy_view w x t, w);
  get_attributes x h ts := λ w, (toy_get_attributes x h ts w, w);
  sign := toy_sign;
  verify x m h d s := λ w,
    (with_key "C_Verify" x h w (λ _,
       if Crypto.toy_valid m d s then Ok tt else Err (rv SignatureInvalid "C_Verify")), w);
  encrypt x m h d := λ w, (toy_encrypt x m h d w, w);
  decrypt x m h d := λ w, (toy_decrypt x m h d w, w);
  generate_key_pair x m pub priv := λ w,
    if one_label pub && one_label priv then
      let '(hpub, w1) := allocate (A_Class PUBLIC_KEY :: pub ++ generated m) w in
      let '(hpriv, w2) := allocate (A_Class PRIVATE_KEY :: priv ++ generated m) w1 in
      (Ok (hpub, hpriv), w2)
    else (Err (inconsistent "C_GenerateKeyPair"), w);
  generate_key x m t := λ w,
    if one_label t then
      let '(h, w1) := allocate (A_Class SECRET_KEY :: t ++ generated m) w in (Ok h, w1)
    else (Err (inconsistent "C_GenerateKey"), w);
  create_object x t := λ w,
    if one_label t then let '(h, w1) := allocate t w in (Ok h, w1)
    else (Err (inconsistent "C_CreateObject"), w);
  destroy_object x h := λ w, (Ok tt, with_objects (<[h := None]> (objects w)) w);
  gcm_params iv aad bits :=
    if (length iv <=? 256)%nat then Ok {| gcm_iv := iv; gcm_aad := aad; gcm_tag_bits := bits |}
    else Err (CkOther "iv too long")
|}.

(** A token that holds an EC pair and an AES key under [demo]. *)
Definition key_pair (label : string) : list (option (list Attribute)) :=
  [Some [A_Class PUBLIC_KEY; A_Label (as_bytes label); A_KeyType KT_EC;
         A_EcPoint (x04 :: x41 :: toy_point)];
   Some [A_Class PRIVATE_KEY; A_Label (as_bytes label); A_Private true; A_KeyType KT_EC]].

Definition demo_world : TWorld :=
  mkWorld (key_pair "demo" ++
           [Some [A_Class SECRET_KEY; A_Label (as_bytes "aes"); A_Private true; A_KeyType KT_AES]])
    false [] 0 [] None 0.

Definition demo_config : TokenConfig :=
  {| module_path := "toy.so"; config_token_label := "grpc-low-latency"; user_pin := "1234" |}.
End Toy.
