(* ===== verification/Worker.v ===== *)
(** * The pool's workers ([pkcs11/job.rs], [pkcs11/metrics.rs], [pkcs11/worker.rs])

    A worker owns one PKCS#11 session and a map from key labels to the object
    handles found on that session.  It serves one job at a time: [dispatch]
    talks to the token, [execute] reopens the session after an error that is
    fatal to it, and [serve] is one turn of the loop of [run]. *)
From S2P Require Import Prelude RustStd Deps Session Crypto Toy.

Local Open Scope Z_scope.

(** ** Jobs ([pkcs11/job.rs]) *)

Inductive KeyKind := KPrivate | KPublic | KSecret.

#[global] Instance KeyKind_eq_dec : EqDecision KeyKind.
Proof. solve_decision. Defined.

Inductive JobRequest :=
| JSign (key_label : string) (algorithm : Crypto.SignAlgorithm) (payload : bytes)
| JVerify (key_label : string) (algorithm : Crypto.SignAlgorithm) (payload signature : bytes)
| JEncrypt (key_label : string) (plaintext associated_data iv : bytes)
| JDecrypt (key_label : string) (ciphertext associated_data iv : bytes)
| JGetPublicKey (key_label : string).

Definition operation (r : JobRequest) : string :=
  match r with
  | JSign _ _ _ => "sign"
  | JVerify _ _ _ _ => "verify"
  | JEncrypt _ _ _ _ => "encrypt"
  | JDecrypt _ _ _ _ => "decrypt"
  | JGetPublicKey _ => "get_public_key"
  end.

Inductive JobResponse :=
| Signature (s : bytes)
| Verified (b : bool)
| Ciphertext (c : bytes)
| Plaintext (p : bytes)
| PublicKey (spki_der : bytes) (key_type : string).

#[global] Instance JobResponse_eq_dec : EqDecision JobResponse.
Proof. solve_decision. Defined.

(** A job carries the identity of the one-shot channel its answer goes to. *)
Record Job := mkJob { request : JobRequest; responder : nat; enqueued_at : Z }.

(** ** Counters ([pkcs11/metrics.rs]) *)

Record PoolMetrics := mkPoolMetrics {
  jobs_submitted : Z;
  jobs_completed : Z;
  jobs_failed : Z;
  jobs_rejected_queue_full : Z;
  jobs_timed_out : Z;
  queue_wait_nanos_total : Z;
  service_nanos_total : Z;
  session_resets : Z;
  handle_cache_hits : Z;
  handle_cache_misses : Z
}.

Definition pool_metrics_default : PoolMetrics := mkPoolMetrics 0 0 0 0 0 0 0 0 0 0.

(** Which field a [PoolMetrics::incr] or [add] goes to. *)
Inductive Counter :=
| Submitted | Completed | Failed | RejectedQueueFull | TimedOut | QueueWaitNanos
| ServiceNanos | SessionResets | HandleHits | HandleMisses.

#[global] Instance Counter_eq_dec : EqDecision Counter.
Proof. solve_decision. Defined.

Definition counter_get (c : Counter) (m : PoolMetrics) : Z :=
  match c with
  | Submitted => jobs_submitted m
  | Completed => jobs_completed m
  | Failed => jobs_failed m
  | RejectedQueueFull => jobs_rejected_queue_full m
  | TimedOut => jobs_timed_out m
  | QueueWaitNanos => queue_wait_nanos_total m
  | ServiceNanos => service_nanos_total m
  | SessionResets => session_resets m
  | HandleHits => handle_cache_hits m
  | HandleMisses => handle_cache_misses m
  end.

Definition counter_add (c : Counter) (v : Z) (m : PoolMetrics) : PoolMetrics :=
  let up c' := if decide (c' = c) then fetch_add (counter_get c' m) v else counter_get c' m in
  {| jobs_submitted := up Submitted;
     jobs_completed := up Completed;
     jobs_failed := up Failed;
     jobs_rejected_queue_full := up RejectedQueueFull;
     jobs_timed_out := up TimedOut;
     queue_wait_nanos_total := up QueueWaitNanos;
     service_nanos_total := up ServiceNanos;
     session_resets := up SessionResets;
     handle_cache_hits := up HandleHits;
     handle_cache_misses := up HandleMisses |}.

Definition incr_counter (c : Counter) (m : PoolMetrics) : PoolMetrics := counter_add c 1 m.

Definition mean_queue_wait_micros (m : PoolMetrics) : Z :=
  let completed := counter_get Completed m in
  if completed =? 0 then 0 else counter_get QueueWaitNanos m / completed / 1000.

Definition mean_service_micros (m : PoolMetrics) : Z :=
  let completed := counter_get Completed m in
  if completed =? 0 then 0 else counter_get ServiceNanos m / completed / 1000.

Lemma counter_get_add c c' v m :
  counter_get c (counter_add c' v m) = if decide (c = c') then fetch_add (counter_get c m) v else counter_get c m.
Proof. by destruct c. Qed.

Lemma counter_get_incr c c' m :
  counter_get c (incr_counter c' m) = if decide (c = c') then incr (counter_get c m) else counter_get c m.
Proof. apply counter_get_add. Qed.

Lemma counter_get_incr_eq c m : counter_get c (incr_counter c m) = incr (counter_get c m).
Proof. rewrite counter_get_incr. by rewrite decide_True. Qed.

Lemma counter_get_incr_ne c c' m : c ≠ c' → counter_get c (incr_counter c' m) = counter_get c m.
Proof. intros. rewrite counter_get_incr. by rewrite decide_False. Qed.

(** ** Object handles *)

Definition GCM_TAG_BITS : Z := 128.

Definition object_class (k : KeyKind) : ObjectClass :=
  match k with
  | KPrivate => PRIVATE_KEY
  | KPublic => PUBLIC_KEY
  | KSecret => SECRET_KEY
  end.

Section worker.
Context {CK : Cryptoki} {CL : CryptoLib}.

Record KeyHandles := mkHandles {
  h_private : option ObjectHandle;
  h_public : option ObjectHandle;
  h_secret : option ObjectHandle
}.

Definition handles_default : KeyHandles := mkHandles None None None.

Definition handles_get (h : KeyHandles) (kind : KeyKind) : option ObjectHandle :=
  match kind with
  | KPrivate => h_private h
  | KPublic => h_public h
  | KSecret => h_secret h
  end.

Definition handles_set (h : KeyHandles) (kind : KeyKind) (o : ObjectHandle) : KeyHandles :=
  match kind with
  | KPrivate => mkHandles (Some o) (h_public h) (h_secret h)
  | KPublic => mkHandles (h_private h) (Some o) (h_secret h)
  | KSecret => mkHandles (h_private h) (h_public h) (Some o)
  end.

Record Worker := mkWorker {
  worker_id : Z;
  pkcs11 : Context;
  slot : Slot;
  token : TokenConfig;
  session : Session;
  handles : gmap string KeyHandles
}.

(** One observation of a Prometheus histogram: its name, the [operation]
    label if any, and the duration. *)
Record Observation := mkObs {
  obs_metric : string;
  obs_operation : option string;
  obs_nanos : Z
}.

(** What every worker shares: the counters, the histograms, the module. *)
Record Shared := mkShared {
  metrics : PoolMetrics;
  histograms : list Observation;
  world : World
}.

(** The state a worker's code runs on. *)
Definition WState : Type := Worker * Shared.

Definition count (c : Counter) (v : Z) (s : WState) : WState :=
  (s.1, mkShared (counter_add c v (metrics s.2)) (histograms s.2) (world s.2)).

Definition observe_nanos (o : Observation) (s : WState) : WState :=
  (s.1, mkShared (metrics s.2) (histograms s.2 ++ [o]) (world s.2)).

Definition set_session (x : Session) (s : WState) : WState :=
  (mkWorker (worker_id s.1) (pkcs11 s.1) (slot s.1) (token s.1) x (handles s.1), s.2).

Definition set_handles (m : gmap string KeyHandles) (s : WState) : WState :=
  (mkWorker (worker_id s.1) (pkcs11 s.1) (slot s.1) (token s.1) (session s.1) m, s.2).

Definition set_world (w : World) (s : WState) : WState :=
  (s.1, mkShared (metrics s.2) (histograms s.2) w).

(** A call into the module. *)
Definition call {E A} (m : stR World E A) : stR WState E A :=
  λ s, let '(r, w) := m (world s.2) in (r, set_world w s).

Definition to_internal (e : AnyError) : PoolError := PInternal (any_to_string show_error e).

(** ** Resolving a label *)

(** The search on a cache miss. *)
Definition search (kind : KeyKind) (label : string) : stR WState PoolError ObjectHandle :=
  λ s, match call (stR_map_err to_internal
                     (find_object (session s.1) (object_class kind) label)) s with
       | (Ok (Some h), s') => (Ok h, s')
       | (Ok None, s') => (Err (KeyNotFound label), s')
       | (Err e, s') => (Err e, s')
       end.

(** [entry(label).or_default().set(kind, handle)]. *)
Definition remember (kind : KeyKind) (label : string) (h : ObjectHandle) (s : WState) : WState :=
  let entry := default handles_default (handles s.1 !! label) in
  set_handles (<[label := handles_set entry kind h]> (handles s.1)) s.

Definition handle (kind : KeyKind) (label : string) : stR WState PoolError ObjectHandle :=
  λ s, match handles s.1 !! label ≫= λ h, handles_get h kind with
       | Some h => (Ok h, count HandleHits 1 s)
       | None =>
           match search kind label (count HandleMisses 1 s) with
           | (Ok h, s') => (Ok h, remember kind label h s')
           | (Err e, s') => (Err e, s')
           end
       end.

(** ** Serving a request *)

Definition on_session {A} (m : Session → stR World CkError A) : stR WState CkError A :=
  λ s, call (m (session s.1)) s.

(** [dispatch], over the way a label is resolved. *)
Definition dispatch_with (resolve : KeyKind → string → stR WState PoolError ObjectHandle)
    (req : JobRequest) : stR WState PoolError JobResponse :=
  match req with
  | JSign key_label algorithm payload =>
      (do key <- resolve KPrivate key_label;
       stR_map Signature
         (stR_map_err (Hsm "C_Sign")
            (on_session (λ x, sign x (Crypto.mechanism algorithm) key payload))))%rust
  | JVerify key_label algorithm payload signature =>
      (do key <- resolve KPublic key_label;
       λ s, match on_session (λ x, verify x (Crypto.mechanism algorithm) key payload signature) s with
            | (Ok _, s') => (Ok (Verified true), s')
            | (Err (Pkcs11 (SignatureInvalid | SignatureLenRange) _), s') =>
                (Ok (Verified false), s')
            | (Err e, s') => (Err (Hsm "C_Verify" e), s')
            end)%rust
  | JEncrypt key_label plaintext associated_data iv =>
      (do key <- resolve KSecret key_label;
       do params <- stR_lift (map_err (λ e, InvalidRequest (show_error e))
                                (gcm_params iv associated_data GCM_TAG_BITS));
       stR_map Ciphertext
         (stR_map_err (Hsm "C_Encrypt")
            (on_session (λ x, encrypt x (M_AesGcm params) key plaintext))))%rust
  | JDecrypt key_label ciphertext associated_data iv =>
      (do key <- resolve KSecret key_label;
       do params <- stR_lift (map_err (λ e, InvalidRequest (show_error e))
                                (gcm_params iv associated_data GCM_TAG_BITS));
       λ s, match on_session (λ x, decrypt x (M_AesGcm params) key ciphertext) s with
            | (Ok plaintext, s') => (Ok (Plaintext plaintext), s')
            | (Err (Pkcs11 (EncryptedDataInvalid | EncryptedDataLenRange) _), s') =>
                (Err (InvalidRequest "ciphertext failed authentication"), s')
            | (Err e, s') => (Err (Hsm "C_Decrypt" e), s')
            end)%rust
  | JGetPublicKey key_label =>
      (do key <- resolve KPublic key_label;
       stR_map (λ '(spki_der, key_type), PublicKey spki_der key_type)
         (λ s, call (stR_map_err to_internal
                       (Crypto.public_key_to_spki_der (session s.1) key)) s))%rust
  end.

Definition dispatch : JobRequest → stR WState PoolError JobResponse := dispatch_with handle.

(** ** Sessions *)

Definition open_worker_session (ctx : Context) (sl : Slot) (tok : TokenConfig) :
    stR World PoolError Session :=
  λ w, match login_session ctx sl tok w with
       | (Ok x, w') => (Ok x, w')
       | (Err err, w') =>
           let already_logged_in :=
             match downcast_ck err with
             | Some (Pkcs11 UserAlreadyLoggedIn _) => true
             | _ => false
             end in
           if already_logged_in then
             stR_map_err (Hsm "C_OpenSession") (open_rw_session ctx sl) w'
           else (Err (PInternal (any_alternate show_error err)), w')
       end.

(** Replacing [self.session] drops the old session, which closes it. *)
Definition reset_session (s0 : WState) : WState :=
  let s := count SessionResets 1 (set_handles ∅ s0) in
  match call (open_worker_session (pkcs11 s.1) (slot s.1) (token s.1)) s with
  | (Ok x, s') => set_session x (set_world (close (session s'.1) (world s'.2)) s')
  | (Err _, s') => s'
  end.

(** [execute], over the way a label is resolved. *)
Definition execute_with (resolve : KeyKind → string → stR WState PoolError ObjectHandle)
    (req : JobRequest) : stR WState PoolError JobResponse :=
  λ s, let '(result, s') := dispatch_with resolve req s in
       match result with
       | Err (Hsm _ source) =>
           (result, if is_session_fatal source then reset_session s' else s')
       | _ => (result, s')
       end.

Definition execute : JobRequest → stR WState PoolError JobResponse := execute_with handle.

(** [Worker::new]. *)
Definition worker_new (wid : Z) (ctx : Context) (sl : Slot) (tok : TokenConfig) :
    stR World PoolError Worker :=
  stR_map (λ x, mkWorker wid ctx sl tok x ∅) (open_worker_session ctx sl tok).

(** ** The loop of [run] *)

Definition QUEUE_WAIT : string := "hsm_queue_wait_seconds".
Definition HSM_SERVICE : string := "hsm_service_duration_seconds".

(** One job, taken off the queue at [t1] and answered at [t2]. *)
Definition serve_with (resolve : KeyKind → string → stR WState PoolError ObjectHandle)
    (t1 t2 : Z) (job : Job) : st WState (result JobResponse PoolError) :=
  λ s,
    let queue_wait := elapsed t1 (enqueued_at job) in
    let '(result, s1) := execute_with resolve (request job) s in
    let service := elapsed t2 t1 in
    let s2 := count ServiceNanos (wrap_u64 service) (count QueueWaitNanos (wrap_u64 queue_wait) s1) in
    let s3 := observe_nanos (mkObs HSM_SERVICE (Some (operation (request job))) service)
                (observe_nanos (mkObs QUEUE_WAIT None queue_wait) s2) in
    let s4 := count Completed 1 s3 in
    match result with
    | Ok _ => (result, s4)
    | Err _ => (result, count Failed 1 s4)
    end.

Definition serve : Z → Z → Job → st WState (result JobResponse PoolError) := serve_with handle.

(** When the channel closes: log out, and drop the session. *)
Definition retire (s : WState) : WState :=
  let '(_, w) := logout (session s.1) (world s.2) in set_world (close (session s.1) w) s.

(** A sequence of jobs with the clock readings around each, and their
    answers in order. *)
Fixpoint serve_all_with (resolve : KeyKind → string → stR WState PoolError ObjectHandle)
    (jobs : list (Z * Z * Job)) : st WState (list (result JobResponse PoolError)) :=
  match jobs with
  | [] => st_ret []
  | (t1, t2, job) :: rest => λ s,
      let '(r, s1) := serve_with resolve t1 t2 job s in
      let '(rs, s2) := serve_all_with resolve rest s1 in
      (r :: rs, s2)
  end.

Definition serve_all : list (Z * Z * Job) → st WState (list (result JobResponse PoolError)) :=
  serve_all_with handle.

(** [run], when the receiver yields [jobs] and then disconnects. *)
Definition run (jobs : list (Z * Z * Job)) : st WState (list (result JobResponse PoolError)) :=
  λ s, let '(rs, s') := serve_all jobs s in (rs, retire s').
End worker.

(** ** Every request gets an answer of its kind *)

Definition answers (req : JobRequest) (resp : JobResponse) : bool :=
  match req, resp with
  | JSign _ _ _, Signature _
  | JVerify _ _ _ _, Verified _
  | JEncrypt _ _ _ _, Ciphertext _
  | JDecrypt _ _ _ _, Plaintext _
  | JGetPublicKey _, PublicKey _ _ => true
  | _, _ => false
  end.

Section answers.
Context {CK : Cryptoki} {CL : CryptoLib}.
Implicit Types s : WState.

Lemma dispatch_answers resolve req s r s' :
  dispatch_with resolve req s = (Ok r, s') → answers req r = true.
Proof. destruct req; simpl; unfold_st; intros; split_cases; done. Qed.

Lemma execute_result resolve req s :
  (execute_with resolve req s).1 = (dispatch_with resolve req s).1.
Proof. unfold execute_with. destruct (dispatch_with resolve req s) as [r s']. by split_cases. Qed.

Lemma serve_result resolve t1 t2 job s :
  (serve_with resolve t1 t2 job s).1 = (dispatch_with resolve (request job) s).1.
Proof.
  rewrite <-execute_result. unfold serve_with.
  destruct (execute_with resolve (request job) s) as [r s']. by destruct r.
Qed.

Lemma serve_answers t1 t2 job s r s' :
  serve t1 t2 job s = (Ok r, s') → answers (request job) r = true.
Proof.
  intros H. apply (f_equal fst) in H. unfold serve in H. rewrite serve_result in H.
  destruct (dispatch_with handle (request job) s) as [r' s''] eqn:Hd. simpl in H. subst r'.
  by eapply dispatch_answers.
Qed.
End answers.

(** ** What a request leaves alone *)

Section frame.
Context {CK : Cryptoki} {CL : CryptoLib}.
Implicit Types s : WState.

(** The key a request names, and the class of object it needs. *)
Definition key_kind (req : JobRequest) : KeyKind :=
  match req with
  | JSign _ _ _ => KPrivate
  | JVerify _ _ _ _ | JGetPublicKey _ => KPublic
  | JEncrypt _ _ _ _ | JDecrypt _ _ _ _ => KSecret
  end.

Definition key_label_of (req : JobRequest) : string :=
  match req with
  | JSign l _ _ | JVerify l _ _ _ | JEncrypt l _ _ _ | JDecrypt l _ _ _ | JGetPublicKey l => l
  end.

(** Past the resolution of the label only the module's state changes. *)
Definition same_but_world (s s' : WState) : Prop :=
  s'.1 = s.1 ∧ metrics s'.2 = metrics s.2 ∧ histograms s'.2 = histograms s.2.

Lemma call_frame {E A} (m : stR World E A) s : same_but_world s (call m s).2.
Proof. unfold call. by destruct (m (world s.2)). Qed.

Lemma dispatch_frame resolve req s :
  same_but_world (resolve (key_kind req) (key_label_of req) s).2
                 (dispatch_with resolve req s).2.
Proof.
  destruct req; simpl; unfold_st;
    match goal with |- context [resolve ?k ?l s] => destruct (resolve k l s) as [[h|e] s1] end;
    simpl; try done; unfold on_session.
  1-4: try match goal with |- context [gcm_params ?a ?b ?c] =>
             destruct (gcm_params a b c); simpl; [|done] end.
  all: match goal with |- context [call ?m ?s] =>
         pose proof (call_frame m s); destruct (call m s) as [[?|?] ?] end.
  all: split_cases; done.
Qed.

Lemma search_frame kind label s : same_but_world s (search kind label s).2.
Proof.
  unfold search. pose proof (call_frame (stR_map_err to_internal
    (find_object (session s.1) (object_class kind) label)) s) as H.
  destruct (call _ s) as [[[]|] ?]; done.
Qed.
End frame.

(** ** Accounting *)

Section accounting.
Context {CK : Cryptoki} {CL : CryptoLib}.
Implicit Types s : WState.

Definition cget (c : Counter) (s : WState) : Z := counter_get c (metrics s.2).

Lemma cget_count c c' v s :
  cget c (count c' v s) = if decide (c = c') then fetch_add (cget c s) v else cget c s.
Proof. apply counter_get_add. Qed.

Lemma cget_frame c s s' : same_but_world s s' → cget c s' = cget c s.
Proof. unfold cget. by intros (_&->&_). Qed.

(** Resolving a label is a hit or a miss. *)
Definition lookups s : Z := wrap_u64 (cget HandleHits s + cget HandleMisses s).

Lemma cget_remember c kind label h s : cget c (remember kind label h s) = cget c s.
Proof. done. Qed.

Lemma handle_cget kind label s c :
  cget c (handle kind label s).2 =
  match handles s.1 !! label ≫= λ h, handles_get h kind with
  | Some _ => cget c (count HandleHits 1 s)
  | None => cget c (count HandleMisses 1 s)
  end.
Proof.
  unfold handle. destruct (handles s.1 !! label ≫= _); [done|].
  pose proof (search_frame kind label (count HandleMisses 1 s)) as Hf.
  destruct (search kind label (count HandleMisses 1 s)) as [[h|e] s1]; simpl in *;
    rewrite ?cget_remember; by apply cget_frame.
Qed.

Lemma wrap_add_l a b : wrap_u64 (wrap_u64 a + b) = wrap_u64 (a + b).
Proof. unfold wrap_u64. apply Zplus_mod_idemp_l. Qed.

Lemma wrap_add_r a b : wrap_u64 (a + wrap_u64 b) = wrap_u64 (a + b).
Proof. unfold wrap_u64. apply Zplus_mod_idemp_r. Qed.

Lemma handle_lookups kind label s : lookups (handle kind label s).2 = incr (lookups s).
Proof.
  unfold lookups. rewrite !handle_cget. unfold incr, fetch_add.
  destruct (handles s.1 !! label ≫= _); rewrite !cget_count; simpl; unfold fetch_add;
    rewrite ?wrap_add_l, ?wrap_add_r; f_equal; lia.
Qed.

Lemma reset_cget c s : c ≠ SessionResets → cget c (reset_session s) = cget c s.
Proof.
  intros Hc. unfold reset_session.
  set (s1 := count SessionResets 1 (set_handles ∅ s)).
  assert (cget c s1 = cget c s) as Hs1.
  { unfold s1. rewrite cget_count, decide_False by done. done. }
  pose proof (call_frame (open_worker_session (pkcs11 s1.1) (slot s1.1) (token s1.1)) s1) as Hf.
  destruct (call _ s1) as [[x|e] s2]; simpl in Hf; rewrite <-Hs1;
    by rewrite <-(cget_frame c _ _ Hf).
Qed.

Lemma execute_cget req s c :
  c ≠ SessionResets →
  cget c (execute req s).2 = cget c (handle (key_kind req) (key_label_of req) s).2.
Proof.
  intros Hc. unfold execute, execute_with. pose proof (dispatch_frame handle req s) as Hf.
  destruct (dispatch_with handle req s) as [r s'].
  rewrite <-(cget_frame c _ _ Hf). simpl.
  split_cases; try done. by apply reset_cget.
Qed.

Lemma handle_cget_other kind label s c :
  c ≠ HandleHits → c ≠ HandleMisses → cget c (handle kind label s).2 = cget c s.
Proof.
  intros. rewrite handle_cget. case_match; rewrite cget_count, decide_False by done; done.
Qed.

(** One job: one completion, one failure if it failed, one lookup. *)
Lemma serve_counts t1 t2 job s :
  let '(r, s') := serve t1 t2 job s in
  cget Completed s' = incr (cget Completed s) ∧
  cget Failed s' = (if is_ok r then cget Failed s else incr (cget Failed s)) ∧
  lookups s' = incr (lookups s).
Proof.
  unfold serve, serve_with. change (execute_with handle) with execute.
  assert (∀ c, c ≠ SessionResets → c ≠ HandleHits → c ≠ HandleMisses →
            cget c (execute (request job) s).2 = cget c s) as Hc.
  { intros. rewrite execute_cget, handle_cget_other; done. }
  assert (lookups (execute (request job) s).2 = incr (lookups s)) as Hl.
  { rewrite <-(handle_lookups (key_kind (request job)) (key_label_of (request job))).
    unfold lookups. by rewrite !execute_cget. }
  destruct (execute (request job) s) as [r s1]. simpl in Hc, Hl. rewrite <-Hl.
  assert (cget Completed s1 = cget Completed s ∧ cget Failed s1 = cget Failed s) as [<- <-]
    by (split; by apply Hc).
  by destruct r.
Qed.

Definition failures (rs : list (result JobResponse PoolError)) : Z :=
  Z.of_nat (length (filter (λ r, is_ok r = false) rs)).

Lemma wrap_incr a b n : wrap_u64 a = wrap_u64 (incr b + n) → wrap_u64 a = wrap_u64 (b + (1 + n)).
Proof. intros ->. unfold incr, fetch_add. rewrite wrap_add_l. f_equal. lia. Qed.

(** a worker's counters count.  Whatever jobs it serves and whatever the
    token does, each job is answered once, and adds one completion, one lookup of
    the handle cache, and one failure exactly if its answer is an error. *)
Theorem serve_all_counts jobs s :
  let '(rs, s') := serve_all jobs s in
  length rs = length jobs ∧
  wrap_u64 (cget Completed s') = wrap_u64 (cget Completed s + Z.of_nat (length jobs)) ∧
  wrap_u64 (cget Failed s') = wrap_u64 (cget Failed s + failures rs) ∧
  wrap_u64 (lookups s') = wrap_u64 (lookups s + Z.of_nat (length jobs)).
Proof.
  revert s. induction jobs as [|[[t1 t2] job] jobs IH]; intros s.
  { simpl. by rewrite !Z.add_0_r. }
  unfold serve_all in *. simpl. change (serve_with handle) with serve.
  pose proof (serve_counts t1 t2 job s) as Hs.
  destruct (serve t1 t2 job s) as [r s1]. specialize (IH s1).
  destruct (serve_all_with handle jobs s1) as [rs s2].
  destruct Hs as (Hc&Hf&Hl), IH as (IHn&IHc&IHf&IHl). rewrite Hc in IHc. rewrite Hl in IHl.
  rewrite Nat2Z.inj_succ, <-Z.add_1_l.
  split; [by simpl; f_equal|]. split; [by apply wrap_incr|]. split; [|by apply wrap_incr].
  unfold failures in *. rewrite filter_cons. destruct r; simpl in *.
  - by rewrite Hf in IHf.
  - rewrite Hf in IHf. rewrite Nat2Z.inj_succ, <-Z.add_1_l. by apply wrap_incr.
Qed.
End accounting.

(** ** Relations between states of the module that every call respects *)

Section preserves.
Context {CK : Cryptoki} {CL : CryptoLib}.
Context (R : relation World) `{!PreOrder R}.

Definition preserves {E A} (m : stR World E A) : Prop := ∀ w, R w (m w).2.

Lemma preserves_bind {E A B} (m : stR World E A) (k : A → stR World E B) :
  preserves m → (∀ a, preserves (k a)) → preserves (stR_bind m k).
Proof.
  intros Hm Hk w. unfold stR_bind. specialize (Hm w).
  destruct (m w) as [[a|e] w']; simpl in *; [by etrans; [|apply Hk]|done].
Qed.

Lemma preserves_map {E A B} (f : A → B) (m : stR World E A) :
  preserves m → preserves (stR_map f m).
Proof. intros Hm w. unfold stR_map. specialize (Hm w). by destruct (m w). Qed.

Lemma preserves_map_err {E F A} (f : E → F) (m : stR World E A) :
  preserves m → preserves (stR_map_err f m).
Proof. intros Hm w. unfold stR_map_err. specialize (Hm w). by destruct (m w). Qed.

Lemma preserves_lift {E A} (r : result A E) : preserves (stR_lift r).
Proof. intros w. reflexivity. Qed.

Hint Resolve preserves_bind preserves_map preserves_map_err preserves_lift : proxy.

Lemma public_key_preserves x key :
  (∀ x h ts, preserves (get_attributes x h ts)) →
  preserves (Crypto.public_key_to_spki_der x key).
Proof.
  unfold Crypto.public_key_to_spki_der, Crypto.ec_spki, Crypto.rsa_spki, with_context.
  intros Hg. apply preserves_bind; [auto with proxy|].
  intros l. repeat case_match; auto 6 with proxy.
Qed.

Lemma find_object_preserves x c l :
  (∀ x t, preserves (find_objects x t)) → preserves (find_object x c l).
Proof. unfold find_object, with_context. auto with proxy. Qed.
End preserves.

#[export] Hint Resolve preserves_bind preserves_map preserves_map_err preserves_lift : proxy.

(** ** The handle cache

    PKCS#11's queries read: [C_FindObjects] answers from the module's state
    and, like [C_GetAttributeValue], leaves it alone.  An operation that does
    not fail with an error fatal to its session keeps what searches on that
    session find. *)

Class ReadOnlyQueries (CK : Cryptoki) := {
  view : World → Session → list Attribute → result (list ObjectHandle) CkError;
  find_objects_view x t w : find_objects x t w = (view w x t, w);
  get_attributes_keeps x h ts w : (get_attributes x h ts w).2 = w;
  keeps {A} (x : Session) (m : stR World CkError A) : Prop :=
    ∀ w t hs, view w x t = Ok hs →
      (∀ e, (m w).1 = Err e → is_session_fatal e = false) → view (m w).2 x t = Ok hs;
  sign_keeps x mech h d : keeps x (sign x mech h d);
  verify_keeps x mech h d sg : keeps x (verify x mech h d sg);
  encrypt_keeps x mech h d : keeps x (encrypt x mech h d);
  decrypt_keeps x mech h d : keeps x (decrypt x mech h d)
}.

Section handle_cache.
Context {CK : Cryptoki} {CL : CryptoLib} {RO : ReadOnlyQueries CK}.
Implicit Types s : WState.

(** A cached handle is the one a search on the current session returns. *)
Definition handles_current s : Prop :=
  ∀ label kh kind h,
    handles s.1 !! label = Some kh → handles_get kh kind = Some h →
    ∃ hs, view (world s.2) (session s.1) (find_template (object_class kind) label) = Ok (h :: hs).

(** Everything of the state but the cache and the metrics. *)
Definition core s : Context * Slot * TokenConfig * Session * World :=
  (pkcs11 s.1, slot s.1, token s.1, session s.1, world s.2).

Lemma search_view kind label s :
  search kind label s =
  (match view (world s.2) (session s.1) (find_template (object_class kind) label) with
   | Ok (h :: _) => Ok h
   | Ok [] => Err (KeyNotFound label)
   | Err e => Err (PInternal "C_FindObjects failed")
   end, s).
Proof.
  destruct s as [wk [m hg w]].
  unfold search, call, find_object, with_context. unfold_st. rewrite find_objects_view. simpl.
  by destruct (view w (session wk) _) as [[|h hs]|e].
Qed.

Lemma handles_get_set kh kind kind' h :
  handles_get (handles_set kh kind h) kind' =
  if decide (kind = kind') then Some h else handles_get kh kind'.
Proof. by destruct kind, kind'. Qed.

Lemma handles_get_default kind : handles_get handles_default kind = None.
Proof. by destruct kind. Qed.

Lemma remember_current kind label h hs s :
  handles_current s →
  view (world s.2) (session s.1) (find_template (object_class kind) label) = Ok (h :: hs) →
  handles_current (remember kind label h s).
Proof.
  intros Hcur Hv label' kh' kind' h'. simpl.
  destruct (decide (label' = label)) as [->|Hne].
  - rewrite lookup_insert_eq. intros [= <-]. rewrite handles_get_set.
    case_decide as Hk; [intros [= <-]; subst; eauto|].
    destruct (handles s.1 !! label) as [kh|] eqn:Hl; simpl; [by apply Hcur|].
    by rewrite handles_get_default.
  - rewrite lookup_insert_ne by done. apply Hcur.
Qed.

(** Resolving a label returns what a search returns, hit or miss. *)
Lemma handle_search kind label s :
  handles_current s →
  (handle kind label s).1 = (search kind label s).1 ∧
  core (handle kind label s).2 = core s ∧
  handles_current (handle kind label s).2.
Proof.
  intros Hcur. unfold handle.
  destruct (handles s.1 !! label ≫= λ h, handles_get h kind) as [h|] eqn:Hl.
  - apply bind_Some in Hl as (kh&Hl&Hg).
    rewrite search_view. by destruct (Hcur _ _ _ _ Hl Hg) as [hs ->].
  - rewrite !search_view. simpl.
    destruct (view (world s.2) (session s.1) (find_template (object_class kind) label))
      as [[|h hs]|e] eqn:Hv; simpl; [done| |done].
    split; [done|]. split; [done|]. by eapply remember_current.
Qed.

(** What [dispatch] does once the label is resolved. *)
Definition perform (key : ObjectHandle) (req : JobRequest) : stR WState PoolError JobResponse :=
  dispatch_with (λ _ _ s, (Ok key, s)) req.

Lemma dispatch_perform resolve req s :
  dispatch_with resolve req s =
  match resolve (key_kind req) (key_label_of req) s with
  | (Ok key, s') => perform key req s'
  | (Err e, s') => (Err e, s')
  end.
Proof.
  unfold perform. destruct req; simpl; unfold_st;
    match goal with |- context [resolve ?k ?l s] => by destruct (resolve k l s) as [[]] end.
Qed.

Lemma call_core {E A} (m : stR World E A) s s0 :
  core s = core s0 → (call m s).1 = (call m s0).1 ∧ core (call m s).2 = core (call m s0).2.
Proof.
  unfold core, call. intros [= ? ? ? ? Hw]. rewrite Hw. destruct (m (world s0.2)); simpl.
  split; congruence.
Qed.

Lemma perform_core key req s s0 :
  core s = core s0 →
  (perform key req s).1 = (perform key req s0).1 ∧
  core (perform key req s).2 = core (perform key req s0).2.
Proof.
  intros Hc. assert (session s.1 = session s0.1) as Hx by by injection Hc.
  unfold perform. destruct req; simpl; unfold_st; unfold on_session; rewrite Hx.
  3,4: destruct (gcm_params _ _ _); [|done].
  all: match goal with H : core ?a = core ?b |- context [call ?m ?a] =>
         pose proof (call_core m a b H) as [Hr Hc'];
         destruct (call m a) as [r s1], (call m b) as [r0 s10]; simpl in Hr, Hc'; subst r0
       end; repeat case_match; done.
Qed.

Lemma public_key_reads x key w : (Crypto.public_key_to_spki_der x key w).2 = w.
Proof.
  symmetry. apply (public_key_preserves (=)). intros ? h ts w'. by rewrite get_attributes_keeps.
Qed.

(** The error, if any, is not one that [execute] resets the session for. *)
Definition not_fatal {A} (r : result A PoolError) : Prop :=
  ∀ op e, r = Err (Hsm op e) → is_session_fatal e = false.

Lemma call_current {A} (m : stR World CkError A) s :
  keeps (session s.1) m → handles_current s →
  (∀ e, (call m s).1 = Err e → is_session_fatal e = false) → handles_current (call m s).2.
Proof.
  unfold call, handles_current. intros Hk Hcur Hf label kh kind h Hl Hg.
  destruct (Hcur label kh kind h) as [hs Hv].
  { revert Hl. by destruct (m (world s.2)). }
  { done. }
  specialize (Hk _ _ _ Hv). destruct (m (world s.2)) as [r w]; simpl in *. eauto.
Qed.

Lemma perform_current key req s :
  handles_current s → not_fatal (perform key req s).1 →
  handles_current (perform key req s).2.
Proof.
  unfold perform. intros Hcur. destruct req; simpl; unfold_st; unfold on_session.
  3,4: destruct (gcm_params _ _ _); [|done].
  1-4: match goal with |- context [call ?m ?a] =>
         pose proof (call_current m a) as Hcc; destruct (call m a) as [[r|e] s1] end;
       simpl in *; intros Hnf; split_cases;
       (eapply Hcc; [auto using sign_keeps, verify_keeps, encrypt_keeps, decrypt_keeps|done|]);
       intros ? [= <-]; try done; by eapply Hnf.
  intros _. unfold call, stR_map_err.
  pose proof (public_key_reads (session s.1) key (world s.2)) as Hw.
  destruct (Crypto.public_key_to_spki_der (session s.1) key (world s.2)) as [[]]; simpl in *; subst;
    done.
Qed.

Lemma reset_core s s0 : core s = core s0 → core (reset_session s) = core (reset_session s0).
Proof.
  unfold core. intros [= Hp Hs Ht Hx Hw].
  unfold reset_session, call. simpl. rewrite Hp, Hs, Ht, Hw.
  destruct (open_worker_session (pkcs11 s0.1) (slot s0.1) (token s0.1) (world s0.2))
    as [[x|e] w]; simpl; congruence.
Qed.

Lemma reset_handles s : handles (reset_session s).1 = ∅.
Proof.
  unfold reset_session, call. simpl.
  by destruct (open_worker_session (pkcs11 s.1) (slot s.1) (token s.1) (world s.2)) as [[x|e] w].
Qed.

Lemma no_handles_current s : handles s.1 = ∅ → handles_current s.
Proof. intros Hh label kh kind h Hl. rewrite Hh in Hl. by rewrite lookup_empty in Hl. Qed.

Lemma dispatch_transparent req s s0 :
  handles_current s → core s = core s0 →
  (dispatch_with handle req s).1 = (dispatch_with search req s0).1 ∧
  core (dispatch_with handle req s).2 = core (dispatch_with search req s0).2 ∧
  (not_fatal (dispatch_with handle req s).1 → handles_current (dispatch_with handle req s).2).
Proof.
  intros Hcur Hc. rewrite !dispatch_perform.
  destruct (handle_search (key_kind req) (key_label_of req) s Hcur) as (Hr&Hc1&Hcur1).
  rewrite search_view in Hr. rewrite search_view.
  assert (session s.1 = session s0.1 ∧ world s.2 = world s0.2) as [Hx Hw] by by injection Hc.
  rewrite Hx, Hw in Hr.
  destruct (handle (key_kind req) (key_label_of req) s) as [r s1]. simpl in *. subst r.
  destruct (view (world s0.2) (session s0.1) _) as [[|h hs]|e]; simpl.
  - split; [done|]. split; [congruence|done].
  - destruct (perform_core h req s1 s0) as [-> ->]; [congruence|].
    split; [done|]. split; [done|].
    destruct (perform_core h req s1 s0) as [<- _]; [congruence|]. by apply perform_current.
  - split; [done|]. split; [congruence|done].
Qed.

Lemma execute_transparent req s s0 :
  handles_current s → core s = core s0 →
  (execute_with handle req s).1 = (execute_with search req s0).1 ∧
  core (execute_with handle req s).2 = core (execute_with search req s0).2 ∧
  handles_current (execute_with handle req s).2.
Proof.
  intros Hcur Hc. destruct (dispatch_transparent req s s0 Hcur Hc) as (Hr&Hc'&Hcur').
  unfold execute_with.
  destruct (dispatch_with handle req s) as [r s1], (dispatch_with search req s0) as [r0 s10].
  simpl in *. subst r0.
  destruct r as [a|[| | | | |op e|]]; simpl; try (split; [done|]; split; [done|by apply Hcur']).
  destruct (is_session_fatal e) eqn:He; simpl.
  - split; [done|]. split; [by apply reset_core|]. apply no_handles_current, reset_handles.
  - split; [done|]. split; [done|]. apply Hcur'. by intros op' e' [= <- <-].
Qed.

Lemma serve_transparent t1 t2 job s s0 :
  handles_current s → core s = core s0 →
  (serve_with handle t1 t2 job s).1 = (serve_with search t1 t2 job s0).1 ∧
  core (serve_with handle t1 t2 job s).2 = core (serve_with search t1 t2 job s0).2 ∧
  handles_current (serve_with handle t1 t2 job s).2.
Proof.
  intros Hcur Hc. destruct (execute_transparent (request job) s s0 Hcur Hc) as (Hr&Hc'&Hcur').
  unfold serve_with.
  destruct (execute_with handle (request job) s) as [r s1],
    (execute_with search (request job) s0) as [r0 s10].
  simpl in *. subst r0. by destruct r.
Qed.

Lemma serve_all_transparent jobs s s0 :
  handles_current s → core s = core s0 →
  (serve_all_with handle jobs s).1 = (serve_all_with search jobs s0).1 ∧
  core (serve_all_with handle jobs s).2 = core (serve_all_with search jobs s0).2 ∧
  handles_current (serve_all_with handle jobs s).2.
Proof.
  revert s s0. induction jobs as [|[[t1 t2] job] jobs IH]; intros s s0 Hcur Hc; [done|]. simpl.
  destruct (serve_transparent t1 t2 job s s0 Hcur Hc) as (Hr&Hc'&Hcur').
  destruct (serve_with handle t1 t2 job s) as [r s1],
    (serve_with search t1 t2 job s0) as [r0 s10]. simpl in *. subst r0.
  destruct (IH s1 s10 Hcur' Hc') as (Hrs&Hc2&Hcur2).
  destruct (serve_all_with handle jobs s1), (serve_all_with search jobs s10). simpl in *.
  split; [congruence|done].
Qed.

(** C10: the handle cache is transparent.  A worker that starts with an empty
    cache answers every sequence of jobs, session failures and reopened
    sessions included, exactly as a worker that searches the token for each
    job, and leaves the session and the token in the same state; and at the
    end every cached handle is what a search on the current session finds, so
    no handle of a session that was replaced survives. *)
Theorem handle_cache_transparent jobs s :
  handles s.1 = ∅ →
  (serve_all jobs s).1 = (serve_all_with search jobs s).1 ∧
  core (serve_all jobs s).2 = core (serve_all_with search jobs s).2 ∧
  handles_current (serve_all jobs s).2.
Proof. intros Hh. by apply serve_all_transparent; [apply no_handles_current|]. Qed.
End handle_cache.

(** ** Serving a request moves the module along what its calls respect *)

Section moves.
Context {CK : Cryptoki} {CL : CryptoLib}.
Context (R : relation World) `{!PreOrder R}.
Implicit Types s : WState.

(** The calls that serving a request makes. *)
Record module_calls : Prop := {
  mc_find x t : preserves R (find_objects x t);
  mc_attributes x h ts : preserves R (get_attributes x h ts);
  mc_sign x m h d : preserves R (sign x m h d);
  mc_verify x m h d sg : preserves R (verify x m h d sg);
  mc_encrypt x m h d : preserves R (encrypt x m h d);
  mc_decrypt x m h d : preserves R (decrypt x m h d)
}.

Definition moves s s' : Prop := R (world s.2) (world s'.2).

Lemma call_moves {E A} (m : stR World E A) s : preserves R m → moves s (call m s).2.
Proof. intros Hm. unfold moves, call. specialize (Hm (world s.2)). by destruct (m (world s.2)). Qed.

Section resolving.
Hypothesis finds : ∀ x t, preserves R (find_objects x t).

Lemma search_moves kind label s : moves s (search kind label s).2.
Proof using All.
  unfold search.
  pose proof (call_moves (stR_map_err to_internal
    (find_object (session s.1) (object_class kind) label)) s) as H.
  destruct (call _ s) as [[[]|] ?]; apply H;
    by apply preserves_map_err, find_object_preserves.
Qed.

Lemma handle_moves kind label s : moves s (handle kind label s).2.
Proof using All.
  unfold handle. destruct (handles s.1 !! label ≫= _); [unfold moves; reflexivity|].
  pose proof (search_moves kind label (count HandleMisses 1 s)) as H.
  by destruct (search kind label (count HandleMisses 1 s)) as [[]].
Qed.
End resolving.

Hypothesis calls : module_calls.

Lemma perform_moves key req s : moves s (perform key req s).2.
Proof.
  destruct calls as [_ Ha Hs Hv He Hd].
  unfold perform. destruct req; simpl; unfold_st; unfold on_session.
  3,4: destruct (gcm_params _ _ _); [|unfold moves; reflexivity].
  all: match goal with |- context [call ?m ?a] =>
         pose proof (call_moves m a) as H; destruct (call m a) as [[?|?] ?] end;
       repeat case_match; apply H; auto.
  all: by apply (preserves_map_err R to_internal), public_key_preserves.
Qed.

Lemma dispatch_moves req s : moves s (dispatch_with handle req s).2.
Proof.
  rewrite dispatch_perform. pose proof (handle_moves (mc_find calls) (key_kind req) (key_label_of req) s) as H.
  destruct (handle (key_kind req) (key_label_of req) s) as [[key|e] s1]; [|done].
  unfold moves in *. etrans; [exact H|apply perform_moves].
Qed.
End moves.

(** ** Sessions are not leaked

    The sessions that were opened and not yet closed: opening adds a new one,
    closing removes it, and no other call changes them. *)

Class SessionTable (CK : Cryptoki) := {
  session_eq_dec :: EqDecision Session;
  held : World → Session → Prop;
  same_held (w w' : World) : Prop := ∀ y, held w' y ↔ held w y;
  open_held ctx sl w :
    match open_rw_session ctx sl w with
    | (Ok x, w') => ¬ held w x ∧ ∀ y, held w' y ↔ y = x ∨ held w y
    | (Err _, w') => same_held w w'
    end;
  close_held x w y : held (close x w) y ↔ held w y ∧ y ≠ x;
  login_held x pin : preserves same_held (login x pin);
  logout_held x : preserves same_held (logout x);
  find_held x t : preserves same_held (find_objects x t);
  attributes_held x h ts : preserves same_held (get_attributes x h ts);
  sign_held x m h d : preserves same_held (sign x m h d);
  verify_held x m h d sg : preserves same_held (verify x m h d sg);
  encrypt_held x m h d : preserves same_held (encrypt x m h d);
  decrypt_held x m h d : preserves same_held (decrypt x m h d)
}.

Section sessions.
Context {CK : Cryptoki} {CL : CryptoLib} {ST : SessionTable CK}.
Implicit Types s : WState.

#[local] Instance same_held_preorder : PreOrder same_held.
Proof.
  split; [by intros w y|]. intros w1 w2 w3 H12 H23 y.
  transitivity (held w2 y); [apply H23|apply H12].
Qed.

(** A session is opened, or everything is as before. *)
Lemma login_session_held ctx sl tok w :
  match login_session ctx sl tok w with
  | (Ok x, w') => ¬ held w x ∧ ∀ y, held w' y ↔ y = x ∨ held w y
  | (Err _, w') => same_held w w'
  end.
Proof.
  unfold login_session, with_context. unfold_st. pose proof (open_held ctx sl w) as Ho.
  destruct (open_rw_session ctx sl w) as [[x|e] w1]; [|done].
  pose proof (login_held x (user_pin tok) w1) as Hl. destruct Ho as [Hfresh Ho].
  destruct (login x (user_pin tok) w1) as [[u|e] w2]; simpl in Hl.
  - split; [done|]. intros y. by rewrite (Hl y).
  - intros y. rewrite close_held, (Hl y), Ho. naive_solver.
Qed.

Lemma open_worker_session_held ctx sl tok w :
  match open_worker_session ctx sl tok w with
  | (Ok x, w') => ¬ held w x ∧ ∀ y, held w' y ↔ y = x ∨ held w y
  | (Err _, w') => same_held w w'
  end.
Proof.
  unfold open_worker_session. pose proof (login_session_held ctx sl tok w) as Hl.
  destruct (login_session ctx sl tok w) as [[x|e] w1]; [done|].
  destruct (match downcast_ck e with Some _ => _ | None => _ end); [|done].
  unfold_st. pose proof (open_held ctx sl w1) as Ho.
  destruct (open_rw_session ctx sl w1) as [[x|e'] w2]; [|by etrans].
  destruct Ho as [Hfresh Ho]. split; [by rewrite <-(Hl x)|].
  intros y. by rewrite Ho, (Hl y).
Qed.

(** From [s] to [s'] the worker's session is the only one that was exchanged. *)
Definition exchanged s s' : Prop :=
  held (world s'.2) (session s'.1) ∧
  (∀ y, held (world s'.2) y ↔ y = session s'.1 ∨ (held (world s.2) y ∧ y ≠ session s.1)) ∧
  (session s'.1 = session s.1 ∨ ¬ held (world s.2) (session s'.1)).

Lemma exchanged_same s s' :
  held (world s.2) (session s.1) → session s'.1 = session s.1 →
  same_held (world s.2) (world s'.2) → exchanged s s'.
Proof.
  intros Hh Hx Hs. unfold exchanged. rewrite Hx. split; [by apply Hs|]. split; [|by left].
  intros y. rewrite (Hs y). split; [|naive_solver].
  intros Hy. destruct (decide (y = session s.1)); naive_solver.
Qed.

Lemma exchanged_trans s1 s2 s3 : exchanged s1 s2 → exchanged s2 s3 → exchanged s1 s3.
Proof.
  intros (Hh2&He2&Hf2) (Hh3&He3&Hf3). split; [done|]. split.
  - intros y. rewrite He3, He2. destruct (decide (y = session s3.1)); [naive_solver|].
    destruct (decide (y = session s2.1)) as [->|]; [|naive_solver].
    split; [naive_solver|]. intros [?|[Hy Hne]]; [done|]. naive_solver.
  - destruct Hf3 as [Hf3|Hf3]; [by rewrite Hf3|]. rewrite He2 in Hf3.
    destruct (decide (session s3.1 = session s1.1)); [by left|right; naive_solver].
Qed.

Lemma reset_exchanged s :
  held (world s.2) (session s.1) → exchanged s (reset_session s).
Proof.
  intros Hh. unfold reset_session, call. simpl.
  pose proof (open_worker_session_held (pkcs11 s.1) (slot s.1) (token s.1) (world s.2)) as Ho.
  destruct (open_worker_session (pkcs11 s.1) (slot s.1) (token s.1) (world s.2)) as [[x|e] w].
  - destruct Ho as [Hfresh Ho]. assert (x ≠ session s.1) by (by intros ->).
    unfold exchanged. simpl.
    split; [apply close_held; rewrite Ho; naive_solver|].
    split; [|by right]. intros y. rewrite close_held, Ho. naive_solver.
  - by apply exchanged_same.
Qed.

Lemma held_calls : module_calls same_held.
Proof.
  split; auto using find_held, attributes_held, sign_held, verify_held, encrypt_held, decrypt_held.
Qed.

Lemma handle_session kind label s : session (handle kind label s).2.1 = session s.1.
Proof.
  unfold handle. destruct (handles s.1 !! label ≫= _); [done|].
  pose proof (search_frame kind label (count HandleMisses 1 s)) as (H&_).
  destruct (search kind label (count HandleMisses 1 s)) as [[]]; simpl in *; by rewrite H.
Qed.

Lemma dispatch_held req s :
  same_held (world s.2) (world (dispatch_with handle req s).2.2) ∧
  session (dispatch_with handle req s).2.1 = session s.1.
Proof.
  split; [by apply (dispatch_moves same_held held_calls)|].
  destruct (dispatch_frame handle req s) as [-> _]. apply handle_session.
Qed.

Lemma serve_exchanged t1 t2 job s :
  held (world s.2) (session s.1) → exchanged s (serve t1 t2 job s).2.
Proof.
  intros Hh. destruct (dispatch_held (request job) s) as [Hd Hx].
  assert (exchanged s (execute_with handle (request job) s).2) as He.
  { unfold execute_with. destruct (dispatch_with handle (request job) s) as [r s1].
    simpl in Hd, Hx. pose proof (exchanged_same s s1 Hh Hx Hd) as Hs1.
    destruct r as [a|[| | | | |op e|]]; try exact Hs1. simpl.
    destruct (is_session_fatal e); [|done].
    eapply exchanged_trans; [done|]. apply reset_exchanged. exact (proj1 Hs1). }
  unfold serve, serve_with. destruct (execute_with handle (request job) s) as [r s1].
  by destruct r.
Qed.

Lemma serve_all_exchanged jobs s :
  held (world s.2) (session s.1) → exchanged s (serve_all jobs s).2.
Proof.
  revert s. induction jobs as [|[[t1 t2] job] jobs IH]; intros s Hh; [by apply exchanged_same|].
  unfold serve_all in *. simpl. change (serve_with handle) with serve.
  pose proof (serve_exchanged t1 t2 job s Hh) as H1.
  destruct (serve t1 t2 job s) as [r s1]. simpl in H1.
  assert (exchanged s1 (serve_all_with handle jobs s1).2) as H2 by (apply IH; exact (proj1 H1)).
  destruct (serve_all_with handle jobs s1) as [rs s2]. by eapply exchanged_trans.
Qed.

(** C21: a worker holds exactly one session and gives it back.  From
    [Worker::new] until its loop ends, over any jobs and any number of
    sessions that broke and were reopened or could not be, failed logins
    included, the sessions of everyone else are untouched, and once [run]
    returns the sessions held are those held before the worker started. *)
Theorem worker_sessions_balanced wid ctx sl tok sh wk w jobs :
  worker_new wid ctx sl tok (world sh) = (Ok wk, w) →
  ∀ y, held (world (run jobs (wk, mkShared (metrics sh) (histograms sh) w)).2.2) y ↔
       held (world sh) y.
Proof.
  unfold worker_new, stR_map. intros Hnew y.
  pose proof (open_worker_session_held ctx sl tok (world sh)) as Ho.
  destruct (open_worker_session ctx sl tok (world sh)) as [[x|e] w0]; simplify_eq/=.
  destruct Ho as [Hfresh Ho].
  set (s := (mkWorker wid ctx sl tok x ∅, mkShared (metrics sh) (histograms sh) w)).
  assert (held (world s.2) (session s.1)) as Hh by (apply Ho; by left).
  unfold run. destruct (serve_all_exchanged jobs s Hh) as (Hh'&He&Hf).
  destruct (serve_all jobs s) as [rs s']. simpl in *. unfold retire.
  pose proof (logout_held (session s'.1) (world s'.2)) as Hl.
  destruct (logout (session s'.1) (world s'.2)) as [u w']. simpl in *.
  rewrite close_held, (Hl y), He, Ho. naive_solver.
Qed.
End sessions.

(** ** A worker whose session is gone *)

Section stuck.
Context {CK : Cryptoki} {CL : CryptoLib}.
Implicit Types s : WState.

(** While [P] holds of the module, no search on [x] succeeds. *)
Definition gone (P : World → Prop) (x : Session) : Prop :=
  ∀ w t, P w → ∃ e w', find_objects x t w = (Err e, w') ∧ P w'.

Lemma search_gone P kind label s :
  gone P (session s.1) → P (world s.2) →
  ∃ w', search kind label s = (Err (PInternal "C_FindObjects failed"), set_world w' s) ∧ P w'.
Proof.
  intros Hg HP.
  destruct (Hg (world s.2) (find_template (object_class kind) label) HP) as (e&w'&Hf&HP').
  exists w'. split; [|done]. unfold search, call, find_object, with_context. unfold_st.
  by rewrite Hf.
Qed.

Lemma serve_gone P t1 t2 job s :
  gone P (session s.1) → P (world s.2) → handles s.1 = ∅ →
  let '(r, s') := serve t1 t2 job s in
  r = Err (PInternal "C_FindObjects failed") ∧ s'.1 = s.1 ∧ P (world s'.2) ∧
  cget SessionResets s' = cget SessionResets s.
Proof.
  intros Hg HP Hh.
  assert (∃ w', dispatch_with handle (request job) s =
            (Err (PInternal "C_FindObjects failed"), set_world w' (count HandleMisses 1 s)) ∧
            P w') as (w'&Hd&HP').
  { setoid_rewrite dispatch_perform. unfold handle. rewrite Hh, lookup_empty. simpl.
    destruct (search_gone P (key_kind (request job)) (key_label_of (request job))
                (count HandleMisses 1 s)) as (w'&Hs&HP'); [done..|].
    exists w'. by rewrite Hs. }
  unfold serve, serve_with, execute_with. by rewrite Hd.
Qed.

(** C35: a worker whose session is lost, and whose one attempt to reopen it
    failed, never tries again: once its cache is empty and searches on its
    session fail, every further job is answered with an internal error, the
    session is not replaced, and no reset is attempted, however long the
    module has been able to open sessions again. *)
Theorem lost_session_is_never_reopened P jobs s :
  gone P (session s.1) → P (world s.2) → handles s.1 = ∅ →
  let '(rs, s') := serve_all jobs s in
  Forall (λ r, r = Err (PInternal "C_FindObjects failed")) rs ∧
  s'.1 = s.1 ∧ cget SessionResets s' = cget SessionResets s.
Proof.
  revert s. induction jobs as [|[[t1 t2] job] jobs IH]; intros s Hg HP Hh; [done|].
  unfold serve_all in *. simpl. change (serve_with handle) with serve.
  pose proof (serve_gone P t1 t2 job s Hg HP Hh) as Hs.
  destruct (serve t1 t2 job s) as [r s1]. destruct Hs as (Hr&Hw&HP1&Hc).
  specialize (IH s1). rewrite Hw in IH. specialize (IH Hg HP1 Hh).
  destruct (serve_all_with handle jobs s1) as [rs s2].
  destruct IH as (IHr&IHw&IHc). split; [by constructor|]. split; [done|]. exact (eq_trans IHc Hc).
Qed.
End stuck.

(** ** Witnesses *)

Module WorkerWitness.
Import Toy.

#[export] Instance toy_read_only : ReadOnlyQueries toy_token.
Proof.
  refine {| view := toy_view : World → Session → list Attribute → result (list ObjectHandle) CkError |};
    try done.
  intros x mech h d w t hs Hv Hnf. simpl in *. unfold toy_sign in *.
  destruct (fuse w) as [[|n]|]; [|exact Hv|exact Hv].
  specialize (Hnf _ eq_refl). discriminate Hnf.
Defined.

#[export] Instance toy_sessions : SessionTable toy_token.
Proof.
  refine (Build_SessionTable toy_token (_ : EqDecision nat)
            (λ w (x : nat), x ∈ opened w ∧ (x < next w)%nat) _ _ _ _ _ _ _ _ _ _);
    try (intros; intros w y; done); simpl.
  - intros _ _ w. unfold toy_open. destruct (refuse w); [|by intros y]. simpl.
    split; [lia|]. intros y. rewrite elem_of_cons. split.
    + intros [[->|?] ?]; [by left|].
      destruct (decide (y = next w)); [by left|right; split; [done|lia]].
    + intros [->|[? ?]]; (split; [|lia]); [by left|by right].
  - intros x w y. rewrite list_elem_of_filter. naive_solver.
  - intros x pin w y. by repeat case_match.
  - intros x m h d w y. unfold toy_sign. by destruct (fuse w) as [[|n]|].
Defined.

Definition sign_job : Job := mkJob (JSign "demo" Crypto.Ecdsa (replicate 32 x07)) 0 0.
Definition decrypt_job : Job := mkJob (JDecrypt "aes" [x01] [] (replicate 12 x00)) 1 5.

(** A worker on the demo token, whose session breaks at the [fuse]-th
    signature and which then finds [refuse] attempts to reopen refused. *)
Definition demo_state (f : option nat) (r : nat) : WState (CK := toy_token) :=
  let w := mkWorld (objects demo_world) true [0%nat] 1 [] f r in
  (mkWorker 0 tt 0%nat demo_config 0%nat ∅, mkShared pool_metrics_default [] w).

Definition demo_jobs : list (Z * Z * Job) :=
  [(1, 2, sign_job); (3, 4, sign_job); (6, 7, decrypt_job); (8, 9, sign_job)].

Lemma handle_cache_transparent_witness :
  (serve_all demo_jobs (demo_state (Some 1%nat) 0)).1 =
  [Ok (Signature (replicate 64 x07)); Err (Hsm "C_Sign" (Pkcs11 SessionClosed "C_Sign"));
   Err (InvalidRequest "ciphertext failed authentication");
   Ok (Signature (replicate 64 x07))] ∧
  (serve_all demo_jobs (demo_state (Some 1%nat) 0)).1 =
  (serve_all_with search demo_jobs (demo_state (Some 1%nat) 0)).1.
Proof.
  split; [vm_compute; reflexivity|].
  apply (handle_cache_transparent demo_jobs (demo_state (Some 1%nat) 0)). reflexivity.
Defined.

(** Opened on the demo token, used until its session breaks, and retired. *)
Definition demo_opened : TWorld := mkWorld (objects demo_world) true [0%nat] 1 [] (Some 1%nat) 0.
Definition demo_fused : TWorld := mkWorld (objects demo_world) false [] 0 [] (Some 1%nat) 0.

Lemma worker_sessions_balanced_witness :
  held (world (run demo_jobs (mkWorker (CK := toy_token) 0 tt 0%nat demo_config 0%nat ∅,
                              mkShared (CK := toy_token) pool_metrics_default [] demo_opened)).2.2)
    (1%nat : Session (Cryptoki := toy_token)) ↔
  held demo_fused (1%nat : Session (Cryptoki := toy_token)).
Proof.
  apply (worker_sessions_balanced (CK := toy_token) 0 tt 0%nat demo_config
    (mkShared (CK := toy_token) pool_metrics_default [] demo_fused) _ demo_opened demo_jobs).
  reflexivity.
Defined.

Lemma lost_session_is_never_reopened_witness :
  let s := (serve_all [(1, 2, sign_job)] (demo_state (Some 0%nat) 1)).2 in
  refuse (world (CK := toy_token) s.2) = 0%nat ∧ is_ok (toy_open (world s.2)).1 = true ∧
  Forall (λ r, r = Err (PInternal "C_FindObjects failed"))
    (serve_all [(3, 4, sign_job); (5, 6, decrypt_job)] s).1.
Proof.
  intros s. split; [vm_compute; reflexivity|]. split; [vm_compute; reflexivity|].
  pose proof (lost_session_is_never_reopened (CK := toy_token) (λ w : TWorld, 0%nat ∈ broken w)
    [(3, 4, sign_job); (5, 6, decrypt_job)] s) as H.
  destruct (serve_all [(3, 4, sign_job); (5, 6, decrypt_job)] s) as [rs s'].
  apply H.
  - intros w t Hw. exists (rv SessionHandleInvalid "C_FindObjectsInit"), w. split; [|done].
    change (find_objects (session s.1) t w) with (toy_view w 0 t, w).
    unfold toy_view, alive. rewrite (bool_decide_eq_false_2 (0%nat ∉ broken w)) by tauto.
    by rewrite andb_false_r.
  - vm_compute. left.
  - reflexivity.
Defined.
End WorkerWitness.
