(* ===== verification/Pool.v ===== *)
(** * The worker pool ([pkcs11/pool.rs])

    N workers, each on its own thread, take jobs from one bounded channel;
    [submit] puts a job on it, or is refused at once, and then waits for the
    answer on a one-shot channel until [job_timeout].  The pool is a transition
    system: submitters, workers, the clock and cancellation interleave freely.
    A job's PKCS#11 work happens in the step in which its worker finishes it.

    [flume]'s channel is the class [Channel]; [tokio]'s one-shot channel and
    [timeout] are the rules that deliver an answer, and that give up when the
    deadline has passed and no answer is there. *)
From S2P Require Import Prelude RustStd Deps Session Crypto Toy Worker.

Local Open Scope Z_scope.

(** ** Configuration *)

Record PoolConfig := mkPoolConfig { cfg_workers : Z; cfg_queue_depth : Z; cfg_job_timeout : Z }.

(** [available_parallelism] is what the host reports. *)
Definition PoolConfig_default (available_parallelism : option Z) : PoolConfig :=
  let workers := default 4 available_parallelism in
  {| cfg_workers := workers; cfg_queue_depth := wrap_u64 (workers * 2); cfg_job_timeout := from_secs 5 |}.

Definition env_usize (e : env) (key : string) : option Z := e key ≫= parse_uint 64.

Definition PoolConfig_from_env (available_parallelism : option Z) (e : env) : PoolConfig :=
  let defaults := PoolConfig_default available_parallelism in
  {| cfg_workers := default (cfg_workers defaults) (env_usize e "HSM_WORKERS");
     cfg_queue_depth := default (cfg_queue_depth defaults) (env_usize e "HSM_QUEUE_DEPTH");
     cfg_job_timeout := default (cfg_job_timeout defaults)
                          (from_millis <$> env_usize e "HSM_JOB_TIMEOUT_MS") |}.

(** ** The channel

    [flume::bounded]: [try_send] appends while there is room, [recv] takes the
    oldest job.  The laws are for a positive capacity: a channel of capacity
    zero is a rendezvous. *)

Inductive TrySendError := Full | Disconnected.

Class Channel := {
  Chan : Type;
  bounded : nat → Chan;
  (** the last receiver was dropped *)
  drop_receivers : Chan → Chan;
  try_send : Job → Chan → result unit TrySendError * Chan;
  recv : Chan → option Job * Chan;
  chan_len : Chan → nat
}.

Class ChannelOk (C : Channel) := {
  capacity : Chan → nat;
  contents : Chan → list Job;
  has_receivers : Chan → bool;
  bounded_ok n :
    (0 < n)%nat →
    capacity (bounded n) = n ∧ contents (bounded n) = [] ∧ has_receivers (bounded n) = true;
  drop_receivers_ok c :
    has_receivers (drop_receivers c) = false ∧ capacity (drop_receivers c) = capacity c ∧
    contents (drop_receivers c) = contents c;
  try_send_ok j c :
    (0 < capacity c)%nat →
    let '(r, c') := try_send j c in
    capacity c' = capacity c ∧ has_receivers c' = has_receivers c ∧
    (if negb (has_receivers c) then r = Err Disconnected ∧ contents c' = contents c
     else if (length (contents c) <? capacity c)%nat then r = Ok tt ∧ contents c' = contents c ++ [j]
     else r = Err Full ∧ contents c' = contents c);
  recv_ok c :
    let '(r, c') := recv c in
    capacity c' = capacity c ∧ has_receivers c' = has_receivers c ∧
    r = head (contents c) ∧ contents c' = tail (contents c);
  chan_len_ok c : chan_len c = length (contents c)
}.

(** ** State *)

Section pool.
Context {CK : Cryptoki} {CL : CryptoLib} {CH : Channel}.

Abbreviation outcome := (result JobResponse PoolError).

(** Where a worker's loop is: waiting on the channel, executing a job taken
    at some time, or past the loop. *)
Inductive Phase := Idle | Busy (job : Job) (taken_at : Z) | Exited.

Record Pool := mkPool {
  tx : Chan;
  (** [shutdown] drops the sender *)
  tx_open : bool;
  workers : list (Worker * Phase);
  job_timeout : Z;
  shared : Shared;
  (** submitters that await an answer, with their deadlines *)
  awaiting : gmap nat Z;
  (** answers sent and not yet received *)
  sent : gmap nat outcome;
  (** what [submit] returned, latest first *)
  returned : list (nat * outcome);
  (** the request of every call, and a fresh name for the next *)
  calls : gmap nat JobRequest;
  next_call : nat;
  clock : Z
}.

Definition with_metrics (f : PoolMetrics → PoolMetrics) (p : Pool) : Pool :=
  mkPool (tx p) (tx_open p) (workers p) (job_timeout p)
    (mkShared (f (metrics (shared p))) (histograms (shared p)) (world (shared p)))
    (awaiting p) (sent p) (returned p) (calls p) (next_call p) (clock p).

Definition with_tx (c : Chan) (p : Pool) : Pool :=
  mkPool c (tx_open p) (workers p) (job_timeout p) (shared p) (awaiting p) (sent p) (returned p)
    (calls p) (next_call p) (clock p).

Definition with_worker (i : nat) (w : Worker * Phase) (p : Pool) : Pool :=
  mkPool (tx p) (tx_open p) (<[i := w]> (workers p)) (job_timeout p) (shared p) (awaiting p)
    (sent p) (returned p) (calls p) (next_call p) (clock p).

Definition with_shared (s : Shared) (p : Pool) : Pool :=
  mkPool (tx p) (tx_open p) (workers p) (job_timeout p) s (awaiting p) (sent p) (returned p)
    (calls p) (next_call p) (clock p).

Definition with_awaiting (a : gmap nat Z) (p : Pool) : Pool :=
  mkPool (tx p) (tx_open p) (workers p) (job_timeout p) (shared p) a (sent p) (returned p)
    (calls p) (next_call p) (clock p).

Definition with_sent (m : gmap nat outcome) (p : Pool) : Pool :=
  mkPool (tx p) (tx_open p) (workers p) (job_timeout p) (shared p) (awaiting p) m (returned p)
    (calls p) (next_call p) (clock p).

(** [submit] returns to its caller. *)
Definition return_call (id : nat) (o : outcome) (p : Pool) : Pool :=
  mkPool (tx p) (tx_open p) (workers p) (job_timeout p) (shared p) (delete id (awaiting p))
    (delete id (sent p)) ((id, o) :: returned p) (calls p) (next_call p) (clock p).

Definition queue_len (p : Pool) : nat := chan_len (tx p).

(** ** [submit] *)

(** Until the answer is awaited: a fresh one-shot channel, the job, and
    [try_send]. *)
Definition submit (req : JobRequest) (p0 : Pool) : Pool :=
  let id := next_call p0 in
  let p := with_metrics (incr_counter Submitted)
             (mkPool (tx p0) (tx_open p0) (workers p0) (job_timeout p0) (shared p0) (awaiting p0)
                (sent p0) (returned p0) (<[id := req]> (calls p0)) (S id) (clock p0)) in
  let job := mkJob req id (clock p) in
  let '(r, c) := try_send job (tx p) in
  let p1 := with_tx c p in
  match r with
  | Ok _ => with_awaiting (<[id := clock p + job_timeout p]> (awaiting p1)) p1
  | Err Full =>
      return_call id (Err Overloaded) (with_metrics (incr_counter RejectedQueueFull) p1)
  | Err Disconnected => return_call id (Err ShuttingDown) p1
  end.

(** [timeout(job_timeout, result_rx).await]: the answer if it is there, else
    the timeout once the deadline has passed. *)
Definition poll (id : nat) (p : Pool) : Pool :=
  match awaiting p !! id with
  | None => p
  | Some deadline =>
      match sent p !! id with
      | Some o => return_call id o p
      | None =>
          if deadline <=? clock p then
            return_call id (Err Timeout) (with_metrics (incr_counter TimedOut) p)
          else p
      end
  end.

(** The caller's future is dropped, for instance because its client went
    away: nobody receives the answer. *)
Definition cancel (id : nat) (p : Pool) : Pool :=
  with_sent (delete id (sent p)) (with_awaiting (delete id (awaiting p)) p).

(** ** The workers *)

(** [rx.recv()] yields a job. *)
Definition worker_take (i : nat) (p : Pool) : Pool :=
  match workers p !! i with
  | Some (w, Idle) =>
      let '(r, c) := recv (tx p) in
      match r with
      | Some job => with_worker i (w, Busy job (clock p)) (with_tx c p)
      | None => p
      end
  | _ => p
  end.

(** The rest of the loop's body.  The answer is lost if its receiver is
    gone. *)
Definition worker_finish (i : nat) (p : Pool) : Pool :=
  match workers p !! i with
  | Some (w, Busy job t1) =>
      let '(r, (w', sh')) := serve t1 (clock p) job (w, shared p) in
      let p1 := with_worker i (w', Idle) (with_shared sh' p) in
      if decide (is_Some (awaiting p !! responder job))
      then with_sent (<[responder job := r]> (sent p1)) p1
      else p1
  | _ => p
  end.

(** [rx.recv()] fails: the sender is gone and the queue empty. *)
Definition worker_exit (i : nat) (p : Pool) : Pool :=
  match workers p !! i with
  | Some (w, Idle) =>
      if negb (tx_open p) && (chan_len (tx p) =? 0)%nat then
        let '(w', sh') := retire (w, shared p) in
        with_worker i (w', Exited) (with_shared sh' p)
      else p
  | _ => p
  end.

(** [shutdown] drops the sender and then waits for the workers.  It consumes
    the pool, so no [submit] is pending. *)
Definition shutdown (p : Pool) : Pool :=
  mkPool (tx p) false (workers p) (job_timeout p) (shared p) (awaiting p) (sent p) (returned p)
    (calls p) (next_call p) (clock p).

(** ** The transition system *)

Inductive action :=
| ASubmit (req : JobRequest) | APoll (id : nat) | ACancel (id : nat)
| ATake (i : nat) | AFinish (i : nat) | AExit (i : nat) | AShutdown | ATick (d : Z).

Definition tick (d : Z) (p : Pool) : Pool :=
  mkPool (tx p) (tx_open p) (workers p) (job_timeout p) (shared p) (awaiting p) (sent p)
    (returned p) (calls p) (next_call p) (clock p + Z.max 0 d).

Definition apply (a : action) (p : Pool) : Pool :=
  match a with
  | ASubmit req => submit req p
  | APoll id => poll id p
  | ACancel id => cancel id p
  | ATake i => worker_take i p
  | AFinish i => worker_finish i p
  | AExit i => worker_exit i p
  | AShutdown => shutdown p
  | ATick d => tick d p
  end.

(** [shutdown] owns the pool: no call is pending, and none is made after. *)
Definition enabled (a : action) (p : Pool) : bool :=
  match a with
  | ASubmit _ => tx_open p
  | AShutdown => bool_decide (awaiting p = ∅)
  | _ => true
  end.

Inductive step : Pool → Pool → Prop :=
| step_intro a p : enabled a p = true → step p (apply a p).

(** ** [start]

    The threads open their sessions in some order; [spawn_error] is the
    operating system refusing a thread. *)

Fixpoint open_all (ctx : Context) (sl : Slot) (tok : TokenConfig) (order : list nat) :
    st World (list (result Worker PoolError)) :=
  match order with
  | [] => st_ret []
  | i :: rest => λ w,
      let '(r, w1) := worker_new (Z.of_nat i) ctx sl tok w in
      let '(rs, w2) := open_all ctx sl tok rest w1 in
      (r :: rs, w2)
  end.

(** The loop over [ready_rx.recv()]: the first failure is the result. *)
Fixpoint await_ready (rs : list (result Worker PoolError)) : result (list Worker) PoolError :=
  match rs with
  | [] => Ok []
  | Err e :: _ => Err e
  | Ok w :: rs => match await_ready rs with Ok ws => Ok (w :: ws) | Err e => Err e end
  end.

(** A failed start drops the sender: the workers that did start leave their
    loops, and the module is finalized after the last. *)
Definition abandon (ctx : Context) (rs : list (result Worker PoolError)) (w : World) : World :=
  finalize ctx
    (foldl (λ w r, match r with
                   | Ok wk => world (retire (wk, mkShared pool_metrics_default [] w)).2
                   | Err _ => w
                   end) w rs).

Definition first_spawn_error (spawn_error : nat → option string) (n : nat) : option (nat * string) :=
  head (omap (λ i, (λ e, (i, e)) <$> spawn_error i) (seq 0 n)).

Definition start (spawn_error : nat → option string) (order : list nat) (now : Z)
    (tok : TokenConfig) (config : PoolConfig) : stR World PoolError Pool :=
  λ w0,
    let n := Z.to_nat (cfg_workers config) in
    match load_module tok w0 with
    | (Err e, w) =>
        (Err (PInternal ("failed to open token: " +:+ any_alternate show_error e)), w)
    | (Ok (ctx, sl), w) =>
        match first_spawn_error spawn_error n with
        | Some (i, e) =>
            let '(rs, w') := open_all ctx sl tok (filter (λ j, (j < i)%nat) order) w in
            (Err (PInternal ("failed to spawn worker: " +:+ e)), abandon ctx rs w')
        | None =>
            let '(rs, w') := open_all ctx sl tok order w in
            match await_ready rs with
            | Err e => (Err e, abandon ctx rs w')
            | Ok ws =>
                let c := bounded (Z.to_nat (cfg_queue_depth config)) in
                (Ok (mkPool (if (n =? 0)%nat then drop_receivers c else c) true
                       ((λ wk, (wk, Idle)) <$> ws) (cfg_job_timeout config)
                       (mkShared pool_metrics_default [] w') ∅ ∅ [] ∅ 0 now), w')
            end
        end
    end.
End pool.

(** ** Reachable states *)

Section invariant.
Context {CK : Cryptoki} {CL : CryptoLib} {CH : Channel} {CHO : ChannelOk CH}.
Implicit Types p : Pool.

Abbreviation outcome := (result JobResponse PoolError).

(** What a worker answers: a response of the kind that was asked for, or an
    error about the request or the token, never one of the errors [submit]
    itself makes. *)
Definition from_worker (req : JobRequest) (o : outcome) : Prop :=
  match o with
  | Ok r => answers req r = true
  | Err (Overloaded | Timeout | ShuttingDown) => False
  | Err _ => True
  end.

Definition from_submit (o : outcome) : Prop :=
  o = Err Overloaded ∨ o = Err Timeout ∨ o = Err ShuttingDown.

Definition ids (js : list Job) : list nat := responder <$> js.

(** The calls' ledger, over the jobs in flight in any order. *)
Record ledger (js : list Job) (aw : gmap nat Z) (se : gmap nat outcome)
    (rt : list (nat * outcome)) (cs : gmap nat JobRequest) (n : nat) : Prop := {
  (** a job is in flight once, under the name and request of its call *)
  l_nodup : NoDup (ids js);
  l_jobs j : j ∈ js → cs !! responder j = Some (request j);
  (** an awaited call is in flight or answered, and not both *)
  l_awaiting i : is_Some (aw !! i) → i ∈ ids js ∨ is_Some (se !! i);
  l_sent i o : se !! i = Some o →
    is_Some (aw !! i) ∧ i ∉ ids js ∧ ∃ req, cs !! i = Some req ∧ from_worker req o;
  (** a call returns at most once, and is then over *)
  l_returned_once : NoDup rt.*1;
  l_returned i o : (i, o) ∈ rt →
    aw !! i = None ∧ ∃ req, cs !! i = Some req ∧ (from_worker req o ∨ from_submit o);
  l_calls i : is_Some (cs !! i) ↔ (i < n)%nat;
  l_awaited_call i : is_Some (aw !! i) → is_Some (cs !! i)
}.

#[global] Instance ledger_proper : Proper ((≡ₚ) ==> (=) ==> (=) ==> (=) ==> (=) ==> (=) ==> impl) ledger.
Proof.
  intros js js' Hp ? aw -> ? se -> ? rt -> ? cs -> ? n -> [].
  assert (ids js ≡ₚ ids js') as Hids by (by apply fmap_Permutation).
  split; try done.
  - by rewrite <-Hids.
  - intros j. rewrite <-Hp. auto.
  - intros i. rewrite <-Hids. auto.
  - intros i o. rewrite <-Hids. eauto.
Qed.

Section transitions.
Context (js : list Job) (aw : gmap nat Z) (se : gmap nat outcome).
Context (rt : list (nat * outcome)) (cs : gmap nat JobRequest) (n : nat).
Hypothesis L : ledger js aw se rt cs n.

Lemma fresh_call : cs !! n = None.
Proof.
  destruct (cs !! n) eqn:H; [|done].
  assert (n < n)%nat by (apply (l_calls _ _ _ _ _ _ L); eauto). lia.
Qed.

Lemma fresh_ids : n ∉ ids js.
Proof.
  intros Hin. apply list_elem_of_fmap in Hin as (j&Hn&Hj).
  apply (l_jobs _ _ _ _ _ _ L) in Hj. rewrite <-Hn, fresh_call in Hj. done.
Qed.

Lemma fresh_awaiting : aw !! n = None.
Proof.
  destruct (aw !! n) eqn:H; [|done].
  destruct (l_awaited_call _ _ _ _ _ _ L n) as [? Hc]; [eauto|]. by rewrite fresh_call in Hc.
Qed.

Lemma fresh_returned : n ∉ rt.*1.
Proof.
  intros Hin. apply list_elem_of_fmap in Hin as ([i o]&Hn&Hio). simpl in Hn.
  apply (l_returned _ _ _ _ _ _ L) in Hio as (_&req&Hc&_).
  by rewrite <-Hn, fresh_call in Hc.
Qed.

Lemma calls_insert (req : JobRequest) i :
  is_Some (<[n := req]> cs !! i) ↔ (i < S n)%nat.
Proof.
  destruct (decide (i = n)) as [->|Hne]; [rewrite lookup_insert_eq; split; [lia|eauto]|].
  rewrite lookup_insert_ne by done. rewrite (l_calls _ _ _ _ _ _ L). lia.
Qed.

Lemma calls_mono (req : JobRequest) i r : cs !! i = Some r → <[n := req]> cs !! i = Some r.
Proof. intros Hi. rewrite lookup_insert_ne; [done|]. intros <-. by rewrite fresh_call in Hi. Qed.

(** A job is accepted. *)
Lemma ledger_accept req t d :
  ledger (mkJob req n t :: js) (<[n := d]> aw) se rt (<[n := req]> cs) (S n).
Proof.
  split.
  - constructor; [apply fresh_ids|apply L].
  - intros j [->|Hj]%elem_of_cons; [by rewrite lookup_insert_eq|].
    by apply calls_mono, (l_jobs _ _ _ _ _ _ L).
  - intros i Hi. simpl. destruct (decide (i = n)) as [->|Hne]; [left; left|].
    rewrite lookup_insert_ne in Hi by done.
    destruct (l_awaiting _ _ _ _ _ _ L i Hi); [left; by right|by right].
  - intros i o Hi. destruct (l_sent _ _ _ _ _ _ L i o Hi) as (Ha&Hn&r&Hc&Ho).
    assert (i ≠ n) by (intros ->; by rewrite fresh_call in Hc).
    rewrite lookup_insert_ne by done. split; [done|].
    split; [by intros [Hi'|?]%elem_of_cons|]. eauto using calls_mono.
  - apply L.
  - intros i o Hi. destruct (l_returned _ _ _ _ _ _ L i o Hi) as (Ha&r&Hc&Ho).
    rewrite lookup_insert_ne by (intros <-; by rewrite fresh_call in Hc).
    split; [done|]. eauto using calls_mono.
  - apply calls_insert.
  - intros i. destruct (decide (i = n)) as [->|Hne]; [rewrite !lookup_insert_eq; eauto|].
    rewrite !lookup_insert_ne by done. apply L.
Qed.

(** A call is refused at once. *)
Lemma ledger_refuse req o :
  from_submit o →
  ledger js (delete n aw) (delete n se) ((n, o) :: rt) (<[n := req]> cs) (S n).
Proof.
  intros Ho. rewrite (delete_id aw n) by apply fresh_awaiting.
  assert (se !! n = None) as Hse.
  { destruct (se !! n) as [o'|] eqn:H; [|done].
    destruct (l_sent _ _ _ _ _ _ L n o' H) as ((d&Hd)&_). by rewrite fresh_awaiting in Hd. }
  rewrite (delete_id se n) by done. split.
  - apply L.
  - intros j Hj. by apply calls_mono, (l_jobs _ _ _ _ _ _ L).
  - apply L.
  - intros i o' Hi. destruct (l_sent _ _ _ _ _ _ L i o' Hi) as (Ha&Hn&r&Hc&Ho').
    eauto 6 using calls_mono.
  - constructor; [apply fresh_returned|apply L].
  - intros i o' [[= -> ->]|Hi]%elem_of_cons.
    + split; [apply fresh_awaiting|]. rewrite lookup_insert_eq. eauto.
    + destruct (l_returned _ _ _ _ _ _ L i o' Hi) as (Ha&r&Hc&Ho'). eauto 6 using calls_mono.
  - apply calls_insert.
  - intros i Hi. destruct (l_awaited_call _ _ _ _ _ _ L i Hi) as [r Hr].
    eauto using calls_mono.
Qed.

(** An awaited call returns, with its answer or without. *)
Lemma ledger_return i o :
  is_Some (aw !! i) → (se !! i = Some o ∨ from_submit o) →
  ledger js (delete i aw) (delete i se) ((i, o) :: rt) cs n.
Proof.
  intros Hi Ho.
  assert (i ∉ rt.*1) as Hnr.
  { intros Hin. apply list_elem_of_fmap in Hin as ([i' o']&->&Hio).
    destruct (l_returned _ _ _ _ _ _ L _ _ Hio) as [Ha _]. simpl in Hi. destruct Hi. congruence. }
  split; try apply L.
  - intros k Hk. destruct (decide (k = i)) as [->|Hne].
    { rewrite lookup_delete_eq in Hk. by destruct Hk. }
    rewrite lookup_delete_ne in Hk by done. rewrite lookup_delete_ne by done. by apply L.
  - intros k o' Hk. apply lookup_delete_Some in Hk as [Hne Hk].
    rewrite lookup_delete_ne by done. by apply L.
  - by constructor; [|apply L].
  - intros k o' [[= -> ->]|Hk]%elem_of_cons.
    + rewrite lookup_delete_eq. split; [done|].
      destruct (l_awaited_call _ _ _ _ _ _ L i Hi) as [r Hr].
      destruct Ho as [Ho|Ho]; [|eauto].
      destruct (l_sent _ _ _ _ _ _ L i o Ho) as (_&_&req&Hc&Hw). eauto.
    + destruct (l_returned _ _ _ _ _ _ L k o' Hk) as (Ha&Hc). split; [|done].
      rewrite lookup_delete_ne; [done|]. intros ->. destruct Hi. congruence.
  - intros k Hk. apply (l_awaited_call _ _ _ _ _ _ L). destruct Hk as [d Hd]. apply lookup_delete_Some in Hd as [_ Hd]. eauto.
Qed.

(** An awaited call is dropped. *)
Lemma ledger_cancel i : ledger js (delete i aw) (delete i se) rt cs n.
Proof.
  split; try apply L.
  - intros k Hk. destruct (decide (k = i)) as [->|Hne].
    { rewrite lookup_delete_eq in Hk. by destruct Hk. }
    rewrite lookup_delete_ne in Hk by done. rewrite lookup_delete_ne by done. by apply L.
  - intros k o' Hk. apply lookup_delete_Some in Hk as [Hne Hk].
    rewrite lookup_delete_ne by done. by apply L.
  - intros k o' Hk. destruct (l_returned _ _ _ _ _ _ L k o' Hk) as (Ha&Hc). split; [|done].
    by apply lookup_delete_None; right.
  - intros k Hk. apply (l_awaited_call _ _ _ _ _ _ L). destruct Hk as [d Hd]. apply lookup_delete_Some in Hd as [_ Hd]. eauto.
Qed.
End transitions.

(** A worker answers a job. *)
Lemma ledger_answer j js aw se rt cs n o :
  ledger (j :: js) aw se rt cs n → from_worker (request j) o →
  ledger js aw
    (if decide (is_Some (aw !! responder j)) then <[responder j := o]> se else se) rt cs n.
Proof.
  intros L Ho. pose proof (l_nodup _ _ _ _ _ _ L) as [Hj Hnd]%NoDup_cons.
  split; try apply L; try done.
  - intros k Hk. apply (l_jobs _ _ _ _ _ _ L). by right.
  - intros i Hi. destruct (l_awaiting _ _ _ _ _ _ L i Hi) as [[->|Hin]%elem_of_cons|Hs].
    + right. rewrite decide_True by done. rewrite lookup_insert_eq. eauto.
    + by left.
    + right. case_decide; [|done]. destruct (decide (i = responder j)) as [->|].
      * rewrite lookup_insert_eq. eauto.
      * by rewrite lookup_insert_ne.
  - intros i o'.
    assert (se !! i = Some o' → is_Some (aw !! i) ∧ i ∉ ids js ∧
              ∃ req, cs !! i = Some req ∧ from_worker req o') as Hold.
    { intros Hs. destruct (l_sent _ _ _ _ _ _ L i o' Hs) as (Ha&Hn&Hc).
      split; [done|]. split; [|done]. intros Hin. apply Hn. by right. }
    case_decide as Hd; [|done].
    destruct (decide (i = responder j)) as [->|]; [|by rewrite lookup_insert_ne].
    rewrite lookup_insert_eq. intros [= <-]. split; [done|]. split; [done|].
    exists (request j). split; [|done]. apply (l_jobs _ _ _ _ _ _ L). left.
Qed.

(** ** The invariant *)

Lemma search_error kind label s e s' :
  search kind label s = (Err e, s') → e ≠ Overloaded ∧ e ≠ Timeout ∧ e ≠ ShuttingDown.
Proof.
  unfold search, call, stR_map_err, map_err, to_internal. intros H. by split_cases.
Qed.

Lemma handle_error kind label s e s' :
  handle kind label s = (Err e, s') → e ≠ Overloaded ∧ e ≠ Timeout ∧ e ≠ ShuttingDown.
Proof.
  unfold handle. intros H. split_cases. by eapply search_error.
Qed.

Lemma dispatch_from_worker req s : from_worker req (dispatch_with handle req s).1.
Proof.
  destruct (dispatch_with handle req s) as [[r|e] s'] eqn:Hd; simpl.
  { by eapply dispatch_answers. }
  rewrite dispatch_perform in Hd.
  destruct (handle (key_kind req) (key_label_of req) s) as [[key|e'] s1] eqn:Hh.
  - unfold perform in Hd. destruct req; simpl in Hd; unfold_st; unfold on_session, call in Hd;
      split_cases; done.
  - simplify_eq. apply handle_error in Hh. destruct e; naive_solver.
Qed.

Lemma serve_from_worker t1 t2 job s : from_worker (request job) (serve t1 t2 job s).1.
Proof. unfold serve. rewrite serve_result. apply dispatch_from_worker. Qed.

Lemma serve_pool_counters t1 t2 job s c :
  c = Submitted ∨ c = RejectedQueueFull ∨ c = TimedOut →
  cget c (serve t1 t2 job s).2 = cget c s.
Proof.
  intros Hc. unfold serve, serve_with. change (execute_with handle) with execute.
  assert (cget c (execute (request job) s).2 = cget c s) as He.
  { destruct Hc as [->|[->| ->]]; rewrite execute_cget, handle_cget_other; done. }
  destruct (execute (request job) s) as [r s1]. simpl in He. rewrite <-He.
  destruct r; destruct Hc as [->|[->| ->]]; done.
Qed.

Definition busy_job (w : Worker * Phase) : option Job :=
  match w.2 with Busy job _ => Some job | _ => None end.

(** The jobs in flight: queued, or with a worker. *)
Definition jobs p : list Job := contents (tx p) ++ omap busy_job (workers p).

Definition returned_with (e : PoolError) p : Z :=
  Z.of_nat (length (filter (λ r : nat * outcome, r.2 = Err e) (returned p))).

Record pool_ok p : Prop := {
  ok_capacity : (0 < capacity (tx p))%nat;
  ok_bound : (length (contents (tx p)) ≤ capacity (tx p))%nat;
  ok_ledger : ledger (jobs p) (awaiting p) (sent p) (returned p) (calls p) (next_call p);
  ok_submitted : counter_get Submitted (metrics (shared p)) = wrap_u64 (Z.of_nat (next_call p));
  ok_rejected :
    counter_get RejectedQueueFull (metrics (shared p)) = wrap_u64 (returned_with Overloaded p);
  ok_timed_out : counter_get TimedOut (metrics (shared p)) = wrap_u64 (returned_with Timeout p);
  (** a worker leaves only after the sender is gone and the queue is empty *)
  ok_exited w : (w, Exited) ∈ workers p → tx_open p = false ∧ contents (tx p) = []
}.

Lemma elem_of_insert_inv {A} (l : list A) i x y : x ∈ <[i := y]> l → x = y ∨ x ∈ l.
Proof.
  intros [k Hk]%list_elem_of_lookup. apply list_lookup_insert_Some in Hk as [(_&->&_)|[_ Hk]];
    [by left|]. right. by eapply list_elem_of_lookup_2.
Qed.

Lemma omap_insert_Permutation {A B} (f : A → option B) (l : list A) i x y :
  l !! i = Some x →
  omap f (<[i := y]> l) ++ option_list (f x) ≡ₚ option_list (f y) ++ omap f l.
Proof.
  intros Hi. rewrite <-(take_drop_middle l i x Hi) at 2.
  rewrite insert_take_drop by (by eapply lookup_lt_Some).
  rewrite !omap_app. simpl. destruct (f x), (f y); simpl; solve_Permutation.
Qed.

Lemma incr_wrap n : incr (wrap_u64 n) = wrap_u64 (n + 1).
Proof. unfold incr, fetch_add. apply wrap_add_l. Qed.

Lemma returned_with_cons e id o p p' :
  returned p' = (id, o) :: returned p →
  returned_with e p' = returned_with e p + (if decide (o = Err e) then 1 else 0).
Proof.
  intros Hr. unfold returned_with. rewrite Hr, filter_cons. simpl.
  case_decide; simpl; lia.
Qed.

#[local] Arguments counter_get _ _ : simpl never.
#[local] Arguments incr_counter _ _ : simpl never.

Lemma submit_ok req p : tx_open p = true → pool_ok p → pool_ok (submit req p).
Proof.
  intros Hopen [Hc Hb L Hs Hr Ht Hx]. unfold submit. cbn [tx with_metrics].
  set (job := mkJob _ _ _).
  pose proof (try_send_ok job (tx p) Hc) as Hsend.
  destruct (try_send job (tx p)) as [r c].
  destruct Hsend as (Hcap&Hrec&Hcase).
  assert (∃ e, r = Ok tt ∧ contents c = contents (tx p) ++ [job] ∧
               (length (contents (tx p)) < capacity (tx p))%nat ∨
               r = Err e ∧ contents c = contents (tx p)) as [e [(->&Hcon&Hlt)|(->&Hcon)]].
  { destruct (negb (has_receivers (tx p))); [exists Disconnected; naive_solver|].
    destruct (Nat.ltb_spec (length (contents (tx p))) (capacity (tx p))); exists Full; naive_solver. }
  - split; cbn; rewrite ?Hcap; try done.
    + rewrite Hcon, length_app. simpl. lia.
    + assert (jobs (with_tx c p) ≡ₚ job :: jobs p) as Hj.
      { unfold jobs. simpl. rewrite Hcon. solve_Permutation. }
      unfold jobs in *. simpl in *. rewrite Hj. by apply ledger_accept.
    + rewrite counter_get_incr_eq, Hs, Nat2Z.inj_succ. apply incr_wrap.
    + intros w Hw. destruct (Hx w Hw). congruence.
  - assert (jobs (with_tx c p) = jobs p) as Hj by (unfold jobs; simpl; by rewrite Hcon).
    unfold jobs in Hj. simpl in Hj.
    destruct e; split; cbn; unfold jobs; cbn; rewrite ?Hcap, ?Hcon; try done.
    all: try (apply ledger_refuse; [done|]; unfold from_submit; tauto).
    all: try erewrite returned_with_cons by reflexivity; simpl.
    all: rewrite ?counter_get_incr; simpl; rewrite ?Hs, ?Hr, ?Ht, ?Z.add_0_r, ?incr_wrap; try done.
    all: by rewrite Nat2Z.inj_succ.
Qed.

Lemma poll_ok id p : pool_ok p → pool_ok (poll id p).
Proof.
  intros Hp. unfold poll. destruct (awaiting p !! id) as [d|] eqn:Ha; [|done].
  destruct Hp as [Hc Hb L Hs Hr Ht Hx].
  assert (is_Some (awaiting p !! id)) as Haw by eauto.
  destruct (sent p !! id) as [o|] eqn:Hsent; [|destruct (d <=? clock p); [|by split]].
  - assert (o ≠ Err Overloaded ∧ o ≠ Err Timeout) as [? ?].
    { destruct (l_sent _ _ _ _ _ _ L id o Hsent) as (_&_&req&_&Hw).
      destruct o as [|[]]; naive_solver. }
    split; cbn; try done.
    + apply ledger_return; auto.
    + erewrite returned_with_cons by reflexivity. rewrite decide_False by done.
      rewrite Z.add_0_r. apply Hr.
    + erewrite returned_with_cons by reflexivity. rewrite decide_False by done.
      rewrite Z.add_0_r. apply Ht.
  - split; cbn; try done.
    + apply ledger_return; [done..|]. right. unfold from_submit. tauto.
    + rewrite counter_get_incr_eq, Ht, incr_wrap. f_equal.
      symmetry. by apply (returned_with_cons Timeout id (Err Timeout) p).
Qed.

Lemma cancel_ok id p : pool_ok p → pool_ok (cancel id p).
Proof. intros [Hc Hb L Hs Hr Ht Hx]. split; cbn; try done. by apply ledger_cancel. Qed.

Lemma take_ok i p : pool_ok p → pool_ok (worker_take i p).
Proof.
  intros Hp. unfold worker_take. destruct (workers p !! i) as [[w []]|] eqn:Hw; try done.
  pose proof (recv_ok (tx p)) as Hrecv. destruct (recv (tx p)) as [[job|] c]; [|done].
  destruct Hrecv as (Hcap&_&Hhd&Htl). destruct Hp as [Hc Hb L Hs Hr Ht Hx].
  destruct (contents (tx p)) as [|j q] eqn:Hcon; [done|]. simpl in Hhd, Htl. injection Hhd as ->.
  split; cbn; rewrite ?Hcap, ?Htl; try done; [simpl in Hb; lia| |].
  2: { intros w' [?|Hw']%elem_of_insert_inv; [done|]. destruct (Hx w' Hw'). congruence. }
  eapply ledger_proper; [|done..|exact L]. unfold jobs. cbn. rewrite Hcon, Htl.
  pose proof (omap_insert_Permutation busy_job (workers p) i (w, Idle) (w, Busy j (clock p)) Hw)
    as HP. simpl in HP. rewrite app_nil_r in HP. rewrite HP. solve_Permutation.
Qed.

Lemma finish_ok i p : pool_ok p → pool_ok (worker_finish i p).
Proof.
  intros Hp. unfold worker_finish. destruct (workers p !! i) as [[w [|job t1|]]|] eqn:Hw; try done.
  destruct Hp as [Hc Hb L Hs Hr Ht Hx].
  pose proof (serve_from_worker t1 (clock p) job (w, shared p)) as Hfw.
  pose proof (serve_pool_counters t1 (clock p) job (w, shared p)) as Hcn.
  destruct (serve t1 (clock p) job (w, shared p)) as [r [w' sh']]. simpl in Hfw, Hcn.
  set (p1 := with_worker i (w', Idle) (with_shared sh' p)).
  assert (jobs p ≡ₚ job :: jobs p1) as Hj.
  { unfold jobs. cbn.
    pose proof (omap_insert_Permutation busy_job (workers p) i (w, Busy job t1) (w', Idle) Hw)
      as HP. simpl in HP. rewrite <-HP. solve_Permutation. }
  rewrite Hj in L. pose proof (ledger_answer _ _ _ _ _ _ _ _ L Hfw) as L'.
  unfold cget in Hcn. simpl in Hcn.
  assert (∀ w'', (w'', Exited) ∈ <[i := (w', Idle)]> (workers p) →
                 tx_open p = false ∧ contents (tx p) = []) as Hx'.
  { intros w'' [?|Hw'']%elem_of_insert_inv; [done|by eapply Hx]. }
  case_decide; (split; cbn; try done; rewrite Hcn by tauto; done).
Qed.

Lemma retire_metrics s : metrics (retire s).2 = metrics s.2.
Proof. unfold retire. by destruct (logout (session s.1) (world s.2)). Qed.

Lemma exit_ok i p : pool_ok p → pool_ok (worker_exit i p).
Proof.
  intros Hp. unfold worker_exit. destruct (workers p !! i) as [[w []]|] eqn:Hw; try done.
  destruct (negb (tx_open p) && (chan_len (tx p) =? 0)%nat) eqn:Hclosed; [|done].
  apply andb_true_iff in Hclosed as [Hopen%negb_true_iff Hlen%Nat.eqb_eq].
  rewrite chan_len_ok in Hlen. apply nil_length_inv in Hlen.
  pose proof (retire_metrics (w, shared p)) as Hm.
  destruct (retire (w, shared p)) as [w' sh']. simpl in Hm.
  destruct Hp as [Hc Hb L Hs Hr Ht Hx]. split; cbn; rewrite ?Hm; try done.
  eapply ledger_proper; [|done..|exact L]. unfold jobs. cbn. f_equiv.
  pose proof (omap_insert_Permutation busy_job (workers p) i (w, Idle) (w', Exited) Hw) as HP.
  simpl in HP. rewrite app_nil_r in HP. by rewrite HP.
Qed.

Lemma step_ok p p' : step p p' → pool_ok p → pool_ok p'.
Proof.
  intros [a q He] Hp. destruct a; simpl in *;
    auto using submit_ok, poll_ok, cancel_ok, take_ok, finish_ok, exit_ok.
  - destruct Hp as [Hc Hb L Hs Hr Ht Hx]. split; try done. intros w Hw. by destruct (Hx w Hw).
  - by destruct Hp.
Qed.

Lemma steps_ok p p' : rtc step p p' → pool_ok p → pool_ok p'.
Proof. induction 1; eauto using step_ok. Qed.

(** ** What holds of every reachable pool *)

(** A pool as [start] returns it. *)
Definition started p : Prop :=
  ∃ spawn_error order now tok config w w',
    0 < cfg_queue_depth config ∧ start spawn_error order now tok config w = (Ok p, w').

Definition reachable p : Prop := ∃ p0, started p0 ∧ rtc step p0 p.

Lemma ledger_empty : ledger [] ∅ ∅ [] ∅ 0.
Proof.
  split; try constructor; try set_solver; intros; try done.
  all: try (by destruct H). lia.
Qed.

Lemma started_ok p : started p → pool_ok p.
Proof.
  intros (se&order&now&tok&config&w&w'&Hq&Hs). unfold start in Hs.
  destruct (load_module tok w) as [[[ctx sl]|e] w1]; [|done].
  destruct (first_spawn_error _ _) as [[]|]; [by destruct (open_all _ _ _ _ _)|].
  destruct (open_all ctx sl tok order w1) as [rs w2].
  destruct (await_ready rs) as [ws|e]; simplify_eq.
  assert (0 < Z.to_nat (cfg_queue_depth config))%nat as Hpos by lia.
  pose proof (bounded_ok (Z.to_nat (cfg_queue_depth config)) Hpos) as (Hcap&Hcon&_).
  set (c := if (_ =? 0)%nat then _ else _).
  assert (capacity c = Z.to_nat (cfg_queue_depth config) ∧ contents c = []) as [Hcap' Hcon'].
  { unfold c. case_match; [|done]. destruct (drop_receivers_ok (bounded (Z.to_nat (cfg_queue_depth config)))) as (_&->&->). done. }
  split; cbn; try done; [lia|rewrite Hcon'; simpl; lia| |].
  - unfold jobs. cbn. rewrite Hcon'. simpl.
    assert (omap busy_job ((λ wk, (wk, Idle)) <$> ws) = []) as -> by (by induction ws).
    apply ledger_empty.
  - intros w0 Hin. apply list_elem_of_fmap in Hin as (wk&?&_). done.
Qed.

Lemma started_calls p : started p → calls p = ∅.
Proof. intros (se&order&now&tok&config&w&w'&_&Hs). unfold start in Hs. by split_cases. Qed.

Lemma reachable_ok p : reachable p → pool_ok p.
Proof. intros (p0&H0&Hs). eauto using steps_ok, started_ok. Qed.

(** C7: no call is lost and none is answered twice.  In every reachable
    state the queue holds at most [queue_depth] jobs; a call that awaits its
    answer has its job in the queue, with a worker, or answered; no job is in
    two places; every call returns at most once, and is not awaited after. *)
Theorem pool_conserves_calls p :
  reachable p →
  (queue_len p ≤ capacity (tx p))%nat ∧
  (∀ id, is_Some (awaiting p !! id) → id ∈ ids (jobs p) ∨ is_Some (sent p !! id)) ∧
  NoDup (ids (jobs p)) ∧
  (∀ id, is_Some (sent p !! id) → id ∉ ids (jobs p)) ∧
  NoDup (returned p).*1 ∧
  (∀ id, id ∈ (returned p).*1 → awaiting p !! id = None).
Proof.
  intros [_ Hb L _ _ _ _]%reachable_ok. unfold queue_len. rewrite chan_len_ok.
  split; [done|]. split; [apply L|]. split; [apply L|].
  split; [intros id [o Ho]; by destruct (l_sent _ _ _ _ _ _ L id o Ho) as (_&?&_)|].
  split; [apply L|].
  intros id Hid. apply list_elem_of_fmap in Hid as ([i o]&->&Hio).
  by destruct (l_returned _ _ _ _ _ _ L i o Hio).
Qed.

(** Answers fit requests.  Whatever interleaving of submitters, workers,
    timeouts and cancellations led to it, a response that [submit] returned is
    of the variant its request asks for. *)
Lemma pool_answers_typed p id r :
  reachable p → (id, Ok r) ∈ returned p →
  ∃ req, calls p !! id = Some req ∧ answers req r = true.
Proof.
  intros [_ _ L _ _ _ _]%reachable_ok Hin.
  destruct (l_returned _ _ _ _ _ _ L id (Ok r) Hin) as (_&req&Hc&[Hw|[|[|]]]); try done. eauto.
Qed.

(** the counters of [submit] are exact (modulo 2^64): submissions,
    refusals because the queue was full, and timeouts are counted once each
    and nothing else is. *)
Theorem pool_counters_exact p :
  reachable p →
  counter_get Submitted (metrics (shared p)) = wrap_u64 (Z.of_nat (next_call p)) ∧
  counter_get RejectedQueueFull (metrics (shared p)) = wrap_u64 (returned_with Overloaded p) ∧
  counter_get TimedOut (metrics (shared p)) = wrap_u64 (returned_with Timeout p).
Proof. by intros [_ _ _ ? ? ? _]%reachable_ok. Qed.

(** C23: backpressure is immediate and exact.  On a pool with workers,
    [submit] queues the job behind all others and sets the deadline if the
    queue has room, and otherwise returns [Overloaded] at once and leaves the
    queue as it was. *)
Theorem submit_backpressure p req :
  reachable p → has_receivers (tx p) = true →
  let p' := submit req p in
  let id := next_call p in
  if (queue_len p <? capacity (tx p))%nat
  then contents (tx p') = contents (tx p) ++ [mkJob req id (clock p)] ∧
       awaiting p' = <[id := clock p + job_timeout p]> (awaiting p) ∧ returned p' = returned p
  else contents (tx p') = contents (tx p) ∧ returned p' = (id, Err Overloaded) :: returned p ∧
       awaiting p' !! id = None.
Proof.
  intros [Hc _ _ _ _ _ _]%reachable_ok Hrec. unfold queue_len. rewrite chan_len_ok.
  pose proof (try_send_ok (mkJob req (next_call p) (clock p)) (tx p) Hc) as Hsend.
  rewrite Hrec in Hsend. cbn [negb] in Hsend.
  destruct (length (contents (tx p)) <? capacity (tx p))%nat;
    unfold submit; cbn; destruct (try_send _ _) as [r c];
    destruct Hsend as (_&_&->&Hcon); cbn; rewrite Hcon; [done|].
  by rewrite lookup_delete_eq.
Qed.

(** [submit] always comes back.  Once its deadline, submission plus
    [job_timeout], has passed, the next poll of a pending call returns: its
    answer if one was sent, else [Timeout]. *)
Theorem submit_returns_by_deadline p id d :
  awaiting p !! id = Some d → d ≤ clock p →
  ∃ o, returned (poll id p) = (id, o) :: returned p ∧ awaiting (poll id p) !! id = None ∧
       o = default (Err Timeout) (sent p !! id).
Proof.
  intros Ha Hd. unfold poll. rewrite Ha. rewrite (proj2 (Z.leb_le _ _)) by lia.
  destruct (sent p !! id) as [o|]; cbn; rewrite lookup_delete_eq; eauto.
Qed.

(** ** Draining *)

Definition weight (w : Worker * Phase) : nat :=
  match w.2 with Exited => 0 | Idle => 1 | Busy _ _ => 2 end.

(** The number of worker steps left once the sender is gone. *)
Definition work p : nat := 2 * length (contents (tx p)) + sum_list_with weight (workers p).

Definition drained p : Prop :=
  contents (tx p) = [] ∧ Forall (λ w : Worker * Phase, w.2 = Exited) (workers p).

(** A worker moves. *)
Inductive wstep : Pool → Pool → Prop :=
| wstep_take i p w :
    workers p !! i = Some (w, Idle) → contents (tx p) ≠ [] → wstep p (worker_take i p)
| wstep_finish i p w job t :
    workers p !! i = Some (w, Busy job t) → wstep p (worker_finish i p)
| wstep_exit i p w :
    workers p !! i = Some (w, Idle) → tx_open p = false → contents (tx p) = [] →
    wstep p (worker_exit i p).

(** The jobs completed and still to complete. *)
Definition total p : Z :=
  wrap_u64 (counter_get Completed (metrics (shared p)) + Z.of_nat (length (jobs p))).

Lemma take_work i p w :
  workers p !! i = Some (w, Idle) → contents (tx p) ≠ [] →
  S (work (worker_take i p)) = work p ∧ total (worker_take i p) = total p.
Proof.
  intros Hw Hne. unfold worker_take. rewrite Hw.
  pose proof (recv_ok (tx p)) as Hrecv. destruct (recv (tx p)) as [r c].
  destruct Hrecv as (_&_&->&Htl). destruct (contents (tx p)) as [|j q] eqn:Hcon; [done|].
  simpl in Htl. pose proof (sum_insert weight (workers p) i _ (w, Busy j (clock p)) Hw) as Hsum.
  pose proof (omap_insert_Permutation busy_job (workers p) i _ (w, Busy j (clock p)) Hw) as HP.
  apply Permutation_length in HP. unfold work, total, jobs. cbn in *.
  rewrite !length_app in *. rewrite Htl, Hcon. cbn in *. split; [lia|]. do 2 f_equal. lia.
Qed.

Lemma exit_work i p w :
  workers p !! i = Some (w, Idle) → tx_open p = false → contents (tx p) = [] →
  S (work (worker_exit i p)) = work p ∧ total (worker_exit i p) = total p.
Proof.
  intros Hw Ho Hcon. unfold worker_exit. rewrite Hw, Ho, chan_len_ok, Hcon. simpl.
  pose proof (retire_metrics (w, shared p)) as Hm.
  destruct (retire (w, shared p)) as [w' sh']. simpl in Hm.
  pose proof (sum_insert weight (workers p) i _ (w', Exited) Hw) as Hsum.
  pose proof (omap_insert_Permutation busy_job (workers p) i _ (w', Exited) Hw) as HP.
  apply Permutation_length in HP. unfold work, total, jobs. cbn in *.
  rewrite !length_app in *. rewrite Hm, Hcon. cbn in *. split; [lia|]. do 2 f_equal. lia.
Qed.

Lemma finish_work i p w job t :
  workers p !! i = Some (w, Busy job t) →
  S (work (worker_finish i p)) = work p ∧ total (worker_finish i p) = total p.
Proof.
  intros Hw. unfold worker_finish. rewrite Hw.
  pose proof (serve_counts t (clock p) job (w, shared p)) as Hcn.
  destruct (serve t (clock p) job (w, shared p)) as [r [w' sh']].
  destruct Hcn as [Hcn _]. unfold cget in Hcn. simpl in Hcn.
  pose proof (sum_insert weight (workers p) i _ (w', Idle) Hw) as Hsum.
  pose proof (omap_insert_Permutation busy_job (workers p) i _ (w', Idle) Hw) as HP.
  apply Permutation_length in HP.
  assert (∀ m, work (with_sent m (with_worker i (w', Idle) (with_shared sh' p))) =
               work (with_worker i (w', Idle) (with_shared sh' p))) as Hws by done.
  assert (S (work (with_worker i (w', Idle) (with_shared sh' p))) = work p ∧
          total (with_worker i (w', Idle) (with_shared sh' p)) = total p) as H.
  { unfold work, total, jobs. cbn in *. rewrite !length_app in *. cbn in *.
    split; [lia|]. rewrite Hcn. unfold incr, fetch_add. rewrite wrap_add_l. f_equal. lia. }
  by case_decide.
Qed.

Lemma wstep_work p p' : wstep p p' → S (work p') = work p ∧ total p' = total p.
Proof.
  destruct 1; eauto using take_work, finish_work, exit_work.
Qed.

Lemma wstep_step p p' : wstep p p' → step p p'.
Proof.
  destruct 1 as [i p|i p|i p];
    [apply (step_intro (ATake i))|apply (step_intro (AFinish i))|apply (step_intro (AExit i))]; done.
Qed.

Lemma wstep_frame p p' :
  wstep p p' → tx_open p' = tx_open p ∧ length (workers p') = length (workers p).
Proof.
  destruct 1; unfold worker_take, worker_finish, worker_exit; rewrite H.
  - destruct (recv (tx p)) as [[]]; [|done]. simpl. by rewrite length_insert.
  - destruct (serve _ _ _ _) as [r [w' sh']]. case_decide; simpl; by rewrite length_insert.
  - destruct (_ && _); [|done]. destruct (retire _). simpl. by rewrite length_insert.
Qed.

#[local] Instance exited_dec (ph : Phase) : Decision (ph = Exited).
Proof. destruct ph; [right|right|left]; done. Defined.

Lemma drain_progress p :
  pool_ok p → tx_open p = false → workers p ≠ [] → drained p ∨ ∃ p', wstep p p'.
Proof.
  intros Hp Ho Hne. unfold drained.
  destruct (decide (Exists (λ w : Worker * Phase, w.2 ≠ Exited) (workers p))) as [Hex|Hall].
  - right. apply Exists_exists in Hex as ([w ph]&[i Hi]%list_elem_of_lookup&Hph).
    destruct ph as [|job t|]; [|by eexists; eapply wstep_finish|done].
    destruct (contents (tx p)) eqn:Hcon.
    + by eexists; eapply wstep_exit.
    + eexists; eapply wstep_take; [done|]. by rewrite Hcon.
  - left. apply not_Exists_Forall in Hall; [|apply _].
    assert (Forall (λ w : Worker * Phase, w.2 = Exited) (workers p)) as Hf.
    { eapply Forall_impl; [exact Hall|]. intros [w []] Hn; simpl in *; try done; by destruct Hn. }
    split; [|done]. destruct (workers p) as [|[w ph] ws] eqn:Hw; [done|].
    apply Forall_cons in Hf as [Hph _]. simpl in Hph. subst ph.
    apply (ok_exited _ Hp w). rewrite Hw. left.
Qed.

(** C22: [shutdown] drains.  Once the sender is dropped, the workers, however
    they are scheduled, take exactly [work] steps: as long as the pool is not
    drained some worker can move, every move brings the end one step closer,
    every job that was accepted is completed, and at the end the queue is
    empty and every worker has left its loop and logged out. *)
Theorem pool_drains p n p' :
  reachable p → tx_open p = false → workers p ≠ [] → nsteps wstep n p p' →
  (n + work p')%nat = work p ∧ total p' = total p ∧ (drained p' ∨ ∃ p'', wstep p' p'').
Proof.
  intros Hp%reachable_ok Ho Hne Hn.
  assert (pool_ok p' ∧ tx_open p' = false ∧ workers p' ≠ [] ∧
          (n + work p')%nat = work p ∧ total p' = total p) as (Hp'&Ho'&Hne'&Hw&Ht).
  { induction Hn as [p|n p p1 p2 H1 Hn IH]; [done|].
    destruct (wstep_frame _ _ H1) as [Ho1 Hl1]. destruct (wstep_work _ _ H1) as [Hw1 Ht1].
    destruct IH as (?&?&?&?&?).
    - eauto using step_ok, wstep_step.
    - congruence.
    - intros Hnil. rewrite Hnil in Hl1. by destruct (workers p).
    - split_and!; try done; [lia|congruence]. }
  split_and!; try done. by apply drain_progress.
Qed.

(** ** Starting *)

Lemma open_all_length ctx sl tok order w :
  length (open_all ctx sl tok order w).1 = length order.
Proof.
  revert w. induction order as [|i order IH]; intros w; [done|]. simpl.
  destruct (worker_new _ _ _ _ w) as [r w1]. specialize (IH w1).
  destruct (open_all ctx sl tok order w1). simpl in *. by rewrite IH.
Qed.

Lemma await_ready_ok rs ws : await_ready rs = Ok ws ↔ rs = Ok <$> ws.
Proof.
  revert ws. induction rs as [|[w|e] rs IH]; intros ws; simpl.
  - split; [by intros [= <-]|]. by destruct ws.
  - destruct (await_ready rs) as [ws'|e'] eqn:Hr.
    + pose proof (proj1 (IH ws') eq_refl) as ->. split; [by intros [= <-]|].
      destruct ws as [|w' ws]; [done|]. simpl. intros [= -> Hws].
      apply IH in Hws. congruence.
    + split; [done|]. destruct ws as [|w' ws]; [done|]. simpl. intros [= -> Hws].
      by apply IH in Hws.
  - split; [done|]. by destruct ws.
Qed.

(** [start] is all or nothing.  If it succeeds, then there is one idle
    worker per thread, each having opened its own session; if any thread
    could not be spawned or any worker could not open its session, it fails. *)
Theorem start_all_or_nothing spawn_error order now tok config w p w' :
  order ≡ₚ seq 0 (Z.to_nat (cfg_workers config)) →
  start spawn_error order now tok config w = (Ok p, w') →
  length (workers p) = Z.to_nat (cfg_workers config) ∧
  (∀ i, (i < Z.to_nat (cfg_workers config))%nat → spawn_error i = None) ∧
  ∃ ctx sl w1 ws,
    load_module tok w = (Ok (ctx, sl), w1) ∧
    open_all ctx sl tok order w1 = (Ok <$> ws, w') ∧ workers p = (λ wk, (wk, Idle)) <$> ws.
Proof.
  intros Hord. unfold start.
  destruct (load_module tok w) as [[[ctx sl]|e] w1]; [|done].
  destruct (first_spawn_error spawn_error _) as [[k e]|] eqn:Hse.
  { destruct (open_all ctx sl tok (filter (λ j, (j < k)%nat) order) w1). by intros [=]. }
  pose proof (open_all_length ctx sl tok order w1) as Hlen.
  destruct (open_all ctx sl tok order w1) as [rs w2] eqn:Hoa.
  destruct (await_ready rs) as [ws|e] eqn:Hr; [|done].
  apply await_ready_ok in Hr as ->. intros [= <- <-]. simpl in *.
  rewrite length_fmap, Hord, length_seq in Hlen. split; [by rewrite length_fmap|]. split.
  - intros i Hi. destruct (spawn_error i) as [e|] eqn:He; [|done]. exfalso.
    unfold first_spawn_error in Hse. apply head_None in Hse.
    assert ((i, e) ∈ omap (λ i, (λ e, (i, e)) <$> spawn_error i)
              (seq 0 (Z.to_nat (cfg_workers config)))) as Hin.
    { apply list_elem_of_omap. exists i. rewrite He. split; [apply elem_of_seq; lia|done]. }
    rewrite Hse in Hin. by apply elem_of_nil in Hin.
  - by exists ctx, sl, w1, ws.
Qed.

(** a pool of no workers starts, and serves nothing: with [HSM_WORKERS=0]
    [start] succeeds on every token that loads, and every [submit] on the pool
    returns [ShuttingDown] at once, for as long as the process runs. *)
Theorem zero_workers_start_and_refuse spawn_error now tok config w ctx sl w1 req :
  cfg_workers config = 0 → 0 < cfg_queue_depth config →
  load_module tok w = (Ok (ctx, sl), w1) →
  ∃ p, start spawn_error [] now tok config w = (Ok p, w1) ∧
       ∀ p', rtc step p p' → tx_open p' = true →
         returned (submit req p') = (next_call p', Err ShuttingDown) :: returned p'.
Proof.
  intros Hn Hq Hl.
  assert (0 < Z.to_nat (cfg_queue_depth config))%nat as Hpos by lia.
  unfold start. rewrite Hl, Hn. cbn.
  eexists. split; [reflexivity|]. intros p' Hs Ho.
  set (c := drop_receivers (bounded (Z.to_nat (cfg_queue_depth config)))) in *.
  match type of Hs with rtc step ?q _ => set (p0 := q) in * end.
  assert ((0 < capacity (tx p'))%nat ∧ has_receivers (tx p') = false ∧ workers p' = [])
    as (Hc&Hr&_).
  { assert ((0 < capacity (tx p0))%nat ∧ has_receivers (tx p0) = false ∧ workers p0 = []) as H0.
    { destruct (drop_receivers_ok (bounded (Z.to_nat (cfg_queue_depth config)))) as (Hr&Hc&_).
      destruct (bounded_ok _ Hpos) as (Hb&_). unfold p0, c. cbn. split_and!; try done. simpl. lia. }
    clear -CHO Hs H0. induction Hs as [|q q1 q2 H1 Hs IH]; [done|]. apply IH. clear -CHO H1 H0.
    destruct H0 as (Hc&Hr&Hw), H1 as [[] q _]; simpl;
      try (unfold worker_take, worker_finish, worker_exit; rewrite Hw); try done.
    - unfold submit. cbn. pose proof (try_send_ok (mkJob req (next_call q) (clock q)) (tx q) Hc) as Ht.
      destruct (try_send _ _) as [r c']. destruct Ht as (Hc'&Hr'&_).
      destruct r as [|[]]; cbn; rewrite ?Hc', ?Hr'; done.
    - unfold poll. destruct (awaiting q !! id); [|done]. destruct (sent q !! id); [done|].
      by destruct (_ <=? _). }
  unfold submit. cbn. pose proof (try_send_ok (mkJob req (next_call p') (clock p')) (tx p') Hc) as Ht.
  destruct (try_send _ _) as [r c']. destruct Ht as (_&_&Ht). rewrite Hr in Ht.
  by destruct Ht as [-> _].
Qed.
End invariant.

(** ** Witnesses: a pool of two workers on the demo token, a queue of two *)

Module PoolWitness.
Import Toy.

#[export] Instance list_channel : Channel := {|
  Chan := nat * list Job * bool;
  bounded n := (n, [], true);
  drop_receivers '(n, q, _) := (n, q, false);
  try_send j '(n, q, alive) :=
    if negb alive then (Err Disconnected, (n, q, alive))
    else if (length q <? n)%nat then (Ok tt, (n, q ++ [j], alive))
    else (Err Full, (n, q, alive));
  recv '(n, q, alive) := (head q, (n, tail q, alive));
  chan_len '(n, q, _) := length q
|}.

#[export] Instance list_channel_ok : ChannelOk list_channel.
Proof.
  refine (Build_ChannelOk list_channel (λ c, c.1.1) (λ c, c.1.2) (λ c, c.2) _ _ _ _ _).
  - done.
  - by intros [[n q] alive].
  - intros j [[n q] alive] Hn. simpl.
    destruct alive; [|done]. cbn [negb]. by destruct (length q <? n)%nat.
  - by intros [[n q] alive].
  - by intros [[n q] alive].
Defined.

Definition demo_pool_config (n : Z) : PoolConfig := mkPoolConfig n 2 (from_secs 5).

Definition demo_start (n : Z) : result (Pool (CH := list_channel)) PoolError * World (Cryptoki := toy_token) :=
  start (λ _, None) (seq 0 (Z.to_nat n)) 0 demo_config (demo_pool_config n) demo_world.

Definition empty_pool : Pool (CK := toy_token) (CH := list_channel) :=
  mkPool (CK := toy_token) (CH := list_channel) (0%nat, [], true) true [] 0
    (mkShared (CK := toy_token) pool_metrics_default [] demo_world) ∅ ∅ [] ∅ 0 0.

Definition unwrap_pool (r : result Pool PoolError) : Pool :=
  match r with Ok p => p | Err _ => empty_pool end.

Definition demo_pool : Pool := unwrap_pool (demo_start 2).1.

Lemma demo_start_ok n :
  is_ok (demo_start n).1 = true → demo_start n = (Ok (unwrap_pool (demo_start n).1), (demo_start n).2).
Proof. by destruct (demo_start n) as [[]]. Qed.

Lemma demo_start_2 : demo_start 2 = (Ok demo_pool, (demo_start 2).2).
Proof. apply demo_start_ok. vm_compute. reflexivity. Qed.

Lemma demo_started : started demo_pool.
Proof.
  exists (λ _, None), (seq 0 2), 0, demo_config, (demo_pool_config 2), demo_world, (demo_start 2).2.
  split; [reflexivity|]. exact demo_start_2.
Qed.

(** Run enabled actions. *)
Fixpoint play (acts : list action) (p : Pool (CK := toy_token) (CH := list_channel)) : option Pool :=
  match acts with
  | [] => Some p
  | a :: acts => if enabled a p then play acts (apply a p) else None
  end.

Lemma play_steps acts p p' : play acts p = Some p' → rtc step p p'.
Proof.
  revert p. induction acts as [|a acts IH]; intros p; simpl; [by intros [= ->]|].
  destruct (enabled a p) eqn:He; [|done]. intros Hp.
  eapply rtc_l; [by apply step_intro|by apply IH].
Qed.

(** The state after some actions. *)
Definition after (acts : list action) (p : Pool) : Pool := default empty_pool (play acts p).
Definition plays (acts : list action) (p : Pool) : bool :=
  match play acts p with Some _ => true | None => false end.

Lemma after_steps acts p : plays acts p = true → rtc step p (after acts p).
Proof.
  unfold plays, after. destruct (play acts p) eqn:Hp; [|done]. intros _. by eapply play_steps.
Qed.

Definition sign_req : JobRequest := JSign "demo" Crypto.Ecdsa (replicate 32 x07).

(** Three submissions fill the queue while one is with a worker; the fourth is
    refused; the first is answered; the third times out. *)
Definition demo_actions : list action :=
  [ASubmit sign_req; ATake 0; ASubmit (JGetPublicKey "none"); ASubmit sign_req; ASubmit sign_req;
   AFinish 0; APoll 0; ATick (from_secs 5); APoll 2].

Definition demo_after : Pool := after demo_actions demo_pool.

Lemma demo_reachable : reachable demo_after.
Proof.
  exists demo_pool. split; [apply demo_started|].
  apply after_steps. vm_compute. reflexivity.
Qed.

Lemma pool_conserves_calls_witness :
  returned demo_after =
    [(2%nat, Err Timeout); (0%nat, Ok (Signature (replicate 64 x07))); (3%nat, Err Overloaded)] ∧
  (queue_len demo_after ≤ 2)%nat ∧
  (is_Some (awaiting demo_after !! 1%nat) → 1%nat ∈ ids (jobs demo_after) ∨
     is_Some (sent demo_after !! 1%nat)).
Proof.
  split; [vm_compute; reflexivity|].
  destruct (pool_conserves_calls demo_after demo_reachable) as (Hb&Ha&_).
  split; [exact Hb|apply Ha].
Defined.

Lemma pool_counters_exact_witness :
  counter_get Submitted (metrics (shared demo_after)) = 4 ∧
  counter_get RejectedQueueFull (metrics (shared demo_after)) = 1 ∧
  counter_get TimedOut (metrics (shared demo_after)) = 1.
Proof.
  destruct (pool_counters_exact demo_after demo_reachable) as (->&->&->).
  vm_compute. done.
Defined.

Lemma submit_backpressure_witness :
  next_call demo_after = 4%nat ∧
  returned (submit sign_req demo_after) = (next_call demo_after, Err Overloaded) :: returned demo_after.
Proof.
  split; [vm_compute; reflexivity|].
  assert ((queue_len demo_after <? capacity (tx demo_after))%nat = false) as Hfull
    by (vm_compute; reflexivity).
  assert (has_receivers (tx demo_after) = true) as Hr by (vm_compute; reflexivity).
  pose proof (submit_backpressure demo_after sign_req demo_reachable Hr) as H.
  cbv zeta in H. rewrite Hfull in H. exact (proj1 (proj2 H)).
Defined.

Lemma submit_returns_by_deadline_witness :
  ∃ o, returned (poll 1 demo_after) = (1%nat, o) :: returned demo_after ∧
       awaiting (poll 1 demo_after) !! 1%nat = None ∧
       o = default (Err Timeout) (sent demo_after !! 1%nat).
Proof.
  apply (submit_returns_by_deadline demo_after 1 (from_secs 5)); [vm_compute; reflexivity|].
  vm_compute. discriminate.
Defined.

(** Shut down with two orphaned jobs in the queue. *)
Definition demo_closed : Pool := after [ACancel 1; AShutdown] demo_after.

Lemma demo_closed_reachable : reachable demo_closed.
Proof.
  destruct demo_reachable as (p0&H0&Hs). exists p0. split; [done|].
  etrans; [exact Hs|]. apply after_steps. vm_compute. reflexivity.
Qed.

Lemma pool_drains_witness :
  work demo_closed = 6%nat ∧ (drained demo_closed ∨ ∃ p, wstep demo_closed p).
Proof.
  split; [vm_compute; reflexivity|].
  apply (pool_drains demo_closed 0 demo_closed demo_closed_reachable); [vm_compute; reflexivity| |constructor].
  assert (length (workers demo_closed) = 2%nat) as Hl by (vm_compute; reflexivity).
  intros Hnil. rewrite Hnil in Hl. simpl in Hl. discriminate Hl.
Defined.

Lemma start_all_or_nothing_witness : length (workers demo_pool) = 2%nat.
Proof.
  refine (proj1 (start_all_or_nothing (λ _, None) (seq 0 2) 0 demo_config (demo_pool_config 2) demo_world
    demo_pool (demo_start 2).2 _ demo_start_2)). reflexivity.
Defined.

Lemma zero_workers_start_and_refuse_witness :
  ∃ p : Pool (CH := list_channel),
    start (λ _, None) [] 0 demo_config (demo_pool_config 0) demo_world = (Ok p, demo_world) ∧
    ∀ p', rtc step p p' → tx_open p' = true →
      returned (submit sign_req p') = (next_call p', Err ShuttingDown) :: returned p'.
Proof.
  apply (zero_workers_start_and_refuse (CK := toy_token) (λ _, None) 0 demo_config
    (demo_pool_config 0) demo_world tt 0%nat demo_world sign_req); reflexivity.
Defined.
End PoolWitness.
