(* ===== verification/PoolSpec.v ===== *)
(** * The pool as its callers see it

    An abstract service of one-shot calls: a call is made, and later either
    returns one outcome of its own or is abandoned by its caller.  Queue,
    channel, workers, sessions, clock and counters are hidden.  The pool of
    [Pool] refines it, step by step. *)
From S2P Require Import Prelude RustStd Deps Session Crypto Toy Worker Pool.

Local Open Scope Z_scope.

Abbreviation outcome := (result JobResponse PoolError).

(** ** The specification *)

Inductive CallState := Pending (req : JobRequest) | Abandoned (req : JobRequest)
| Done (req : JobRequest) (o : outcome).

Abbreviation CallService := (gmap nat CallState).

(** What a call may return: what a worker answers to this request, or one of the
    three errors of [submit] itself. *)
Definition honest (req : JobRequest) (o : outcome) : Prop := from_worker req o ∨ from_submit o.

Inductive spec_step : CallService → CallService → Prop :=
| spec_call m id req : m !! id = None → spec_step m (<[id := Pending req]> m)
| spec_return m id req o :
    m !! id = Some (Pending req) → honest req o → spec_step m (<[id := Done req o]> m)
| spec_abandon m id req :
    m !! id = Some (Pending req) → spec_step m (<[id := Abandoned req]> m).

(** ** The abstraction *)

Section refinement.
Context {CK : Cryptoki} {CL : CryptoLib} {CH : Channel} {CHO : ChannelOk CH}.
Implicit Types p : Pool.

Definition outcomes p : gmap nat outcome := list_to_map (returned p).

Definition call_state p (id : nat) (req : JobRequest) : CallState :=
  match awaiting p !! id, outcomes p !! id with
  | Some _, _ => Pending req
  | None, Some o => Done req o
  | None, None => Abandoned req
  end.

Definition abstract p : CallService := map_imap (λ id req, Some (call_state p id req)) (calls p).

Lemma lookup_abstract p id : abstract p !! id = call_state p id <$> calls p !! id.
Proof. unfold abstract. rewrite map_lookup_imap. by destruct (calls p !! id). Qed.

(** A step that changes neither the calls nor who awaits nor what returned. *)
Lemma abstract_same p p' :
  calls p' = calls p → awaiting p' = awaiting p → returned p' = returned p → abstract p' = abstract p.
Proof. intros Hc Ha Hr. unfold abstract, call_state, outcomes. by rewrite Hc, Ha, Hr. Qed.

(** A step that changes one call. *)
Lemma abstract_one p p' id req :
  calls p' !! id = Some req →
  (∀ id', id' ≠ id → calls p' !! id' = calls p !! id' ∧ awaiting p' !! id' = awaiting p !! id' ∧
                     outcomes p' !! id' = outcomes p !! id') →
  abstract p' = <[id := call_state p' id req]> (abstract p).
Proof.
  intros Hc Hother. apply map_eq. intros id'. rewrite lookup_abstract.
  destruct (decide (id' = id)) as [->|Hne]; [by rewrite Hc, lookup_insert_eq|].
  rewrite lookup_insert_ne, lookup_abstract by done. destruct (Hother id' Hne) as (->&Ha&Ho).
  unfold call_state. by rewrite Ha, Ho.
Qed.

Ltac one_call p id req :=
  match goal with |- rtc spec_step _ (abstract ?q) => rewrite (abstract_one p q id req) end.

Lemma abstract_fresh p : pool_ok p → abstract p !! next_call p = None.
Proof. intros [_ _ L _ _ _ _]. by rewrite lookup_abstract, (fresh_call _ _ _ _ _ _ L). Qed.

Lemma submit_refines req p : pool_ok p → rtc spec_step (abstract p) (abstract (submit req p)).
Proof.
  intros Hp. pose proof (abstract_fresh p Hp) as Hf. destruct Hp as [Hc _ L _ _ _ _].
  unfold submit. cbn [tx with_metrics]. set (id := next_call p) in *.
  destruct (try_send _ (tx p)) as [[[]|e] c].
  - etrans; [apply rtc_once, (spec_call _ id req Hf)|].
    one_call p id req; [| |intros id' Hne; cbn; by rewrite !lookup_insert_ne].
    + unfold call_state. cbn. by rewrite lookup_insert_eq.
    + cbn. by rewrite lookup_insert_eq.
  - etrans; [apply rtc_once, (spec_call _ id req Hf)|].
    etrans; [apply rtc_once, (spec_return _ id req
      (Err match e with Full => Overloaded | Disconnected => ShuttingDown end))|].
    + by rewrite lookup_insert_eq.
    + right. unfold from_submit. destruct e; auto.
    + rewrite insert_insert_eq. destruct e.
      all: one_call p id req;
        [unfold call_state; cbn; by rewrite lookup_delete_eq, lookup_insert_eq
        |cbn; by rewrite lookup_insert_eq
        |intros id' Hne; cbn; by rewrite lookup_insert_ne, lookup_delete_ne, lookup_insert_ne].
Qed.

(** A pending call returns. *)
Lemma return_refines p p1 id o :
  pool_ok p → is_Some (awaiting p !! id) →
  calls p1 = calls p → awaiting p1 = awaiting p → returned p1 = returned p →
  (∀ req, calls p !! id = Some req → honest req o) →
  rtc spec_step (abstract p) (abstract (return_call id o p1)).
Proof.
  intros [_ _ L _ _ _ _] Ha Hc1 Ha1 Hr1 Ho.
  destruct (l_awaited_call _ _ _ _ _ _ L id Ha) as [req Hreq]. destruct Ha as [d Hd].
  one_call p id req.
  - unfold call_state. cbn. rewrite lookup_delete_eq, lookup_insert_eq.
    apply rtc_once, spec_return; [|by apply Ho].
    rewrite lookup_abstract, Hreq. simpl. unfold call_state. by rewrite Hd.
  - cbn. by rewrite Hc1.
  - intros id' Hne. cbn. rewrite Hc1, Ha1, Hr1. by rewrite lookup_delete_ne, lookup_insert_ne.
Qed.

Lemma poll_refines id p : pool_ok p → rtc spec_step (abstract p) (abstract (poll id p)).
Proof.
  intros Hp. unfold poll. destruct (awaiting p !! id) as [d|] eqn:Ha; [|done].
  destruct (sent p !! id) as [o|] eqn:Hs; [|destruct (d <=? clock p); [|done]].
  - apply return_refines; eauto. intros req Hreq. left. destruct Hp as [_ _ L _ _ _ _].
    destruct (l_sent _ _ _ _ _ _ L id o Hs) as (_&_&req'&Hreq'&?). by simplify_eq.
  - apply return_refines; eauto. intros req _. right. unfold from_submit. tauto.
Qed.

Lemma cancel_refines id p : pool_ok p → rtc spec_step (abstract p) (abstract (cancel id p)).
Proof.
  intros [_ _ L _ _ _ _]. destruct (awaiting p !! id) as [d|] eqn:Ha.
  - assert (is_Some (awaiting p !! id)) as Haw by eauto.
    destruct (l_awaited_call _ _ _ _ _ _ L id Haw) as [req Hreq].
    assert (outcomes p !! id = None) as Ho.
    { apply not_elem_of_list_to_map. intros Hin. apply list_elem_of_fmap in Hin as ([i o]&->&Hio).
      destruct (l_returned _ _ _ _ _ _ L i o Hio) as [Hn _]. simpl in Ha. congruence. }
    one_call p id req;
      [|done|intros id' Hne; cbn; by rewrite lookup_delete_ne].
    unfold call_state. cbn. rewrite lookup_delete_eq. fold (outcomes p). rewrite Ho.
    apply rtc_once, spec_abandon. rewrite lookup_abstract, Hreq. simpl. unfold call_state. by rewrite Ha.
  - rewrite (abstract_same p (cancel id p)); [done|done|cbn; by rewrite delete_id|done].
Qed.

(** The hidden steps. *)
Lemma worker_step_hidden p p' :
  (∃ i, p' = worker_take i p ∨ p' = worker_finish i p ∨ p' = worker_exit i p) →
  abstract p' = abstract p.
Proof.
  intros [i [->|[->| ->]]]; apply abstract_same;
    unfold worker_take, worker_finish, worker_exit; repeat (case_match; try done).
Qed.

Lemma step_refines p p' : pool_ok p → step p p' → rtc spec_step (abstract p) (abstract p').
Proof.
  intros Hp Hs. revert Hp. destruct Hs as [a q He]. intros Hp. destruct a as [req|id|id|i|i|i| |d]; cbn [apply].
  - by apply submit_refines.
  - by apply poll_refines.
  - by apply cancel_refines.
  - rewrite (worker_step_hidden q (worker_take i q)); [done|eauto].
  - rewrite (worker_step_hidden q (worker_finish i q)); [done|eauto].
  - rewrite (worker_step_hidden q (worker_exit i q)); [done|eauto].
  - by rewrite (abstract_same q (shutdown q)).
  - by rewrite (abstract_same q (tick d q)).
Qed.

(** C8: The pool implements one-shot calls.  Whatever interleaving of submitters,
    workers, timeouts, cancellations and shutdown led to a state, the specification
    reaches its abstraction; and each further step of the pool is matched by steps
    of the specification, or hidden.  So a call is named once, is pending until it
    returns or is abandoned, returns once, and returns only an answer of its own
    request's kind or an error. *)
Theorem pool_refines_call_service p :
  reachable p →
  rtc spec_step ∅ (abstract p) ∧
  ∀ p', step p p' → rtc spec_step (abstract p) (abstract p').
Proof.
  intros Hr. split; [|intros p' Hs; eauto using step_refines, reachable_ok].
  destruct Hr as (p0&H0&Hs). assert (abstract p0 = ∅) as Hempty.
  { apply map_eq. intros id. by rewrite lookup_abstract, started_calls. }
  rewrite <-Hempty. assert (pool_ok p0) as Hp by (by apply started_ok). clear H0 Hempty.
  induction Hs as [|p0 p1 p2 H01 _ IH]; [done|]. etrans; [by apply step_refines|].
  apply IH. by eapply step_ok.
Qed.
End refinement.

(** ** A witness: a call served, one timed out, one refused, one pending *)

Module PoolSpecWitness.
Import Toy PoolWitness.

Lemma pool_refines_call_service_witness :
  (abstract demo_after !! 0%nat = Some (Done sign_req (Ok (Signature (replicate 64 x07)))) ∧
   abstract demo_after !! 2%nat = Some (Done sign_req (Err Timeout)) ∧
   abstract demo_after !! 3%nat = Some (Done sign_req (Err Overloaded)) ∧
   abstract demo_after !! 1%nat = Some (Pending (JGetPublicKey "none"))) ∧
  rtc spec_step ∅ (abstract demo_after).
Proof.
  split; [rewrite !lookup_abstract; split_and!; vm_compute; reflexivity|].
  exact (proj1 (pool_refines_call_service demo_after demo_reachable)).
Defined.
End PoolSpecWitness.
