(* ===== verification/Answers.v ===== *)
(** * What the answers of the pool are worth

    A job is served by some worker, on whichever session it then has, with an
    object handle it searched for now or remembered from an earlier job.  Over a
    token that keeps its promises ([KeyStore]), what [submit] returns for a
    signing job is a valid signature under the pair with that label, what it
    returns for a public key is that pair's key, and ciphertexts are those of the
    secret key with that label: handles, sessions, workers and callers are never
    mixed up, whatever interleaves. *)
From S2P Require Import Prelude RustStd Deps Session Crypto Toy Worker Pool.

Local Open Scope Z_scope.

(** ** The token

    What PKCS#11 documents of the calls the workers make.  [well_kept] is about the
    token's contents: one key pair per label, whose public half is the public key
    of the private half.  [names w x h c l]: the handle [h] was handed out on the
    session [x] for an object of class [c] with label [l], and a call on [x] that
    succeeds with it works on that object.  A handle has this meaning for the
    session that found it and as long as that session lasts: a session that was
    just opened has no handles, closing a session ends its handles, and so does an
    operation that reports the session gone.  [C_Logout] invalidates the handles of
    private objects for good, for every session of the application: calls with
    them fail, so they never come to stand for another object. *)

(** The call reported that its session is gone. *)
Definition session_lost {A} (r : result A CkError) : bool :=
  match r with Err e => is_session_fatal e | Ok _ => false end.

Class KeyStore (CK : Cryptoki) (CL : CryptoLib) := {
  well_kept : World → Prop;
  names : World → Session → ObjectHandle → ObjectClass → string → Prop;
  (** the pair with a label: its kind, what [C_Verify] accepts under it, and the
      attributes of its public half *)
  is_ec : string → bool;
  pair_valid : string → Mechanism → bytes → bytes → bool;
  public_attribute : string → Attribute → Prop;
  (** authenticated decryption under the secret key with a label *)
  opens : string → GcmParams → bytes → option bytes;
  (** the token stays well kept, and the handles of the sessions in [P] keep
      their meaning *)
  spares (P : Session → Prop) (w w' : World) : Prop :=
    (well_kept w → well_kept w') ∧ ∀ x h c l, P x → names w x h c l → names w' x h c l;
  operates {A} (x : Session) (m : stR World CkError A) : Prop :=
    ∀ w, spares (λ y, y ≠ x ∨ session_lost (m w).1 = false) w (m w).2;
  find_spares x t : preserves (spares (λ _, True)) (find_objects x t);
  attributes_spare x h ts : preserves (spares (λ _, True)) (get_attributes x h ts);
  sign_operates x m h d : operates x (sign x m h d);
  verify_operates x m h d sg : operates x (verify x m h d sg);
  encrypt_operates x m h d : operates x (encrypt x m h d);
  decrypt_operates x m h d : operates x (decrypt x m h d);
  open_spares ctx sl w :
    spares (λ y, (open_rw_session ctx sl w).1 ≠ Ok y) w (open_rw_session ctx sl w).2;
  login_spares x pin : preserves (spares (λ _, True)) (login x pin);
  logout_spares x : preserves (spares (λ y, y ≠ x)) (logout x);
  close_spares x w : spares (λ y, y ≠ x) w (close x w);
  find_names x c l w hs w' h :
    well_kept w → find_objects x (find_template c l) w = (Ok hs, w') → h ∈ hs → names w' x h c l;
  read_public x h ts w vs w' l a :
    well_kept w → names w x h PUBLIC_KEY l → get_attributes x h ts w = (Ok vs, w') → a ∈ vs →
    public_attribute l a;
  sign_valid x m h d w s w' l :
    well_kept w → names w x h PRIVATE_KEY l → sign x m h d w = (Ok s, w') →
    pair_valid l m d s = true ∧ (m = M_Ecdsa ↔ is_ec l = true);
  encrypt_opens x p h d w c w' l :
    well_kept w → names w x h SECRET_KEY l → encrypt x (M_AesGcm p) h d w = (Ok c, w') →
    opens l p c = Some d;
  decrypt_opens x p h c w d w' l :
    well_kept w → names w x h SECRET_KEY l → decrypt x (M_AesGcm p) h c w = (Ok d, w') →
    opens l p c = Some d;
  (** the public half: [CKA_KEY_TYPE], then [CKA_EC_POINT], a point that may be
      wrapped in an OCTET STRING, or modulus and exponent *)
  key_type_ec l : public_attribute l (A_KeyType KT_EC) → is_ec l = true;
  key_type_rsa l : public_attribute l (A_KeyType KT_RSA) → is_ec l = false;
  ec_point l p :
    public_attribute l (A_EcPoint p) →
    ∃ sec1, Crypto.bare_point sec1 ∧
      (p = sec1 ∨ ∃ h, Crypto.octet_string h sec1 ∧ p = h ++ sec1) ∧
      ∀ k, p256_from_sec1 sec1 = Ok k → Crypto.ec_token k (pair_valid l);
  rsa_components_key l n e k :
    public_attribute l (A_Modulus n) → public_attribute l (A_PublicExponent e) →
    rsa_new (Crypto.from_bytes_be n) (Crypto.from_bytes_be e) = Ok k →
    Crypto.rsa_token k (pair_valid l)
}.

Section answers.
Context {CK : Cryptoki} {CL : CryptoLib} {SL : Crypto.SpkiLaws CL} {KS : KeyStore CK CL}.
Context {ST : SessionTable CK}.
Implicit Types (s : WState) (w : World) (P : Session → Prop).

#[local] Instance spares_preorder P : PreOrder (spares P).
Proof. split; [by intros w|]. intros w1 w2 w3 [H1 H1'] [H2 H2']. split; auto. Qed.

Lemma spares_mono P P' w w' : (∀ y, P' y → P y) → spares P w w' → spares P' w w'.
Proof. intros HP [Hk Hn]. split; [done|]. eauto. Qed.

(** A public key that verifies what the pair with this label signs. *)
Definition is_public_key (l : string) (der : bytes) : Prop :=
  if is_ec l then ∃ k, p256_from_spki der = Ok k ∧ Crypto.ec_token k (pair_valid l)
  else ∃ k, rsa_from_spki der = Ok k ∧ Crypto.rsa_token k (pair_valid l).

(** What an answer to a job says of the token. *)
Definition vouched (req : JobRequest) (r : JobResponse) : Prop :=
  match req, r with
  | JSign l a p, Signature sg =>
      pair_valid l (Crypto.mechanism a) p sg = true ∧ (a = Crypto.Ecdsa ↔ is_ec l = true)
  | JGetPublicKey l, PublicKey der _ => is_public_key l der
  | JEncrypt l d aad iv, Ciphertext c =>
      ∃ params, gcm_params iv aad GCM_TAG_BITS = Ok params ∧ opens l params c = Some d
  | JDecrypt l c aad iv, Plaintext d =>
      ∃ params, gcm_params iv aad GCM_TAG_BITS = Ok params ∧ opens l params c = Some d
  | _, _ => True
  end.

(** The token is well kept, and the worker's handles mean what they are filed
    under, on the session the worker has now. *)
Definition handles_named w (wk : Worker) : Prop :=
  ∀ label kh kind h,
    handles wk !! label = Some kh → handles_get kh kind = Some h →
    names w (session wk) h (object_class kind) label.

Lemma handles_named_spared P w w' wk :
  P (session wk) → spares P w w' → handles_named w wk → handles_named w' wk.
Proof. intros HP [_ He] Hn label kh kind h Hl Hg. eauto. Qed.

Lemma no_handles_named w wk : handles wk = ∅ → handles_named w wk.
Proof. intros Hh label kh kind h. rewrite Hh. by rewrite lookup_empty. Qed.

Definition sound s : Prop := well_kept (world s.2) ∧ handles_named (world s.2) s.1.

Lemma sound_spared P s s' :
  s'.1 = s.1 → P (session s.1) → spares P (world s.2) (world s'.2) → sound s → sound s'.
Proof.
  intros Hw HP He [Hk Hn]. split; [by apply He|]. rewrite Hw. by eapply handles_named_spared.
Qed.

(** ** Reading the public key *)

Lemma mechanism_ecdsa a : Crypto.mechanism a = M_Ecdsa ↔ a = Crypto.Ecdsa.
Proof. by destruct a. Qed.

Lemma find_ec_point_elem attrs p : Crypto.find_ec_point attrs = Some p → A_EcPoint p ∈ attrs.
Proof.
  unfold Crypto.find_ec_point. intros Hh. apply head_Some_elem_of in Hh.
  apply list_elem_of_omap in Hh as (a&Ha&Hs). destruct a; simplify_eq. done.
Qed.

Lemma rsa_components_elem attrs n e :
  ((Crypto.rsa_components attrs).1 = Some n → A_Modulus n ∈ attrs) ∧
  ((Crypto.rsa_components attrs).2 = Some e → A_PublicExponent e ∈ attrs).
Proof.
  unfold Crypto.rsa_components. induction attrs as [|a attrs IH] using rev_ind; [done|].
  rewrite foldl_snoc, !elem_of_app, !list_elem_of_singleton.
  destruct (foldl _ _ attrs) as [m' e'], IH as [IH1 IH2]; simpl in *.
  destruct a; simpl; split; intros; simplify_eq; auto.
Qed.

Lemma unwrap_ec_point l p sec1 k :
  public_attribute l (A_EcPoint p) → Crypto.unwrap_der_octet_string p = Ok sec1 →
  p256_from_sec1 sec1 = Ok k → Crypto.ec_token k (pair_valid l).
Proof.
  intros (sec1'&Hb&Hp&Hk)%ec_point Hu. destruct Hp as [->|(h&Ho&->)].
  - rewrite Crypto.unwrap_bare in Hu by done. simplify_eq. apply Hk.
  - rewrite <-(app_nil_r sec1') in Hu. rewrite Crypto.unwrap_complete in Hu; [|done|].
    + simplify_eq. apply Hk.
    + rewrite app_nil_r. intros [Hl _]. destruct Hb as [Hb _]. rewrite length_app, Hb in Hl.
      destruct Ho; simpl in Hl; lia.
Qed.

(** [public_key_to_spki_der] encodes the pair's own public key. *)
Lemma public_key_sound x h l w der t w' :
  well_kept w → names w x h PUBLIC_KEY l →
  Crypto.public_key_to_spki_der x h w = (Ok (der, t), w') → is_public_key l der.
Proof.
  intros Hk Hn. unfold Crypto.public_key_to_spki_der, with_context. unfold_st.
  pose proof (attributes_spare x h [AT_KeyType] w) as He.
  destruct (get_attributes x h [AT_KeyType] w) as [[vs|e] w1] eqn:Hg; [|done]. simpl in He.
  destruct vs as [|a vs]; [done|]. simpl.
  pose proof (read_public x h _ w _ w1 l a Hk Hn Hg (list_elem_of_here _ _)) as Ha.
  assert (well_kept w1 ∧ names w1 x h PUBLIC_KEY l) as [Hk1 Hn1] by (split; by apply He).
  clear He Hg Hk Hn. unfold is_public_key.
  destruct a as [| | | | | | | | | |[| | |]| | | | | | | |]; try done.
  - rewrite (key_type_ec _ Ha). unfold Crypto.ec_spki, with_context. unfold_st.
    destruct (get_attributes x h [AT_EcPoint] w1) as [[vs'|e] w2] eqn:Hg; [|done]. simpl.
    destruct (Crypto.find_ec_point vs') as [p|] eqn:Hp; [|done]. simpl.
    destruct (Crypto.unwrap_der_octet_string p) as [sec1|] eqn:Hu; [|done]. simpl.
    destruct (p256_from_sec1 sec1) as [k|] eqn:Hs; [|done]. simpl.
    destruct (p256_to_spki k) as [d|] eqn:Hd; [|done]. intros [= -> _ _].
    exists k. split; [by eapply Crypto.p256_spki_round_trip|].
    eapply unwrap_ec_point; [|done..]. eapply (read_public x h); [done..|].
    by apply find_ec_point_elem.
  - rewrite (key_type_rsa _ Ha). unfold Crypto.rsa_spki, with_context. unfold_st.
    destruct (get_attributes x h [AT_Modulus; AT_PublicExponent] w1) as [[vs'|e] w2] eqn:Hg; [|done]. simpl.
    destruct (Crypto.rsa_components vs') as [[n|] [e|]] eqn:Hc; try done. simpl.
    destruct (rsa_new _ _) as [k|] eqn:Hr; [|done]. simpl.
    destruct (rsa_to_spki k) as [d|] eqn:Hd; [|done]. intros [= -> _ _].
    exists k. split; [by eapply Crypto.rsa_spki_round_trip|].
    destruct (rsa_components_elem vs' n e) as [Hm He]. rewrite Hc in Hm, He.
    eapply rsa_components_key; [| |done]; eapply (read_public x h); eauto.
Qed.

(** ** Serving a job *)

Lemma search_named kind label s :
  sound s →
  let '(r, s') := search kind label s in
  sound s' ∧ s'.1 = s.1 ∧
  ∀ h, r = Ok h → names (world s'.2) (session s'.1) h (object_class kind) label.
Proof.
  intros Hs. pose proof (search_moves (spares (λ _, True)) find_spares kind label s) as Hm.
  pose proof (search_frame kind label s) as (Hf&_).
  destruct (search kind label s) as [r s'] eqn:Hr. simpl in *.
  split; [by apply (sound_spared (λ _, True) s)|]. split; [done|]. intros h ->. rewrite Hf.
  revert Hr. unfold search, call, find_object, with_context. unfold_st. intros Hr.
  destruct (find_objects (session s.1) _ (world s.2)) as [[hs|e] w'] eqn:Hfind; simpl in Hr; [|done].
  destruct hs as [|h' hs]; simplify_eq/=.
  eapply find_names; [apply Hs|done|left].
Qed.

Lemma remember_sound kind label h s :
  sound s → names (world s.2) (session s.1) h (object_class kind) label → sound (remember kind label h s).
Proof.
  intros [Hk Hn] Hh. split; [done|]. intros label' kh' kind' h'. simpl.
  intros [[<- <-]|[_ Hl]]%lookup_insert_Some; [|by apply Hn].
  rewrite handles_get_set. case_decide as Hkind; [intros [= <-]; by subst|].
  destruct (handles s.1 !! label) as [kh|] eqn:Hl; simpl; [by apply Hn|].
  by rewrite handles_get_default.
Qed.

Lemma handle_named kind label s :
  sound s →
  let '(r, s') := handle kind label s in
  sound s' ∧ ∀ h, r = Ok h → names (world s'.2) (session s'.1) h (object_class kind) label.
Proof.
  intros Hs. unfold handle.
  destruct (handles s.1 !! label ≫= λ h, handles_get h kind) as [h|] eqn:Hl.
  - apply bind_Some in Hl as (kh&Hl&Hg). split; [done|]. intros h' [= <-]. by eapply Hs.
  - pose proof (search_named kind label (count HandleMisses 1 s) Hs) as H.
    destruct (search kind label (count HandleMisses 1 s)) as [[h|e] s'].
    + destruct H as (Hs'&_&Hn). specialize (Hn h eq_refl).
      split; [by apply remember_sound|]. by intros h' [= <-].
    + by destruct H as (Hs'&_&_).
Qed.

(** One call on the session, with a handle that means what it should. *)
Lemma perform_vouched key req s r s' :
  sound s → names (world s.2) (session s.1) key (object_class (key_kind req)) (key_label_of req) →
  perform key req s = (Ok r, s') → vouched req r.
Proof.
  intros [Hk _] Hn. unfold perform.
  destruct req; simpl in *; unfold_st; unfold on_session, call.
  - destruct (sign _ _ _ _ _) as [[sg|e] w'] eqn:Hc; simpl; intros; simplify_eq/=.
    rewrite <-mechanism_ecdsa. by eapply sign_valid.
  - intros. repeat case_match; by simplify_eq.
  - destruct (gcm_params _ _ _) as [p|]; simpl; [|done].
    destruct (encrypt _ _ _ _ _) as [[c|e] w'] eqn:Hc; simpl; intros; simplify_eq/=.
    exists p. split; [done|]. by eapply encrypt_opens.
  - destruct (gcm_params _ _ _) as [p|]; simpl; [|done].
    destruct (decrypt _ _ _ _ _) as [[d|e] w'] eqn:Hc; simpl; intros; simplify_eq/=.
    + exists p. split; [done|]. by eapply decrypt_opens.
    + by repeat case_match.
  - destruct (Crypto.public_key_to_spki_der _ _ _) as [[[der t]|e] w'] eqn:Hc; simpl; intros; simplify_eq/=.
    by eapply public_key_sound.
Qed.

(** A call ends the handles of no other session, and those of its own only with
    an error that [execute] resets the session for. *)
Lemma call_spares {A} (m : stR World CkError A) s :
  operates (session s.1) m →
  spares (λ y, y ≠ session s.1 ∨ session_lost (call m s).1 = false)
    (world s.2) (world (call m s).2.2).
Proof. intros Hm. specialize (Hm (world s.2)). unfold call. by destruct (m (world s.2)). Qed.

Lemma perform_spares key req s :
  spares (λ y, y ≠ session s.1 ∨ not_fatal (perform key req s).1)
    (world s.2) (world (perform key req s).2.2).
Proof.
  unfold perform. destruct req; simpl; unfold_st; unfold on_session.
  3,4: destruct (gcm_params _ _ _); [|apply spares_preorder].
  1-4: match goal with |- context [call ?m ?a] =>
         pose proof (call_spares m a) as Hc; destruct (call m a) as [[r|e] s1] end;
       simpl in *; split_cases;
       (eapply spares_mono; [|apply Hc;
          auto using sign_operates, verify_operates, encrypt_operates, decrypt_operates]);
       (intros y [Hy|Hnf]; [by left|right]); first [done|exact (Hnf _ _ eq_refl)].
  unfold call, stR_map_err.
  pose proof (public_key_preserves (spares (λ _, True)) (session s.1) key attributes_spare (world s.2)) as Hw.
  destruct (Crypto.public_key_to_spki_der (session s.1) key (world s.2)) as [[]]; simpl in *;
    by apply (spares_mono (λ _, True)).
Qed.

Lemma dispatch_vouched req s :
  sound s →
  let '(r, s') := dispatch_with handle req s in
  session s'.1 = session s.1 ∧ (not_fatal r → sound s') ∧
  spares (λ y, y ≠ session s.1 ∨ not_fatal r) (world s.2) (world s'.2) ∧
  well_kept (world s'.2) ∧ ∀ a, r = Ok a → vouched req a.
Proof.
  intros Hs. rewrite dispatch_perform.
  pose proof (handle_named (key_kind req) (key_label_of req) s Hs) as Hh.
  pose proof (handle_moves (spares (λ _, True)) find_spares (key_kind req) (key_label_of req) s) as Hm.
  pose proof (handle_session (key_kind req) (key_label_of req) s) as Hx.
  destruct (handle (key_kind req) (key_label_of req) s) as [[key|e] s1]; simpl in *.
  - destruct Hh as [Hs1 Hn]. specialize (Hn key eq_refl).
    pose proof (perform_spares key req s1) as Hp.
    pose proof (dispatch_frame (λ _ _ s, (Ok key, s)) req s1) as (Hf&_).
    change (dispatch_with (λ _ _ s, (Ok key, s)) req s1) with (perform key req s1) in Hf. simpl in Hf.
    destruct (perform key req s1) as [r s2] eqn:Hpe. simpl in *. rewrite Hx in Hp.
    split; [by rewrite Hf|]. split; [intros Hnf; apply (sound_spared _ s1 s2) in Hp; try done; by right|].
    split; [etrans; [by apply (spares_mono (λ _, True))|done]|]. split; [apply Hp, Hs1|].
    intros a ->. by eapply perform_vouched.
  - destruct Hh as [Hs1 _]. split; [done|]. split; [done|].
    split; [by apply (spares_mono (λ _, True))|]. split; [apply Hs1|done].
Qed.

(** Opening a session leaves the handles of the open sessions alone. *)
Lemma open_spares_held ctx sl w w0 :
  same_held w0 w → spares (held w0) w (open_rw_session ctx sl w).2.
Proof.
  intros Hsame. eapply spares_mono; [|apply open_spares]. intros y Hy.
  pose proof (open_held ctx sl w) as Ho. destruct (open_rw_session ctx sl w) as [[x|e] w']; [|done].
  simpl. intros [= ->]. by apply Ho, Hsame.
Qed.

Lemma login_session_spares ctx sl tok w :
  spares (held w) w (login_session ctx sl tok w).2.
Proof.
  unfold login_session, with_context. unfold_st.
  pose proof (open_spares_held ctx sl w w) as Ho. pose proof (open_held ctx sl w) as Hf.
  destruct (open_rw_session ctx sl w) as [[x|e] w1]; simpl in *; [|by apply Ho].
  pose proof (login_spares x (user_pin tok) w1) as Hl.
  destruct (login x (user_pin tok) w1) as [[u|e] w2]; simpl in *.
  all: etrans; [by apply Ho|]; etrans; [by apply (spares_mono (λ _, True))|]; try reflexivity.
  eapply spares_mono; [|apply close_spares]. intros y Hy ->. by apply Hf.
Qed.

Lemma open_worker_session_spares ctx sl tok w :
  spares (held w) w (open_worker_session ctx sl tok w).2.
Proof.
  unfold open_worker_session. pose proof (login_session_spares ctx sl tok w) as Hl.
  pose proof (login_session_held ctx sl tok w) as Hh.
  destruct (login_session ctx sl tok w) as [[x|e] w1]; [done|].
  destruct (match downcast_ck e with Some _ => _ | None => _ end); [|done].
  unfold_st. pose proof (open_spares_held ctx sl w1 w Hh) as Ho.
  destruct (open_rw_session ctx sl w1) as [[]]; by etrans.
Qed.

(** After a reset the worker has no handles: those it had were found on a session
    that is closed, or that was reported gone. *)
Lemma reset_sound s :
  well_kept (world s.2) →
  sound (reset_session s) ∧
  spares (λ y, held (world s.2) y ∧ y ≠ session s.1) (world s.2) (world (reset_session s).2).
Proof.
  intros Hk. pose proof (reset_handles s) as Hh. unfold reset_session, call in *. simpl in *.
  pose proof (open_worker_session_spares (pkcs11 s.1) (slot s.1) (token s.1) (world s.2)) as Ho.
  destruct (open_worker_session _ _ _ (world s.2)) as [[x|e] w']; simpl in *.
  all: assert (spares (λ y, held (world s.2) y ∧ y ≠ session s.1) (world s.2) w') as Hs
    by (eapply spares_mono; [|exact Ho]; by intros y []).
  - assert (spares (λ y, held (world s.2) y ∧ y ≠ session s.1) (world s.2)
              (close (session s.1) w')) as Hc
      by (etrans; [done|]; eapply spares_mono; [|apply close_spares]; by intros y []).
    split; [|done]. split; simpl; [by apply Hc|by apply no_handles_named].
  - split; [|done]. split; simpl; [by apply Hs|by apply no_handles_named].
Qed.

(** One turn of a worker's loop. *)
Lemma serve_vouched t1 t2 job s :
  sound s →
  let '(r, s') := serve t1 t2 job s in
  sound s' ∧
  spares (λ y, held (world s.2) y ∧ y ≠ session s.1) (world s.2) (world s'.2) ∧
  ∀ a, r = Ok a → vouched (request job) a.
Proof.
  intros Hs.
  assert (let '(r, s') := execute_with handle (request job) s in
          sound s' ∧
          spares (λ y, held (world s.2) y ∧ y ≠ session s.1) (world s.2) (world s'.2) ∧
          ∀ a, r = Ok a → vouched (request job) a) as He.
  { unfold execute_with. pose proof (dispatch_vouched (request job) s Hs) as Hd.
    pose proof (dispatch_held (request job) s) as [Hh _].
    destruct (dispatch_with handle (request job) s) as [r s1]. simpl in Hh.
    destruct Hd as (Hx&Hs1&Hsp&Hk&Hv).
    assert (spares (λ y, held (world s.2) y ∧ y ≠ session s.1) (world s.2) (world s1.2)) as Hsp1
      by (eapply spares_mono; [|exact Hsp]; intros y []; by left).
    destruct r as [a|[| | | | |op e|]]; try (split; [apply Hs1; by intros ? ?|done]).
    destruct (is_session_fatal e) eqn:Hf; [|split; [apply Hs1; by intros ? ? [= <- <-]|done]].
    destruct (reset_sound s1 Hk) as [Hr Hspr]. split; [done|]. split; [|done].
    etrans; [done|]. eapply spares_mono; [|exact Hspr]. intros y [Hy Hne]. rewrite Hx.
    split; [by apply Hh|done]. }
  unfold serve, serve_with. destruct (execute_with handle (request job) s) as [r s1].
  by destruct r.
Qed.

(** A worker that leaves ends its own session only. *)
Lemma retire_spares s :
  spares (λ y, y ≠ session s.1) (world s.2) (world (retire s).2) ∧ (retire s).1 = s.1 ∧
  ∀ y, held (world (retire s).2) y ↔ held (world s.2) y ∧ y ≠ session s.1.
Proof.
  unfold retire. pose proof (logout_spares (session s.1) (world s.2)) as Hl.
  pose proof (logout_held (session s.1) (world s.2)) as Hh.
  destruct (logout (session s.1) (world s.2)) as [r w]. simpl in *.
  split; [etrans; [done|apply close_spares]|]. split; [done|].
  intros y. by rewrite close_held, (Hh y).
Qed.

(** ** The workers of a pool

    Every worker that has not left holds a session of its own, and its handles
    were found there. *)

Definition at_work (ws : list (Worker * Phase)) (i : nat) (wk : Worker) : Prop :=
  ∃ ph, ws !! i = Some (wk, ph) ∧ ph ≠ Exited.

Record crew_sound (ws : list (Worker * Phase)) w : Prop := {
  cs_named i wk : at_work ws i wk → handles_named w wk;
  cs_held i wk : at_work ws i wk → held w (session wk);
  cs_apart i j wk wk' :
    at_work ws i wk → at_work ws j wk' → i ≠ j → session wk ≠ session wk'
}.

Lemma at_work_insert ws i wk ph j wk' :
  at_work (<[i := (wk, ph)]> ws) j wk' →
  (i = j ∧ wk' = wk ∧ ph ≠ Exited) ∨ (i ≠ j ∧ at_work ws j wk').
Proof.
  intros (ph'&[(->&[= -> ->]&_)|[Hne Hl]]%list_lookup_insert_Some&Hph); [by left|].
  right. split; [done|]. by exists ph'.
Qed.

(** A worker served a job, and perhaps replaced its session. *)
Lemma crew_served ws i ph (s s' : WState) :
  at_work ws i s.1 → crew_sound ws (world s.2) → exchanged s s' → handles_named (world s'.2) s'.1 →
  spares (λ y, held (world s.2) y ∧ y ≠ session s.1) (world s.2) (world s'.2) →
  crew_sound (<[i := (s'.1, ph)]> ws) (world s'.2).
Proof.
  intros Hi [Hn Hh Ha] (Hh'&He&Hf) Hn' Hsp.
  assert (∀ j wk, i ≠ j → at_work ws j wk → session s'.1 ≠ session wk) as Hapart.
  { intros j wk Hne Hj. destruct Hf as [->|Hf]; [by eapply Ha|]. intros Heq. rewrite Heq in Hf. eauto. }
  assert (∀ j wk, i ≠ j → at_work ws j wk → session wk ≠ session s.1) as Hold
    by (intros j wk Hne Hj; by eapply Ha).
  split.
  - intros j wk [(_&->&_)|[Hne Hj]]%at_work_insert; [done|].
    eapply handles_named_spared; [|done|by eapply Hn]. split; [by eapply Hh|by eapply Hold].
  - intros j wk [(_&->&_)|[Hne Hj]]%at_work_insert; [done|].
    apply He. right. split; [by eapply Hh|by eapply Hold].
  - intros j k wk wk' [(<-&->&_)|[Hj1 Hj]]%at_work_insert [(<-&->&_)|[Hk1 Hk]]%at_work_insert Hne;
      [done|by eapply Hapart|symmetry; by eapply Hapart|by eapply Ha].
Qed.

Lemma crew_left ws i (s : WState) :
  at_work ws i s.1 → crew_sound ws (world s.2) →
  crew_sound (<[i := ((retire s).1, Exited)]> ws) (world (retire s).2).
Proof.
  intros Hi [Hn Hh Ha]. destruct (retire_spares s) as (Hsp&->&Hheld).
  assert (∀ j wk, i ≠ j → at_work ws j wk → session wk ≠ session s.1) as Hold
    by (intros j wk Hne Hj; by eapply Ha).
  split.
  - intros j wk [(_&_&?)|[Hne Hj]]%at_work_insert; [done|].
    eapply handles_named_spared; [|done|by eapply Hn]. by eapply Hold.
  - intros j wk [(_&_&?)|[Hne Hj]]%at_work_insert; [done|].
    apply Hheld. split; [by eapply Hh|by eapply Hold].
  - intros j k wk wk' [(_&_&?)|[_ Hj]]%at_work_insert [(_&_&?)|[_ Hk]]%at_work_insert Hne;
      [done..|by eapply Ha].
Qed.

Lemma crew_took ws i wk ph ph' w :
  ws !! i = Some (wk, ph) → ph ≠ Exited → crew_sound ws w → crew_sound (<[i := (wk, ph')]> ws) w.
Proof.
  intros Hi Hph [Hn Hh Ha].
  assert (∀ j wk', at_work (<[i := (wk, ph')]> ws) j wk' → at_work ws j wk') as Hback.
  { intros j wk' [(<-&->&_)|[_ ?]]%at_work_insert; [by exists ph|done]. }
  split; eauto.
Qed.
End answers.

(** ** The pool *)

Section pool.
Context {CK : Cryptoki} {CL : CryptoLib} {SL : Crypto.SpkiLaws CL} {KS : KeyStore CK CL}.
Context {ST : SessionTable CK} {CH : Channel} {CHO : ChannelOk CH}.
Implicit Types p : Pool.

(** [submit] returned [r] for a job [req]. *)
Definition answered p (req : JobRequest) (r : JobResponse) : Prop :=
  ∃ id, calls p !! id = Some req ∧ (id, Ok r) ∈ returned p.

Record pool_sound p : Prop := {
  ps_kept : well_kept (world (shared p));
  ps_crew : crew_sound (workers p) (world (shared p));
  ps_sent id req r : sent p !! id = Some (Ok r) → calls p !! id = Some req → vouched req r;
  ps_returned req r : answered p req r → vouched req r
}.

(** A step that changes neither the calls nor the workers nor the token, and
    invents no answer. *)
Lemma pool_sound_frame p p' :
  workers p' = workers p → world (shared p') = world (shared p) → calls p' = calls p →
  (∀ id r, sent p' !! id = Some (Ok r) → sent p !! id = Some (Ok r)) →
  (∀ id r, (id, Ok r) ∈ returned p' → (id, Ok r) ∈ returned p ∨ sent p !! id = Some (Ok r)) →
  pool_sound p → pool_sound p'.
Proof.
  intros Hw Hwd Hc Hs Hr [Hk Hh Hsent Hret]. split; rewrite ?Hw, ?Hwd, ?Hc; try done.
  - intros id req r Hid. rewrite ?Hc. eauto.
  - intros req r (id&Hreq&Hin). rewrite Hc in Hreq.
    destruct (Hr id r Hin) as [Hin'|Hs']; [|by eapply Hsent]. apply Hret. by exists id.
Qed.

Lemma submit_sound req p : pool_ok p → pool_sound p → pool_sound (submit req p).
Proof.
  intros Hok [Hk Hh Hsent Hret]. pose proof (ok_ledger _ Hok) as L.
  assert (∀ id req' r, id ≠ next_call p ∨ sent p !! id = Some (Ok r) →
    <[next_call p := req]> (calls p) !! id = Some req' →
    (id ≠ next_call p → calls p !! id = Some req' → vouched req' r) → vouched req' r) as Hother.
  { intros id req' r Hid Hc Hv. destruct (decide (id = next_call p)) as [->|Hne].
    - destruct Hid as [|Hs]; [done|].
      destruct (l_sent _ _ _ _ _ _ L _ _ Hs) as (_&_&req0&Hc0&_).
      by rewrite (fresh_call _ _ _ _ _ _ L) in Hc0.
    - rewrite lookup_insert_ne in Hc by done. auto. }
  assert (∀ id r, (id, Ok r) ∈ returned p → id ≠ next_call p) as Hfresh.
  { intros id r Hin ->. apply (fresh_returned _ _ _ _ _ _ L). apply list_elem_of_fmap. by exists (next_call p, Ok r). }
  unfold submit. cbn [tx with_metrics]. destruct (try_send _ _) as [[[]|[]] c]; split; simpl; try done.
  all: try (intros id req' r Hs Hc; try apply lookup_delete_Some in Hs as [_ Hs];
            eapply Hother; [by right|done|intros _ Hc'; by eapply Hsent]).
  all: intros req' r (id&Hc&Hin); simpl in *; try (apply elem_of_cons in Hin as [?|Hin]; [done|]);
    eapply Hother; [left; by eapply Hfresh|done|]; intros _ Hc'; apply Hret; by exists id.
Qed.

Lemma poll_sound id p : pool_sound p → pool_sound (poll id p).
Proof.
  unfold poll. destruct (awaiting p !! id); [|done]. destruct (sent p !! id) as [o|] eqn:Hs.
  - apply pool_sound_frame; try done; simpl.
    + by intros id' r [_ ?]%lookup_delete_Some.
    + intros id' r [[= -> <-]|?]%elem_of_cons; auto.
  - destruct (_ <=? clock p); [|done]. apply pool_sound_frame; try done; simpl.
    + by intros id' r [_ ?]%lookup_delete_Some.
    + intros id' r [?|?]%elem_of_cons; [done|]. auto.
Qed.

Lemma cancel_sound id p : pool_sound p → pool_sound (cancel id p).
Proof.
  apply pool_sound_frame; try done; simpl; [|auto]. by intros id' r [_ ?]%lookup_delete_Some.
Qed.

Lemma take_sound i p : pool_sound p → pool_sound (worker_take i p).
Proof.
  unfold worker_take. destruct (workers p !! i) as [[w []]|] eqn:Hw; try done.
  destruct (recv (tx p)) as [[job|] c]; [|done]. intros [Hk Hc Hsent Hret]. split; simpl; try done.
  by eapply crew_took.
Qed.

Lemma finish_sound i p : pool_ok p → pool_sound p → pool_sound (worker_finish i p).
Proof.
  intros Hok Hp. unfold worker_finish.
  destruct (workers p !! i) as [[w [|job t1|]]|] eqn:Hw; try done.
  assert (at_work (workers p) i w) as Hi by (by exists (Busy job t1)).
  assert (sound (w, shared p)) as Hs.
  { split; [apply Hp|]. by apply (cs_named _ _ (ps_crew p Hp) i). }
  assert (calls p !! responder job = Some (request job)) as Hjob.
  { eapply (l_jobs _ _ _ _ _ _ (ok_ledger _ Hok)). unfold jobs. apply elem_of_app. right.
    apply list_elem_of_omap. exists (w, Busy job t1). split; [by eapply list_elem_of_lookup_2|done]. }
  pose proof (serve_vouched t1 (clock p) job (w, shared p) Hs) as Hv.
  pose proof (serve_exchanged t1 (clock p) job (w, shared p) (cs_held _ _ (ps_crew p Hp) i w Hi)) as Hx.
  destruct (serve t1 (clock p) job (w, shared p)) as [r [w' sh']]. destruct Hv as ([Hk Hn]&Hsp&Hv).
  pose proof (crew_served _ i Idle (w, shared p) (w', sh') Hi (ps_crew p Hp) Hx Hn Hsp) as Hws.
  destruct Hp as [_ _ Hsent Hret]. simpl in *.
  case_decide; (split; simpl; [done|exact Hws| |exact Hret]); [|exact Hsent].
  intros id req a [[<- Hr]|[_ Hs']]%lookup_insert_Some Hc; [|eauto].
  simplify_eq. by apply Hv.
Qed.

Lemma exit_sound i p : pool_sound p → pool_sound (worker_exit i p).
Proof.
  intros Hp. unfold worker_exit. destruct (workers p !! i) as [[w []]|] eqn:Hw; try done.
  destruct (negb (tx_open p) && _); [|done].
  pose proof (crew_left (workers p) i (w, shared p)) as Hws.
  destruct (retire_spares (w, shared p)) as ([Hkept _]&_).
  destruct (retire (w, shared p)) as [w' sh']. simpl in *.
  destruct Hp as [Hk Hc Hsent Hret]. split; simpl; [auto| |exact Hsent|exact Hret].
  apply Hws; [by exists Idle|done].
Qed.

Lemma apply_sound a p : pool_ok p → pool_sound p → pool_sound (apply a p).
Proof.
  intros Hok Hp. destruct a; simpl;
    auto using submit_sound, poll_sound, cancel_sound, take_sound, finish_sound, exit_sound.
  all: by destruct Hp.
Qed.

(** Starting: every worker opens a session of its own. *)
Lemma open_all_sessions ctx sl tok order w ws w' :
  open_all ctx sl tok order w = (Ok <$> ws, w') →
  (∀ y, held w y → held w' y) ∧ NoDup (session <$> ws) ∧
  ∀ wk, wk ∈ ws → handles wk = ∅ ∧ held w' (session wk) ∧ ¬ held w (session wk).
Proof.
  revert w ws. induction order as [|i order IH]; intros w ws; simpl.
  { intros [= Hws <-]. destruct ws; [|done]. split; [done|]. split; [constructor|by intros ? ?%elem_of_nil]. }
  unfold worker_new, stR_map. pose proof (open_worker_session_held ctx sl tok w) as Ho.
  destruct (open_worker_session ctx sl tok w) as [[x|e] w1].
  all: destruct (open_all ctx sl tok order w1) as [rs w2] eqn:Hr; intros [= Hws <-].
  all: destruct ws as [|wk ws]; simplify_eq/=. destruct (IH w1 ws Hr) as (Hm&Hnd&Hall), Ho as [Hx Ho].
  split; [intros y Hy; apply Hm, Ho; by right|]. split.
  - constructor; [|done]. intros (wk&Heq&Hin)%list_elem_of_fmap.
    destruct (Hall wk Hin) as (_&_&Hn). apply Hn, Ho. left. done.
  - intros wk' [->|Hin]%elem_of_cons; simpl.
    + split; [done|]. split; [apply Hm, Ho; by left|done].
    + destruct (Hall wk' Hin) as (?&?&Hn). split; [done|]. split; [done|].
      intros Hy. apply Hn, Ho. by right.
Qed.

(** A pool as it was started, on a token that is well kept. *)
Lemma started_sound p : started p → well_kept (world (shared p)) → pool_sound p.
Proof.
  intros (se&order&now&tok&config&w&w'&_&Hs) Hk. unfold start in Hs.
  destruct (load_module tok w) as [[[ctx sl]|e] w1]; [|done].
  destruct (first_spawn_error _ _) as [[]|]; [by destruct (open_all _ _ _ _ _)|].
  pose proof (open_all_sessions ctx sl tok order w1) as Ho.
  destruct (open_all ctx sl tok order w1) as [rs w2].
  destruct (await_ready rs) as [ws|e] eqn:Hr; simplify_eq. apply await_ready_ok in Hr as ->.
  destruct (Ho _ _ eq_refl) as (_&Hnd&Hall). split; simpl in *; try done.
  - assert (∀ i wk, at_work ((λ wk, (wk, Idle)) <$> ws) i wk → ws !! i = Some wk) as Hat.
    { intros i wk (ph&Hi&_). rewrite list_lookup_fmap in Hi. by destruct (ws !! i); simplify_eq/=. }
    split.
    + intros i wk ?%Hat%list_elem_of_lookup_2. by apply no_handles_named, Hall.
    + intros i wk ?%Hat%list_elem_of_lookup_2. by apply Hall.
    + intros i j wk wk' Hi%Hat Hj%Hat Hne Heq. apply Hne, (NoDup_lookup _ i j (session wk) Hnd);
        rewrite list_lookup_fmap, ?Hi, ?Hj; simpl; congruence.
  - intros req r (id&_&?%elem_of_nil). done.
Qed.

Lemma pool_steps_sound p p' : rtc step p p' → pool_ok p → pool_sound p → pool_sound p'.
Proof.
  induction 1 as [|p1 p2 p3 H12 _ IH]; [done|]. intros Hok Hp.
  apply IH; [by eapply step_ok|]. destruct H12. by apply apply_sound.
Qed.

(** C9: The answers of the pool are the token's.  In every state that a pool started
    on a well-kept token reaches, whatever interleaving of submitters, workers,
    timeouts, cancellations, broken and reopened sessions led there, a response
    that [submit] returned is vouched for, although an object handle means
    something only to the session that found it and only until that session
    ends: a signature is valid under the pair
    with the job's label, a public key is that pair's, and a ciphertext or a
    plaintext is that of the secret key with the label. *)
Theorem pool_answers_are_the_tokens p0 p req r :
  started p0 → well_kept (world (shared p0)) → rtc step p0 p → answered p req r → vouched req r.
Proof.
  intros H0 Hk Hr. apply ps_returned, (pool_steps_sound p0); [done|by apply started_ok|].
  by apply started_sound.
Qed.
End pool.

(** ** A witness: the toy token keeps its promises *)

Module AnswersWitness.
Import Toy PoolWitness.

Definition wrapped_point : bytes := x04 :: x41 :: toy_point.

(** Every pair is the toy EC pair. *)
Definition toy_kept (w : TWorld) : Prop :=
  ∀ h attrs, mjoin (objects w !! h) = Some attrs →
    A_Class PUBLIC_KEY ∈ attrs ∨ A_Class PRIVATE_KEY ∈ attrs →
    A_KeyType KT_RSA ∉ attrs ∧ ∀ p, A_EcPoint p ∈ attrs → p = wrapped_point.

(** A handle is good for a session that is open and not broken. *)
Definition toy_names (w : TWorld) (x h : nat) (c : ObjectClass) (l : string) : Prop :=
  alive x w = true ∧
  ∃ attrs, mjoin (objects w !! h) = Some attrs ∧ A_Class c ∈ attrs ∧ A_Label (as_bytes l) ∈ attrs.

Definition toy_public (a : Attribute) : Prop :=
  a ≠ A_KeyType KT_RSA ∧ ∀ p, a = A_EcPoint p → p = wrapped_point.

Definition toy_opens (p : GcmParams) (d : bytes) : option bytes :=
  let pt := take (length d - 16) d in
  if (length d <? 16)%nat then None
  else if bool_decide (drop (length d - 16) d = toy_tag p pt) then Some pt else None.

Lemma toy_tag_length p d : length (toy_tag p d) = 16%nat.
Proof.
  unfold toy_tag, Crypto.toy_sha256. rewrite !length_take, length_app, length_replicate. lia.
Qed.

Lemma toy_opens_tag p d : toy_opens p (d ++ toy_tag p d) = Some d.
Proof.
  unfold toy_opens. rewrite length_app, toy_tag_length.
  destruct (Nat.ltb_spec (length d + 16) 16); [lia|].
  replace (length d + 16 - 16)%nat with (length d) by lia.
  by rewrite take_app_length, drop_app_length, bool_decide_eq_true_2.
Qed.

Lemma indices_elem p n l h :
  h ∈ indices p n l → ∃ o, l !! (h - n)%nat = Some o ∧ p o = true ∧ (n ≤ h)%nat.
Proof.
  revert n. induction l as [|o l IH]; intros n; simpl; [by intros ?%elem_of_nil|].
  destruct (p o) eqn:Hp; [intros [->|Hin]%elem_of_cons; [exists o; by rewrite Nat.sub_diag|]|intros Hin].
  all: destruct (IH _ Hin) as (o'&Ho&Hpo&Hle); exists o'.
  all: replace (h - n)%nat with (S (h - S n)) by lia; simpl; split; [done|]; split; [done|lia].
Qed.

Lemma toy_find_names w x c l hs h :
  toy_view w x (find_template c l) = Ok hs → h ∈ hs → toy_names w x h c l.
Proof.
  unfold toy_view, toy_names. destruct (alive x w); [|done]. intros [= <-] Hin.
  apply indices_elem in Hin as (o&Ho&Hm&_). rewrite Nat.sub_0_r in Ho.
  destruct o as [attrs|]; [|done]. simpl in Hm. rewrite !andb_true_iff, !bool_decide_eq_true in Hm.
  split; [done|]. exists attrs. rewrite Ho. naive_solver.
Qed.

Lemma toy_read w x h ts vs a attrs :
  toy_get_attributes x h ts w = Ok vs → mjoin (objects w !! h) = Some attrs → a ∈ vs → a ∈ attrs.
Proof.
  unfold toy_get_attributes. destruct (alive x w); [|done]. intros Hr Ho. rewrite Ho in Hr.
  simplify_eq. rewrite list_elem_of_bind. intros (t&Ha&_).
  by apply list_elem_of_In, filter_In, proj1, list_elem_of_In in Ha.
Qed.

Lemma with_key_ok {A} f x h w (k : list Attribute → result A CkError) r :
  with_key f x h w k = Ok r → ∃ attrs, mjoin (objects w !! h) = Some attrs ∧ k attrs = Ok r.
Proof.
  unfold with_key. destruct (negb (alive x w)); [done|]. destruct (negb (logged_in w)); [done|].
  destruct (mjoin (objects w !! h)); [|done]. eauto.
Qed.

Lemma toy_sign_valid x m h d w s w' l :
  toy_kept w → toy_names w x h PRIVATE_KEY l → toy_sign x m h d w = (Ok s, w') →
  Crypto.toy_valid m d s = true ∧ m = M_Ecdsa.
Proof.
  intros Hk (_&attrs&Ho&Hc&_) Hs. destruct (Hk _ _ Ho (or_intror Hc)) as [Hrsa _].
  assert (∃ attrs, mjoin (objects w !! h) = Some attrs ∧ toy_sign_data attrs m d = Ok s)
    as (attrs'&Ho'&Hd).
  { unfold toy_sign in Hs. destruct (fuse w) as [[|n]|]; simplify_eq; by eapply with_key_ok. }
  simplify_eq. unfold toy_sign_data in Hd.
  rewrite (bool_decide_eq_false_2 (A_KeyType KT_RSA ∈ _)) in Hd by done.
  destruct m; simpl in Hd; try done. destruct (negb _); [done|].
  destruct (Nat.eqb_spec (length d) 32); [|done]. simplify_eq. simpl. split; [|done].
  rewrite length_app, bool_decide_eq_true_2, andb_true_r by done. apply Nat.eqb_eq. lia.
Qed.

Lemma toy_spares (P : nat → Prop) (w w' : TWorld) :
  objects w' = objects w → (∀ x, P x → alive x w = true → alive x w' = true) →
  (toy_kept w → toy_kept w') ∧
  ∀ x h c l, P x → toy_names w x h c l → toy_names w' x h c l.
Proof. intros Ho Ha. unfold toy_kept, toy_names. rewrite Ho. naive_solver. Qed.

Lemma alive_more x y w w' :
  opened w ⊆ opened w' → broken w' ⊆ y :: broken w → y ≠ x ∨ broken w' = broken w →
  alive x w = true → alive x w' = true.
Proof.
  unfold alive. rewrite !andb_true_iff, !bool_decide_eq_true. intros Ho Hb Hy [Hx Hnb]. split; [auto|].
  intros Hin. destruct Hy as [Hne|Heq]; [|by rewrite Heq in Hin].
  apply Hb, elem_of_cons in Hin as [->|?]; done.
Qed.

#[export] Instance toy_store : KeyStore toy_token Crypto.toy_lib.
Proof.
  refine (Build_KeyStore toy_token Crypto.toy_lib toy_kept toy_names (λ _, true)
    (λ _, Crypto.toy_valid) (λ _, toy_public) (λ _, toy_opens) _ _ _ _ _ _ _ _ _ _ _ _ _ _ _ _ _ _ _).
  - intros x t w. by apply toy_spares.
  - intros x h ts w. by apply toy_spares.
  - intros x m h d w. simpl. unfold toy_sign.
    destruct (fuse w) as [[|n]|]; apply toy_spares; try done. simpl.
    intros y Hy. apply (alive_more _ x); simpl; [done..|]. left. naive_solver.
  - intros x m h d sg w. by apply toy_spares.
  - intros x m h d w. by apply toy_spares.
  - intros x m h d w. by apply toy_spares.
  - intros ctx sl w. simpl. unfold toy_open. destruct (refuse w); apply toy_spares; try done.
    intros y _. apply (alive_more _ y); simpl; [set_solver..|by right].
  - intros x pin w. simpl. destruct (logged_in w); [by apply toy_spares|].
    case_match; by apply toy_spares.
  - intros x w. by apply toy_spares.
  - intros x w. apply toy_spares; [done|]. intros y Hne. unfold alive. simpl.
    rewrite !andb_true_iff, !bool_decide_eq_true, list_elem_of_filter. naive_solver.
  - intros x c l w hs w' h _ [= Hv <-]. by eapply toy_find_names.
  - intros x h ts w vs w' l a Hk (_&attrs&Ho&Hc&_) [= Hr <-] Ha.
    destruct (Hk _ _ Ho (or_introl Hc)) as [Hrsa Hp].
    pose proof (toy_read _ _ _ _ _ _ _ Hr Ho Ha). split; naive_solver.
  - intros x m h d w s w' l Hk Hn Hs. by destruct (toy_sign_valid _ _ _ _ _ _ _ _ Hk Hn Hs) as [? ->].
  - intros x p h d w c w' l _ _ [= Hc <-]. apply with_key_ok in Hc as (attrs&_&[= <-]).
    apply toy_opens_tag.
  - intros x p h c w d w' l _ _ [= Hc <-]. apply with_key_ok in Hc as (attrs&_&Hd).
    unfold toy_opens. cbv zeta in Hd |- *. destruct (length c <? 16)%nat; [done|].
    by destruct (bool_decide _); simplify_eq.
  - done.
  - by intros l [? _].
  - intros l p [_ Hp]. rewrite (Hp p eq_refl). exists toy_point. split; [done|].
    split; [|intros; apply Crypto.toy_ec_token]. right. exists [x04; x41]. split; [|done].
    constructor; [done|]. unfold toy_point. simpl. lia.
  - intros. apply Crypto.toy_rsa_token.
Defined.

Lemma demo_kept : toy_kept (world (shared demo_pool)).
Proof.
  intros h attrs Ho _. assert (objects (world (shared demo_pool)) = objects demo_world) as Hd by reflexivity.
  rewrite Hd in Ho. unfold demo_world in Ho. simpl in Ho.
  destruct h as [|[|[|h]]]; simplify_eq/=; split; set_solver.
Qed.

(** The demo pool signed, and the signature is valid. *)
Lemma pool_answers_are_the_tokens_witness :
  answered (CK := toy_token) (CH := list_channel) demo_after sign_req (Signature (replicate 64 x07)) ∧
  vouched sign_req (Signature (replicate 64 x07)).
Proof.
  assert (answered (CK := toy_token) (CH := list_channel) demo_after sign_req (Signature (replicate 64 x07)))
    as Ha.
  { exists 0%nat. split; [reflexivity|]. vm_compute. repeat (left || right). }
  split; [exact Ha|].
  apply (pool_answers_are_the_tokens (KS := toy_store) (ST := WorkerWitness.toy_sessions) demo_pool demo_after).
  - exact demo_started.
  - exact demo_kept.
  - apply after_steps. vm_compute. reflexivity.
  - exact Ha.
Defined.
End AnswersWitness.
