(* ===== verification/Cache.v ===== *)
(** * The public key cache ([cache/mod.rs])

    [get_or_load] probes [moka]'s cache to attribute a hit or a miss, then calls
    [try_get_with_by_ref], which coalesces concurrent loads of a key.  The
    effects are the calls into [moka] and the counters; [cache_answer] is what
    [moka] documents of them: entries live as long as [TtlByOutcome] says, may be
    evicted at any time, and while one load of a key runs every other caller
    waits for its result.  A caller that is dropped while its load runs abandons
    it, and one of those that wait takes over. *)
From S2P Require Import Prelude RustStd Deps Session Effects.

Local Open Scope Z_scope.

(** ** Data *)

Record CachedPublicKey := mkCached { spki_der : bytes; key_type : string }.

#[global] Instance CachedPublicKey_eq_dec : EqDecision CachedPublicKey.
Proof. solve_decision. Defined.

Inductive Lookup := Found (k : CachedPublicKey) | LNotFound.

#[global] Instance Lookup_eq_dec : EqDecision Lookup.
Proof. solve_decision. Defined.

Record CacheMetrics := mkCacheMetrics { hits : Z; misses : Z; negative_hits : Z }.

Definition hit_ratio (m : CacheMetrics) : f64 :=
  let hits := f64_of_u64 (hits m) in
  let misses := f64_of_u64 (misses m) in
  if f64_eq (f64_add hits misses) f64_zero then f64_zero
  else f64_div hits (f64_add hits misses).

Record CacheConfig := mkCacheConfig { ttl : Z; negative_ttl : Z; max_entries : Z }.

Definition CacheConfig_default : CacheConfig :=
  {| ttl := from_secs 300; negative_ttl := from_secs 30; max_entries := 1024 |}.

Definition env_secs (e : env) (key : string) : option Z := from_secs <$> (e key ≫= parse_uint 64).

Definition CacheConfig_from_env (e : env) : CacheConfig :=
  let defaults := CacheConfig_default in
  {| ttl := default (ttl defaults) (env_secs e "CACHE_TTL_SECS");
     negative_ttl := default (negative_ttl defaults) (env_secs e "CACHE_NEGATIVE_TTL_SECS");
     max_entries := default (max_entries defaults) (e "CACHE_MAX_ENTRIES" ≫= parse_uint 64) |}.

(** [TtlByOutcome::expire_after_create]. *)
Definition expire_after_create (config : CacheConfig) (value : Lookup) : Z :=
  match value with
  | Found _ => ttl config
  | LNotFound => negative_ttl config
  end.

(** ** Operations *)

(** How [try_get_with_by_ref] proceeds: the value is there, another caller's
    load is running, or this caller runs its own. *)
Inductive Entry := Present (v : Lookup) | Wait (flight : nat) | Lead (flight : nat).

(** How waiting for another caller's load ends: with its result, or, if that
    caller was dropped with its load unfinished, with this caller in its place. *)
Inductive Joined := Resolved (r : result Lookup PoolError) | TakeOver (flight : nat).

Inductive cacheE : Type → Type :=
| ContainsKey (key : string) : cacheE bool
| Enter (key : string) : cacheE Entry
| Await (key : string) (flight : nat) : cacheE Joined
| Finish (key : string) (flight : nat) (r : result Lookup PoolError) : cacheE unit
| CountHit : cacheE unit
| CountMiss : cacheE unit
| CountNegativeHit : cacheE unit
| Invalidate (key : string) : cacheE unit
(** what happens on its own: the caller that runs a load is dropped, eviction,
    and time *)
| Abandon (key : string) (flight : nat) : cacheE unit
| Evict (key : string) : cacheE unit
| Tick (d : Z) : cacheE unit.

Section operations.
Context {E : Type → Type} (lift : ∀ X, cacheE X → E X).

Definition call_cache {X} (e : cacheE X) : prog E X := trigger (lift X e).

(** This caller's own load. *)
Definition lead_load (key : string) (load : prog E (result Lookup PoolError)) (flight : nat) :
    prog E (result Lookup PoolError) :=
  (r <~ load;
   _ <~ call_cache (Finish key flight r);
   Ret r)%rust.

Definition try_get_with_by_ref (key : string) (load : prog E (result Lookup PoolError)) :
    prog E (result Lookup PoolError) :=
  (entry <~ call_cache (Enter key);
   match entry with
   | Present v => Ret (Ok v)
   | Wait f =>
       joined <~ call_cache (Await key f);
       match joined with
       | Resolved r => Ret r
       | TakeOver f' => lead_load key load f'
       end
   | Lead f => lead_load key load f
   end)%rust.

(** The counters a call that returns a value moves. *)
Definition attribute (was_present : bool) (result : Lookup) : prog E unit :=
  (if was_present then
     _ <~ call_cache CountHit;
     match result with
     | LNotFound => call_cache CountNegativeHit
     | Found _ => Ret tt
     end
   else call_cache CountMiss)%rust.

Definition get_or_load (key_label : string) (load : prog E (result Lookup PoolError)) :
    prog E (result (Lookup * bool) PoolError) :=
  (was_present <~ call_cache (ContainsKey key_label);
   try result <~ try_get_with_by_ref key_label load;
   _ <~ attribute was_present result;
   Ret (Ok (result, was_present)))%rust.

Definition invalidate (key_label : string) : prog E unit := call_cache (Invalidate key_label).
End operations.

(** ** What [moka] promises *)

Record CacheState := mkCacheState {
  entries : gmap string (Lookup * Z);
  cache_metrics : CacheMetrics;
  (** loads that are running, by key, and the results of those that are done *)
  flights : gmap string nat;
  results : gmap nat (string * result Lookup PoolError);
  next_flight : nat;
  now : Z;
  (** history: the loads that were started, those that ended, with the time,
      those that were abandoned, and the entries that were dropped *)
  led : list string;
  ended : list (string * Z * result Lookup PoolError);
  abandoned : list string;
  dropped : list string
}.

(** [PublicKeyCache::new], at a time. *)
Definition cache_new (t : Z) : CacheState := mkCacheState ∅ (mkCacheMetrics 0 0 0) ∅ ∅ 0 t [] [] [] [].

(** The unexpired value of a key. *)
Definition fresh (key : string) (s : CacheState) : option Lookup :=
  match entries s !! key with
  | Some (v, expiry) => if now s <? expiry then Some v else None
  | None => None
  end.

Definition drop_entry (key : string) (s : CacheState) : CacheState :=
  mkCacheState (delete key (entries s)) (cache_metrics s) (flights s) (results s) (next_flight s)
    (now s) (led s) (ended s) (abandoned s)
    (match entries s !! key with Some _ => key :: dropped s | None => dropped s end).

Definition start_flight (key : string) (s : CacheState) : CacheState :=
  mkCacheState (entries s) (cache_metrics s) (<[key := next_flight s]> (flights s)) (results s)
    (S (next_flight s)) (now s) (key :: led s) (ended s) (abandoned s) (dropped s).

Definition end_flight (config : CacheConfig) (key : string) (f : nat)
    (r : result Lookup PoolError) (s : CacheState) : CacheState :=
  mkCacheState
    (match r with
     | Ok v => <[key := (v, now s + expire_after_create config v)]> (entries s)
     | Err _ => entries s
     end)
    (cache_metrics s) (delete key (flights s)) (<[f := (key, r)]> (results s)) (next_flight s) (now s)
    (led s) ((key, now s, r) :: ended s) (abandoned s) (dropped s).

(** The caller that ran the load is gone: the key is free for another. *)
Definition abandon_flight (key : string) (s : CacheState) : CacheState :=
  mkCacheState (entries s) (cache_metrics s) (delete key (flights s)) (results s) (next_flight s)
    (now s) (led s) (ended s) (key :: abandoned s) (dropped s).

(** The load [f] of [key] was abandoned. *)
Definition lost (key : string) (f : nat) (s : CacheState) : Prop :=
  results s !! f = None ∧ flights s !! key ≠ Some f.

Definition with_cache_metrics (m : CacheMetrics) (s : CacheState) : CacheState :=
  mkCacheState (entries s) m (flights s) (results s) (next_flight s) (now s) (led s) (ended s)
    (abandoned s) (dropped s).

Definition after_ticks (d : Z) (s : CacheState) : CacheState :=
  mkCacheState (entries s) (cache_metrics s) (flights s) (results s) (next_flight s)
    (now s + Z.max 0 d) (led s) (ended s) (abandoned s) (dropped s).

Section moka.
Context (config : CacheConfig).

(** An expired entry is dropped when the next load starts; until then it is
    only invisible. *)
Inductive cache_answer : ∀ X, cacheE X → CacheState → X → CacheState → Prop :=
| a_contains key s : cache_answer bool (ContainsKey key) s (bool_decide (is_Some (fresh key s))) s
| a_present key s v : fresh key s = Some v → cache_answer Entry (Enter key) s (Present v) s
| a_wait key s f :
    fresh key s = None → flights s !! key = Some f → cache_answer Entry (Enter key) s (Wait f) s
| a_lead key s :
    fresh key s = None → flights s !! key = None →
    cache_answer Entry (Enter key) s (Lead (next_flight s)) (start_flight key (drop_entry key s))
| a_resolved key f s r :
    results s !! f = Some (key, r) → cache_answer Joined (Await key f) s (Resolved r) s
(** after an abandoned load: another caller's value or result, or an own load *)
| a_arrived key f s v :
    lost key f s → fresh key s = Some v → cache_answer Joined (Await key f) s (Resolved (Ok v)) s
| a_rejoined key f f' s r :
    lost key f s → (f < f')%nat → results s !! f' = Some (key, r) →
    cache_answer Joined (Await key f) s (Resolved r) s
| a_take_over key f s :
    lost key f s → fresh key s = None → flights s !! key = None →
    cache_answer Joined (Await key f) s (TakeOver (next_flight s)) (start_flight key (drop_entry key s))
| a_finish key f r s :
    flights s !! key = Some f → cache_answer unit (Finish key f r) s tt (end_flight config key f r s)
| a_hit s :
    cache_answer unit CountHit s tt
      (with_cache_metrics (mkCacheMetrics (incr (hits (cache_metrics s))) (misses (cache_metrics s))
                             (negative_hits (cache_metrics s))) s)
| a_miss s :
    cache_answer unit CountMiss s tt
      (with_cache_metrics (mkCacheMetrics (hits (cache_metrics s)) (incr (misses (cache_metrics s)))
                             (negative_hits (cache_metrics s))) s)
| a_negative s :
    cache_answer unit CountNegativeHit s tt
      (with_cache_metrics (mkCacheMetrics (hits (cache_metrics s)) (misses (cache_metrics s))
                             (incr (negative_hits (cache_metrics s)))) s)
| a_invalidate key s : cache_answer unit (Invalidate key) s tt (drop_entry key s)
| a_abandon key f s :
    flights s !! key = Some f → cache_answer unit (Abandon key f) s tt (abandon_flight key s)
| a_evict key s : cache_answer unit (Evict key) s tt (drop_entry key s)
| a_tick d s : cache_answer unit (Tick d) s tt (after_ticks d s).

(** ** Counting loads *)

Definition count_of (key : string) (l : list string) : nat := length (filter (λ k, k = key) l).

Definition failed_loads (key : string) (s : CacheState) : nat :=
  length (filter (λ l : string * Z * result Lookup PoolError, l.1.1 = key ∧ is_ok l.2 = false) (ended s)).

Definition good_loads (key : string) (s : CacheState) : nat :=
  length (filter (λ l : string * Z * result Lookup PoolError, l.1.1 = key ∧ is_ok l.2 = true) (ended s)).

Definition present {A} (o : option A) : nat := match o with Some _ => 1 | None => 0 end.

Record cache_ok (s : CacheState) : Prop := {
  (** a key that is being loaded has no entry *)
  co_excl key : is_Some (flights s !! key) → entries s !! key = None;
  (** every load that was started runs or ended *)
  co_led key : count_of key (led s) =
    (present (flights s !! key) + failed_loads key s + good_loads key s + count_of key (abandoned s))%nat;
  (** every value that was loaded is an entry or was dropped *)
  co_good key : good_loads key s = (present (entries s !! key) + count_of key (dropped s))%nat;
  (** an entry was loaded, and expires its time to live after that *)
  co_entry key v expiry : entries s !! key = Some (v, expiry) →
    ∃ t, (key, t, Ok v) ∈ ended s ∧ expiry = t + expire_after_create config v;
  co_ended key t r : (key, t, r) ∈ ended s → t ≤ now s
}.

Lemma count_of_cons key k l :
  count_of key (k :: l) = ((if decide (k = key) then 1 else 0) + count_of key l)%nat.
Proof. unfold count_of. rewrite filter_cons. by case_decide. Qed.

Lemma present_insert {A} (m : gmap string A) k key x :
  m !! k = None →
  present (<[k := x]> m !! key) = ((if decide (k = key) then 1 else 0) + present (m !! key))%nat.
Proof.
  intros Hk. destruct (decide (k = key)) as [<-|]; [by rewrite lookup_insert_eq, Hk|].
  by rewrite lookup_insert_ne.
Qed.

Lemma present_delete {A} (m : gmap string A) k key :
  present (m !! key) =
  ((if decide (k = key) then present (m !! k) else 0) + present (delete k m !! key))%nat.
Proof.
  destruct (decide (k = key)) as [<-|]; [by rewrite lookup_delete_eq, Nat.add_0_r|].
  by rewrite lookup_delete_ne.
Qed.

Lemma cache_new_ok t : cache_ok (cache_new t).
Proof. split; simpl; try done. intros ? ? ? H. by apply elem_of_nil in H. Qed.

Lemma drop_entry_ok key s : cache_ok s → cache_ok (drop_entry key s).
Proof.
  intros [Hx Hl Hg He Ht]. split; simpl; try done.
  - intros k Hk. rewrite lookup_delete_None. auto.
  - intros k. change (good_loads k (drop_entry key s)) with (good_loads k s). rewrite Hg.
    rewrite (present_delete (entries s) key k).
    destruct (entries s !! key) eqn:Hk; rewrite ?count_of_cons; case_decide; simpl; lia.
  - intros k v x [_ Hk]%lookup_delete_Some. eauto.
Qed.

Lemma start_flight_ok key s :
  entries s !! key = None → flights s !! key = None → cache_ok s → cache_ok (start_flight key s).
Proof.
  intros Hn Hf [Hx Hl Hg He Ht]. split; simpl; try done.
  - intros k Hk. destruct (decide (k = key)) as [->|]; [done|].
    rewrite lookup_insert_ne in Hk by done. auto.
  - intros k. rewrite count_of_cons, (present_insert (flights s)) by done.
    change (failed_loads k (start_flight key s)) with (failed_loads k s).
    change (good_loads k (start_flight key s)) with (good_loads k s). rewrite Hl. lia.
Qed.

Lemma loads_cons key k t r s s' :
  ended s' = (k, t, r) :: ended s →
  failed_loads key s' =
    ((if decide (k = key) then (if is_ok r then 0 else 1) else 0) + failed_loads key s)%nat ∧
  good_loads key s' =
    ((if decide (k = key) then (if is_ok r then 1 else 0) else 0) + good_loads key s)%nat.
Proof.
  intros He. unfold failed_loads, good_loads. rewrite He, !filter_cons. simpl.
  destruct (decide (k = key)) as [->|]; destruct r; simpl;
    repeat case_decide; naive_solver.
Qed.

Lemma end_flight_ok key f r s :
  flights s !! key = Some f → cache_ok s → cache_ok (end_flight config key f r s).
Proof.
  intros Hf [Hx Hl Hg He Ht]. assert (entries s !! key = None) as Hn by (apply Hx; eauto).
  split; simpl.
  - intros k Hk. destruct (decide (k = key)) as [->|]; [rewrite lookup_delete_eq in Hk; by destruct Hk|].
    rewrite lookup_delete_ne in Hk by done. destruct r; [rewrite lookup_insert_ne by done|]; auto.
  - intros k. destruct (loads_cons k key (now s) r s (end_flight config key f r s) eq_refl) as [-> ->].
    rewrite Hl, (present_delete (flights s) key k), Hf.
    destruct (is_ok r); case_decide; simpl; lia.
  - intros k. destruct (loads_cons k key (now s) r s (end_flight config key f r s) eq_refl) as [_ ->].
    rewrite Hg. destruct r; simpl; [rewrite (present_insert (entries s)) by done|];
      case_decide; simpl; lia.
  - intros k v x. destruct r as [v'|e].
    + intros [[-> [= <- <-]]|[Hne Hk]]%lookup_insert_Some.
      * exists (now s). split; [left|done].
      * destruct (He k v x Hk) as (t&?&?). exists t. split; [by right|done].
    + intros Hk. destruct (He k v x Hk) as (t&?&?). exists t. split; [by right|done].
  - intros k t r' [[= -> -> ->]|Hin]%elem_of_cons; [lia|eauto].
Qed.

Lemma abandon_flight_ok key f s :
  flights s !! key = Some f → cache_ok s → cache_ok (abandon_flight key s).
Proof.
  intros Hf [Hx Hl Hg He Ht]. split; simpl; try done.
  - intros k [x [_ Hk]%lookup_delete_Some]. eauto.
  - intros k. change (failed_loads k (abandon_flight key s)) with (failed_loads k s).
    change (good_loads k (abandon_flight key s)) with (good_loads k s).
    rewrite Hl, (present_delete (flights s) key k), Hf, count_of_cons. case_decide; simpl; lia.
Qed.

Lemma cache_answer_ok X (e : cacheE X) s x s' :
  cache_answer X e s x s' → cache_ok s → cache_ok s'.
Proof.
  destruct 1; intros Hok; eauto using drop_entry_ok, end_flight_ok, abandon_flight_ok;
    try (by apply start_flight_ok; [apply lookup_delete_eq|done|apply drop_entry_ok]);
    try (destruct Hok; split; done).
  - destruct Hok as [Hx Hl Hg He Ht]. split; try done. simpl.
    intros key t r Hin. specialize (Ht _ _ _ Hin). lia.
Qed.

(** Loads of a key are one more, at most, than those that failed or were abandoned
    and the entries that were dropped. *)
Lemma loads_bounded s key :
  cache_ok s →
  (count_of key (led s) ≤
     1 + failed_loads key s + count_of key (abandoned s) + count_of key (dropped s))%nat.
Proof.
  intros [Hx Hl Hg _ _]. rewrite Hl, Hg. specialize (Hx key).
  destruct (flights s !! key), (entries s !! key); simpl; try lia. by discriminate Hx.
Qed.

(** What is visible was loaded, less than its time to live ago. *)
Lemma fresh_loaded s key v :
  cache_ok s → fresh key s = Some v →
  ∃ t, (key, t, Ok v) ∈ ended s ∧ t ≤ now s < t + expire_after_create config v.
Proof.
  intros [_ _ _ He Ht] Hf. unfold fresh in Hf. destruct (entries s !! key) as [[v' x]|] eqn:Hk; [|done].
  destruct (Z.ltb_spec (now s) x); simplify_eq.
  destruct (He _ _ _ Hk) as (t&Hin&->). exists t. split; [done|]. specialize (Ht _ _ _ Hin). lia.
Qed.
End moka.

(** ** One call

    [get_or_load] on its own, over a load that may end in any way. *)

Inductive sysE : Type → Type :=
| InCache {X} (e : cacheE X) : sysE X
| LoadOf (key : string) : sysE (result Lookup PoolError).

Definition count_events {E} (p : event E → bool) (tr : list (event E)) : nat :=
  length (List.filter p tr).

Definition is_load (e : event sysE) : bool := match e with Ev (LoadOf _) _ => true | _ => false end.
Definition is_lead (e : event sysE) : bool :=
  match e with
  | Ev (InCache e') x =>
      match e' in cacheE X return X → bool with
      | Enter _ => λ x, match x with Lead _ => true | _ => false end
      | Await _ _ => λ x, match x with TakeOver _ => true | _ => false end
      | _ => λ _, false
      end x
  | _ => false
  end.
Definition is_hit (e : event sysE) : bool := match e with Ev (InCache CountHit) _ => true | _ => false end.
Definition is_miss (e : event sysE) : bool := match e with Ev (InCache CountMiss) _ => true | _ => false end.
Definition is_negative (e : event sysE) : bool :=
  match e with Ev (InCache CountNegativeHit) _ => true | _ => false end.

Lemma attribute_accounts was_present v :
  all_runs any (attribute (@InCache) was_present v) (λ tr _,
    count_events is_load tr = 0%nat ∧ count_events is_lead tr = 0%nat ∧
    count_events is_hit tr = (if was_present then 1 else 0)%nat ∧
    count_events is_miss tr = (if was_present then 0 else 1)%nat ∧
    count_events is_negative tr =
      (if was_present then match v with LNotFound => 1 | _ => 0 end else 0)%nat).
Proof. destruct was_present, v; simpl; intros; done. Qed.

(** The counters of one call of [get_or_load], however the cache answers it:
    the token is asked exactly if this call leads a load, and at most once; a
    call that returns a value counts as one hit or one miss, as the probe said,
    and one that fails counts as neither; negative hits are among the hits. *)
Theorem get_or_load_accounts key :
  all_runs any (get_or_load (@InCache) key (trigger (LoadOf key))) (λ tr r,
    count_events is_load tr = count_events is_lead tr ∧
    (count_events is_load tr ≤ 1)%nat ∧
    (count_events is_hit tr + count_events is_miss tr = if is_ok r then 1 else 0)%nat ∧
    count_events is_negative tr =
      match r with Ok (LNotFound, true) => 1%nat | _ => 0%nat end ∧
    match r with
    | Ok (_, was_present) => count_events is_hit tr = (if was_present then 1 else 0)%nat
    | Err _ => True
    end).
Proof.
  unfold get_or_load, try_get_with_by_ref, call_cache. simpl. intros was_present _ entry _.
  assert (∀ (Q : list (event sysE) → result (Lookup * bool) PoolError → Prop) v,
    (∀ tr, count_events is_load tr = 0%nat → count_events is_lead tr = 0%nat →
       count_events is_hit tr = (if was_present then 1 else 0)%nat →
       count_events is_miss tr = (if was_present then 0 else 1)%nat →
       count_events is_negative tr =
         (if was_present then match v with LNotFound => 1 | _ => 0 end else 0)%nat →
       Q tr (Ok (v, was_present))) →
    all_runs any (prog_bind (attribute (@InCache) was_present v) (λ _, Ret (Ok (v, was_present)))) Q)
    as Htail.
  { intros Q v HQ. apply all_runs_bind. eapply all_runs_mono; [|apply attribute_accounts].
    simpl. intros tr _ (?&?&?&?&?). rewrite app_nil_r. auto. }
  unfold count_events in *.
  destruct entry as [v|f|f]; simpl;
    [|intros [[v|e]|f'] _; simpl; [..|intros [v|e] _ [] _]|intros [v|e] _ [] _]; simpl.
  all: try (apply Htail; simpl; intros; destruct was_present, v; simpl; intuition lia).
  all: intuition lia.
Qed.
