(* ===== verification/Wire.v ===== *)
(** * Requests and responses ([proto/hsm/v1/hsm.proto])

    The messages of [HsmService], and the request checks that both backends
    make ([grpc/pooled.rs], [grpc/service.rs]). *)
From S2P Require Import Prelude RustStd Deps Session Crypto.

(** [input] is a message field with a [oneof] inside: either may be absent. *)
Record SignRequest := mkSign {
  sign_key_label : string; sign_mechanism : Z; sign_input : option (option Crypto.SigningInput) }.
Record SignResponse := mkSignResp { resp_signature : bytes; resp_key_label : string }.

Record VerifyRequest := mkVerify {
  verify_key_label : string; verify_mechanism : Z;
  verify_input : option (option Crypto.SigningInput); verify_signature : bytes }.
Record VerifyResponse := mkVerifyResp { valid : bool; verify_served_from_cache : bool }.

Record EncryptRequest := mkEncrypt {
  encrypt_key_label : string; encrypt_mechanism : Z; encrypt_plaintext : bytes;
  encrypt_associated_data : bytes }.
Record EncryptResponse := mkEncryptResp { resp_ciphertext : bytes; resp_iv : bytes }.

Record DecryptRequest := mkDecrypt {
  decrypt_key_label : string; decrypt_mechanism : Z; decrypt_ciphertext : bytes;
  decrypt_iv : bytes; decrypt_associated_data : bytes }.
Record DecryptResponse := mkDecryptResp { resp_plaintext : bytes }.

Record GetPublicKeyRequest := mkGetPublicKey { gpk_key_label : string }.
Record GetPublicKeyResponse := mkGetPublicKeyResp {
  resp_spki_der : bytes; resp_key_type : string; gpk_served_from_cache : bool }.

(** ** Request checks *)

Definition GCM_IV_LEN : nat := 12.

Definition extract_input (input : option (option Crypto.SigningInput)) :
    result Crypto.SigningInput Status :=
  ok_or (input ≫= id) (invalid_argument "input must be set to either message or digest").

(** [CipherMechanism::try_from]: [AES_GCM] is 1. *)
Definition require_aes_gcm (mechanism : Z) : result unit Status :=
  if (mechanism =? 1)%Z then Ok tt
  else Err (invalid_argument "only CIPHER_MECHANISM_AES_GCM is supported").

Definition key_not_found (label : string) : Status :=
  not_found ("no key labelled '" +:+ label +:+ "' on the token").

Definition bad_iv (iv : bytes) : Status :=
  invalid_argument ("iv must be " +:+ pretty GCM_IV_LEN +:+ " bytes, got " +:+ pretty (length iv)).
