(* ===== verification/Pooled.v ===== *)
(** * The pooled service ([grpc/pooled.rs])

    Each handler admits the request (breaker, authorizer, limiter), checks it,
    asks the pool or the cache, reports the outcome to the breaker, and records
    the request's metrics.  A handler is a program over the effects below; the
    theorems hold for every answer to them, that is for every interleaving with
    other requests. *)
From S2P Require Import Prelude RustStd Deps Effects Session Crypto Toy Worker Cache Wire.
From S2P Require Policy Pool.

Local Open Scope Z_scope.

Abbreviation Op := Policy.Operation.t.

Inductive svcE : Type → Type :=
| InstantNow : svcE Z
(** the breaker *)
| Allow : svcE bool
| RecordSuccess : svcE unit
| RecordFailure : svcE unit
(** the authorizer and the limiter *)
| Authorize (peer_certs : option (list bytes)) (key_label : string) (operation : Op) :
    svcE (result string Status)
| CheckRate (identity : string) : svcE bool
(** the pool, the cache, the random generator *)
| Submit (req : JobRequest) : svcE (result JobResponse PoolError)
| InKeyCache {X} (e : cacheE X) : svcE X
| FillBytes (n : nat) : svcE bytes
(** the metrics registry *)
| IncrCounter (name : string) (labels : list (string * string)) : svcE unit
| RecordHistogram (name : string) (labels : list (string * string)) (nanos : Z) : svcE unit.

Definition REQUESTS_TOTAL : string := "hsm_requests_total".
Definition REQUEST_DURATION : string := "hsm_request_duration_seconds".
Definition RATE_LIMITED : string := "hsm_rate_limited_total".
Definition AUTHZ_DENIED : string := "hsm_authz_denied_total".
Definition AUTHZ_ALLOWED : string := "hsm_authz_allowed_total".
Definition UNAUTHENTICATED : string := "hsm_unauthenticated_total".

(** Which optional parts the service was built with. *)
Record PooledService := mkService { has_authorizer : bool; has_rate_limiter : bool }.

(** A request and the certificates its connection presented. *)
Record Request (A : Type) := mkRequest { peer_certs : option (list bytes); get_ref : A }.
Arguments mkRequest {A} _ _.
Arguments peer_certs {A} _.
Arguments get_ref {A} _.

Definition to_status (e : PoolError) : Status :=
  match e with
  | KeyNotFound label => not_found ("no key labelled '" +:+ label +:+ "' on the token")
  | InvalidRequest message => invalid_argument message
  | Overloaded => resource_exhausted "request queue is full; retry after backing off"
  | Timeout => deadline_exceeded "timed out waiting for a worker"
  | ShuttingDown => unavailable "server is shutting down"
  | Hsm operation _ => internal (operation +:+ " failed")
  | PInternal _ => internal "internal error"
  end.

Definition unexpected (response : JobResponse) : Status := internal "internal error".

Section pooled.
Context {CL : CryptoLib}.
(** [Display] of a [cryptoki] error, and [tonic]'s [Code::description] *)
Context (show : CkError → string) (description : Code → string).
Context (svc : PooledService).

Abbreviation P := (prog svcE).

Definition ret {A} (r : result A Status) : P (result A Status) := Ret r.

(** ** Admission *)

Definition BREAKER_OPEN : Status :=
  unavailable "circuit breaker is open; the HSM is failing. Retry after backoff.".
Definition RATE_EXCEEDED : Status :=
  resource_exhausted "rate limit exceeded for this workload identity".

Definition admit_request {A} (request : Request A) (key_label : string) (operation : Op) :
    P (result unit Status) :=
  (ok <~ trigger Allow;
   if negb ok then ret (Err BREAKER_OPEN)
   else
     try identity <~
       (if has_authorizer svc then
          r <~ trigger (Authorize (peer_certs request) key_label operation);
          Ret (result_map Some r)
        else ret (Ok None));
     match has_rate_limiter svc, identity with
     | true, Some identity =>
         within <~ trigger (CheckRate identity);
         if negb within then ret (Err RATE_EXCEEDED) else ret (Ok tt)
     | _, _ => ret (Ok tt)
     end)%rust.

(** ** Reporting *)

Definition record {A} (operation : string) (started : Z) (r : result A Status) : P unit :=
  (let code_label := match r with Ok _ => "ok" | Err s => description (code s) end in
   _ <~ trigger (IncrCounter REQUESTS_TOTAL [("operation", operation); ("result", code_label)]);
   t <~ trigger InstantNow;
   _ <~ trigger (RecordHistogram REQUEST_DURATION [("operation", operation)] (elapsed t started));
   match r with
   | Err s =>
       match code s with
       | ResourceExhausted => trigger (IncrCounter RATE_LIMITED [("operation", operation)])
       | PermissionDenied => trigger (IncrCounter AUTHZ_DENIED [("operation", operation)])
       | Unauthenticated => trigger (IncrCounter UNAUTHENTICATED [])
       | _ => Ret tt
       end
   | Ok _ => trigger (IncrCounter AUTHZ_ALLOWED [("operation", operation)])
   end)%rust.

Definition observe {A} (r : result A Status) : P unit :=
  match r with
  | Ok _ => trigger RecordSuccess
  | Err s =>
      match code s with
      | Internal | DeadlineExceeded => trigger RecordFailure
      | _ => trigger RecordSuccess
      end
  end.

(** ** Public keys *)

(** The closure that [get_or_load] runs on a miss. *)
Definition load_public_key (label : string) : P (result Lookup PoolError) :=
  (r <~ trigger (Submit (JGetPublicKey label));
   Ret match r with
       | Ok (PublicKey spki_der key_type) => Ok (Found (mkCached spki_der key_type))
       | Ok _ => Err (PInternal "worker returned the wrong response variant")
       | Err (KeyNotFound _) => Ok LNotFound
       | Err other => Err other
       end)%rust.

Definition public_key (key_label : string) : P (result (Lookup * bool) Status) :=
  (r <~ get_or_load (@InKeyCache) key_label (load_public_key key_label);
   let outcome := map_err (λ e, to_status (PInternal (pool_error_to_string show e))) r in
   _ <~ observe outcome;
   Ret outcome)%rust.

(** ** The handlers

    [*_admitted] is what follows admission. *)

(** [pool.submit(job).await.map_err(to_status)], observed. *)
Definition submit_observed (job : JobRequest) : P (result JobResponse Status) :=
  (r <~ trigger (Submit job);
   let response := map_err to_status r in
   _ <~ observe response;
   Ret response)%rust.

Definition sign_admitted (req : SignRequest) : P (result SignResponse Status) :=
  (try input <~ ret (extract_input (sign_input req));
   try prepared <~ ret (map_err (λ e, invalid_argument (any_to_string show e))
                          (Crypto.prepare (sign_mechanism req) input));
   try response <~ submit_observed (JSign (sign_key_label req) (Crypto.algorithm prepared)
                                      (Crypto.payload prepared));
   match response with
   | Signature signature => ret (Ok (mkSignResp signature (sign_key_label req)))
   | other => ret (Err (unexpected other))
   end)%rust.

Definition sign_inner (request : Request SignRequest) : P (result SignResponse Status) :=
  (try _ <~ admit_request request (sign_key_label (get_ref request)) Policy.Operation.Sign;
   sign_admitted (get_ref request))%rust.

Definition verify_admitted (req : VerifyRequest) : P (result VerifyResponse Status) :=
  (try input <~ ret (extract_input (verify_input req));
   try lookup <~ public_key (verify_key_label req);
   match lookup with
   | (LNotFound, _) => ret (Err (key_not_found (verify_key_label req)))
   | (Found key, served_from_cache) =>
       try valid <~ ret (map_err (λ _, internal "verification failed")
                           (Crypto.verify_public (spki_der key) (verify_mechanism req) input
                              (verify_signature req)));
       ret (Ok (mkVerifyResp valid served_from_cache))
   end)%rust.

Definition verify_inner (request : Request VerifyRequest) : P (result VerifyResponse Status) :=
  (try _ <~ admit_request request (verify_key_label (get_ref request)) Policy.Operation.Verify;
   verify_admitted (get_ref request))%rust.

Definition encrypt_admitted (req : EncryptRequest) : P (result EncryptResponse Status) :=
  (try _ <~ ret (require_aes_gcm (encrypt_mechanism req));
   iv <~ trigger (FillBytes GCM_IV_LEN);
   try response <~ submit_observed (JEncrypt (encrypt_key_label req) (encrypt_plaintext req)
                                      (encrypt_associated_data req) iv);
   match response with
   | Ciphertext ciphertext => ret (Ok (mkEncryptResp ciphertext iv))
   | other => ret (Err (unexpected other))
   end)%rust.

Definition encrypt_inner (request : Request EncryptRequest) : P (result EncryptResponse Status) :=
  (try _ <~ admit_request request (encrypt_key_label (get_ref request)) Policy.Operation.Encrypt;
   encrypt_admitted (get_ref request))%rust.

Definition decrypt_admitted (req : DecryptRequest) : P (result DecryptResponse Status) :=
  (try _ <~ ret (require_aes_gcm (decrypt_mechanism req));
   if negb (length (decrypt_iv req) =? GCM_IV_LEN)%nat then ret (Err (bad_iv (decrypt_iv req)))
   else
     try response <~ submit_observed (JDecrypt (decrypt_key_label req) (decrypt_ciphertext req)
                                        (decrypt_associated_data req) (decrypt_iv req));
     match response with
     | Plaintext plaintext => ret (Ok (mkDecryptResp plaintext))
     | other => ret (Err (unexpected other))
     end)%rust.

Definition decrypt_inner (request : Request DecryptRequest) : P (result DecryptResponse Status) :=
  (try _ <~ admit_request request (decrypt_key_label (get_ref request)) Policy.Operation.Decrypt;
   decrypt_admitted (get_ref request))%rust.

Definition get_public_key_admitted (req : GetPublicKeyRequest) : P (result GetPublicKeyResponse Status) :=
  (try lookup <~ public_key (gpk_key_label req);
   match lookup with
   | (LNotFound, _) => ret (Err (key_not_found (gpk_key_label req)))
   | (Found key, served_from_cache) =>
       ret (Ok (mkGetPublicKeyResp (spki_der key) (key_type key) served_from_cache))
   end)%rust.

Definition get_public_key_inner (request : Request GetPublicKeyRequest) : P (result GetPublicKeyResponse Status) :=
  (try _ <~ admit_request request (gpk_key_label (get_ref request)) Policy.Operation.GetPublicKey;
   get_public_key_admitted (get_ref request))%rust.

(** The [HsmService] methods: run, record, return. *)
Definition recorded {A} (operation : string) (inner : P (result A Status)) : P (result A Status) :=
  (started <~ trigger InstantNow;
   r <~ inner;
   _ <~ record operation started r;
   Ret r)%rust.

Definition sign_rpc (request : Request SignRequest) := recorded "sign" (sign_inner request).
Definition verify_rpc (request : Request VerifyRequest) := recorded "verify" (verify_inner request).
Definition encrypt_rpc (request : Request EncryptRequest) := recorded "encrypt" (encrypt_inner request).
Definition decrypt_rpc (request : Request DecryptRequest) := recorded "decrypt" (decrypt_inner request).
Definition get_public_key_rpc (request : Request GetPublicKeyRequest) :=
  recorded "get_public_key" (get_public_key_inner request).
End pooled.

(** ** All requests at once *)

Inductive AnyRequest :=
| QSign (r : Request SignRequest)
| QVerify (r : Request VerifyRequest)
| QEncrypt (r : Request EncryptRequest)
| QDecrypt (r : Request DecryptRequest)
| QGetPublicKey (r : Request GetPublicKeyRequest).

Inductive AnyResponse :=
| ASign (r : SignResponse)
| AVerify (r : VerifyResponse)
| AEncrypt (r : EncryptResponse)
| ADecrypt (r : DecryptResponse)
| AGetPublicKey (r : GetPublicKeyResponse).

Definition request_key (q : AnyRequest) : string :=
  match q with
  | QSign r => sign_key_label (get_ref r)
  | QVerify r => verify_key_label (get_ref r)
  | QEncrypt r => encrypt_key_label (get_ref r)
  | QDecrypt r => decrypt_key_label (get_ref r)
  | QGetPublicKey r => gpk_key_label (get_ref r)
  end.

Definition request_op (q : AnyRequest) : Op :=
  match q with
  | QSign _ => Policy.Operation.Sign
  | QVerify _ => Policy.Operation.Verify
  | QEncrypt _ => Policy.Operation.Encrypt
  | QDecrypt _ => Policy.Operation.Decrypt
  | QGetPublicKey _ => Policy.Operation.GetPublicKey
  end.

Definition request_certs (q : AnyRequest) : option (list bytes) :=
  match q with
  | QSign r => peer_certs r | QVerify r => peer_certs r | QEncrypt r => peer_certs r
  | QDecrypt r => peer_certs r | QGetPublicKey r => peer_certs r
  end.

(** The operations that need the private or secret key. *)
Definition needs_secret (q : AnyRequest) : bool :=
  match q with QSign _ | QEncrypt _ | QDecrypt _ => true | _ => false end.

(** ** Reading a trace *)

Definition submitted (e : event svcE) : option (JobRequest * result JobResponse PoolError) :=
  match e with
  | Ev e' x =>
      match e' in svcE X return X → option (JobRequest * result JobResponse PoolError) with
      | Submit j => λ x, Some (j, x)
      | _ => λ _, None
      end x
  end.

Definition is_cache (e : event svcE) : bool := match e with Ev (InKeyCache _) _ => true | _ => false end.
Definition is_success (e : event svcE) : bool := match e with Ev RecordSuccess _ => true | _ => false end.
Definition is_failure (e : event svcE) : bool := match e with Ev RecordFailure _ => true | _ => false end.

Definition touches (e : event svcE) : bool :=
  match e with Ev (Submit _) _ | Ev (InKeyCache _) _ => true | _ => false end.

(** The cache answered with a value it holds. *)
Definition is_present (e : event svcE) : bool :=
  match e with
  | Ev e' x =>
      match e' in svcE X return X → bool with
      | InKeyCache c =>
          match c in cacheE X return X → bool with
          | Enter _ => λ x, match x with Present _ => true | _ => false end
          | _ => λ _, false
          end
      | _ => λ _, false
      end x
  end.

(** A question to the breaker, the authorizer or the limiter. *)
Definition asks (e : event svcE) : bool :=
  match e with Ev Allow _ | Ev (Authorize _ _ _) _ | Ev (CheckRate _) _ => true | _ => false end.

(** The IV that an event drew from the random generator. *)
Definition drawn (e : event svcE) : option bytes :=
  match e with
  | Ev e' x =>
      match e' in svcE X return X → option bytes with
      | FillBytes n => λ x, if (n =? GCM_IV_LEN)%nat then Some x else None
      | _ => λ _, None
      end x
  end.

Definition draws (tr : list (event svcE)) : list bytes := omap drawn tr.

Definition submits (tr : list (event svcE)) : list (JobRequest * result JobResponse PoolError) :=
  omap submitted tr.

(** What was counted, with its labels. *)
Definition counted (name : string) (e : event svcE) : option (list (string * string)) :=
  match e with
  | Ev (IncrCounter n labels) _ => if String.eqb n name then Some labels else None
  | _ => None
  end.

Lemma all_runs_always {E A} G (p : prog E A) (Q : list (event E) → A → Prop) :
  (∀ tr a, Q tr a) → all_runs G p Q.
Proof. revert Q. induction p as [a|X e k IH]; intros Q HQ; simpl; auto. Qed.

Section theorems.
Context {CL : CryptoLib}.
Context (show : CkError → string) (description : Code → string) (svc : PooledService).

Definition inner (q : AnyRequest) : prog svcE (result AnyResponse Status) :=
  match q with
  | QSign r => prog_bind (sign_inner show svc r) (λ x, Ret (result_map ASign x))
  | QVerify r => prog_bind (verify_inner show svc r) (λ x, Ret (result_map AVerify x))
  | QEncrypt r => prog_bind (encrypt_inner svc r) (λ x, Ret (result_map AEncrypt x))
  | QDecrypt r => prog_bind (decrypt_inner svc r) (λ x, Ret (result_map ADecrypt x))
  | QGetPublicKey r => prog_bind (get_public_key_inner show svc r) (λ x, Ret (result_map AGetPublicKey x))
  end.

(** The method the router calls for a request. *)
Definition rpc (q : AnyRequest) : prog svcE (result AnyResponse Status) :=
  match q with
  | QSign r => prog_bind (sign_rpc show description svc r) (λ x, Ret (result_map ASign x))
  | QVerify r => prog_bind (verify_rpc show description svc r) (λ x, Ret (result_map AVerify x))
  | QEncrypt r => prog_bind (encrypt_rpc description svc r) (λ x, Ret (result_map AEncrypt x))
  | QDecrypt r => prog_bind (decrypt_rpc description svc r) (λ x, Ret (result_map ADecrypt x))
  | QGetPublicKey r =>
      prog_bind (get_public_key_rpc show description svc r) (λ x, Ret (result_map AGetPublicKey x))
  end.

(** ** Admission *)

(** The questions that stand before the token, in the order in which they are
    asked, with their answers, and the outcome: the breaker; then, if there is one,
    the authorizer, about this caller, this key and this operation; then, if there
    is one and the caller has an identity, the limiter, about that identity.  The
    first refusal is the last question. *)
Inductive admission (q : AnyRequest) : list (event svcE) → result unit Status → Prop :=
| ad_open : admission q [Ev Allow false] (Err BREAKER_OPEN)
| ad_trusted : has_authorizer svc = false → admission q [Ev Allow true] (Ok tt)
| ad_denied s :
    has_authorizer svc = true →
    admission q [Ev Allow true; Ev (Authorize (request_certs q) (request_key q) (request_op q)) (Err s)]
      (Err s)
| ad_authorized identity :
    has_authorizer svc = true → has_rate_limiter svc = false →
    admission q [Ev Allow true; Ev (Authorize (request_certs q) (request_key q) (request_op q)) (Ok identity)]
      (Ok tt)
| ad_limited identity :
    has_authorizer svc = true → has_rate_limiter svc = true →
    admission q [Ev Allow true; Ev (Authorize (request_certs q) (request_key q) (request_op q)) (Ok identity);
                 Ev (CheckRate identity) false] (Err RATE_EXCEEDED)
| ad_granted identity :
    has_authorizer svc = true → has_rate_limiter svc = true →
    admission q [Ev Allow true; Ev (Authorize (request_certs q) (request_key q) (request_op q)) (Ok identity);
                 Ev (CheckRate identity) true] (Ok tt).

Lemma admit_spec {A} (r : Request A) q :
  peer_certs r = request_certs q →
  all_runs any (admit_request svc r (request_key q) (request_op q)) (admission q).
Proof.
  intros Hc. unfold admit_request, try_bind. simpl. intros [] _; simpl; [|constructor].
  rewrite Hc. destruct (has_authorizer svc) eqn:Ha; simpl.
  - intros [identity|s] _; simpl; [|by constructor].
    destruct (has_rate_limiter svc) eqn:Hl; simpl; [|by constructor].
    intros [] _; simpl; by constructor.
  - destruct (has_rate_limiter svc); simpl; by constructor.
Qed.

Lemma admission_untouched q tr o : admission q tr o → Forall (λ e, touches e = false) tr.
Proof. destruct 1; by repeat constructor. Qed.

Lemma admission_allowed q tr u : admission q tr (Ok u) → Ev Allow true ∈ tr.
Proof. remember (Ok u) as o eqn:Ho. destruct 1; try done; left. Qed.

Lemma admission_authorized q tr u :
  has_authorizer svc = true → admission q tr (Ok u) →
  ∃ identity, Ev (Authorize (request_certs q) (request_key q) (request_op q)) (Ok identity) ∈ tr.
Proof.
  intros Hauth. remember (Ok u) as o eqn:Ho.
  destruct 1; try done; [congruence|..]; exists identity; right; left.
Qed.

Lemma record_map {A B} (f : A → B) op t (r : result A Status) :
  record description op t (result_map f r) = record description op t r.
Proof. by destruct r. Qed.

Lemma recorded_runs {A B} (f : A → B) G op (p : prog svcE (result A Status)) Q :
  all_runs G (prog_bind (recorded description op p) (λ x, Ret (result_map f x))) Q ↔
  ∀ t, G (Ev InstantNow t) →
    all_runs G (prog_bind p (λ x, Ret (result_map f x))) (λ tr r,
      all_runs G (record description op t r) (λ tr' _, Q (Ev InstantNow t :: tr ++ tr') r)).
Proof.
  unfold recorded. rewrite all_runs_bind. cbn [trigger prog_bind all_runs].
  apply forall_proper. intros t. apply forall_proper. intros _. rewrite !all_runs_bind.
  split; apply all_runs_mono; intros tr r; rewrite all_runs_bind; cbn [all_runs];
    rewrite ?record_map; apply all_runs_mono; intros tr' _; simpl; by rewrite !app_nil_r.
Qed.

(** A method is its inner handler, timed and recorded. *)
Lemma rpc_runs G q Q :
  all_runs G (rpc q) Q ↔
  ∀ t, G (Ev InstantNow t) →
    all_runs G (inner q) (λ tr r,
      all_runs G (record description (Policy.Operation.as_str (request_op q)) t r)
        (λ tr' _, Q (Ev InstantNow t :: tr ++ tr') r)).
Proof. destruct q; apply recorded_runs. Qed.

(** What a handler does with a request it admitted. *)
Definition admitted (q : AnyRequest) : prog svcE (result AnyResponse Status) :=
  match q with
  | QSign r => prog_bind (sign_admitted show (get_ref r)) (λ x, Ret (result_map ASign x))
  | QVerify r => prog_bind (verify_admitted show (get_ref r)) (λ x, Ret (result_map AVerify x))
  | QEncrypt r => prog_bind (encrypt_admitted (get_ref r)) (λ x, Ret (result_map AEncrypt x))
  | QDecrypt r => prog_bind (decrypt_admitted (get_ref r)) (λ x, Ret (result_map ADecrypt x))
  | QGetPublicKey r =>
      prog_bind (get_public_key_admitted show (get_ref r)) (λ x, Ret (result_map AGetPublicKey x))
  end.

Lemma try_map_runs {A B} (f : A → B) G (adm : prog svcE (result unit Status))
    (body : prog svcE (result A Status)) Q :
  all_runs G (prog_bind (try_bind adm (λ _, body)) (λ x, Ret (result_map f x))) Q ↔
  all_runs G adm (λ tr r,
    match r with
    | Ok _ => all_runs G (prog_bind body (λ x, Ret (result_map f x))) (λ tr' b, Q (tr ++ tr') b)
    | Err s => Q tr (Err s)
    end).
Proof.
  rewrite all_runs_bind, all_runs_try. split; apply all_runs_mono; intros tr [[]|s]; simpl;
    rewrite ?app_nil_r, ?all_runs_bind; try done;
    apply all_runs_mono; intros tr' r; simpl; by rewrite !app_nil_r.
Qed.

(** A handler admits the request first. *)
Lemma inner_admit q G Q :
  all_runs G (inner q) Q ↔
  all_runs G (admit_request svc (mkRequest (request_certs q) tt) (request_key q) (request_op q))
    (λ tr r, match r with
             | Ok _ => all_runs G (admitted q) (λ tr' b, Q (tr ++ tr') b)
             | Err s => Q tr (Err s)
             end).
Proof. destruct q; apply try_map_runs. Qed.

Lemma record_quiet {A} op t (r : result A Status) G :
  all_runs G (record description op t r) (λ tr _,
    Forall (λ e, touches e = false ∧ asks e = false) tr).
Proof.
  unfold record. simpl. intros ? _ ? _ ? _. destruct r as [a|[c m]]; simpl; [|destruct c; simpl];
    intros; repeat constructor.
Qed.

(** Only admission asks. *)
Definition silent {A} (p : prog svcE A) : Prop :=
  all_runs any p (λ tr _, Forall (λ e, asks e = false) tr).

Lemma silent_bind {A B} (p : prog svcE A) (f : A → prog svcE B) :
  silent p → (∀ a, silent (f a)) → silent (prog_bind p f).
Proof.
  intros Hp Hf. unfold silent. rewrite all_runs_bind. eapply all_runs_mono; [|exact Hp].
  cbv beta. intros tr a Htr. eapply all_runs_mono; [|apply Hf]. cbv beta. intros tr' b Htr'.
  apply Forall_app. done.
Qed.

Lemma silent_ret {A} (a : A) : silent (Ret a).
Proof. by constructor. Qed.

Lemma silent_effect {X A} (e : svcE X) (k : X → prog svcE A) :
  (∀ x, asks (Ev e x) = false) → (∀ x, silent (k x)) → silent (Vis e k).
Proof.
  intros He Hk x _. eapply all_runs_mono; [|apply Hk]. cbv beta. intros tr a Htr. by constructor.
Qed.

Lemma silent_try {A B F} (p : prog svcE (result A F)) (f : A → prog svcE (result B F)) :
  silent p → (∀ a, silent (f a)) → silent (try_bind p f).
Proof. intros Hp Hf. apply silent_bind; [done|]. intros [a|e]; [apply Hf|apply silent_ret]. Qed.

Hint Resolve silent_bind silent_ret silent_effect silent_try : proxy.

Lemma observe_silent {A} (r : result A Status) : silent (observe r).
Proof. unfold observe, trigger. repeat case_match; auto with proxy. Qed.

Lemma attribute_silent was_present v : silent (attribute (@InKeyCache) was_present v).
Proof. unfold attribute, call_cache, trigger. destruct was_present, v; auto with proxy. Qed.

Lemma lead_load_silent label f : silent (lead_load (@InKeyCache) label (load_public_key label) f).
Proof. unfold lead_load, load_public_key, call_cache, trigger. auto 8 with proxy. Qed.

Hint Resolve observe_silent attribute_silent lead_load_silent : proxy.

Lemma public_key_silent label : silent (public_key show label).
Proof.
  unfold public_key, get_or_load, try_get_with_by_ref, call_cache, trigger.
  apply silent_bind; [|intros r; auto with proxy]. apply silent_bind; [auto with proxy|].
  intros was_present. apply silent_try; [|auto with proxy]. apply silent_bind; [auto with proxy|].
  intros [v|f|f]; auto with proxy. apply silent_bind; [auto with proxy|].
  intros [[v|e]|f']; auto with proxy.
Qed.

Lemma submit_observed_silent job : silent (submit_observed job).
Proof. unfold submit_observed, trigger. auto 8 with proxy. Qed.

Lemma admitted_silent q : silent (admitted q).
Proof.
  destruct q; unfold admitted, sign_admitted, verify_admitted, encrypt_admitted, decrypt_admitted,
    get_public_key_admitted, ret, trigger;
    repeat first [match goal with |- ∀ _, _ => intro end|apply submit_observed_silent
                 |apply public_key_silent|apply silent_ret|apply silent_try|apply silent_bind
                 |apply silent_effect|case_match|done].
Qed.

(** What every run begins with, and what a refusal leaves. *)
Definition guarded (q : AnyRequest) (tr : list (event svcE)) (r : result AnyResponse Status) : Prop :=
  ∃ t adm rest outcome,
    tr = Ev InstantNow t :: adm ++ rest ∧ admission q adm outcome ∧
    Forall (λ e, asks e = false) rest ∧
    match outcome with
    | Ok _ => True
    | Err s => r = Err s ∧ Forall (λ e, touches e = false) rest
    end.

Lemma admission_spec q : all_runs any (rpc q) (guarded q).
Proof.
  apply rpc_runs. intros t _. apply inner_admit.
  eapply all_runs_mono; [|apply admit_spec; reflexivity]. cbv beta. intros adm [[]|s] Hadm.
  - eapply all_runs_mono; [|apply admitted_silent]. cbv beta. intros tr r Htr.
    eapply all_runs_mono; [|apply record_quiet]. cbv beta. intros tr' _ Htr'.
    exists t, adm, (tr ++ tr'), (Ok tt). split; [by rewrite <-app_assoc|]. split; [done|]. split; [|done].
    apply Forall_app. split; [done|]. eapply Forall_impl; [exact Htr'|]. by intros e [].
  - eapply all_runs_mono; [|apply record_quiet]. cbv beta. intros tr' _ Htr'.
    exists t, adm, tr', (Err s). do 2 (split; [done|]).
    split; [|split; [done|]]; (eapply Forall_impl; [exact Htr'|]); by intros e [].
Qed.

(** The part of a run before the token may be touched. *)
Lemma admission_prefix q :
  all_runs any (rpc q) (λ tr r, ∃ pre post,
    tr = pre ++ post ∧ Forall (λ e, touches e = false) pre ∧
    ((Ev Allow true ∈ pre ∧
      (has_authorizer svc = true →
       ∃ identity, Ev (Authorize (request_certs q) (request_key q) (request_op q)) (Ok identity) ∈ pre)) ∨
     Forall (λ e, touches e = false) post)).
Proof.
  eapply all_runs_mono; [|apply admission_spec]. intros tr r (t&adm&rest&o&Htr&Hadm&_&Ho).
  exists (Ev InstantNow t :: adm), rest. split; [done|].
  split; [constructor; [done|by eapply admission_untouched]|]. destruct o as [u|s]; [left|by right; apply Ho].
  split; [right; by eapply admission_allowed|]. intros Hauth.
  destruct (admission_authorized _ _ _ Hauth Hadm) as [identity Hid]. exists identity. by right.
Qed.

(** C13: Admission guards the token, in order.  Every run of every method reads the
    clock and then asks exactly this: the breaker; if it allows the request, the
    authorizer (if there is one) about this caller, this key and this operation;
    if it accepts, the limiter (if there is one) about the identity so
    established; the first refusal ends the questions, and nothing is asked later.
    The pool and the key cache are not touched before the last of these answers,
    and not at all after a refusal, which is then the reply. *)
Theorem admission_guards_the_token q :
  all_runs any (rpc q) (λ tr r, ∃ t adm rest outcome,
    tr = Ev InstantNow t :: adm ++ rest ∧ admission q adm outcome ∧
    Forall (λ e, touches e = false) adm ∧ Forall (λ e, asks e = false) rest ∧
    match outcome with
    | Ok _ => True
    | Err s => r = Err s ∧ Forall (λ e, touches e = false) rest
    end).
Proof.
  eapply all_runs_mono; [|apply admission_spec]. intros tr r (t&adm&rest&o&Htr&Hadm&Hrest&Ho).
  exists t, adm, rest, o. split_and!; try done. by eapply admission_untouched.
Qed.

(** ** What a run did *)

Definition report (e : event svcE) : option bool :=
  match e with Ev RecordSuccess _ => Some true | Ev RecordFailure _ => Some false | _ => None end.

(** The reports to the breaker, and the calls into the cache. *)
Definition reports (tr : list (event svcE)) : list bool := omap report tr.
Definition cache_calls (tr : list (event svcE)) : list (event svcE) := List.filter is_cache tr.

Definition calm (e : event svcE) : Prop :=
  submitted e = None ∧ report e = None ∧ is_cache e = false ∧ drawn e = None.

Lemma calm_run tr :
  Forall calm tr → submits tr = [] ∧ reports tr = [] ∧ cache_calls tr = [] ∧ draws tr = [].
Proof.
  induction 1 as [|e tr (Hs&Hr&Hc&Hd) _ (IHs&IHr&IHc&IHd)]; [done|].
  unfold submits, reports, cache_calls, draws in *. simpl. by rewrite Hs, Hr, Hc, Hd.
Qed.

Lemma submits_app tr tr' : submits (tr ++ tr') = submits tr ++ submits tr'.
Proof. apply omap_app. Qed.
Lemma draws_app tr tr' : draws (tr ++ tr') = draws tr ++ draws tr'.
Proof. apply omap_app. Qed.
Lemma reports_app tr tr' : reports (tr ++ tr') = reports tr ++ reports tr'.
Proof. apply omap_app. Qed.
Lemma cache_calls_app tr tr' : cache_calls (tr ++ tr') = cache_calls tr ++ cache_calls tr'.
Proof. apply List.filter_app. Qed.

Lemma admit_calm {A} G (r : Request A) key op :
  all_runs G (admit_request svc r key op) (λ tr _, Forall calm tr).
Proof.
  unfold admit_request, try_bind. simpl. intros [] _; simpl; [|by repeat constructor].
  destruct (has_authorizer svc); simpl; [intros [] _|]; simpl;
    destruct (has_rate_limiter svc); simpl; try intros [] _; simpl; by repeat constructor.
Qed.

Lemma record_calm {A} G op t (r : result A Status) :
  all_runs G (record description op t r) (λ tr _, Forall calm tr).
Proof.
  unfold record. simpl. intros ? _ ? _ ? _. destruct r as [a|[c m]]; simpl; [|destruct c; simpl];
    intros; repeat constructor.
Qed.

(** The errors that count against the token. *)
Definition token_fault {A} (o : result A PoolError) : bool :=
  match o with Err (Timeout | Hsm _ _ | PInternal _) => true | _ => false end.

Lemma observe_report {A} G (r : result A PoolError) :
  all_runs G (observe (map_err to_status r)) (λ tr _,
    submits tr = [] ∧ cache_calls tr = [] ∧ draws tr = [] ∧ reports tr = [negb (token_fault r)]).
Proof. unfold observe. destruct r as [a|[]]; simpl; intros; done. Qed.

Lemma submit_observed_spec G job :
  all_runs G (submit_observed job) (λ tr r, ∃ o,
    G (Ev (Submit job) o) ∧ r = map_err to_status o ∧ submits tr = [(job, o)] ∧
    cache_calls tr = [] ∧ draws tr = [] ∧ reports tr = [negb (token_fault o)]).
Proof.
  unfold submit_observed. simpl. intros o Ho. apply all_runs_bind.
  eapply all_runs_mono; [|apply observe_report]. simpl. intros tr _ (Hs&Hc&Hd&Hr).
  rewrite app_nil_r. exists o. unfold submits, cache_calls, draws, reports in *. simpl.
  by rewrite Hs, Hc, Hd, Hr.
Qed.

(** ** The operations that need a secret *)

(** The job that a request asks of the pool, with [iv] the IV it draws, or what is
    wrong with the request.  ([Verify] and [GetPublicKey] ask only on a miss.) *)
Definition job_of (q : AnyRequest) (iv : bytes) : result JobRequest Status :=
  match q with
  | QSign r =>
      match extract_input (sign_input (get_ref r)) with
      | Err s => Err s
      | Ok input =>
          match Crypto.prepare (sign_mechanism (get_ref r)) input with
          | Err e => Err (invalid_argument (any_to_string show e))
          | Ok prepared =>
              Ok (JSign (sign_key_label (get_ref r)) (Crypto.algorithm prepared) (Crypto.payload prepared))
          end
      end
  | QEncrypt r =>
      match require_aes_gcm (encrypt_mechanism (get_ref r)) with
      | Err s => Err s
      | Ok _ => Ok (JEncrypt (encrypt_key_label (get_ref r)) (encrypt_plaintext (get_ref r))
                      (encrypt_associated_data (get_ref r)) iv)
      end
  | QDecrypt r =>
      match require_aes_gcm (decrypt_mechanism (get_ref r)) with
      | Err s => Err s
      | Ok _ =>
          if (length (decrypt_iv (get_ref r)) =? GCM_IV_LEN)%nat
          then Ok (JDecrypt (decrypt_key_label (get_ref r)) (decrypt_ciphertext (get_ref r))
                     (decrypt_associated_data (get_ref r)) (decrypt_iv (get_ref r)))
          else Err (bad_iv (decrypt_iv (get_ref r)))
      end
  | QVerify r =>
      match extract_input (verify_input (get_ref r)) with
      | Err s => Err s
      | Ok _ => Ok (JGetPublicKey (verify_key_label (get_ref r)))
      end
  | QGetPublicKey r => Ok (JGetPublicKey (gpk_key_label (get_ref r)))
  end.

(** [Encrypt] draws its IV, the others draw nothing. *)
Definition draws_for (q : AnyRequest) (iv : bytes) : list bytes :=
  match q with QEncrypt _ => [iv] | _ => [] end.

(** The reply that an answer of the pool becomes. *)
Definition reply (q : AnyRequest) (job : JobRequest) (o : result JobResponse PoolError) :
    result AnyResponse Status :=
  match o with
  | Err e => Err (to_status e)
  | Ok ans =>
      match q, job, ans with
      | QSign r, _, Signature s => Ok (ASign (mkSignResp s (sign_key_label (get_ref r))))
      | QEncrypt _, JEncrypt _ _ _ iv, Ciphertext c => Ok (AEncrypt (mkEncryptResp c iv))
      | QDecrypt _, _, Plaintext p => Ok (ADecrypt (mkDecryptResp p))
      | _, _, _ => Err (internal "internal error")
      end
  end.

(** What becomes of a request, after the outcome of its admission. *)
Definition one_job (q : AnyRequest) (outcome : result unit Status) (tr : list (event svcE))
    (r : result AnyResponse Status) : Prop :=
  cache_calls tr = [] ∧
  match outcome with
  | Err s => submits tr = [] ∧ reports tr = [] ∧ draws tr = [] ∧ r = Err s
  | Ok _ => ∃ iv,
      match job_of q iv with
      | Err s => submits tr = [] ∧ reports tr = [] ∧ draws tr = [] ∧ r = Err s
      | Ok job => draws tr = draws_for q iv ∧
          ∃ o, submits tr = [(job, o)] ∧ reports tr = [negb (token_fault o)] ∧ r = reply q job o
      end
  end.

Lemma one_job_frame q outcome tr1 tr2 tr3 r :
  Forall calm tr1 → Forall calm tr3 → one_job q outcome tr2 r → one_job q outcome (tr1 ++ tr2 ++ tr3) r.
Proof.
  intros (Hs1&Hr1&Hc1&Hd1)%calm_run (Hs3&Hr3&Hc3&Hd3)%calm_run. unfold one_job.
  by rewrite !cache_calls_app, !submits_app, !reports_app, !draws_app, Hs1, Hr1, Hc1, Hd1,
    Hs3, Hr3, Hc3, Hd3, !app_nil_r.
Qed.

Lemma one_job_submit q iv job tr0 (post : JobResponse → prog svcE (result AnyResponse Status)) :
  job_of q iv = Ok job → submits tr0 = [] → reports tr0 = [] → cache_calls tr0 = [] →
  draws tr0 = draws_for q iv → (∀ ans, post ans = Ret (reply q job (Ok ans))) →
  all_runs any (try_bind (submit_observed job) post) (λ tr r, one_job q (Ok tt) (tr0 ++ tr) r).
Proof.
  intros Hj Hs0 Hr0 Hc0 Hd0 Hpost. apply all_runs_try.
  eapply all_runs_mono; [|apply submit_observed_spec].
  cbv beta. intros tr r (o&_&->&Hs&Hc&Hd&Hr).
  assert (one_job q (Ok tt) (tr0 ++ tr) (reply q job o)) as H.
  { unfold one_job.
    rewrite cache_calls_app, submits_app, reports_app, draws_app, Hs0, Hr0, Hc0, Hd0, Hs, Hc, Hd, Hr.
    split; [done|]. exists iv. rewrite Hj, app_nil_r. split; [done|]. by exists o. }
  destruct o as [ans|e]; simpl; [|done]. rewrite Hpost. simpl. by rewrite app_nil_r.
Qed.

Lemma try_ret {A B F} (r : result A F) (f : A → prog svcE (result B F)) :
  try_bind (Ret r) f = match r with Ok a => f a | Err e => Ret (Err e) end.
Proof. done. Qed.

Lemma map_try {A B C} (f : B → C) (p : prog svcE (result A Status))
    (k : A → prog svcE (result B Status)) G Q :
  all_runs G (prog_bind (try_bind p k) (λ x, Ret (result_map f x))) Q ↔
  all_runs G (try_bind p (λ a, prog_bind (k a) (λ x, Ret (result_map f x)))) Q.
Proof.
  rewrite all_runs_bind, !all_runs_try.
  split; apply all_runs_mono; intros tr [a|e]; simpl; rewrite ?app_nil_r, ?all_runs_bind; try done;
    apply all_runs_mono; intros tr' r; simpl; by rewrite !app_nil_r.
Qed.

Lemma malformed_one_job q s : job_of q [] = Err s → one_job q (Ok tt) [] (Err s).
Proof. intros Ha. split; [done|]. exists []. by rewrite Ha. Qed.

Lemma admitted_one_job q :
  needs_secret q = true → all_runs any (admitted q) (one_job q (Ok tt)).
Proof.
  destruct q as [r|r|r|r|r]; try done; intros _; unfold admitted.
  - unfold sign_admitted, ret.
    destruct (extract_input _) as [input|s] eqn:Hi; [|apply malformed_one_job; simpl; by rewrite Hi].
    rewrite !try_ret.
    destruct (Crypto.prepare _ _) as [p|e] eqn:Hp; [|apply malformed_one_job; simpl; by rewrite Hi, Hp].
    simpl map_err. cbv iota. apply map_try.
    apply (one_job_submit (QSign r) [] _ []); [simpl; by rewrite Hi, Hp|done..|by intros []].
  - unfold encrypt_admitted, ret.
    destruct (require_aes_gcm _) as [[]|s] eqn:Hm; [|apply malformed_one_job; simpl; by rewrite Hm].
    rewrite try_ret. cbn [trigger prog_bind all_runs]. intros iv _. apply map_try.
    apply (one_job_submit (QEncrypt r) iv _ [Ev (FillBytes GCM_IV_LEN) iv]);
      [simpl; by rewrite Hm|done..|by intros []].
  - unfold decrypt_admitted, ret.
    destruct (require_aes_gcm _) as [[]|s] eqn:Hm; [|apply malformed_one_job; simpl; by rewrite Hm].
    rewrite try_ret. destruct (_ =? _)%nat eqn:Hl; [|apply malformed_one_job; simpl; by rewrite Hm, Hl].
    simpl negb. cbv iota. apply map_try.
    apply (one_job_submit (QDecrypt r) [] _ []); [simpl; by rewrite Hm, Hl|done..|by intros []].
Qed.

Lemma admit_calm_spec q :
  all_runs any (admit_request svc (mkRequest (request_certs q) tt) (request_key q) (request_op q))
    (λ tr o, Forall calm tr ∧ admission q tr o).
Proof. apply all_runs_and; [apply admit_calm|by apply admit_spec]. Qed.

(** The admission of a run and what followed it. *)
Definition job_run (q : AnyRequest) (tr : list (event svcE)) (r : result AnyResponse Status) : Prop :=
  ∃ t adm rest outcome,
    tr = Ev InstantNow t :: adm ++ rest ∧ admission q adm outcome ∧ one_job q outcome tr r.

Lemma secret_one_job q : needs_secret q = true → all_runs any (rpc q) (job_run q).
Proof.
  intros Hq. apply rpc_runs. intros t _. apply inner_admit.
  eapply all_runs_mono; [|apply admit_calm_spec]. cbv beta. intros tr [[]|s] [Hcalm Hadm].
  - eapply all_runs_mono; [|by apply admitted_one_job]. cbv beta. intros tr' r Hone.
    eapply all_runs_mono; [|apply record_calm]. cbv beta. intros tr'' _ Hcalm'.
    exists t, tr, (tr' ++ tr''), (Ok tt). rewrite <-app_assoc. do 2 (split; [done|]).
    apply (one_job_frame q _ (Ev InstantNow t :: tr)); [|done..]. by repeat constructor.
  - eapply all_runs_mono; [|apply record_calm]. cbv beta. intros tr'' _ Hcalm'.
    exists t, tr, tr'', (Err s). do 2 (split; [done|]).
    apply (one_job_frame q _ (Ev InstantNow t :: tr) []); [by repeat constructor|done|done].
Qed.

(** C26: The operations that need a secret cross into the token once, or not at all.
    In every run of [Sign], [Encrypt] and [Decrypt] the key cache is never
    consulted.  A request that was refused submits no job, reports nothing to the
    breaker and is answered with the refusal; so is an admitted request that is
    malformed, with what is wrong with it.  Every other request submits exactly
    the one job it describes ([Encrypt] with the 12 random bytes it drew as the
    IV, which the reply carries, and drawing no others), reports its outcome
    exactly once, as a failure only if it is a timeout or an error of the token,
    never for overload or a caller's mistake, and replies what the pool answered. *)
Theorem secret_operations_reach_token q :
  needs_secret q = true →
  all_runs any (rpc q) (λ tr r, ∃ t adm rest outcome,
    tr = Ev InstantNow t :: adm ++ rest ∧ admission q adm outcome ∧ cache_calls tr = [] ∧
    match outcome with
    | Err s => submits tr = [] ∧ reports tr = [] ∧ draws tr = [] ∧ r = Err s
    | Ok _ => ∃ iv,
        match job_of q iv with
        | Err s => submits tr = [] ∧ reports tr = [] ∧ draws tr = [] ∧ r = Err s
        | Ok job => draws tr = draws_for q iv ∧
            ∃ o, submits tr = [(job, o)] ∧ reports tr = [negb (token_fault o)] ∧ r = reply q job o
        end
    end).
Proof. apply secret_one_job. Qed.

(** ** The operations that need a public key *)

(** Keys that the environment hands out, by the cache or by the pool, satisfy
    [K]. *)
Definition hands_out (label : string) (K : CachedPublicKey → Prop) (e : event svcE) : Prop :=
  match e with
  | Ev e' x =>
      match e' in svcE X return X → Prop with
      | Submit j => λ x,
          match x with Ok (PublicKey d t) => j = JGetPublicKey label → K (mkCached d t) | _ => True end
      | InKeyCache c =>
          match c in cacheE X return X → Prop with
          | Enter l => λ x, match x with Present (Found k) => l = label → K k | _ => True end
          | Await l _ => λ x, match x with Resolved (Ok (Found k)) => l = label → K k | _ => True end
          | _ => λ _, True
          end
      | _ => λ _, True
      end x
  end.

(** Whether a load ends with something to cache. *)
Definition loaded (o : result JobResponse PoolError) : bool :=
  match o with Ok (PublicKey _ _) | Err (KeyNotFound _) => true | _ => false end.

(** One resolution of a public key: at most one job, for this key; none if the
    cache holds the key; one report to the breaker, a success exactly if there
    is a result; and every failure is an internal error. *)
Definition one_key (label : string) (K : CachedPublicKey → Prop) (tr : list (event svcE))
    (r : result (Lookup * bool) Status) : Prop :=
  (submits tr = [] ∨ ∃ o, submits tr = [(JGetPublicKey label, o)]) ∧
  (existsb is_present tr = true → submits tr = [] ∧ is_ok r = true) ∧
  reports tr = [is_ok r] ∧
  (∀ o, submits tr = [(JGetPublicKey label, o)] → is_ok r = loaded o) ∧
  match r with
  | Ok (Found k, _) => K k
  | Ok (LNotFound, _) => True
  | Err s => s = internal "internal error"
  end.

Lemma attribute_calm G was_present v :
  all_runs G (attribute (@InKeyCache) was_present v) (λ tr _,
    submits tr = [] ∧ reports tr = [] ∧ existsb is_present tr = false).
Proof. destruct was_present, v; simpl; intros; done. Qed.

(** What [public_key] does with what [get_or_load] returned. *)
Abbreviation report_lookup r :=
  (let outcome := map_err (λ e, to_status (PInternal (pool_error_to_string show e))) r in
   prog_bind (observe outcome) (λ _, Ret outcome)).

(** The rest of [get_or_load], then of [public_key]. *)
Abbreviation finish_lookup was_present p :=
  (prog_bind (try_bind p (λ v, prog_bind (attribute (@InKeyCache) was_present v)
                                 (λ _, Ret (Ok (v, was_present)))))
     (λ r, report_lookup r)).

Lemma one_key_ok G label (K : CachedPublicKey → Prop) was_present v (tr0 : list (event svcE)) :
  (submits tr0 = [] ∨ ∃ o, submits tr0 = [(JGetPublicKey label, o)]) →
  (existsb is_present tr0 = true → submits tr0 = []) → reports tr0 = [] →
  (∀ o, submits tr0 = [(JGetPublicKey label, o)] → loaded o = true) →
  (∀ k, v = Found k → K k) →
  all_runs G (finish_lookup was_present (Ret (Ok v))) (λ tr r, one_key label K (tr0 ++ tr) r).
Proof.
  intros Hs0 Hp0 Hr0 Hl0 HK. cbn [try_bind prog_bind]. rewrite !all_runs_bind.
  eapply all_runs_mono; [|apply attribute_calm].
  intros tr _ (Hs&Hr&Hp). simpl. intros [] _. unfold one_key.
  rewrite !submits_app, !reports_app, !existsb_app, Hs, Hr, Hp, Hr0. simpl.
  rewrite !app_nil_r, !orb_false_r.
  split; [done|]. split; [by split; [apply Hp0|]|]. split; [done|].
  split; [intros o Ho; by rewrite (Hl0 o Ho)|]. destruct v; auto.
Qed.

Lemma one_key_err G label K was_present (e : PoolError) (tr0 : list (event svcE)) :
  (submits tr0 = [] ∨ ∃ o, submits tr0 = [(JGetPublicKey label, o)]) →
  existsb is_present tr0 = false → reports tr0 = [] →
  (∀ o, submits tr0 = [(JGetPublicKey label, o)] → loaded o = false) →
  all_runs G (finish_lookup was_present (Ret (Err e))) (λ tr r, one_key label K (tr0 ++ tr) r).
Proof.
  intros Hs0 Hp0 Hr0 Hl0. simpl. intros [] _. unfold one_key.
  rewrite submits_app, reports_app, existsb_app, Hr0, Hp0. simpl. rewrite app_nil_r.
  split; [done|]. split; [done|]. split; [done|]. split; [|done].
  intros o Ho. by rewrite (Hl0 o Ho).
Qed.

(** A caller that runs the load. *)
Lemma one_key_lead G label K was_present f (tr0 : list (event svcE)) :
  (∀ e, G e → hands_out label K e) →
  submits tr0 = [] → existsb is_present tr0 = false → reports tr0 = [] →
  all_runs G (finish_lookup was_present (lead_load (@InKeyCache) label (load_public_key label) f))
    (λ tr r, one_key label K (tr0 ++ tr) r).
Proof.
  intros HG Hs0 Hp0 Hr0.
  cbn [lead_load load_public_key call_cache prog_bind trigger try_bind all_runs].
  intros o Ho [] _. apply HG in Ho. simpl in Ho.
  set (r := match o with Ok _ => _ | Err _ => _ end).
  set (tr1 := tr0 ++ [Ev (Submit (JGetPublicKey label)) o; Ev (InKeyCache (Finish label f r)) tt]).
  assert (submits tr1 = [(JGetPublicKey label, o)]) as Hs by (unfold tr1; by rewrite submits_app, Hs0).
  assert (reports tr1 = []) as Hr by (unfold tr1; by rewrite reports_app, Hr0).
  assert (existsb is_present tr1 = false) as Hp by (unfold tr1; by rewrite existsb_app, Hp0).
  assert (∀ Q, all_runs G (finish_lookup was_present (Ret r)) (λ tr a, Q (tr1 ++ tr) a) →
               all_runs G (finish_lookup was_present (Ret r))
                 (λ tr a, Q (tr0 ++ Ev (Submit (JGetPublicKey label)) o ::
                               Ev (InKeyCache (Finish label f r)) tt :: tr) a)) as Hassoc.
  { intros Q. apply all_runs_mono. intros tr a. unfold tr1. by rewrite <-app_assoc. }
  apply Hassoc. destruct r as [v|e] eqn:Hres.
  - apply one_key_ok; rewrite ?Hs, ?Hp; try done; [right; by exists o| |].
    + intros o' [= <-]. by destruct o as [[]|[]].
    + intros k ->. destruct o as [[]|[]]; simplify_eq. auto.
  - apply one_key_err; rewrite ?Hs; try done; [right; by exists o|].
    intros o' [= <-]. by destruct o as [[]|[]].
Qed.

Lemma public_key_spec G label K :
  (∀ e, G e → hands_out label K e) →
  all_runs G (public_key show label) (one_key label K).
Proof.
  intros HG. unfold public_key, get_or_load, try_get_with_by_ref, call_cache.
  cbn [trigger prog_bind all_runs]. intros was_present _ entry He. apply HG in He. simpl in He.
  set (tr0 := [Ev (InKeyCache (ContainsKey label)) was_present; Ev (InKeyCache (Enter label)) entry]).
  destruct entry as [v|f|f].
  - apply (one_key_ok G label K was_present v tr0); [by left|done..|]. intros k ->. auto.
  - cbn [prog_bind trigger try_bind all_runs]. intros j Hj. apply HG in Hj. simpl in Hj.
    set (tr1 := tr0 ++ [Ev (InKeyCache (Await label f)) j]). destruct j as [[v|e]|f'].
    + apply (one_key_ok G label K was_present v tr1); [by left|done..|]. intros k ->. auto.
    + apply (one_key_err G label K was_present e tr1); [by left|done..].
    + by apply (one_key_lead G label K was_present f' tr1).
  - by apply (one_key_lead G label K was_present f tr0).
Qed.

(** The part of a run that resolves the key, between parts that touch nothing. *)
Definition key_run (label : string) (tr : list (event svcE)) (failed : bool) : Prop :=
  (submits tr = [] ∨ ∃ o, submits tr = [(JGetPublicKey label, o)]) ∧
  (existsb is_present tr = true → submits tr = [] ∧ reports tr = [true]) ∧
  (reports tr = [] ∧ submits tr = [] ∨ ∃ b, reports tr = [b]) ∧
  (∀ o, submits tr = [(JGetPublicKey label, o)] →
     reports tr = [loaded o] ∧ (loaded o = false → failed = true)).

Lemma calm_not_present e : calm e → is_present e = false.
Proof. destruct e as [X e x]. unfold calm. destruct e; simpl; try done. by intros (_&_&?&_). Qed.

Lemma calm_present tr : Forall calm tr → existsb is_present tr = false.
Proof. induction 1; simpl; [done|]. by rewrite calm_not_present. Qed.

Lemma key_run_frame label tr1 tr2 tr3 b :
  Forall calm tr1 → Forall calm tr3 → key_run label tr2 b → key_run label (tr1 ++ tr2 ++ tr3) b.
Proof.
  intros H1 H3 H2. destruct (calm_run _ H1) as (Hs1&Hr1&_), (calm_run _ H3) as (Hs3&Hr3&_).
  unfold key_run. rewrite !submits_app, !reports_app, !existsb_app, Hs1, Hr1, Hs3, Hr3,
    (calm_present _ H1), (calm_present _ H3), !app_nil_r, !orb_false_r. done.
Qed.

Lemma one_key_run label K tr r b :
  one_key label K tr r → (is_ok r = false → b = true) → key_run label tr b.
Proof.
  intros (Hs&Hp&Hr&Hl&_) Hb. unfold key_run. rewrite Hr.
  split; [done|]. split; [intros H; destruct (Hp H) as [-> ->]; done|]. split; [right; by eexists|].
  intros o Ho. rewrite <-(Hl o Ho). by split.
Qed.

Lemma no_key_run label b : key_run label [] b.
Proof. split; [by left|]. split; [done|]. split; [by left|]. done. Qed.

Lemma admitted_key_run q :
  needs_secret q = false →
  all_runs any (admitted q) (λ tr r, key_run (request_key q) tr (negb (is_ok r))).
Proof.
  assert (∀ label A (f : A → AnyResponse) (post : Lookup * bool → prog svcE (result A Status)),
    (∀ l, ∃ r, post l = Ret r) →
    all_runs any (prog_bind (try_bind (public_key show label) post) (λ x, Ret (result_map f x)))
      (λ tr r, key_run label tr (negb (is_ok r)))) as H.
  { intros label A f post Hpost. apply map_try, all_runs_try.
    eapply all_runs_mono; [|apply (public_key_spec any label (λ _, True)); intros [? []]; simpl; auto;
      repeat case_match; auto]. cbv beta. intros tr [l|s] Hone.
    - destruct (Hpost l) as [r ->]. simpl. rewrite app_nil_r. eapply one_key_run; [done|]. done.
    - eapply one_key_run; [done|]. done. }
  destruct q as [r|r|r|r|r]; try done; intros _; unfold admitted.
  - unfold verify_admitted, ret. rewrite try_ret.
    destruct (extract_input _); [|apply no_key_run]. apply H. intros [[] ?]; [|by eexists].
    rewrite try_ret. case_match; by eexists.
  - apply H. intros [[] ?]; by eexists.
Qed.

Lemma public_key_run q :
  needs_secret q = false →
  all_runs any (rpc q) (λ tr r, key_run (request_key q) tr (negb (is_ok r))).
Proof.
  intros Hq. apply rpc_runs. intros t _. apply inner_admit.
  eapply all_runs_mono; [|apply admit_calm]. cbv beta. intros tr [[]|s] Hcalm.
  - eapply all_runs_mono; [|by apply admitted_key_run]. cbv beta. intros tr' r Hone.
    eapply all_runs_mono; [|apply record_calm]. cbv beta. intros tr'' _ Hcalm'.
    rewrite <-app_assoc. apply (key_run_frame _ (Ev InstantNow t :: tr)); [|done..].
    by repeat constructor.
  - eapply all_runs_mono; [|apply record_calm]. cbv beta. intros tr'' _ Hcalm'.
    apply (key_run_frame _ (Ev InstantNow t :: tr) []); [by repeat constructor|done|].
    apply no_key_run.
Qed.

(** C27: [Verify] and [GetPublicKey] leave the token out.  In every run of them at
    most one job is submitted, and it is the lookup of this request's public
    key: no private key is ever used; and when the cache holds the key, nothing
    is submitted at all and a success is reported to the breaker. *)
Theorem public_operations_skip_token q :
  needs_secret q = false →
  all_runs any (rpc q) (λ tr r, key_run (request_key q) tr (negb (is_ok r))).
Proof. apply public_key_run. Qed.

(** The jobs a request may become. *)
Definition serves (q : AnyRequest) (job : JobRequest) : bool :=
  String.eqb (key_label_of job) (request_key q) &&
  match q, job with
  | QSign _, JSign _ _ _ | QEncrypt _, JEncrypt _ _ _ _ | QDecrypt _, JDecrypt _ _ _ _ => true
  | (QVerify _ | QGetPublicKey _), JGetPublicKey _ => true
  | _, _ => false
  end.

Lemma job_of_serves q iv job : job_of q iv = Ok job → serves q job = true.
Proof.
  unfold job_of, serves. intros Hj. destruct q; repeat case_match; simplify_eq/=; by rewrite String.eqb_refl.
Qed.

(** What a secret operation submitted is what it was asked for. *)
Lemma job_run_submits q tr r job o :
  job_run q tr r → (job, o) ∈ submits tr →
  submits tr = [(job, o)] ∧ reports tr = [negb (token_fault o)] ∧ r = reply q job o ∧
  ∃ iv, job_of q iv = Ok job ∧ draws tr = draws_for q iv.
Proof.
  intros (t&adm&rest&outcome&_&_&_&Ho) Hin.
  destruct outcome as [[]|s]; [destruct Ho as [iv Ho], (job_of q iv) as [job'|s] eqn:Ha|].
  - destruct Ho as (Hd&o'&Hs&Hr&->). rewrite Hs in Hin. apply list_elem_of_singleton in Hin as [= <- <-].
    split_and!; try done. by exists iv.
  - destruct Ho as (Hs&_). rewrite Hs in Hin. by apply elem_of_nil in Hin.
  - destruct Ho as (Hs&_). rewrite Hs in Hin. by apply elem_of_nil in Hin.
Qed.

Lemma job_run_ok q tr resp :
  job_run q tr (Ok resp) →
  ∃ iv job o, job_of q iv = Ok job ∧ draws tr = draws_for q iv ∧ submits tr = [(job, o)] ∧
    reply q job o = Ok resp.
Proof.
  intros (t&adm&rest&outcome&_&_&_&Ho).
  destruct outcome as [[]|s]; [destruct Ho as [iv Ho], (job_of q iv) as [job|s] eqn:Ha|].
  - destruct Ho as (Hd&o&Hs&_&Hr). by exists iv, job, o.
  - by destruct Ho as (_&_&_&?).
  - by destruct Ho as (_&_&_&?).
Qed.

Lemma rpc_submits q :
  all_runs any (rpc q) (λ tr _, Forall (λ jo, serves q jo.1 = true) (submits tr)).
Proof.
  destruct (needs_secret q) eqn:Hq.
  - eapply all_runs_mono; [|by apply secret_one_job]. cbv beta.
    intros tr r Hrun. apply Forall_forall. intros [job o] Hin.
    destruct (job_run_submits _ _ _ _ _ Hrun Hin) as (_&_&_&iv&Ha&_). by eapply job_of_serves.
  - eapply all_runs_mono; [|by apply public_key_run]. cbv beta.
    intros tr r ([->|[o ->]]&_); [constructor|]. repeat constructor. simpl.
    destruct q; try done; unfold serves; simpl; by rewrite String.eqb_refl.
Qed.

(** ** What the service relies on from the pool *)

(** The interface of the pool: a response is of the variant asked for. *)
Class PoolPromise (G : event svcE → Prop) : Prop :=
  submit_typed j r : G (Ev (Submit j) (Ok r)) → answers j r = true.

Lemma submits_promised G tr :
  Forall G tr → ∀ j o, (j, o) ∈ submits tr → G (Ev (Submit j) o).
Proof.
  intros HG j o Hin. apply list_elem_of_omap in Hin as (e&He&Hs).
  rewrite Forall_forall in HG. specialize (HG e He). destruct e as [X e x].
  destruct e; simpl in Hs; try done. injection Hs as -> ->. exact HG.
Qed.

Lemma reply_answered q iv job ans :
  job_of q iv = Ok job → needs_secret q = true → answers job ans = true →
  is_ok (reply q job (Ok ans)) = true.
Proof. unfold job_of. intros Hj Hq. destruct q; try done; repeat case_match; simplify_eq/=; by destruct ans. Qed.

(** What the answer to the lookup of a public key makes of the request. *)
Definition lookup_decides (label : string) (tr : list (event svcE)) (r : result AnyResponse Status) : Prop :=
  ∀ o, submits tr = [(JGetPublicKey label, o)] →
    if loaded o then r ≠ Err (internal "internal error") else r = Err (internal "internal error").

Lemma admitted_lookup q :
  needs_secret q = false → all_runs any (admitted q) (lookup_decides (request_key q)).
Proof.
  assert (∀ label A (f : A → AnyResponse) (post : Lookup * bool → prog svcE (result A Status)),
    (∀ l, ∃ r, post l = Ret r ∧ r ≠ Err (internal "internal error")) →
    all_runs any (prog_bind (try_bind (public_key show label) post) (λ x, Ret (result_map f x)))
      (lookup_decides label)) as H.
  { intros label A f post Hpost. apply map_try, all_runs_try.
    eapply all_runs_mono; [|apply (public_key_spec any label (λ _, True)); intros [? []]; simpl; auto;
      repeat case_match; auto]. cbv beta. intros tr [l|s] (_&_&_&Hl&Hr).
    - destruct (Hpost l) as (r&->&Hne). simpl. rewrite app_nil_r. intros o Ho. rewrite <-(Hl o Ho).
      simpl. by destruct r; simpl; [|intros [= ->]].
    - intros o Ho. rewrite <-(Hl o Ho). simpl. by subst s. }
  destruct q as [r|r|r|r|r]; try done; intros _; unfold admitted.
  - unfold verify_admitted, ret. rewrite try_ret.
    destruct (extract_input _); [|by intros o Ho]. apply H. intros [[] ?]; [|by eexists; split].
    rewrite try_ret. destruct (Crypto.verify_public _ _ _ _); simpl; by eexists; split.
  - apply H. intros [[] ?]; by eexists; split.
Qed.

Lemma lookup_decides_frame label tr1 tr2 tr3 r :
  Forall calm tr1 → Forall calm tr3 → lookup_decides label tr2 r →
  lookup_decides label (tr1 ++ tr2 ++ tr3) r.
Proof.
  intros (Hs1&_)%calm_run (Hs3&_)%calm_run. unfold lookup_decides.
  by rewrite !submits_app, Hs1, Hs3, app_nil_r.
Qed.

Lemma public_lookup_run q :
  needs_secret q = false → all_runs any (rpc q) (lookup_decides (request_key q)).
Proof.
  intros Hq. apply rpc_runs. intros t _. apply inner_admit.
  eapply all_runs_mono; [|apply admit_calm]. cbv beta. intros tr [[]|s] Hcalm.
  - eapply all_runs_mono; [|by apply admitted_lookup]. cbv beta. intros tr' r Hone.
    eapply all_runs_mono; [|apply record_calm]. cbv beta. intros tr'' _ Hcalm'.
    rewrite <-app_assoc. apply (lookup_decides_frame _ (Ev InstantNow t :: tr)); [|done..].
    by repeat constructor.
  - eapply all_runs_mono; [|apply record_calm]. cbv beta. intros tr'' _ Hcalm'.
    apply (lookup_decides_frame _ (Ev InstantNow t :: tr) []); [by repeat constructor|done|done].
Qed.

(** The same, from any one submission of a run. *)
Lemma lookup_run q :
  needs_secret q = false →
  all_runs any (rpc q) (λ tr r, ∀ job o, (job, o) ∈ submits tr →
    job = JGetPublicKey (request_key q) ∧ reports tr = [loaded o] ∧
    if loaded o then r ≠ Err (internal "internal error") else r = Err (internal "internal error")).
Proof.
  intros Hq. eapply all_runs_mono; [|apply all_runs_and; [by apply public_key_run|by apply public_lookup_run]].
  cbv beta. intros tr r [(Hs&_&_&Hl) Hd] job o Hin. destruct Hs as [Hs|[o' Hs]].
  - rewrite Hs in Hin. by apply elem_of_nil in Hin.
  - rewrite Hs in Hin. apply list_elem_of_singleton in Hin as [= -> ->].
    split; [done|]. split; [by apply Hl|by apply Hd].
Qed.

(** C29: Overload is not a health signal for a job, but it is one for the lookup of a
    public key.  In every run in which the queue was full: [Sign], [Encrypt] and
    [Decrypt] answer [ResourceExhausted] and report a success to the breaker, while
    [Verify] and [GetPublicKey] answer [Internal] and report a failure.  Such runs
    exist for every [GetPublicKey] that is admitted and finds its key not cached. *)
Theorem overload_counts_as_failure_for_public_keys q :
  all_runs any (rpc q) (λ tr r, ∀ job, (job, Err Overloaded) ∈ submits tr →
    if needs_secret q
    then reports tr = [true] ∧ r = Err (resource_exhausted "request queue is full; retry after backing off")
    else reports tr = [false] ∧ r = Err (internal "internal error")) ∧
  (∀ g, q = QGetPublicKey g →
    some_run (rpc q) (λ tr r, submits tr = [(JGetPublicKey (gpk_key_label (get_ref g)), Err Overloaded)])).
Proof.
  split.
  - destruct (needs_secret q) eqn:Hq.
    + eapply all_runs_mono; [|by apply secret_one_job]. cbv beta. intros tr r Hrun job Hin.
      by destruct (job_run_submits _ _ _ _ _ Hrun Hin) as (_&->&->&_).
    + eapply all_runs_mono; [|by apply lookup_run]. cbv beta. intros tr r Hrun job Hin.
      by destruct (Hrun _ _ Hin) as (_&->&->).
  - intros g ->. unfold rpc, get_public_key_rpc, recorded, get_public_key_inner, admit_request.
    simpl. exists 0, true. destruct (has_authorizer svc); simpl.
    + exists (Ok "caller"). destruct (has_rate_limiter svc); simpl; [exists true|];
        by exists false, (Lead 0%nat), (Err Overloaded), tt, tt, tt, 0, tt.
    + destruct (has_rate_limiter svc); simpl; by exists false, (Lead 0%nat), (Err Overloaded), tt, tt, tt, 0, tt.
Qed.

(** A job that the pool answered with a response of the right variant. *)
Lemma answered_job_replies G `{!PoolPromise G} q :
  all_runs G (rpc q) (λ tr r, ∀ job ans, (job, Ok ans) ∈ submits tr →
    answers job ans = true ∧ reports tr = [true] ∧ r ≠ Err (internal "internal error") ∧
    (needs_secret q = true → is_ok r = true)).
Proof.
  destruct (needs_secret q) eqn:Hq.
  - eapply all_runs_mono; [|apply all_runs_and; [apply all_runs_promised|
      eapply (all_runs_weaken any); [done|]; by apply secret_one_job]].
    cbv beta. intros tr r [HG Hrun] job ans Hin.
    pose proof (submit_typed _ _ (submits_promised _ _ HG _ _ Hin)) as Hans.
    destruct (job_run_submits _ _ _ _ _ Hrun Hin) as (_&->&->&iv&Ha&_).
    pose proof (reply_answered _ _ _ _ Ha Hq Hans) as Hok. split_and!; try done.
    intros Heq. by rewrite Heq in Hok.
  - eapply all_runs_mono; [|apply all_runs_and; [apply all_runs_promised|
      eapply (all_runs_weaken any); [done|]; by apply lookup_run]].
    cbv beta. intros tr r [HG Hrun] job ans Hin.
    pose proof (submit_typed _ _ (submits_promised _ _ HG _ _ Hin)) as Hans.
    destruct (Hrun _ _ Hin) as (->&->&Hr). destruct ans; try done.
Qed.

(** ** Signing and verifying, end to end *)

(** What holds of the replies of admitted requests holds of all replies. *)
Lemma rpc_reply G q (R : AnyResponse → Prop) :
  all_runs G (admitted q) (λ _ r, ∀ resp, r = Ok resp → R resp) →
  all_runs G (rpc q) (λ _ r, ∀ resp, r = Ok resp → R resp).
Proof.
  intros Ha. apply rpc_runs. intros t _. apply inner_admit.
  eapply all_runs_mono; [|apply admit_calm]. cbv beta. intros tr [[]|s] _.
  - eapply all_runs_mono; [|exact Ha]. cbv beta. intros tr' r Hr. by apply all_runs_always.
  - by apply all_runs_always.
Qed.

Lemma sign_reply G r :
  all_runs G (rpc (QSign r)) (λ _ res, ∀ resp, res = Ok resp →
    ∃ input p s, extract_input (sign_input (get_ref r)) = Ok input ∧
      Crypto.prepare (sign_mechanism (get_ref r)) input = Ok p ∧
      G (Ev (Submit (JSign (sign_key_label (get_ref r)) (Crypto.algorithm p) (Crypto.payload p)))
            (Ok (Signature s))) ∧
      resp = ASign (mkSignResp s (sign_key_label (get_ref r)))).
Proof.
  apply rpc_reply. unfold admitted, sign_admitted, ret.
  destruct (extract_input _) as [input|e] eqn:Hi; [|done]. rewrite !try_ret.
  destruct (Crypto.prepare _ _) as [p|e] eqn:Hp; [|done]. simpl map_err. cbv iota.
  apply map_try, all_runs_try. eapply all_runs_mono; [|apply submit_observed_spec].
  cbv beta. intros tr x (o&Ho&->&_). destruct o as [ans|e]; simpl; [|done].
  destruct ans as [sg| | | |]; simpl; try done. intros resp [= <-]. exists input, p, sg. done.
Qed.

Lemma verify_reply G K r :
  (∀ e, G e → hands_out (verify_key_label (get_ref r)) K e) →
  all_runs G (rpc (QVerify r)) (λ _ res, ∀ resp, res = Ok resp →
    ∃ input k v b, extract_input (verify_input (get_ref r)) = Ok input ∧ K k ∧
      Crypto.verify_public (spki_der k) (verify_mechanism (get_ref r)) input
        (verify_signature (get_ref r)) = Ok v ∧
      resp = AVerify (mkVerifyResp v b)).
Proof.
  intros HG. apply rpc_reply. unfold admitted, verify_admitted, ret.
  destruct (extract_input _) as [input|e] eqn:Hi; [|done]. rewrite try_ret.
  apply map_try, all_runs_try. eapply all_runs_mono; [|by apply public_key_spec].
  cbv beta. intros tr [[[k|] b]|e] (_&_&_&_&HK); [|done..]. rewrite try_ret.
  destruct (Crypto.verify_public _ _ _ _) as [v|e] eqn:Hv; simpl; [|done].
  intros resp [= <-]. exists input, k, v, b. done.
Qed.

(** The token signs: what it returns for a job of this key is valid. *)
Definition token_signs (label : string) (token_valid : Mechanism → bytes → bytes → bool)
    (e : event svcE) : Prop :=
  match e with
  | Ev e' x =>
      match e' in svcE X return X → Prop with
      | Submit j => λ x,
          match j, x with
          | JSign l a p, Ok (Signature s) => l = label → token_valid (Crypto.mechanism a) p s = true
          | _, _ => True
          end
      | _ => λ _, True
      end x
  end.
End theorems.

(** ** The pool keeps its promise *)

Section pool_promise.
Context {CK : Cryptoki} {CL : CryptoLib} {CH : Pool.Channel} {CHO : Pool.ChannelOk CH}.
Context (show : CkError → string) (description : Code → string) (svc : PooledService).

(** The answers to [Submit] are returns of the pool [p]; nothing is said of the
    other effects. *)
Definition served_by (p : Pool.Pool) (e : event svcE) : Prop :=
  match submitted e with
  | Some (j, o) => ∃ id, Pool.calls p !! id = Some j ∧ (id, o) ∈ Pool.returned p
  | None => True
  end.

#[global] Instance served_by_promise p : Pool.reachable p → PoolPromise (served_by p).
Proof.
  intros Hp j r. unfold served_by. simpl. intros (id&Hc&Hin).
  destruct (Pool.pool_answers_typed p id r Hp Hin) as (req&Hc'&Ha). by simplify_eq.
Qed.

(** C28: The wrong-variant branches are dead, in the handlers and in the load of a
    public key.  When the pool behind the service is in a reachable state, whatever
    interleaving led to it, a job of any request that it answered with a response
    was answered with the variant the job asks for, is reported to the breaker as
    a success, and does not make the request fail with the internal error of those
    branches; [Sign], [Encrypt] and [Decrypt] then succeed. *)
Theorem wrong_variant_is_unreachable p q :
  Pool.reachable p →
  all_runs (served_by p) (rpc show description svc q) (λ tr r,
    ∀ job ans, (job, Ok ans) ∈ submits tr →
      answers job ans = true ∧ reports tr = [true] ∧ r ≠ Err (internal "internal error") ∧
      (needs_secret q = true → is_ok r = true)).
Proof. intros Hp%served_by_promise. by apply answered_job_replies. Qed.
End pool_promise.

Section roundtrip.
Context {CL : CryptoLib} {CLL : Crypto.CryptoLaws CL}.
Context (show : CkError → string) (description : Code → string) (svc : PooledService).

(** What [Sign] returns, [Verify] accepts.  If the token's signatures under a
    label are valid for the key pair it holds there, and the public keys the
    cache and the pool hand out for the label are that pair's, then in all runs
    a reply of [Sign], verified with the same key, mechanism and input, whether
    a message or a digest, is reported valid whenever [Verify] replies at all. *)
Theorem sign_then_verify token_valid (rs : Request SignRequest) (rv : Request VerifyRequest) :
  verify_key_label (get_ref rv) = sign_key_label (get_ref rs) →
  verify_mechanism (get_ref rv) = sign_mechanism (get_ref rs) →
  verify_input (get_ref rv) = sign_input (get_ref rs) →
  all_runs (token_signs (sign_key_label (get_ref rs)) token_valid) (rpc show description svc (QSign rs))
    (λ _ r, ∀ resp, r = Ok (ASign resp) →
       verify_signature (get_ref rv) = resp_signature resp →
       all_runs (hands_out (sign_key_label (get_ref rs))
                   (λ k, Crypto.key_for (sign_mechanism (get_ref rs)) (spki_der k) token_valid))
         (rpc show description svc (QVerify rv))
         (λ _ r', ∀ resp', r' = Ok resp' → ∃ b, resp' = AVerify (mkVerifyResp true b))).
Proof.
  intros Hl Hm Hi. eapply all_runs_mono; [|apply sign_reply].
  cbv beta. intros _ r Hr resp -> Hsig.
  destruct (Hr _ eq_refl) as (input&p&sg&Hin&Hp&Hs&[= ->]). simpl in Hs, Hsig.
  eapply all_runs_mono; [|apply verify_reply].
  2: { intros e He. rewrite Hl. exact He. }
  cbv beta. intros _ r' Hr' resp' ->.
  destruct (Hr' _ eq_refl) as (input'&k&v&b&Hin'&HK&Hv&->). exists b.
  rewrite Hi, Hin in Hin'. injection Hin' as <-.
  rewrite Hm, Hsig, (Crypto.verify_public_valid token_valid _ _ _ p) in Hv by done.
  injection Hv as <-. by rewrite (Hs eq_refl).
Qed.
End roundtrip.

(** ** Witnesses, on the toy algorithms *)

Module PooledWitness.

Definition show_ck (e : CkError) : string := "PKCS#11 error".
Definition describe (c : Code) : string := "code".
Definition full : PooledService := mkService true true.
Definition open_service : PooledService := mkService false false.

Definition demo_sign : Request SignRequest :=
  mkRequest None (mkSign "demo" 1 (Some (Some (Crypto.Message [x07])))).
Definition demo_signature : bytes := let d := Crypto.toy_sha256 [x07] in d ++ d.
Definition demo_verify : Request VerifyRequest :=
  mkRequest None (mkVerify "demo" 1 (Some (Some (Crypto.Message [x07]))) demo_signature).
Definition demo_get : Request GetPublicKeyRequest := mkRequest None (mkGetPublicKey "demo").

(** An admitted signature: the run exists, and its one job is the one described. *)
Lemma secret_operations_reach_token_witness :
  some_run (rpc show_ck describe full (QSign demo_sign)) (λ tr r,
    (∃ t adm rest outcome,
      tr = Ev InstantNow t :: adm ++ rest ∧ admission full (QSign demo_sign) adm outcome ∧
      cache_calls tr = [] ∧
      match outcome with
      | Err s => submits tr = [] ∧ reports tr = [] ∧ draws tr = [] ∧ r = Err s
      | Ok _ => ∃ iv,
          match job_of show_ck (QSign demo_sign) iv with
          | Err s => submits tr = [] ∧ reports tr = [] ∧ draws tr = [] ∧ r = Err s
          | Ok job => draws tr = draws_for (QSign demo_sign) iv ∧
              ∃ o, submits tr = [(job, o)] ∧ reports tr = [negb (token_fault o)] ∧
                   r = reply (QSign demo_sign) job o
          end
      end) ∧
    r = Ok (ASign (mkSignResp demo_signature "demo"))).
Proof.
  apply all_some.
  - apply (secret_operations_reach_token show_ck describe full (QSign demo_sign)). reflexivity.
  - simpl. exists 0, true, (Ok "caller"), true, (Ok (Signature demo_signature)), tt, tt, 0, tt, tt. done.
Defined.

Import Toy Pool.PoolWitness.

(** A pool that served the job of [demo_sign] and the lookup of [demo_get]. *)
Definition served_pool : Pool.Pool (CK := toy_token) (CH := list_channel) :=
  after [Pool.ASubmit (JSign "demo" Crypto.Ecdsa (Crypto.toy_sha256 [x07])); Pool.ATake 0; Pool.AFinish 0; Pool.APoll 0;
         Pool.ASubmit (JGetPublicKey "demo"); Pool.ATake 1; Pool.AFinish 1; Pool.APoll 1] demo_pool.

Lemma served_reachable : Pool.reachable served_pool.
Proof. exists demo_pool. split; [apply demo_started|]. apply after_steps. vm_compute. reflexivity. Qed.

Definition served_key : JobResponse := PublicKey toy_point "EC".

Lemma served_returned :
  Pool.returned served_pool = [(1%nat, Ok served_key); (0%nat, Ok (Signature demo_signature))].
Proof. vm_compute. reflexivity. Qed.

(** Served by that pool, both have a run in which the pool's answer arrives. *)
Lemma wrong_variant_is_unreachable_witness :
  some_run (rpc show_ck describe open_service (QSign demo_sign)) (λ tr r,
    Forall (served_by served_pool) tr ∧ snd <$> submits tr = [Ok (Signature demo_signature)]) ∧
  some_run (rpc show_ck describe open_service (QGetPublicKey demo_get)) (λ tr r,
    Forall (served_by served_pool) tr ∧ snd <$> submits tr = [Ok served_key]) ∧
  ∀ q, all_runs (served_by served_pool) (rpc show_ck describe open_service q) (λ tr r,
    ∀ job ans, (job, Ok ans) ∈ submits tr →
      answers job ans = true ∧ reports tr = [true] ∧ r ≠ Err (internal "internal error") ∧
      (needs_secret q = true → is_ok r = true)).
Proof.
  split; [|split].
  - simpl. exists 0, true, (Ok (Signature demo_signature)), tt, tt, 0, tt, tt. split; [|done].
    repeat constructor. exists 0%nat. rewrite served_returned. split; [reflexivity|right; left].
  - simpl. exists 0, true, false, (Lead 0%nat), (Ok served_key), tt, tt, tt, tt, 0, tt, tt. split; [|done].
    repeat constructor. exists 1%nat. rewrite served_returned. split; [reflexivity|left].
  - intros q. apply (wrong_variant_is_unreachable show_ck describe open_service served_pool q served_reachable).
Defined.

Lemma public_operations_skip_token_witness :
  all_runs any (rpc show_ck describe full (QVerify demo_verify))
    (λ tr r, key_run "demo" tr (negb (is_ok r))).
Proof.
  apply (public_operations_skip_token show_ck describe full (QVerify demo_verify)). reflexivity.
Defined.

(** Both kinds of request meet a full queue. *)
Lemma overload_counts_as_failure_for_public_keys_witness :
  some_run (rpc show_ck describe open_service (QGetPublicKey demo_get)) (λ tr r,
    submits tr = [(JGetPublicKey "demo", Err Overloaded)]) ∧
  some_run (rpc show_ck describe open_service (QSign demo_sign)) (λ tr r,
    snd <$> submits tr = [Err Overloaded] ∧ reports tr = [true]).
Proof.
  split.
  - apply (proj2 (overload_counts_as_failure_for_public_keys show_ck describe open_service
      (QGetPublicKey demo_get)) demo_get). reflexivity.
  - simpl. exists 0, true, (Err Overloaded), tt, tt, 0, tt, tt. done.
Defined.

Lemma sign_then_verify_witness :
  some_run (rpc show_ck describe open_service (QSign demo_sign)) (λ _ r,
    r = Ok (ASign (mkSignResp demo_signature "demo"))) ∧
  all_runs (token_signs "demo" Crypto.toy_valid) (rpc show_ck describe open_service (QSign demo_sign))
    (λ _ r, ∀ resp, r = Ok (ASign resp) → demo_signature = resp_signature resp →
       all_runs (hands_out "demo" (λ k, Crypto.key_for 1 (spki_der k) Crypto.toy_valid))
         (rpc show_ck describe open_service (QVerify demo_verify))
         (λ _ r', ∀ resp', r' = Ok resp' → ∃ b, resp' = AVerify (mkVerifyResp true b))).
Proof.
  split.
  - simpl. exists 0, true, (Ok (Signature demo_signature)), tt, tt, 0, tt, tt. done.
  - apply (sign_then_verify (CLL := Crypto.toy_laws) show_ck describe open_service Crypto.toy_valid
      demo_sign demo_verify); reflexivity.
Defined.
End PooledWitness.
