(* ===== verification/Single.v ===== *)
(** * The single-session service ([grpc/service.rs])

    The baseline backend: one session behind a lock, which serializes the
    requests, so a request is one transition of the module's state.  The IV of
    [encrypt] is what the random generator returned.  The theorem compares it
    with the pooled backend. *)
From S2P Require Import Prelude RustStd Deps Effects Session Crypto Toy Worker Cache Wire Pooled.

Local Open Scope Z_scope.

Section single.
Context {CK : Cryptoki} {CL : CryptoLib}.

Record SingleSessionService := mkSingle { single_pkcs11 : Context; single_session : Session }.

Definition connect (config : TokenConfig) : stR World AnyError SingleSessionService :=
  stR_map (λ '(ctx, _, x), mkSingle ctx x) (open_token config).

(** The full error goes to the log; the client learns the operation. *)
Definition hsm_failure (operation : string) : Status := internal (operation +:+ " failed").

Definition single_invalid_argument (err : AnyError) : Status :=
  invalid_argument (any_to_string show_error err).

Definition require_object (x : Session) (class : ObjectClass) (label : string) :
    stR World Status ObjectHandle :=
  (do found <- stR_map_err (λ _, hsm_failure "C_FindObjects") (find_object x class label);
   stR_lift (ok_or found (key_not_found label)))%rust.

Definition single_sign (x : Session) (req : SignRequest) : stR World Status SignResponse :=
  (do input <- stR_lift (extract_input (sign_input req));
   do prepared <- stR_lift (map_err single_invalid_argument
                              (Crypto.prepare (sign_mechanism req) input));
   do private_key <- require_object x PRIVATE_KEY (sign_key_label req);
   do signature <- stR_map_err (λ _, hsm_failure "C_Sign")
                     (sign x (Crypto.mechanism (Crypto.algorithm prepared)) private_key
                        (Crypto.payload prepared));
   stR_lift (Ok (mkSignResp signature (sign_key_label req))))%rust.

Definition single_verify (x : Session) (req : VerifyRequest) : stR World Status VerifyResponse :=
  (do input <- stR_lift (extract_input (verify_input req));
   do prepared <- stR_lift (map_err single_invalid_argument
                              (Crypto.prepare (verify_mechanism req) input));
   do public_key <- require_object x PUBLIC_KEY (verify_key_label req);
   λ w, match verify x (Crypto.mechanism (Crypto.algorithm prepared)) public_key
                (Crypto.payload prepared) (verify_signature req) w with
        | (Ok _, w') => (Ok (mkVerifyResp true false), w')
        | (Err (Pkcs11 (SignatureInvalid | SignatureLenRange) _), w') =>
            (Ok (mkVerifyResp false false), w')
        | (Err e, w') => (Err (hsm_failure "C_Verify"), w')
        end)%rust.

Definition single_encrypt (x : Session) (iv : bytes) (req : EncryptRequest) :
    stR World Status EncryptResponse :=
  (do _ <- stR_lift (require_aes_gcm (encrypt_mechanism req));
   do key <- require_object x SECRET_KEY (encrypt_key_label req);
   do params <- stR_lift (map_err (λ e, invalid_argument (show_error e))
                            (gcm_params iv (encrypt_associated_data req) GCM_TAG_BITS));
   do ciphertext <- stR_map_err (λ _, hsm_failure "C_Encrypt")
                      (encrypt x (M_AesGcm params) key (encrypt_plaintext req));
   stR_lift (Ok (mkEncryptResp ciphertext iv)))%rust.

Definition single_decrypt (x : Session) (req : DecryptRequest) : stR World Status DecryptResponse :=
  (do _ <- stR_lift (require_aes_gcm (decrypt_mechanism req));
   if negb (length (decrypt_iv req) =? GCM_IV_LEN)%nat then stR_lift (Err (bad_iv (decrypt_iv req)))
   else
     do key <- require_object x SECRET_KEY (decrypt_key_label req);
     do params <- stR_lift (map_err (λ e, invalid_argument (show_error e))
                              (gcm_params (decrypt_iv req) (decrypt_associated_data req) GCM_TAG_BITS));
     do plaintext <- stR_map_err
                       (λ e, match e with
                             | Pkcs11 (EncryptedDataInvalid | EncryptedDataLenRange) _ =>
                                 invalid_argument "ciphertext failed authentication"
                             | _ => hsm_failure "C_Decrypt"
                             end)
                       (decrypt x (M_AesGcm params) key (decrypt_ciphertext req));
     stR_lift (Ok (mkDecryptResp plaintext)))%rust.

Definition single_get_public_key (x : Session) (req : GetPublicKeyRequest) :
    stR World Status GetPublicKeyResponse :=
  (do public_key <- require_object x PUBLIC_KEY (gpk_key_label req);
   do key <- stR_map_err (λ _, hsm_failure "public key encoding")
               (Crypto.public_key_to_spki_der x public_key);
   stR_lift (Ok (mkGetPublicKeyResp (fst key) (snd key) false)))%rust.

Definition single_rpc (x : Session) (iv : bytes) (q : AnyRequest) : stR World Status AnyResponse :=
  match q with
  | QSign r => stR_map ASign (single_sign x (get_ref r))
  | QVerify r => stR_map AVerify (single_verify x (get_ref r))
  | QEncrypt r => stR_map AEncrypt (single_encrypt x iv (get_ref r))
  | QDecrypt r => stR_map ADecrypt (single_decrypt x (get_ref r))
  | QGetPublicKey r => stR_map AGetPublicKey (single_get_public_key x (get_ref r))
  end.

(** ** The two backends agree *)

(** Equal responses, or statuses of the same code. *)
Definition same_answer (r r' : result AnyResponse Status) : Prop :=
  match r, r' with
  | Ok a, Ok a' => a = a'
  | Err s, Err s' => code s = code s'
  | _, _ => False
  end.

Lemma require_object_search x kind label (s : WState) :
  session s.1 = x →
  let '(r, w) := require_object x (object_class kind) label (world s.2) in
  let '(o, s') := search kind label s in
  s'.1 = s.1 ∧ w = world s'.2 ∧
  match r, o with
  | Ok h, Ok h' => h = h'
  | Err st, Err e => code st = code (to_status e)
  | _, _ => False
  end.
Proof.
  intros <-. unfold require_object, search, call. unfold_st.
  destruct (find_object (session s.1) (object_class kind) label (world s.2)) as [[[h|]|e] w];
    simpl; done.
Qed.

(** The single-session service against a worker that searches for its keys. *)
Lemma single_dispatch iv q job (s : WState) :
  needs_secret q = true → job_of show_error q iv = Ok job →
  let '(r, w) := single_rpc (session s.1) iv q (world s.2) in
  let '(o, s') := dispatch_with search job s in
  w = world s'.2 ∧ same_answer r (reply q job o).
Proof.
  intros Hq. destruct q as [r|r|r|r|r]; try done; unfold job_of, single_rpc.
  - unfold single_sign, single_invalid_argument. unfold_st.
    destruct (extract_input _) as [input|e]; [|done].
    destruct (Crypto.prepare _ _) as [p|e]; [|done]. intros [= <-]. simpl map_err. cbv iota.
    unfold dispatch_with, on_session. unfold_st.
    pose proof (require_object_search (session s.1) KPrivate (sign_key_label (get_ref r)) s eq_refl) as H.
    simpl object_class in H. destruct (require_object _ _ _ _) as [[h|st] w1], (search _ _ _) as [[h'|e] s1];
      destruct H as (H1&->&H); simpl in *; subst; try done. unfold call. rewrite H1.
    destruct (sign _ _ _ _ _) as [[sg|e] w2]; done.
  - unfold single_encrypt. unfold_st. destruct (require_aes_gcm _) as [u|e]; [|done]. intros [= <-].
    cbv iota. unfold dispatch_with, on_session. unfold_st.
    pose proof (require_object_search (session s.1) KSecret (encrypt_key_label (get_ref r)) s eq_refl) as H.
    simpl object_class in H. destruct (require_object _ _ _ _) as [[h|st] w1], (search _ _ _) as [[h'|e] s1];
      destruct H as (H1&->&H); simpl in *; subst; try done. unfold call. rewrite H1.
    destruct (gcm_params _ _ _); [|done]. destruct (encrypt _ _ _ _ _) as [[c|e] w2]; done.
  - unfold single_decrypt. unfold_st. destruct (require_aes_gcm _) as [u|e]; [|done].
    destruct (_ =? _)%nat; [|done]. intros [= <-]. cbn [negb]. unfold dispatch_with, on_session. unfold_st.
    pose proof (require_object_search (session s.1) KSecret (decrypt_key_label (get_ref r)) s eq_refl) as H.
    simpl object_class in H. destruct (require_object _ _ _ _) as [[h|st] w1], (search _ _ _) as [[h'|e] s1];
      destruct H as (H1&->&H); simpl in *; subst; try done. unfold call. rewrite H1.
    destruct (gcm_params _ _ _); [|done]. destruct (decrypt _ _ _ _ _) as [[c|e] w2]; [done|].
    by destruct e as [[] ?|?].
Qed.

(** A malformed request is refused before the token is used. *)
Lemma single_malformed x iv q e w :
  needs_secret q = true → job_of show_error q iv = Err e → single_rpc x iv q w = (Err e, w).
Proof.
  intros Hq. destruct q as [r|r|r|r|r]; try done; unfold job_of, single_rpc.
  - unfold single_sign, single_invalid_argument. unfold_st.
    destruct (extract_input _) as [input|e']; [|by intros [= <-]].
    destruct (Crypto.prepare _ _) as [p|e']; by intros [= <-].
  - unfold single_encrypt. unfold_st. destruct (require_aes_gcm _); by intros [= <-].
  - unfold single_decrypt. unfold_st. destruct (require_aes_gcm _); [|by intros [= <-]].
    destruct (_ =? _)%nat; by intros [= <-].
Qed.

Context {RO : ReadOnlyQueries CK}.

(** C14: The backends agree.  Take a [Sign], [Encrypt] or [Decrypt] request, and a
    worker of the pool whose cached handles are those its session would find, on
    the session and the token state the single-session service is in.  If the
    request is malformed, both refuse it with the same status and neither touches
    the token.  Otherwise the single-session service gives the same response, or a
    status of the same code, as the pooled service makes of the worker's answer to
    the job the request becomes, cached handles and all; and it leaves the token in
    the state in which the worker leaves it, or, after an error fatal to the
    session, in the state from which the worker goes on to reset its session. *)
Theorem backends_agree iv q (s : WState) :
  needs_secret q = true → handles_current s →
  let '(r, w) := single_rpc (session s.1) iv q (world s.2) in
  match job_of show_error q iv with
  | Err e => r = Err e ∧ w = world s.2
  | Ok job =>
      let '(o, s') := execute job s in
      same_answer r (reply q job o) ∧
      ∃ s1, world s1.2 = w ∧ session s1.1 = session s.1 ∧
        (not_fatal o → s' = s1) ∧
        (∀ op e, o = Err (Hsm op e) → is_session_fatal e = true → s' = reset_session s1)
  end.
Proof.
  intros Hq Hcur. destruct (job_of show_error q iv) as [job|e] eqn:Ha.
  2: { by rewrite (single_malformed _ _ _ _ _ Hq Ha). }
  pose proof (single_dispatch iv q job s Hq Ha) as Hs.
  destruct (dispatch_transparent job s s Hcur eq_refl) as (Hr&Hc&_).
  destruct (single_rpc _ _ _ _) as [r w].
  unfold execute, execute_with.
  destruct (dispatch_with search job s) as [o0 s0], (dispatch_with handle job s) as [o s1] eqn:Hd.
  simpl in Hr, Hc. subst o0. destruct Hs as [-> Hs].
  assert (world s1.2 = world s0.2) as Hw by by injection Hc.
  assert (session s1.1 = session s.1) as Hx.
  { destruct (dispatch_frame handle job s) as [Hf _]. rewrite Hd in Hf. simpl in Hf. rewrite Hf.
    apply handle_session. }
  destruct o as [a|[| | | | |op e|]]; (split; [done|]); exists s1; split_and!; try done.
  all: destruct (is_session_fatal e) eqn:Hf; try done.
  - intros Hnf. by rewrite (Hnf _ _ eq_refl) in Hf.
  - intros op' e' [= <- <-]. congruence.
Qed.
End single.

(** ** A witness: an [Encrypt] request on the demo token *)

Module SingleWitness.
Import Toy WorkerWitness.

Definition demo_encrypt : Request EncryptRequest := mkRequest None (mkEncrypt "aes" 1 [x01; x02] [x03]).
Definition demo_iv : bytes := replicate 12 x05.

(** A worker that has served a request before, so that its handle is cached. *)
Definition warm : WState (CK := toy_token) :=
  (execute (JEncrypt "aes" [x00] [] demo_iv) (demo_state None 0)).2.

Lemma warm_current : handles_current (CK := toy_token) (RO := toy_read_only) warm.
Proof.
  apply (execute_transparent (CK := toy_token) (JEncrypt "aes" [x00] [] demo_iv) (demo_state None 0)
    (demo_state None 0)); [|done]. by apply no_handles_current.
Qed.

Lemma backends_agree_witness :
  match handles warm.1 !! "aes" ≫= h_secret with Some h => (h =? 2)%nat | None => false end = true ∧
  let '(r, w) := single_rpc (CK := toy_token) 0%nat demo_iv (QEncrypt demo_encrypt) (world warm.2) in
  let '(o, s') := execute (JEncrypt "aes" [x01; x02] [x03] demo_iv) warm in
  is_ok r = true ∧
  same_answer r (reply (QEncrypt demo_encrypt) (JEncrypt "aes" [x01; x02] [x03] demo_iv) o).
Proof.
  split; [vm_compute; reflexivity|].
  pose proof (backends_agree (CK := toy_token) demo_iv (QEncrypt demo_encrypt) warm eq_refl warm_current) as H.
  assert (is_ok (single_rpc (CK := toy_token) 0%nat demo_iv (QEncrypt demo_encrypt) (world warm.2)).1 = true)
    as Hok by (vm_compute; reflexivity).
  change (session warm.1) with 0%nat in H.
  destruct (single_rpc (CK := toy_token) 0%nat demo_iv (QEncrypt demo_encrypt) _) as [r w].
  change (job_of _ _ _) with (@Ok JobRequest Status (JEncrypt "aes" [x01; x02] [x03] demo_iv)) in H.
  cbv iota beta in H. destruct (execute _ _) as [o s']. split; [exact Hok|]. apply H.
Defined.
End SingleWitness.
