(* ===== verification/Provision.v ===== *)
(** * Creating the demo keys ([pkcs11/provision.rs], [bin/provision.rs])

    Key generation goes through the operations of [Cryptoki].  What PKCS#11
    documents of searching and generating is the class [TokenObjects]; the
    theorems are about any token that keeps it. *)
From S2P Require Import Prelude RustStd Deps Session Crypto Toy.

Local Open Scope Z_scope.

(** The DER encoding of the OID 1.2.840.10045.3.1.7. *)
Definition SECP256R1_OID_DER : bytes := [x06; x08; x2a; x86; x48; xce; x3d; x03; x01; x07].

Definition DEMO_EC_KEY : string := "demo-ec-p256".
Definition DEMO_RSA_KEY : string := "demo-rsa-2048".
Definition DEMO_AES_KEY : string := "demo-aes-256".

Inductive Provisioned := Created | AlreadyPresent.

#[global] Instance Provisioned_eq_dec : EqDecision Provisioned.
Proof. solve_decision. Defined.

(** ** Templates *)

Definition private_key_base (label : string) : list Attribute :=
  [A_Token true; A_Private true; A_Sensitive true; A_Extractable false; A_Sign true;
   A_Label (as_bytes label)].

Definition public_key_base (label : string) : list Attribute :=
  [A_Token true; A_Private false; A_Verify true; A_Label (as_bytes label)].

Definition ec_public_template (label : string) : list Attribute :=
  public_key_base label ++ [A_KeyType KT_EC; A_EcParams SECP256R1_OID_DER].

Definition rsa_public_template (label : string) : list Attribute :=
  public_key_base label ++
  [A_KeyType KT_RSA; A_ModulusBits 2048; A_PublicExponent [x01; x00; x01]; A_Encrypt true].

Definition rsa_private_template (label : string) : list Attribute :=
  private_key_base label ++ [A_Decrypt true].

Definition aes_template (label : string) : list Attribute :=
  [A_Token true; A_Private true; A_Sensitive true; A_Extractable false; A_Encrypt true;
   A_Decrypt true; A_KeyType KT_AES; A_ValueLen 32; A_Label (as_bytes label)].

(** ** Operations *)

Section operations.
Context {CK : Cryptoki}.

(** Return early if an object of this class and label is there. *)
Definition unless_present (x : Session) (class : ObjectClass) (label : string)
    (create : stR World AnyError unit) : stR World AnyError Provisioned :=
  (do found <- find_object x class label;
   match found with
   | Some _ => stR_lift (Ok AlreadyPresent)
   | None => do _ <- create; stR_lift (Ok Created)
   end)%rust.

Definition ensure_ec_key (x : Session) (label : string) : stR World AnyError Provisioned :=
  unless_present x PRIVATE_KEY label
    (stR_map (λ _, tt)
       (with_context "C_GenerateKeyPair(CKM_EC_KEY_PAIR_GEN) failed"
          (generate_key_pair x M_EccKeyPairGen (ec_public_template label)
             (private_key_base label)))).

Definition ensure_rsa_key (x : Session) (label : string) : stR World AnyError Provisioned :=
  unless_present x PRIVATE_KEY label
    (stR_map (λ _, tt)
       (with_context "C_GenerateKeyPair(CKM_RSA_PKCS_KEY_PAIR_GEN) failed"
          (generate_key_pair x M_RsaPkcsKeyPairGen (rsa_public_template label)
             (rsa_private_template label)))).

Definition ensure_aes_key (x : Session) (label : string) : stR World AnyError Provisioned :=
  unless_present x SECRET_KEY label
    (stR_map (λ _, tt)
       (with_context "C_GenerateKey(CKM_AES_KEY_GEN) failed"
          (generate_key x M_AesKeyGen (aes_template label)))).

Definition ensure_demo_keys (x : Session) : stR World AnyError (list (string * Provisioned)) :=
  (do ec <- ensure_ec_key x DEMO_EC_KEY;
   do rsa <- ensure_rsa_key x DEMO_RSA_KEY;
   do aes <- ensure_aes_key x DEMO_AES_KEY;
   stR_lift (Ok [(DEMO_EC_KEY, ec); (DEMO_RSA_KEY, rsa); (DEMO_AES_KEY, aes)]))%rust.

(** Leaving a scope drops the session, then the module's context. *)
Definition leave (ctx : Context) (x : Session) (w : World) : World := finalize ctx (close x w).

(** [bin/provision.rs]: the logout happens only after success, its result is
    ignored, and both exits drop the session and the context. *)
Definition provision_main (e : env) : stR World AnyError (list (string * Provisioned)) :=
  (do config <- stR_lift (token_config_from_env e);
   do opened <- open_token config;
   λ w, let '(ctx, _, x) := opened in
        match ensure_demo_keys x w with
        | (Ok outcomes, w1) => (Ok outcomes, leave ctx x (logout x w1).2)
        | (Err err, w1) => (Err err, leave ctx x w1)
        end)%rust.
End operations.

(** ** What PKCS#11 promises of objects

    [usable x w]: the session is open, read/write and logged in.  [object w h a]:
    the token holds an object [h] with the attributes [a].  A search returns
    exactly the objects that carry every attribute of the template; generation
    adds objects that carry their class and their template, or fails and adds
    none.  An object has one label. *)

Class TokenObjects (CK : Cryptoki) := {
  usable : Session → World → Prop;
  object : World → ObjectHandle → list Attribute → Prop;
  object_label w x h a l l' :
    usable x w → object w h a → A_Label l ∈ a → A_Label l' ∈ a → l = l';
  find_objects_spec x t w r w' :
    usable x w → find_objects x t w = (r, w') →
    usable x w' ∧ (∀ h a, object w' h a ↔ object w h a) ∧
    match r with
    | Ok hs => ∀ h, h ∈ hs ↔ ∃ a, object w h a ∧ t ⊆ a
    | Err _ => True
    end;
  generate_key_pair_spec x m pub priv w r w' :
    usable x w → generate_key_pair x m pub priv w = (r, w') →
    usable x w' ∧
    match r with
    | Ok (hpub, hpriv) => ∃ a b,
        A_Class PUBLIC_KEY :: pub ⊆ a ∧ A_Class PRIVATE_KEY :: priv ⊆ b ∧
        ∀ h c, object w' h c ↔ object w h c ∨ (h = hpub ∧ c = a) ∨ (h = hpriv ∧ c = b)
    | Err _ => ∀ h c, object w' h c ↔ object w h c
    end;
  generate_key_spec x m t w r w' :
    usable x w → generate_key x m t w = (r, w') →
    usable x w' ∧
    match r with
    | Ok hk => ∃ a,
        A_Class SECRET_KEY :: t ⊆ a ∧ ∀ h c, object w' h c ↔ object w h c ∨ (h = hk ∧ c = a)
    | Err _ => ∀ h c, object w' h c ↔ object w h c
    end
}.

(** ** Properties *)

Section theorems.
Context {CK : Cryptoki} {TO : TokenObjects CK}.
Implicit Types (x : Session) (w : World) (label : string).

(** Some object of the class carries the label. *)
Definition has_key w (class : ObjectClass) label : Prop :=
  ∃ h a, object w h a ∧ find_template class label ⊆ a.

(** The token never hands the key out: only the user sees it, its value is
    sensitive, and it cannot be extracted. *)
Definition protected (a : list Attribute) : Prop :=
  A_Private true ∈ a ∧ A_Sensitive true ∈ a ∧ A_Extractable false ∈ a.

(** What a step added holds no unprotected private or secret key. *)
Definition only_protected w w' : Prop :=
  ∀ h a, object w' h a → object w h a ∨ A_Class PUBLIC_KEY ∈ a ∨ protected a.

Definition keeps w w' : Prop := ∀ h a, object w h a → object w' h a.

Definition same_objects w w' : Prop := ∀ h a, object w' h a ↔ object w h a.

(** The keys that provisioning promises. *)
Definition demo_keys : list (ObjectClass * string) :=
  [(PRIVATE_KEY, DEMO_EC_KEY); (PRIVATE_KEY, DEMO_RSA_KEY); (SECRET_KEY, DEMO_AES_KEY)].

(** What one step does for a key, whatever its outcome. *)
Record ensured x class label w (r : result Provisioned AnyError) w' : Prop := {
  ensured_usable : usable x w';
  ensured_keeps : keeps w w';
  ensured_protected : only_protected w w';
  ensured_other class' label' :
    label' ≠ label → has_key w' class' label' → has_key w class' label';
  ensured_result :
    match r with
    | Ok Created => has_key w' class label ∧ ¬ has_key w class label
    | Ok AlreadyPresent => has_key w class label ∧ same_objects w w'
    | Err _ => same_objects w w'
    end
}.

Lemma same_keeps w w' : same_objects w w' → keeps w w'.
Proof. intros H h a. by rewrite (H h a). Qed.

Lemma keeps_has_key w w' class label : keeps w w' → has_key w class label → has_key w' class label.
Proof. intros H (h&a&Ho&Ht). exists h, a. auto. Qed.

Lemma same_protected w w' : same_objects w w' → only_protected w w'.
Proof. intros H h a Ho%(H h a). auto. Qed.

Lemma same_has_key w w' class label :
  same_objects w w' → has_key w' class label → has_key w class label.
Proof. intros H (h&a&Ho%(H h a)&Ht). exists h, a. auto. Qed.

Lemma only_protected_trans w1 w2 w3 :
  only_protected w1 w2 → only_protected w2 w3 → only_protected w1 w3.
Proof. intros H12 H23 h a [Ho|Ho]%(H23 h a); [apply H12|]; auto. Qed.

#[local] Hint Resolve same_keeps keeps_has_key same_protected same_has_key : provision.

(** A search tells whether the key is there and changes nothing. *)
Lemma find_object_tells x class label w r w' :
  usable x w → find_object x class label w = (r, w') →
  usable x w' ∧ same_objects w w' ∧
  match r with
  | Ok (Some h) => ∃ a, object w h a ∧ find_template class label ⊆ a
  | Ok None => ¬ has_key w class label
  | Err _ => True
  end.
Proof.
  unfold find_object, with_context. unfold_st. intros Hu.
  destruct (find_objects x (find_template class label) w) as [r1 w1] eqn:Hf.
  destruct (find_objects_spec _ _ _ _ _ Hu Hf) as (Hu1&Hs&Hr). intros [= <- <-].
  split; [done|]. split; [done|]. destruct r1 as [hs|e]; [|done].
  destruct hs as [|h hs]; simpl.
  - intros (h&a&Ho&Ht). apply (not_elem_of_nil h), Hr. eauto.
  - apply Hr. left.
Qed.

(** A step whose creation adds only objects under the label, all public or
    protected, and one of the class. *)
Lemma unless_present_ensures x class label create w r w' :
  (∀ w1 r1 w2, usable x w1 → create w1 = (r1, w2) →
     usable x w2 ∧ keeps w1 w2 ∧
     match r1 with
     | Ok _ => (∀ h a, object w2 h a → object w1 h a ∨
                  (A_Label (as_bytes label) ∈ a ∧ (A_Class PUBLIC_KEY ∈ a ∨ protected a))) ∧
               has_key w2 class label
     | Err _ => same_objects w1 w2
     end) →
  usable x w → unless_present x class label create w = (r, w') → ensured x class label w r w'.
Proof.
  intros Hc Hu. unfold unless_present. unfold_st.
  destruct (find_object x class label w) as [rf w1] eqn:Hf.
  destruct (find_object_tells _ _ _ _ _ _ Hu Hf) as (Hu1&Hs&Hr).
  destruct rf as [[h|]|e]; [intros [= <- <-]| |intros [= <- <-]; split; eauto with provision].
  { assert (has_key w class label) by (by exists h). split; eauto with provision. }
  destruct (create w1) as [rc w2] eqn:Hcr. destruct (Hc _ _ _ Hu1 Hcr) as (Hu2&Hk&Hn).
  assert (keeps w w2) by (intros ? ? ?%(Hs _ _); auto).
  destruct rc as [u|e]; intros [= <- <-].
  - destruct Hn as [Hadd Hhas]. split; [done..| | |done].
    + intros h a [Ho%(Hs h a)|[_ ?]]%(Hadd h a); auto.
    + intros class' label' Hl (h&a&Ho&Ht). pose proof Ho as [Ho1%(Hs h a)|[Hlab _]]%(Hadd h a); [by exists h, a|].
      destruct Hl. apply as_bytes_inj, (object_label w2 x h a); [done..|apply Ht; set_solver|done].
  - assert (same_objects w w2) by (intros h a; rewrite (Hn h a); apply Hs).
    split; eauto with provision.
Qed.

Lemma pair_ensures x label msg m pub priv w r w' :
  A_Label (as_bytes label) ∈ pub → A_Label (as_bytes label) ∈ priv → protected priv →
  usable x w →
  unless_present x PRIVATE_KEY label
    (stR_map (λ _, tt) (with_context msg (generate_key_pair x m pub priv))) w = (r, w') →
  ensured x PRIVATE_KEY label w r w'.
Proof.
  intros Hpub Hpriv (?&?&?). apply unless_present_ensures. clear w r w'.
  intros w r w2 Hu. unfold with_context. unfold_st.
  destruct (generate_key_pair x m pub priv w) as [g w1] eqn:Hg.
  destruct (generate_key_pair_spec _ _ _ _ _ _ _ Hu Hg) as [Hu1 Hr]. intros [= <- <-].
  split; [done|]. destruct g as [[hpub hpriv]|e]; [|by split; [apply same_keeps|]].
  destruct Hr as (a&b&Ha&Hb&Ho). split; [|split].
  - intros h c Hc. apply Ho. auto.
  - intros h c [Hc|[[-> ->]|[-> ->]]]%Ho; [by left|right..].
    + split; [|left]; apply Ha; set_solver.
    + split; [|right; unfold protected]; [|split_and!]; apply Hb; set_solver.
  - exists hpriv, b. split; [apply Ho; auto|]. unfold find_template. set_solver.
Qed.

Lemma key_ensures x label msg m t w r w' :
  A_Label (as_bytes label) ∈ t → protected t → usable x w →
  unless_present x SECRET_KEY label
    (stR_map (λ _, tt) (with_context msg (generate_key x m t))) w = (r, w') →
  ensured x SECRET_KEY label w r w'.
Proof.
  intros Hl (?&?&?). apply unless_present_ensures. clear w r w'.
  intros w r w2 Hu. unfold with_context. unfold_st.
  destruct (generate_key x m t w) as [g w1] eqn:Hg.
  destruct (generate_key_spec _ _ _ _ _ _ Hu Hg) as [Hu1 Hr]. intros [= <- <-].
  split; [done|]. destruct g as [hk|e]; [|by split; [apply same_keeps|]].
  destruct Hr as (a&Ha&Ho). split; [|split].
  - intros h c Hc. apply Ho. auto.
  - intros h c [Hc|[-> ->]]%Ho; [by left|right].
    split; [|right; unfold protected]; [|split_and!]; apply Ha; set_solver.
  - exists hk, a. split; [apply Ho; auto|]. unfold find_template. set_solver.
Qed.

Lemma ec_ensures x label w r w' :
  usable x w → ensure_ec_key x label w = (r, w') → ensured x PRIVATE_KEY label w r w'.
Proof. apply pair_ensures; unfold protected, ec_public_template, public_key_base, private_key_base; set_solver. Qed.

Lemma rsa_ensures x label w r w' :
  usable x w → ensure_rsa_key x label w = (r, w') → ensured x PRIVATE_KEY label w r w'.
Proof.
  apply pair_ensures;
    unfold protected, rsa_public_template, rsa_private_template, public_key_base, private_key_base; set_solver.
Qed.

Lemma aes_ensures x label w r w' :
  usable x w → ensure_aes_key x label w = (r, w') → ensured x SECRET_KEY label w r w'.
Proof. apply key_ensures; unfold protected, aes_template; set_solver. Qed.

(** A step in the middle of a run from [w] to [w3]. *)
Lemma ensured_verdict x class label w w1 p w2 w3 :
  ensured x class label w1 (Ok p) w2 → keeps w w1 →
  (has_key w1 class label → has_key w class label) → keeps w2 w3 →
  has_key w3 class label ∧ (p = AlreadyPresent ↔ has_key w class label).
Proof.
  intros [_ Hk _ _ Hr] H01 Hback H23. destruct p, Hr as [Hr Hr'].
  - split; [by eapply keeps_has_key|]. split; [done|]. intros Hw. destruct Hr'. by eapply keeps_has_key.
  - split; [by eapply keeps_has_key, keeps_has_key|]. by split; [intros _; apply Hback|].
Qed.

Lemma keeps_trans w1 w2 w3 : keeps w1 w2 → keeps w2 w3 → keeps w1 w3.
Proof. unfold keeps. auto. Qed.

#[local] Hint Resolve keeps_trans only_protected_trans ensured_keeps ensured_protected ensured_usable : provision.

Lemma provisioning_spec x w r w' :
  usable x w → ensure_demo_keys x w = (r, w') →
  usable x w' ∧ keeps w w' ∧ only_protected w w' ∧
  match r with
  | Ok outcomes =>
      outcomes.*1 = demo_keys.*2 ∧
      Forall2 (λ '(class, label) '(_, p),
        has_key w' class label ∧ (p = AlreadyPresent ↔ has_key w class label)) demo_keys outcomes
  | Err _ => True
  end.
Proof.
  intros Hu. unfold ensure_demo_keys. unfold_st.
  destruct (ensure_ec_key x DEMO_EC_KEY w) as [r1 w1] eqn:H1. apply ec_ensures in H1; [|done].
  destruct r1 as [p1|e]; [|intros [= <- <-]; split_and!; eauto 8 with provision].
  destruct (ensure_rsa_key x DEMO_RSA_KEY w1) as [r2 w2] eqn:H2.
  apply rsa_ensures in H2; [|by eapply ensured_usable].
  destruct r2 as [p2|e]; [|intros [= <- <-]; split_and!; eauto 8 with provision].
  destruct (ensure_aes_key x DEMO_AES_KEY w2) as [r3 w3] eqn:H3.
  apply aes_ensures in H3; [|by eapply ensured_usable].
  destruct r3 as [p3|e]; intros [= <- <-]; [|split_and!; eauto 8 with provision].
  split_and!; [eauto 8 with provision..|done|]. constructor; [|constructor; [|constructor; [|done]]].
  - eapply ensured_verdict; [exact H1|by intros ? ?|done|eauto with provision].
  - eapply ensured_verdict; [exact H2|eauto with provision| |eauto with provision].
    by apply (ensured_other _ _ _ _ _ _ H1).
  - eapply ensured_verdict; [exact H3|eauto with provision| |by intros ? ?].
    intros. by apply (ensured_other _ _ _ _ _ _ H1), (ensured_other _ _ _ _ _ _ H2).
Qed.

(** C20: Provisioning.  Whatever fails on the way, no object is lost and every object
    that is new is a public key or is private, sensitive and not extractable; if
    provisioning succeeds the token holds all three demo keys, and [Created] was
    reported for exactly those that were missing. *)
Theorem provisioning_protects_keys x w r w' :
  usable x w → ensure_demo_keys x w = (r, w') →
  usable x w' ∧ keeps w w' ∧ only_protected w w' ∧
  match r with
  | Ok outcomes =>
      outcomes.*1 = demo_keys.*2 ∧
      Forall2 (λ '(class, label) '(_, p),
        has_key w' class label ∧ (p = AlreadyPresent ↔ has_key w class label)) demo_keys outcomes
  | Err _ => True
  end.
Proof. apply provisioning_spec. Qed.

(** A step whose key is there changes nothing. *)
Lemma ensured_again x class label w r w' :
  ensured x class label w r w' → has_key w class label →
  same_objects w w' ∧ match r with Ok p => p = AlreadyPresent | Err _ => True end.
Proof. intros [_ _ _ _ Hr] Hh. destruct r as [[]|e]; naive_solver. Qed.

(** C32: Provisioning is idempotent.  Once it has succeeded, running it again, whatever
    was added to the token in between, changes no object, and reports
    [AlreadyPresent] for each key unless a search fails. *)
Theorem provisioning_idempotent x w outcomes w1 y w2 r w3 :
  usable x w → ensure_demo_keys x w = (Ok outcomes, w1) →
  usable y w2 → keeps w1 w2 → ensure_demo_keys y w2 = (r, w3) →
  same_objects w2 w3 ∧
  match r with
  | Ok outcomes' => outcomes' = (λ '(_, label), (label, AlreadyPresent)) <$> demo_keys
  | Err _ => True
  end.
Proof.
  intros Hu H1 Hy Hk. destruct (provisioning_spec _ _ _ _ Hu H1) as (_&_&_&_&Hd).
  assert (∀ class label, (class, label) ∈ demo_keys → has_key w2 class label) as Hh.
  { intros class label [i Hi]%list_elem_of_lookup. apply (keeps_has_key w1); [done|].
    by destruct (Forall2_lookup_l _ _ _ _ _ Hd Hi) as ([? p]&_&?&_). }
  unfold demo_keys in *. unfold ensure_demo_keys. unfold_st.
  destruct (ensure_ec_key y DEMO_EC_KEY w2) as [r1 v1] eqn:E1. apply ec_ensures in E1; [|done].
  destruct (ensured_again _ _ _ _ _ _ E1) as [S1 R1]; [apply Hh; set_solver|].
  destruct r1 as [p1|e]; [|by intros [= <- <-]].
  destruct (ensure_rsa_key y DEMO_RSA_KEY v1) as [r2 v2] eqn:E2.
  apply rsa_ensures in E2; [|by eapply ensured_usable].
  destruct (ensured_again _ _ _ _ _ _ E2) as [S2 R2];
    [apply (keeps_has_key w2); [by apply same_keeps|apply Hh; set_solver]|].
  assert (same_objects w2 v2) by (intros h a; by rewrite (S2 h a)).
  destruct r2 as [p2|e]; [|by intros [= <- <-]].
  destruct (ensure_aes_key y DEMO_AES_KEY v2) as [r3 v3] eqn:E3.
  apply aes_ensures in E3; [|by eapply ensured_usable].
  destruct (ensured_again _ _ _ _ _ _ E3) as [S3 R3];
    [apply (keeps_has_key w2); [by apply same_keeps|apply Hh; set_solver]|].
  assert (same_objects w2 v3) by (intros h a; by rewrite (S3 h a)).
  destruct r3 as [p3|e]; intros [= <- <-]; by subst.
Qed.
End theorems.

(** ** The toy token keeps the promises *)

Module ProvisionWitness.
Import Toy.

Lemma elem_of_indices p k l n :
  n ∈ indices p k l ↔ ∃ i o, n = (k + i)%nat ∧ l !! i = Some o ∧ p o = true.
Proof.
  revert k. induction l as [|o l IH]; intros k; simpl.
  - rewrite elem_of_nil. split; [done|]. by intros (i&o&_&Hi&_).
  - assert (n ∈ indices p (S k) l ↔ ∃ i o', n = (k + S i)%nat ∧ l !! i = Some o' ∧ p o' = true) as IH'.
    { rewrite IH. split; intros (i&o'&->&Hr); exists i, o'; (split; [lia|done]). }
    destruct (p o) eqn:Hp; rewrite ?elem_of_cons, IH'; split.
    + intros [->|(i&o'&->&Hr)]; [exists 0%nat, o; split; [lia|done]|by exists (S i), o'].
    + intros ([|i]&o'&->&Hl&Hr); [left; lia|right; by exists i, o'].
    + intros (i&o'&->&Hr). by exists (S i), o'.
    + intros ([|i]&o'&->&Hl&Hr); [simplify_eq/=; congruence|by exists i, o'].
Qed.

Lemma elem_of_labels l a : l ∈ labels a ↔ A_Label l ∈ a.
Proof.
  unfold labels. rewrite list_elem_of_omap. split.
  - intros (y&Hy&?). by destruct y; simplify_eq.
  - intros. by exists (A_Label l).
Qed.

Lemma one_label_spec a l l' :
  one_label a = true → A_Label l ∈ a → A_Label l' ∈ a → l = l'.
Proof.
  rewrite <-!elem_of_labels. unfold one_label. destruct (labels a) as [|l0 ls]; [by intros _ ?%not_elem_of_nil|].
  rewrite forallb_forall. intros H. assert (∀ k, k ∈ l0 :: ls → k = l0) as Hk.
  { intros k [->|Hin%list_elem_of_In]%elem_of_cons; [done|]. by apply H, bool_decide_eq_true in Hin. }
  intros ?%Hk ?%Hk. congruence.
Qed.

Lemma one_label_generated c t m : one_label (A_Class c :: t ++ generated m) = one_label t.
Proof.
  unfold one_label. replace (labels (A_Class c :: t ++ generated m)) with (labels t); [done|].
  unfold labels. simpl. rewrite omap_app. destruct m; simpl; by rewrite app_nil_r.
Qed.

(** Alive, logged in, on a token whose objects have one label each. *)
Definition toy_usable (x : nat) (w : TWorld) : Prop :=
  alive x w = true ∧ logged_in w = true ∧
  Forall (λ o, match o with Some a => one_label a = true | None => True end) (objects w).

Definition toy_object (w : TWorld) (h : nat) (a : list Attribute) : Prop :=
  objects w !! h = Some (Some a).

Lemma allocate_object o w h a :
  toy_object (allocate o w).2 h a ↔ toy_object w h a ∨ (h = (allocate o w).1 ∧ a = o).
Proof.
  unfold toy_object. simpl. rewrite lookup_app.
  destruct (objects w !! h) eqn:Hh.
  - split; [by left|]. intros [?|[-> _]]; [done|]. apply lookup_lt_Some in Hh. lia.
  - apply lookup_ge_None in Hh. split.
    + intros Hl. right. destruct (h - _)%nat eqn:Hs; simplify_eq/=. split; [lia|done].
    + intros [?|[-> ->]]; [done|]. by rewrite Nat.sub_diag.
Qed.

Lemma allocate_usable o x w :
  one_label o = true → toy_usable x w → toy_usable x (allocate o w).2.
Proof. intros Ho (?&?&?). split; [done|]. split; [done|]. apply Forall_app. by repeat constructor. Qed.

Lemma matches_logged_in w t a :
  logged_in w = true → matches w t (Some a) = true ↔ t ⊆ a.
Proof.
  intros Hl. simpl. unfold visible. rewrite Hl. simpl. rewrite forallb_forall. split.
  - intros H y Hy%list_elem_of_In. by apply H, bool_decide_eq_true in Hy.
  - intros H y Hy%list_elem_of_In. apply bool_decide_eq_true. auto.
Qed.

#[export] Program Instance toy_token_objects : TokenObjects toy_token := {|
  usable := toy_usable;
  object := toy_object
|}.
Next Obligation.
  intros w x h a l l' (_&_&Hf) Ho. apply one_label_spec.
  by rewrite Forall_lookup in Hf; apply (Hf h (Some a)).
Qed.
Next Obligation.
  intros x t w r w' (Ha&Hl&Hf) [= <- <-]. split; [done|]. split; [done|].
  unfold toy_view. rewrite Ha. intros h. rewrite elem_of_indices. split.
  - intros (i&[a|]&->&Hi&Hm); [|done]. exists a. split; [done|]. by apply matches_logged_in in Hm.
  - intros (a&Ho&Ht). exists h, (Some a). split; [done|]. split; [done|]. by apply matches_logged_in.
Qed.
Next Obligation.
  intros x m pub priv w r w' Hu. simpl.
  destruct (one_label pub) eqn:Hpub, (one_label priv) eqn:Hpriv; simpl; intros [= <- <-]; try done.
  split.
  - apply (allocate_usable _ _ (allocate _ w).2); [by rewrite one_label_generated|].
    apply allocate_usable; [by rewrite one_label_generated|done].
  - exists (A_Class PUBLIC_KEY :: pub ++ generated m), (A_Class PRIVATE_KEY :: priv ++ generated m).
    split; [set_solver|]. split; [set_solver|]. intros h c.
    etrans; [apply (allocate_object _ (allocate _ w).2)|]. rewrite allocate_object. simpl. tauto.
Qed.
Next Obligation.
  intros x m t w r w' Hu. simpl. destruct (one_label t) eqn:Ht; intros [= <- <-]; [|done]. split.
  - apply allocate_usable; [by rewrite one_label_generated|done].
  - exists (A_Class SECRET_KEY :: t ++ generated m). split; [set_solver|]. intros h c. apply allocate_object.
Qed.

(** An empty token with a session open on it. *)
Definition blank : TWorld := mkWorld [] true [0%nat] 1 [] None 0.

Lemma provisioning_protects_keys_witness :
  (ensure_demo_keys (CK := toy_token) 0%nat blank).1 =
    Ok [(DEMO_EC_KEY, Created); (DEMO_RSA_KEY, Created); (DEMO_AES_KEY, Created)] ∧
  only_protected blank (ensure_demo_keys (CK := toy_token) 0%nat blank).2.
Proof.
  split; [vm_compute; reflexivity|].
  assert (usable (CK := toy_token) 0%nat blank) as Hu by (by split_and!; [vm_compute|vm_compute|constructor]).
  pose proof (provisioning_protects_keys (CK := toy_token) 0%nat blank) as H.
  destruct (ensure_demo_keys (CK := toy_token) 0%nat blank) as [r w'] eqn:E.
  exact (proj1 (proj2 (proj2 (H r w' Hu eq_refl)))).
Defined.

Lemma provisioning_idempotent_witness :
  let w1 := (ensure_demo_keys (CK := toy_token) 0%nat blank).2 in
  (ensure_demo_keys (CK := toy_token) 0%nat w1).1 =
    Ok [(DEMO_EC_KEY, AlreadyPresent); (DEMO_RSA_KEY, AlreadyPresent); (DEMO_AES_KEY, AlreadyPresent)] ∧
  same_objects w1 (ensure_demo_keys (CK := toy_token) 0%nat w1).2.
Proof.
  cbv zeta. split; [vm_compute; reflexivity|].
  assert (usable (CK := toy_token) 0%nat blank) as Hu by (by split_and!; [vm_compute|vm_compute|constructor]).
  pose proof (provisioning_idempotent (CK := toy_token) 0%nat blank) as H.
  assert (usable (CK := toy_token) 0%nat (ensure_demo_keys (CK := toy_token) 0%nat blank).2) as Hu1.
  { destruct (ensure_demo_keys (CK := toy_token) 0%nat blank) eqn:E.
    exact (proj1 (provisioning_spec _ _ _ _ Hu E)). }
  assert (is_ok (ensure_demo_keys (CK := toy_token) 0%nat blank).1 = true) as Hok by (vm_compute; reflexivity).
  destruct (ensure_demo_keys (CK := toy_token) 0%nat blank) as [[o|e] w1] eqn:E; [|discriminate Hok].
  cbn [snd]. destruct (ensure_demo_keys (CK := toy_token) 0%nat w1) as [r w3] eqn:E3.
  exact (proj1 (H o w1 0%nat w1 r w3 Hu eq_refl Hu1 (λ h a x, x) E3)).
Defined.

(** A token that lost the public half of the EC pair. *)
Definition half_pair : TWorld :=
  mkWorld [Some (A_Class PRIVATE_KEY :: private_key_base DEMO_EC_KEY)] true [0%nat] 1 [] None 0.

(** Only the private half is looked for: a token without the public key is
    reported as provisioned, and the pair stays incomplete. *)
Lemma half_pair_counts_as_present :
  (ensure_ec_key (CK := toy_token) 0%nat DEMO_EC_KEY half_pair).1 = Ok AlreadyPresent ∧
  (find_object_pair (CK := toy_token) 0%nat DEMO_EC_KEY
     (ensure_ec_key (CK := toy_token) 0%nat DEMO_EC_KEY half_pair).2).1 = Ok None.
Proof. split; vm_compute; reflexivity. Qed.
End ProvisionWitness.
