(* ===== verification/TokenCheck.v ===== *)
(** * Checking a provisioned token ([bin/token-check.rs])

    The exit check of a deployment: the keys are there, the private ones are
    protected and sign, and the session can write.  Its console output is not
    modelled. *)
From S2P Require Import Prelude RustStd Deps Session Crypto Toy Provision.

Definition EXPECTED_KEYPAIRS : list string := ["demo-ec-p256"; "demo-rsa-2048"].
Definition EXPECTED_SECRET_KEYS : list string := ["demo-aes-256"].

Section operations.
Context {CK : Cryptoki} {CL : CryptoLib}.

(** The first attribute that gives the private key away. *)
Fixpoint check_protection (attrs : list Attribute) : result unit AnyError :=
  match attrs with
  | [] => Ok tt
  | A_Sensitive false :: _ => Err (anyhow "private key is CKA_SENSITIVE=false")
  | A_Extractable true :: _ => Err (anyhow "private key is CKA_EXTRACTABLE=true")
  | _ :: rest => check_protection rest
  end.

Definition check_keypair (x : Session) (label : string) : stR World AnyError string :=
  (do found <- find_object_pair x label;
   do pair <- stR_lift (ok_or found (anyhow "key pair not found; did softhsm-init run?"));
   do attrs <- with_context "C_GetAttributeValue failed"
                 (get_attributes x (fst pair) [AT_Sensitive; AT_Extractable]);
   do _ <- stR_lift (check_protection attrs);
   let digest := sha256 (as_bytes "token-check") in
   let mechanism := if contains "rsa" label then M_Sha256RsaPkcs else M_Ecdsa in
   let payload := if contains "rsa" label then as_bytes "token-check" else digest in
   do signature <- with_context "C_Sign failed" (sign x mechanism (fst pair) payload);
   do _ <- with_context "C_Verify failed" (verify x mechanism (snd pair) payload signature);
   stR_lift (Ok ("sensitive, non-extractable, signs ok (" +:+ pretty (length signature) +:+
                 " byte signature)")))%rust.

Definition probe_template : list Attribute :=
  [A_Class DATA; A_Token false; A_Private false; A_Label (as_bytes "token-check-probe");
   A_Value (as_bytes "probe")].

Definition write_probe (x : Session) : stR World AnyError unit :=
  (do handle <- with_context "C_CreateObject failed -- session is not read/write"
                  (create_object x probe_template);
   with_context "C_DestroyObject failed" (destroy_object x handle))%rust.

(** The loop over the key pairs goes on after a failure. *)
Fixpoint check_keypairs (x : Session) (labels : list string) : st World (list string) :=
  match labels with
  | [] => st_ret []
  | label :: rest => λ w,
      let '(r, w1) := check_keypair x label w in
      let '(failures, w2) := check_keypairs x rest w1 in
      (match r with
       | Ok _ => failures
       | Err err => (label +:+ ": " +:+ any_alternate show_error err) :: failures
       end, w2)
  end.

(** The loop over the secret keys returns if a search fails. *)
Fixpoint check_secret_keys (x : Session) (labels : list string) :
    stR World AnyError (list string) :=
  match labels with
  | [] => stR_lift (Ok [])
  | label :: rest =>
      (do found <- find_object x SECRET_KEY label;
       do failures <- check_secret_keys x rest;
       stR_lift (Ok match found with
                    | Some _ => failures
                    | None => (label +:+ ": not found") :: failures
                    end))%rust
  end.

Definition verdict (failures : list string) : result unit AnyError :=
  match failures with
  | [] => Ok tt
  | _ => Err (anyhow ("token-check failed:" +:+ newline +:+ "  - " +:+
                      join (newline +:+ "  - ") failures))
  end.

(** [main] once the token is open. *)
Definition check_token (ctx : Context) (slot : Slot) (x : Session) : stR World AnyError unit :=
  (do _ <- with_context "C_GetTokenInfo failed" (get_token_info ctx slot);
   λ w, let '(pairs, w1) := check_keypairs x EXPECTED_KEYPAIRS w in
        match check_secret_keys x EXPECTED_SECRET_KEYS w1 with
        | (Err err, w2) => (Err err, w2)
        | (Ok secrets, w2) =>
            let '(r, w3) := write_probe x w2 in
            let probe := match r with
                         | Ok _ => []
                         | Err err => ["read/write probe: " +:+ any_alternate show_error err]
                         end in
            (verdict (pairs ++ secrets ++ probe), (logout x w3).2)
        end)%rust.

Definition token_check_main (e : env) : stR World AnyError unit :=
  (do config <- stR_lift (token_config_from_env e);
   do opened <- open_token config;
   λ w, let '(ctx, slot, x) := opened in
        let '(r, w1) := check_token ctx slot x w in (r, leave ctx x w1))%rust.
End operations.

(** ** What PKCS#11 promises beyond [TokenObjects]

    Reading attributes returns those asked for that the object has; signing and
    verifying change no object; a created object is new, and destroying it
    removes it. *)

Definition asked_for (a : Attribute) (t : AttributeType) : bool :=
  match a, t with
  | A_Sensitive _, AT_Sensitive | A_Extractable _, AT_Extractable => true
  | _, _ => false
  end.

Class TokenUse (CK : Cryptoki) (TO : TokenObjects CK) := {
  get_token_info_frame ctx slot x w r w' :
    usable x w → get_token_info ctx slot w = (r, w') → usable x w' ∧ same_objects w w';
  get_attributes_spec x h ts w vs w' a :
    usable x w → get_attributes x h ts w = (Ok vs, w') → object w h a →
    usable x w' ∧ same_objects w w' ∧
    ∀ v, v ∈ a → existsb (asked_for v) ts = true → v ∈ vs;
  sign_frame x m h d w s w' :
    usable x w → sign x m h d w = (Ok s, w') → usable x w' ∧ same_objects w w';
  verify_frame x m h d s w w' :
    usable x w → verify x m h d s w = (Ok tt, w') → usable x w' ∧ same_objects w w';
  create_object_spec x t w h w' :
    usable x w → create_object x t w = (Ok h, w') →
    usable x w' ∧ (∀ a, ¬ object w h a) ∧
    ∃ a, ∀ h' c, object w' h' c ↔ object w h' c ∨ (h' = h ∧ c = a);
  destroy_object_spec x h w w' :
    usable x w → destroy_object x h w = (Ok tt, w') →
    usable x w' ∧ ∀ h' c, object w' h' c ↔ object w h' c ∧ h' ≠ h;
  logout_frame x w r w' : usable x w → logout x w = (r, w') → same_objects w w'
}.

(** ** Properties *)

Section theorems.
Context {CK : Cryptoki} {CL : CryptoLib} {TO : TokenObjects CK} {TU : TokenUse CK TO}.
Implicit Types (x : Session) (w : World) (label : string).

(** The session goes on and the token holds what it held. *)
Definition framed x w w' : Prop := usable x w' ∧ same_objects w w'.

(** Nothing in the attributes lets the key out. *)
Definition unreadable (a : list Attribute) : Prop := A_Sensitive false ∉ a ∧ A_Extractable true ∉ a.

Definition pair_ok w label : Prop :=
  (∃ h a, object w h a ∧ find_template PRIVATE_KEY label ⊆ a ∧ unreadable a) ∧
  has_key w PUBLIC_KEY label.

Lemma framed_trans x w1 w2 w3 : framed x w1 w2 → framed x w2 w3 → framed x w1 w3.
Proof. intros [_ H12] [Hu H23]. split; [done|]. intros h a. by rewrite (H23 h a). Qed.

Lemma framed_pair_ok x w w' label : framed x w w' → pair_ok w' label → pair_ok w label.
Proof.
  intros [_ H] [(h&a&Ho%(H h a)&Ht&Hr) Hk]. split; [by exists h, a|by eapply same_has_key].
Qed.

#[local] Hint Resolve framed_trans : token.

Lemma check_protection_ok attrs :
  check_protection attrs = Ok tt → A_Sensitive false ∉ attrs ∧ A_Extractable true ∉ attrs.
Proof.
  induction attrs as [|a attrs IH]; [set_solver|]. simpl. intros H.
  destruct a as [| | | |[]|[]| | | | | | | | | | | | |]; try discriminate H; set_solver.
Qed.

(** A successful context-wrapped call succeeded. *)
Lemma with_context_ok {A} m (c : stR World CkError A) w a w' :
  with_context m c w = (Ok a, w') → c w = (Ok a, w').
Proof. unfold with_context. unfold_st. destruct (c w) as [[b|e] w1]; intros; by simplify_eq. Qed.

(** The branches of a successful sequence. *)
Lemma stR_bind_ok {E A B} (m : stR World E A) (k : A → stR World E B) w b w' :
  stR_bind m k w = (Ok b, w') → ∃ a w1, m w = (Ok a, w1) ∧ k a w1 = (Ok b, w').
Proof. unfold stR_bind. destruct (m w) as [[a|e] w1]; intros; [by exists a, w1|done]. Qed.

Lemma find_object_pair_ok x label w p q w' :
  usable x w → find_object_pair x label w = (Ok (Some (p, q)), w') →
  framed x w w' ∧ (∃ a, object w p a ∧ find_template PRIVATE_KEY label ⊆ a) ∧
  has_key w PUBLIC_KEY label.
Proof.
  intros Hu (o1&w1&H1&(o2&w2&H2&H)%stR_bind_ok)%stR_bind_ok.
  apply find_object_tells in H1 as (Hu1&Hs1&Hr1); [|done].
  apply find_object_tells in H2 as (Hu2&Hs2&Hr2); [|done].
  destruct o1 as [h1|], o2 as [h2|]; inversion H; subst. split; [|split].
  - apply (framed_trans x w w1); by split.
  - done.
  - apply (same_has_key w w1); [done|]. by exists q.
Qed.

Lemma check_keypair_sound x label w note w' :
  usable x w → check_keypair x label w = (Ok note, w') → framed x w w' ∧ pair_ok w label.
Proof.
  intros Hu (found&w1&H1&(pair&w2&H2&(attrs&w3&H3&(?&w4&H4&(sg&w5&H5&
    (?&w6&H6&H7)%stR_bind_ok)%stR_bind_ok)%stR_bind_ok)%stR_bind_ok)%stR_bind_ok)%stR_bind_ok.
  unfold stR_lift in *. simplify_eq. destruct found as [[p q]|]; simplify_eq/=.
  apply find_object_pair_ok in H1 as (F1&(a&Ho&Ht)&Hpub); [|done].
  assert (object w2 p a) as Ho2 by (by apply (proj2 F1)).
  apply with_context_ok in H3, H5, H6.
  destruct (get_attributes_spec _ _ _ _ _ _ _ (proj1 F1) H3 Ho2) as (Hu4&Hs4&Hv).
  destruct (sign_frame _ _ _ _ _ _ _ Hu4 H5) as [Hu5 Hs5].
  match type of H6 with _ = (Ok ?u, _) => destruct u end.
  destruct (verify_frame _ _ _ _ _ _ _ Hu5 H6) as [Hu6 Hs6].
  assert (framed x w2 w4) by done. assert (framed x w4 w5) by done. assert (framed x w5 w') by done.
  split; [eauto with token|].
  split; [|done]. exists p, a. split; [done|]. split; [done|].
  match goal with u : () |- _ => destruct u end.
  apply check_protection_ok in H0 as [Hsens Hextr].
  split; intros Hin; [apply Hsens|apply Hextr]; by apply Hv.
Qed.

Lemma check_keypairs_sound x labels w w' :
  usable x w → check_keypairs x labels w = ([], w') → framed x w w' ∧ Forall (pair_ok w) labels.
Proof.
  revert w. induction labels as [|label labels IH]; intros w Hu; simpl; [by intros [= <-]|].
  destruct (check_keypair x label w) as [[note|e] w1] eqn:H1;
    destruct (check_keypairs x labels w1) as [fs w2] eqn:H2; intros [= -> ->].
  apply check_keypair_sound in H1 as [F1 Hp]; [|done]. apply IH in H2 as [F2 Hps]; [|apply F1].
  split; [eauto with token|]. constructor; [done|].
  eapply Forall_impl; [exact Hps|]. intros l. by apply framed_pair_ok with x.
Qed.

Lemma check_secret_keys_sound x labels w w' :
  usable x w → check_secret_keys x labels w = (Ok [], w') →
  framed x w w' ∧ Forall (has_key w SECRET_KEY) labels.
Proof.
  revert w. induction labels as [|label labels IH]; intros w Hu; simpl; [by intros [= <-]|].
  intros (found&w1&H1&(fs&w2&H2&H3)%stR_bind_ok)%stR_bind_ok.
  apply find_object_tells in H1 as (Hu1&Hs1&Hr); [|done].
  destruct found as [h|]; inversion H3; subst. apply IH in H2 as [F2 Hks]; [|done].
  split; [by apply (framed_trans x w w1)|]. constructor; [by exists h|].
  eapply Forall_impl; [exact Hks|]. intros l. by apply same_has_key.
Qed.

(** The probe leaves nothing behind. *)
Lemma write_probe_clean x w w' :
  usable x w → write_probe x w = (Ok tt, w') → framed x w w'.
Proof.
  intros Hu (h&w1&H1%with_context_ok&H2%with_context_ok)%stR_bind_ok.
  destruct (create_object_spec _ _ _ _ _ Hu H1) as (Hu1&Hnew&a&Ha).
  destruct (destroy_object_spec _ _ _ _ Hu1 H2) as [Hu2 Hd]. split; [done|].
  intros h' c. rewrite Hd, Ha. split; [by intros [[?|[-> _]] ?]|].
  intros Ho. split; [by left|]. intros ->. by eapply Hnew.
Qed.

Lemma verdict_ok fs : verdict fs = Ok tt → fs = [].
Proof. by destruct fs. Qed.

(** C24: A passed check means what it says.  If [token-check] passes, every expected key
    pair is on the token with both halves, its private key is neither marked as
    not sensitive nor as extractable, every expected secret key is there, and the
    check left the token's objects as they were. *)
Theorem token_check_sound ctx slot x w w' :
  usable x w → check_token ctx slot x w = (Ok tt, w') →
  Forall (pair_ok w) EXPECTED_KEYPAIRS ∧ Forall (has_key w SECRET_KEY) EXPECTED_SECRET_KEYS ∧
  same_objects w w'.
Proof.
  intros Hu (info&w1&H1%with_context_ok&H)%stR_bind_ok.
  assert (framed x w w1) as F1 by (by apply (get_token_info_frame ctx slot x w (Ok info))).
  destruct (check_keypairs x EXPECTED_KEYPAIRS w1) as [pairs w2] eqn:H2.
  destruct (check_secret_keys x EXPECTED_SECRET_KEYS w2) as [[secrets|e] w3] eqn:H3; [|done].
  destruct (write_probe x w3) as [r w4] eqn:H4. injection H as Hv <-.
  apply verdict_ok in Hv as [-> [-> Hp]%app_eq_nil]%app_eq_nil.
  destruct r as [[]|]; [clear Hp|done].
  apply check_keypairs_sound in H2 as [F2 Hpairs]; [|apply F1].
  apply check_secret_keys_sound in H3 as [F3 Hsecrets]; [|apply F2].
  apply write_probe_clean in H4 as F4; [|apply F3].
  destruct (logout x w4) as [rl w5] eqn:H5. apply logout_frame in H5; [|apply F4].
  assert (framed x w w2) as F12 by eauto with token.
  split_and!.
  - eapply Forall_impl; [exact Hpairs|]. intros l. by apply framed_pair_ok with x.
  - eapply Forall_impl; [exact Hsecrets|]. intros l. by apply same_has_key, F12.
  - assert (framed x w w4) as [_ F] by eauto with token. intros h a. simpl. by rewrite (H5 h a).
Qed.
End theorems.

(** ** The toy token *)

Module TokenCheckWitness.
Import Toy ProvisionWitness.

Lemma toy_attr_in ts attrs v :
  existsb (asked_for v) ts = true → v ∈ attrs → v ∈ (ts ≫= λ t, List.filter (attr_of t) attrs).
Proof.
  rewrite existsb_exists. intros (t&Hin%list_elem_of_In&Hv) Hva.
  apply list_elem_of_bind. exists t. split; [|done].
  apply list_elem_of_In, filter_In. split; [by apply list_elem_of_In|]. by destruct v, t.
Qed.

Lemma destroy_object_toy h w h' c :
  toy_object (with_objects (<[h := None]> (objects w)) w) h' c ↔ toy_object w h' c ∧ h' ≠ h.
Proof.
  unfold toy_object. simpl. destruct (decide (h' = h)) as [->|Hne].
  - split; [|naive_solver]. intros Hl. apply list_lookup_insert_Some in Hl as [(?&?&?)|[? ?]]; [done|lia].
  - rewrite list_lookup_insert_ne by done. naive_solver.
Qed.

Lemma toy_sign_ok x m h d w s w' :
  toy_sign x m h d w = (Ok s, w') →
  objects w' = objects w ∧ logged_in w' = logged_in w ∧ opened w' = opened w ∧ broken w' = broken w.
Proof. unfold toy_sign. destruct (fuse w) as [[|n]|]; intros; by simplify_eq/=. Qed.

#[export] Program Instance toy_token_use : TokenUse toy_token toy_token_objects.
Next Obligation. intros ctx slot x w r w' Hu [= <- <-]. by split. Qed.
Next Obligation.
  intros x h ts w vs w' a (Ha&Hl&Hf) H Ho. simpl in H. unfold toy_get_attributes in H.
  rewrite Ha in H. unfold toy_object in Ho. simpl in Ho. rewrite Ho in H. simpl in H.
  injection H as <- <-. split; [done|]. split; [done|]. intros v Hv He. by apply toy_attr_in.
Qed.
Next Obligation.
  intros x m h d w s w' (Ha&Hl&Hf) (Ho&Hl'&Hop&Hb)%toy_sign_ok. split.
  - unfold usable. simpl. unfold toy_usable, alive. rewrite Hop, Hb, Hl', Ho. done.
  - intros h' c. simpl. unfold toy_object. by rewrite Ho.
Qed.
Next Obligation. intros x m h d s w w' Hu [= _ <-]. by split. Qed.
Next Obligation.
  intros x t w h w' Hu. simpl. destruct (one_label t) eqn:Ht; intros H; inversion H; subst. split_and!.
  - by apply (allocate_usable t).
  - intros a. unfold object. simpl. unfold toy_object. by rewrite lookup_ge_None_2.
  - exists t. intros h' c. apply allocate_object.
Qed.
Next Obligation.
  intros x h w w' (Ha&Hl&Hf) [= <-]. split.
  - split; [done|]. split; [done|]. simpl. apply Forall_insert; done.
  - intros h' c. apply destroy_object_toy.
Qed.
Next Obligation. intros x w r w' Hu [= _ <-]. by intros. Qed.

(** The blank token, provisioned. *)
Definition provisioned : TWorld := (ensure_demo_keys (CK := toy_token) 0%nat blank).2.

Lemma token_check_sound_witness :
  Forall (pair_ok (CK := toy_token) provisioned) EXPECTED_KEYPAIRS ∧
  Forall (has_key (CK := toy_token) provisioned SECRET_KEY) EXPECTED_SECRET_KEYS ∧
  same_objects (CK := toy_token) provisioned
    (check_token (CK := toy_token) tt 0%nat 0%nat provisioned).2.
Proof.
  assert (usable (CK := toy_token) 0%nat provisioned) as Hu.
  { assert (usable (CK := toy_token) 0%nat blank) as Hb by (by split_and!; [vm_compute|vm_compute|constructor]).
    unfold provisioned. destruct (ensure_demo_keys (CK := toy_token) 0%nat blank) eqn:E.
    exact (proj1 (provisioning_spec _ _ _ _ Hb E)). }
  assert ((check_token (CK := toy_token) tt 0%nat 0%nat provisioned).1 = Ok tt) as Hok
    by (vm_compute; reflexivity).
  pose proof (token_check_sound (CK := toy_token) tt 0%nat 0%nat provisioned) as H.
  destruct (check_token (CK := toy_token) tt 0%nat 0%nat provisioned) as [r w'] eqn:E.
  simpl in Hok. subst r. exact (H w' Hu eq_refl).
Defined.

(** The two programs in sequence, from an empty token. *)
Example provisioned_then_checked :
  (token_check_main (CK := toy_token)
     (λ k, if String.eqb k "USER_PIN" then Some "1234"
           else if String.eqb k "PKCS11_MODULE" then Some "toy.so" else None)
     (provision_main (CK := toy_token)
        (λ k, if String.eqb k "USER_PIN" then Some "1234"
              else if String.eqb k "PKCS11_MODULE" then Some "toy.so" else None)
        (mkWorld [] false [] 0 [] None 0)).2).1 = Ok tt.
Proof. vm_compute. reflexivity. Qed.
End TokenCheckWitness.
