(* ===== verification/Telemetry.v ===== *)
(** * Metrics ([telemetry/metrics.rs])

    The names of the series, their descriptions and histogram buckets, the
    installation of the recorder, the endpoint that serves it, and the task that
    samples the levels and totals that other components keep.  Operations on the
    recorder are a list of [MetricOp]; [axum] is given a table of routes. *)
From S2P Require Import Prelude RustStd Deps Effects Breaker Session Worker Pool Cache Pooled.

Local Open Scope Z_scope.

(** ** Names (those not already named by their users) *)

Definition QUEUE_DEPTH : string := "hsm_queue_depth".
Definition WORKERS : string := "hsm_workers".
Definition CACHE_HITS : string := "hsm_cache_hits_total".
Definition CACHE_MISSES : string := "hsm_cache_misses_total".
Definition CACHE_ENTRIES : string := "hsm_cache_entries".
Definition SHED_TOTAL : string := "hsm_shed_total".
Definition BREAKER_STATE : string := "hsm_circuit_breaker_state".
Definition BREAKER_TRIPS : string := "hsm_circuit_breaker_trips_total".
Definition SESSION_RESETS : string := "hsm_session_resets_total".

(** ** Buckets

    A decimal literal is the binary64 number nearest to it.  [n] and [10 ^ k]
    are exact below [2 ^ 53], so one correctly rounded division yields it. *)

Definition literal (n k : Z) : f64 := f64_div (f64_of_u64 n) (f64_of_u64 (10 ^ k)).

Definition REQUEST_BUCKETS : list f64 :=
  [literal 1 4; literal 25 5; literal 5 4; literal 75 5;
   literal 1 3; literal 125 5; literal 15 4; literal 175 5; literal 2 3;
   literal 3 3; literal 5 3; literal 75 4; literal 1 2;
   literal 25 3; literal 5 2; literal 1 1; literal 5 1; literal 1 0].

Definition INTERNAL_BUCKETS : list f64 :=
  [literal 1 5; literal 25 6; literal 5 5; literal 1 4; literal 25 5; literal 5 4; literal 75 5;
   literal 1 3; literal 25 4; literal 5 3; literal 1 2; literal 5 2; literal 1 1].

(** ** Descriptions *)

Inductive MetricKind := KCounter | KGauge | KHistogram.

#[global] Instance MetricKind_eq_dec : EqDecision MetricKind.
Proof. solve_decision. Defined.

Record Description := mkDescription {
  desc_kind : MetricKind; desc_name : string; desc_seconds : bool; desc_text : string }.

Definition describe : list Description :=
  [mkDescription KCounter REQUESTS_TOTAL false "gRPC requests by operation and result";
   mkDescription KHistogram REQUEST_DURATION true
     "End-to-end request latency, measured inside the handler";
   mkDescription KHistogram QUEUE_WAIT true "Time a job waited for a worker";
   mkDescription KHistogram HSM_SERVICE true "Time a worker spent in PKCS#11";
   mkDescription KGauge QUEUE_DEPTH false "Jobs currently waiting for a worker";
   mkDescription KGauge WORKERS false "Worker threads, each owning one PKCS#11 session";
   mkDescription KCounter CACHE_HITS false "Public key cache hits";
   mkDescription KCounter CACHE_MISSES false "Public key cache misses";
   mkDescription KGauge CACHE_ENTRIES false "Public keys currently cached";
   mkDescription KCounter AUTHZ_DENIED false "Requests denied by the authorization policy";
   mkDescription KCounter AUTHZ_ALLOWED false "Requests permitted by the authorization policy";
   mkDescription KCounter UNAUTHENTICATED false "Requests with no usable client certificate";
   mkDescription KCounter SHED_TOTAL false "Requests shed because the queue was full";
   mkDescription KCounter RATE_LIMITED false "Requests rejected by the per-identity rate limit";
   mkDescription KGauge BREAKER_STATE false "Circuit breaker: 0 closed, 1 open, 2 half-open";
   mkDescription KCounter BREAKER_TRIPS false "Times the circuit breaker has opened";
   mkDescription KCounter SESSION_RESETS false "PKCS#11 sessions reopened after a fatal error"].

(** ** [install]

    The builder is [metrics_exporter_prometheus]'s. *)

Class PrometheusBuilder := {
  Builder : Type;
  Handle : Type;
  builder_new : Builder;
  set_buckets_for_metric : string → list f64 → Builder → result Builder string;
  install_recorder : Builder → result Handle string
}.

Definition err_context {A} (m : string) (r : result A string) : result A AnyError :=
  map_err (λ e, mkAny [m; e] None) r.

(** The handle, and the descriptions registered once the recorder is there. *)
Definition install {PB : PrometheusBuilder} : result (Handle * list Description) AnyError :=
  (let? b1 := err_context "failed to set request buckets"
                (set_buckets_for_metric REQUEST_DURATION REQUEST_BUCKETS builder_new) in
   let? b2 := err_context "failed to set queue buckets"
                (set_buckets_for_metric QUEUE_WAIT INTERNAL_BUCKETS b1) in
   let? b3 := err_context "failed to set service buckets"
                (set_buckets_for_metric HSM_SERVICE INTERNAL_BUCKETS b2) in
   let? handle := err_context "failed to install the Prometheus recorder" (install_recorder b3) in
   Ok (handle, describe))%rust.

(** ** [serve] *)

(** What a [GET] of a route is answered: the exposition text as it is then, or a
    constant. *)
Inductive Responder := Rendered | Text (s : string).

Inductive httpE : Type → Type :=
| BindListener (addr : string) : httpE (result unit string)
| AxumServe (app : list (string * Responder)) : httpE (result unit string).

Definition app : list (string * Responder) := [("/metrics", Rendered); ("/healthz", Text "ok")].

Definition serve (addr : string) : prog httpE (result unit AnyError) :=
  (try _ <~ prog_bind (trigger (BindListener addr)) (λ r,
              Ret (err_context ("failed to bind the metrics listener on " +:+ addr) r));
   r <~ trigger (AxumServe app);
   Ret (err_context "metrics server failed" r))%rust.

(** ** The sampler *)

Inductive MetricOp :=
| GaugeSet (name : string) (v : f64)
| CounterIncrement (name : string) (n : Z)
| CounterAbsolute (name : string) (n : Z).

(** What the loads of one round returned.  Each is read on its own, while the
    components go on. *)
Record Readings := mkReadings {
  r_queue_len : Z; r_entry_count : Z; r_state : CB.State;
  r_hits : Z; r_misses : Z; r_shed : Z; r_resets : Z; r_trips : Z }.

Record SamplerState := mkSampler { last_hits : Z; last_misses : Z; last_shed : Z; last_resets : Z }.

Definition sampler_start : SamplerState := mkSampler 0 0 0 0.

Definition breaker_gauge (s : CB.State) : f64 :=
  match s with
  | CB.Closed => f64_zero
  | CB.Open => f64_of_u64 1
  | CB.HalfOpen => f64_of_u64 2
  end.

(** One round of the loop. *)
Definition sampler_tick (r : Readings) (s : SamplerState) : list MetricOp * SamplerState :=
  ([GaugeSet QUEUE_DEPTH (f64_of_u64 (r_queue_len r));
    GaugeSet CACHE_ENTRIES (f64_of_u64 (r_entry_count r));
    GaugeSet BREAKER_STATE (breaker_gauge (r_state r));
    CounterIncrement CACHE_HITS (saturating_sub (r_hits r) (last_hits s));
    CounterIncrement CACHE_MISSES (saturating_sub (r_misses r) (last_misses s));
    CounterIncrement SHED_TOTAL (saturating_sub (r_shed r) (last_shed s));
    CounterIncrement SESSION_RESETS (saturating_sub (r_resets r) (last_resets s));
    CounterAbsolute BREAKER_TRIPS (r_trips r)],
   mkSampler (r_hits r) (r_misses r) (r_shed r) (r_resets r)).

(** What the body of the loop leaves: the task goes on with its previous totals, or
    ends.  The body has neither [break] nor [return] nor [?]. *)
Definition sampler_round (r : Readings) (s : SamplerState) : list MetricOp * option SamplerState :=
  let '(ops, s') := sampler_tick r s in (ops, Some s').

Fixpoint sampler_run (rs : list Readings) (s : SamplerState) : list MetricOp * SamplerState :=
  match rs with
  | [] => ([], s)
  | r :: rs =>
      let '(ops, s1) := sampler_tick r s in
      let '(ops', s2) := sampler_run rs s1 in
      (ops ++ ops', s2)
  end.

(** Where each reading comes from; [entry_count] is [moka]'s estimate. *)
Definition read_now `{CK : Cryptoki, CH : !Channel} (p : Pool.Pool) (c : CacheState)
    (b : CB.CircuitBreaker) (entry_count : Z) : Readings :=
  {| r_queue_len := Z.of_nat (Pool.queue_len p); r_entry_count := entry_count; r_state := CB.state b;
     r_hits := hits (cache_metrics c); r_misses := misses (cache_metrics c);
     r_shed := counter_get RejectedQueueFull (metrics (shared p));
     r_resets := counter_get SessionResets (metrics (shared p));
     r_trips := CB.trips b |}.

(** ** Properties *)

(** What the increments of a counter add up to. *)
Definition increment_of (name : string) (op : MetricOp) : Z :=
  match op with
  | CounterIncrement n v => if String.eqb n name then v else 0
  | _ => 0
  end.

Definition exported (name : string) (ops : list MetricOp) : Z :=
  foldr (λ op acc, increment_of name op + acc) 0 ops.

(** The totals that are exported as increments. *)
Definition tracked : list (string * (Readings → Z)) :=
  [(CACHE_HITS, r_hits); (CACHE_MISSES, r_misses); (SHED_TOTAL, r_shed); (SESSION_RESETS, r_resets)].

Definition last_of (name : string) (s : SamplerState) : Z :=
  if String.eqb name CACHE_HITS then last_hits s
  else if String.eqb name CACHE_MISSES then last_misses s
  else if String.eqb name SHED_TOTAL then last_shed s else last_resets s.

(** The rises of a total, from a value on: a fall counts nothing. *)
Fixpoint rises (f : Readings → Z) (prev : Z) (rs : list Readings) : Z :=
  match rs with
  | [] => 0
  | r :: rs => Z.max 0 (f r - prev) + rises f (f r) rs
  end.

Fixpoint monotone (f : Readings → Z) (prev : Z) (rs : list Readings) : Prop :=
  match rs with
  | [] => True
  | r :: rs => prev ≤ f r ∧ monotone f (f r) rs
  end.

Lemma exported_app name ops ops' : exported name (ops ++ ops') = exported name ops + exported name ops'.
Proof. unfold exported. induction ops as [|op ops IH]; simpl; [done|]. rewrite IH. lia. Qed.

(** One round adds the rise since the previous one, and remembers. *)
Lemma sampler_tick_rise name f r s :
  (name, f) ∈ tracked →
  exported name (sampler_tick r s).1 = Z.max 0 (f r - last_of name s) ∧
  last_of name (sampler_tick r s).2 = f r.
Proof.
  unfold tracked. rewrite !elem_of_cons, elem_of_nil.
  intros [[= -> ->]|[[= -> ->]|[[= -> ->]|[[= -> ->]|[]]]]]; cbn -[Z.max Z.add saturating_sub];
    unfold saturating_sub; (split; [lia|done]).
Qed.

Lemma sampler_run_rises name f rs s :
  (name, f) ∈ tracked → exported name (sampler_run rs s).1 = rises f (last_of name s) rs.
Proof.
  intros Hin. revert s. induction rs as [|r rs IH]; intros s; [done|]. cbn [sampler_run rises].
  destruct (sampler_tick_rise name f r s Hin) as [He Hl].
  destruct (sampler_tick r s) as [ops s1]. simpl in He, Hl. specialize (IH s1).
  destruct (sampler_run rs s1) as [ops' s2]. simpl in *. by rewrite exported_app, IH, He, Hl.
Qed.

Lemma rises_monotone f prev rs :
  monotone f prev rs → prev + rises f prev rs = default prev (f <$> last rs).
Proof.
  revert prev. induction rs as [|r rs IH]; intros prev; cbn -[Z.max Z.add last]; [simpl; lia|]. intros [Hr Hm].
  specialize (IH _ Hm). rewrite last_cons. destruct (last rs); simpl in *; lia.
Qed.

(** C37: The exported counters are the totals.  Over any number of rounds the increments
    of a tracked series add up to the rises of the total that was read; so as long
    as the total does not wrap around, the series shows the last value read, however
    often it was sampled, and never counts an event twice. *)
Theorem sampler_exports_totals name f rs :
  (name, f) ∈ tracked → monotone f 0 rs →
  exported name (sampler_run rs sampler_start).1 = default 0 (f <$> last rs).
Proof.
  intros Hin Hm. rewrite (sampler_run_rises name f) by done.
  replace (last_of name sampler_start) with 0; [by rewrite <-rises_monotone|].
  unfold last_of. by repeat case_match.
Qed.

(** A series is described, with its kind. *)
Definition described (k : MetricKind) (name : string) : bool :=
  existsb (λ d, bool_decide (desc_kind d = k) && String.eqb (desc_name d) name) describe.

Definition op_described (op : MetricOp) : bool :=
  match op with
  | GaugeSet n _ => described KGauge n
  | CounterIncrement n _ | CounterAbsolute n _ => described KCounter n
  end.

Definition event_described (e : event svcE) : bool :=
  match e with
  | Ev (IncrCounter n _) _ => described KCounter n
  | Ev (RecordHistogram n _ _) _ => described KHistogram n
  | _ => true
  end.

(** Each bound is below the next. *)
Fixpoint increasing (bs : list f64) : bool :=
  match bs with
  | a :: (b :: _) as rest => SFltb a b && increasing rest
  | _ => true
  end.

(** The registry is complete.  Every series that a request or the sampler emits is
    described under one kind and no name is described twice; the three duration
    histograms have strictly increasing buckets, and the 2 ms budget is a bucket
    boundary. *)
Theorem every_series_is_described description {A} op started (r : result A Status) rd s :
  all_runs any (Pooled.record description op started r) (λ tr _, Forall (λ e, event_described e = true) tr) ∧
  Forall (λ o, op_described o = true) (sampler_tick rd s).1 ∧
  NoDup (desc_name <$> describe) ∧
  increasing REQUEST_BUCKETS = true ∧ increasing INTERNAL_BUCKETS = true ∧
  literal 2 3 ∈ REQUEST_BUCKETS.
Proof.
  split; [|split; [|split; [|split; [|split]]]].
  - unfold Pooled.record. simpl. intros [] _ t _ [] _.
    destruct r as [a|st]; simpl; [intros [] _; repeat constructor|].
    destruct (code st); simpl; try (intros [] _); repeat constructor.
  - repeat constructor.
  - apply (bool_decide_unpack _). vm_compute. exact I.
  - vm_compute. reflexivity.
  - vm_compute. reflexivity.
  - unfold REQUEST_BUCKETS. set_solver.
Qed.

Module TelemetryWitness.

(** Three rounds; nothing happened before the second. *)
Definition demo_rounds : list Readings :=
  [mkReadings 0 0 CB.Closed 2 1 0 0 0; mkReadings 3 1 CB.Closed 2 1 0 0 0;
   mkReadings 1 1 CB.Open 5 2 4 1 1].

Lemma sampler_exports_totals_witness :
  exported CACHE_HITS (sampler_run demo_rounds sampler_start).1 = 5 ∧
  exported SHED_TOTAL (sampler_run demo_rounds sampler_start).1 = 4.
Proof.
  split.
  - apply (sampler_exports_totals CACHE_HITS r_hits demo_rounds); [left|simpl; lia].
  - apply (sampler_exports_totals SHED_TOTAL r_shed demo_rounds); [|simpl; lia].
    right. right. left.
Defined.
End TelemetryWitness.
