(* ===== verification/Main.v ===== *)
(** * Assembly, startup and shutdown ([main.rs])

    [main] as a program over the effects it has: reading the environment and the
    files is a parameter, what it starts, serves and stops are the events.  Log
    lines are left out, except the reports at the end. *)
From S2P Require Import Prelude RustStd F64 Effects Breaker Deps Policy Identity Authorizer RateLimit Session.
From S2P Require Import Crypto Toy Worker Pool Cache Wire Pooled Single Telemetry.

Local Open Scope Z_scope.

(** ** Admission control at the transport *)

Record AdmissionConfig := mkAdmission {
  max_concurrent_streams : option Z;
  concurrency_limit_per_connection : option Z;
  request_timeout : option Z
}.

Definition AdmissionConfig_from_env (e : env) : AdmissionConfig :=
  {| max_concurrent_streams := e "MAX_CONCURRENT_STREAMS" ≫= parse_uint 32;
     concurrency_limit_per_connection := e "CONCURRENCY_LIMIT_PER_CONNECTION" ≫= parse_uint 64;
     request_timeout := from_millis <$> (e "REQUEST_TIMEOUT_MS" ≫= parse_uint 64) |}.

(** ** TLS and the policy *)

(** What is set on [tonic]'s [ServerTlsConfig] and [Server]. *)
Record ServerTlsConfig := mkTls {
  tls_identity : option (bytes * bytes);
  tls_client_ca_root : option bytes
}.

Record Server := mkServer {
  srv_tls : option ServerTlsConfig;
  srv_max_streams : option Z;
  srv_concurrency : option Z;
  srv_load_shed : bool;
  srv_timeout : option Z
}.

Definition server_default : Server := mkServer None None None false None.

Record Security := mkSecurity { tls : ServerTlsConfig; authorizer : Authorizer.Authorizer }.

(** [Path::join] with a relative, plain file name. *)
Definition ends_with_slash (s : string) : bool :=
  match last (String.list_ascii_of_string s) with
  | Some a => Ascii.eqb a "/"%char
  | None => false
  end.

Definition path_join (dir name : string) : string :=
  if String.eqb dir "" then name
  else if ends_with_slash dir then dir +:+ name else dir +:+ "/" +:+ name.

Section startup.
(** [std::fs::read] and [read_to_string], with the [Display] of their errors;
    [toml::from_str]; [Server::tls_config], which checks the certificates *)
Context (fs_read : string → result bytes string).
Context (fs_read_to_string : string → result string AnyError).
Context (toml_from_str : string → result Policy.PolicyFile AnyError).
Context (tls_config : ServerTlsConfig → result unit string).

Definition read_cert (cert_dir name : string) : result bytes AnyError :=
  let path := path_join cert_dir name in
  map_err (λ e, mkAny ["failed to read " +:+ path +:+
                       "; run scripts/gen-certs.sh, or set PROXY_TLS=off"; e] None) (fs_read path).

Definition load_security (e : env) : result (option Security) AnyError :=
  let enabled := default "on" (e "PROXY_TLS") in
  if String.eqb enabled "off" then Ok None
  else
    let cert_dir := default "certs" (e "CERT_DIR") in
    let policy_path := default "policy/authz.toml" (e "AUTHZ_POLICY") in
    (let? cert := read_cert cert_dir "server.crt" in
     let? key := read_cert cert_dir "server.key" in
     let? client_ca := read_cert cert_dir "ca.crt" in
     let tls := {| tls_identity := Some (cert, key); tls_client_ca_root := Some client_ca |} in
     let? policy := Policy.load fs_read_to_string toml_from_str policy_path in
     Ok (Some {| tls := tls; authorizer := Authorizer.new policy |}))%rust.

Definition server_builder (security : option Security) (admission : AdmissionConfig) :
    result Server AnyError :=
  (let? builder :=
     match security with
     | Some s =>
         let? _ := map_err (λ e, mkAny ["failed to apply TLS configuration"; e] None)
                     (tls_config (tls s)) in
         Ok (mkServer (Some (tls s)) None None false None)
     | None => Ok server_default
     end in
   let builder := match max_concurrent_streams admission with
                  | Some streams => mkServer (srv_tls builder) (Some streams) (srv_concurrency builder)
                                      (srv_load_shed builder) (srv_timeout builder)
                  | None => builder
                  end in
   let builder := match concurrency_limit_per_connection admission with
                  | Some limit => mkServer (srv_tls builder) (srv_max_streams builder) (Some limit) true
                                    (srv_timeout builder)
                  | None => builder
                  end in
   let builder := match request_timeout admission with
                  | Some timeout => mkServer (srv_tls builder) (srv_max_streams builder)
                                      (srv_concurrency builder) (srv_load_shed builder) (Some timeout)
                  | None => builder
                  end in
   Ok builder)%rust.

(** ** The reports at the end *)

Inductive LogValue :=
| LU64 (n : Z)
| LStr (s : string)
(** [format!("{:.4}")] of a number *)
| LFixed4 (x : f64).

Definition report_pool_metrics (m : PoolMetrics) : list (string * LogValue) :=
  [("submitted", LU64 (counter_get Submitted m));
   ("completed", LU64 (counter_get Completed m));
   ("failed", LU64 (counter_get Failed m));
   ("rejected_queue_full", LU64 (counter_get RejectedQueueFull m));
   ("timed_out", LU64 (counter_get TimedOut m));
   ("session_resets", LU64 (counter_get SessionResets m));
   ("handle_cache_hits", LU64 (counter_get HandleHits m));
   ("handle_cache_misses", LU64 (counter_get HandleMisses m));
   ("mean_queue_wait_us", LU64 (mean_queue_wait_micros m));
   ("mean_service_us", LU64 (mean_service_micros m))].

Definition report_breaker (b : CB.CircuitBreaker) : list (string * LogValue) :=
  [("state", LStr (CB.state_as_str (CB.state b))); ("trips", LU64 (CB.trips b));
   ("rejected", LU64 (CB.rejected b))].

Definition report_limiter (allowed rejected : Z) : list (string * LogValue) :=
  [("allowed", LU64 allowed); ("rejected", LU64 rejected)].

Definition report_cache (m : CacheMetrics) (entry_count : Z) : list (string * LogValue) :=
  [("hits", LU64 (hits m)); ("misses", LU64 (misses m)); ("negative_hits", LU64 (negative_hits m));
   ("hit_ratio", LFixed4 (hit_ratio m)); ("entries", LU64 entry_count)].

Definition report_authorizer (m : Authorizer.AuthzMetrics) : list (string * LogValue) :=
  [("allowed", LU64 (Authorizer.allowed_total m)); ("denied", LU64 (Authorizer.denied_total m));
   ("unauthenticated", LU64 (Authorizer.unauthenticated_total m))].

(** ** Logging and signals *)

(** [init_tracing]: the filter it installs.  [valid] is what [EnvFilter] parses. *)
Definition init_tracing (valid : string → bool) (e : env) : string :=
  match e "RUST_LOG" with
  | Some filter => if valid filter then filter else "info,grpc_low_latency_proxy=debug"
  | None => "info,grpc_low_latency_proxy=debug"
  end.

Inductive Signal := SIGINT | SIGTERM.

#[global] Instance Signal_eq_dec : EqDecision Signal.
Proof. solve_decision. Defined.

Inductive signalE : Type → Type :=
(** the branch that [select!] polls first *)
| PolledFirst : signalE Signal
(** polled the first time, a branch installs its handler, and says whether its
    signal is there already *)
| Install (s : Signal) : signalE (result unit string)
| Ready (s : Signal) : signalE bool
(** both wait, until one is woken *)
| Woken : signalE Signal
| LogSignal (message : string) : signalE unit.

Definition other_signal (s : Signal) : Signal :=
  match s with SIGINT => SIGTERM | SIGTERM => SIGINT end.

Definition signal_message (s : Signal) : string :=
  match s with
  | SIGINT => "received SIGINT, shutting down"
  | SIGTERM => "received SIGTERM, shutting down"
  end.

(** [shutdown_signal] on Unix: the signal it resolves on; [None] is the panic of an
    [expect]. *)
Definition shutdown_signal : prog signalE (option Signal) :=
  (let resolve s := prog_bind (trigger (LogSignal (signal_message s))) (λ _, Ret (Some s)) in
   first <~ trigger PolledFirst;
   installed <~ trigger (Install first);
   match installed with
   | Err _ => Ret None
   | Ok _ =>
       there <~ trigger (Ready first);
       if (there : bool) then resolve first
       else
         installed <~ trigger (Install (other_signal first));
         match installed with
         | Err _ => Ret None
         | Ok _ =>
             there <~ trigger (Ready (other_signal first));
             if (there : bool) then resolve (other_signal first)
             else prog_bind (trigger Woken) resolve
         end
   end)%rust.

(** The handler of a signal could not be installed; a signal arrived. *)
Definition install_failed (ev : event signalE) : bool :=
  match ev with
  | Ev e x =>
      match e in signalE X return X → bool with
      | Install _ => λ x, negb (is_ok x)
      | _ => λ _, false
      end x
  end.

Definition arrived (s : Signal) (ev : event signalE) : bool :=
  match ev with
  | Ev e x =>
      match e in signalE X return X → bool with
      | Ready s' => λ x, x && bool_decide (s' = s)
      | Woken => λ x, bool_decide (x = s)
      | _ => λ _, false
      end x
  end.

(** The future resolves on either signal, whichever branch is polled first, and
    panics only if a handler cannot be installed. *)
Lemma shutdown_signal_resolves :
  all_runs any shutdown_signal (λ tr r,
    match r with
    | Some s => existsb (arrived s) tr = true ∧ existsb install_failed tr = false
    | None => existsb install_failed tr = true
    end).
Proof.
  intros [] _ [[]|] _; simpl; try done; (intros [] _; simpl; [by intros [] _|]);
    intros [[]|] _; simpl; try done; (intros [] _; simpl; [by intros [] _|]); by intros [] _ [] _.
Qed.

(** ** [main] *)

(** The service that a mode assembles. *)
Inductive Service :=
| SPooled (auth : option Authorizer.Authorizer) (cache : CacheConfig)
    (limiter : option RL.RateLimitConfig) (breaker : CB.BreakerConfig)
| SSingle.

Inductive mainE : Type → Type :=
| InitTracing (filter : string) : mainE unit
(** [install_default] says whether the provider was installed *)
| InstallProvider : mainE bool
| InstallTelemetry : mainE (result unit AnyError)
| BuildReflection : mainE (result unit AnyError)
| StartPool (token : TokenConfig) (config : PoolConfig) : mainE (result unit PoolError)
| ConnectSingle (token : TokenConfig) : mainE (result unit AnyError)
| SetGauge (name : string) (v : f64) : mainE unit
| SpawnSampler (interval : Z) : mainE unit
| SpawnMetricsEndpoint (addr : string) : mainE unit
(** [serve_with_shutdown]: returns after [shutdown_signal] resolved *)
| Serve (server : Server) (service : Service) (addr : string) : mainE (result unit AnyError)
(** the counters, as they are read while sampler and workers may go on *)
| ReadPoolMetrics : mainE PoolMetrics
| ReadBreaker : mainE CB.CircuitBreaker
| ReadLimiter : mainE (Z * Z)
| ReadCache : mainE (CacheMetrics * Z)
| ReadAuthorizer : mainE Authorizer.AuthzMetrics
| Info (message : string) (fields : list (string * LogValue)) : mainE unit
(** whether [Arc::try_unwrap] got the pool back *)
| TryUnwrapPool : mainE bool
| ShutdownPool : mainE unit.

(** [SocketAddr::from_str] (with the [Display] of its error), [f64::from_str],
    [available_parallelism], the [Display] of [cryptoki] errors, and what
    [EnvFilter] parses. *)
Context (parse_addr : string → result unit string).
Context (parse_f64 : string → option f64) (available_parallelism : option Z).
Context (show : CkError → string).
Context (valid_filter : string → bool).

Abbreviation M := (prog mainE (result unit AnyError)).

Definition pure {A} (r : result A AnyError) : prog mainE (result A AnyError) := Ret r.

Definition socket_addr (e : env) (key fallback : string) : result string AnyError :=
  let addr := default fallback (e key) in
  (let? _ := map_err (λ err, mkAny [key +:+ " is not a valid socket address"; err] None)
               (parse_addr addr) in
   Ok addr)%rust.

Definition serve_context (r : result unit AnyError) : result unit AnyError :=
  any_context "gRPC server failed" r.

Definition report (limited secured : bool) : prog mainE unit :=
  (m <~ trigger ReadPoolMetrics;
   _ <~ trigger (Info "pool metrics" (report_pool_metrics m));
   b <~ trigger ReadBreaker;
   _ <~ trigger (Info "circuit breaker metrics" (report_breaker b));
   _ <~ (if limited then
           l <~ trigger ReadLimiter;
           trigger (Info "rate limiter metrics" (report_limiter l.1 l.2))
         else Ret tt);
   c <~ trigger ReadCache;
   _ <~ trigger (Info "public key cache metrics" (report_cache c.1 c.2));
   if secured then
     a <~ trigger ReadAuthorizer;
     trigger (Info "authorization metrics" (report_authorizer a))
   else Ret tt)%rust.

Definition main_pool (e : env) (token : TokenConfig) (listen_addr : string)
    (security : option Security) (admission : AdmissionConfig) : M :=
  (let pool_config := PoolConfig_from_env available_parallelism e in
   try _ <~ prog_bind (trigger (StartPool token pool_config)) (λ r,
              Ret (map_err (λ err, anyhow ("failed to start worker pool: " +:+
                                           pool_error_to_string show err)) r));
   let auth := authorizer <$> security in
   let cache_config := CacheConfig_from_env e in
   let breaker := CB.BreakerConfig_from_env parse_f64 e in
   let rate_limiter := RL.from_env e in
   _ <~ trigger (SetGauge WORKERS (f64_of_u64 (cfg_workers pool_config)));
   _ <~ trigger (SpawnSampler (from_secs 1));
   try metrics_addr <~ pure (socket_addr e "METRICS_ADDR" "0.0.0.0:9090");
   _ <~ trigger (SpawnMetricsEndpoint metrics_addr);
   try server <~ pure (server_builder security admission);
   try _ <~ prog_bind (trigger (Serve server (SPooled auth cache_config rate_limiter breaker) listen_addr))
              (λ r, Ret (serve_context r));
   _ <~ report (bool_decide (is_Some rate_limiter)) (bool_decide (is_Some security));
   sole <~ trigger TryUnwrapPool;
   if (sole : bool) then (_ <~ trigger ShutdownPool; pure (Ok tt)) else pure (Ok tt))%rust.

Definition main_single (token : TokenConfig) (listen_addr : string)
    (security : option Security) (admission : AdmissionConfig) : M :=
  (try _ <~ trigger (ConnectSingle token);
   try server <~ pure (server_builder security admission);
   prog_bind (trigger (Serve server SSingle listen_addr)) (λ r, Ret (serve_context r)))%rust.

Definition main (e : env) : M :=
  (_ <~ trigger (InitTracing (init_tracing valid_filter e));
   _ <~ trigger InstallProvider;
   try _ <~ trigger InstallTelemetry;
   try token <~ pure (token_config_from_env e);
   try listen_addr <~ pure (socket_addr e "LISTEN_ADDR" "0.0.0.0:50051");
   try security <~ pure (load_security e);
   let admission := AdmissionConfig_from_env e in
   try _ <~ prog_bind (trigger BuildReflection) (λ r,
              Ret (any_context "failed to build the gRPC reflection service" r));
   let mode := default "pool" (e "PROXY_MODE") in
   if String.eqb mode "pool" then main_pool e token listen_addr security admission
   else if String.eqb mode "single" then main_single token listen_addr security admission
   else pure (Err (anyhow ("PROXY_MODE must be 'pool' or 'single', got '" +:+ mode +:+ "'"))))%rust.
End startup.

(** ** What is served is secured *)

Section security.
Context (fs_read : string → result bytes string).
Context (fs_read_to_string : string → result string AnyError).
Context (toml_from_str : string → result Policy.PolicyFile AnyError).
Context (tls_config : ServerTlsConfig → result unit string).

Abbreviation load_security := (load_security fs_read fs_read_to_string toml_from_str).

(** The security that the files describe: a server identity, a root that client
    certificates must chain to, and the compiled policy. *)
Definition security_of_files (e : env) (s : Security) : Prop :=
  let file name := fs_read (path_join (default "certs" (e "CERT_DIR")) name) in
  ∃ cert key ca text policy_file,
    file "server.crt" = Ok cert ∧ file "server.key" = Ok key ∧ file "ca.crt" = Ok ca ∧
    fs_read_to_string (default "policy/authz.toml" (e "AUTHZ_POLICY")) = Ok text ∧
    toml_from_str text = Ok policy_file ∧
    s = mkSecurity (mkTls (Some (cert, key)) (Some ca)) (Authorizer.new (Policy.compile policy_file)).

Lemma load_security_spec e :
  match load_security e with
  | Ok None => e "PROXY_TLS" = Some "off"
  | Ok (Some s) => e "PROXY_TLS" ≠ Some "off" ∧ security_of_files e s
  | Err _ => e "PROXY_TLS" ≠ Some "off" ∧ ∀ s, ¬ security_of_files e s
  end.
Proof.
  unfold Main.load_security, security_of_files, read_cert, Policy.load, Policy.parse, any_context.
  destruct (e "PROXY_TLS") as [v|]; simpl.
  1: destruct (String.eqb_spec v "off") as [->|Hv]; [done|].
  all: repeat match goal with
       | |- context [map_err _ (fs_read ?p)] => destruct (fs_read p) eqn:?; simpl
       | |- context [fs_read_to_string ?p] => destruct (fs_read_to_string p) eqn:?; simpl
       | |- context [toml_from_str ?p] => destruct (toml_from_str p) eqn:?; simpl
       end.
  all: split; [congruence|]; try (intros s (?&?&?&?&?&?&?&?&?&?&?); congruence).
  all: by do 5 eexists.
Qed.

(** Security is off only on request.  Plaintext is served exactly if [PROXY_TLS] is
    the word [off]; any other value, or none, demands mutual TLS and a policy, and
    a file that is missing or does not parse stops the startup. *)
Theorem security_fails_closed e :
  match load_security e with
  | Ok None => e "PROXY_TLS" = Some "off"
  | Ok (Some s) => e "PROXY_TLS" ≠ Some "off" ∧ security_of_files e s
  | Err _ => e "PROXY_TLS" ≠ Some "off" ∧ ∀ s, ¬ security_of_files e s
  end.
Proof. apply load_security_spec. Qed.

Lemma server_builder_fields security admission server :
  server_builder tls_config security admission = Ok server →
  srv_tls server = tls <$> security ∧
  srv_max_streams server = max_concurrent_streams admission ∧
  srv_concurrency server = concurrency_limit_per_connection admission ∧
  srv_load_shed server = bool_decide (is_Some (concurrency_limit_per_connection admission)) ∧
  srv_timeout server = request_timeout admission.
Proof.
  unfold server_builder. destruct admission as [[] [] []], security as [s|]; simpl;
    try destruct (tls_config (tls s)); simpl; intros [= <-]; done.
Qed.

(** A [Serve] event. *)
Definition served (ev : event mainE) : option (Server * Service) :=
  match ev with Ev (Serve server service _) _ => Some (server, service) | _ => None end.

Context (parse_addr : string → result unit string).
Context (parse_f64 : string → option f64) (available_parallelism : option Z).
Context (show : CkError → string) (valid_filter : string → bool).

Abbreviation main := (main fs_read fs_read_to_string toml_from_str tls_config parse_addr parse_f64
                        available_parallelism show valid_filter).

(** What may be served under an environment. *)
Definition servable (e : env) (server : Server) (service : Service) : Prop :=
  (∃ security, load_security e = Ok security ∧
     server_builder tls_config security (AdmissionConfig_from_env e) = Ok server ∧
     match service with
     | SPooled auth _ _ _ => e "PROXY_MODE" ≠ Some "single" ∧ auth = authorizer <$> security
     | SSingle => e "PROXY_MODE" = Some "single"
     end).

Lemma report_serves_nothing limited secured :
  all_runs any (report limited secured) (λ tr _, Forall (λ ev, served ev = None) tr).
Proof. destruct limited, secured; simpl; intros; repeat constructor. Qed.

Opaque report.

Lemma main_serves e :
  all_runs any (main e) (λ tr _, Forall (λ ev, ∀ server service,
    served ev = Some (server, service) → servable e server service) tr).
Proof.
  unfold Main.main, main_pool, main_single, try_bind, pure. simpl. intros tracing _ provider _ [[]|err] _; simpl; [|by repeat constructor].
  destruct (token_config_from_env e) as [token|]; simpl; [|by repeat constructor].
  destruct (socket_addr parse_addr e "LISTEN_ADDR" _) as [addr|]; simpl; [|by repeat constructor].
  destruct (load_security e) as [security|] eqn:Hs; simpl; [|by repeat constructor].
  intros [[]|err] _; simpl; [|by repeat constructor].
  destruct (String.eqb_spec (default "pool" (e "PROXY_MODE")) "pool") as [Hm|Hm]; simpl.
  - intros [[]|err'] _; simpl; [|by repeat constructor]. intros [] _ [] _.
    destruct (socket_addr parse_addr e "METRICS_ADDR" _) as [maddr|]; simpl; [|by repeat constructor].
    intros [] _. destruct (server_builder _ _ _) as [server|] eqn:Hb; simpl; [|by repeat constructor].
    assert (servable e server (SPooled (authorizer <$> security) (CacheConfig_from_env e) (RL.from_env e)
      (CB.BreakerConfig_from_env parse_f64 e))) as Hsv.
    { exists security. split; [done|]. split; [done|]. split; [|done]. intros Hsingle. by rewrite Hsingle in Hm. }
    intros [[]|err'] _; simpl; [|by repeat constructor; simpl; intros ? ? [= <- <-]].
    apply all_runs_bind. eapply all_runs_mono; [|apply report_serves_nothing]. simpl. intros tr _ Hn.
    assert (Forall (λ ev, ∀ sr sv, served ev = Some (sr, sv) → servable e sr sv) tr) as Htr
      by (eapply Forall_impl; [exact Hn|]; simpl; congruence).
    intros [] _; simpl; [intros [] _|]; repeat (apply Forall_cons; split; [simpl; try done|]);
      try (by intros ? ? [= <- <-]); apply Forall_app; (split; [done|]); by repeat constructor.
  - destruct (String.eqb_spec (default "pool" (e "PROXY_MODE")) "single") as [Hm'|Hm']; simpl; [|by repeat constructor].
    intros [[]|err'] _; simpl; [|by repeat constructor].
    destruct (server_builder _ _ _) as [server|] eqn:Hb; simpl; [|by repeat constructor].
    intros [[]|err'] _; simpl; repeat constructor; simpl; intros ? ? [= <- <-]; exists security;
      (split; [done|]); (split; [done|]); destruct (e "PROXY_MODE"); simpl in Hm'; by subst.
Qed.

Transparent report.

(** C15: What is served is secured.  In every run of [main] that gets to serve: unless
    [PROXY_TLS] is [off] the server has the TLS identity and the client root of the
    files, and the pooled service authorizes with the policy of the policy file;
    if it is [off] there is neither TLS nor an authorizer.  Load is shed exactly if
    a concurrency limit is set. *)
Theorem served_is_secured e :
  all_runs any (main e) (λ tr _, Forall (λ ev, ∀ server service,
    served ev = Some (server, service) →
    (srv_load_shed server = true ↔ srv_concurrency server ≠ None) ∧
    if decide (e "PROXY_TLS" = Some "off") then
      srv_tls server = None ∧
      match service with SPooled auth _ _ _ => auth = None | SSingle => e "PROXY_MODE" = Some "single" end
    else
      ∃ s, security_of_files e s ∧ srv_tls server = Some (tls s) ∧
      match service with
      | SPooled auth _ _ _ => auth = Some (authorizer s)
      | SSingle => e "PROXY_MODE" = Some "single"
      end) tr).
Proof.
  eapply all_runs_mono; [|apply main_serves]. simpl. intros tr _ Hs. eapply Forall_impl; [exact Hs|].
  simpl. intros ev Hev server service Hserved.
  destruct (Hev _ _ Hserved) as (security&Hl&Hb&Hm).
  apply server_builder_fields in Hb as (Ht&_&Hc&Hshed&_).
  pose proof (load_security_spec e) as Hspec. rewrite Hl in Hspec. split.
  - rewrite Hshed, Hc, bool_decide_eq_true. symmetry. apply not_eq_None_Some.
  - destruct security as [s|], (decide _); [tauto| |split; [done|]|tauto].
    + exists s. destruct Hspec. split; [done|]. split; [done|]. destruct service; naive_solver.
    + destruct service; naive_solver.
Qed.

(** The same request from another caller. *)
Definition with_certs (certs : option (list bytes)) (q : AnyRequest) : AnyRequest :=
  match q with
  | QSign r => QSign (mkRequest certs (get_ref r))
  | QVerify r => QVerify (mkRequest certs (get_ref r))
  | QEncrypt r => QEncrypt (mkRequest certs (get_ref r))
  | QDecrypt r => QDecrypt (mkRequest certs (get_ref r))
  | QGetPublicKey r => QGetPublicKey (mkRequest certs (get_ref r))
  end.

(** C38: In single-session mode the policy is not enforced.  Under [PROXY_MODE=single],
    with TLS on and the policy loaded, what is served is the single-session service,
    which answers every caller alike, whatever certificate the caller showed. *)
Theorem single_mode_ignores_policy {CK : Cryptoki} {CL : CryptoLib} e x iv q certs (w : World) :
  e "PROXY_MODE" = Some "single" →
  all_runs any (main e) (λ tr _, Forall (λ ev, ∀ server service,
    served ev = Some (server, service) → service = SSingle) tr) ∧
  single_rpc x iv (with_certs certs q) w = single_rpc x iv q w.
Proof.
  intros Hm. split; [|by destruct q].
  eapply all_runs_mono; [|apply main_serves]. simpl. intros tr _ Hs. eapply Forall_impl; [exact Hs|].
  simpl. intros ev Hev server service Hserved.
  destruct (Hev _ _ Hserved) as (security&_&_&Hservice). destruct service; naive_solver.
Qed.
End security.

(** ** Shutdown

    [main] runs next to the task of the sampler and the tasks of the server.  Its
    [Arc<Pool>] is cloned twice: into the sampler's task, which drops its clone when
    its loop ends, and into the service, which the server drops at some time after
    it stopped serving.  [Arc::try_unwrap] gives the pool back exactly if no clone
    is left. *)

Record Clones := mkClones {
  sampler_task : option SamplerState;
  service_clone : bool
}.

Definition no_clones : Clones := mkClones None false.

Definition clones (o : Clones) : nat :=
  (if sampler_task o then 1 else 0) + (if service_clone o then 1 else 0).

(** What an effect of [main] answers, and what it does to the clones: [SpawnSampler]
    and [Serve] are handed one each. *)
Definition owner_answer {X} (eff : mainE X) (o : Clones) : X → Clones → Prop :=
  match eff in mainE X return X → Clones → Prop with
  | SpawnSampler _ => λ _ o', o' = mkClones (Some sampler_start) (service_clone o)
  | Serve _ (SPooled _ _ _ _) _ => λ _ o', o' = mkClones (sampler_task o) true
  | TryUnwrapPool => λ sole o', sole = (clones o =? 0)%nat ∧ o' = o
  | _ => λ _ o', o' = o
  end.

(** A state of the process: the clones, what [main] did, and what it still has to do. *)
Definition Process : Type := Clones * list (event mainE) * prog mainE (result unit AnyError).

Inductive process_step : Process → Process → Prop :=
(** [main] goes on *)
| ps_main o o' tr X (eff : mainE X) k x :
    owner_answer eff o x o' → process_step (o, tr, Vis eff k) (o', tr ++ [Ev eff x], k x)
(** a round of the sampler, after which its task goes on or ends *)
| ps_sample o tr p s r :
    sampler_task o = Some s →
    process_step (o, tr, p) (mkClones (sampler_round r s).2 (service_clone o), tr, p)
(** the server drops the service *)
| ps_drop_service o tr p :
    process_step (o, tr, p) (mkClones (sampler_task o) false, tr, p).

Definition spawns_sampler (ev : event mainE) : bool :=
  match ev with Ev (SpawnSampler _) _ => true | _ => false end.
Definition shuts_down (ev : event mainE) : bool :=
  match ev with Ev ShutdownPool _ => true | _ => false end.

(** The answer to an attempt to get the pool back. *)
Definition unwrapped (ev : event mainE) : option bool :=
  match ev with
  | Ev eff x =>
      match eff in mainE X return X → option bool with
      | TryUnwrapPool => λ x, Some x
      | _ => λ _, None
      end x
  end.

(** The pool is asked back only after the sampler was spawned, and shut down only
    after it was given back. *)
Fixpoint orderly (spawned given : bool) (tr : list (event mainE)) : bool :=
  match tr with
  | [] => true
  | ev :: tr =>
      (if unwrapped ev then spawned else true) && (if shuts_down ev then given else true) &&
      orderly (spawned || spawns_sampler ev) (given || default false (unwrapped ev)) tr
  end.

Section shutdown.
Context (fs_read : string → result bytes string).
Context (fs_read_to_string : string → result string AnyError).
Context (toml_from_str : string → result Policy.PolicyFile AnyError).
Context (tls_config : ServerTlsConfig → result unit string).
Context (parse_addr : string → result unit string).
Context (parse_f64 : string → option f64) (available_parallelism : option Z).
Context (show : CkError → string) (valid_filter : string → bool).

Abbreviation main := (main fs_read fs_read_to_string toml_from_str tls_config parse_addr parse_f64
                        available_parallelism show valid_filter).

Lemma mainE_answerable X (eff : mainE X) : inhabited X.
Proof.
  constructor. destruct eff;
    first [exact tt|exact true|exact (Ok tt)|exact pool_metrics_default|exact (CB.new CB.BreakerConfig_default 0)
          |exact (0, 0)|exact (cache_metrics (cache_new 0), 0)|exact (Authorizer.Build_AuthzMetrics 0 0 0)].
Qed.

Lemma main_orderly e : all_runs any (main e) (λ tr _, orderly false false tr = true).
Proof.
  unfold Main.main, main_pool, main_single, report, pure, try_bind.
  repeat first [done|progress simpl|match goal with |- ∀ _, _ => intro end|case_match].
Qed.

(** The rest of [main] is orderly, and nothing was shut down. *)
Definition undrained (c : Process) : Prop :=
  let '(o, tr, p) := c in
  all_runs any p (λ tr' _, orderly (bool_decide (is_Some (sampler_task o))) false tr' = true) ∧
  existsb shuts_down tr = false ∧ (∀ sole, Some sole ∈ unwrapped <$> tr → sole = false).

Lemma unwrapped_snoc tr ev :
  (∀ sole, Some sole ∈ unwrapped <$> tr → sole = false) →
  (∀ sole, unwrapped ev = Some sole → sole = false) →
  ∀ sole, Some sole ∈ unwrapped <$> (tr ++ [ev]) → sole = false.
Proof.
  intros Htr Hev sole. rewrite fmap_app. intros [?|Hin]%elem_of_app; [auto|].
  apply list_elem_of_singleton in Hin. auto.
Qed.

Lemma process_step_undrained c c' : process_step c c' → undrained c → undrained c'.
Proof.
  intros Hs. destruct Hs as [o o' tr X eff k x Ho|o tr p s r Hs|o tr p]; intros (Hp&Hd&Hu).
  - specialize (Hp x I). cbv beta in Hp.
    destruct (some_run_elim _ _ (all_some _ _ _ Hp (some_run_exists (k x) mainE_answerable)))
      as (tr'&_&Htr'&_).
    pose proof (unwrapped_snoc tr (Ev eff x) Hu) as Hu'. unfold undrained. rewrite existsb_app, Hd.
    destruct eff as [| | | | | | | | |server [] addr| | | | | | | |]; simpl in *;
      rewrite ?orb_true_r, ?orb_false_r, ?andb_false_r in *; try done.
    all: try (subst o'; split; [exact Hp|]; split; [done|]; by apply Hu').
    destruct Ho as [Hx ->]. case_bool_decide as Hs; [|done].
    assert (x = false) as -> by (destruct Hs as [s Hs]; rewrite Hx; unfold clones; by rewrite Hs).
    split; [exact Hp|]. split; [done|]. apply Hu'. by intros sole [= <-].
  - split; [|done]. simpl. rewrite bool_decide_eq_true_2 in Hp by (rewrite Hs; eauto).
    unfold sampler_round. destruct (sampler_tick r s). simpl. exact Hp.
  - by split.
Qed.

Lemma undrained_steps c c' : rtc process_step c c' → undrained c → undrained c'.
Proof. induction 1; eauto using process_step_undrained. Qed.

(** C39: The drain never runs.  Take any run of [main], with any files, environment and
    outcome of each of its steps, next to the sampler's rounds and the server's
    tasks, however they are scheduled.  Whenever [main] asks for the pool back it
    does not get it, since the sampler's task, which never ends, still holds a
    clone; and the pool is not shut down, whether [main] has returned or not. *)
Theorem drain_never_runs e o tr p :
  rtc process_step (no_clones, [], main e) (o, tr, p) →
  existsb shuts_down tr = false ∧ (∀ sole, Some sole ∈ unwrapped <$> tr → sole = false).
Proof.
  intros Hr. assert (undrained (o, tr, p)) as (_&Hd&Hu); [|done].
  assert (undrained (no_clones, [], main e)) as H0.
  { split; [apply main_orderly|]. split; [done|]. by intros sole ?%elem_of_nil. }
  by eapply undrained_steps.
Qed.
End shutdown.

(** ** Witnesses *)

Module MainWitness.
Import Toy.

(** TLS on, a policy that grants nothing, and the baseline backend. *)
Definition single_env : env := λ k,
  if String.eqb k "PROXY_MODE" then Some "single"
  else if String.eqb k "USER_PIN" then Some "1234" else None.

Definition demo_main : prog mainE (result unit AnyError) :=
  main (λ _, Ok [x00]) (λ _, Ok "") (λ _, Ok {| Policy.workloads := [] |}) (λ _, Ok tt) (λ _, Ok tt)
    (λ _, None) None (λ _, "") (λ _, true) single_env.

Definition demo_query (certs : option (list bytes)) : AnyRequest :=
  QSign (mkRequest certs (mkSign "demo" 1 (Some (Some (Crypto.Message [x01]))))).

(** The service is up, without an authorizer, and a caller who showed no
    certificate gets a signature. *)
Lemma single_mode_ignores_policy_witness :
  all_runs any demo_main (λ tr _, Forall (λ ev, ∀ server service,
    served ev = Some (server, service) → service = SSingle) tr) ∧
  some_run demo_main (λ tr _, existsb (λ ev, match served ev with
    | Some (server, SSingle) => match srv_tls server with Some _ => true | None => false end
    | _ => false end) tr = true) ∧
  single_rpc (CK := toy_token) 0%nat [] (demo_query None) (WorkerWitness.demo_state None 0).2.(world) =
  single_rpc (CK := toy_token) 0%nat [] (demo_query (Some [[x30]])) (WorkerWitness.demo_state None 0).2.(world) ∧
  is_ok (single_rpc (CK := toy_token) 0%nat [] (demo_query None)
           (WorkerWitness.demo_state None 0).2.(world)).1 = true.
Proof.
  pose proof (single_mode_ignores_policy (λ _, Ok [x00]) (λ _, Ok "") (λ _, Ok {| Policy.workloads := [] |})
    (λ _, Ok tt) (λ _, Ok tt) (λ _, None) None (λ _, "") (λ _, true) (CK := toy_token) single_env 0%nat []
    (demo_query (Some [[x30]])) None (WorkerWitness.demo_state None 0).2.(world) eq_refl) as [Hall Hrpc].
  split; [exact Hall|]. split; [|split; [exact Hrpc|vm_compute; reflexivity]].
  exists tt. exists true. exists (Ok tt). exists (Ok tt). exists (Ok tt). exists (Ok tt). vm_compute. reflexivity.
Defined.
(** The default deployment, in pool mode. *)
Definition pool_env : env := λ k, if String.eqb k "USER_PIN" then Some "1234" else None.

Definition pool_main : prog mainE (result unit AnyError) :=
  main (λ _, Ok [x00]) (λ _, Ok "") (λ _, Ok {| Policy.workloads := [] |}) (λ _, Ok tt) (λ _, Ok tt)
    (λ _, None) None (λ _, "") (λ _, true) pool_env.

(** A run of [main] in which the service may be dropped before each effect. *)
Fixpoint owned_run (p : prog mainE (result unit AnyError)) (o : Clones)
    (Q : Clones → list (event mainE) → result unit AnyError → Prop) : Prop :=
  match p with
  | Ret a => Q o [] a
  | Vis eff k => ∃ (drop : bool) x o',
      owner_answer eff (if drop then mkClones (sampler_task o) false else o) x o' ∧
      owned_run (k x) o' (λ o'' tr a, Q o'' (Ev eff x :: tr) a)
  end.

Lemma owned_run_steps p o tr0 Q :
  owned_run p o Q → ∃ o' tr a, rtc process_step (o, tr0, p) (o', tr0 ++ tr, Ret a) ∧ Q o' tr a.
Proof.
  revert o tr0 Q. induction p as [a|X eff k IH]; intros o tr0 Q; simpl.
  - intros HQ. exists o, [], a. by rewrite app_nil_r.
  - intros (drop&x&o'&Ho&Hk). destruct (IH x _ (tr0 ++ [Ev eff x]) _ Hk) as (o''&tr&a&Hr&HQ).
    exists o'', (Ev eff x :: tr), a. split; [|done]. rewrite <-app_assoc in Hr.
    destruct drop; [eapply rtc_l; [apply ps_drop_service|]|]; (eapply rtc_l; [by apply ps_main|exact Hr]).
Qed.

(** The next effect of [main], with its answer. *)
Ltac main_answers drop x :=
  simpl; exists drop; first [exists x|exists (Ok tt)]; eexists; split; [repeat split|].

(** The server stops, the service is dropped, and [main] returns: the pool was asked
    for, in vain. *)
Lemma drain_never_runs_witness :
  ∃ o tr, rtc process_step (no_clones, [], pool_main) (o, tr, Ret (Ok tt)) ∧
    service_clone o = false ∧ Some false ∈ unwrapped <$> tr ∧ existsb shuts_down tr = false.
Proof.
  destruct (owned_run_steps pool_main no_clones [] (λ o tr a,
    service_clone o = false ∧ Some false ∈ unwrapped <$> tr ∧ a = Ok tt)) as (o&tr&a&Hr&Hc&Hu&->).
  - unfold pool_main, main.
    main_answers false tt. main_answers false true. do 3 main_answers false (@Ok unit AnyError tt).
    do 3 main_answers false tt. main_answers false (@Ok unit AnyError tt).
    main_answers true pool_metrics_default. main_answers false tt.
    main_answers false (CB.new CB.BreakerConfig_default 0). main_answers false tt.
    main_answers false (cache_metrics (cache_new 0), 0). main_answers false tt.
    main_answers false (Authorizer.Build_AuthzMetrics 0 0 0). main_answers false tt.
    main_answers false false. simpl. split; [done|]. split; [|done]. do 17 right. left.
  - exists o, tr. split; [exact Hr|]. split; [exact Hc|]. split; [exact Hu|].
    refine (proj1 (drain_never_runs (λ _, Ok [x00]) (λ _, Ok "") (λ _, Ok {| Policy.workloads := [] |}) (λ _, Ok tt)
      (λ _, Ok tt) (λ _, None) None (λ _, "") (λ _, true) pool_env o tr (Ret (Ok tt)) _)). exact Hr.
Defined.
End MainWitness.
