(* ===== verification/Spike.v ===== *)
(** * The feasibility spike ([bin/spike.rs])

    A program of its own, with its own key lookup and templates: find or create
    the demo keys, sign, verify, refuse a tampered digest, then time signing.
    Measured times are only printed, and console output is not modelled, with one
    exception: dividing a duration by an iteration count panics on zero. *)
From S2P Require Import Prelude RustStd Deps Session Crypto Toy Provision TokenCheck.

Local Open Scope Z_scope.

Definition SPIKE_OID_DER : bytes := [x06; x08; x2a; x86; x48; xce; x3d; x03; x01; x07].
Definition KEY_LABEL : string := "demo-ec-p256".
Definition RSA_KEY_LABEL : string := "demo-rsa-2048".

Definition env_or (e : env) (key fallback : string) : string := default fallback (e key).

(** [{b:02x}] *)
Definition hex_digit (n : N) : Ascii.ascii :=
  Ascii.ascii_of_N (if (n <? 10)%N then 48 + n else 87 + n).

Definition hex_byte (b : byte) : string :=
  String (hex_digit (Byte.to_N b / 16)) (String (hex_digit (Byte.to_N b mod 16)) EmptyString).

Definition hex (bs : bytes) : string := foldr (λ b s, hex_byte b +:+ s) EmptyString bs.

(** How [main] ends other than well. *)
Inductive Exit := Failed (e : AnyError) | Panicked (m : string).

(** [tampered[0] ^= 0xFF] *)
Definition flip (b : byte) : byte :=
  default x00 (Byte.of_N (N.lxor (Byte.to_N b) 255)).

Definition tamper (digest : bytes) : option bytes :=
  match digest with b :: rest => Some (flip b :: rest) | [] => None end.

(** ** Templates *)

Definition spike_ec_public (label : string) : list Attribute :=
  [A_Token true; A_Private false; A_KeyType KT_EC; A_Verify true; A_EcParams SPIKE_OID_DER;
   A_Label (as_bytes label)].

Definition spike_ec_private (label : string) : list Attribute :=
  [A_Token true; A_Private true; A_Sensitive true; A_Extractable false; A_Sign true;
   A_Label (as_bytes label)].

Definition spike_rsa_public (label : string) : list Attribute :=
  [A_Token true; A_Private false; A_KeyType KT_RSA; A_Verify true; A_Encrypt true;
   A_ModulusBits 2048; A_PublicExponent [x01; x00; x01]; A_Label (as_bytes label)].

Definition spike_rsa_private (label : string) : list Attribute :=
  [A_Token true; A_Private true; A_Sensitive true; A_Extractable false; A_Sign true; A_Decrypt true;
   A_Label (as_bytes label)].

Section spike.
Context {CK : Cryptoki} {CL : CryptoLib}.

(** [?] without a context: [anyhow::Error::from]. *)
Definition bare {A} (c : stR World CkError A) : stR World AnyError A :=
  stR_map_err (λ e, mkAny [] (Some e)) c.

Definition find_one (x : Session) (class : ObjectClass) (label : string) :
    stR World AnyError (option ObjectHandle) :=
  stR_map head (with_context "C_FindObjects failed"
    (find_objects x [A_Class class; A_Label (as_bytes label)])).

Definition find_key_pair (x : Session) (label : string) :
    stR World AnyError (option (ObjectHandle * ObjectHandle)) :=
  (do private <- find_one x PRIVATE_KEY label;
   do public <- find_one x PUBLIC_KEY label;
   stR_lift (Ok match private, public with Some p, Some q => Some (p, q) | _, _ => None end))%rust.

Definition generate_ec_key_pair (x : Session) (label : string) :
    stR World AnyError (ObjectHandle * ObjectHandle) :=
  stR_map (λ '(public_key, private_key), (private_key, public_key))
    (with_context "C_GenerateKeyPair(CKM_EC_KEY_PAIR_GEN) failed"
       (generate_key_pair x M_EccKeyPairGen (spike_ec_public label) (spike_ec_private label))).

Definition generate_rsa_key_pair (x : Session) (label : string) :
    stR World AnyError (ObjectHandle * ObjectHandle) :=
  stR_map (λ '(public_key, private_key), (private_key, public_key))
    (with_context "C_GenerateKeyPair(CKM_RSA_PKCS_KEY_PAIR_GEN) failed"
       (generate_key_pair x M_RsaPkcsKeyPairGen (spike_rsa_public label) (spike_rsa_private label))).

Definition key_pair_or_generate (x : Session) (label : string)
    (generate : stR World AnyError (ObjectHandle * ObjectHandle)) :
    stR World AnyError (ObjectHandle * ObjectHandle) :=
  (do found <- find_key_pair x label;
   match found with Some found_pair => stR_lift (Ok found_pair) | None => generate end)%rust.

Fixpoint repeat_op (n : nat) (op : stR World AnyError unit) : stR World AnyError unit :=
  match n with
  | O => stR_lift (Ok tt)
  | S n => (do _ <- op; repeat_op n op)%rust
  end.

Definition sign_once (x : Session) (m : Mechanism) (key : ObjectHandle) (data : bytes) :
    stR World AnyError unit := stR_map (λ _, tt) (bare (sign x m key data)).

(** [elapsed / n as u32] *)
Definition duration_div (n : Z) : result unit Exit :=
  if wrap_u32 n =? 0 then Err (Panicked "divide by zero error when dividing duration by scalar")
  else Ok tt.

Definition failing {A} (m : stR World AnyError A) : stR World Exit A := stR_map_err Failed m.

(** Steps 4 to 7: a key, a signature, its verification, the tampered digest. *)
Definition message : bytes := as_bytes "gRPC-low-latency M0 spike".

Definition round_trip (x : Session) : stR World Exit ObjectHandle :=
  (do pair <- failing (key_pair_or_generate x KEY_LABEL (generate_ec_key_pair x KEY_LABEL));
   let digest := sha256 message in
   do signature <- failing (with_context "C_Sign(CKM_ECDSA) failed"
                              (sign x M_Ecdsa (fst pair) digest));
   do _ <- failing (with_context "C_Verify(CKM_ECDSA) failed -- signature did not round-trip"
                      (verify x M_Ecdsa (snd pair) digest signature));
   do tampered <- stR_lift (ok_or (tamper digest) (Panicked "index out of bounds"));
   λ w, match verify x M_Ecdsa (snd pair) tampered signature w with
        | (Err _, w') => (Ok (fst pair), w')
        | (Ok _, w') => (Err (Failed (anyhow "SECURITY: tampered digest verified successfully")), w')
        end)%rust.

(** Steps 8 to 10: signing with the handle, signing after a search each time, and
    RSA for contrast. *)
Definition pricing (x : Session) (iterations : Z) (private_key : ObjectHandle) : stR World Exit unit :=
  if 0 <? iterations then
    (let digest := sha256 message in
     let n := Z.to_nat iterations in
     let rsa_iterations := Z.max (iterations / 10) 1 in
     do _ <- failing (repeat_op 100 (sign_once x M_Ecdsa private_key digest));
     do _ <- failing (repeat_op n (sign_once x M_Ecdsa private_key digest));
     do _ <- stR_lift (duration_div iterations);
     do _ <- failing (repeat_op n
               (do found <- find_one x PRIVATE_KEY KEY_LABEL;
                do handle <- stR_lift (ok_or found (anyhow "key vanished mid-loop"));
                sign_once x M_Ecdsa handle digest));
     do _ <- stR_lift (duration_div iterations);
     do rsa <- failing (key_pair_or_generate x RSA_KEY_LABEL (generate_rsa_key_pair x RSA_KEY_LABEL));
     do _ <- failing (repeat_op 10 (sign_once x M_Sha256RsaPkcs (fst rsa) message));
     do _ <- failing (repeat_op (Z.to_nat rsa_iterations)
                        (sign_once x M_Sha256RsaPkcs (fst rsa) message));
     stR_lift (duration_div rsa_iterations))%rust
  else stR_lift (Ok tt).

(** The rest of [main] on a logged-in session. *)
Definition spike_session (x : Session) (iterations : Z) : stR World Exit unit :=
  (do private_key <- round_trip x;
   do _ <- pricing x iterations private_key;
   failing (with_context "C_Logout failed" (logout x)))%rust.

Definition closing (x : Session) (m : stR World Exit unit) : stR World Exit unit :=
  λ w, let '(r, w') := m w in (r, close x w').

Definition finalizing (ctx : Context) (m : stR World Exit unit) : stR World Exit unit :=
  λ w, let '(r, w') := m w in (r, finalize ctx w').

Definition spike_main (e : env) : stR World Exit unit :=
  let module := env_or e "PKCS11_MODULE" "/usr/lib/softhsm/libsofthsm2.so" in
  let token_label := env_or e "TOKEN_LABEL" "grpc-low-latency" in
  let user_pin := env_or e "USER_PIN" "1234" in
  let iterations := default 2000 (parse_uint 64 (env_or e "SPIKE_ITERATIONS" "2000")) in
  (do ctx <- failing (with_context ("dlopen/load failed: " +:+ module) (load module));
   finalizing ctx
     (do _ <- failing (with_context "C_Initialize(CKF_OS_LOCKING_OK) failed" (initialize ctx));
      do _ <- failing (with_context "C_GetInfo failed" (get_library_info ctx));
      do slots <- failing (with_context "C_GetSlotList failed" (slots_with_token ctx));
      do slot <- (λ w, let '(found, w') := find_slot ctx token_label slots w in
                       (ok_or found (Failed (anyhow ("no slot holds a token labelled '" +:+
                                                      token_label +:+ "'"))), w'));
      do x <- failing (with_context "C_OpenSession failed" (open_rw_session ctx slot));
      closing x
        (do _ <- failing (with_context "C_Login(CKU_USER) failed -- wrong PIN?" (login x user_pin));
         spike_session x iterations)))%rust.
End spike.

(** ** Properties *)

(** The lookups are the library's. *)
Lemma find_key_pair_is_library {CK : Cryptoki} x label (w : World) :
  find_key_pair x label w = find_object_pair x label w.
Proof. reflexivity. Qed.

(** The two ways to create the demo keys have not drifted: the spike asks the token
    for the attributes that provisioning asks for. *)
Theorem spike_templates_match_provisioning label :
  spike_ec_public label ≡ₚ ec_public_template label ∧
  spike_ec_private label ≡ₚ private_key_base label ∧
  spike_rsa_public label ≡ₚ rsa_public_template label ∧
  spike_rsa_private label ≡ₚ rsa_private_template label.
Proof.
  unfold spike_ec_public, spike_ec_private, spike_rsa_public, spike_rsa_private, ec_public_template,
    rsa_public_template, rsa_private_template, public_key_base, private_key_base, SPIKE_OID_DER,
    SECP256R1_OID_DER.
  split_and!; simpl; solve_Permutation.
Qed.

(** Reading hexadecimal back. *)
Definition unhex_digit (a : Ascii.ascii) : option N :=
  let n := Ascii.N_of_ascii a in
  if ((48 <=? n) && (n <=? 57))%N then Some (n - 48)%N
  else if ((97 <=? n) && (n <=? 102))%N then Some (n - 87)%N else None.

Fixpoint unhex (s : string) : option bytes :=
  match s with
  | EmptyString => Some []
  | String a (String b rest) =>
      hi ← unhex_digit a; lo ← unhex_digit b; x ← Byte.of_N (16 * hi + lo); (x ::.) <$> unhex rest
  | _ => None
  end.

(** What is printed can be read back. *)
Theorem hex_round_trip bs : unhex (hex bs) = Some bs.
Proof.
  induction bs as [|b bs IH]; [reflexivity|]. cbn [hex foldr]. fold (hex bs).
  transitivity ((b ::.) <$> unhex (hex bs)); [|by rewrite IH]. by destruct b.
Qed.

(** A count whose low 32 bits are zero ends the measurement in a panic, however
    fast the token is. *)
Lemma duration_div_panics n : is_ok (duration_div n) = false ↔ n mod 2 ^ 32 = 0.
Proof.
  unfold duration_div, wrap_u32. destruct (Z.eqb_spec (n mod 2 ^ 32) 0); simpl; intuition congruence.
Qed.

(** The whole program on an empty token. *)
Example spike_runs :
  (spike_main (CK := Toy.toy_token)
     (λ k, if String.eqb k "PKCS11_MODULE" then Some "toy.so"
           else if String.eqb k "SPIKE_ITERATIONS" then Some "3" else None)
     (Toy.mkWorld [] false [] 0 [] None 0)).1 = Ok tt.
Proof. vm_compute. reflexivity. Qed.
