(* ===== verification/Ceiling.v ===== *)
(** * Measuring the token's ceiling ([bin/hsm-ceiling.rs])

    One measured point runs N probe threads that open a session each, meet at a
    barrier, and sign in a loop until they are told to stop.  Threads, barrier and
    stop flag are a transition system; the other functions are sequential.
    Console output is not modelled. *)
From S2P Require Import Prelude RustStd Deps Session Crypto Toy Worker Provision Spike.

Local Open Scope Z_scope.

Definition ECDSA_SHA256_MECHANISM : Z := 1.

(** [Duration::as_secs_f64] *)
Definition as_secs_f64 (d : Z) : f64 :=
  f64_add (f64_of_u64 (d / 1000000000))
    (f64_div (f64_of_u64 (d mod 1000000000)) (f64_of_u64 1000000000)).

(** [str::split_whitespace].  Each round removes a byte, so the length is enough
    fuel. *)
Fixpoint split_words (fuel : nat) (word : bytes) (l : bytes) : list bytes :=
  match fuel, l with
  | O, _ | _, [] => if decide (word = []) then [] else [word]
  | S n, b :: rest =>
      match strip_any whitespace l with
      | Some l' => (if decide (word = []) then [] else [word]) ++ split_words n [] l'
      | None => split_words n (word ++ [b]) rest
      end
  end.

Definition split_whitespace (s : string) : list string :=
  let l := as_bytes s in String.string_of_list_byte <$> split_words (S (length l)) [] l.

Definition ceiling_duration (e : env) : Z :=
  from_millis (default 3000 (e "CEILING_MS" ≫= parse_uint 64)).

Definition thread_counts (e : env) : list Z :=
  omap (parse_uint 64) (split_whitespace (default "1 2 4 6 8 12 16" (e "CEILING_THREADS"))).

Section ceiling.
Context {CK : Cryptoki} {CL : CryptoLib}.

(** Logged in already: a plain session shares the login of the application. *)
Definition open_session (ctx : Context) (slot : Slot) (config : TokenConfig) :
    stR World AnyError Session :=
  λ w, match login_session ctx slot config w with
       | (Ok x, w') => (Ok x, w')
       | (Err _, w') => bare (open_rw_session ctx slot) w'
       end.

(** ** One measured point *)

Definition is_rsa (label : string) : bool := contains "rsa" label.

Definition probe_data (label : string) : bytes :=
  if is_rsa label then as_bytes "ceiling probe" else sha256 (as_bytes "ceiling probe").

Definition probe_mechanism (label : string) : Mechanism :=
  if is_rsa label then M_Sha256RsaPkcs else M_Ecdsa.

(** A thread up to the barrier; its session is closed if it fails. *)
Definition probe_setup (ctx : Context) (slot : Slot) (config : TokenConfig) (label : string) :
    stR World AnyError (Session * ObjectHandle) :=
  (do x <- open_session ctx slot config;
   λ w, match (do found <- find_object x PRIVATE_KEY label;
               stR_lift (ok_or found (anyhow ("key '" +:+ label +:+ "' not found")))) w with
        | (Ok key, w') => (Ok (x, key), w')
        | (Err e, w') => (Err e, close x w')
        end)%rust.

(** Where a thread is: before the barrier, at it, about to read the flag, about to
    sign, or done. *)
Inductive Probe :=
| Starting
| AtBarrier (x : Session) (key : ObjectHandle)
| LoopHead (x : Session) (key : ObjectHandle) (count : Z)
| InSign (x : Session) (key : ObjectHandle) (count : Z)
| Ended (r : result Z AnyError).

(** Where [run_point] is: at the barrier, asleep, joining, or back. *)
Inductive Runner := RBarrier | RAsleep | RJoining (elapsed : Z) | RReturned (r : result f64 AnyError).

Record Point := mkPoint {
  point_world : World;
  probes : list Probe;
  stop : bool;
  runner : Runner;
  (** history: signatures made *)
  signed : Z
}.

(** [run_point] up to its own [barrier.wait()]. *)
Definition point_start (threads : nat) (w : World) : Point :=
  mkPoint w (replicate threads Starting) false RBarrier 0.

Definition at_barrier (p : Probe) : bool := match p with AtBarrier _ _ => true | _ => false end.

Definition enter_loop (p : Probe) : Probe :=
  match p with AtBarrier x key => LoopHead x key 0 | other => other end.

(** Joining in order: the first error ends it. *)
Fixpoint join_all (total : Z) (ps : list Probe) : option (result Z AnyError) :=
  match ps with
  | [] => Some (Ok total)
  | Ended (Ok n) :: ps => join_all (fetch_add total n) ps
  | Ended (Err e) :: _ => Some (Err e)
  | _ => None
  end.

Section point.
Context (ctx : Context) (slot : Slot) (config : TokenConfig) (label : string).

Inductive point_step : Point → Point → Prop :=
| ps_setup w ps s r n i w' o :
    ps !! i = Some Starting → probe_setup ctx slot config label w = (o, w') →
    point_step (mkPoint w ps s r n)
      (mkPoint w' (<[i := match o with Ok (x, key) => AtBarrier x key | Err e => Ended (Err e) end]> ps)
         s r n)
(** the barrier of [threads + 1] opens when all have arrived *)
| ps_barrier w ps s n :
    forallb at_barrier ps = true →
    point_step (mkPoint w ps s RBarrier n) (mkPoint w (enter_loop <$> ps) s RAsleep n)
(** [while !stop.load(..)] *)
| ps_check w ps s r n i x key count :
    ps !! i = Some (LoopHead x key count) →
    point_step (mkPoint w ps s r n)
      (if s then mkPoint (close x w) (<[i := Ended (Ok count)]> ps) s r n
       else mkPoint w (<[i := InSign x key count]> ps) s r n)
| ps_sign w ps s r n i x key count sg w' :
    ps !! i = Some (InSign x key count) →
    sign x (probe_mechanism label) key (probe_data label) w = (Ok sg, w') →
    point_step (mkPoint w ps s r n)
      (mkPoint w' (<[i := LoopHead x key (wrap_u64 (count + 1))]> ps) s r (n + 1))
| ps_sign_fails w ps s r n i x key count e w' :
    ps !! i = Some (InSign x key count) →
    sign x (probe_mechanism label) key (probe_data label) w = (Err e, w') →
    point_step (mkPoint w ps s r n)
      (mkPoint (close x w') (<[i := Ended (Err (mkAny [] (Some e)))]> ps) s r n)
| ps_stop w ps n elapsed :
    point_step (mkPoint w ps false RAsleep n) (mkPoint w ps true (RJoining elapsed) n)
| ps_join w ps n elapsed o :
    join_all 0 ps = Some o →
    point_step (mkPoint w ps true (RJoining elapsed) n)
      (mkPoint w ps true (RReturned (result_map (λ total, f64_div (f64_of_u64 total) (as_secs_f64 elapsed)) o)) n).

Definition point_reachable (threads : nat) (w : World) (p : Point) : Prop :=
  rtc point_step (point_start threads w) p.
End point.

(** ** Comparing verification in process and on the token *)

Definition VERIFY_KEY : string := "demo-ec-p256".
Definition VERIFY_ITERATIONS : nat := 3000.

Fixpoint repeat_exit (n : nat) (op : stR World Exit unit) : stR World Exit unit :=
  match n with
  | O => stR_lift (Ok tt)
  | S n => (do _ <- op; repeat_exit n op)%rust
  end.

(** [assert!(verify_public(..)?)] *)
Definition assert_verified (r : result bool AnyError) : result unit Exit :=
  match r with
  | Ok true => Ok tt
  | Ok false => Err (Panicked "assertion failed")
  | Err e => Err (Failed e)
  end.

Definition require {A} (o : option A) (m : string) : stR World Exit A :=
  stR_lift (ok_or o (Failed (anyhow m))).

Definition verify_cost_session (x : Session) : stR World Exit unit :=
  (do private <- failing (find_object x PRIVATE_KEY VERIFY_KEY);
   do private <- require private "demo-ec-p256 not found";
   do public <- failing (find_object x PUBLIC_KEY VERIFY_KEY);
   do public <- require public "demo-ec-p256 public key not found";
   let message := as_bytes "verify cost probe" in
   let digest := sha256 message in
   do signature <- failing (bare (sign x M_Ecdsa private digest));
   do key <- failing (Crypto.public_key_to_spki_der x public);
   let spki := fst key in
   do _ <- repeat_exit VERIFY_ITERATIONS (failing (bare (verify x M_Ecdsa public digest signature)));
   do _ <- repeat_exit VERIFY_ITERATIONS
             (stR_lift (assert_verified
                (Crypto.verify_public spki ECDSA_SHA256_MECHANISM (Crypto.Digest digest) signature)));
   do _ <- repeat_exit VERIFY_ITERATIONS (failing (sign_once x M_Ecdsa private digest));
   do point <- stR_lift (map_err Failed (Crypto.sec1_point_from_spki spki));
   do ring_sig <- failing (bare (sign x M_Ecdsa private (sha256 message)));
   do _ <- stR_lift (if ring_verify point message ring_sig then Ok tt
                     else Err (Failed (anyhow "ring rejected a signature the token produced")));
   repeat_exit VERIFY_ITERATIONS
     (stR_lift (if ring_verify point message ring_sig then Ok tt
                else Err (Failed (anyhow "ring verification failed")))))%rust.

Definition verify_cost (ctx : Context) (slot : Slot) (config : TokenConfig) : stR World Exit unit :=
  (do x <- failing (open_session ctx slot config); closing x (verify_cost_session x))%rust.

(** ** [main]

    [run_point] is the outcome of one measured point. *)
Section main.
Context (run_point : Context → Slot → TokenConfig → string → Z → Z → stR World AnyError f64).

Fixpoint measure (ctx : Context) (slot : Slot) (config : TokenConfig) (duration : Z)
    (points : list (string * Z)) : stR World AnyError (list f64) :=
  match points with
  | [] => stR_lift (Ok [])
  | (label, threads) :: rest =>
      (do rate <- run_point ctx slot config label threads duration;
       do rates <- measure ctx slot config duration rest;
       stR_lift (Ok (rate :: rates)))%rust
  end.

Definition ceiling_main (e : env) : stR World Exit unit :=
  (do config <- stR_lift (map_err Failed (token_config_from_env e));
   do cs <- failing (load_module config);
   finalizing (fst cs)
     (do _ <- failing (measure (fst cs) (snd cs) config (ceiling_duration e)
                (label ← ["demo-ec-p256"; "demo-rsa-2048"]; (label,.) <$> thread_counts e));
      verify_cost (fst cs) (snd cs) config))%rust.
End main.

(** ** Properties *)

Section properties.
Context (ctx : Context) (slot : Slot) (config : TokenConfig) (label : string).

Abbreviation pstep := (point_step ctx slot config label).

(** A thread that ends before the barrier never arrives at it. *)
Definition stuck (p : Point) : Prop :=
  runner p = RBarrier ∧ ∃ i r, probes p !! i = Some (Ended r).

Lemma lookup_insert_other {A} (l : list A) i j x y :
  l !! i = Some x → l !! j = Some y → x ≠ y → ∀ z, <[j := z]> l !! i = Some x.
Proof. intros Hi Hj Hne z. rewrite list_lookup_insert_ne; [done|]. intros ->. congruence. Qed.

Lemma stuck_step p p' : pstep p p' → stuck p → stuck p'.
Proof.
  intros Hs [Hr (i&r&Hi)]. destruct Hs as [| ? ? ? ? Hall|? ? []| | | |]; simpl in *; try discriminate Hr.
  all: try (split; [done|]; exists i, r; by eapply lookup_insert_other).
  exfalso. assert (In (Ended r) ps) as Hin by (by eapply list_elem_of_In, list_elem_of_lookup_2).
  by apply (proj1 (forallb_forall _ _) Hall) in Hin.
Qed.

(** C40: A failed probe hangs the measurement.  If a thread fails before the barrier,
    because no session can be opened or the key is missing, [run_point] waits at the
    barrier for ever: whatever happens from then on, it neither measures nor
    reports the error. *)
Theorem failed_probe_hangs_run_point p p' i e :
  runner p = RBarrier → probes p !! i = Some (Ended (Err e)) →
  rtc (point_step ctx slot config label) p p' → runner p' = RBarrier.
Proof.
  intros Hr Hi Hs. assert (stuck p) as Hst by (split; eauto).
  enough (stuck p') as [? _] by done. clear Hr Hi. induction Hs; eauto using stuck_step.
Qed.

(** *** What a finished point counted *)

Definition count_of_probe (p : Probe) : Z :=
  match p with LoopHead _ _ c | InSign _ _ c | Ended (Ok c) => c | _ => 0 end.

Definition total_count (ps : list Probe) : Z := foldr (λ p acc, count_of_probe p + acc) 0 ps.

Definition failed_probe (p : Probe) : Prop := match p with Ended (Err _) => True | _ => False end.

Definition ended_ok (p : Probe) : Prop := match p with Ended (Ok _) => True | _ => False end.

(** Unless a thread failed, the counts are the signatures, modulo [2 ^ 64]. *)
Record point_ok (p : Point) : Prop := {
  po_counts : Exists failed_probe (probes p) ∨ wrap_u64 (total_count (probes p)) = wrap_u64 (signed p);
  po_returned rate : runner p = RReturned (Ok rate) →
    Forall ended_ok (probes p) ∧
    ∃ elapsed, rate = f64_div (f64_of_u64 (wrap_u64 (signed p))) (as_secs_f64 elapsed)
}.

Lemma total_count_insert ps i p p' :
  ps !! i = Some p → total_count (<[i := p']> ps) = total_count ps - count_of_probe p + count_of_probe p'.
Proof.
  revert i. induction ps as [|q ps IH]; intros [|i] Hi; simplify_eq/=; [lia|]. rewrite (IH i) by done. lia.
Qed.

Lemma failed_insert ps i p p' :
  ps !! i = Some p → ¬ failed_probe p → Exists failed_probe ps → Exists failed_probe (<[i := p']> ps).
Proof.
  intros Hi Hp (q&[j Hj]%list_elem_of_lookup&Hq)%Exists_exists. apply Exists_exists. exists q.
  split; [|done]. eapply (list_elem_of_lookup_2 _ j), lookup_insert_other; [done|done|]. by intros ->.
Qed.

Lemma join_all_ok total ps n :
  in_u 64 total → join_all total ps = Some (Ok n) →
  Forall ended_ok ps ∧ n = wrap_u64 (total + total_count ps).
Proof.
  revert total. induction ps as [|p ps IH]; intros total Ht; simpl.
  - intros [= <-]. split; [constructor|]. rewrite Z.add_0_r. symmetry. by apply Z.mod_small.
  - destruct p as [| | | |[c|e]]; try done. intros [Hf ->]%IH; [|apply fetch_add_range].
    split; [by constructor|]. unfold fetch_add. by rewrite wrap_add_l, Z.add_assoc.
Qed.

Lemma ended_not_failed ps : Forall ended_ok ps → ¬ Exists failed_probe ps.
Proof.
  intros Hf (p&Hin&Hp)%Exists_exists. rewrite Forall_forall in Hf. specialize (Hf p Hin).
  by destruct p as [| | | |[]].
Qed.

(** A thread moves on. *)
Lemma point_ok_move w ps s r n w' i p p' n' :
  point_ok (mkPoint w ps s r n) → ps !! i = Some p → ¬ failed_probe p → ¬ ended_ok p →
  failed_probe p' ∨ wrap_u64 (count_of_probe p' - count_of_probe p) = wrap_u64 (n' - n) →
  point_ok (mkPoint w' (<[i := p']> ps) s r n').
Proof.
  intros [Hc Hret] Hi Hnf Hne Hp. split; simpl in *.
  - destruct Hp as [Hp|Hp].
    { left. apply Exists_exists. exists p'. split; [|done]. apply (list_elem_of_lookup_2 _ i).
      apply list_lookup_insert_eq. by eapply lookup_lt_Some. }
    destruct Hc as [Hc|Hc]; [left; by eapply failed_insert|right].
    rewrite (total_count_insert _ _ _ _ Hi).
    replace (total_count ps - count_of_probe p + count_of_probe p')
      with (total_count ps + (count_of_probe p' - count_of_probe p)) by lia.
    replace n' with (n + (n' - n)) by lia.
    unfold wrap_u64 in *. rewrite Z.add_mod, Hc, Hp, <-Z.add_mod by lia. done.
  - intros rate Hr. destruct (Hret rate Hr) as [Hf _]. rewrite Forall_forall in Hf.
    destruct Hne. apply Hf. by eapply list_elem_of_lookup_2.
Qed.

Lemma point_ok_step p p' : pstep p p' → point_ok p → point_ok p'.
Proof.
  intros Hs Hp. destruct Hs as [w ps s r n i w' o Hi Ho|w ps s n Hall|w ps s r n i x key count Hi
    |w ps s r n i x key count sg w' Hi Hsg|w ps s r n i x key count e w' Hi He|w ps n el|w ps n el o Hj].
  - eapply point_ok_move; [done|done|by intros []..|]. destruct o as [[x key]|e]; [right|by left].
    f_equal. simpl. lia.
  - destruct Hp as [Hc Hret]. split; simpl in *; [|done].
    assert (total_count (enter_loop <$> ps) = total_count ps) as ->.
    { clear. induction ps as [|p ps IH]; [done|]. rewrite fmap_cons.
      change (count_of_probe (enter_loop p) + total_count (enter_loop <$> ps) =
              count_of_probe p + total_count ps). rewrite IH. by destruct p. }
    destruct Hc as [Hc|?]; [left|by right]. apply Exists_exists in Hc as (q&Hin&Hq).
    apply Exists_exists. exists q. split; [|done]. apply list_elem_of_fmap. exists q.
    by destruct q as [| | | |[]].
  - destruct s; (eapply point_ok_move; [done|done|by intros []..|right; f_equal; simpl; lia]).
  - eapply point_ok_move; [done|done|by intros []..|]. right. simpl.
    unfold wrap_u64. rewrite Zminus_mod_idemp_l. f_equal. lia.
  - eapply point_ok_move; [done|done|by intros []..|]. by left.
  - destruct Hp as [Hc _]. by split.
  - destruct Hp as [Hc _]. split; [done|]. simpl in *. intros rate [= Hr].
    destruct o as [total|e]; simplify_eq/=.
    apply join_all_ok in Hj as [Hf ->]; [|unfold in_u; lia]. split; [done|]. exists el.
    destruct Hc as [Hc|Hc]; [by destruct (ended_not_failed ps Hf)|]. by rewrite Z.add_0_l, Hc.
Qed.

(** A measured rate counts the signatures.  If [run_point] returns a rate, no thread
    failed, and the rate is the number of signatures that the threads made, as a
    [u64], over the measured time, however they were scheduled. *)
Theorem run_point_counts_signatures threads w p rate :
  point_reachable ctx slot config label threads w p → runner p = RReturned (Ok rate) →
  ∃ elapsed, rate = f64_div (f64_of_u64 (wrap_u64 (signed p))) (as_secs_f64 elapsed).
Proof.
  intros Hr Hret. assert (point_ok p) as [_ Hp].
  { unfold point_reachable in Hr.
    assert (point_ok (point_start threads w)) as H0.
    { split; [|done]. right. simpl. f_equal. clear. induction threads as [|n IH]; [done|exact IH]. }
    revert H0. clear Hret. induction Hr; eauto using point_ok_step. }
  by destruct (Hp rate Hret).
Qed.
End properties.
End ceiling.

(** ** Witnesses on the toy token *)

Module CeilingWitness.
Import Toy.

Definition demo_point : Point (CK := toy_token) := point_start 2 demo_world.

(** The second of two threads asks for a key that is not there. *)
Definition after_failure : Point (CK := toy_token) :=
  mkPoint (probe_setup (CK := toy_token) tt 0%nat demo_config "missing" demo_world).2
    [Ended (Err (anyhow "key 'missing' not found")); Starting] false RBarrier 0.

Lemma failed_probe_hangs_run_point_witness :
  point_step (CK := toy_token) tt 0%nat demo_config "missing" demo_point after_failure ∧
  ∀ p', rtc (point_step tt 0%nat demo_config "missing") after_failure p' → runner p' = RBarrier.
Proof.
  split.
  - apply (ps_setup (CK := toy_token) tt 0%nat demo_config "missing" demo_world [Starting; Starting] false RBarrier 0 0%nat _
      (Err (anyhow "key 'missing' not found"))); [reflexivity|].
    vm_compute. reflexivity.
  - intros p'. apply (failed_probe_hangs_run_point (CK := toy_token) tt 0%nat demo_config "missing"
      after_failure p' 0%nat (anyhow "key 'missing' not found")); reflexivity.
Defined.

(** Verification on the token and in process agree on the demo key. *)
Definition ec_world : TWorld := mkWorld (key_pair VERIFY_KEY) false [] 0 [] None 0.

Example verify_cost_runs : (verify_cost (CK := toy_token) tt 0%nat demo_config ec_world).1 = Ok tt.
Proof. vm_compute. reflexivity. Qed.

Example default_thread_counts : thread_counts (λ _, None) = [1; 2; 4; 6; 8; 12; 16].
Proof. vm_compute. reflexivity. Qed.
End CeilingWitness.
