(* ===== verification/System.v ===== *)
(** * The service as a whole

    Many requests at once, over one authorizer and one pool.  A handler runs its
    program ([Pooled.rpc]) effect by effect; [authorize] acts on the shared
    authorizer, [submit] puts a job into the shared pool and suspends the handler
    until the pool returns that call; workers, timeouts and cancelled calls go on
    in between.  The breaker, the limiter, the key cache and the clock may answer
    anything: what is proved here needs nothing of them. *)
From S2P Require Import Prelude RustStd Deps Effects Policy Identity Authorizer Session Crypto Toy.
From S2P Require Import Worker Pool Cache Wire Pooled.

(** ** Runs that are under way *)

Section partial.
Context {E : Type → Type}.

(** [p], after the events [tr], has become [p']. *)
Inductive runs_to {A} : prog E A → list (event E) → prog E A → Prop :=
| rt_nil p : runs_to p [] p
| rt_snoc p tr X (e : E X) k x : runs_to p tr (Vis e k) → runs_to p (tr ++ [Ev e x]) (k x).

Lemma all_runs_to {A} G (p p' : prog E A) tr Q :
  runs_to p tr p' → Forall G tr → all_runs G p Q → all_runs G p' (λ tr' a, Q (tr ++ tr') a).
Proof.
  intros Hr HG Hall. induction Hr as [|p tr X e k x _ IH]; [done|].
  apply Forall_app in HG as [HG [Hx _]%Forall_cons].
  eapply all_runs_mono; [|exact (IH HG Hall x Hx)]. cbv beta. intros tr' a. by rewrite <-app_assoc.
Qed.

End partial.

Lemma cacheE_answerable X (e : cacheE X) : inhabited X.
Proof. destruct e; repeat constructor; exact (Err Timeout). Qed.

Lemma svcE_answerable X (e : svcE X) : inhabited X.
Proof. destruct e; try (by repeat constructor); by eapply cacheE_answerable. Qed.

(** ** The system *)

Section system.
Context {CK : Cryptoki} {CL : CryptoLib} {CH : Pool.Channel} {CHO : Pool.ChannelOk CH}.
Context (from_der : bytes → option Identity.X509Certificate).
Context (show : CkError → string) (description : Code → string) (svc : PooledService).

Abbreviation handler_prog := (prog svcE (result AnyResponse Status)).

(** A handler is about to act, or awaits the return of a call to the pool. *)
Inductive Activity :=
| Running (p : handler_prog)
| Awaiting (id : nat) (job : JobRequest) (k : result JobResponse PoolError → handler_prog).

(** The request it serves, and what it did so far. *)
Record Handler := mkHandler {
  h_request : AnyRequest; h_trace : list (event svcE); h_activity : Activity }.

Record System := mkSystem {
  sys_authorizer : Authorizer.Authorizer;
  sys_pool : Pool.Pool;
  handlers : list Handler
}.

(** The effects of the other components. *)
Definition elsewhere {X} (e : svcE X) : bool :=
  match e with Authorize _ _ _ | Submit _ => false | _ => true end.

Inductive system_step : System → System → Prop :=
(** a request arrives *)
| sys_accept a p hs q :
    system_step (mkSystem a p hs)
      (mkSystem a p (hs ++ [mkHandler q [] (Running (rpc show description svc q))]))
| sys_authorize a p hs i q tr certs key op k :
    hs !! i = Some (mkHandler q tr (Running (Vis (Authorize certs key op) k))) →
    system_step (mkSystem a p hs)
      (let '(r, a') := Authorizer.authorize from_der certs key op a in
       mkSystem a' p (<[i := mkHandler q (tr ++ [Ev (Authorize certs key op) r]) (Running (k r))]> hs))
(** [pool.submit(job)], and its return *)
| sys_submit a p hs i q tr job k :
    hs !! i = Some (mkHandler q tr (Running (Vis (Submit job) k))) → Pool.tx_open p = true →
    system_step (mkSystem a p hs)
      (mkSystem a (Pool.submit job p)
         (<[i := mkHandler q tr (Awaiting (Pool.next_call p) job k)]> hs))
| sys_return a p hs i q tr id job k o :
    hs !! i = Some (mkHandler q tr (Awaiting id job k)) → (id, o) ∈ Pool.returned p →
    system_step (mkSystem a p hs)
      (mkSystem a p (<[i := mkHandler q (tr ++ [Ev (Submit job) o]) (Running (k o))]> hs))
| sys_elsewhere a p hs i q tr X (e : svcE X) k x :
    hs !! i = Some (mkHandler q tr (Running (Vis e k))) → elsewhere e = true →
    system_step (mkSystem a p hs)
      (mkSystem a p (<[i := mkHandler q (tr ++ [Ev e x]) (Running (k x))]> hs))
(** the pool on its own: workers, timeouts, cancelled calls, shutdown, time *)
| sys_pool_step a p hs act :
    (∀ req, act ≠ Pool.ASubmit req) → Pool.enabled act p = true →
    system_step (mkSystem a p hs) (mkSystem a (Pool.apply act p) hs).

(** A pool as it was started, and the authorizer of a policy. *)
Definition system_start (policy : Policy.Policy) (s : System) : Prop :=
  sys_authorizer s = Authorizer.new policy ∧ Pool.started (sys_pool s) ∧ handlers s = [].

Definition system_reachable (policy : Policy.Policy) (s : System) : Prop :=
  ∃ s0, system_start policy s0 ∧ rtc system_step s0 s.

(** ** No job without permission *)

(** The policy allows the caller of [q], by its certificate, what it asks for. *)
Definition permitted (policy : Policy.Policy) (q : AnyRequest) : Prop :=
  ∃ identity, Identity.identity_of from_der (request_certs q) = Ok identity ∧
    Policy.is_allowed policy identity (request_key q) (request_op q) = true.

(** The remaining program of a handler. *)
Definition remaining (x : Activity) : handler_prog :=
  match x with Running p => p | Awaiting _ job k => Vis (Submit job) k end.

(** What the authorizer said in a trace is the policy's verdict. *)
Definition truthful (policy : Policy.Policy) (e : event svcE) : Prop :=
  match e with
  | Ev e' x =>
      match e' in svcE X return X → Prop with
      | Authorize certs key op => λ r, r = Authorizer.verdict from_der policy certs key op
      | _ => λ _, True
      end x
  end.

Record handler_ok (policy : Policy.Policy) (h : Handler) : Prop := {
  ho_runs : runs_to (rpc show description svc (h_request h)) (h_trace h) (remaining (h_activity h));
  ho_truthful : Forall (truthful policy) (h_trace h)
}.

(** A trace up to the first use of the pool. *)
Lemma touch_after_prefix (tr tr' pre post : list (event svcE)) e :
  tr ++ e :: tr' = pre ++ post → touches e = true → Forall (λ e, touches e = false) pre →
  pre `prefix_of` tr ∧ e ∈ post.
Proof.
  intros Heq He Hpre. destruct (app_eq_inv _ _ _ _ Heq) as [(k&->&Hk)|(k&->&Hk)].
  - split; [by eexists|]. rewrite Hk. apply elem_of_app. right. left.
  - destruct k as [|e' k]; simplify_eq/=.
    + rewrite app_nil_r. split; [done|]. left.
    + rewrite Forall_app, Forall_cons in Hpre. destruct Hpre as (_&?&_). congruence.
Qed.

(** A handler that is about to submit a job was let through, and the job is one
    that its request may become. *)
Lemma submitting_handler policy h job k :
  has_authorizer svc = true → handler_ok policy h → remaining (h_activity h) = Vis (Submit job) k →
  permitted policy (h_request h) ∧ serves (h_request h) job = true.
Proof.
  intros Hauth [Hr Ht] Hrem. rewrite Hrem in Hr. set (q := h_request h) in *.
  assert (Forall any (h_trace h)) as Hany by by apply Forall_true.
  pose proof (all_runs_to any _ _ _ _ Hr Hany
    (all_runs_and _ _ _ _ (admission_prefix show description svc q) (rpc_submits show description svc q))) as Hall.
  destruct (svcE_answerable _ (Submit job)) as [o]. specialize (Hall o I).
  pose proof (some_run_exists (k o) svcE_answerable) as Hsome.
  destruct (some_run_elim _ _ (all_some _ _ _ Hall Hsome)) as (tr'&a&((pre&post&Heq&Hpre&Hcase)&Hsub)&_).
  destruct (touch_after_prefix _ _ _ _ _ Heq eq_refl Hpre) as [[rest Hprefix] Hin]. split.
  - destruct Hcase as [[_ Hpass]|Hpost].
    + destruct (Hpass Hauth) as (identity&Hid).
      assert (Ev (Authorize (request_certs q) (request_key q) (request_op q)) (Ok identity) ∈ h_trace h) as Hid'
        by (rewrite Hprefix; apply elem_of_app; by left).
      rewrite Forall_forall in Ht. specialize (Ht _ Hid'). simpl in Ht. unfold Authorizer.verdict in Ht.
      destruct (Identity.identity_of from_der (request_certs q)) as [id|] eqn:Hi; simpl in Ht; [|done].
      destruct (Policy.is_allowed policy id _ _) eqn:Ha; [|done]. by exists id.
    + rewrite Forall_forall in Hpost. by specialize (Hpost _ Hin).
  - rewrite submits_app, Forall_app in Hsub. destruct Hsub as [_ Hsub]. simpl in Hsub.
    by apply Forall_cons in Hsub as [? _].
Qed.

Record system_ok (policy : Policy.Policy) (s : System) : Prop := {
  so_policy : Authorizer.policy (sys_authorizer s) = policy;
  so_coherent : Authorizer.coherent from_der (sys_authorizer s);
  so_handlers : Forall (handler_ok policy) (handlers s);
  so_calls id job : Pool.calls (sys_pool s) !! id = Some job →
    ∃ h, h_request h ∈ h_request <$> handlers s ∧
         permitted policy (h_request h) ∧ serves (h_request h) job = true
}.

Lemma calls_apply act (p : Pool.Pool) :
  (∀ req, act ≠ Pool.ASubmit req) → Pool.calls (Pool.apply act p) = Pool.calls p.
Proof.
  intros Hact. destruct act as [req|id|id|i|i|i| |d]; simpl; try done; [by destruct (Hact req)|..];
    unfold Pool.poll, Pool.worker_take, Pool.worker_finish, Pool.worker_exit; repeat (case_match; try done).
Qed.

Lemma calls_submit job (p : Pool.Pool) :
  Pool.calls (Pool.submit job p) = <[Pool.next_call p := job]> (Pool.calls p).
Proof. unfold Pool.submit. repeat (case_match; try done). Qed.

(** A handler moves on: the requests stay. *)
Lemma requests_insert (hs : list Handler) i h h' :
  hs !! i = Some h → h_request h' = h_request h → h_request <$> <[i := h']> hs = h_request <$> hs.
Proof.
  intros Hi Hq. rewrite list_fmap_insert. apply list_insert_id. by rewrite list_lookup_fmap, Hi, Hq.
Qed.

(** A handler takes one effect; nothing else changes. *)
Lemma system_ok_move policy a a' p hs i q tr x h' :
  system_ok policy (mkSystem a p hs) → hs !! i = Some (mkHandler q tr x) →
  Authorizer.policy a' = policy → Authorizer.coherent from_der a' →
  h_request h' = q → handler_ok policy h' → system_ok policy (mkSystem a' p (<[i := h']> hs)).
Proof.
  intros [Hp Hc Hh Hcalls] Hi Hp' Hc' Hq Hok. split; [done|done| |].
  - simpl. by apply Forall_insert.
  - simpl in *. intros id job Hj. destruct (Hcalls id job Hj) as (h&Hin&Hrest). exists h. split; [|done].
    by rewrite (requests_insert _ _ _ _ Hi).
Qed.

Lemma handler_ok_step policy q tr X (e : svcE X) k x :
  handler_ok policy (mkHandler q tr (Running (Vis e k))) → truthful policy (Ev e x) →
  handler_ok policy (mkHandler q (tr ++ [Ev e x]) (Running (k x))).
Proof.
  intros [Hr Ht] Hx. split; simpl in *; [by constructor|]. apply Forall_app. by repeat constructor.
Qed.

Lemma handler_at policy a p hs i h :
  system_ok policy (mkSystem a p hs) → hs !! i = Some h → handler_ok policy h.
Proof. intros [_ _ Hh _] Hi. by apply (Forall_lookup_1 _ _ _ _ Hh Hi). Qed.

Lemma system_ok_step policy s s' :
  has_authorizer svc = true → system_step s s' → system_ok policy s → system_ok policy s'.
Proof.
  intros Hauth Hs Hok. destruct Hs as [a p hs q|a p hs i q tr certs key op k Hi
    |a p hs i q tr job k Hi Hopen|a p hs i q tr id job k o Hi Ho|a p hs i q tr X e k x Hi He|a p hs act Hact Hen].
  - destruct Hok as [Hp Hc Hh Hcalls]. split; [done|done| |].
    + simpl. apply Forall_app. split; [done|]. repeat constructor.
    + simpl in *. intros id job Hj. destruct (Hcalls id job Hj) as (h&Hin&Hrest). exists h.
      split; [|done]. rewrite fmap_app. apply elem_of_app. by left.
  - pose proof (handler_at _ _ _ _ _ _ Hok Hi) as Hh.
    pose proof (Authorizer.authorize_contract from_der a certs key op (so_coherent _ _ Hok)) as Ha.
    destruct (Authorizer.authorize from_der certs key op a) as [r a']. destruct Ha as (Hr&Hp'&_&Hc').
    pose proof (so_policy _ _ Hok) as Hpol. simpl in Hpol. rewrite Hpol in Hr, Hp'.
    eapply system_ok_move; [done|done|done|done|done|]. by apply handler_ok_step.
  - pose proof (handler_at _ _ _ _ _ _ Hok Hi) as Hh.
    destruct (submitting_handler policy _ job k Hauth Hh eq_refl) as [Hperm Hserves].
    assert (system_ok policy (mkSystem a p (<[i := mkHandler q tr (Awaiting (Pool.next_call p) job k)]> hs)))
      as [Hp' Hc' Hh' Hcalls'].
    { eapply system_ok_move; [done|done|apply Hok|apply Hok|done|]. destruct Hh. by split. }
    split; [done|done|done|]. simpl in *. intros id' job'. rewrite calls_submit.
    intros [[<- <-]|[_ Hj]]%lookup_insert_Some; [|by eapply Hcalls'].
    exists (mkHandler q tr (Running (Vis (Submit job) k))). split; [|done].
    rewrite (requests_insert _ _ _ _ Hi) by done. apply list_elem_of_fmap.
    eexists. split; [|by eapply list_elem_of_lookup_2]. done.
  - pose proof (handler_at _ _ _ _ _ _ Hok Hi) as [Hr Ht].
    eapply system_ok_move; [done|done|apply Hok|apply Hok|done|].
    apply handler_ok_step; [by split|done].
  - pose proof (handler_at _ _ _ _ _ _ Hok Hi) as Hh.
    eapply system_ok_move; [done|done|apply Hok|apply Hok|done|].
    apply handler_ok_step; [done|]. by destruct e.
  - destruct Hok as [Hp Hc Hh Hcalls]. split; [done..|]. simpl in *. by rewrite calls_apply.
Qed.

Lemma system_reachable_ok policy s :
  has_authorizer svc = true → system_reachable policy s → system_ok policy s.
Proof.
  intros Hauth (s0&(Ha&Hp&Hh)&Hr). assert (system_ok policy s0) as H0.
  { split; rewrite ?Ha, ?Hh; [done|apply Authorizer.authorizer_new_coherent|constructor|].
    intros id' job'. by rewrite Pool.started_calls. }
  clear Ha Hp Hh. induction Hr; eauto using system_ok_step.
Qed.

(** C2: No job without permission.  With any number of requests in flight and any
    interleaving of handlers, authorizer, pool, workers, timeouts and shutdown, and
    whatever breaker, limiter and cache answer: every job that ever entered the
    pool belongs to a request that was received, names that request's key, is of the
    kind the request asks for, and the policy allows the identity in that caller's
    certificate this operation on this key. *)
Theorem no_job_without_permission policy s id job :
  has_authorizer svc = true → system_reachable policy s →
  Pool.calls (sys_pool s) !! id = Some job →
  ∃ h, h_request h ∈ h_request <$> handlers s ∧
       permitted policy (h_request h) ∧ serves (h_request h) job = true.
Proof. intros Hauth Hr. by apply (so_calls _ _ (system_reachable_ok _ _ Hauth Hr)). Qed.
End system.

(** ** A witness: a permitted [Sign] request reaches the pool *)

Module SystemWitness.
Import Toy PoolWitness.

Definition guarded : PooledService := mkService true false.

Definition demo_policy : Policy.Policy := Policy.compile {| Policy.workloads := [Policy.payments] |}.

Definition permitted_sign : AnyRequest :=
  QSign (mkRequest (Some [[x30; x01]]) (mkSign "demo-ec-p256" 1 (Some (Some (Crypto.Message [x07]))))).

Definition signing_job : JobRequest := JSign "demo-ec-p256" Crypto.Ecdsa (Crypto.toy_sha256 [x07]).

Abbreviation run_demo := (rpc (λ _, "") (λ _, "") guarded permitted_sign).

Definition demo_system : System :=
  mkSystem (Authorizer.new demo_policy) demo_pool [].

Lemma no_job_without_permission_witness :
  ∃ s, system_reachable Identity.demo_from_der (λ _, "") (λ _, "") guarded demo_policy s ∧
       Pool.calls (sys_pool s) !! Pool.next_call demo_pool = Some signing_job ∧
       ∃ h, h_request h ∈ h_request <$> handlers s ∧
         permitted Identity.demo_from_der demo_policy (h_request h) ∧ serves (h_request h) signing_job = true.
Proof.
  assert (∃ a hs, rtc (system_step Identity.demo_from_der (λ _, "") (λ _, "") guarded) demo_system
                    (mkSystem a (Pool.submit signing_job demo_pool) hs)) as (a&hs&Hr).
  { do 2 eexists.
    eapply rtc_l; [apply (sys_accept _ _ _ _ _ _ _ permitted_sign)|].
    eapply rtc_l; [eapply (sys_elsewhere _ _ _ _ _ _ _ 0 _ _ Z InstantNow _ 0%Z); reflexivity|].
    eapply rtc_l; [eapply (sys_elsewhere _ _ _ _ _ _ _ 0 _ _ bool Allow _ true); reflexivity|].
    eapply rtc_l; [eapply (sys_authorize _ _ _ _ _ _ _ 0); reflexivity|].
    eapply rtc_l; [eapply (sys_submit _ _ _ _ _ _ _ 0 _ _ signing_job); reflexivity|].
    apply rtc_refl. }
  exists (mkSystem a (Pool.submit signing_job demo_pool) hs).
  assert (system_reachable Identity.demo_from_der (λ _, "") (λ _, "") guarded demo_policy
            (mkSystem a (Pool.submit signing_job demo_pool) hs)) as Hreach.
  { exists demo_system. split; [|exact Hr]. split; [reflexivity|]. split; [apply demo_started|reflexivity]. }
  assert (Pool.calls (sys_pool (mkSystem a (Pool.submit signing_job demo_pool) hs)) !! Pool.next_call demo_pool
            = Some signing_job) as Hcall by (simpl sys_pool; rewrite calls_submit; apply lookup_insert_eq).
  split; [exact Hreach|]. split; [exact Hcall|].
  exact (no_job_without_permission Identity.demo_from_der (λ _, "") (λ _, "") guarded demo_policy _ _ _
           eq_refl Hreach Hcall).
Defined.
End SystemWitness.
