(* ===== verification/Whole.v ===== *)
(** * The proxy as a whole

    Everything a request meets, at once and with its own state: breaker,
    authorizer, limiter, key cache, pool, workers, token and clock, under any
    number of handlers that interleave, wait for one another's loads, time out and
    are dropped by clients that go away.  [System] lets breaker, limiter and cache
    answer anything; here they answer as their own files say. *)
From S2P Require Import Prelude RustStd Deps Effects Breaker Policy Identity Authorizer RateLimit Session.
From S2P Require Import Crypto Toy Worker Pool Answers Cache Wire Pooled System.

Local Open Scope Z_scope.

(** ** State *)

Section whole.
Context {CK : Cryptoki} {CL : CryptoLib} {CH : Channel} {CHO : ChannelOk CH} {LM : RL.Limiters}.
Context (from_der : bytes → option Identity.X509Certificate).
Context (show : CkError → string) (description : Code → string) (svc : PooledService).
Context (cache_config : CacheConfig).

(** What handlers share besides the pool. *)
Record Parts := mkParts {
  authorizer : Authorizer.Authorizer;
  breaker : CB.CircuitBreaker;
  limiter : RL.RateLimiter;
  key_cache : CacheState
}.

Record Whole := mkWhole {
  parts : Parts;
  pool : Pool;
  requests : list Handler;
  (** handlers that read [Open] in [allow] and wait for the window's lock *)
  locking : gset nat;
  (** handlers that were dropped at an [await] *)
  gone : gset nat
}.

Definition time (w : Whole) : Z := clock (pool w).

Definition with_cache (c : CacheState) (x : Parts) : Parts :=
  mkParts (authorizer x) (breaker x) (limiter x) c.
Definition with_breaker (b : CB.CircuitBreaker) (x : Parts) : Parts :=
  mkParts (authorizer x) b (limiter x) (key_cache x).

(** ** Steps *)

(** The calls into the cache that [get_or_load] makes. *)
Definition asked {X} (e : cacheE X) : bool :=
  match e with Invalidate _ | Abandon _ _ | Evict _ | Tick _ => false | _ => true end.

(** An effect of a handler, at a time, on the shared parts.  The metrics registry
    is not kept. *)
Inductive answer (t : Z) : ∀ X, svcE X → Parts → X → Parts → Prop :=
| an_now x : answer t Z InstantNow x t x
| an_allow x : CB.state (breaker x) ≠ CB.Open → answer t bool Allow x true x
| an_success x :
    answer t unit RecordSuccess x tt (with_breaker (CB.record_success t (breaker x)) x)
| an_failure x :
    answer t unit RecordFailure x tt (with_breaker (CB.record_failure t (breaker x)) x)
| an_authorize certs key op x r a :
    Authorizer.authorize from_der certs key op (authorizer x) = (r, a) →
    answer t _ (Authorize certs key op) x r (mkParts a (breaker x) (limiter x) (key_cache x))
| an_rate identity x ok l :
    RL.check t identity (limiter x) = (ok, l) →
    answer t bool (CheckRate identity) x ok (mkParts (authorizer x) (breaker x) l (key_cache x))
| an_cache X (e : cacheE X) x v c :
    asked e = true → cache_answer cache_config X e (key_cache x) v c →
    answer t X (InKeyCache e) x v (with_cache c x)
| an_fill n iv x : length iv = n → answer t bytes (FillBytes n) x iv x
| an_count name labels x : answer t unit (IncrCounter name labels) x tt x
| an_histogram name labels d x : answer t unit (RecordHistogram name labels d) x tt x.

(** Handler [i] performs [e] and is answered [v]. *)
Inductive performs (i : nat) {X} (e : svcE X) (v : X) : list Handler → list Handler → Prop :=
| performs_intro hs q tr k :
    hs !! i = Some (mkHandler q tr (Running (Vis e k))) →
    performs i e v hs (<[i := mkHandler q (tr ++ [Ev e v]) (Running (k v))]> hs).

(** Where a handler is with a load: none, waiting for another's, or running one
    of its own. *)
Inductive LoadState := NoLoad | Joining (key : string) (f : nat) | Loading (key : string) (f : nat).

Definition load_next (l : LoadState) (e : event svcE) : LoadState :=
  match e with
  | Ev e' x =>
      match e' in svcE X return X → LoadState with
      | InKeyCache c =>
          match c in cacheE X return X → LoadState with
          | Enter key => λ x,
              match x with Present _ => NoLoad | Wait f => Joining key f | Lead f => Loading key f end
          | Await key _ => λ x, match x with Resolved _ => NoLoad | TakeOver f => Loading key f end
          | Finish _ _ _ => λ _, NoLoad
          | _ => λ _, l
          end
      | _ => λ _, l
      end x
  end.

Definition load_of (h : Handler) : LoadState := foldl load_next NoLoad (h_trace h).

(** Where a handler's future can be dropped, and what the pool sees of it. *)
Definition suspended (h : Handler) : bool :=
  match h_activity h with
  | Awaiting _ _ _ => true
  | Running (Vis (InKeyCache (Await _ _)) _) => true
  | _ => false
  end.

Definition release (h : Handler) (p : Pool) : Pool :=
  match h_activity h with Awaiting id _ _ => cancel id p | _ => p end.

(** The steps of the pool on its own. *)
Definition internal_action (a : action) : bool :=
  match a with APoll _ | ATake _ | AFinish _ | AExit _ | AShutdown => true | _ => false end.

Inductive whole_step : Whole → Whole → Prop :=
| w_accept x p hs lk gn q :
    whole_step (mkWhole x p hs lk gn)
      (mkWhole x p (hs ++ [mkHandler q [] (Running (rpc show description svc q))]) lk gn)
| w_effect x p hs lk gn i X (e : svcE X) v x' hs' :
    i ∉ gn → i ∉ lk → performs i e v hs hs' → answer (clock p) X e x v x' →
    whole_step (mkWhole x p hs lk gn) (mkWhole x' p hs' lk gn)
(** [allow] read [Open], and later takes the lock *)
| w_read_open x p hs lk gn i q tr k :
    i ∉ gn → hs !! i = Some (mkHandler q tr (Running (Vis Allow k))) →
    CB.state (breaker x) = CB.Open →
    whole_step (mkWhole x p hs lk gn) (mkWhole x p hs ({[i]} ∪ lk) gn)
| w_lock x p hs lk gn i ok b hs' :
    i ∈ lk → performs i Allow ok hs hs' → CB.allow_locked (clock p) (breaker x) = (ok, b) →
    whole_step (mkWhole x p hs lk gn) (mkWhole (with_breaker b x) p hs' (lk ∖ {[i]}) gn)
(** [pool.submit(job)], and its return *)
| w_submit x p hs lk gn i q tr job k :
    i ∉ gn → hs !! i = Some (mkHandler q tr (Running (Vis (Submit job) k))) → tx_open p = true →
    whole_step (mkWhole x p hs lk gn)
      (mkWhole x (submit job p) (<[i := mkHandler q tr (Awaiting (next_call p) job k)]> hs) lk gn)
| w_return x p hs lk gn i q tr id job k o :
    i ∉ gn → hs !! i = Some (mkHandler q tr (Awaiting id job k)) → (id, o) ∈ returned p →
    whole_step (mkWhole x p hs lk gn)
      (mkWhole x p (<[i := mkHandler q (tr ++ [Ev (Submit job) o]) (Running (k o))]> hs) lk gn)
(** pool, time, evictions *)
| w_pool x p hs lk gn a :
    internal_action a = true → enabled a p = true →
    whole_step (mkWhole x p hs lk gn) (mkWhole x (apply a p) hs lk gn)
| w_tick x p hs lk gn d :
    whole_step (mkWhole x p hs lk gn)
      (mkWhole (with_cache (after_ticks d (key_cache x)) x) (tick d p) hs lk gn)
| w_evict x p hs lk gn key :
    whole_step (mkWhole x p hs lk gn)
      (mkWhole (with_cache (drop_entry key (key_cache x)) x) p hs lk gn)
(** a client goes away; a load it had taken on is abandoned *)
| w_drop x p hs lk gn i h :
    i ∉ gn → hs !! i = Some h → suspended h = true →
    whole_step (mkWhole x p hs lk gn) (mkWhole x (release h p) hs lk ({[i]} ∪ gn))
| w_abandon x p hs lk gn i h key f :
    i ∈ gn → hs !! i = Some h → load_of h = Loading key f → flights (key_cache x) !! key = Some f →
    whole_step (mkWhole x p hs lk gn)
      (mkWhole (with_cache (abandon_flight key (key_cache x)) x) p hs lk gn).

(** ** Start *)

(** As [main] assembles it: a pool that started, fresh components, no request. *)
Record whole_start (policy : Policy.Policy) (cfg : CB.BreakerConfig) (w : Whole) : Prop := {
  st_authorizer : authorizer (parts w) = Authorizer.new policy;
  st_breaker : breaker (parts w) = CB.new cfg (time w);
  st_cache : key_cache (parts w) = cache_new (time w);
  st_pool : started (pool w);
  st_idle : requests w = [] ∧ locking w = ∅ ∧ gone w = ∅
}.

Definition whole_reachable (policy : Policy.Policy) (cfg : CB.BreakerConfig) (w : Whole) : Prop :=
  ∃ w0, whole_start policy cfg w0 ∧ rtc whole_step w0 w.

(** ** The whole refines the system *)

Definition project (w : Whole) : System := mkSystem (authorizer (parts w)) (pool w) (requests w).

Lemma release_steps a p hs h :
  rtc (system_step from_der show description svc) (mkSystem a p hs) (mkSystem a (release h p) hs).
Proof.
  unfold release. destruct (h_activity h) as [|id job k]; [done|].
  apply rtc_once. by apply (sys_pool_step _ _ _ _ a p hs (ACancel id)).
Qed.

Lemma whole_step_projects w w' :
  whole_step w w' → rtc (system_step from_der show description svc) (project w) (project w').
Proof.
  unfold project. destruct 1 as [x p hs lk gn q|x p hs lk gn i X e v x' hs' _ _ Hp Ha|
    |x p hs lk gn i ok b hs' _ Hp Hl|x p hs lk gn i q tr job k _ Hi Ho|x p hs lk gn i q tr id job k o _ Hi Ho
    |x p hs lk gn a Ha He|x p hs lk gn d| |x p hs lk gn i h _ Hi Hs|]; simpl; try done.
  - apply rtc_once. apply sys_accept.
  - apply rtc_once. destruct Hp as [hs q tr k Hi]. destruct Ha; try (by eapply sys_elsewhere).
    pose proof (sys_authorize from_der show description svc (authorizer x) p _ _ _ _ _ _ _ _ Hi) as Hs.
    by rewrite H in Hs.
  - apply rtc_once. destruct Hp as [hs q tr k Hi]. by eapply sys_elsewhere.
  - apply rtc_once. by eapply sys_submit.
  - apply rtc_once. by eapply sys_return.
  - apply rtc_once. apply sys_pool_step; [|done]. by intros req ->.
  - apply rtc_once. by apply (sys_pool_step _ _ _ _ _ p hs (ATick d)).
  - apply release_steps.
Qed.

Lemma whole_reachable_projects policy cfg w :
  whole_reachable policy cfg w →
  system_reachable from_der show description svc policy (project w).
Proof.
  intros (w0&H0&Hr). exists (project w0). split.
  - destruct H0 as [Ha _ _ Hp (Hq&_)]. split; [done|]. by split.
  - clear H0. induction Hr as [|w1 w2 w3 H12 _ IH]; [done|].
    etrans; [by apply whole_step_projects|done].
Qed.

(** ** Where answers come from *)

(** A public key that the pool returned for a label. *)
Definition key_from (p : Pool) (l : string) (k : CachedPublicKey) : Prop :=
  answered p (JGetPublicKey l) (PublicKey (spki_der k) (key_type k)).

(** What a load of a label may end with: a key that the pool returned for it, or
    the absence of one, if the pool said that there is none. *)
Definition lookup_from (p : Pool) (l : string) (v : Lookup) : Prop :=
  match v with
  | Found k => key_from p l k
  | LNotFound => ∃ id l', calls p !! id = Some (JGetPublicKey l) ∧ (id, Err (KeyNotFound l')) ∈ returned p
  end.

(** What comes with an event was returned by the pool, for this very job or
    label; random bytes are as many as were asked for. *)
Definition sourced (p : Pool) (e : event svcE) : Prop :=
  match e with
  | Ev e' x =>
      match e' in svcE X return X → Prop with
      | Submit j => λ x, ∃ id, calls p !! id = Some j ∧ (id, x) ∈ returned p
      | FillBytes n => λ x, length x = n
      | InKeyCache c =>
          match c in cacheE X return X → Prop with
          | Enter l => λ x, match x with Present (Found k) => key_from p l k | _ => True end
          | Await l _ => λ x, match x with Resolved (Ok (Found k)) => key_from p l k | _ => True end
          | _ => λ _, True
          end
      | _ => λ _, True
      end x
  end.

(** What a handler puts into the cache was returned by the pool for that label. *)
Definition deposits (p : Pool) (e : event svcE) : Prop :=
  match e with
  | Ev (InKeyCache (Finish l _ (Ok v))) _ => lookup_from p l v
  | _ => True
  end.

Lemma sourced_hands_out p l e : sourced p e → hands_out l (key_from p l) e.
Proof.
  destruct e as [X e x]. destruct e as [| | | | | |j|Y c| | |]; try done; simpl.
  - destruct x as [[]|]; try done. by intros Ha ->.
  - destruct c as [| |l' f| | | | | | | |]; try done.
    + destruct x as [[]| |]; try done. by intros Hk ->.
    + destruct x as [[[]|]|]; try done. by intros Hk ->.
Qed.

(** *** A property of every event of every run *)

Fixpoint always {A} (G P : event svcE → Prop) (m : prog svcE A) : Prop :=
  match m with
  | Ret _ => True
  | Vis e k => ∀ x, G (Ev e x) → P (Ev e x) ∧ always G P (k x)
  end.

Lemma always_to {A} G P (m m' : prog svcE A) tr :
  runs_to m tr m' → Forall G tr → always G P m → always G P m'.
Proof.
  intros Hr HG Hm. induction Hr as [|m tr X e k x _ IH]; [done|].
  apply Forall_app in HG as [HG [Hx _]%Forall_cons]. by destruct (IH HG Hm x Hx).
Qed.

Lemma always_bind {A B} G P (m : prog svcE A) (k : A → prog svcE B) :
  always G P m → (∀ a, always G P (k a)) → always G P (prog_bind m k).
Proof.
  intros Hm Hk. induction m as [a|X e c IH]; simpl; [apply Hk|]. intros x Hx.
  destruct (Hm x Hx). auto.
Qed.

Lemma always_try {A B F} G P (m : prog svcE (result A F)) (k : A → prog svcE (result B F)) :
  always G P m → (∀ a, always G P (k a)) → always G P (try_bind m k).
Proof. intros Hm Hk. apply always_bind; [done|]. by intros [a|e]; [apply Hk|]. Qed.

Lemma always_ret {A} G P (a : A) : always G P (Ret a).
Proof. done. Qed.

Lemma always_trigger {X} G P (e : svcE X) :
  (∀ x, G (Ev e x) → P (Ev e x)) → always G P (trigger e).
Proof. intros H x Hx. split; [by apply H|done]. Qed.

Lemma load_deposits p l f :
  always (sourced p) (deposits p) (lead_load (@InKeyCache) l (load_public_key l) f).
Proof.
  simpl. intros o Ho. split; [done|]. intros [] _. split; [|done].
  destruct o as [[]|[]]; try done. destruct Ho as (id&Hc&Hr). by do 2 eexists.
Qed.

Ltac always_steps :=
  repeat first
    [ apply always_ret | apply load_deposits | apply always_trigger; done
    | apply always_try; [|intros ?] | apply always_bind; [|intros ?] | case_match ].

Lemma admit_deposits p {A} (r : Request A) key op :
  always (sourced p) (deposits p) (admit_request svc r key op).
Proof. unfold admit_request, ret. always_steps. Qed.

Lemma record_deposits p {A} op t (r : result A Status) :
  always (sourced p) (deposits p) (record description op t r).
Proof. unfold record. always_steps. Qed.

Lemma observe_deposits p {A} (r : result A Status) : always (sourced p) (deposits p) (observe r).
Proof. unfold observe. always_steps. Qed.

Lemma attribute_deposits p was_present v :
  always (sourced p) (deposits p) (attribute (@InKeyCache) was_present v).
Proof. unfold attribute, call_cache. always_steps. Qed.

Lemma rpc_deposits p q : always (sourced p) (deposits p) (rpc show description svc q).
Proof.
  destruct q as [r|r|r|r|r]; unfold rpc, sign_rpc, verify_rpc, encrypt_rpc, decrypt_rpc, get_public_key_rpc,
    recorded, sign_inner, verify_inner, encrypt_inner, decrypt_inner, get_public_key_inner,
    sign_admitted, verify_admitted, encrypt_admitted, decrypt_admitted, get_public_key_admitted, ret;
    repeat first [ apply admit_deposits | apply record_deposits | apply observe_deposits
                 | apply attribute_deposits | progress always_steps ].
Qed.

(** *** The invariant *)

(** Calls keep their jobs, and what was returned stays returned. *)
Definition grows (p p' : Pool) : Prop :=
  (∀ id job, calls p !! id = Some job → calls p' !! id = Some job) ∧ returned p ⊆ returned p'.

Lemma answered_grows p p' req r : grows p p' → answered p req r → answered p' req r.
Proof. intros [Hc Hr] (id&Hid&Hin). exists id. split; [by apply Hc|by apply Hr]. Qed.

Lemma lookup_grows p p' l v : grows p p' → lookup_from p l v → lookup_from p' l v.
Proof.
  intros Hg. destruct v; [by apply answered_grows|]. destruct Hg as [Hc Hr].
  intros (id&l'&Hid&Hin). exists id, l'. split; [by apply Hc|by apply Hr].
Qed.

Lemma returned_apply a (p : Pool) : returned p ⊆ returned (apply a p).
Proof.
  destruct a; simpl; try done;
    unfold submit, poll, worker_take, worker_finish, worker_exit; repeat (case_match; try done); set_solver.
Qed.

Lemma apply_grows a p : pool_ok p → grows p (apply a p).
Proof.
  intros Hok. split; [|apply returned_apply]. intros id job Hid.
  destruct a as [req| | | | | | |]; try (by rewrite calls_apply).
  simpl. rewrite calls_submit, lookup_insert_ne; [done|].
  intros <-. by rewrite (fresh_call _ _ _ _ _ _ (ok_ledger _ Hok)) in Hid.
Qed.

Lemma clock_apply a (p : Pool) : internal_action a = true → clock (apply a p) = clock p.
Proof.
  destruct a; try done; simpl; intros _;
    unfold poll, worker_take, worker_finish, worker_exit; repeat (case_match; try done).
Qed.

Lemma clock_submit job (p : Pool) : clock (submit job p) = clock p.
Proof. unfold submit. by repeat (case_match; try done). Qed.

Lemma clock_release h (p : Pool) : clock (release h p) = clock p.
Proof. unfold release. by destruct (h_activity h). Qed.

Record handler_true (p : Pool) (h : Handler) : Prop := {
  ht_runs : runs_to (rpc show description svc (h_request h)) (h_trace h) (remaining (h_activity h));
  ht_sourced : Forall (sourced p) (h_trace h);
  ht_awaiting :
    match h_activity h with Awaiting id job _ => calls p !! id = Some job | Running _ => True end
}.

Record cache_true (p : Pool) (c : CacheState) : Prop := {
  ct_ok : cache_ok cache_config c;
  ct_entries key k x : entries c !! key = Some (Found k, x) → key_from p key k;
  ct_results f key k : results c !! f = Some (key, Ok (Found k)) → key_from p key k;
  ct_ended key t v : (key, t, Ok v) ∈ ended c → lookup_from p key v
}.

Record whole_ok (w : Whole) : Prop := {
  wo_pool : pool_ok (pool w);
  wo_cache : cache_true (pool w) (key_cache (parts w));
  wo_now : now (key_cache (parts w)) = time w;
  wo_handlers : Forall (handler_true (pool w)) (requests w)
}.

Lemma sourced_grows p p' e : grows p p' → sourced p e → sourced p' e.
Proof.
  intros Hg. destruct e as [X e x]. destruct e as [| | | | | |j|Y c| | |]; try done; simpl.
  - destruct Hg as [Hc Hr]. intros (id&Hid&Hin). exists id. split; [by apply Hc|by apply Hr].
  - destruct c; try done; repeat (case_match; try done); by apply answered_grows.
Qed.

Lemma handler_true_grows p p' h : grows p p' → handler_true p h → handler_true p' h.
Proof.
  intros Hg [Hr Hs Ha]. split; [done| |].
  - eapply Forall_impl; [exact Hs|]. intros e. by apply sourced_grows.
  - destruct (h_activity h); [done|]. by apply Hg.
Qed.

Lemma cache_true_grows p p' c : grows p p' → cache_true p c → cache_true p' c.
Proof.
  intros Hg [Ho He Hr Hd]. split; [done|..].
  - intros. eapply answered_grows; [exact Hg|]. by eapply He.
  - intros. eapply answered_grows; [exact Hg|]. by eapply Hr.
  - intros. eapply lookup_grows; [exact Hg|]. by eapply Hd.
Qed.

Lemma drop_entry_true p key c : cache_true p c → cache_true p (drop_entry key c).
Proof.
  intros [Ho He Hr Hd]. split; [by apply drop_entry_ok| |done|done]. simpl.
  intros key' k x [_ Hk]%lookup_delete_Some. eauto.
Qed.

Lemma start_flight_true p key c :
  flights c !! key = None → cache_true p c → cache_true p (start_flight key (drop_entry key c)).
Proof.
  intros Hf Hc. destruct (drop_entry_true p key c Hc) as [Ho He Hr Hd].
  split; [apply start_flight_ok; [apply lookup_delete_eq|done..]|done|done|done].
Qed.

Lemma end_flight_true p key f r c :
  flights c !! key = Some f → (∀ v, r = Ok v → lookup_from p key v) →
  cache_true p c → cache_true p (end_flight cache_config key f r c).
Proof.
  intros Hf Hk [Ho He Hr Hd]. split; [by apply end_flight_ok|..]; simpl.
  - intros key' k x. destruct r as [v|e]; [|apply He].
    intros [[<- [= -> _]]|[_ Hl]]%lookup_insert_Some; [by apply (Hk (Found k))|eauto].
  - intros f' key' k [[<- [= <- ->]]|[_ Hl]]%lookup_insert_Some; [by apply (Hk (Found k))|eauto].
  - intros key' t v [[= -> -> <-]|Hin]%elem_of_cons; eauto.
Qed.

Lemma abandon_flight_true p key f c :
  flights c !! key = Some f → cache_true p c → cache_true p (abandon_flight key c).
Proof. intros Hf [Ho He Hr Hd]. split; [by eapply abandon_flight_ok|done|done|done]. Qed.

Lemma after_ticks_true p d c : cache_true p c → cache_true p (after_ticks d c).
Proof.
  intros [Ho He Hr Hd]. split; [|done|done|done]. by apply (cache_answer_ok cache_config _ (Tick d) c tt), Ho; constructor.
Qed.

Lemma fresh_true p key c k : cache_true p c → fresh key c = Some (Found k) → key_from p key k.
Proof.
  intros Hc. unfold fresh. destruct (entries c !! key) as [[v x]|] eqn:He; [|done].
  case_match; [|done]. intros [= ->]. by eapply ct_entries.
Qed.

(** The cache hands out what the pool returned, if that is what it is given. *)
Lemma cache_answer_true p X (e : cacheE X) c v c' :
  cache_answer cache_config X e c v c' → asked e = true → cache_true p c →
  deposits p (Ev (InKeyCache e) v) →
  cache_true p c' ∧ sourced p (Ev (InKeyCache e) v) ∧ now c' = now c.
Proof.
  intros Ha Hask Hc Hd. destruct Ha; try done.
  - split; [done|]. split; [|done]. destruct v; [|done]. by eapply fresh_true.
  - split; [by apply start_flight_true|done].
  - split; [done|]. split; [|done]. destruct r as [[]|]; try done. by eapply ct_results.
  - split; [done|]. split; [|done]. destruct v; [|done]. by eapply fresh_true.
  - split; [done|]. split; [|done]. destruct r as [[]|]; try done. by eapply ct_results.
  - split; [by apply start_flight_true|done].
  - split; [|done]. apply end_flight_true; [done| |done]. by intros k ->.
  - split; [|done]. destruct Hc as [[] ? ? ?]. by repeat split.
  - split; [|done]. destruct Hc as [[] ? ? ?]. by repeat split.
  - split; [|done]. destruct Hc as [[] ? ? ?]. by repeat split.
Qed.

Lemma answer_true p t X (e : svcE X) x v x' :
  answer t X e x v x' → cache_true p (key_cache x) → deposits p (Ev e v) →
  cache_true p (key_cache x') ∧ sourced p (Ev e v) ∧ now (key_cache x') = now (key_cache x).
Proof. intros Ha Hc Hd. destruct Ha; try done. by eapply cache_answer_true. Qed.

Lemma deposits_free p e : (sourced p e → deposits p e) → deposits p e.
Proof.
  destruct e as [X e x]. destruct e as [| | | | | | |Y c| | |]; try done.
  destruct c; try done. simpl. intros H. by apply H.
Qed.

(** A handler that goes on. *)
Lemma performs_true p i X (e : svcE X) v hs hs' :
  performs i e v hs hs' → Forall (handler_true p) hs →
  (sourced p (Ev e v) → Forall (handler_true p) hs') ∧ deposits p (Ev e v).
Proof.
  intros [hs0 q tr k Hi] Hh. pose proof (Forall_lookup_1 _ _ _ _ Hh Hi) as [Hr Hs _]. simpl in Hr, Hs.
  split.
  - intros Hv. apply Forall_insert; [done|]. split; simpl; [by constructor| |done].
    apply Forall_app. by repeat constructor.
  - apply (deposits_free p (Ev e v)). intros Hv. by destruct (always_to _ _ _ _ _ Hr Hs (rpc_deposits p q) v Hv).
Qed.

Lemma whole_ok_step w w' : whole_step w w' → whole_ok w → whole_ok w'.
Proof.
  intros Hs [Hp Hc Hn Hh]. unfold time in Hn.
  destruct Hs as [x p hs lk gn q|x p hs lk gn i X e v x' hs' _ _ Hperf Ha|
    |x p hs lk gn i ok b hs' _ Hperf Hl|x p hs lk gn i q tr job k _ Hi Ho|x p hs lk gn i q tr id job k o _ Hi Ho
    |x p hs lk gn a Ha He|x p hs lk gn d|x p hs lk gn key|x p hs lk gn i h _ Hi _
    |x p hs lk gn i h key f _ Hi _ Hf]; simpl in *.
  - split; simpl; try done. apply Forall_app. split; [done|]. repeat constructor.
  - destruct (performs_true p _ _ _ _ _ _ Hperf Hh) as [Hh' Hd].
    destruct (answer_true p _ _ _ _ _ _ Ha Hc Hd) as (Hc'&Hv&Hn'). unfold time.
    split; simpl; [done|done|by rewrite Hn'|by apply Hh'].
  - by split.
  - destruct (performs_true p _ _ _ _ _ _ Hperf Hh) as [Hh' _]. split; simpl; [done..|by apply Hh'].
  - pose proof (apply_grows (ASubmit job) p Hp) as Hg. simpl in Hg.
    split; simpl; [by apply submit_ok|by eapply cache_true_grows| |].
    + rewrite Hn. unfold time. simpl. by rewrite clock_submit.
    + pose proof (Forall_lookup_1 _ _ _ _ Hh Hi) as [Hr Hs _]. apply Forall_insert.
      * eapply Forall_impl; [exact Hh|]. intros h. by apply handler_true_grows.
      * split; simpl in *; [done| |].
        -- eapply Forall_impl; [exact Hs|]. intros e. by apply sourced_grows.
        -- by rewrite calls_submit, lookup_insert_eq.
  - pose proof (Forall_lookup_1 _ _ _ _ Hh Hi) as [Hr Hs Ha]. simpl in *.
    split; simpl; [done..|]. apply Forall_insert; [done|]. split; simpl; [by constructor| |done].
    apply Forall_app. split; [done|]. repeat constructor. by exists id.
  - pose proof (apply_grows a p Hp) as Hg. split; simpl.
    + by eapply step_ok; [constructor|].
    + by eapply cache_true_grows.
    + rewrite Hn. unfold time. simpl. by rewrite clock_apply.
    + eapply Forall_impl; [exact Hh|]. intros h. by apply handler_true_grows.
  - pose proof (apply_grows (ATick d) p Hp) as Hg. simpl in Hg.
    split; simpl; [by destruct Hp| |unfold time; simpl; lia|].
    + by apply after_ticks_true, (cache_true_grows p).
    + eapply Forall_impl; [exact Hh|]. intros h. by apply handler_true_grows.
  - split; simpl; [done|by apply drop_entry_true|done|done].
  - assert (pool_ok (release h p) ∧ grows p (release h p)) as (Hp'&Hg).
    { unfold release. destruct (h_activity h); [done|]. split; [by apply cancel_ok|].
      by apply (apply_grows (ACancel _)). }
    split; simpl; [done|by eapply cache_true_grows|unfold time; simpl; by rewrite clock_release|].
    eapply Forall_impl; [exact Hh|]. intros h'. by apply handler_true_grows.
  - split; simpl; [done|by eapply abandon_flight_true|done|done].
Qed.

Lemma whole_start_ok policy cfg w : whole_start policy cfg w → whole_ok w.
Proof.
  intros [_ _ Hc Hp (Hq&_)]. split; rewrite ?Hc, ?Hq; [by apply started_ok| |done|done].
  split; [apply cache_new_ok|by intros ? ? ?; simpl; rewrite lookup_empty..|].
  by intros ? ? ? ?%elem_of_nil.
Qed.

Lemma whole_steps_ok w w' : rtc whole_step w w' → whole_ok w → whole_ok w'.
Proof. induction 1; eauto using whole_ok_step. Qed.

Lemma whole_reachable_ok policy cfg w : whole_reachable policy cfg w → whole_ok w.
Proof. intros (w0&H0&Hr). by eapply whole_steps_ok, whole_start_ok. Qed.

(** ** Every response comes from the token *)

(** The handler of a request that replied. *)
Definition replied (w : Whole) (q : AnyRequest) (r : result AnyResponse Status) : Prop :=
  ∃ i tr, requests w !! i = Some (mkHandler q tr (Running (Ret r))).

(** A response that the pool's answers account for. *)
Definition justified (p : Pool) (q : AnyRequest) (resp : AnyResponse) : Prop :=
  match q, resp with
  | QSign r, ASign x =>
      resp_key_label x = sign_key_label (get_ref r) ∧
      ∃ input op, extract_input (sign_input (get_ref r)) = Ok input ∧
        Crypto.prepare (sign_mechanism (get_ref r)) input = Ok op ∧
        answered p (JSign (sign_key_label (get_ref r)) (Crypto.algorithm op) (Crypto.payload op))
          (Signature (resp_signature x))
  | QVerify r, AVerify x =>
      ∃ input k, extract_input (verify_input (get_ref r)) = Ok input ∧
        key_from p (verify_key_label (get_ref r)) k ∧
        Crypto.verify_public (spki_der k) (verify_mechanism (get_ref r)) input
          (verify_signature (get_ref r)) = Ok (valid x)
  | QEncrypt r, AEncrypt x =>
      length (resp_iv x) = GCM_IV_LEN ∧
      answered p (JEncrypt (encrypt_key_label (get_ref r)) (encrypt_plaintext (get_ref r))
                    (encrypt_associated_data (get_ref r)) (resp_iv x)) (Ciphertext (resp_ciphertext x))
  | QDecrypt r, ADecrypt x =>
      length (decrypt_iv (get_ref r)) = GCM_IV_LEN ∧
      answered p (JDecrypt (decrypt_key_label (get_ref r)) (decrypt_ciphertext (get_ref r))
                    (decrypt_associated_data (get_ref r)) (decrypt_iv (get_ref r)))
        (Plaintext (resp_plaintext x))
  | QGetPublicKey r, AGetPublicKey x =>
      key_from p (gpk_key_label (get_ref r)) (mkCached (resp_spki_der x) (resp_key_type x))
  | _, _ => False
  end.

Lemma drawn_sourced p tr iv : Forall (sourced p) tr → iv ∈ draws tr → length iv = GCM_IV_LEN.
Proof.
  intros Htr (e&He&Hd)%list_elem_of_omap. rewrite Forall_forall in Htr. specialize (Htr e He).
  destruct e as [X e x]. destruct e; simpl in *; try done.
  destruct (Nat.eqb_spec n GCM_IV_LEN) as [->|]; by simplify_eq.
Qed.

Lemma job_reply_justified p q tr iv job ans resp :
  Forall (sourced p) tr → needs_secret q = true → job_of show q iv = Ok job → draws tr = draws_for q iv →
  answered p job ans → reply q job (Ok ans) = Ok resp → justified p q resp.
Proof.
  unfold job_of. intros Htr Hq Hj Hd Ha Hr. destruct q as [r|r|r|r|r]; try done.
  - destruct (extract_input _) as [input|s] eqn:Hi; [|done].
    destruct (Crypto.prepare _ _) as [op|s] eqn:Hp; simplify_eq. destruct ans; simplify_eq/=.
    split; [done|]. by exists input, op.
  - destruct (require_aes_gcm _); simplify_eq. destruct ans; simplify_eq/=. split; [|done].
    eapply drawn_sourced; [done|]. rewrite Hd. left.
  - destruct (require_aes_gcm _); [|done]. destruct (Nat.eqb_spec (length (decrypt_iv (get_ref r))) GCM_IV_LEN);
      simplify_eq. by destruct ans; simplify_eq/=.
Qed.

Lemma secret_justified p q :
  needs_secret q = true →
  all_runs (sourced p) (rpc show description svc q) (λ _ r, ∀ resp, r = Ok resp → justified p q resp).
Proof.
  intros Hq. eapply all_runs_mono.
  2: { apply all_runs_and; [apply all_runs_promised|].
       eapply (all_runs_weaken any); [done|]. by apply secret_one_job. }
  cbv beta. intros tr r [Htr Hrun] resp ->.
  destruct (job_run_ok _ _ _ _ _ Hrun) as (iv&job&o&Ha&Hd&Hs&Hr).
  assert (sourced p (Ev (Submit job) o)) as Ho by (eapply submits_promised; [done|]; rewrite Hs; left).
  destruct o as [ans|e]; [|done]. by eapply job_reply_justified.
Qed.

Lemma get_public_key_justified p r :
  all_runs (sourced p) (rpc show description svc (QGetPublicKey r)) (λ _ res,
    ∀ resp, res = Ok resp → justified p (QGetPublicKey r) resp).
Proof.
  apply rpc_reply. unfold admitted, get_public_key_admitted, ret.
  apply map_try, all_runs_try. eapply all_runs_mono; [|apply public_key_spec, sourced_hands_out].
  cbv beta. intros tr [[[k|] b]|e] (_&_&_&_&HK); [|done..]. simpl.
  intros resp [= <-]. simpl. by destruct k.
Qed.

Lemma rpc_justified p q :
  all_runs (sourced p) (rpc show description svc q) (λ _ r, ∀ resp, r = Ok resp → justified p q resp).
Proof.
  destruct (needs_secret q) eqn:Hq; [by apply secret_justified|].
  destruct q as [r|r|r|r|r]; try done; [|apply get_public_key_justified].
  eapply all_runs_mono; [|apply (verify_reply show description svc _ (key_from p (verify_key_label (get_ref r)))), sourced_hands_out].
  cbv beta. intros _ res Hr resp ->. destruct (Hr _ eq_refl) as (input&k&v&b&Hi&Hk&Hv&->).
  by exists input, k.
Qed.

Lemma replied_justified w q resp : whole_ok w → replied w q (Ok resp) → justified (pool w) q resp.
Proof.
  intros Hok (i&tr&Hi). pose proof (Forall_lookup_1 _ _ _ _ (wo_handlers _ Hok) Hi) as [Hr Hs _].
  simpl in *. pose proof (all_runs_to _ _ _ _ _ Hr Hs (rpc_justified (pool w) q)) as Hall.
  simpl in Hall. by apply Hall.
Qed.

(** C4: Responses come from the token.  In every state the proxy reaches, whatever
    requests, cached keys, coalesced and abandoned loads, evictions, timeouts and
    dropped clients interleaved: a [Sign], [Encrypt] or [Decrypt] that succeeded
    carries what the pool returned for a job of this key, these bytes and, for
    encryption, the 12-byte IV in the response; a [GetPublicKey] that succeeded
    carries the key that the pool returned for this label, and a verdict of
    [Verify] is that of such a key.  No response ever comes from another key, another
    label's cache entry or another caller's job. *)
Theorem responses_come_from_the_token policy cfg w q resp :
  whole_reachable policy cfg w → replied w q (Ok resp) → justified (pool w) q resp.
Proof. intros Hw%whole_reachable_ok. by apply replied_justified. Qed.

(** ** What the token signed verifies, what it sealed opens *)

Lemma whole_step_pool w w' : whole_step w w' → rtc step (pool w) (pool w').
Proof.
  destruct 1 as [| | | |x p hs lk gn i q tr job k _ _ Ho| |x p hs lk gn a Ha He|x p hs lk gn d|
    |x p hs lk gn i h _ _ _|]; simpl; try done.
  - apply rtc_once. by apply (step_intro (ASubmit job)).
  - apply rtc_once. by constructor.
  - apply rtc_once. by apply (step_intro (ATick d)).
  - unfold release. destruct (h_activity h); [done|]. apply rtc_once. by apply (step_intro (ACancel id)).
Qed.

Lemma whole_steps_pool w w' : rtc whole_step w w' → rtc step (pool w) (pool w').
Proof. induction 1; [done|]. etrans; [by apply whole_step_pool|done]. Qed.

Section sound_token.
Context {CLL : Crypto.CryptoLaws CL} {SL : Crypto.SpkiLaws CL} {KS : KeyStore CK CL} {ST : SessionTable CK}.

Lemma prepare_ecdsa mech input op :
  Crypto.prepare mech input = Ok op → Crypto.algorithm op = Crypto.Ecdsa ↔ mech = 1.
Proof.
  intros Hp. destruct (Crypto.prepare_ok_mech _ _ _ Hp) as [->|[->| ->]]; destruct input;
    unfold Crypto.prepare in Hp; simpl in Hp; try destruct (Crypto.check_digest_len _);
    by simplify_eq/=.
Qed.

Lemma signed_key_fits mech input op l sg der :
  Crypto.prepare mech input = Ok op →
  vouched (JSign l (Crypto.algorithm op) (Crypto.payload op)) (Signature sg) →
  is_public_key l der → Crypto.key_for mech der (pair_valid l).
Proof.
  intros Hp%prepare_ecdsa [_ Hec] Hk. unfold is_public_key, Crypto.key_for in *.
  destruct (Z.eqb_spec mech 1) as [Hm|Hm]; destruct (is_ec l); naive_solver.
Qed.

Lemma justified_verifies p rs rv x y :
  pool_sound p → justified p (QSign rs) (ASign x) → justified p (QVerify rv) (AVerify y) →
  verify_key_label (get_ref rv) = sign_key_label (get_ref rs) →
  verify_mechanism (get_ref rv) = sign_mechanism (get_ref rs) →
  verify_input (get_ref rv) = sign_input (get_ref rs) →
  verify_signature (get_ref rv) = resp_signature x → valid y = true.
Proof.
  intros Hp (_&input&op&Hi&Hop&Hs) (input'&k&Hi'&Hk&Hv) Hl Hm Hin Hsg.
  rewrite Hin, Hi in Hi'. injection Hi' as <-.
  apply (ps_returned _ Hp) in Hs, Hk. rewrite Hl in Hk.
  pose proof (signed_key_fits _ _ _ _ _ _ Hop Hs Hk) as Hfit.
  rewrite Hm, Hsg, (Crypto.verify_public_valid (pair_valid (sign_key_label (get_ref rs))) _ _ _ op) in Hv
    by done. destruct Hs as [Hvalid _]. rewrite Hvalid in Hv. by injection Hv.
Qed.

Lemma justified_opens p re rd x y :
  pool_sound p → justified p (QEncrypt re) (AEncrypt x) → justified p (QDecrypt rd) (ADecrypt y) →
  decrypt_key_label (get_ref rd) = encrypt_key_label (get_ref re) →
  decrypt_associated_data (get_ref rd) = encrypt_associated_data (get_ref re) →
  decrypt_iv (get_ref rd) = resp_iv x → decrypt_ciphertext (get_ref rd) = resp_ciphertext x →
  resp_plaintext y = encrypt_plaintext (get_ref re).
Proof.
  intros Hp (_&He) (_&Hd) Hl Ha Hiv Hc. apply (ps_returned _ Hp) in He, Hd. simpl in He, Hd.
  rewrite Hl, Ha, Hiv, Hc in Hd. destruct He as (pe&Hpe&Hoe), Hd as (pd&Hpd&Hod). congruence.
Qed.

(** C3: End to end.  Let the proxy be started on a token that is well kept, and let
    requests, workers, broken sessions, cached handles, cached keys, timeouts and
    dropped clients interleave in any way.  A signature in a response of [Sign] is
    reported valid by every [Verify] that replies, for the same key, mechanism and
    input; and every [Decrypt] that replies to a ciphertext, IV and associated data
    of an [Encrypt] under the same key returns the plaintext. *)
Theorem crypto_round_trips policy cfg w0 w :
  whole_start policy cfg w0 → well_kept (world (shared (pool w0))) → rtc whole_step w0 w →
  (∀ rs rv x y,
     replied w (QSign rs) (Ok (ASign x)) → replied w (QVerify rv) (Ok (AVerify y)) →
     verify_key_label (get_ref rv) = sign_key_label (get_ref rs) →
     verify_mechanism (get_ref rv) = sign_mechanism (get_ref rs) →
     verify_input (get_ref rv) = sign_input (get_ref rs) →
     verify_signature (get_ref rv) = resp_signature x → valid y = true) ∧
  (∀ re rd x y,
     replied w (QEncrypt re) (Ok (AEncrypt x)) → replied w (QDecrypt rd) (Ok (ADecrypt y)) →
     decrypt_key_label (get_ref rd) = encrypt_key_label (get_ref re) →
     decrypt_associated_data (get_ref rd) = encrypt_associated_data (get_ref re) →
     decrypt_iv (get_ref rd) = resp_iv x → decrypt_ciphertext (get_ref rd) = resp_ciphertext x →
     resp_plaintext y = encrypt_plaintext (get_ref re)).
Proof.
  intros H0 Hk Hr. assert (whole_ok w) as Hok by (by eapply whole_steps_ok, whole_start_ok).
  assert (pool_sound (pool w)) as Hp.
  { eapply pool_steps_sound; [by apply whole_steps_pool|apply started_ok, H0|].
    apply started_sound; [apply H0|done]. }
  split.
  - intros rs rv x y Hs%(replied_justified _ _ _ Hok) Hv%(replied_justified _ _ _ Hok).
    by eapply justified_verifies.
  - intros re rd x y He%(replied_justified _ _ _ Hok) Hd%(replied_justified _ _ _ Hok).
    by eapply justified_opens.
Qed.
End sound_token.

(** ** An open circuit shields the token *)

(** The breaker, as its own file sees it. *)
Definition breaker_view (w : Whole) : CB.sys :=
  {| CB.brk := breaker (parts w); CB.waiting := size (locking w); CB.clock := time w |}.

(** [allow] said yes. *)
Definition admits (e : event svcE) : bool :=
  match e with
  | Ev e' x => match e' in svcE X return X → bool with Allow => λ b, b | _ => λ _, false end x
  end.

Definition let_through (h : Handler) : bool := existsb admits (h_trace h).

(** Whoever is let through was let through before. *)
Definition admits_no_one (w w' : Whole) : Prop :=
  ∀ i h', requests w' !! i = Some h' → let_through h' = true →
    ∃ h, requests w !! i = Some h ∧ let_through h = true.

Lemma admits_no_one_same w w' : requests w' = requests w → admits_no_one w w'.
Proof. intros Hr i h'. rewrite Hr. eauto. Qed.

Lemma admits_no_one_insert w w' i q tr a q' tr' a' :
  requests w !! i = Some (mkHandler q tr a) → requests w' = <[i := mkHandler q' tr' a']> (requests w) →
  existsb admits tr' = existsb admits tr → admits_no_one w w'.
Proof.
  intros Hi Hr Htr j h'. rewrite Hr. intros [(<-&<-&_)|[_ Hj]]%list_lookup_insert_Some; [|eauto].
  unfold let_through. simpl. rewrite Htr. intros Hl. eexists. by split; [exact Hi|].
Qed.

Lemma admits_no_one_performs x p hs lk gn x' p' hs' lk' gn' i X (e : svcE X) v :
  performs i e v hs hs' → admits (Ev e v) = false →
  admits_no_one (mkWhole x p hs lk gn) (mkWhole x' p' hs' lk' gn').
Proof.
  intros [hs0 q tr k Hi] Hne. eapply admits_no_one_insert; [exact Hi|reflexivity|].
  rewrite existsb_app. cbn [existsb]. by rewrite Hne, !orb_false_r.
Qed.

(** A step of the whole is a step of the breaker, or leaves it alone. *)
Lemma whole_step_breaker w w' :
  whole_step w w' →
  (∃ l, CB.step (breaker_view w) l (breaker_view w') ∧
        (l ≠ CB.LFast → l ≠ CB.LLock true → admits_no_one w w')) ∨
  (breaker (parts w') = breaker (parts w) ∧ size (locking w') = size (locking w) ∧
   time w ≤ time w' ∧ admits_no_one w w').
Proof.
  unfold breaker_view. destruct 1 as [x p hs lk gn q|x p hs lk gn i X e v x' hs' _ _ Hperf Ha
    |x p hs lk gn i q tr k _ Hi Hs|x p hs lk gn i ok b hs' Hlk Hperf Hl|x p hs lk gn i q tr job k _ Hi Ho
    |x p hs lk gn i q tr id job k o _ Hi Ho|x p hs lk gn a Ha He|x p hs lk gn d|x p hs lk gn key
    |x p hs lk gn i h _ Hi _|x p hs lk gn i h key f _ Hi _ Hf]; unfold time; simpl in *.
  - right. do 3 (split; [done|]). intros j h'. simpl. rewrite lookup_app_Some.
    intros [Hj|[_ Hj]] Hl; [eauto|]. by apply list_lookup_singleton_Some in Hj as [_ <-].
  - destruct Ha as [|x Hs|x|x| | | | | |];
      try (right; do 3 (split; [done|]); by eapply admits_no_one_performs).
    + left. exists CB.LFast. split; [by constructor|done].
    + left. exists CB.LSuccess. split; [by constructor|]. intros _ _. by eapply admits_no_one_performs.
    + left. exists CB.LFailure. split; [by constructor|]. intros _ _. by eapply admits_no_one_performs.
  - destruct (decide (i ∈ lk)).
    + right. replace ({[i]} ∪ lk) with lk by set_solver. done || (do 3 (split; [done|]); by apply admits_no_one_same).
    + left. exists CB.LLoadOpen. rewrite size_union, size_singleton by set_solver.
      split; [by constructor|]. intros _ _. by apply admits_no_one_same.
  - left. exists (CB.LLock ok). rewrite size_difference, size_singleton by set_solver.
    assert (size lk ≠ 0)%nat as Hsz by (intros ?%size_empty_inv; set_solver).
    split; [replace (size lk) with (S (size lk - 1)) at 1 by lia; by constructor|].
    intros _ Hne. eapply admits_no_one_performs; [exact Hperf|]. by destruct ok.
  - right. split; [done|]. split; [done|]. split; [by rewrite clock_submit|].
    by eapply admits_no_one_insert.
  - right. do 3 (split; [done|]). eapply admits_no_one_insert; [exact Hi|reflexivity|].
    rewrite existsb_app. simpl. by rewrite orb_false_r.
  - right. split; [done|]. split; [done|]. split; [by rewrite clock_apply|by apply admits_no_one_same].
  - right. split; [done|]. split; [done|]. split; [lia|by apply admits_no_one_same].
  - right. do 3 (split; [done|]). by apply admits_no_one_same.
  - right. split; [done|]. split; [done|]. split; [by rewrite clock_release|by apply admits_no_one_same].
  - right. do 3 (split; [done|]). by apply admits_no_one_same.
Qed.

Lemma whole_step_breaker_wf cfg w w' :
  CB.config_ok cfg → whole_step w w' → CB.sys_wf cfg (breaker_view w) → CB.sys_wf cfg (breaker_view w').
Proof.
  intros Hcfg Hs Hwf. destruct (whole_step_breaker w w' Hs) as [(l&Hl&_)|(Hb&Hsz&Ht&_)].
  - by eapply CB.step_sys_wf.
  - destruct Hwf as [Hc Hw Hn]. unfold breaker_view in *. simpl in *.
    split; simpl; rewrite ?Hb, ?Hsz; [done| |done]. by eapply CB.wf_later.
Qed.

Lemma whole_reachable_breaker policy cfg w :
  CB.config_ok cfg → whole_reachable policy cfg w → CB.sys_wf cfg (breaker_view w).
Proof.
  intros Hcfg (w0&[_ Hb _ _ (_&Hl&_)]&Hr).
  assert (CB.sys_wf cfg (breaker_view w0)) as H0.
  { unfold breaker_view. rewrite Hb, Hl. apply CB.init_sys_wf. }
  clear Hb Hl. induction Hr; eauto using whole_step_breaker_wf.
Qed.

Lemma whole_steps_time w w' : rtc whole_step w w' → time w ≤ time w'.
Proof.
  induction 1 as [|w1 w2 w3 H12 _ IH]; [done|].
  destruct (whole_step_breaker _ _ H12) as [(l&Hl%CB.step_clock&_)|(_&_&Ht&_)]; simpl in *; lia.
Qed.

Lemma cooling cfg w w' o :
  CB.config_ok cfg → CB.sys_wf cfg (breaker_view w) → rtc whole_step w w' →
  CB.state (breaker (parts w)) = CB.Open → CB.opened_at (CB.window (breaker (parts w))) = Some o →
  time w' < o + CB.cooldown cfg →
  CB.state (breaker (parts w')) = CB.Open ∧ admits_no_one w w'.
Proof.
  intros Hcfg Hwf Hr. revert o Hwf.
  induction Hr as [w|w1 w2 w3 H12 Hr IH]; intros o Hwf Hs Ho Ht; [split; [done|by apply admits_no_one_same]|].
  pose proof (whole_steps_time _ _ Hr) as Hmono.
  pose proof (whole_step_breaker_wf _ _ _ Hcfg H12 Hwf) as Hwf2.
  assert (CB.state (breaker (parts w2)) = CB.Open ∧ admits_no_one w1 w2 ∧
          ∃ o', CB.opened_at (CB.window (breaker (parts w2))) = Some o' ∧ o ≤ o') as (Hs2&Hn2&o'&Ho'&Hle).
  { destruct (whole_step_breaker _ _ H12) as [(l&Hl&Hn)|(Hb&_&_&Hn)].
    - destruct (CB.step_open_cooling cfg _ l _ o Hcfg Hwf Hs Ho Hl) as (Hf&Hlk&Hs2&o'&Ho'&Hle);
        [simpl; lia|]. split; [done|]. split; [by apply Hn|]. by exists o'.
    - rewrite Hb. split; [done|]. split; [done|]. exists o. split; [done|lia]. }
  destruct (IH o' Hwf2 Hs2 Ho') as [Hs3 Hn3]; [lia|]. split; [done|].
  intros i h3 H3 Hl3. destruct (Hn3 i h3 H3 Hl3) as (h2&H2&Hl2). by apply (Hn2 i h2).
Qed.

(** *** Nothing is reached without the breaker's consent *)

Lemma breaker_first q :
  all_runs any (rpc show description svc q) (λ tr r,
    existsb admits tr = true ∨ r = Err BREAKER_OPEN).
Proof.
  apply rpc_runs. intros t _. apply inner_admit. unfold admit_request.
  cbn [trigger prog_bind all_runs]. intros [] _.
  - apply all_runs_always. intros tr [[]|s].
    + apply all_runs_always. intros tr' r. apply all_runs_always. intros tr'' _. by left.
    + apply all_runs_always. intros tr'' _. by left.
  - cbn [negb ret all_runs]. apply all_runs_always. intros tr'' _. by right.
Qed.

Lemma elem_admits tr : Ev Allow true ∈ tr → existsb admits tr = true.
Proof. intros Hin. apply existsb_exists. exists (Ev Allow true). split; [by apply list_elem_of_In|done]. Qed.

(** A handler that touched the pool or the cache was let through. *)
Lemma touched_let_through q tr m e :
  runs_to (rpc show description svc q) tr m → e ∈ tr → touches e = true → existsb admits tr = true.
Proof.
  intros Hr He Ht. apply list_elem_of_split in He as (tr1&tr2&->).
  assert (Forall any (tr1 ++ e :: tr2)) as Hany by by apply Forall_true.
  pose proof (all_runs_to any _ _ _ _ Hr Hany (admission_prefix show description svc q)) as Hall.
  pose proof (some_run_exists m svcE_answerable) as Hsome.
  destruct (some_run_elim _ _ (all_some _ _ _ Hall Hsome)) as (tr'&a&(pre&post&Heq&Hpre&Hcase)&_).
  rewrite <-app_assoc in Heq. simpl in Heq.
  destruct (touch_after_prefix _ _ _ _ _ Heq Ht Hpre) as [[rest ->] Hin].
  destruct Hcase as [[Ha _]|Hpost].
  - rewrite existsb_app, existsb_app, (elem_admits _ Ha). done.
  - rewrite Forall_forall in Hpost. specialize (Hpost _ Hin). congruence.
Qed.

(** It has used the pool or the cache, or is waiting for the pool. *)
Definition reached_token (h : Handler) : bool :=
  existsb touches (h_trace h) || match h_activity h with Awaiting _ _ _ => true | Running _ => false end.

Lemma reached_let_through p h : handler_true p h → reached_token h = true → let_through h = true.
Proof.
  intros [Hr _ _] [Ht|Ha]%orb_true_iff.
  - apply existsb_exists in Ht as (e&He%list_elem_of_In&Ht). by eapply touched_let_through.
  - unfold let_through. destruct (h_activity h) as [|id job k]; [done|]. simpl in Hr.
    pose proof (touched_let_through _ _ _ (Ev (Submit job) (Err Timeout)) (rt_snoc _ _ _ _ _ (Err Timeout) Hr)) as H.
    rewrite existsb_app in H. simpl in H. rewrite orb_false_r in H. apply H; [|done].
    apply elem_of_app. right. left.
Qed.

(** C6: The open circuit shields the token.  From any state the proxy reaches in which
    the circuit is open since [o], for as long as the cooldown lasts, through any
    interleaving of new requests, callers that read the state earlier, late
    reports and dropped clients: the circuit stays open; every handler that has
    used, or waits for, the pool or the cache was already let through when the
    cooldown began; and every other handler that replies says [UNAVAILABLE]. *)
Theorem open_circuit_shields_the_token policy cfg w o w' :
  CB.config_ok cfg → whole_reachable policy cfg w →
  CB.state (breaker (parts w)) = CB.Open → CB.opened_at (CB.window (breaker (parts w))) = Some o →
  rtc whole_step w w' → time w' < o + CB.cooldown cfg →
  CB.state (breaker (parts w')) = CB.Open ∧
  ∀ i h', requests w' !! i = Some h' →
    (∃ h, requests w !! i = Some h ∧ let_through h = true) ∨
    (reached_token h' = false ∧ ∀ r, h_activity h' = Running (Ret r) → r = Err BREAKER_OPEN).
Proof.
  intros Hcfg Hw Hs Ho Hr Ht. pose proof (whole_reachable_breaker _ _ _ Hcfg Hw) as Hwf.
  destruct (cooling cfg w w' o Hcfg Hwf Hr Hs Ho Ht) as [Hs' Hno]. split; [done|].
  assert (whole_ok w') as Hok by (eapply whole_steps_ok; [done|by eapply whole_reachable_ok]).
  intros i h' Hi. pose proof (Forall_lookup_1 _ _ _ _ (wo_handlers _ Hok) Hi) as Hh.
  destruct (let_through h') eqn:Hl; [left; by eapply Hno|right]. split.
  - destruct (reached_token h') eqn:Hrt; [|done].
    by rewrite (reached_let_through _ _ Hh Hrt) in Hl.
  - intros r Hact. destruct Hh as [Hrun _ _]. rewrite Hact in Hrun. simpl in Hrun.
    assert (Forall any (h_trace h')) as Hany by by apply Forall_true.
    pose proof (all_runs_to any _ _ _ _ Hrun Hany (breaker_first (h_request h'))) as [Hl'|Hb].
    + rewrite app_nil_r in Hl'. unfold let_through in Hl. congruence.
    + done.
Qed.
End whole.

(** ** A scheduler

    The answers of the parts as functions, and runs of the whole from a list of
    choices. *)

Section scheduler.
Context {CK : Cryptoki} {CL : CryptoLib} {CH : Channel} {CHO : ChannelOk CH} {LM : RL.Limiters}.
Context (from_der : bytes → option Identity.X509Certificate).
Context (show : CkError → string) (description : Code → string) (svc : PooledService).
Context (cache_config : CacheConfig).

Abbreviation step_of := (whole_step from_der show description svc cache_config).

(** [None]: the caller has to wait, or does not ask this. *)
Definition cache_respond {X} (e : cacheE X) (s : CacheState) : option (X * CacheState) :=
  let m := cache_metrics s in
  match e in cacheE X return option (X * CacheState) with
  | ContainsKey key => Some (bool_decide (is_Some (fresh key s)), s)
  | Enter key =>
      match fresh key s, flights s !! key with
      | Some v, _ => Some (Present v, s)
      | None, Some f => Some (Wait f, s)
      | None, None => Some (Lead (next_flight s), start_flight key (drop_entry key s))
      end
  | Await key f =>
      match results s !! f with
      | Some (key', r) => if decide (key' = key) then Some (Resolved r, s) else None
      | None =>
          match fresh key s, flights s !! key with
          | Some v, fl => if decide (fl = Some f) then None else Some (Resolved (Ok v), s)
          | None, None => Some (TakeOver (next_flight s), start_flight key (drop_entry key s))
          | None, Some _ => None
          end
      end
  | Finish key f r =>
      if decide (flights s !! key = Some f) then Some (tt, end_flight cache_config key f r s) else None
  | CountHit =>
      Some (tt, with_cache_metrics (mkCacheMetrics (incr (hits m)) (misses m) (negative_hits m)) s)
  | CountMiss =>
      Some (tt, with_cache_metrics (mkCacheMetrics (hits m) (incr (misses m)) (negative_hits m)) s)
  | CountNegativeHit =>
      Some (tt, with_cache_metrics (mkCacheMetrics (hits m) (misses m) (incr (negative_hits m))) s)
  | Invalidate _ | Abandon _ _ | Evict _ | Tick _ => None
  end.

Lemma cache_respond_sound X (e : cacheE X) s v s' :
  cache_respond e s = Some (v, s') → asked e = true ∧ cache_answer cache_config X e s v s'.
Proof.
  destruct e as [key|key|key f|key f r| | | | | | |]; simpl; try done; intros H.
  - simplify_eq. split; [done|constructor].
  - split; [done|]. destruct (fresh key s) eqn:Hf; [by simplify_eq; constructor|].
    destruct (flights s !! key) eqn:Hl; simplify_eq; by constructor.
  - split; [done|]. destruct (results s !! f) as [[key' r]|] eqn:Hr.
    + case_decide; simplify_eq. by constructor.
    + destruct (fresh key s) eqn:Hf.
      * case_decide; simplify_eq. by constructor.
      * destruct (flights s !! key) eqn:Hl; simplify_eq. constructor; [|done..]. by split; [|rewrite Hl].
  - split; [done|]. case_decide; simplify_eq. by constructor.
  - simplify_eq. split; [done|constructor].
  - simplify_eq. split; [done|constructor].
  - simplify_eq. split; [done|constructor].
Qed.

(** Random bytes are zeros. *)
Definition respond (t : Z) {X} (e : svcE X) (x : Parts) : option (X * Parts) :=
  match e in svcE X return option (X * Parts) with
  | InstantNow => Some (t, x)
  | Allow => if decide (CB.state (breaker x) = CB.Open) then None else Some (true, x)
  | RecordSuccess => Some (tt, with_breaker (CB.record_success t (breaker x)) x)
  | RecordFailure => Some (tt, with_breaker (CB.record_failure t (breaker x)) x)
  | Authorize certs key op =>
      let '(r, a) := Authorizer.authorize from_der certs key op (authorizer x) in
      Some (r, mkParts a (breaker x) (limiter x) (key_cache x))
  | CheckRate identity =>
      let '(ok, l) := RL.check t identity (limiter x) in
      Some (ok, mkParts (authorizer x) (breaker x) l (key_cache x))
  | Submit _ => None
  | InKeyCache c => '(v, s) ← cache_respond c (key_cache x); Some (v, with_cache s x)
  | FillBytes n => Some (replicate n x00, x)
  | IncrCounter _ _ | RecordHistogram _ _ _ => Some (tt, x)
  end.

Lemma respond_sound t X (e : svcE X) x v x' :
  respond t e x = Some (v, x') → answer from_der cache_config t X e x v x'.
Proof.
  destruct e as [| | | |certs key op|identity| |Y c|n| |]; simpl; intros H.
  - simplify_eq. constructor.
  - case_decide; simplify_eq. by constructor.
  - simplify_eq. constructor.
  - simplify_eq. constructor.
  - destruct (Authorizer.authorize _ _ _ _ _) eqn:Ha. simplify_eq. by constructor.
  - destruct (RL.check _ _ _) eqn:Hc. simplify_eq. by constructor.
  - done.
  - apply bind_Some in H as ([v' s]&[Ha Hc]%cache_respond_sound&[= <- <-]). by constructor.
  - simplify_eq. constructor. apply length_replicate.
  - simplify_eq. constructor.
  - simplify_eq. constructor.
Qed.

Inductive choice :=
| Accept (q : AnyRequest) | Run (i : nat) | OfPool (a : action) | Time (d : Z) | DropClient (i : nat).

Definition outcome_of (id : nat) (p : Pool) : option (result JobResponse PoolError) :=
  snd <$> (list_find (λ r : nat * result JobResponse PoolError, r.1 = id) (returned p) ≫= λ r, Some r.2).

(** The next effect of handler [i]. *)
Definition advance (w : Whole) (i : nat) (q : AnyRequest) (tr : list (event svcE)) {X} (e : svcE X) :
    (X → prog svcE (result AnyResponse Status)) → option Whole :=
  let move {Y} (e : svcE Y) (k : Y → prog svcE (result AnyResponse Status)) :=
    '(v, x) ← respond (clock (pool w)) e (parts w);
    Some (mkWhole x (pool w) (<[i := mkHandler q (tr ++ [Ev e v]) (Running (k v))]> (requests w))
            (locking w) (gone w)) in
  match e in svcE X return (X → prog svcE (result AnyResponse Status)) → option Whole with
  | Submit job => λ k,
      if tx_open (pool w) then
        Some (mkWhole (parts w) (submit job (pool w))
                (<[i := mkHandler q tr (Awaiting (next_call (pool w)) job k)]> (requests w))
                (locking w) (gone w))
      else None
  | e => move e
  end.

Definition schedule (c : choice) (w : Whole) : option Whole :=
  match c with
  | Accept q =>
      Some (mkWhole (parts w) (pool w)
              (requests w ++ [mkHandler q [] (Running (rpc show description svc q))]) (locking w) (gone w))
  | Run i =>
      if decide (i ∈ gone w ∨ i ∈ locking w) then None else
      match requests w !! i with
      | Some (mkHandler q tr (Running (Vis e k))) => advance w i q tr e k
      | Some (mkHandler q tr (Awaiting id job k)) =>
          o ← outcome_of id (pool w);
          Some (mkWhole (parts w) (pool w)
                  (<[i := mkHandler q (tr ++ [Ev (Submit job) o]) (Running (k o))]> (requests w))
                  (locking w) (gone w))
      | _ => None
      end
  | OfPool a =>
      if internal_action a && enabled a (pool w)
      then Some (mkWhole (parts w) (apply a (pool w)) (requests w) (locking w) (gone w)) else None
  | Time d =>
      Some (mkWhole (with_cache (after_ticks d (key_cache (parts w))) (parts w)) (tick d (pool w))
              (requests w) (locking w) (gone w))
  | DropClient i =>
      if decide (i ∈ gone w) then None else
      h ← requests w !! i;
      if suspended h
      then Some (mkWhole (parts w) (release h (pool w)) (requests w) (locking w) ({[i]} ∪ gone w)) else None
  end.

Lemma advance_sound w i q tr X (e : svcE X) k w' :
  i ∉ gone w → i ∉ locking w →
  requests w !! i = Some (mkHandler q tr (Running (Vis e k))) → advance w i q tr e k = Some w' →
  step_of w w'.
Proof.
  intros Hg Hl Hi. destruct w as [x p hs lk gn]. simpl in Hg, Hl, Hi. revert Hi.
  unfold advance. destruct e; intros Hi H; cbv beta iota zeta in H; cbn [parts pool requests locking gone] in H;
    try (apply bind_Some in H as ([v x']&Hr%respond_sound&[= <-]);
         eapply w_effect; [done|done|by constructor|exact Hr]).
  destruct (tx_open p) eqn:Ho; simplify_eq. by apply w_submit.
Qed.

Lemma schedule_sound c w w' : schedule c w = Some w' → step_of w w'.
Proof.
  destruct w as [x p hs lk gn]. destruct c as [q|i|a|d|i]; simpl; intros H.
  - simplify_eq. constructor.
  - case_decide as Hd; [done|]. assert (i ∉ gn ∧ i ∉ lk) as [Hg Hl] by tauto.
    destruct (hs !! i) as [[q tr [[|X e k]|id job k]]|] eqn:Hi; try done.
    + by eapply (advance_sound (mkWhole x p hs lk gn)).
    + apply bind_Some in H as (o&Ho&[= <-]). unfold outcome_of in Ho.
      apply fmap_Some in Ho as ([id' o']&Hf&->). apply bind_Some in Hf as ([n r]&Hf&[= ->]).
      apply list_find_Some in Hf as (Hn&Hid&_). simpl in Hid. subst id'.
      apply w_return with id; [done..|]. by eapply list_elem_of_lookup_2.
  - destruct (internal_action a) eqn:Ha; [|done]. destruct (enabled a p) eqn:He; [|done].
    simplify_eq/=. by constructor.
  - simplify_eq. constructor.
  - case_decide; [done|]. apply bind_Some in H as (h&Hi&H). destruct (suspended h) eqn:Hs; [|done].
    simplify_eq. by constructor.
Qed.

Fixpoint play_all (cs : list choice) (w : Whole) : option Whole :=
  match cs with
  | [] => Some w
  | c :: cs => w' ← schedule c w; play_all cs w'
  end.

Lemma play_all_sound cs w w' : play_all cs w = Some w' → rtc step_of w w'.
Proof.
  revert w. induction cs as [|c cs IH]; intros w; simpl; [by intros [= ->]|].
  intros (w1&H1%schedule_sound&H2)%bind_Some. by eapply rtc_l, IH.
Qed.
End scheduler.

(** ** A witness: signing, verifying twice at once, encrypting and decrypting *)

Module WholeWitness.
Import Toy PoolWitness AnswersWitness.

Definition demo_workload : Policy.WorkloadEntry := {|
  Policy.identity := "spiffe://local/ns/default/sa/payments";
  Policy.description := None;
  Policy.grants :=
    [{| Policy.key_label := "demo"; Policy.operations := [Policy.Operation.Sign; Policy.Operation.Verify] |};
     {| Policy.key_label := "aes"; Policy.operations := [Policy.Operation.Encrypt; Policy.Operation.Decrypt] |}]
|}.

Definition demo_policy : Policy.Policy := Policy.compile {| Policy.workloads := [demo_workload] |}.

Definition full : PooledService := mkService true true.
Definition from_payments {A} (a : A) : Request A := mkRequest (Some [[x30; x01]]) a.

Definition demo_input : option (option Crypto.SigningInput) := Some (Some (Crypto.Message [x07])).
Definition demo_signature : bytes := let d := Crypto.toy_sha256 [x07] in d ++ d.
Definition demo_sign : Request SignRequest := from_payments (mkSign "demo" 1 demo_input).
Definition demo_verify : Request VerifyRequest := from_payments (mkVerify "demo" 1 demo_input demo_signature).
Definition demo_encrypt : Request EncryptRequest := from_payments (mkEncrypt "aes" 1 [x0a; x0b] []).
Definition demo_ciphertext : bytes :=
  [x0a; x0b] ++ toy_tag {| gcm_iv := replicate 12 x00; gcm_aad := []; gcm_tag_bits := 128 |} [x0a; x0b].
Definition demo_decrypt : Request DecryptRequest :=
  from_payments (mkDecrypt "aes" 1 demo_ciphertext (replicate 12 x00) []).

Definition demo_whole : Whole (CK := toy_token) (CH := list_channel) (LM := RL.demo_limiters) :=
  mkWhole (mkParts (Authorizer.new demo_policy) (CB.new CB.BreakerConfig_default 0)
             {| RL.buckets := (∅ : gmap string Z);
                RL.quota := {| RL.quota_per_second := 9; RL.quota_burst := 9 |};
                RL.allowed := 0; RL.rejected := 0 |} (cache_new 0))
    demo_pool [] ∅ ∅.

Abbreviation demo_play :=
  (play_all (CH := list_channel) Identity.demo_from_der (λ _, "") (λ _, "") full CacheConfig_default).

Definition served_by (worker : nat) (call : nat) : list choice :=
  [OfPool (ATake worker); OfPool (AFinish worker); OfPool (APoll call)].

Definition demo_choices : list choice :=
  [Accept (QSign demo_sign)] ++ replicate 5 (Run 0) ++ served_by 0 0 ++ replicate 6 (Run 0) ++
  [Accept (QVerify demo_verify); Accept (QVerify demo_verify)] ++
  replicate 7 (Run 1) ++ replicate 6 (Run 2) ++ served_by 1 1 ++ replicate 8 (Run 1) ++
  [Time 5] ++ replicate 7 (Run 2) ++
  [Accept (QEncrypt demo_encrypt)] ++ replicate 6 (Run 3) ++ served_by 0 2 ++ replicate 6 (Run 3) ++
  [Accept (QDecrypt demo_decrypt)] ++ replicate 5 (Run 4) ++ served_by 1 3 ++ replicate 6 (Run 4).

(** What every request was answered. *)
Definition replies_of (w : Whole (CK := toy_token) (CH := list_channel) (LM := RL.demo_limiters)) :
    list (AnyRequest * option (result AnyResponse Status)) :=
  (λ h, (h_request h, match h_activity h with Running (Ret r) => Some r | _ => None end)) <$> requests w.

Definition demo_end : Whole (CK := toy_token) (CH := list_channel) (LM := RL.demo_limiters) :=
  default demo_whole (demo_play demo_choices demo_whole).

Example demo_replies :
  replies_of demo_end =
  [(QSign demo_sign, Some (Ok (ASign (mkSignResp demo_signature "demo"))));
   (QVerify demo_verify, Some (Ok (AVerify (mkVerifyResp true false))));
   (QVerify demo_verify, Some (Ok (AVerify (mkVerifyResp true false))));
   (QEncrypt demo_encrypt, Some (Ok (AEncrypt (mkEncryptResp demo_ciphertext (replicate 12 x00)))));
   (QDecrypt demo_decrypt, Some (Ok (ADecrypt (mkDecryptResp [x0a; x0b]))))].
Proof. vm_compute. reflexivity. Qed.

Abbreviation demo_step :=
  (whole_step (CH := list_channel) Identity.demo_from_der (λ _, "") (λ _, "") full CacheConfig_default).

Lemma play_steps_to cs w :
  bool_decide (is_Some (demo_play cs w)) = true → rtc demo_step w (default w (demo_play cs w)).
Proof. intros [w' Hw]%bool_decide_eq_true. rewrite Hw. by eapply play_all_sound. Qed.

Lemma demo_run : rtc demo_step demo_whole demo_end.
Proof. apply play_steps_to. vm_compute. reflexivity. Qed.

Lemma demo_whole_start : whole_start demo_policy CB.BreakerConfig_default demo_whole.
Proof. split; [reflexivity|reflexivity|reflexivity|exact demo_started|done]. Qed.

Lemma demo_end_reachable :
  whole_reachable Identity.demo_from_der (λ _, "") (λ _, "") full CacheConfig_default
    demo_policy CB.BreakerConfig_default demo_end.
Proof. exists demo_whole. split; [exact demo_whole_start|exact demo_run]. Qed.

Lemma replies_replied w i q r : replies_of w !! i = Some (q, Some r) → replied w q r.
Proof.
  unfold replies_of. rewrite list_lookup_fmap_Some. intros ([q' tr [[r'|]|]]&[= -> ?]&Hi); simplify_eq.
  by exists i, tr.
Qed.

Lemma demo_replied i q r : replies_of demo_end !! i = Some (q, Some r) → replied demo_end q r.
Proof. apply replies_replied. Qed.

Lemma responses_come_from_the_token_witness :
  justified (pool demo_end) (QVerify demo_verify) (AVerify (mkVerifyResp true false)) ∧
  justified (pool demo_end) (QEncrypt demo_encrypt)
    (AEncrypt (mkEncryptResp demo_ciphertext (replicate 12 x00))).
Proof.
  split; apply (responses_come_from_the_token Identity.demo_from_der (λ _, "") (λ _, "") full
    CacheConfig_default demo_policy CB.BreakerConfig_default demo_end _ _ demo_end_reachable).
  - apply (demo_replied 2). rewrite demo_replies. reflexivity.
  - apply (demo_replied 3). rewrite demo_replies. reflexivity.
Defined.

Lemma crypto_round_trips_witness :
  valid (mkVerifyResp true false) = true ∧
  resp_plaintext (mkDecryptResp [x0a; x0b]) = encrypt_plaintext (get_ref demo_encrypt).
Proof.
  destruct (crypto_round_trips (CLL := Crypto.toy_laws) (SL := Crypto.toy_spki) (KS := toy_store) (ST := WorkerWitness.toy_sessions)
    Identity.demo_from_der (λ _, "") (λ _, "") full CacheConfig_default
    demo_policy CB.BreakerConfig_default demo_whole demo_end demo_whole_start demo_kept demo_run) as [Hv Ho].
  split.
  - apply (Hv demo_sign demo_verify (mkSignResp demo_signature "demo")); [| |reflexivity..].
    + apply (demo_replied 0). rewrite demo_replies. reflexivity.
    + apply (demo_replied 1). rewrite demo_replies. reflexivity.
  - apply (Ho demo_encrypt demo_decrypt (mkEncryptResp demo_ciphertext (replicate 12 x00))); [| |reflexivity..].
    + apply (demo_replied 3). rewrite demo_replies. reflexivity.
    + apply (demo_replied 4). rewrite demo_replies. reflexivity.
Defined.

(** A breaker that trips on the first timeout. *)
Definition touchy : CB.BreakerConfig := {|
  CB.failure_ratio := CB.failure_ratio CB.BreakerConfig_default; CB.minimum_requests := 1;
  CB.cfg_window := from_secs 10; CB.cooldown := from_secs 5; CB.cfg_probe_successes := 3 |}.

Definition touchy_whole : Whole (CK := toy_token) (CH := list_channel) (LM := RL.demo_limiters) :=
  mkWhole (mkParts (Authorizer.new demo_policy) (CB.new touchy 0)
             (limiter (parts demo_whole)) (cache_new 0)) demo_pool [] ∅ ∅.

Definition tripping : list choice :=
  [Accept (QSign demo_sign)] ++ replicate 5 (Run 0) ++ [Time (from_secs 5); OfPool (APoll 0)] ++
  replicate 2 (Run 0).

Definition tripped : Whole (CK := toy_token) (CH := list_channel) (LM := RL.demo_limiters) :=
  default touchy_whole (demo_play tripping touchy_whole).

Definition late : Whole (CK := toy_token) (CH := list_channel) (LM := RL.demo_limiters) :=
  default tripped (demo_play [Accept (QSign demo_sign); Run 1; Time 7] tripped).

Lemma tripped_reachable :
  whole_reachable Identity.demo_from_der (λ _, "") (λ _, "") full CacheConfig_default
    demo_policy touchy tripped.
Proof.
  exists touchy_whole. split; [split; [reflexivity|reflexivity|reflexivity|exact demo_started|done]|].
  apply play_steps_to. vm_compute. reflexivity.
Qed.

Lemma open_circuit_shields_the_token_witness :
  CB.state (breaker (parts late)) = CB.Open ∧
  ∀ h', requests late !! 1%nat = Some h' → reached_token h' = false.
Proof.
  destruct (open_circuit_shields_the_token Identity.demo_from_der (λ _, "") (λ _, "") full
    CacheConfig_default demo_policy touchy tripped (from_secs 5) late) as [Hs Hh].
  - split; [split|]; vm_compute; done.
  - exact tripped_reachable.
  - vm_compute. reflexivity.
  - vm_compute. reflexivity.
  - apply play_steps_to. vm_compute. reflexivity.
  - vm_compute. reflexivity.
  - split; [exact Hs|]. intros h' Hh'. destruct (Hh 1%nat h' Hh') as [(h&Hnone&_)|[Hr _]]; [|exact Hr].
    assert (length (requests tripped) = 1%nat) as Hlen by (vm_compute; reflexivity).
    apply lookup_lt_Some in Hnone. rewrite Hlen in Hnone. lia.
Defined.
End WholeWitness.
