(* ===== verification/Progress.v ===== *)
(** * No request is stuck

    A request may wait for the breaker's lock, for the pool, and for the load of a
    public key that another request runs, whose client may go away before it is
    done.  In every state the proxy reaches, every request that was not dropped can
    be brought to its reply within two timeouts of the pool: nobody waits for
    something that can no longer happen.  [shaped] and [budget] say what a handler may
    wait for and how often, [loads_ok] and [calls_ok] that somebody is there to wait
    for, and [comes_to] what can be reached and when. *)
From S2P Require Import Prelude RustStd Deps Effects Breaker Policy Identity Authorizer RateLimit Session.
From S2P Require Import Crypto Toy Worker Pool Answers Cache Wire Pooled System Whole.

Local Open Scope Z_scope.

(** ** Loads are taken on, waited for and finished in order *)

(** What a handler may do next, by where it is with a load. *)
Definition load_allows (l : LoadState) {X} (e : svcE X) : bool :=
  match l, e with
  | NoLoad, InKeyCache (Await _ _) | NoLoad, InKeyCache (Finish _ _ _) => false
  | NoLoad, InKeyCache c => asked c
  | NoLoad, _ => true
  | Joining key f, InKeyCache (Await key' f') => bool_decide (key' = key ∧ f' = f)
  | Loading key f, InKeyCache (Finish key' f' _) => bool_decide (key' = key ∧ f' = f)
  | Loading _ _, Submit _ => true
  | _, _ => false
  end.

Fixpoint shaped {A} (l : LoadState) (m : prog svcE A) : Prop :=
  match m with
  | Ret _ => l = NoLoad
  | Vis e k => load_allows l e = true ∧ ∀ x, shaped (load_next l (Ev e x)) (k x)
  end.

Lemma shaped_bind {A B} l (m : prog svcE A) (k : A → prog svcE B) :
  shaped l m → (∀ a, shaped NoLoad (k a)) → shaped l (prog_bind m k).
Proof.
  intros Hm Hk. revert l Hm. induction m as [a|X e c IH]; intros l; simpl; [intros ->; apply Hk|].
  intros [Ha Hc]. split; [done|]. intros x. by apply IH.
Qed.

Lemma shaped_try {A B F} l (m : prog svcE (result A F)) (k : A → prog svcE (result B F)) :
  shaped l m → (∀ a, shaped NoLoad (k a)) → shaped l (try_bind m k).
Proof. intros Hm Hk. apply shaped_bind; [done|]. by intros [a|e]; [apply Hk|]. Qed.

Lemma shaped_ret {A} (a : A) : shaped NoLoad (Ret a).
Proof. done. Qed.

Lemma shaped_trigger {X} (e : svcE X) :
  load_allows NoLoad e = true → (∀ x, load_next NoLoad (Ev e x) = NoLoad) → shaped NoLoad (trigger e).
Proof. intros Ha Hn. split; [done|]. intros x. by rewrite Hn. Qed.

Lemma lead_shaped key f :
  shaped (Loading key f) (lead_load (@InKeyCache) key (load_public_key key) f).
Proof. simpl. split; [done|]. intros o. split; [by apply bool_decide_eq_true_2|]. done. Qed.

Lemma try_get_shaped key :
  shaped NoLoad (try_get_with_by_ref (@InKeyCache) key (load_public_key key)).
Proof.
  unfold try_get_with_by_ref, call_cache. cbn [trigger prog_bind shaped]. split; [done|].
  intros [v|f|f]; [done| |apply lead_shaped]. cbn. split; [by apply bool_decide_eq_true_2|].
  intros [r|f']; [done|]. apply lead_shaped.
Qed.

Ltac shaped_steps :=
  repeat first
    [ apply shaped_ret | apply try_get_shaped | apply shaped_trigger; done
    | apply shaped_try; [|intros ?] | apply shaped_bind; [|intros ?] | case_match ].

Section shape.
Context {CL : CryptoLib}.
Context (show : CkError → string) (description : Code → string) (svc : PooledService).

Lemma admit_shaped {A} (r : Request A) key op : shaped NoLoad (admit_request svc r key op).
Proof. unfold admit_request, ret. shaped_steps. Qed.

Lemma record_shaped {A} op t (r : result A Status) : shaped NoLoad (record description op t r).
Proof. unfold record. shaped_steps. Qed.

Lemma observe_shaped {A} (r : result A Status) : shaped NoLoad (observe r).
Proof. unfold observe. shaped_steps. Qed.

Lemma attribute_shaped was_present v : shaped NoLoad (attribute (@InKeyCache) was_present v).
Proof. unfold attribute, call_cache. shaped_steps. Qed.

Lemma rpc_shaped q : shaped NoLoad (rpc show description svc q).
Proof.
  destruct q as [r|r|r|r|r]; unfold rpc, sign_rpc, verify_rpc, encrypt_rpc, decrypt_rpc, get_public_key_rpc,
    recorded, sign_inner, verify_inner, encrypt_inner, decrypt_inner, get_public_key_inner,
    sign_admitted, verify_admitted, encrypt_admitted, decrypt_admitted, get_public_key_admitted, ret;
    repeat first [ apply admit_shaped | apply record_shaped | apply observe_shaped
                 | apply attribute_shaped | progress shaped_steps ].
Qed.

Lemma runs_shaped {A} l (m m' : prog svcE A) tr :
  runs_to m tr m' → shaped l m → shaped (foldl load_next l tr) m'.
Proof.
  intros Hr Hm. induction Hr as [|m tr X e k x _ IH]; [done|].
  rewrite foldl_snoc. destruct (IH Hm) as [_ Hk]. apply Hk.
Qed.
End shape.

(** ** How often a request waits for the pool

    Waiting for another request's load is counted like a job of one's own; whoever
    takes a load on has one job left. *)

Definition spend {X} (e : svcE X) : nat :=
  match e with Submit _ | InKeyCache (Await _ _) => 1 | _ => 0 end.

Definition cost (ev : event svcE) : nat :=
  match load_next NoLoad ev with Loading _ _ => 1 | _ => match ev with Ev e _ => spend e end end.

Definition spent (tr : list (event svcE)) : nat := sum_list_with cost tr.

Fixpoint budget {A} (n : nat) (m : prog svcE A) : Prop :=
  match m with
  | Ret _ => True
  | Vis e k => ∀ x, (cost (Ev e x) ≤ n)%nat ∧ budget (n - cost (Ev e x)) (k x)
  end.

Lemma spend_cost {X} (e : svcE X) x : (spend e ≤ cost (Ev e x))%nat.
Proof. unfold cost. case_match; [done|done|]. destruct e as [| | | | | | |Y []| | |]; simpl; lia. Qed.

Lemma budget_more {A} n n' (m : prog svcE A) : (n ≤ n')%nat → budget n m → budget n' m.
Proof.
  revert n n'. induction m as [a|X e k IH]; intros n n' Hn; simpl; [done|]. intros Hm x.
  destruct (Hm x) as [Hc Hk]. split; [lia|]. eapply IH; [|exact Hk]. lia.
Qed.

Lemma budget_bind {A B} n n' (m : prog svcE A) (k : A → prog svcE B) :
  budget n m → (∀ a, budget n' (k a)) → budget (n + n') (prog_bind m k).
Proof.
  intros Hm Hk. revert n Hm. induction m as [a|X e c IH]; intros n; simpl.
  - intros _. eapply budget_more; [|apply Hk]. lia.
  - intros Hm x. destruct (Hm x) as [Hc Hn]. split; [lia|].
    replace (n + n' - cost (Ev e x))%nat with (n - cost (Ev e x) + n')%nat by lia. auto.
Qed.

(** A part that waits for nothing, before or after. *)
Lemma budget_free_l {A B} n (m : prog svcE A) (k : A → prog svcE B) :
  budget 0 m → (∀ a, budget n (k a)) → budget n (prog_bind m k).
Proof. apply (budget_bind 0 n). Qed.

Lemma budget_free_r {A B} n (m : prog svcE A) (k : A → prog svcE B) :
  budget n m → (∀ a, budget 0 (k a)) → budget n (prog_bind m k).
Proof. intros Hm Hk. rewrite <-(Nat.add_0_r n). by apply budget_bind. Qed.

Lemma budget_ret {A} n (a : A) : budget n (Ret a).
Proof. done. Qed.

Lemma budget_trigger {X} n (e : svcE X) : (∀ x, cost (Ev e x) ≤ n)%nat → budget n (trigger e).
Proof. by split. Qed.

Lemma lead_budget key f : budget 1 (lead_load (@InKeyCache) key (load_public_key key) f).
Proof. simpl. split; [done|]. split; [unfold cost; simpl; lia|done]. Qed.

Lemma try_get_budget key : budget 2 (try_get_with_by_ref (@InKeyCache) key (load_public_key key)).
Proof.
  unfold try_get_with_by_ref, call_cache. cbn [trigger prog_bind budget]. intros [v|f|f].
  - split; [unfold cost; simpl; lia|done].
  - split; [unfold cost; simpl; lia|]. intros [r|f']; (split; [unfold cost; simpl; lia|]); [done|].
    apply lead_budget.
  - split; [unfold cost; simpl; lia|]. apply lead_budget.
Qed.

Lemma spent_snoc tr e : spent (tr ++ [e]) = (spent tr + cost e)%nat.
Proof. unfold spent. rewrite sum_list_with_app. simpl. lia. Qed.

Lemma runs_budget {A} n (m m' : prog svcE A) tr :
  runs_to m tr m' → budget n m → (spent tr ≤ n)%nat ∧ budget (n - spent tr) m'.
Proof.
  intros Hr Hm. induction Hr as [|m tr X e k x _ IH]; [split; [apply Nat.le_0_l|]; by rewrite Nat.sub_0_r|].
  destruct (IH Hm) as [Hs Hk]. destruct (Hk x) as [Hc Hn]. rewrite spent_snoc. split; [lia|].
  by replace (n - (spent tr + cost (Ev e x)))%nat with (n - spent tr - cost (Ev e x))%nat by lia.
Qed.

Lemma load_next_cost l ev key f : load_next l ev = Loading key f → cost ev = 1%nat ∨ l = Loading key f.
Proof.
  destruct ev as [X e x]. destruct e as [| | | | | | |Y c| | |]; simpl; try (by right).
  destruct c; simpl; try (by right); unfold cost; simpl; destruct x; try done; by left.
Qed.

(** Who runs a load has paid for it. *)
Lemma loading_spent tr key f : foldl load_next NoLoad tr = Loading key f → (1 ≤ spent tr)%nat.
Proof.
  induction tr as [|ev tr IH] using rev_ind; [done|]. rewrite foldl_snoc, spent_snoc.
  intros [Hc|Hl]%load_next_cost; [lia|]. specialize (IH Hl). lia.
Qed.

(** At most one part of a handler waits. *)
Ltac budget_steps :=
  repeat first
    [ apply budget_ret | apply try_get_budget | apply budget_trigger; intros; unfold cost; simpl; lia
    | apply budget_free_l; [solve [budget_steps]|intros ?]
    | apply budget_free_r; [|intros ?; solve [budget_steps]] | case_match ].

Section budgets.
Context {CL : CryptoLib}.
Context (show : CkError → string) (description : Code → string) (svc : PooledService).

Lemma admit_budget {A} (r : Request A) key op : budget 0 (admit_request svc r key op).
Proof. unfold admit_request, try_bind, ret. budget_steps. Qed.

Lemma record_budget {A} op t (r : result A Status) : budget 0 (record description op t r).
Proof. unfold record. budget_steps. Qed.

Lemma observe_budget {A} (r : result A Status) : budget 0 (observe r).
Proof. unfold observe. budget_steps. Qed.

Lemma attribute_budget was_present v : budget 0 (attribute (@InKeyCache) was_present v).
Proof. unfold attribute, call_cache. budget_steps. Qed.

Lemma submit_budget job : budget 2 (submit_observed job).
Proof.
  apply budget_free_r; [apply budget_trigger; intros; unfold cost; simpl; lia|].
  intros r. apply budget_free_l; [apply observe_budget|done].
Qed.

Lemma public_key_budget key : budget 2 (public_key show key).
Proof.
  unfold public_key, get_or_load, call_cache, try_bind.
  apply budget_free_r; [|intros r; apply budget_free_l; [apply observe_budget|done]].
  apply budget_free_l; [budget_steps|]. intros was_present. apply budget_free_r; [apply try_get_budget|].
  intros [v|e]; [|done]. apply budget_free_l; [apply attribute_budget|done].
Qed.

Lemma rpc_budget q : budget 2 (rpc show description svc q).
Proof.
  destruct q as [r|r|r|r|r]; unfold rpc, sign_rpc, verify_rpc, encrypt_rpc, decrypt_rpc, get_public_key_rpc,
    recorded, sign_inner, verify_inner, encrypt_inner, decrypt_inner, get_public_key_inner,
    sign_admitted, verify_admitted, encrypt_admitted, decrypt_admitted, get_public_key_admitted, try_bind, ret.
  all: repeat first
    [ apply budget_ret | apply submit_budget | apply public_key_budget
    | apply budget_free_l; [solve [apply admit_budget | apply budget_ret | apply budget_trigger; intros; done]|intros ?]
    | apply budget_free_r; [|intros ?; solve [apply budget_free_l; [apply record_budget|done] | repeat (simpl; try done; case_match)]]
    | case_match ].
Qed.
End budgets.

(** ** Loads, those who run them and those who wait *)

(** [f] is, or was, a load of [key], and no older than the one that runs. *)
Record tracks (c : CacheState) (key : string) (f : nat) : Prop := {
  tk_bound : (f < next_flight c)%nat;
  tk_flight key' : flights c !! key' = Some f → key' = key;
  tk_result key' r : results c !! f = Some (key', r) → key' = key;
  tk_newer f' : flights c !! key = Some f' → (f ≤ f')%nat
}.

Record loads_ok (c : CacheState) (ls : list LoadState) (gn : gset nat) : Prop := {
  (** a load that runs has someone who runs it, dropped or not *)
  lk_flight key f : flights c !! key = Some f →
    tracks c key f ∧ results c !! f = None ∧ ∃ j, ls !! j = Some (Loading key f);
  lk_join j key f : ls !! j = Some (Joining key f) → tracks c key f;
  (** who runs a load and was not dropped still has it *)
  lk_load j key f : ls !! j = Some (Loading key f) →
    (f < next_flight c)%nat ∧ (j ∉ gn → flights c !! key = Some f);
  lk_unique j j' key key' f :
    ls !! j = Some (Loading key f) → ls !! j' = Some (Loading key' f) → j = j';
  (** results are of loads that were started *)
  lk_results f : is_Some (results c !! f) → (f < next_flight c)%nat
}.

Definition same_loads (c c' : CacheState) : Prop :=
  flights c' = flights c ∧ results c' = results c ∧ next_flight c' = next_flight c.

Lemma tracks_same c c' key f : same_loads c c' → tracks c key f → tracks c' key f.
Proof. intros (Hf&Hr&Hn) [? ? ? ?]. split; by rewrite ?Hf, ?Hr, ?Hn. Qed.

Lemma loads_same c c' ls gn : same_loads c c' → loads_ok c ls gn → loads_ok c' ls gn.
Proof.
  intros Hs [Hf Hj Hl Hu Hb]. pose proof Hs as (Hfl&Hre&Hn). split.
  - intros key f. rewrite Hfl, Hre. intros H. destruct (Hf key f H) as (?&?&?). eauto using tracks_same.
  - intros j key f H. eapply tracks_same; eauto.
  - intros j key f. rewrite Hfl, Hn. apply Hl.
  - done.
  - intros f. rewrite Hre, Hn. apply Hb.
Qed.

(** Handler [i] neither runs a load nor starts to. *)
Lemma loads_move c ls gn i l l' :
  loads_ok c ls gn → ls !! i = Some l → (∀ key f, l ≠ Loading key f) →
  (l' = NoLoad ∨ ∃ key f, l' = Joining key f ∧ tracks c key f) → loads_ok c (<[i := l']> ls) gn.
Proof.
  intros [Hf Hj Hl Hu Hb] Hi Hn Hl'.
  assert (∀ j key f, <[i := l']> ls !! j = Some (Loading key f) → ls !! j = Some (Loading key f)) as Hold.
  { intros j key f [(<-&->&_)|[_ H]]%list_lookup_insert_Some; [|done].
    destruct Hl' as [?|(?&?&?&?)]; congruence. }
  split; try by eauto.
  - intros key f H. destruct (Hf key f H) as (?&?&j&Hlj). split; [done|]. split; [done|]. exists j.
    rewrite list_lookup_insert_ne; [done|]. intros <-. rewrite Hi in Hlj. simplify_eq. by eapply Hn.
  - intros j key f [(<-&->&_)|[_ H]]%list_lookup_insert_Some; [|eauto].
    destruct Hl' as [?|(?&?&[= -> ->]&?)]; done.
Qed.

Lemma loads_append c ls gn : loads_ok c ls gn → loads_ok c (ls ++ [NoLoad]) gn.
Proof.
  intros [Hf Hj Hl Hu Hb].
  assert (∀ j l, (ls ++ [NoLoad]) !! j = Some l → l = NoLoad ∨ ls !! j = Some l) as Hold.
  { intros j l [H|[_ H]]%lookup_app_Some; [by right|].
    apply list_lookup_singleton_Some in H as [_ <-]. by left. }
  split; [|intros j key f H|intros j key f H|intros j j' key key' f H H'|done].
  - intros key f H. destruct (Hf key f H) as (?&?&j&Hlj). split; [done|]. split; [done|]. exists j.
    by apply lookup_app_l_Some.
  - destruct (Hold _ _ H); [done|eauto].
  - destruct (Hold _ _ H); [done|eauto].
  - destruct (Hold _ _ H), (Hold _ _ H'); try done. eauto.
Qed.

Lemma loads_gone c ls gn i : loads_ok c ls gn → loads_ok c ls ({[i]} ∪ gn).
Proof.
  intros [Hf Hj Hl Hu Hb]. split; try done. intros j key f H. destruct (Hl j key f H) as [? Hg].
  split; [done|]. intros ?. apply Hg. set_solver.
Qed.

Lemma tracks_start c key0 key f :
  (∀ f, is_Some (results c !! f) → (f < next_flight c)%nat) →
  (∀ key f, flights c !! key = Some f → tracks c key f) → flights c !! key0 = None →
  tracks c key f → tracks (start_flight key0 c) key f.
Proof.
  intros Hb Hfl H0 [Hn Hf Hr Ho]. split; simpl; [lia| |done|].
  - intros key' [[<- <-]|[_ H]]%lookup_insert_Some; [lia|auto].
  - intros f' [[<- <-]|[_ H]]%lookup_insert_Some; [lia|auto].
Qed.

(** Handler [i] takes on a load. *)
Lemma loads_start c ls gn i l key :
  loads_ok c ls gn → ls !! i = Some l → (∀ key f, l ≠ Loading key f) → flights c !! key = None →
  i ∉ gn →
  loads_ok (start_flight key c) (<[i := Loading key (next_flight c)]> ls) gn.
Proof.
  intros [Hf Hj Hl Hu Hb] Hi Hn H0 Hg.
  assert (∀ key f, flights c !! key = Some f → tracks c key f) as Htr by (intros; by apply Hf).
  assert (∀ k f, tracks c k f → tracks (start_flight key c) k f) as Hts by (intros; by apply tracks_start).
  assert (i < length ls)%nat as Hlt by by eapply lookup_lt_Some.
  assert (results c !! next_flight c = None) as Hfresh.
  { destruct (results c !! next_flight c) eqn:H; [|done].
    assert (next_flight c < next_flight c)%nat by (apply Hb; eauto). lia. }
  split; simpl.
  - intros k f [[<- <-]|[Hne H]]%lookup_insert_Some.
    + split; [|split; [done|]].
      * split; simpl; [lia| | |].
        -- intros k' [[<- _]|[_ H]]%lookup_insert_Some; [done|]. apply Htr, tk_bound in H. lia.
        -- intros k' r H. congruence.
        -- intros f' [[_ <-]|[? _]]%lookup_insert_Some; [lia|done].
      * exists i. by apply list_lookup_insert_eq.
    + destruct (Hf k f H) as (Ht&Hr&j&Hlj). split; [auto|]. split; [done|]. exists j.
      rewrite list_lookup_insert_ne; [done|]. intros <-. rewrite Hi in Hlj. simplify_eq. by eapply Hn.
  - intros j k f [(_&?&_)|[_ H]]%list_lookup_insert_Some; [done|]. apply Hts. eauto.
  - intros j k f [(<-&[= <- <-]&_)|[Hne H]]%list_lookup_insert_Some.
    + split; [lia|]. intros _. by apply lookup_insert_eq.
    + destruct (Hl j k f H) as [? Hlive]. split; [lia|]. intros Hj'. specialize (Hlive Hj').
      rewrite lookup_insert_ne; [done|]. intros <-. congruence.
  - intros j j' k k' f H H'. apply list_lookup_insert_Some in H as [(<-&H&_)|[Hne H]];
      apply list_lookup_insert_Some in H' as [(<-&H'&_)|[Hne' H']]; simplify_eq; try done.
    + destruct (Hl _ _ _ H'). lia.
    + destruct (Hl _ _ _ H). lia.
    + by eapply Hu.
  - intros f Hf'. specialize (Hb f Hf'). lia.
Qed.

(** Handler [i], if it was not dropped, finishes its load; or, if it was, the load
    is given up. *)
Lemma loads_remove c c' ls ls' gn i key f :
  loads_ok c ls gn → ls !! i = Some (Loading key f) → flights c !! key = Some f →
  flights c' = delete key (flights c) → next_flight c' = next_flight c →
  (∀ f' x, results c' !! f' = Some x → results c !! f' = Some x ∨ (f' = f ∧ x.1 = key)) →
  (∀ f', f' ≠ f → results c' !! f' = results c !! f') →
  (ls' = <[i := NoLoad]> ls ∨ ls' = ls ∧ i ∈ gn) → loads_ok c' ls' gn.
Proof.
  intros [Hf Hj Hl Hu Hb] Hi Hflight Hfl Hn Hre Hre' Hls.
  destruct (Hf key f Hflight) as (Ht&_&_).
  assert (∀ k f, tracks c k f → tracks c' k f) as Htr.
  { intros k f0 [Hb0 Hf0 Hr0 Ho0]. split; rewrite ?Hfl, ?Hn; [done| | |].
    - intros k' [_ H]%lookup_delete_Some. auto.
    - intros k' r [H|[-> <-]]%Hre; [eauto|]. by apply Hf0.
    - intros f' [_ H]%lookup_delete_Some. auto. }
  assert (∀ j l, ls' !! j = Some l → l = NoLoad ∨ ls !! j = Some l) as Hold.
  { intros j l H. destruct Hls as [->|[-> _]]; [|by right].
    apply list_lookup_insert_Some in H as [(_&<-&_)|[_ H]]; auto. }
  assert (∀ j k f', j ≠ i ∨ j ∉ gn → ls' !! j = Some (Loading k f') → j ≠ i) as Hother.
  { intros j k f' Hj' H ->. destruct Hls as [->|[-> Hg]]; [|naive_solver].
    rewrite list_lookup_insert_eq in H by (by eapply lookup_lt_Some). done. }
  split.
  - intros k f' H. rewrite Hfl in H. apply lookup_delete_Some in H as [Hne H].
    destruct (Hf k f' H) as (Ht'&Hr&j&Hlj). split; [auto|]. split.
    + rewrite Hre'; [done|]. intros ->. by apply Hne, (tk_flight _ _ _ Ht').
    + exists j. destruct Hls as [->|[-> _]]; [|done]. rewrite list_lookup_insert_ne; [done|].
      intros <-. congruence.
  - intros j k f' H. destruct (Hold _ _ H); [done|]. eauto.
  - intros j k f' H. destruct (Hold _ _ H) as [|H']; [done|]. destruct (Hl j k f' H') as [? Hlive].
    rewrite Hn, Hfl. split; [done|]. intros Hj'. rewrite lookup_delete_ne; [by apply Hlive|].
    intros <-. apply (Hother j key f' (or_intror Hj') H). specialize (Hlive Hj').
    rewrite Hflight in Hlive. simplify_eq. by eapply Hu.
  - intros j j' k k' f' H H'. destruct (Hold _ _ H), (Hold _ _ H'); try done. by eapply Hu.
  - intros f' [x Hx]. rewrite Hn. destruct (Hre f' x Hx) as [H|[-> _]]; [|apply Ht]. apply Hb. eauto.
Qed.

(** ** Calls to the pool and those who await them *)

Section progress.
Context {CK : Cryptoki} {CL : CryptoLib} {CH : Channel} {CHO : ChannelOk CH} {LM : RL.Limiters}.
Context (from_der : bytes → option Identity.X509Certificate).
Context (show : CkError → string) (description : Code → string) (svc : PooledService).
Context (cache_config : CacheConfig).

Abbreviation step_of := (whole_step from_der show description svc cache_config).

(** The call will return, or did. *)
Definition awaits (p : Pool) (id : nat) : Prop :=
  is_Some (awaiting p !! id) ∨ ∃ o, (id, o) ∈ returned p.

Definition call_of (h : Handler) : option nat :=
  match h_activity h with Awaiting id _ _ => Some id | Running _ => None end.

Record calls_ok (p : Pool) (cs : list (option nat)) (gn : gset nat) : Prop := {
  cl_bound i id : cs !! i = Some (Some id) → (id < next_call p)%nat;
  cl_awaits i id : cs !! i = Some (Some id) → i ∉ gn → awaits p id;
  cl_unique i i' id : cs !! i = Some (Some id) → cs !! i' = Some (Some id) → i = i'
}.

Lemma awaits_internal a p id : internal_action a = true → awaits p id → awaits (apply a p) id.
Proof.
  intros Ha [[d Hd]|[o Ho]]; [|right; exists o; by apply returned_apply].
  destruct a as [|id'| | | | | |]; try done; simpl.
  2-4: left; unfold worker_take, worker_finish, worker_exit; repeat (case_match; try done); by eexists.
  2: left; by eexists.
  unfold poll. destruct (awaiting p !! id') as [d'|] eqn:Hi; [|left; by eexists].
  destruct (decide (id' = id)) as [->|Hne].
  - destruct (sent p !! id) as [o|]; [right; exists o; left|].
    destruct (_ <=? _); [right; eexists; left|left; by eexists].
  - left. destruct (sent p !! id') as [o|]; [|destruct (_ <=? _)]; simpl;
      rewrite ?lookup_delete_ne by done; by eexists.
Qed.

Lemma next_call_internal a (p : Pool) : internal_action a = true → next_call (apply a p) = next_call p.
Proof.
  destruct a; try done; simpl; intros _;
    unfold poll, worker_take, worker_finish, worker_exit; repeat (case_match; try done).
Qed.

Lemma next_call_submit job (p : Pool) : next_call (submit job p) = S (next_call p).
Proof. unfold submit. by repeat (case_match; try done). Qed.

Lemma awaits_submit job p id : awaits p id ∨ id = next_call p → awaits (submit job p) id.
Proof.
  intros Hid. unfold submit, awaits. cbn [tx with_metrics].
  destruct (try_send _ _) as [[[]|[]] c]; simpl.
  - destruct Hid as [[Hd|Ho]| ->]; [|by right|left; rewrite lookup_insert_eq; by eexists].
    left. destruct (decide (id = next_call p)) as [->|]; [rewrite lookup_insert_eq; by eexists|].
    by rewrite lookup_insert_ne.
  - destruct (decide (id = next_call p)) as [->|Hne]; [right; eexists; left|].
    destruct Hid as [[Hd|[o Ho]]| ->]; [|right; exists o; by right|done].
    left. by rewrite lookup_delete_ne.
  - destruct (decide (id = next_call p)) as [->|Hne]; [right; eexists; left|].
    destruct Hid as [[Hd|[o Ho]]| ->]; [|right; exists o; by right|done].
    left. by rewrite lookup_delete_ne.
Qed.

Lemma calls_pool p p' cs gn :
  next_call p' = next_call p → (∀ id, awaits p id → awaits p' id) → calls_ok p cs gn → calls_ok p' cs gn.
Proof. intros Hn Ha [Hb Hw Hu]. split; rewrite ?Hn; eauto. Qed.

(** Handler [i] gets its answer, or a handler arrives. *)
Lemma calls_fewer p cs cs' gn :
  (∀ i id, cs' !! i = Some (Some id) → cs !! i = Some (Some id)) → calls_ok p cs gn → calls_ok p cs' gn.
Proof. intros Hc [Hb Hw Hu]. split; eauto. Qed.

Lemma calls_submit_ok job p cs gn i :
  calls_ok p cs gn → calls_ok (submit job p) (<[i := Some (next_call p)]> cs) gn.
Proof.
  intros [Hb Hw Hu]. split.
  - intros j id. rewrite next_call_submit.
    intros [(_&[= <-]&_)|[_ H]]%list_lookup_insert_Some; [lia|]. specialize (Hb _ _ H). lia.
  - intros j id [(_&[= <-]&_)|[_ H]]%list_lookup_insert_Some Hg; apply awaits_submit; [by right|].
    left. eauto.
  - intros j j' id H H'. apply list_lookup_insert_Some in H as [(<-&H&_)|[Hne H]];
      apply list_lookup_insert_Some in H' as [(<-&H'&_)|[Hne' H']]; simplify_eq; try done.
    + specialize (Hb _ _ H'). lia.
    + specialize (Hb _ _ H). lia.
    + by eapply Hu.
Qed.

Lemma calls_drop p cs gn i h :
  cs !! i = Some (call_of h) → calls_ok p cs gn → calls_ok (release h p) cs ({[i]} ∪ gn).
Proof.
  intros Hi [Hb Hw Hu]. unfold release, call_of in *. destruct (h_activity h) as [|id job k].
  - split; try done. intros j id Hj Hg. eapply Hw; [done|set_solver].
  - split; [done| |done]. intros j id' Hj Hg. assert (id' ≠ id) as Hne.
    { intros ->. apply Hg. assert (j = i) by (by eapply Hu). set_solver. }
    destruct (Hw j id' Hj) as [Hd|Ho]; [set_solver|left|by right]. simpl. by rewrite lookup_delete_ne.
Qed.

(** ** Deadlines *)

(** How long a caller waits for the pool. *)
Definition patience (p : Pool) : Z := Z.max 0 (job_timeout p).

Definition punctual (p : Pool) : Prop :=
  ∀ id d, awaiting p !! id = Some d → d ≤ clock p + patience p.

Lemma patience_apply a (p : Pool) : patience (apply a p) = patience p.
Proof.
  unfold patience. destruct a; try done; simpl;
    unfold submit, poll, worker_take, worker_finish, worker_exit; repeat (case_match; try done).
Qed.

Lemma punctual_apply a (p : Pool) : punctual p → punctual (apply a p).
Proof.
  unfold punctual. rewrite patience_apply. intros Hp id d.
  destruct a as [req| | | | | | |e]; simpl;
    unfold submit, poll, worker_take, worker_finish, worker_exit; repeat (case_match; simpl); try by eauto.
  all: try (intros [_ H']%lookup_delete_Some; by eauto).
  - intros [[_ <-]|[_ H']]%lookup_insert_Some; [unfold patience; simpl; lia|by eauto].
  - intros H'. specialize (Hp id d H'). lia.
Qed.

(** ** The invariant *)

Lemma load_allows_loading l X (e : cacheE X) :
  load_allows l (InKeyCache e) = true →
  match e with
  | Await key f => l = Joining key f
  | Finish key f _ => l = Loading key f
  | _ => l = NoLoad
  end.
Proof.
  destruct l as [|key f|key f], e as [| |key' f'|key' f' r| | | | | | |]; simpl; try done.
  all: intros H%bool_decide_eq_true; destruct H as [-> ->]; done.
Qed.

Lemma loads_start_dropped c ls gn i l key :
  loads_ok c ls gn → ls !! i = Some l → (∀ key f, l ≠ Loading key f) → flights c !! key = None → i ∉ gn →
  loads_ok (start_flight key (drop_entry key c)) (<[i := Loading key (next_flight c)]> ls) gn.
Proof.
  intros Hok. apply (loads_start (drop_entry key c)). by apply (loads_same c).
Qed.

Lemma cache_answer_loads X (e : cacheE X) c v c' ls gn i l :
  cache_answer cache_config X e c v c' → asked e = true → loads_ok c ls gn → ls !! i = Some l →
  load_allows l (InKeyCache e) = true → i ∉ gn →
  loads_ok c' (<[i := load_next l (Ev (InKeyCache e) v)]> ls) gn.
Proof.
  intros Ha Hask Hok Hi Hl%load_allows_loading Hg.
  destruct Ha; try done; subst l; simpl.
  all: try (by rewrite list_insert_id).
  all: try (rewrite list_insert_id by done; by apply (loads_same s)).
  all: try (by apply loads_start_dropped with NoLoad).
  all: try (by apply loads_start_dropped with (Joining key f)).
  - apply loads_move with NoLoad; [done|done|done|right]. exists key, f. split; [done|]. by eapply lk_flight.
  - by apply loads_move with (Joining key f); [|done|done|left].
  - by apply loads_move with (Joining key f); [|done|done|left].
  - by apply loads_move with (Joining key f); [|done|done|left].
  - eapply (loads_remove s _ ls _ gn i key f); try done; [|intros f' Hne|by left].
    + intros f' x; simpl. intros [[<- <-]|[_ Hx]]%lookup_insert_Some; auto.
    + simpl. by rewrite lookup_insert_ne.
Qed.

Lemma answer_loads t X (e : svcE X) x v x' ls gn i l :
  answer from_der cache_config t X e x v x' → loads_ok (key_cache x) ls gn → ls !! i = Some l →
  load_allows l e = true → i ∉ gn →
  loads_ok (key_cache x') (<[i := load_next l (Ev e v)]> ls) gn.
Proof.
  intros Ha Hok Hi Hl Hg. destruct Ha; simpl; try (by rewrite list_insert_id).
  by eapply cache_answer_loads.
Qed.

(** Whether a handler is at the breaker's [allow]. *)
Definition at_allow (h : Handler) : bool :=
  match h_activity h with Running (Vis Allow _) => true | _ => false end.

Record live (w : Whole) : Prop := {
  lv_ok : whole_ok show description svc cache_config w;
  lv_open : tx_open (pool w) = true;
  lv_loads : loads_ok (key_cache (parts w)) (load_of <$> requests w) (gone w);
  lv_calls : calls_ok (pool w) (call_of <$> requests w) (gone w);
  lv_locking i : i ∈ locking w → at_allow <$> requests w !! i = Some true;
  lv_punctual : punctual (pool w)
}.

Lemma live_shaped w i h : live w → requests w !! i = Some h → shaped (load_of h) (remaining (h_activity h)).
Proof.
  intros Hw Hi. pose proof (Forall_lookup_1 _ _ _ _ (wo_handlers _ _ _ _ _ (lv_ok _ Hw)) Hi) as [Hr _ _].
  by eapply runs_shaped, rpc_shaped.
Qed.

Lemma load_of_snoc q tr a a' e :
  load_of (mkHandler q (tr ++ [e]) a') = load_next (load_of (mkHandler q tr a)) e.
Proof. unfold load_of. simpl. by rewrite foldl_snoc. Qed.

Lemma calls_performs p hs i h gn :
  call_of h = None → calls_ok p (call_of <$> hs) gn → calls_ok p (call_of <$> <[i := h]> hs) gn.
Proof.
  intros Hh. apply calls_fewer. intros j id. rewrite list_fmap_insert, Hh.
  by intros [(_&?&_)|[_ H]]%list_lookup_insert_Some.
Qed.

Lemma locking_insert (lk lk' : gset nat) (hs : list Handler) i h :
  (∀ j, j ∈ lk → at_allow <$> hs !! j = Some true) →
  (∀ j, j ∈ lk' → j ∈ lk ∧ j ≠ i) →
  ∀ j, j ∈ lk' → at_allow <$> <[i := h]> hs !! j = Some true.
Proof.
  intros Hl Hs j [Hj Hne]%Hs. rewrite list_lookup_insert_ne by done. by apply Hl.
Qed.

Lemma live_step w w' : step_of w w' → live w → tx_open (pool w') = true → live w'.
Proof.
  intros Hs Hw Hopen. pose proof (whole_ok_step _ _ _ _ _ _ _ Hs (lv_ok _ Hw)) as Hok'.
  pose proof (λ i h, live_shaped w i h Hw) as Hsh. destruct Hw as [_ _ Hl Hc Hk Hd].
  destruct Hs as [x p hs lk gn q|x p hs lk gn i X e v x' hs' Hg Hni Hperf Ha
    |x p hs lk gn i q tr k Hg Hi _|x p hs lk gn i ok b hs' Hlk Hperf _|x p hs lk gn i q tr job k Hg Hi _
    |x p hs lk gn i q tr id job k o Hg Hi _|x p hs lk gn a Ha _|x p hs lk gn d|x p hs lk gn key
    |x p hs lk gn i h Hg Hi _|x p hs lk gn i h key f Hg Hi Hld Hf]; simpl in *; split; simpl; try done.
  - rewrite fmap_app. by apply loads_append.
  - eapply calls_fewer; [|exact Hc]. intros i id. rewrite fmap_app.
    intros [?|[_ H]]%lookup_app_Some; [done|]. by apply list_lookup_singleton_Some in H as [_ ?].
  - intros i (h&Hi&Ha)%Hk%fmap_Some. erewrite lookup_app_l_Some; [|done]. simpl. by f_equal.
  - destruct Hperf as [hs q tr k Hi]. rewrite list_fmap_insert, (load_of_snoc _ _ (Running (Vis e k))).
    eapply answer_loads; [done|done| |by apply (Hsh i _ Hi)|done]. by rewrite list_lookup_fmap, Hi.
  - destruct Hperf as [hs q tr k Hi]. by apply calls_performs.
  - destruct Hperf as [hs q tr k Hi]. eapply locking_insert; [exact Hk|]. intros j Hj. split; [done|]. by intros ->.
  - intros j [->%elem_of_singleton|Hj]%elem_of_union; [by rewrite Hi|auto].
  - destruct Hperf as [hs q tr k Hi]. rewrite list_fmap_insert, (load_of_snoc _ _ (Running (Vis Allow k))).
    rewrite list_insert_id; [done|]. by rewrite list_lookup_fmap, Hi.
  - destruct Hperf as [hs q tr k Hi]. by apply calls_performs.
  - destruct Hperf as [hs q tr k Hi]. eapply locking_insert; [exact Hk|]. set_solver.
  - rewrite list_fmap_insert, list_insert_id; [done|]. by rewrite list_lookup_fmap, Hi.
  - rewrite list_fmap_insert. by apply calls_submit_ok.
  - eapply locking_insert; [exact Hk|]. intros j Hj. split; [done|]. intros ->.
    specialize (Hk _ Hj). by rewrite Hi in Hk.
  - by apply (punctual_apply (ASubmit job)).
  - rewrite list_fmap_insert, (load_of_snoc _ _ (Awaiting id job k)).
    rewrite list_insert_id; [done|]. by rewrite list_lookup_fmap, Hi.
  - by apply calls_performs.
  - eapply locking_insert; [exact Hk|]. intros j Hj. split; [done|]. intros ->.
    specialize (Hk _ Hj). by rewrite Hi in Hk.
  - eapply calls_pool; [by apply next_call_internal|intros; by apply awaits_internal|done].
  - by apply punctual_apply.
  - by apply (loads_same (key_cache x)).
  - by apply (calls_pool p).
  - by apply (punctual_apply (ATick d)).
  - by apply (loads_same (key_cache x)).
  - by apply loads_gone.
  - apply calls_drop; [|done]. by rewrite list_lookup_fmap, Hi.
  - unfold release. destruct (h_activity h); [done|]. by apply (punctual_apply (ACancel id)).
  - eapply (loads_remove _ _ _ _ _ i key f); try done; [by rewrite list_lookup_fmap, Hi, <-Hld|auto|by right].
Qed.

Lemma open_step w w' : step_of w w' → tx_open (pool w') = true → tx_open (pool w) = true.
Proof.
  destruct 1 as [| | | |x p hs lk gn i q tr job k _ _ Ho| |x p hs lk gn a Ha _| | |x p hs lk gn i h _ _ _|];
    simpl; try done.
  - destruct a; try done; simpl;
      unfold poll, worker_take, worker_finish, worker_exit; repeat (case_match; try done).
  - unfold release. by destruct (h_activity h).
Qed.

Lemma started_open (p : Pool) : started p → tx_open p = true.
Proof.
  intros (se&order&now&tok&config&w&w'&Hq&Hs). unfold start in Hs.
  repeat (case_match; simplify_eq; try done).
Qed.

Lemma started_punctual (p : Pool) : started p → punctual p.
Proof.
  intros (se&order&now&tok&config&w&w'&Hq&Hs) id d. unfold start in Hs.
  repeat (case_match; simplify_eq; try done).
Qed.

Lemma live_start policy cfg w : whole_start policy cfg w → live w.
Proof.
  intros Hw. pose proof (whole_start_ok show description svc cache_config _ _ _ Hw) as Hok.
  destruct Hw as [_ _ Hc Hp (Hq&Hlk&_)]. split; rewrite ?Hc, ?Hq, ?Hlk; [done|by apply started_open| | |done|].
  - split; intros; simpl in *; rewrite ?lookup_empty, ?lookup_nil in *; done.
  - split; intros; simpl in *; rewrite ?lookup_nil in *; done.
  - by apply started_punctual.
Qed.

Lemma live_reachable policy cfg w :
  whole_reachable from_der show description svc cache_config policy cfg w →
  tx_open (pool w) = true → live w.
Proof.
  intros (w0&H0&Hr). refine (rtc_ind_r (λ w, tx_open (pool w) = true → live w) w0 _ _ w Hr).
  - intros _. by eapply live_start.
  - intros w1 w2 _ H12 IH Ho. eapply live_step; eauto using open_step.
Qed.

(** ** Getting on *)

(** A step in which no client arrives and none goes away. *)
Definition own_step (w w' : Whole) : Prop :=
  step_of w w' ∧ length (requests w') = length (requests w) ∧ gone w' = gone w.

Lemma own_steps_gone w w' : rtc own_step w w' → gone w' = gone w.
Proof. induction 1 as [|w1 w2 w3 (_&_&Hg) _ IH]; congruence. Qed.

(** What [w] can become within [n] times the pool's timeout. *)
Record comes_to (n : nat) (w w' : Whole) : Prop := {
  ct_steps : rtc own_step w w';
  ct_live : live w';
  ct_time : time w' ≤ time w + Z.of_nat n * patience (pool w);
  ct_patience : patience (pool w') = patience (pool w)
}.

Lemma comes_refl w : live w → comes_to 0 w w.
Proof. intros Hw. split; [done|done|lia|done]. Qed.

Lemma comes_trans n n' w1 w2 w3 : comes_to n w1 w2 → comes_to n' w2 w3 → comes_to (n + n') w1 w3.
Proof.
  intros [H1 _ Ht1 Hp1] [H2 Hl Ht2 Hp2]. rewrite Hp1 in Ht2. split; [by etrans|done|lia|congruence].
Qed.

Lemma comes_later n n' w w' : (n ≤ n')%nat → comes_to n w w' → comes_to n' w w'.
Proof.
  intros Hn [H1 Hl Ht Hp]. split; [done|done| |done].
  assert (0 ≤ patience (pool w)) by (unfold patience; lia). nia.
Qed.

Lemma comes_once w w' :
  live w → step_of w w' → tx_open (pool w') = true → gone w' = gone w →
  length (requests w') = length (requests w) → time w' ≤ time w →
  patience (pool w') = patience (pool w) → comes_to 0 w w'.
Proof.
  intros Hw Hs Ho Hg Hl Ht Hp. split; [by apply rtc_once|by eapply live_step|lia|done].
Qed.

Lemma comes_gone n w w' : comes_to n w w' → gone w' = gone w.
Proof. intros [Hs _ _ _]. by apply own_steps_gone. Qed.

(** The same, by acting for handler [j] alone. *)
Record brings (n : nat) (j : nat) (w w' : Whole) : Prop := {
  br_comes : comes_to n w w';
  br_others i : i ≠ j → requests w' !! i = requests w !! i
}.

Lemma brings_refl j w : live w → brings 0 j w w.
Proof. split; [by apply comes_refl|done]. Qed.

Lemma brings_trans n n' j w1 w2 w3 : brings n j w1 w2 → brings n' j w2 w3 → brings (n + n') j w1 w3.
Proof.
  intros [H1 Ho1] [H2 Ho2]. split; [by eapply comes_trans|]. intros i Hi. by rewrite Ho2, Ho1.
Qed.

Lemma brings_later n n' j w w' : (n ≤ n')%nat → brings n j w w' → brings n' j w w'.
Proof. intros Hn [Hc Ho]. split; [by eapply comes_later|done]. Qed.

Lemma brings_once j w w' :
  live w → step_of w w' → tx_open (pool w') = true → gone w' = gone w →
  (requests w' = requests w ∨ ∃ h, requests w' = <[j := h]> (requests w)) →
  clock (pool w') = clock (pool w) → patience (pool w') = patience (pool w) → brings 0 j w w'.
Proof.
  intros Hw Hs Ho Hg Hi Ht Hp. split; [apply comes_once; try done; [|unfold time; lia]|].
  - destruct Hi as [->|[h ->]]; [done|]. apply length_insert.
  - intros i Hne. destruct Hi as [->|[h ->]]; [done|]. by rewrite list_lookup_insert_ne.
Qed.

Lemma br_live n j w w' : brings n j w w' → live w'.
Proof. by intros [[] _]. Qed.

Lemma br_gone n j w w' : brings n j w w' → gone w' = gone w.
Proof. intros [Hc _]. by eapply comes_gone. Qed.

(** An effect that is answered at once. *)
Lemma brings_effect j w X (e : svcE X) q tr k v x' :
  live w → j ∉ gone w → j ∉ locking w →
  requests w !! j = Some (mkHandler q tr (Running (Vis e k))) →
  answer from_der cache_config (time w) X e (parts w) v x' →
  brings 0 j w (mkWhole x' (pool w) (<[j := mkHandler q (tr ++ [Ev e v]) (Running (k v))]> (requests w))
                (locking w) (gone w)).
Proof.
  intros Hw Hg Hlk Hj Ha. destruct w as [x p hs lk gn]. apply brings_once; [done| |apply Hw|done| |done|done].
  - eapply w_effect; [done|done|by constructor|done].
  - right. by eexists.
Qed.

Lemma poll_returns id (p : Pool) d :
  awaiting p !! id = Some d → d ≤ clock p → ∃ o, (id, o) ∈ returned (poll id p).
Proof.
  intros Hd Hc. unfold poll. rewrite Hd. destruct (sent p !! id) as [o|]; [exists o; left|].
  rewrite (proj2 (Z.leb_le _ _) Hc). eexists. left.
Qed.

(** A call that is awaited returns, by its deadline at the latest. *)
Lemma await_called j w q tr id job k :
  live w → j ∉ gone w → requests w !! j = Some (mkHandler q tr (Awaiting id job k)) →
  ∃ w' o, brings 1 j w w' ∧ requests w' = requests w ∧ (id, o) ∈ returned (pool w').
Proof.
  intros Hw Hg Hj. destruct (cl_awaits _ _ _ (lv_calls _ Hw) j id) as [[d Hd]|[o Ho]];
    [by rewrite list_lookup_fmap, Hj|done| |].
  - pose proof (lv_punctual _ Hw id d Hd) as Hdl. destruct w as [x p hs lk gn]; simpl in *.
    set (x1 := with_cache (after_ticks (d - clock p) (key_cache x)) x). set (p1 := tick (d - clock p) p).
    assert (live (mkWhole x1 p1 hs lk gn)) as Hl1 by (by eapply live_step; [apply w_tick|done|apply Hw]).
    destruct (poll_returns id p1 d) as [o Ho]; [done|simpl; lia|].
    exists (mkWhole x1 (poll id p1) hs lk gn), o. split; [|done].
    apply (brings_trans 1 0 _ _ (mkWhole x1 p1 hs lk gn)).
    + split; [split; [by apply rtc_once; split; [apply w_tick|]|done| |done]|done].
      unfold time. simpl. unfold patience in *. lia.
    + apply brings_once; [done|by apply (w_pool _ _ _ _ _ x1 p1 hs lk gn (APoll id))| |done|by left| |].
      * simpl. unfold poll. repeat (case_match; try done); apply Hw.
      * apply (clock_apply (APoll id)). done.
      * apply (patience_apply (APoll id)).
  - exists w, o. split; [|done]. by eapply brings_later, brings_refl; [lia|].
Qed.

Lemma await_returns j w q tr id job k :
  live w → j ∉ gone w → requests w !! j = Some (mkHandler q tr (Awaiting id job k)) →
  ∃ w' o, brings 1 j w w' ∧
    requests w' !! j = Some (mkHandler q (tr ++ [Ev (Submit job) o]) (Running (k o))).
Proof.
  intros Hw Hg Hj. destruct (await_called j w q tr id job k Hw Hg Hj) as (w1&o&H1&Hq&Ho).
  pose proof (br_live _ _ _ _ H1) as Hl1. pose proof (br_gone _ _ _ _ H1) as Hg1.
  destruct w1 as [x1 p1 hs1 lk1 gn1]; simpl in *. subst hs1 gn1.
  eexists _, o. split.
  - apply (brings_trans 1 0 _ _ _ _ H1).
    apply brings_once; [done|by eapply w_return|apply Hl1|done|right; by eexists|done|done].
  - simpl. apply list_lookup_insert_eq. by eapply lookup_lt_Some.
Qed.

Abbreviation reply_prog := (prog svcE (result AnyResponse Status)).

Definition next_job (m : reply_prog) : option (JobRequest * (result JobResponse PoolError → reply_prog)) :=
  match m with
  | Vis e k =>
      match e in svcE X return (X → reply_prog) → _ with
      | Submit job => λ k, Some (job, k)
      | _ => λ _, None
      end k
  | Ret _ => None
  end.

Lemma submit_returns j w q tr a job k :
  live w → j ∉ gone w → requests w !! j = Some (mkHandler q tr a) →
  remaining a = Vis (Submit job) k →
  ∃ w' o, brings 1 j w w' ∧
    requests w' !! j = Some (mkHandler q (tr ++ [Ev (Submit job) o]) (Running (k o))).
Proof.
  intros Hw Hg Hj Ha. destruct a as [m|id job' k']; simpl in Ha.
  - subst m. destruct w as [x p hs lk gn]; simpl in *.
    assert (brings 0 j (mkWhole x p hs lk gn) (mkWhole x (submit job p)
      (<[j := mkHandler q tr (Awaiting (next_call p) job k)]> hs) lk gn)) as Hs.
    { apply brings_once; [done|apply w_submit; [done|done|apply Hw]| |done|right; by eexists| |].
      - simpl. unfold submit. repeat (case_match; try done); apply Hw.
      - apply clock_submit.
      - apply (patience_apply (ASubmit job)). }
    destruct (await_returns j _ q tr (next_call p) job k (br_live _ _ _ _ Hs)) as (w'&o&Hw'&Ho);
      [done|simpl; apply list_lookup_insert_eq; by eapply lookup_lt_Some|].
    exists w', o. split; [by apply (brings_trans 0 1 _ _ _ _ Hs)|done].
  - apply (f_equal next_job) in Ha as [= -> ->]. by eapply await_returns.
Qed.

Lemma not_locking j w h :
  live w → requests w !! j = Some h → at_allow h = false → j ∉ locking w.
Proof. intros Hw Hj Ha Hl. apply (lv_locking _ Hw) in Hl. rewrite Hj in Hl. simpl in Hl. congruence. Qed.

Lemma live_budget w i h :
  live w → requests w !! i = Some h → budget (2 - spent (h_trace h)) (remaining (h_activity h)).
Proof.
  intros Hw Hi. pose proof (Forall_lookup_1 _ _ _ _ (wo_handlers _ _ _ _ _ (lv_ok _ Hw)) Hi) as [Hr _ _].
  by eapply runs_budget, rpc_budget.
Qed.

(** Whoever runs a load, and was not dropped, can finish it. *)
Lemma leader_done key f m : ∀ n j w q tr a,
  live w → j ∉ gone w → requests w !! j = Some (mkHandler q tr a) → remaining a = m →
  load_of (mkHandler q tr a) = Loading key f → budget n m →
  ∃ w', brings n j w w' ∧ flights (key_cache (parts w')) !! key = None.
Proof.
  induction m as [r|X e k IH]; intros n j w q tr a Hw Hg Hj Ha Hl Hn.
  all: pose proof (live_shaped w j _ Hw Hj) as Hsh; rewrite Hl in Hsh; simpl in Hsh; rewrite Ha in Hsh; try done.
  destruct Hsh as [Hall _].
  destruct e as [| | | | | |job|Y c| | |]; try done.
  - destruct (submit_returns j w q tr a job k Hw Hg Hj Ha) as (w1&o&H1&Hj1).
    pose proof (br_gone _ _ _ _ H1) as Hg1. destruct (Hn o) as [Hc Hn'].
    change (cost (Ev (Submit job) o)) with 1%nat in Hc, Hn'.
    destruct (IH o (n - 1)%nat j w1 _ _ _ (br_live _ _ _ _ H1) ltac:(by rewrite Hg1) Hj1 eq_refl)
      as (w2&H2&Hf); [by rewrite (load_of_snoc _ _ a), Hl|exact Hn'|].
    exists w2. split; [|done]. replace n with (1 + (n - 1))%nat by lia. by eapply brings_trans.
  - destruct c as [| | |key' f' r| | | | | | |]; try done. simpl in Hall.
    apply bool_decide_eq_true in Hall as [-> ->].
    destruct a as [m|id job' k']; simpl in Ha; [subst m|by apply (f_equal next_job) in Ha].
    eexists. split.
    + eapply brings_later, brings_effect; [lia|done|done|by eapply not_locking|done|].
      apply an_cache; [done|]. apply a_finish.
      refine (proj2 (lk_load _ _ _ (lv_loads _ Hw) j key f _) Hg). rewrite list_lookup_fmap, Hj. simpl. by f_equal.
    + simpl. apply lookup_delete_eq.
Qed.

(** A key can be freed of a load that another handler runs, or ran. *)
Lemma key_is_freed i w q tr key f k :
  live w → requests w !! i = Some (mkHandler q tr (Running (Vis (InKeyCache (Await key f)) k))) →
  ∃ w', comes_to 1 w w' ∧ requests w' !! i = requests w !! i ∧
    flights (key_cache (parts w')) !! key = None.
Proof.
  intros Hw Hi. pose proof (live_shaped w i _ Hw Hi) as [Hall%load_allows_loading _].
  destruct (flights (key_cache (parts w)) !! key) as [f'|] eqn:Hf;
    [|exists w; split; [by eapply comes_later, comes_refl; [lia|]|done]].
  destruct (lk_flight _ _ _ (lv_loads _ Hw) key f' Hf) as (_&_&j&Hj).
  rewrite list_lookup_fmap_Some in Hj. destruct Hj as ([q' tr' a]&Hlj&Hj).
  assert (i ≠ j) as Hij by (intros ->; rewrite Hi in Hj; simplify_eq; congruence).
  destruct (decide (j ∈ gone w)) as [Hg|Hg].
  - destruct w as [x p hs lk gn]. eexists. split; [|split].
    + eapply comes_later; [|apply comes_once; [done|by eapply w_abandon|apply Hw|done..]]; lia.
    + done.
    + simpl. apply lookup_delete_eq.
  - assert (budget 1 (remaining a)) as Hb.
    { eapply budget_more; [|by apply (live_budget w j _ Hw Hj)]. pose proof (loading_spent tr' key f' (eq_sym Hlj)).
      simpl. lia. }
    destruct (leader_done key f' _ 1 j w q' tr' a Hw Hg Hj eq_refl (eq_sym Hlj) Hb) as (w'&[Hc Ho]&Hf').
    exists w'. split; [done|]. split; [by apply Ho|done].
Qed.

(** Handler [i] can be brought past its next effect, in the time it may take. *)
Definition gets_on (i : nat) (w : Whole) q tr {X} (e : svcE X) (k : X → reply_prog) : Prop :=
  ∃ w' v, comes_to (spend e) w w' ∧
    requests w' !! i = Some (mkHandler q (tr ++ [Ev e v]) (Running (k v))).

Lemma effect_gets_on i w q tr X (e : svcE X) k v x' :
  live w → i ∉ gone w → i ∉ locking w →
  requests w !! i = Some (mkHandler q tr (Running (Vis e k))) →
  answer from_der cache_config (time w) X e (parts w) v x' →
  gets_on i w q tr e k.
Proof.
  intros Hw Hg Hlk Hi Ha. pose proof (brings_effect i w X e q tr k v x' Hw Hg Hlk Hi Ha) as [Hc _].
  eexists _, v. split; [eapply comes_later; [|exact Hc]; lia|].
  simpl. apply list_lookup_insert_eq. by eapply lookup_lt_Some.
Qed.

Lemma await_answered c key f ls gn i :
  loads_ok c ls gn → ls !! i = Some (Joining key f) → flights c !! key = None →
  ∃ v c', cache_answer cache_config Joined (Await key f) c v c'.
Proof.
  intros Hok Hi Hf. destruct (results c !! f) as [[key' r]|] eqn:Hr.
  - pose proof (tk_result _ _ _ (lk_join _ _ _ Hok i key f Hi) key' r Hr) as ->.
    eexists _, _. by apply a_resolved.
  - assert (lost key f c) as Hl by (split; congruence).
    destruct (fresh key c) as [v|] eqn:Hv; eexists _, _; [by apply a_arrived|by apply a_take_over].
Qed.

Lemma await_gets_on i w q tr key f k :
  live w → i ∉ gone w →
  requests w !! i = Some (mkHandler q tr (Running (Vis (InKeyCache (Await key f)) k))) →
  gets_on i w q tr (InKeyCache (Await key f)) k.
Proof.
  intros Hw Hg Hi. destruct (key_is_freed i w q tr key f k Hw Hi) as (w1&H1&Hi1&Hf).
  pose proof (ct_live _ _ _ H1) as Hl1. pose proof (comes_gone _ _ _ H1) as Hg1.
  rewrite Hi in Hi1. pose proof (live_shaped w1 i _ Hl1 Hi1) as [Hall%load_allows_loading _].
  destruct (await_answered _ key f _ _ i (lv_loads _ Hl1)) as (v&c&Hc);
    [by rewrite list_lookup_fmap, Hi1, <-Hall|done|].
  eexists _, v. split; [apply (comes_trans 1 0 _ _ _ H1)|].
  - eapply br_comes, (brings_effect i w1); [done|by rewrite Hg1|by eapply not_locking|done|by apply an_cache].
  - simpl. apply list_lookup_insert_eq. by eapply lookup_lt_Some.
Qed.

(** [allow] never waits for long: it answers, or takes the lock. *)
Lemma allow_gets_on i w q tr k :
  live w → i ∉ gone w → requests w !! i = Some (mkHandler q tr (Running (Vis Allow k))) →
  gets_on i w q tr Allow k.
Proof.
  intros Hw Hg Hi.
  assert (∀ w, live w → i ∉ gone w → requests w !! i = Some (mkHandler q tr (Running (Vis Allow k))) →
    i ∈ locking w → gets_on i w q tr Allow k) as Hlocked.
  { clear. intros w Hw Hg Hi Hl. destruct w as [x p hs lk gn].
    destruct (CB.allow_locked (clock p) (breaker x)) as [ok b] eqn:Hb.
    assert (step_of (mkWhole x p hs lk gn) (mkWhole (with_breaker b x) p
      (<[i := mkHandler q (tr ++ [Ev Allow ok]) (Running (k ok))]> hs) (lk ∖ {[i]}) gn)) as Hs
      by (by eapply w_lock; [|constructor|]).
    eexists _, ok. split; [apply comes_once; [done|done|apply Hw|done|apply length_insert|done|done]|]. simpl. apply list_lookup_insert_eq. by eapply lookup_lt_Some. }
  destruct (decide (i ∈ locking w)) as [Hl|Hl]; [by apply Hlocked|].
  destruct (decide (CB.state (breaker (parts w)) = CB.Open)) as [Ho|Ho];
    [|by eapply effect_gets_on, an_allow].
  destruct w as [x p hs lk gn]. simpl in *.
  assert (step_of (mkWhole x p hs lk gn) (mkWhole x p hs ({[i]} ∪ lk) gn)) as Hs by by eapply w_read_open.
  assert (comes_to 0 (mkWhole x p hs lk gn) (mkWhole x p hs ({[i]} ∪ lk) gn)) as Hc
    by (apply comes_once; try done; apply Hw).
  destruct (Hlocked (mkWhole x p hs ({[i]} ∪ lk) gn)) as (w'&v&Hw'&Hr);
    [apply Hc|done|done|simpl; set_solver|].
  exists w', v. split; [by apply (comes_trans 0 0 _ _ _ Hc)|done].
Qed.

Lemma enter_answered key c : ∃ v c', cache_answer cache_config Entry (Enter key) c v c'.
Proof.
  destruct (fresh key c) as [v|] eqn:Hv; [eexists _, _; by apply a_present|].
  destruct (flights c !! key) as [f|] eqn:Hf; eexists _, _; [by apply a_wait|by apply a_lead].
Qed.

Lemma effect_answered i w q tr X (e : svcE X) k :
  live w → i ∉ gone w → requests w !! i = Some (mkHandler q tr (Running (Vis e k))) →
  gets_on i w q tr e k.
Proof.
  intros Hw Hg Hi. pose proof (live_shaped w i _ Hw Hi) as [Hall _].
  destruct e as [| | | |certs key op|identity|job|Y c|n|name labels|name labels d].
  all: try (by apply allow_gets_on).
  all: assert (i ∉ locking w) as Hlk by (by eapply not_locking).
  all: try (by eapply effect_gets_on; [done|done|done|done|constructor]).
  - destruct (Authorizer.authorize from_der certs key op (authorizer (parts w))) as [r a] eqn:Ha.
    by eapply effect_gets_on; [done..|apply an_authorize].
  - destruct (RL.check (time w) identity (limiter (parts w))) as [ok l] eqn:Ha.
    by eapply effect_gets_on; [done..|apply an_rate].
  - destruct (submit_returns i w q tr _ job k Hw Hg Hi eq_refl) as (w'&o&[Hc _]&Hi').
    by exists w', o.
  - pose proof (load_allows_loading _ _ c Hall) as Hload.
    destruct c as [key|key|key f|key f r| | | | | | |].
    all: try (by eapply effect_gets_on; [done|done|done|done|apply an_cache; [done|constructor]]).
    all: try (by rewrite Hload in Hall).
    + destruct (enter_answered key (key_cache (parts w))) as (v&c&Hc).
      by eapply effect_gets_on; [done..|apply an_cache].
    + by apply await_gets_on.
    + eapply effect_gets_on; [done..|]. apply an_cache; [done|]. apply a_finish.
      refine (proj2 (lk_load _ _ _ (lv_loads _ Hw) i key f _) Hg). rewrite list_lookup_fmap, Hi. simpl. by f_equal.
  - eapply effect_gets_on; [done..|]. apply (an_fill _ _ _ n (replicate n x00)). apply length_replicate.
Qed.

Lemma program_ends m : ∀ n i w q tr,
  live w → i ∉ gone w → requests w !! i = Some (mkHandler q tr (Running m)) → budget n m →
  ∃ w' tr' r, comes_to n w w' ∧ requests w' !! i = Some (mkHandler q tr' (Running (Ret r))).
Proof.
  induction m as [r|X e k IH]; intros n i w q tr Hw Hg Hi Hn.
  - exists w, tr, r. split; [|done]. by eapply comes_later, comes_refl; [lia|].
  - destruct (effect_answered i w q tr X e k Hw Hg Hi) as (w1&v&H1&Hi1).
    pose proof (comes_gone _ _ _ H1) as Hg1. destruct (Hn v) as [Hc Hn']. pose proof (spend_cost e v).
    destruct (IH v (n - cost (Ev e v))%nat i w1 q _ (ct_live _ _ _ H1) ltac:(by rewrite Hg1) Hi1 Hn')
      as (w2&tr2&r&H2&Hi2).
    exists w2, tr2, r. split; [|done]. eapply comes_later; [|by eapply comes_trans]. lia.
Qed.

Lemma request_ends w i h :
  live w → i ∉ gone w → requests w !! i = Some h →
  ∃ w' tr r, comes_to 2 w w' ∧ requests w' !! i = Some (mkHandler (h_request h) tr (Running (Ret r))).
Proof.
  intros Hw Hg Hi. assert (budget 2 (remaining (h_activity h))) as Hb
    by (eapply budget_more; [|by apply (live_budget w i)]; lia).
  destruct h as [q tr [m|id job k]]; simpl in *; [by eapply program_ends|].
  destruct (await_returns i w q tr id job k Hw Hg Hi) as (w1&o&[H1 _]&Hi1).
  pose proof (comes_gone _ _ _ H1) as Hg1.
  destruct (program_ends (k o) 1 i w1 q _ (ct_live _ _ _ H1) ltac:(by rewrite Hg1) Hi1 (proj2 (Hb o)))
    as (w2&tr2&r&H2&Hi2).
  exists w2, tr2, r. split; [|done]. by apply (comes_trans 1 1 _ _ _ H1).
Qed.

(** C5: No request is stuck.  In every state the proxy reaches while its pool is open,
    whatever other requests, dropped clients, failures, evictions and time did
    before, a request that was not dropped can be brought to its reply by steps of
    the proxy and of time alone, and before twice the pool's [job_timeout] has
    passed: the breaker's lock is free, an awaited job is answered or times out, and
    a load of a public key that another request runs is finished by it or, if its
    client went away, taken over.  No client has to arrive, to leave or to do
    anything. *)
Theorem no_request_is_stuck policy cfg w i h :
  whole_reachable from_der show description svc cache_config policy cfg w →
  tx_open (pool w) = true → i ∉ gone w → requests w !! i = Some h →
  ∃ w' tr r, rtc own_step w w' ∧ time w' ≤ time w + 2 * Z.max 0 (job_timeout (pool w)) ∧
    requests w' !! i = Some (mkHandler (h_request h) tr (Running (Ret r))).
Proof.
  intros Hr Ho Hg Hi. pose proof (live_reachable _ _ _ Hr Ho) as Hw.
  destruct (request_ends w i h Hw Hg Hi) as (w'&tr'&r&[Hs _ Ht _]&Hi'). by exists w', tr', r.
Qed.
End progress.

Module ProgressWitness.
Import Toy PoolWitness AnswersWitness WholeWitness.

(** Two requests need the same public key; the first loads it, the second waits for
    that load, and the first one's client goes away. *)
Definition abandoned_choices : list choice :=
  [Accept (QVerify demo_verify); Accept (QVerify demo_verify)] ++
  replicate 7 (Run 0) ++ replicate 6 (Run 1) ++ [DropClient 0].

Definition waiting : Whole (CK := toy_token) (CH := list_channel) (LM := RL.demo_limiters) :=
  default demo_whole (demo_play abandoned_choices demo_whole).

Lemma waiting_reachable :
  whole_reachable Identity.demo_from_der (λ _, "") (λ _, "") full CacheConfig_default
    demo_policy CB.BreakerConfig_default waiting.
Proof.
  exists demo_whole. split; [exact demo_whole_start|]. apply play_steps_to. vm_compute. reflexivity.
Qed.

Example second_waits :
  (λ h, (h_request h, suspended h, load_of h)) <$> requests waiting =
  [(QVerify demo_verify, true, Loading "demo" 0); (QVerify demo_verify, true, Joining "demo" 0)].
Proof. vm_compute. reflexivity. Qed.

Lemma waiting_second :
  ∃ h, requests waiting !! 1%nat = Some h ∧ h_request h = QVerify demo_verify ∧ 1%nat ∉ gone waiting.
Proof.
  assert (h_request <$> requests waiting !! 1%nat = Some (QVerify demo_verify)) as (h&Hi&Hq)%fmap_Some
    by (vm_compute; reflexivity).
  exists h. split; [done|]. split; [done|].
  apply (bool_decide_eq_true_1 _ : bool_decide (1%nat ∉ gone waiting) = true → _). vm_compute. reflexivity.
Qed.

Lemma no_request_is_stuck_witness :
  ∃ w' tr r,
    rtc (own_step (CH := list_channel) Identity.demo_from_der (λ _, "") (λ _, "") full CacheConfig_default)
      waiting w' ∧
    time w' ≤ time waiting + 2 * Z.max 0 (job_timeout (pool waiting)) ∧
    requests w' !! 1%nat = Some (mkHandler (QVerify demo_verify) tr (Running (Ret r))).
Proof.
  destruct waiting_second as (h&Hi&<-&Hg).
  apply (no_request_is_stuck (CHO := list_channel_ok) Identity.demo_from_der (λ _, "") (λ _, "") full
    CacheConfig_default demo_policy CB.BreakerConfig_default waiting 1 h waiting_reachable); [|exact Hg|exact Hi].
  vm_compute. reflexivity.
Defined.
End ProgressWitness.
