(* ===== verification/Lookups.v ===== *)
(** * Public keys: how often they are looked up, and how old they are

    What the cache is for, stated of the proxy as a whole: however many handlers of
    [Verify] and [GetPublicKey] run at once, the pool is asked for the public key of
    a label once more than a load of it failed, was given up or was dropped from the
    cache; and the key that a reply was made with is no older than the cache allows.
    [paid] says that a handler asks the pool only for a load it was given; [dated]
    when the values that handlers used were loaded. *)
From S2P Require Import Prelude RustStd Deps Effects Breaker Policy Identity Authorizer RateLimit Session.
From S2P Require Import Crypto Toy Worker Pool Answers Cache Wire Pooled System Whole Progress.

Local Open Scope Z_scope.

(** ** A handler looks up only what it leads *)

Definition is_lookup (label : string) (job : JobRequest) : bool :=
  match job with JGetPublicKey l => String.eqb l label | _ => false end.

(** Jobs submitted for the public key of a label, and loads of it taken on. *)
Definition looks_up (label : string) (ev : event svcE) : nat :=
  match ev with Ev (Submit job) _ => if is_lookup label job then 1 else 0 | _ => 0 end.

Definition leads (label : string) (ev : event svcE) : nat :=
  match load_next NoLoad ev with
  | Loading key _ => if String.eqb key label then 1 else 0
  | _ => 0
  end.

Definition lookups (label : string) (tr : list (event svcE)) : nat := sum_list_with (looks_up label) tr.
Definition loads (label : string) (tr : list (event svcE)) : nat := sum_list_with (leads label) tr.

(** With [n] loads taken on and not yet used, every lookup is of such a load. *)
Fixpoint paid (label : string) {A} (n : nat) (m : prog svcE A) : Prop :=
  match m with
  | Ret _ => True
  | Vis e k => ∀ x, (looks_up label (Ev e x) ≤ n)%nat ∧
                    paid label (n - looks_up label (Ev e x) + leads label (Ev e x)) (k x)
  end.

Lemma paid_more label {A} n n' (m : prog svcE A) : (n ≤ n')%nat → paid label n m → paid label n' m.
Proof.
  revert n n'. induction m as [a|X e k IH]; intros n n' Hn; simpl; [done|]. intros Hm x.
  destruct (Hm x) as [Hc Hk]. split; [lia|]. eapply IH; [|exact Hk]. lia.
Qed.

Lemma paid_bind label {A B} n (m : prog svcE A) (k : A → prog svcE B) :
  paid label n m → (∀ a, paid label 0 (k a)) → paid label n (prog_bind m k).
Proof.
  intros Hm Hk. revert n Hm. induction m as [a|X e c IH]; intros n; simpl.
  - intros _. eapply paid_more; [|apply Hk]. lia.
  - intros Hm x. destruct (Hm x) as [Hc Hn]. auto.
Qed.

Lemma paid_try label {A B F} n (m : prog svcE (result A F)) (k : A → prog svcE (result B F)) :
  paid label n m → (∀ a, paid label 0 (k a)) → paid label n (try_bind m k).
Proof. intros Hm Hk. apply paid_bind; [done|]. by intros [a|e]; [apply Hk|]. Qed.

Lemma paid_ret label {A} n (a : A) : paid label n (Ret a).
Proof. done. Qed.

Lemma paid_trigger label {X} (e : svcE X) :
  (∀ x, looks_up label (Ev e x) = 0%nat) → paid label 0 (trigger e).
Proof. intros He x. rewrite He. split; [lia|done]. Qed.

(** A load that was taken on pays for one lookup of its key. *)
Lemma lead_paid label key f :
  paid label (if String.eqb key label then 1 else 0) (lead_load (@InKeyCache) key (load_public_key key) f).
Proof.
  simpl. intros o. split; [by destruct (String.eqb key label)|]. intros [].
  unfold leads. simpl. split; [lia|done].
Qed.

Lemma try_get_paid label key :
  paid label 0 (try_get_with_by_ref (@InKeyCache) key (load_public_key key)).
Proof.
  unfold try_get_with_by_ref, call_cache. cbn [trigger prog_bind paid]. intros [v|f|f].
  - split; [done|done].
  - split; [done|]. intros [r|f']; (split; [done|]); [done|]. apply lead_paid.
  - split; [done|]. apply lead_paid.
Qed.

Ltac paid_steps :=
  repeat first
    [ apply paid_ret | apply try_get_paid | apply paid_trigger; done
    | apply paid_try; [|intros ?] | apply paid_bind; [|intros ?] | case_match ].

Section paying.
Context {CL : CryptoLib}.
Context (show : CkError → string) (description : Code → string) (svc : PooledService).

Lemma rpc_paid label q : paid label 0 (rpc show description svc q).
Proof.
  destruct q as [r|r|r|r|r]; unfold rpc, sign_rpc, verify_rpc, encrypt_rpc, decrypt_rpc, get_public_key_rpc,
    recorded, sign_inner, verify_inner, encrypt_inner, decrypt_inner, get_public_key_inner,
    sign_admitted, verify_admitted, encrypt_admitted, decrypt_admitted, get_public_key_admitted,
    admit_request, record, public_key, get_or_load, submit_observed, observe, attribute, call_cache, ret;
    paid_steps.
Qed.

Lemma runs_paid label n {A} (m m' : prog svcE A) tr :
  runs_to m tr m' → paid label n m →
  (lookups label tr ≤ n + loads label tr)%nat ∧ paid label (n + loads label tr - lookups label tr) m'.
Proof.
  intros Hr Hm. unfold lookups, loads. induction Hr as [|m tr X e k x _ IH]; simpl.
  { split; [lia|]. by replace (n + 0 - 0)%nat with n by lia. }
  destruct (IH Hm) as [Hl Hk]. destruct (Hk x) as [Hc Hn]. rewrite !sum_list_with_app. cbn [sum_list_with].
  split; [lia|]. eapply paid_more; [|exact Hn]. lia.
Qed.
End paying.

(** ** The account of the whole *)

Lemma sum_le {A} (f g : A → nat) (l : list A) :
  (∀ x, x ∈ l → f x ≤ g x)%nat → (sum_list_with f l ≤ sum_list_with g l)%nat.
Proof.
  induction l as [|x l IH]; intros H; simpl; [lia|].
  assert (f x ≤ g x)%nat by (apply H; left).
  assert (sum_list_with f l ≤ sum_list_with g l)%nat by (apply IH; intros; apply H; by right). lia.
Qed.

Section account.
Context {CK : Cryptoki} {CL : CryptoLib} {CH : Channel} {CHO : ChannelOk CH} {LM : RL.Limiters}.
Context (from_der : bytes → option Identity.X509Certificate).
Context (show : CkError → string) (description : Code → string) (svc : PooledService).
Context (cache_config : CacheConfig).

Abbreviation step_of := (whole_step from_der show description svc cache_config).
Abbreviation reachable_of := (whole_reachable from_der show description svc cache_config).

(** The jobs for the public key of a label that were ever submitted to the pool. *)
Definition lookup_jobs (label : string) (p : Pool) : nat :=
  size (filter (λ c : nat * JobRequest, is_lookup label c.2 = true) (calls p)).

Lemma lookup_jobs_submit label job p :
  pool_ok p →
  lookup_jobs label (submit job p) = (lookup_jobs label p + if is_lookup label job then 1 else 0)%nat.
Proof.
  intros Hok. unfold lookup_jobs. rewrite calls_submit.
  pose proof (fresh_call _ _ _ _ _ _ (ok_ledger _ Hok)) as Hfresh.
  destruct (is_lookup label job) eqn:Hj.
  - rewrite map_filter_insert_True by done. rewrite map_size_insert_None; [lia|].
    apply map_lookup_filter_None. by left.
  - rewrite map_filter_insert_False by (simpl; congruence). rewrite delete_id by done. lia.
Qed.

(** What a handler submitted, with the job it awaits. *)
Definition submitted_by (label : string) (h : Handler) : nat :=
  lookups label (h_trace h) +
  match h_activity h with Awaiting _ job _ => if is_lookup label job then 1 else 0 | Running _ => 0 end.

Definition led_by (label : string) (h : Handler) : nat := loads label (h_trace h).

Record accounted (label : string) (w : Whole) : Prop := {
  ac_jobs : lookup_jobs label (pool w) = sum_list_with (submitted_by label) (requests w);
  ac_loads : count_of label (led (key_cache (parts w))) = sum_list_with (led_by label) (requests w)
}.

Lemma lookups_snoc label tr e : lookups label (tr ++ [e]) = (lookups label tr + looks_up label e)%nat.
Proof. unfold lookups. rewrite sum_list_with_app. cbn [sum_list_with]. lia. Qed.

Lemma loads_snoc label tr e : loads label (tr ++ [e]) = (loads label tr + leads label e)%nat.
Proof. unfold loads. rewrite sum_list_with_app. cbn [sum_list_with]. lia. Qed.

Lemma count_of_led label key l :
  count_of label (key :: l) = (count_of label l + if String.eqb key label then 1 else 0)%nat.
Proof. rewrite count_of_cons. destruct (String.eqb_spec key label); case_decide; try done; lia. Qed.

(** The cache starts a load exactly when a handler takes one on. *)
Lemma answer_leads label t X (e : svcE X) x v x' :
  answer from_der cache_config t X e x v x' →
  looks_up label (Ev e v) = 0%nat ∧
  count_of label (led (key_cache x')) = (count_of label (led (key_cache x)) + leads label (Ev e v))%nat.
Proof.
  intros Ha. destruct Ha as [| | | | | |X e x v c Hask Hc| | |]; simpl; try (split; [done|unfold leads; simpl; lia]).
  split; [done|]. destruct Hc; try done; unfold leads; simpl; rewrite ?count_of_led; try lia.
Qed.

(** A handler that goes on with an answer. *)
Lemma performs_accounted label i X (e : svcE X) v (hs hs' : list Handler) :
  performs i e v hs hs' → looks_up label (Ev e v) = 0%nat →
  sum_list_with (submitted_by label) hs' = sum_list_with (submitted_by label) hs ∧
  sum_list_with (led_by label) hs' = (sum_list_with (led_by label) hs + leads label (Ev e v))%nat.
Proof.
  intros [hs0 q tr k Hi] He.
  pose proof (sum_insert (submitted_by label) hs0 i _ (mkHandler q (tr ++ [Ev e v]) (Running (k v))) Hi) as Hs.
  pose proof (sum_insert (led_by label) hs0 i _ (mkHandler q (tr ++ [Ev e v]) (Running (k v))) Hi) as Hl.
  unfold submitted_by at 2 4 in Hs. unfold led_by at 2 4 in Hl. cbn [h_trace h_activity] in Hs, Hl.
  rewrite lookups_snoc in Hs. rewrite loads_snoc in Hl. lia.
Qed.

Lemma accounted_step label w w' :
  step_of w w' → whole_ok show description svc cache_config w → accounted label w → accounted label w'.
Proof.
  intros Hs Hok [Hj Hl].
  destruct Hs as [x p hs lk gn q|x p hs lk gn i X e v x' hs' _ _ Hperf Ha
    |x p hs lk gn i q tr k _ Hi _|x p hs lk gn i ok b hs' _ Hperf _|x p hs lk gn i q tr job k _ Hi _
    |x p hs lk gn i q tr id job k o _ Hi _|x p hs lk gn a Ha _|x p hs lk gn d|x p hs lk gn key
    |x p hs lk gn i h _ Hi _|x p hs lk gn i h key f _ Hi _ Hf]; simpl in *; split; simpl; try done.
  1-2: rewrite sum_list_with_app; cbn; lia.
  - destruct (answer_leads label _ _ _ _ _ _ Ha) as [He _].
    by rewrite (proj1 (performs_accounted label _ _ _ _ _ _ Hperf He)).
  - destruct (answer_leads label _ _ _ _ _ _ Ha) as [He ->].
    rewrite (proj2 (performs_accounted label _ _ _ _ _ _ Hperf He)). lia.
  - by rewrite (proj1 (performs_accounted label _ _ _ _ _ _ Hperf eq_refl)).
  - rewrite (proj2 (performs_accounted label _ _ _ _ _ _ Hperf eq_refl)). unfold leads. simpl. lia.
  - rewrite lookup_jobs_submit, Hj by apply Hok.
    pose proof (sum_insert (submitted_by label) hs i _ (mkHandler q tr (Awaiting (next_call p) job k)) Hi) as Hs.
    unfold submitted_by at 2 4 in Hs. simpl in Hs. lia.
  - pose proof (sum_insert (led_by label) hs i _ (mkHandler q tr (Awaiting (next_call p) job k)) Hi) as Hs.
    unfold led_by at 2 4 in Hs. simpl in Hs. lia.
  - pose proof (sum_insert (submitted_by label) hs i _ (mkHandler q (tr ++ [Ev (Submit job) o]) (Running (k o))) Hi) as Hs.
    unfold submitted_by at 2 4 in Hs. simpl in Hs. rewrite lookups_snoc in Hs. simpl in Hs. lia.
  - pose proof (sum_insert (led_by label) hs i _ (mkHandler q (tr ++ [Ev (Submit job) o]) (Running (k o))) Hi) as Hs.
    unfold led_by at 2 4 in Hs. cbn [h_trace] in Hs. rewrite loads_snoc in Hs. unfold leads in Hs. simpl in Hs. lia.
  - unfold lookup_jobs. rewrite calls_apply; [done|]. by intros req ->.
  - unfold release, lookup_jobs. by destruct (h_activity h).
Qed.

Lemma accounted_reachable policy cfg label w : reachable_of policy cfg w → accounted label w.
Proof.
  intros (w0&H0&Hr).
  assert (whole_ok show description svc cache_config w ∧ accounted label w) as [_ ?]; [|done].
  assert (whole_ok show description svc cache_config w0) as Hok by by eapply whole_start_ok.
  assert (accounted label w0) as Hac.
  { destruct H0 as [_ _ Hc Hp (Hq&_)]. split; rewrite Hq, ?Hc; simpl; [|done].
    unfold lookup_jobs. rewrite (started_calls _ Hp). by rewrite map_filter_empty, map_size_empty. }
  clear H0. induction Hr as [|w1 w2 w3 H12 _ IH]; [done|].
  apply IH; [by eapply whole_ok_step|by eapply accounted_step].
Qed.

Lemma submitted_led label p h : handler_true show description svc p h → (submitted_by label h ≤ led_by label h)%nat.
Proof.
  intros [Hr _ _]. destruct (runs_paid label 0 _ _ _ Hr (rpc_paid show description svc label (h_request h)))
    as [Hl Hp]. unfold submitted_by, led_by.
  destruct (h_activity h) as [m|id job k]; simpl in *; [lia|].
  destruct (Hp (Err Timeout)) as [Hc _]. simpl in Hc. lia.
Qed.

(** C16: A public key is looked up once.  In every state the proxy reaches, with any
    number of [Verify] and [GetPublicKey] requests at once, clients that go away,
    evictions and expiry, the jobs for the public key of a label that were ever
    submitted to the pool are at most one more than the loads of that label that
    failed or were abandoned by a client that went away, and the entries of it that
    the cache dropped: a stampede of callers on a key costs the token one lookup. *)
Theorem public_keys_are_looked_up_once policy cfg w label :
  reachable_of policy cfg w →
  let c := key_cache (parts w) in
  (lookup_jobs label (pool w) ≤
     1 + failed_loads label c + count_of label (abandoned c) + count_of label (dropped c))%nat.
Proof.
  intros Hw c. pose proof (whole_reachable_ok _ _ _ _ _ _ _ _ Hw) as Hok.
  destruct (accounted_reachable _ _ label _ Hw) as [Hj Hl].
  pose proof (loads_bounded cache_config c label (ct_ok _ _ _ (wo_cache _ _ _ _ _ Hok))) as Hb.
  enough (sum_list_with (submitted_by label) (requests w) ≤ sum_list_with (led_by label) (requests w))%nat by (unfold c in *; lia).
  apply sum_le. intros h Hh. eapply submitted_led.
  exact (proj1 (Forall_forall _ _) (wo_handlers _ _ _ _ _ Hok) h Hh).
Qed.
End account.

(** ** How old a key may be *)

(** When a request came in: the first thing a method does is read the clock. *)
Definition came_in (tr : list (event svcE)) : option Z :=
  match tr with
  | Ev e x :: _ =>
      match e in svcE X return X → option Z with InstantNow => λ x, Some x | _ => λ _, None end x
  | [] => None
  end.

Lemma came_in_snoc tr e ts :
  came_in (tr ++ [e]) = Some ts → came_in tr = Some ts ∨ (tr = [] ∧ came_in [e] = Some ts).
Proof. destruct tr as [|e' tr]; [by right|by left]. Qed.

(** An event that gives a handler the value of a label. *)
Definition yields (label : string) (v : Lookup) (ev : event svcE) : Prop :=
  match ev with
  | Ev e x =>
      match e in svcE X return X → Prop with
      | InKeyCache c =>
          match c in cacheE X return X → Prop with
          | Enter l => λ x, l = label ∧ x = Present v
          | Await l _ => λ x, l = label ∧ x = Resolved (Ok v)
          | Finish l _ r => λ _, l = label ∧ r = Ok v
          | _ => λ _, False
          end
      | _ => λ _, False
      end x
  end.

(** The authorizer refused with a status of code [NotFound]. *)
Definition denied_as_missing (ev : event svcE) : Prop :=
  match ev with
  | Ev e x =>
      match e in svcE X return X → Prop with
      | Authorize _ _ _ => λ x, match x with Err s => code s = NotFound | Ok _ => False end
      | _ => λ _, False
      end x
  end.

Section replies.
Context {CL : CryptoLib}.
Context (show : CkError → string) (description : Code → string) (svc : PooledService).

(** The value that [public_key] returns came with an event. *)
Lemma public_key_yields label :
  all_runs any (public_key show label) (λ tr r,
    match r with
    | Ok (v, _) => Exists (yields label v) tr
    | Err s => s = internal "internal error"
    end).
Proof.
  assert (∀ was_present v tr0, Exists (yields label v) tr0 →
    all_runs any (prog_bind (try_bind (Ret (Ok v)) (λ v, prog_bind (attribute (@InKeyCache) was_present v)
                                 (λ _, Ret (Ok (v, was_present)))))
       (λ r, let outcome := map_err (λ e, to_status (PInternal (pool_error_to_string show e))) r in
             prog_bind (observe outcome) (λ _, Ret outcome)))
      (λ tr r, match r with
               | Ok (v, _) => Exists (yields label v) (tr0 ++ tr)
               | Err s => s = internal "internal error"
               end)) as Htail.
  { intros was_present v tr0 Hv. cbn [try_bind prog_bind]. rewrite !all_runs_bind.
    apply all_runs_always. intros tr []. simpl. intros [] _. apply Exists_app. by left. }
  unfold public_key, get_or_load, try_get_with_by_ref, call_cache.
  cbn [trigger prog_bind all_runs]. intros was_present _ entry _.
  assert (∀ f tr0, all_runs any
    (prog_bind (try_bind (lead_load (@InKeyCache) label (load_public_key label) f)
                  (λ v, prog_bind (attribute (@InKeyCache) was_present v) (λ _, Ret (Ok (v, was_present)))))
       (λ r, let outcome := map_err (λ e, to_status (PInternal (pool_error_to_string show e))) r in
             prog_bind (observe outcome) (λ _, Ret outcome)))
      (λ tr r, match r with
               | Ok (v, _) => Exists (yields label v) (tr0 ++ tr)
               | Err s => s = internal "internal error"
               end)) as Hlead.
  { intros f tr0. cbn [lead_load load_public_key call_cache prog_bind trigger try_bind all_runs].
    intros o _ [] _. set (r := match o with Ok _ => _ | Err _ => _ end). destruct r as [v|e] eqn:Hr.
    - eapply all_runs_mono; [|apply (Htail was_present v [Ev (InKeyCache (Finish label f (Ok v))) tt]); by repeat left].
      cbv beta. intros tr [[v' b]|s]; [|done]. intros Hex. apply Exists_app. right. by right.
    - simpl. by intros ? _. }
  destruct entry as [v|f|f].
  - apply (Htail was_present v [_; _]). right. by left.
  - cbn [prog_bind trigger try_bind all_runs]. intros [[v|e]|f'] _.
    + apply (Htail was_present v [_; _; _]). do 2 right. by left.
    + simpl. by intros ? _.
    + apply (Hlead f' [_; _; _]).
  - apply (Hlead f [_; _]).
Qed.

(** What a reply of [Verify] and [GetPublicKey] was made from. *)
Definition made_from (q : AnyRequest) (tr : list (event svcE)) (r : result AnyResponse Status) : Prop :=
  match q, r with
  | QGetPublicKey g, Ok (AGetPublicKey x) =>
      Exists (yields (gpk_key_label (get_ref g)) (Found (mkCached (resp_spki_der x) (resp_key_type x)))) tr
  | QVerify v, Ok (AVerify x) =>
      ∃ input k, extract_input (verify_input (get_ref v)) = Ok input ∧
        Exists (yields (verify_key_label (get_ref v)) (Found k)) tr ∧
        Crypto.verify_public (spki_der k) (verify_mechanism (get_ref v)) input
          (verify_signature (get_ref v)) = Ok (valid x)
  | (QGetPublicKey _ | QVerify _), Err s =>
      code s = NotFound →
      Exists (yields (request_key q) LNotFound) tr ∨ Exists denied_as_missing tr
  | _, _ => True
  end.
Lemma made_from_frame q tr1 tr2 tr3 r : made_from q tr2 r → made_from q (tr1 ++ tr2 ++ tr3) r.
Proof.
  assert (∀ P : event svcE → Prop, Exists P tr2 → Exists P (tr1 ++ tr2 ++ tr3)) as H
    by (intros P HP; rewrite !Exists_app; auto).
  destruct q, r as [[]|s]; simpl; try done; try apply H; try naive_solver.
Qed.

Lemma admitted_made_from q : all_runs any (admitted show q) (made_from q).
Proof.
  destruct q as [r|r|r|r|r]; try (apply all_runs_always; by intros tr [[]|]); unfold admitted.
  - unfold verify_admitted, ret. destruct (extract_input _) as [input|s] eqn:Hi.
    2: { simpl. unfold extract_input, ok_or in Hi. case_match; simplify_eq. done. }
    rewrite try_ret. apply map_try, all_runs_try. eapply all_runs_mono; [|apply public_key_yields].
    cbv beta. intros tr [[[k|] b]|s] Hy; [rewrite try_ret|..].
    + destruct (Crypto.verify_public _ _ _ _) as [v|e] eqn:Hv; simpl; rewrite app_nil_r; [|done].
      exists input, k. done.
    + simpl. rewrite app_nil_r. auto.
    + subst s. done.
  - unfold get_public_key_admitted, ret. apply map_try, all_runs_try.
    eapply all_runs_mono; [|apply public_key_yields].
    cbv beta. intros tr [[[[]|] b]|s] Hy; simpl; rewrite ?app_nil_r; [done|auto|].
    subst s. done.
Qed.

Lemma refusal_made_from q adm s : admission svc q adm (Err s) → made_from q adm (Err s).
Proof.
  intros Hadm. assert (code s = NotFound → Exists denied_as_missing adm) as H.
  { remember (Err s) as o eqn:Ho. destruct Hadm; simplify_eq; try done. intros Hs. right. by left. }
  destruct q; simpl; auto.
Qed.

Lemma rpc_made_from q :
  all_runs any (rpc show description svc q) (λ tr r, is_Some (came_in tr) ∧ made_from q tr r).
Proof.
  apply rpc_runs. intros t _. apply inner_admit.
  eapply all_runs_mono; [|apply admit_spec; reflexivity]. cbv beta. intros adm [[]|s] Hadm.
  - eapply all_runs_mono; [|apply admitted_made_from]. cbv beta. intros tr r Hr.
    apply all_runs_always. intros tr' _. split; [by eexists|].
    rewrite <-app_assoc. by apply (made_from_frame q (Ev InstantNow t :: adm)).
  - apply all_runs_always. intros tr' _. split; [by eexists|].
    apply (made_from_frame q [Ev InstantNow t]). by apply refusal_made_from.
Qed.
End replies.

(** ** The invariant *)

(** Loads are numbered in the order in which they are taken on. *)
Record flights_ok (c : CacheState) : Prop := {
  fo_flight key f : flights c !! key = Some f → (f < next_flight c)%nat ∧ results c !! f = None;
  fo_inj key key' f : flights c !! key = Some f → flights c !! key' = Some f → key = key';
  fo_order key f f' r : flights c !! key = Some f → results c !! f' = Some (key, r) → (f' < f)%nat;
  fo_results f : is_Some (results c !! f) → (f < next_flight c)%nat
}.

Lemma flights_same c c' : same_loads c c' → flights_ok c → flights_ok c'.
Proof. intros (Hf&Hr&Hn) [H1 H2 H3 H4]. split; rewrite ?Hf, ?Hr, ?Hn; done. Qed.

Lemma flights_fewer c c' key :
  flights c' = delete key (flights c) → results c' = results c → next_flight c' = next_flight c →
  flights_ok c → flights_ok c'.
Proof.
  intros Hf Hr Hn [H1 H2 H3 H4]. split; rewrite ?Hf, ?Hr, ?Hn; [..|done].
  - intros k f [_ ?]%lookup_delete_Some. eauto.
  - intros k k' f [_ ?]%lookup_delete_Some [_ ?]%lookup_delete_Some. eauto.
  - intros k f f' r [_ ?]%lookup_delete_Some. eauto.
Qed.

Lemma flights_start key c : flights_ok c → flights_ok (start_flight key c).
Proof.
  intros [H1 H2 H3 H4]. split; simpl.
  - intros k f [[_ <-]|[_ Hf]]%lookup_insert_Some.
    + split; [lia|]. destruct (results c !! next_flight c) eqn:Hr; [|done].
      assert (next_flight c < next_flight c)%nat by (apply H4; eauto). lia.
    + destruct (H1 _ _ Hf). split; [lia|done].
  - intros k k' f [[<- <-]|[_ Hf]]%lookup_insert_Some [[<- Hg]|[_ Hg]]%lookup_insert_Some; try done.
    + destruct (H1 _ _ Hg). lia.
    + destruct (H1 _ _ Hf). lia.
    + eauto.
  - intros k f f' r [[<- <-]|[_ Hf]]%lookup_insert_Some Hr; [|eauto]. apply H4. eauto.
  - intros f Hr. specialize (H4 f Hr). lia.
Qed.

Lemma flights_end config key f r c :
  flights c !! key = Some f → flights_ok c → flights_ok (end_flight config key f r c).
Proof.
  intros Hflight [H1 H2 H3 H4]. split; simpl.
  - intros k f' [Hne Hf]%lookup_delete_Some. destruct (H1 _ _ Hf). split; [done|].
    rewrite lookup_insert_ne; [done|]. intros <-. eauto.
  - intros k k' f' [_ ?]%lookup_delete_Some [_ ?]%lookup_delete_Some. eauto.
  - intros k f' f'' r' [Hne Hf]%lookup_delete_Some [[_ [= -> _]]|[_ Hr]]%lookup_insert_Some; [done|eauto].
  - intros f' Hr. destruct (decide (f' = f)) as [->|]; [by destruct (H1 _ _ Hflight)|].
    rewrite lookup_insert_ne in Hr by done. auto.
Qed.

(** Time went on, and what is new among the results ended after [c]. *)
Record later (c c' : CacheState) : Prop := {
  la_now : now c ≤ now c';
  la_ended : ended c ⊆ ended c';
  la_results f key r : results c' !! f = Some (key, r) →
    results c !! f = Some (key, r) ∨ ∃ t, now c ≤ t ∧ (key, t, r) ∈ ended c'
}.

Lemma later_same c c' :
  now c ≤ now c' → ended c' = ended c → results c' = results c → later c c'.
Proof. intros Hn He Hr. split; [done|by rewrite He|]. intros. left. by rewrite <-Hr. Qed.

Section freshness.
Context {CK : Cryptoki} {CL : CryptoLib} {CH : Channel} {CHO : ChannelOk CH} {LM : RL.Limiters}.
Context (from_der : bytes → option Identity.X509Certificate).
Context (show : CkError → string) (description : Code → string) (svc : PooledService).
Context (cache_config : CacheConfig).

Abbreviation step_of := (whole_step from_der show description svc cache_config).
Abbreviation reachable_of := (whole_reachable from_der show description svc cache_config).

(** For a request that came in at [ts], a value of [label] is current: the pool
    answered a load of the label with it, and that load ended after the request came
    in, or less than the time to live before it, [ttl] for a key and [negative_ttl]
    for the absence of one. *)
Definition current (p : Pool) (c : CacheState) (ts : Z) (label : string) (v : Lookup) : Prop :=
  lookup_from p label v ∧
  ∃ t, (label, t, Ok v) ∈ ended c ∧
    (ts ≤ t ∨ ts < t + match v with Found _ => ttl cache_config | LNotFound => negative_ttl cache_config end).

Definition dated (p : Pool) (c : CacheState) (ts : Z) (ev : event svcE) : Prop :=
  (∀ label v, yields label v ev → current p c ts label v) ∧ ¬ denied_as_missing ev.

(** The loads that a waiting handler may get its result from end after it came in. *)
Definition joined (c : CacheState) (ts : Z) (l : LoadState) : Prop :=
  match l with
  | Joining key f => ∀ f' r, (f ≤ f')%nat → results c !! f' = Some (key, r) →
      ∃ t, ts ≤ t ∧ (key, t, r) ∈ ended c
  | _ => True
  end.

Definition handler_dated (p : Pool) (c : CacheState) (h : Handler) : Prop :=
  ∀ ts, came_in (h_trace h) = Some ts →
    ts ≤ now c ∧ Forall (dated p c ts) (h_trace h) ∧ joined c ts (load_of h).

Lemma dated_later p p' c c' ts ev : grows p p' → later c c' → dated p c ts ev → dated p' c' ts ev.
Proof.
  intros Hg [_ He _] [Hy Hd]. split; [|done]. intros label v Hev.
  destruct (Hy label v Hev) as (Hl&t&Hin&Ht). split; [by eapply lookup_grows|].
  exists t. split; [by apply He|done].
Qed.

Lemma joined_later c c' ts l : later c c' → ts ≤ now c → joined c ts l → joined c' ts l.
Proof.
  intros [_ He Hr] Hts. destruct l as [|key f|]; [done| |done]. intros Hj f' r Hf [Hold|(t&Ht&Hin)]%Hr.
  - destruct (Hj f' r Hf Hold) as (t&Ht&Hin). exists t. split; [done|by apply He].
  - exists t. split; [lia|done].
Qed.

Lemma handler_later p p' c c' h :
  grows p p' → later c c' → handler_dated p c h → handler_dated p' c' h.
Proof.
  intros Hg Hl Hh ts Hts. destruct (Hh ts Hts) as (Hn&Hd&Hj). split; [pose proof (la_now _ _ Hl); lia|].
  split; [|by eapply joined_later]. eapply Forall_impl; [exact Hd|]. intros ev. by apply dated_later.
Qed.

(** A visible entry is current for whoever came in by now. *)
Lemma fresh_current p c ts key v :
  cache_true cache_config p c → ts ≤ now c → fresh key c = Some v → current p c ts key v.
Proof.
  intros Hc Hts Hf. destruct (fresh_loaded cache_config c key v (ct_ok _ _ _ Hc) Hf) as (t&Hin&Ht).
  split; [by eapply ct_ended|]. exists t. split; [done|]. right. destruct v; simpl in Ht; lia.
Qed.

Lemma cache_answer_later X (e : cacheE X) c v c' :
  cache_answer cache_config X e c v c' → asked e = true → flights_ok c → later c c' ∧ flights_ok c'.
Proof.
  intros Ha Hask Hf. destruct Ha; try done;
    try (split; [by apply later_same|]; first [done|by apply flights_start, (flights_same s)|by apply (flights_same s)]).
  split; [|by apply flights_end]. split; simpl; [done|set_solver|].
  intros f' key' r' [[_ [= <- <-]]|[_ Hr]]%lookup_insert_Some; [right|by left].
  exists (now s). split; [done|left].
Qed.

(** What a handler is given by the cache is current, and what it waits for will be. *)
Lemma cache_answer_dated p X (e : cacheE X) c v c' ts l :
  cache_answer cache_config X e c v c' → asked e = true → flights_ok c → cache_true cache_config p c →
  deposits p (Ev (InKeyCache e) v) → load_allows l (InKeyCache e) = true →
  ts ≤ now c → joined c ts l →
  dated p c' ts (Ev (InKeyCache e) v) ∧ joined c' ts (load_next l (Ev (InKeyCache e) v)).
Proof.
  intros Ha Hask Hf Hc Hd Hl%load_allows_loading Hts Hj.
  assert (∀ key f f' r, l = Joining key f → (f ≤ f')%nat → results c !! f' = Some (key, r) →
    ∀ v, r = Ok v → current p c ts key v) as Hjoin.
  { intros key f f' r -> Hle Hr v' ->. destruct (Hj f' _ Hle Hr) as (t&Ht&Hin).
    split; [by eapply ct_ended|]. exists t. auto. }
  destruct Ha; try done; (split; [split; [intros label v' Hy|]|]); simpl in *; try done; try (by intros []).
  - destruct Hy as [<- [= <-]]. by apply fresh_current.
  - by destruct Hy.
  - intros f' r Hle Hr. pose proof (fo_order _ Hf _ _ _ _ H0 Hr). lia.
  - by destruct Hy.
  - destruct Hy as [<- [= ->]]. by eapply (Hjoin key f f).
  - destruct Hy as [<- [= <-]]. by apply fresh_current.
  - destruct Hy as [<- [= ->]]. by eapply (Hjoin key f f'); [|lia|..].
  - by destruct Hy.
  - destruct Hy as [<- ->]. split; [done|]. exists (now s). split; [left|by left].
Qed.
Lemma authorize_not_missing certs key op a r a' :
  Authorizer.authorize from_der certs key op a = (r, a') →
  match r with Err s => code s ≠ NotFound | Ok _ => True end.
Proof.
  unfold Authorizer.authorize, Identity.identify, Identity.leaf_der, Identity.parse_identity, ok_or.
  repeat case_match; intros; simplify_eq/=; done.
Qed.

Lemma answer_dated p t X (e : svcE X) x v x' l :
  answer from_der cache_config t X e x v x' →
  flights_ok (key_cache x) → cache_true cache_config p (key_cache x) →
  deposits p (Ev e v) → load_allows l e = true →
  later (key_cache x) (key_cache x') ∧ flights_ok (key_cache x') ∧
  ∀ ts, ts ≤ now (key_cache x) → joined (key_cache x) ts l →
    dated p (key_cache x') ts (Ev e v) ∧ joined (key_cache x') ts (load_next l (Ev e v)).
Proof.
  intros Ha Hf Hc Hd Hl. destruct Ha as [| | | |certs key op x r a Hau| |X e x v c Hask Hca| | |]; simpl.
  all: try (split; [by apply later_same|]; split; [done|]; intros ts Hts Hj; split; [|done];
            split; [by intros ? ? []|by intros []]).
  - split; [by apply later_same|]. split; [done|]. intros ts Hts Hj. split; [|done].
    split; [by intros ? ? []|].
    apply authorize_not_missing in Hau. destruct r; [by intros []|exact Hau].
  - destruct (cache_answer_later _ _ _ _ _ Hca Hask Hf). split; [done|]. split; [done|].
    intros ts Hts Hj. by eapply cache_answer_dated.
Qed.

Record timely (w : Whole) : Prop := {
  tm_flights : flights_ok (key_cache (parts w));
  tm_handlers : Forall (handler_dated (pool w) (key_cache (parts w))) (requests w)
}.

Lemma grows_refl (p : Pool) : grows p p.
Proof. by split. Qed.

(** A handler that goes on, with an event that is dated. *)
Lemma handler_snoc p c c' q tr a a' X (e : svcE X) v :
  later c c' → handler_dated p c (mkHandler q tr a) →
  (∀ ts, came_in [Ev e v] = Some ts → ts ≤ now c) →
  (∀ ts, ts ≤ now c → joined c ts (load_of (mkHandler q tr a)) →
     dated p c' ts (Ev e v) ∧ joined c' ts (load_next (load_of (mkHandler q tr a)) (Ev e v))) →
  handler_dated p c' (mkHandler q (tr ++ [Ev e v]) a').
Proof.
  intros Hl Hh Hfirst He ts. simpl. rewrite (load_of_snoc q tr a).
  assert (now c ≤ now c') by apply Hl.
  intros [Hts|[-> Hts]]%came_in_snoc.
  - destruct (Hh ts Hts) as (Hn&Hd&Hj). destruct (He ts Hn Hj) as [Hev Hj'].
    split; [lia|]. split; [|done]. apply Forall_app. split; [|by apply Forall_singleton].
    eapply Forall_impl; [exact Hd|]. intros ev. by apply dated_later; [apply grows_refl|].
  - specialize (Hfirst ts Hts). destruct (He ts Hfirst) as [Hev Hj']; [done|].
    split; [lia|]. split; [by apply Forall_singleton|done].
Qed.

Lemma quiet_dated p c ts l X (e : svcE X) v :
  (∀ label v', ¬ yields label v' (Ev e v)) → ¬ denied_as_missing (Ev e v) →
  load_next l (Ev e v) = l → joined c ts l → dated p c ts (Ev e v) ∧ joined c ts (load_next l (Ev e v)).
Proof. intros Hy Hd -> Hj. split; [|done]. split; [|done]. intros label v' H. by destruct (Hy label v'). Qed.

Lemma came_in_now t X (e : svcE X) x v x' ts :
  answer from_der cache_config t X e x v x' → came_in [Ev e v] = Some ts → ts = t.
Proof. intros Ha. destruct Ha; try done. by intros [= ->]. Qed.

Lemma timely_elsewhere p p' c c' (hs : list Handler) :
  grows p p' → later c c' → Forall (handler_dated p c) hs → Forall (handler_dated p' c') hs.
Proof. intros Hg Hl Hh. eapply Forall_impl; [exact Hh|]. intros h. by apply handler_later. Qed.

Lemma timely_step w w' :
  step_of w w' → whole_ok show description svc cache_config w → timely w → timely w'.
Proof.
  intros Hs Hok [Hf Hh]. destruct Hok as [Hp Hc Hn Htrue]. unfold time in Hn.
  destruct Hs as [x p hs lk gn q|x p hs lk gn i X e v x' hs' _ _ Hperf Ha
    |x p hs lk gn i q tr k _ Hi _|x p hs lk gn i ok b hs' _ Hperf _|x p hs lk gn i q tr job k _ Hi _
    |x p hs lk gn i q tr id job k o _ Hi _|x p hs lk gn a Ha _|x p hs lk gn d|x p hs lk gn key
    |x p hs lk gn i h _ Hi _|x p hs lk gn i h key f _ Hi _ Hfl]; simpl in *.
  - split; simpl; [done|]. apply Forall_app. split; [done|]. by apply Forall_singleton.
  - destruct (performs_true _ _ _ p _ _ _ _ _ _ Hperf Htrue) as [_ Hd].
    destruct Hperf as [hs q tr k Hi].
    pose proof (Forall_lookup_1 _ _ _ _ Hh Hi) as Hhi.
    pose proof (Forall_lookup_1 _ _ _ _ Htrue Hi) as [Hr _ _]. simpl in Hr.
    pose proof (runs_shaped NoLoad _ _ _ Hr (rpc_shaped show description svc q)) as [Hl _].
    destruct (answer_dated p _ _ _ _ _ _ _ Ha Hf Hc Hd Hl) as (Hla&Hf'&Hev). split; simpl; [done|].
    apply Forall_insert; [by apply (timely_elsewhere p p (key_cache x)); [apply grows_refl|..]|].
    eapply handler_snoc; [exact Hla|exact Hhi| |exact Hev].
    intros ts Hts. apply (came_in_now _ _ _ _ _ _ _ Ha) in Hts as ->. lia.
  - by split.
  - destruct Hperf as [hs q tr k Hi]. pose proof (Forall_lookup_1 _ _ _ _ Hh Hi) as Hhi.
    split; simpl; [done|]. apply Forall_insert; [done|].
    eapply (handler_snoc p (key_cache x)); [by apply later_same|exact Hhi|done|].
    intros ts _ Hj. by apply quiet_dated; [intros ? ? []|intros []|..].
  - pose proof (apply_grows (ASubmit job) p Hp) as Hg. simpl in Hg. split; simpl; [done|].
    apply Forall_insert; [by apply (timely_elsewhere p _ (key_cache x)); [|by apply later_same|]|].
    pose proof (Forall_lookup_1 _ _ _ _ Hh Hi) as Hhi.
    by apply (handler_later p _ (key_cache x)); [|by apply later_same|].
  - pose proof (Forall_lookup_1 _ _ _ _ Hh Hi) as Hhi. split; simpl; [done|]. apply Forall_insert; [done|].
    eapply (handler_snoc p (key_cache x)); [by apply later_same|exact Hhi|done|].
    intros ts _ Hj. by apply quiet_dated; [intros ? ? []|intros []|..].
  - split; simpl; [done|]. apply (timely_elsewhere p _ (key_cache x)); [by apply apply_grows|by apply later_same|done].
  - split; simpl; [by apply (flights_same (key_cache x))|].
    apply (timely_elsewhere p _ (key_cache x)); [by apply (apply_grows (ATick d))|apply later_same; simpl; lia || done|done].
  - split; simpl; [by apply (flights_same (key_cache x))|].
    apply (timely_elsewhere p _ (key_cache x)); [apply grows_refl|by apply later_same|done].
  - split; simpl; [done|]. apply (timely_elsewhere p _ (key_cache x)); [|by apply later_same|done].
    unfold release. destruct (h_activity h); [apply grows_refl|]. by apply (apply_grows (ACancel _)).
  - split; simpl; [by apply (flights_fewer (key_cache x) _ key)|].
    apply (timely_elsewhere p _ (key_cache x)); [apply grows_refl|by apply later_same|done].
Qed.

Lemma timely_reachable policy cfg w : reachable_of policy cfg w → timely w.
Proof.
  intros (w0&H0&Hr).
  assert (whole_ok show description svc cache_config w0) as Hok by by eapply whole_start_ok.
  assert (timely w0) as Ht.
  { destruct H0 as [_ _ Hc Hp (Hq&_)]. split; rewrite ?Hq, ?Hc; [|done].
    split; intros; simpl in *; rewrite ?lookup_empty in *; done. }
  clear H0. induction Hr as [|w1 w2 w3 H12 _ IH]; [done|].
  apply IH; [by eapply whole_ok_step|by eapply timely_step].
Qed.
(** C17: Public keys are fresh.  In every state the proxy reaches, a [GetPublicKey]
    that was answered, with a key, and a [Verify] that was answered, with the
    verdict of a key, used a key that the pool returned for that label, by a load
    that ended after the request came in or less than [ttl] before; and one that was
    answered with [NotFound] had the pool's word that there is no such key, by a
    load that ended after the request came in or less than [negative_ttl] before:
    whether the value was in the cache, was another request's load, perhaps taken
    over from a client that went away, or its own. *)
Theorem public_keys_are_fresh policy cfg w i q tr r :
  reachable_of policy cfg w → requests w !! i = Some (mkHandler q tr (Running (Ret r))) →
  ∃ ts, came_in tr = Some ts ∧ ts ≤ time w ∧
  match q, r with
  | QGetPublicKey g, Ok (AGetPublicKey x) =>
      current (pool w) (key_cache (parts w)) ts (gpk_key_label (get_ref g))
        (Found (mkCached (resp_spki_der x) (resp_key_type x)))
  | QVerify v, Ok (AVerify x) =>
      ∃ input k, extract_input (verify_input (get_ref v)) = Ok input ∧
        current (pool w) (key_cache (parts w)) ts (verify_key_label (get_ref v)) (Found k) ∧
        Crypto.verify_public (spki_der k) (verify_mechanism (get_ref v)) input
          (verify_signature (get_ref v)) = Ok (valid x)
  | (QGetPublicKey _ | QVerify _), Err s =>
      code s = NotFound → current (pool w) (key_cache (parts w)) ts (request_key q) LNotFound
  | _, _ => True
  end.
Proof.
  intros Hw Hi. pose proof (whole_reachable_ok _ _ _ _ _ _ _ _ Hw) as Hok.
  destruct (timely_reachable _ _ _ Hw) as [_ Ht].
  pose proof (Forall_lookup_1 _ _ _ _ (wo_handlers _ _ _ _ _ Hok) Hi) as [Hr _ _]. simpl in Hr.
  pose proof (all_runs_to any _ _ _ _ Hr (Forall_true any tr (λ _, I)) (rpc_made_from show description svc q))
    as Hmade. simpl in Hmade. rewrite app_nil_r in Hmade. destruct Hmade as [[ts Hts] Hmade].
  destruct (Forall_lookup_1 _ _ _ _ Ht Hi ts Hts) as (Hn&Hd&_). simpl in Hd.
  assert (∀ label v, Exists (yields label v) tr → current (pool w) (key_cache (parts w)) ts label v) as Hcur.
  { intros label v (ev&Hev&Hy)%Exists_exists. rewrite Forall_forall in Hd. by apply (Hd ev Hev). }
  assert (¬ Exists denied_as_missing tr) as Hno.
  { intros (ev&Hev&Hy)%Exists_exists. rewrite Forall_forall in Hd. by destruct (Hd ev Hev). }
  exists ts. split; [done|]. split; [by rewrite <-(wo_now _ _ _ _ _ Hok)|].
  destruct q as [| v| | |g], r as [[]|s]; simpl in Hmade; try done; [|naive_solver|auto|naive_solver].
  destruct Hmade as (input&k&?&?&?). exists input, k. auto.
Qed.
End freshness.

(** ** Witnesses: two verifications at once of a key that is not cached *)

Module LookupsWitness.
Import Toy PoolWitness AnswersWitness WholeWitness.

(** Both were answered, with one lookup. *)
Lemma public_keys_are_looked_up_once_witness :
  lookup_jobs "demo" (pool demo_end) = 1%nat ∧
  failed_loads "demo" (key_cache (parts demo_end)) = 0%nat ∧
  (lookup_jobs "demo" (pool demo_end) ≤
     1 + failed_loads "demo" (key_cache (parts demo_end)) +
     count_of "demo" (abandoned (key_cache (parts demo_end))) +
     count_of "demo" (dropped (key_cache (parts demo_end))))%nat.
Proof.
  split; [vm_compute; reflexivity|]. split; [vm_compute; reflexivity|].
  apply (public_keys_are_looked_up_once Identity.demo_from_der (λ _, "") (λ _, "") full CacheConfig_default
    demo_policy CB.BreakerConfig_default demo_end "demo" demo_end_reachable).
Defined.

(** The one that waited for the other's load used a key that is current for it. *)
Lemma public_keys_are_fresh_witness :
  ∃ ts input k, extract_input demo_input = Ok input ∧
    current CacheConfig_default (pool demo_end) (key_cache (parts demo_end)) ts "demo" (Found k) ∧
    Crypto.verify_public (spki_der k) 1 input demo_signature = Ok true.
Proof.
  assert (replied demo_end (QVerify demo_verify) (Ok (AVerify (mkVerifyResp true false)))) as (i&tr&Hi).
  { apply (demo_replied 2). rewrite demo_replies. reflexivity. }
  destruct (public_keys_are_fresh Identity.demo_from_der (λ _, "") (λ _, "") full CacheConfig_default
    demo_policy CB.BreakerConfig_default demo_end i _ tr _ demo_end_reachable Hi) as (ts&_&_&input&k&H).
  exists ts, input, k. exact H.
Defined.
End LookupsWitness.
