(* ===== verification/Deployment.v ===== *)
(** * The proxy that [main] deploys

    [Main] says what is started and served, [Whole] how what is served behaves.
    Here they meet: what the files of a deployment say governs what reaches the
    token. *)
From S2P Require Import Prelude RustStd Deps Effects Breaker Policy Identity Authorizer RateLimit Session.
From S2P Require Import Crypto Toy Worker Pool Answers Cache Wire Pooled Telemetry Main System Whole.

Local Open Scope Z_scope.

(** ** From the policy file to the token *)

Section governed.
Context {CK : Cryptoki} {CL : CryptoLib} {CH : Channel} {CHO : ChannelOk CH} {LM : RL.Limiters}.
Context (fs_read : string → result bytes string).
Context (fs_read_to_string : string → result string AnyError).
Context (toml_from_str : string → result Policy.PolicyFile AnyError).
Context (tls_config : ServerTlsConfig → result unit string).
Context (parse_addr : string → result unit string).
Context (parse_f64 : string → option f64) (available_parallelism : option Z).
Context (show : CkError → string) (valid_filter : string → bool).
Context (from_der : bytes → option Identity.X509Certificate) (description : Code → string).

Abbreviation main := (Main.main fs_read fs_read_to_string toml_from_str tls_config parse_addr parse_f64
                        available_parallelism show valid_filter).

(** A state of the proxy that serves with this authorizer and these configurations. *)
Record assembled (auth : Authorizer.Authorizer) (limiter : option RL.RateLimitConfig)
    (breaker : CB.BreakerConfig) (w : Whole) : Prop := {
  as_authorizer : Whole.authorizer (parts w) = auth;
  as_limiter config : limiter = Some config → RL.new config = Some (Whole.limiter (parts w));
  as_breaker : Whole.breaker (parts w) = CB.new breaker (time w);
  as_cache : key_cache (parts w) = cache_new (time w);
  as_pool : started (pool w);
  as_idle : requests w = [] ∧ locking w = ∅ ∧ gone w = ∅
}.

Definition serving (auth : Authorizer.Authorizer) (cache : CacheConfig)
    (limiter : option RL.RateLimitConfig) (breaker : CB.BreakerConfig) (w : Whole) : Prop :=
  ∃ w0, assembled auth limiter breaker w0 ∧
    rtc (whole_step from_der show description (mkService true (bool_decide (is_Some limiter))) cache) w0 w.

Lemma serving_reachable policy cache limiter breaker w :
  serving (Authorizer.new policy) cache limiter breaker w →
  whole_reachable from_der show description (mkService true (bool_decide (is_Some limiter))) cache
    policy breaker w.
Proof.
  intros (w0&[Ha _ Hb Hc Hp Hi]&Hr). exists w0. split; [|done]. by split.
Qed.

(** What the deployment's files grant, its requests ask for, and the token does. *)
Definition granted_by_file (file : Policy.PolicyFile) (w : Whole) (job : JobRequest) : Prop :=
  ∃ h identity, h_request h ∈ h_request <$> requests w ∧
    Identity.identity_of from_der (request_certs (h_request h)) = Ok identity ∧
    Policy.granted file identity (request_key (h_request h)) (request_op (h_request h)) ∧
    serves (h_request h) job = true.

Lemma serving_granted file cache limiter breaker w id job :
  serving (Authorizer.new (Policy.compile file)) cache limiter breaker w →
  calls (pool w) !! id = Some job → granted_by_file file w job.
Proof.
  intros Hs%serving_reachable%whole_reachable_projects Hid.
  apply system_reachable_ok in Hs; [|done].
  destruct (so_calls _ _ _ _ _ _ Hs id job Hid)
    as (h&Hin&(identity&Hident&Hallowed)&Hserves).
  exists h, identity. split; [done|]. split; [done|]. split; [|done].
  by apply Policy.compile_allows, Policy.is_allowed_table.
Qed.

(** C1: The policy file governs the token.  In every run of [main] that serves the pool
    with security not switched off: the certificates and the policy were read from
    the deployment's files, the server demands client certificates that chain to
    [ca.crt], and whatever the proxy then does, under any interleaving of requests,
    dropped clients, workers and time, every job that enters the pool belongs to a
    request whose certificate names an identity to which the policy file, as it is
    written, grants that operation on that key. *)
Theorem policy_file_governs_the_token e :
  e "PROXY_TLS" ≠ Some "off" →
  all_runs any (main e) (λ tr _, Forall (λ ev, ∀ server auth cache limiter breaker,
    served ev = Some (server, SPooled auth cache limiter breaker) →
    ∃ cert key ca text file a,
      fs_read (path_join (default "certs" (e "CERT_DIR")) "ca.crt") = Ok ca ∧
      srv_tls server = Some (mkTls (Some (cert, key)) (Some ca)) ∧
      fs_read_to_string (default "policy/authz.toml" (e "AUTHZ_POLICY")) = Ok text ∧
      toml_from_str text = Ok file ∧ auth = Some a ∧
      ∀ w id job, serving a cache limiter breaker w → calls (pool w) !! id = Some job →
        granted_by_file file w job) tr).
Proof.
  intros Htls. eapply all_runs_mono; [|apply main_serves]. simpl. intros tr _ Hs.
  eapply Forall_impl; [exact Hs|]. simpl. intros ev Hev server auth cache limiter breaker Hserved.
  destruct (Hev _ _ Hserved) as (security&Hl&Hb&_&->).
  pose proof (load_security_spec fs_read fs_read_to_string toml_from_str e) as Hspec. rewrite Hl in Hspec.
  destruct security as [s|]; [|done]. destruct Hspec as [_ (cert&key&ca&text&file&_&_&Hca&Htext&Hfile&->)].
  apply server_builder_fields in Hb as [Ht _].
  exists cert, key, ca, text, file, (Authorizer.new (Policy.compile file)).
  split_and!; [done..|]. intros w id job. apply serving_granted.
Qed.
End governed.

(** ** Witnesses *)

Module DeploymentWitness.
Import Toy PoolWitness AnswersWitness WholeWitness.

(** A deployment whose policy file grants [payments] the demo keys, rate limited. *)
Definition demo_env : env := λ k,
  if String.eqb k "USER_PIN" then Some "1234"
  else if String.eqb k "RATE_LIMIT_PER_SECOND" then Some "9"
  else if String.eqb k "RATE_LIMIT_BURST" then Some "9" else None.

Abbreviation demo_main :=
  (main (λ _, Ok [x00]) (λ _, Ok "") (λ _, Ok {| Policy.workloads := [demo_workload] |}) (λ _, Ok tt)
     (λ _, Ok tt) (λ _, None) (Some 2) (λ _, "") (λ _, true) demo_env).

Definition demo_limit : RL.RateLimitConfig := {| RL.per_second := 9; RL.burst := 9; RL.max_identities := 4096 |}.

Lemma demo_end_serving :
  serving (CH := list_channel) (λ _, "") Identity.demo_from_der (λ _, "")
    (Authorizer.new demo_policy) CacheConfig_default (Some demo_limit) CB.BreakerConfig_default demo_end.
Proof.
  exists demo_whole. split; [|exact demo_run].
  split; [reflexivity|by intros ? [= <-]|reflexivity|reflexivity|exact demo_started|done].
Qed.

Lemma demo_main_serves :
  some_run demo_main (λ tr _, ∃ ev server, ev ∈ tr ∧
    served ev = Some (server, SPooled (Some (Authorizer.new demo_policy)) CacheConfig_default (Some demo_limit)
                                CB.BreakerConfig_default)).
Proof.
  exists tt, true, (Ok tt), (Ok tt), (Ok tt), tt, tt, tt, (Err (anyhow "stopped")).
  simpl. do 2 eexists. split; [do 8 right; left|reflexivity].
Qed.

(** The first job of the run that [Whole] plays, a signature, is one that the file
    grants. *)
Lemma policy_file_governs_the_token_witness :
  ∃ job, calls (pool demo_end) !! 0%nat = Some job ∧
    granted_by_file Identity.demo_from_der {| Policy.workloads := [demo_workload] |} demo_end job.
Proof.
  pose proof (policy_file_governs_the_token (CK := toy_token) (CH := list_channel) (LM := RL.demo_limiters)
    (λ _, Ok [x00]) (λ _, Ok "") (λ _, Ok {| Policy.workloads := [demo_workload] |}) (λ _, Ok tt)
    (λ _, Ok tt) (λ _, None) (Some 2) (λ _, "") (λ _, true) Identity.demo_from_der (λ _, "") demo_env) as Hall.
  assert (demo_env "PROXY_TLS" ≠ Some "off") as Htls by done. specialize (Hall Htls).
  destruct (some_run_elim _ _ (all_some _ _ _ Hall demo_main_serves)) as (tr&a&Hev&ev&server&Hin&Hs).
  rewrite Forall_forall in Hev. destruct (Hev ev Hin _ _ _ _ _ Hs) as (_&_&_&_&file&_&_&_&_&[= <-]&[= <-]&Hg).
  destruct (calls (pool demo_end) !! 0%nat) as [job|] eqn:Hjob.
  - exists job. split; [done|]. exact (Hg demo_end 0%nat job demo_end_serving Hjob).
  - assert (is_Some (calls (pool demo_end) !! 0%nat)) as [? Hsome] by (vm_compute; by eexists). congruence.
Defined.
End DeploymentWitness.
