(* ===== verification/Tests.v ===== *)
(** * The repository's unit tests

    The tests of [resilience/breaker.rs], [resilience/ratelimit.rs],
    [authz/policy.rs] and [authz/identity.rs], as functions that say whether every
    assertion holds.  A test of the breaker or the limiter reads the clock; it is a
    function of the readings, and it passes for all readings that a run of it can
    see.  The other tests parse texts with [toml] and [x509_parser], which are
    parameters. *)
From Stdlib Require Import Sorting.Sorted.
From S2P Require Import Prelude RustStd F64 Deps Breaker Policy Identity RateLimit.

Local Open Scope Z_scope.

(** ** [resilience/breaker.rs] *)

Module BreakerTests.
Import CB.

(** The configuration that the tests use. *)
Definition test_config : BreakerConfig := {|
  failure_ratio := f64_half; minimum_requests := 4; cfg_window := from_secs 60;
  cooldown := from_millis 50; cfg_probe_successes := 2 |}.

Definition breaker (now : Z) : CircuitBreaker := new test_config now.

Definition is_state (s : State) (b : CircuitBreaker) : bool := bool_decide (state b = s).

Definition starts_closed_and_allows (t0 t1 : Z) : bool :=
  let b := breaker t0 in
  is_state Closed b && fst (allow t1 b).

Definition does_not_trip_below_minimum_requests (t0 t1 : Z) : bool :=
  is_state Closed (record_failure t1 (breaker t0)).

(** [for _ in 0..n { b.record_success() }] and its like, with a reading each *)
Definition repeat_success (ts : list Z) (b : CircuitBreaker) : CircuitBreaker :=
  foldl (λ b t, record_success t b) b ts.
Definition repeat_failure (ts : list Z) (b : CircuitBreaker) : CircuitBreaker :=
  foldl (λ b t, record_failure t b) b ts.

Definition tripped (t0 t1 t2 t3 t4 : Z) : CircuitBreaker :=
  repeat_failure [t3; t4] (repeat_success [t1; t2] (breaker t0)).

Definition trips_once_ratio_and_minimum_are_met (t0 t1 t2 t3 t4 t5 : Z) : bool :=
  let b := tripped t0 t1 t2 t3 t4 in
  is_state Open b && negb (fst (allow t5 b)).

Definition recovers_through_half_open (t0 t1 t2 t3 t4 t5 t6 t7 : Z) : bool :=
  let b := tripped t0 t1 t2 t3 t4 in
  is_state Open b &&
  let '(ok, b) := allow t5 b in
  ok && is_state HalfOpen b && is_state Closed (repeat_success [t6; t7] b).

Definition failed_probe_reopens (t0 t1 t2 t3 t4 t5 t6 : Z) : bool :=
  let b := tripped t0 t1 t2 t3 t4 in
  let '(ok, b) := allow t5 b in
  ok && is_state HalfOpen b && is_state Open (record_failure t6 b).

Definition sustained_success_never_trips (t0 : Z) (ts : list Z) : bool :=
  is_state Closed (repeat_success ts (breaker t0)).

(** The readings of a run that stays within one window of its start. *)
Definition prompt (t0 : Z) (ts : list Z) : Prop := Forall (λ t, t0 ≤ t < t0 + from_secs 60) ts.

Lemma roll_prompt t0 t w :
  t0 ≤ t < t0 + from_secs 60 → started w = t0 → roll_if_stale test_config t w = w.
Proof.
  intros Ht Hs. unfold roll_if_stale, elapsed. rewrite Hs.
  destruct (Z.leb_spec (cfg_window test_config) (Z.max 0 (t - t0))); [simpl in *; lia|done].
Qed.

Lemma tripped_eq t0 t1 t2 t3 t4 :
  prompt t0 [t1; t2; t3; t4] →
  tripped t0 t1 t2 t3 t4 =
  {| config := test_config; state_u8 := as_u8 Open;
     window := {| started := t0; successes := 2; failures := 2; opened_at := Some t4; probe_successes := 0 |};
     trips := 1; rejected := 0 |}.
Proof.
  unfold prompt. rewrite !Forall_cons. intros (H1&H2&H3&H4&_).
  unfold tripped, repeat_success, repeat_failure. cbn [foldl].
  unfold record_success at 2. cbn -[roll_if_stale from_secs record_success record_failure].
  rewrite (roll_prompt t0) by done.
  unfold record_success. cbn -[roll_if_stale from_secs record_failure]. rewrite (roll_prompt t0) by done.
  unfold record_failure at 2. cbn -[roll_if_stale from_secs record_failure]. rewrite (roll_prompt t0) by done.
  match goal with |- context [ratio_reached ?c ?w] =>
    assert (ratio_reached c w = false) as -> by (vm_compute; reflexivity) end.
  unfold record_failure. cbn -[roll_if_stale from_secs]. rewrite (roll_prompt t0) by done.
  match goal with |- context [ratio_reached ?c ?w] =>
    assert (ratio_reached c w = true) as -> by (vm_compute; reflexivity) end.
  reflexivity.
Qed.

Lemma sustained_closed ts b : state b = Closed → state (repeat_success ts b) = Closed.
Proof.
  unfold repeat_success. revert b. induction ts as [|t ts IH]; intros b Hb; [done|]. simpl. apply IH.
  unfold record_success. rewrite Hb. by rewrite state_set_window.
Qed.

(** The breaker's tests pass, whatever the clock shows: the five short ones whenever
    their first calls fall into one window of a minute, the rejection after a trip
    is looked for before the cooldown of 50 ms is over, and a sleep of 60 ms lasts at
    least that long; the long one always. *)
Theorem breaker_tests_pass t0 t1 t2 t3 t4 t5 t5' t6 t7 ts :
  prompt t0 [t1; t2; t3; t4] → t4 ≤ t5 < t4 + from_millis 50 → t4 + from_millis 60 ≤ t5' →
  starts_closed_and_allows t0 t1 = true ∧
  does_not_trip_below_minimum_requests t0 t1 = true ∧
  trips_once_ratio_and_minimum_are_met t0 t1 t2 t3 t4 t5 = true ∧
  recovers_through_half_open t0 t1 t2 t3 t4 t5' t6 t7 = true ∧
  failed_probe_reopens t0 t1 t2 t3 t4 t5' t6 = true ∧
  sustained_success_never_trips t0 ts = true.
Proof.
  intros Hp H5 H5'. split; [reflexivity|]. split.
  { unfold does_not_trip_below_minimum_requests, record_failure. simpl.
    apply Forall_cons in Hp as [H1 _]. by rewrite (roll_prompt t0). }
  unfold trips_once_ratio_and_minimum_are_met, recovers_through_half_open, failed_probe_reopens.
  rewrite (tripped_eq t0 t1 t2 t3 t4) by done. unfold allow, allow_locked.
  cbn -[from_millis elapsed repeat_success]. unfold elapsed.
  rewrite (proj2 (Z.leb_gt (from_millis 50) (Z.max 0 (t5 - t4)))) by (unfold from_millis in *; lia).
  rewrite (proj2 (Z.leb_le (from_millis 50) (Z.max 0 (t5' - t4)))) by (unfold from_millis in *; lia).
  split; [reflexivity|]. split; [reflexivity|]. split; [reflexivity|].
  apply bool_decide_eq_true. by apply sustained_closed.
Qed.

(** A call every millisecond. *)
Lemma breaker_tests_pass_witness :
  recovers_through_half_open 0 (from_millis 1) (from_millis 2) (from_millis 3) (from_millis 4)
    (from_millis 64) (from_millis 65) (from_millis 66) = true ∧
  sustained_success_never_trips 0 (replicate 1000 (from_secs 61)) = true.
Proof.
  destruct (breaker_tests_pass 0 (from_millis 1) (from_millis 2) (from_millis 3) (from_millis 4)
    (from_millis 5) (from_millis 64) (from_millis 65) (from_millis 66) (replicate 1000 (from_secs 61)))
    as (_&_&_&Hr&_&Hs).
  - unfold prompt. rewrite !Forall_cons. unfold from_millis, from_secs. split_and!; [lia..|constructor].
  - unfold from_millis. lia.
  - unfold from_millis. lia.
  - split; [exact Hr|exact Hs].
Defined.
End BreakerTests.

(** ** [authz/policy.rs] *)

Module PolicyTests.
Import Policy.

(** What the text [SAMPLE] says. *)
Definition sample_file : PolicyFile := {| workloads := [
  {| identity := "spiffe://local/ns/default/sa/payments"; description := None;
     grants := [{| key_label := "demo-ec-p256"; operations := [Operation.Sign; Operation.Verify] |}] |};
  {| identity := "spiffe://local/ns/default/sa/batch"; description := None;
     grants := [{| key_label := "demo-ec-p256"; operations := [Operation.Sign] |}] |}] |}.

Section tests.
Context (toml_from_str : string → result PolicyFile AnyError) (SAMPLE : string).

(** [Policy::parse(text).unwrap()], and an assertion on it; a panic fails the test. *)
Definition with_policy (text : string) (assertion : Policy → bool) : bool :=
  match parse toml_from_str text with Ok policy => assertion policy | Err _ => false end.

Definition grants_what_is_listed : bool :=
  with_policy SAMPLE (λ policy,
    is_allowed policy "spiffe://local/ns/default/sa/payments" "demo-ec-p256" Operation.Sign).

Definition denies_operation_not_granted : bool :=
  with_policy SAMPLE (λ policy,
    negb (is_allowed policy "spiffe://local/ns/default/sa/batch" "demo-ec-p256" Operation.Verify)).

Definition denies_key_not_granted : bool :=
  with_policy SAMPLE (λ policy,
    negb (is_allowed policy "spiffe://local/ns/default/sa/batch" "demo-rsa-2048" Operation.Sign)).

Definition denies_unknown_identity : bool :=
  with_policy SAMPLE (λ policy,
    negb (is_allowed policy "spiffe://local/ns/default/sa/nobody" "demo-ec-p256" Operation.Sign)).

Definition empty_policy_denies_everything : bool :=
  with_policy "" (λ policy, negb (is_allowed policy "anyone" "any-key" Operation.Sign)).

(** The policy's tests pass, if [toml] reads the sample as the two workloads it
    lists and the empty text as none. *)
Theorem policy_tests_pass :
  toml_from_str SAMPLE = Ok sample_file → toml_from_str "" = Ok {| workloads := [] |} →
  grants_what_is_listed = true ∧ denies_operation_not_granted = true ∧
  denies_key_not_granted = true ∧ denies_unknown_identity = true ∧
  empty_policy_denies_everything = true.
Proof.
  intros Hs He.
  unfold grants_what_is_listed, denies_operation_not_granted, denies_key_not_granted,
    denies_unknown_identity, empty_policy_denies_everything, with_policy, parse.
  rewrite Hs, He. vm_compute. done.
Qed.
End tests.
End PolicyTests.

(** ** [resilience/ratelimit.rs] *)

Module RateLimitTests.
Import RL.

Section tests.
Context {L : Limiters}.

(** The answers of a fresh limiter to calls of [check], and the limiter after them. *)
Definition after_checks (config : RateLimitConfig) (cs : list (Z * string))
    (assertion : list bool → RateLimiter → bool) : bool :=
  match new config with
  | Some limiter => let '(oks, limiter) := check_all cs limiter in assertion oks limiter
  | None => false
  end.

Definition allows_within_burst (ts : list Z) : bool :=
  after_checks {| per_second := 10; burst := 5; max_identities := 16 |}
    ((λ t, (t, "spiffe://local/ns/default/sa/test")) <$> ts) (λ oks _, forallb id oks).

Definition tight : RateLimitConfig := {| per_second := 1; burst := 2; max_identities := 16 |}.

Definition rejects_beyond_burst (t1 t2 t3 : Z) : bool :=
  after_checks tight [(t1, "greedy"); (t2, "greedy"); (t3, "greedy")]
    (λ oks limiter, bool_decide (oks = [true; true; false]) && (rejected limiter =? 1)).

Definition identities_are_isolated (ts : list Z) (t6 t7 : Z) : bool :=
  after_checks tight (((λ t, (t, "greedy")) <$> ts) ++ [(t6, "greedy"); (t7, "quiet")])
    (λ oks _, bool_decide (last (take 6 oks) = Some false) && bool_decide (last oks = Some true)).

Context {HL : LimitersOk L} {HR : Roomy L} {HG : Governor L}.

Lemma check_all_length cs l : length (check_all cs l).1 = length cs.
Proof.
  revert l. induction cs as [|[t id] cs IH]; intros l; simpl; [done|].
  destruct (check t id l) as [ok l1]. specialize (IH l1). destruct (check_all cs l1). simpl in *. by f_equal.
Qed.

Lemma answers_of_alone id ts oks :
  length oks = length ts → answers_of id ((λ t, (t, id)) <$> ts) oks = oks.
Proof.
  unfold answers_of. revert oks. induction ts as [|t ts IH]; intros [|ok oks]; try done. simpl.
  intros [= Hl]. rewrite filter_cons. simpl. rewrite decide_True by done. csimpl. by rewrite IH.
Qed.

Lemma times_of_alone id ts : times_of id ((λ t, (t, id)) <$> ts) = ts.
Proof.
  unfold times_of. induction ts as [|t ts IH]; [done|]. simpl. rewrite filter_cons. simpl.
  rewrite decide_True by done. csimpl. by rewrite IH.
Qed.

Lemma allows_within_burst_passes ts :
  length ts = 5%nat → Sorted Z.le ts → allows_within_burst ts = true.
Proof.
  intros Hlen Hs. unfold allows_within_burst, after_checks.
  set (cs := (λ t, (t, _)) <$> ts). destruct (new _) as [l|] eqn:Hnew; [|done].
  destruct (burst_per_identity _ l cs "spiffe://local/ns/default/sa/test" Hnew) as [Hpass _];
    [by unfold cs; rewrite times_of_alone|].
  pose proof (check_all_length cs l) as Hl. destruct (check_all cs l) as [oks l']. simpl in *.
  unfold cs in Hpass, Hl. rewrite times_of_alone, Hlen in Hpass. rewrite length_fmap in Hl.
  rewrite answers_of_alone in Hpass by done. by rewrite Hpass by (simpl; lia).
Qed.
Lemma rejects_beyond_burst_passes t1 t2 t3 :
  t1 ≤ t2 ≤ t3 → t3 < t1 + from_secs 1 → rejects_beyond_burst t1 t2 t3 = true.
Proof.
  intros H12 H3. unfold rejects_beyond_burst, after_checks.
  set (cs := [(t1, "greedy"); (t2, "greedy"); (t3, "greedy")]).
  destruct (counters_account tight cs) as (l&Hnew&Hcount); [done|]. rewrite Hnew.
  pose proof (answers_are_the_buckets cs l "greedy") as Hans.
  assert (quota l = {| quota_per_second := 1; quota_burst := 2 |} ∧ buckets l = cache_build 16) as [Hq Hb]
    by (by injection Hnew as <-).
  rewrite Hq, Hb, build_empty in Hans. simpl default in Hans.
  change (times_of "greedy" cs) with ([t1; t2] ++ [t3]) in Hans. rewrite bucket_run_app in Hans.
  set (q := {| quota_per_second := 1; quota_burst := 2 |}) in *.
  assert (Sorted Z.le (t1 :: [t2] ++ [t3])) as Hs by (repeat constructor; lia).
  pose proof (burst_passes q [t1; t2] ltac:(repeat constructor; lia) ltac:(done)) as Hpass.
  pose proof (burst_spent q t1 [t2] t3 Hs ltac:(done) ltac:(simpl; rewrite Z.div_1_r; lia)) as Hspent.
  destruct (bucket_run [t1; t2] (direct q)) as [oks2 b]. simpl in *. subst oks2.
  destruct (bucket_check t3 b) as [ok b']. simpl in *. subst ok.
  destruct (check t1 "greedy" l) as [o1 l1]. destruct (check t2 "greedy" l1) as [o2 l2].
  destruct (check t3 "greedy" l2) as [o3 l3]. simpl in *. vm_compute in Hans. simplify_eq.
  destruct Hcount as (_&_&->). done.
Qed.

Lemma identities_are_isolated_passes ts t6 t7 :
  length ts = 5%nat → Sorted Z.le (ts ++ [t6]) →
  (∀ t, head ts = Some t → t6 < t + from_secs 1) → identities_are_isolated ts t6 t7 = true.
Proof.
  intros Hlen Hs Hh. destruct ts as [|z [|z0 [|z1 [|z2 [|z3 [|]]]]]]; try done. clear Hlen.
  unfold identities_are_isolated, after_checks. set (cs := _ ++ _).
  destruct (new tight) as [l|] eqn:Hnew; [|done].
  destruct (burst_per_identity _ l cs "greedy" Hnew Hs) as [_ Hgreedy].
  destruct (burst_per_identity _ l cs "quiet" Hnew) as [Hquiet _]; [repeat constructor|].
  pose proof (check_all_length cs l) as Hl. destruct (check_all cs l) as [oks l']. simpl fst in *.
  destruct oks as [|b [|b0 [|b1 [|b2 [|b3 [|b4 [|b5 [|]]]]]]]]; try done. clear Hl.
  specialize (Hquiet ltac:(done)).
  specialize (Hgreedy z [z0; z1; z2; z3] t6 eq_refl ltac:(done)). vm_compute in Hquiet. simplify_eq.
  apply andb_true_intro. split; apply bool_decide_eq_true; [|done].
  change (take 6 _) with (answers_of "greedy" cs [b; b0; b1; b2; b3; b4; true]). apply Hgreedy.
  simpl. rewrite Z.div_1_r. by apply Hh.
Qed.

(** The limiter's tests pass, on a [governor] that keeps its word and a cache with
    room: the last call of each comes within the second in which the first cell is not
    yet replenished. *)
Theorem ratelimit_tests_pass ts t1 t2 t3 us t6 t7 :
  length ts = 5%nat → Sorted Z.le ts → t1 ≤ t2 ≤ t3 → t3 < t1 + from_secs 1 →
  length us = 5%nat → Sorted Z.le (us ++ [t6]) → (∀ t, head us = Some t → t6 < t + from_secs 1) →
  allows_within_burst ts = true ∧ rejects_beyond_burst t1 t2 t3 = true ∧
  identities_are_isolated us t6 t7 = true.
Proof.
  intros. split_and!; [by apply allows_within_burst_passes|by apply rejects_beyond_burst_passes
    |by apply identities_are_isolated_passes].
Qed.
End tests.
End RateLimitTests.

(** ** [authz/identity.rs] *)

Module IdentityTests.
Import Identity.

Section tests.
(** [std::fs::read] of the generated certificate, and [parse_x509_pem] *)
Context (from_der : bytes → option X509Certificate).
Context (read_cert : result bytes string) (pem_contents : bytes → option bytes).

Definition rejects_garbage_certificate : bool :=
  negb (is_ok (parse_identity from_der (as_bytes "not a certificate"))).

(** Skipped, and passed, if the certificate was not generated. *)
Definition reads_uri_san_from_generated_cert : bool :=
  match read_cert with
  | Err _ => true
  | Ok pem =>
      match pem_contents pem with
      | Some contents =>
          match parse_identity from_der contents with
          | Ok identity => String.eqb identity "spiffe://local/ns/default/sa/payments"
          | Err _ => false
          end
      | None => false
      end
  end.

(** The tests of the identity pass, if the parser refuses what is no certificate and
    the generated one has the URI as the first of its alternative names. *)
Theorem identity_tests_pass :
  from_der (as_bytes "not a certificate") = None →
  (∀ pem, read_cert = Ok pem → ∃ contents cert, pem_contents pem = Some contents ∧
     from_der contents = Some cert ∧ head (uris cert) = Some "spiffe://local/ns/default/sa/payments") →
  rejects_garbage_certificate = true ∧ reads_uri_san_from_generated_cert = true.
Proof.
  intros Hg Hc. unfold rejects_garbage_certificate, reads_uri_san_from_generated_cert. split.
  - unfold parse_identity. by rewrite Hg.
  - destruct read_cert as [pem|]; [|done]. destruct (Hc pem eq_refl) as (contents&cert&->&Hd&Hu).
    unfold parse_identity. rewrite Hd, first_uri_flat. fold (uris cert). by rewrite Hu.
Qed.
End tests.
End IdentityTests.
